(* ===== verification/_CoqProject ===== *)
-Q . S2P
Prelude.v
Conc.v
EventApi.v
Event.v
AsyncMutex.v
SyncMutex.v
Semaphore.v
RwLock.v
Barrier.v
Stream.v
Io.v
BufIo.v
LineIo.v
TransferIo.v
Futures.v
Colo.v
QueueSpec.v
Single.v
Bounded.v
BoundedProof.v
Unbounded.v
UnboundedInv.v
UnboundedWords.v
UnboundedPush.v
UnboundedPop.v
UnboundedProof.v
Queue.v
Parking.v
AtomicWaker.v
Pipe.v
PipeProof.v
Tokens.v
Channel.v
ChannelProof.v
Executor.v
SleeperProof.v
ExecutorProof.v
Reactor.v
ReadBuf.v
Layout.v
Rander.v
RanderProof.v
Task.v
TaskSteps.v
TaskSafe.v
