(* ===== verification/Prelude.v ===== *)
(** Cynthia: shared vocabulary of the development (the header of the whole
    library is completed as components are added). *)

From Stdlib Require Export ZArith Lia.
From stdpp Require Export base tactics option numbers list.

#[global] Open Scope Z_scope.

(** * Machine integers

    [usize] is a 64-bit unsigned integer, kept as a [Z] in
    [0, 2^64).  Arithmetic that the code writes with [wrapping_*], and every
    atomic [fetch_add]/[fetch_sub], wraps; everything else is exact. *)

Definition usize_BITS : Z := 64.
Definition usize_MAX : Z := 2 ^ 64 - 1.
Definition isize_MAX : Z := 2 ^ 63 - 1.

Definition wrap (w x : Z) : Z := x mod 2 ^ w.
Definition wrapping_add (a b : Z) : Z := wrap 64 (a + b).
Definition wrapping_sub (a b : Z) : Z := wrap 64 (a - b).
Definition wrapping_mul (a b : Z) : Z := wrap 64 (a * b).

(** [!x] on a [usize]. *)
Definition wnot (x : Z) : Z := usize_MAX - x.

(** [state & mask != 0], the test every flag word of the code is read with. *)
Definition has (s mask : Z) : bool := negb (Z.land s mask =? 0).

Definition is_usize (x : Z) : Prop := 0 <= x <= usize_MAX.

Lemma wrap_small w x : 0 <= x < 2 ^ w -> wrap w x = x.
Proof. apply Z.mod_small. Qed.

Lemma wrap_range w x : 0 <= w -> 0 <= wrap w x < 2 ^ w.
Proof. intros ?. apply Z.mod_pos_bound. by apply Z.pow_pos_nonneg. Qed.

Lemma wrap_add_l w a b : wrap w (wrap w a + b) = wrap w (a + b).
Proof. apply Zplus_mod_idemp_l. Qed.

Lemma wrap_sub_l w a b : wrap w (wrap w a - b) = wrap w (a - b).
Proof. apply Zminus_mod_idemp_l. Qed.

(** The low bit survives the wrap. *)
Lemma wrap_mod2 w x : 0 < w -> wrap w x mod 2 = x mod 2.
Proof.
  intros Hw. unfold wrap. replace (2 ^ w) with (2 * 2 ^ (w - 1)).
  - rewrite <- Znumtheory.Zmod_div_mod; [done|lia| |by exists (2 ^ (w - 1)); lia].
    pose proof (Z.pow_pos_nonneg 2 (w - 1)). lia.
  - rewrite <- Z.pow_succ_r by lia. f_equal. lia.
Qed.

Lemma lor_1_even s : s mod 2 = 0 -> Z.lor s 1 = s + 1.
Proof.
  intros Hs. assert (Z.odd s = false) as Ho by (rewrite Zmod_odd in Hs; by destruct (Z.odd s)).
  rewrite <- Z.lxor_lor, <- Z.add_nocarry_lxor; [done|..];
    apply Z.bits_inj'; intros n Hn; rewrite Z.land_spec, Z.bits_0;
    (destruct (decide (n = 0)) as [->|];
     [rewrite Z.bit0_odd, Ho; done|rewrite (Z.bits_above_log2 1) by (simpl; lia); apply andb_false_r]).
Qed.

Lemma lor_1_odd s : s mod 2 = 1 -> Z.lor s 1 = s.
Proof.
  intros Hs. replace s with ((s - 1) + 1) at 1 by lia.
  assert (Hm : (s - 1) mod 2 = 0) by (rewrite Zminus_mod, Hs; done).
  rewrite <- lor_1_even, <- Z.lor_assoc, Z.lor_diag, lor_1_even by done. lia.
Qed.

Lemma land_1 s : Z.land s 1 = s mod 2.
Proof. apply (Z.land_ones s 1). lia. Qed.

Lemma land_ldiff s a b : Z.land s (Z.ldiff a b) = Z.ldiff (Z.land s a) b.
Proof.
  apply Z.bits_inj'. intros n Hn.
  by rewrite Z.land_spec, !Z.ldiff_spec, Z.land_spec, andb_assoc.
Qed.

(** [s & !mask] clears bits. *)
Lemma land_wnot s mask : 0 <= s <= usize_MAX -> 0 <= mask <= usize_MAX ->
  Z.land s (wnot mask) = Z.ldiff s mask.
Proof.
  intros Hs Hm. assert (E : wnot mask = Z.ldiff (Z.ones 64) mask).
  { unfold wnot. change usize_MAX with (Z.ones 64). apply Z.sub_nocarry_ldiff.
    apply Z.bits_inj'. intros n Hn. rewrite Z.ldiff_spec, Z.bits_0.
    destruct (Z.ltb_spec n 64).
    - rewrite Z.ones_spec_low by lia. apply andb_false_r.
    - rewrite (Z.bits_above_log2 mask); [done|lia|].
      destruct (decide (mask = 0)) as [->|]; [simpl; lia|].
      apply Z.lt_le_trans with 64; [|lia]. apply Z.log2_lt_pow2; unfold usize_MAX in Hm; lia. }
  rewrite E, land_ldiff, Z.land_ones by lia. rewrite Z.mod_small; [done|].
  unfold usize_MAX in Hs. lia.
Qed.

Lemma land_wnot_1 s : 0 <= s <= usize_MAX -> Z.land s (wnot 1) = s - s mod 2.
Proof.
  intros Hs. rewrite land_wnot by (done || (vm_compute; intuition discriminate)).
  change 1 with (Z.ones 1) at 1. rewrite Z.ldiff_ones_r by lia.
  rewrite Z.shiftl_mul_pow2, Z.shiftr_div_pow2 by lia.
  change (2 ^ 1) with 2. pose proof (Z.div_mod s 2 ltac:(lia)). lia.
Qed.

Lemma sum_list_fmap_add {A} (f g : A -> nat) l :
  sum_list ((fun x => (f x + g x)%nat) <$> l) = (sum_list (f <$> l) + sum_list (g <$> l))%nat.
Proof. induction l as [|x l IH]; [done|]. rewrite !fmap_cons. cbn [sum_list_with]. unfold id in *. lia. Qed.

(** * Results of the standard library *)

Inductive result (T E : Type) : Type :=
| Ok (t : T)
| Err (e : E).
Arguments Ok {T E} t.
Arguments Err {T E} e.

Inductive poll (T : Type) : Type :=
| Ready (t : T)
| Pending.
Arguments Ready {T} t.
Arguments Pending {T}.

#[export] Instance poll_fmap : FMap poll :=
  fun A B f p => match p with Ready a => Ready (f a) | Pending => Pending end.
