(* ===== verification/Conc.v ===== *)
(** Interleaved programs.

    [prog Σ A] is the code of one operation on a shared object of state [Σ],
    as a tree of atomic actions: [Act f] is one atomic access (a load, a
    store, a compare-exchange, a fetch-and-modify, a critical section of a
    standard-library mutex), which is not enabled when [f σ] is [None] (the
    thread is parked or waits for a lock); [Pick] is a choice the code does
    not determine (a spurious failure, a timeout, the user's future);
    [ProcAbort] is [process::abort]; [Crash] is everything a correct program
    never does (a failed assertion, an access to freed memory, a value
    dropped twice); [OutOfFuel] ends a retry loop whose bound was used up,
    and never takes a step.

    A [config] is a pool of threads over one shared state, each running
    operations of its own choice among those the values it owns allow (the
    "most general client").  Memory orderings are modelled as sequential
    consistency: an execution is an interleaving of atomic actions.

    The proof method is at the end: [ok m p Q] says that the tokens [m] the
    thread owns justify every action of [p] against the invariant [I], for
    every set of tokens owned by the others; [run_invariant] lifts it to all
    executions of all pools. *)

From stdpp Require Export gmultiset.
From S2P Require Export Prelude.

Inductive prog (Σ A : Type) : Type :=
| Ret (a : A)
| Act (f : Σ -> option (Σ * prog Σ A))
| Pick (k : bool -> prog Σ A)
| ProcAbort
| Crash
| OutOfFuel.
Arguments Ret {Σ A} a.
Arguments Act {Σ A} f.
Arguments Pick {Σ A} k.
Arguments ProcAbort {Σ A}.
Arguments Crash {Σ A}.
Arguments OutOfFuel {Σ A}.

Fixpoint prog_bind {Σ A B} (k : A -> prog Σ B) (p : prog Σ A) : prog Σ B :=
  match p with
  | Ret a => k a
  | Act f => Act (fun σ => match f σ with
                           | Some (σ', p') => Some (σ', prog_bind k p')
                           | None => None
                           end)
  | Pick c => Pick (fun b => prog_bind k (c b))
  | ProcAbort => ProcAbort
  | Crash => Crash
  | OutOfFuel => OutOfFuel
  end.

#[export] Instance prog_mret Σ : MRet (prog Σ) := fun A => Ret.
#[export] Instance prog_mbind Σ : MBind (prog Σ) := fun A B => prog_bind.

(** An action that always succeeds and returns a value. *)
Definition atomic {Σ A} (f : Σ -> A * Σ) : prog Σ A :=
  Act (fun σ => let '(a, σ') := f σ in Some (σ', Ret a)).

(** An action that is only enabled when [f] has a result. *)
Definition await {Σ A} (f : Σ -> option (A * Σ)) : prog Σ A :=
  Act (fun σ => match f σ with
                | Some (a, σ') => Some (σ', Ret a)
                | None => None
                end).

Definition is_abort {Σ A} (p : prog Σ A) : bool :=
  match p with ProcAbort => true | _ => false end.
Definition is_crash {Σ A} (p : prog Σ A) : bool :=
  match p with Crash => true | _ => false end.

(** * Running one operation alone *)

Inductive outcome (Σ A : Type) : Type :=
| Done (a : A) (σ : Σ)
| Blocked (σ : Σ)
| Aborted
| Crashed
| NoFuel.
Arguments Done {Σ A} a σ.
Arguments Blocked {Σ A} σ.
Arguments Aborted {Σ A}.
Arguments Crashed {Σ A}.
Arguments NoFuel {Σ A}.

(** [solo cs p σ]: [p] with no interference; [cs] are the choices made. *)
Fixpoint solo {Σ A} (p : prog Σ A) (cs : list bool) (σ : Σ) : outcome Σ A :=
  match p with
  | Ret a => Done a σ
  | Act f => match f σ with
             | Some (σ', p') => solo p' cs σ'
             | None => Blocked σ
             end
  | Pick k => match cs with
              | [] => solo (k false) [] σ
              | b :: cs => solo (k b) cs σ
              end
  | ProcAbort => Aborted
  | Crash => Crashed
  | OutOfFuel => NoFuel
  end.

(** * Pools of threads *)

Section pool.
Context {Σ Op R C : Type}.
(** The code of an operation; what a thread owning [c] still owns once it
    has moved the arguments of [op] into the call ([None]: it does not own
    them); and what it owns when the call has returned. *)
Context (code : Op -> prog Σ R).
Context (start : C -> Op -> option C) (finish : C -> Op -> R -> C).

Record thread := Thread { owns : C; running : option (Op * prog Σ R) }.
Record config := Config { shared : Σ; threads : list thread }.

Inductive event := EStart (i : nat) (op : Op) | EStep (i : nat) (b : bool).

Definition thread_aborted (t : thread) : bool :=
  match running t with Some (_, p) => is_abort p | None => false end.
Definition thread_crashed (t : thread) : bool :=
  match running t with Some (_, p) => is_crash p | None => false end.

(** One step of a running thread. *)
Definition thread_step (b : bool) (σ : Σ) (t : thread) : option (Σ * thread) :=
  match running t with
  | None => None
  | Some (op, p) =>
      match p with
      | Ret r => Some (σ, Thread (finish (owns t) op r) None)
      | Act f => match f σ with
                 | Some (σ', p') => Some (σ', Thread (owns t) (Some (op, p')))
                 | None => None
                 end
      | Pick k => Some (σ, Thread (owns t) (Some (op, k b)))
      | ProcAbort | Crash | OutOfFuel => None
      end
  end.

Definition thread_start (op : Op) (t : thread) : option thread :=
  match running t with
  | Some _ => None
  | None => match start (owns t) op with
            | Some c' => Some (Thread c' (Some (op, code op)))
            | None => None
            end
  end.

(** Nothing moves once a thread has aborted the process. *)
Definition fire (e : event) (c : config) : option config :=
  if existsb thread_aborted (threads c) then None else
  match e with
  | EStart i op =>
      t ← threads c !! i; t' ← thread_start op t;
      Some (Config (shared c) (<[i := t']> (threads c)))
  | EStep i b =>
      t ← threads c !! i; '(σ', t') ← thread_step b (shared c) t;
      Some (Config σ' (<[i := t']> (threads c)))
  end.

Fixpoint run (es : list event) (c : config) : option config :=
  match es with
  | [] => Some c
  | e :: es => c' ← fire e c; run es c'
  end.

Definition reachable (c c' : config) : Prop := exists es, run es c = Some c'.

(** A concrete execution. *)
Definition after (es : list event) (c : config) : config := default c (run es c).
Definition runs (es : list event) (c : config) : bool :=
  match run es c with Some _ => true | None => false end.

Lemma after_run es c : runs es c = true -> run es c = Some (after es c).
Proof. unfold runs, after. by destruct (run es c). Qed.

Lemma after_reachable es c : runs es c = true -> reachable c (after es c).
Proof. intros ?. exists es. by apply after_run. Qed.
End pool.
Arguments thread Σ Op R C : clear implicits.
Arguments config Σ Op R C : clear implicits.
Arguments Thread {Σ Op R C}.
Arguments Config {Σ Op R C}.
Arguments event Op : clear implicits.
Arguments EStart {Op}.
Arguments EStep {Op}.

Lemma all_idle {Σ Op R C} (ts : list (thread Σ Op R C)) :
  forallb (fun t => match running t with None => true | Some _ => false end) ts = true ->
  Forall (fun t => running t = None) ts.
Proof.
  intros Hb. apply Forall_forall. intros t Ht. rewrite forallb_forall in Hb.
  specialize (Hb t ltac:(by apply list_elem_of_In)). by destruct (running t).
Qed.

(** * The proof method *)

(** Induction over a program: every continuation of an action is smaller. *)
Section prog_induction.
Context {Σ A : Type} (P : prog Σ A -> Prop).
Context (HRet : forall a, P (Ret a)) (HPick : forall k, (forall b, P (k b)) -> P (Pick k)).
Context (HAct : forall f, (forall σ σ' p, f σ = Some (σ', p) -> P p) -> P (Act f)).
Context (HAbort : P ProcAbort) (HCrash : P Crash) (HFuel : P OutOfFuel).

Fixpoint prog_induction (p : prog Σ A) : P p :=
  match p with
  | Ret a => HRet a
  | Act f => HAct f (fun σ σ' q =>
      match f σ as o return o = Some (σ', q) -> P q with
      | Some (s, q') => fun e =>
          eq_ind q' P (prog_induction q') q
            (f_equal (fun o => match o with Some (_, x) => x | None => q' end) e)
      | None => fun e => False_ind _ (eq_ind None (fun o => match o with Some _ => False | None => True end) Logic.I _ e)
      end)
  | Pick k => HPick k (fun b => prog_induction (k b))
  | ProcAbort => HAbort
  | Crash => HCrash
  | OutOfFuel => HFuel
  end.
End prog_induction.

(** * Lists of tokens *)

(** How often [x] occurs. *)
Fixpoint occ {A} `{EqDecision A} (x : A) (l : list A) : nat :=
  match l with [] => 0 | y :: l => (if decide (x = y) then 1 else 0) + occ x l end.

Lemma occ_app {A} `{EqDecision A} (x : A) l1 l2 : occ x (l1 ++ l2) = (occ x l1 + occ x l2)%nat.
Proof. induction l1 as [|y l1 IH]; simpl; lia. Qed.

Lemma occ_NoDup {A} `{EqDecision A} (l : list A) : (forall x, (occ x l <= 1)%nat) -> NoDup l.
Proof.
  induction l as [|y l IH]; intros Hl; constructor.
  - intros Hy. specialize (Hl y). simpl in Hl. rewrite decide_True in Hl by done.
    assert (occ y l <> 0%nat); [|lia]. clear -Hy. induction Hy; simpl; [by rewrite decide_True|].
    destruct (decide _); lia.
  - apply IH. intros x. specialize (Hl x). simpl in Hl. lia.
Qed.

Lemma occ_replicate_ne {A} `{EqDecision A} (x y : A) n : x <> y -> occ x (replicate n y) = 0%nat.
Proof. intros Hne. induction n as [|n IH]; [done|]. cbn [replicate occ]. by rewrite decide_False. Qed.

Lemma occ_replicate {A} `{EqDecision A} (x : A) n y : occ x (replicate n y) = if bool_decide (x = y) then n else 0%nat.
Proof.
  case_bool_decide as Hd; [subst|by apply occ_replicate_ne].
  induction n as [|n IH]; [done|]. cbn [replicate occ]. rewrite IH, decide_True by done. lia.
Qed.

Lemma occ_bind {A B} `{EqDecision B} (x : B) (f : A -> list B) l : occ x (l ≫= f) = sum_list ((fun a => occ x (f a)) <$> l).
Proof. induction l as [|a l IH]; [done|]. by rewrite bind_cons, occ_app, IH. Qed.

Lemma occ_elem {A} `{EqDecision A} (x : A) l : x ∈ l <-> occ x l <> 0%nat.
Proof.
  induction l as [|y l IH]; simpl; [by rewrite elem_of_nil|].
  rewrite elem_of_cons, IH. destruct (decide (x = y)); naive_solver lia.
Qed.

Lemma Permutation_occ {A} `{EqDecision A} (l l' : list A) : (forall x, occ x l = occ x l') -> l ≡ₚ l'.
Proof.
  revert l'. induction l as [|y l IH]; intros l' Hl.
  - destruct l' as [|z l']; [done|]. specialize (Hl z). cbn [occ] in Hl. rewrite decide_True in Hl by done. lia.
  - assert (Hy : y ∈ l') by (apply occ_elem; rewrite <- Hl; cbn [occ]; rewrite decide_True by done; lia).
    apply list_elem_of_split in Hy as (l1 & l2 & ->). rewrite <- Permutation_middle. constructor. apply IH.
    intros x. specialize (Hl x). rewrite occ_app in *. cbn [occ] in Hl. lia.
Qed.

Lemma multiplicity_list {A} `{Countable A} (x : A) l :
  multiplicity x (list_to_set_disj l : gmultiset A) = occ x l.
Proof.
  induction l as [|y l IH]; [done|]. rewrite list_to_set_disj_cons, multiplicity_disj_union, IH.
  simpl. f_equal. destruct (decide (x = y)) as [->|]; [apply multiplicity_singleton_eq|].
  by apply multiplicity_singleton_ne.
Qed.

Lemma occ_perm {A} `{EqDecision A} (x : A) l l' : l ≡ₚ l' -> occ x l = occ x l'.
Proof. induction 1; cbn [occ]; lia. Qed.

Section ok.
Context {Σ : Type} {K} `{Countable K} (I : Σ -> gmultiset K -> Prop).

Fixpoint ok {A} (m : gmultiset K) (p : prog Σ A) (Q : gmultiset K -> A -> Prop) : Prop :=
  match p with
  | Ret a => Q m a
  | Act f => forall σ fr, I σ (m ⊎ fr) ->
      match f σ with
      | None => True
      | Some (σ', p') =>
          is_abort p' = true \/ exists m', I σ' (m' ⊎ fr) /\ ok m' p' Q
      end
  | Pick k => forall b, ok m (k b) Q
  | ProcAbort => True
  | Crash => False
  | OutOfFuel => True
  end.

Lemma ok_mono {A} m p (Q Q' : gmultiset K -> A -> Prop) :
  ok m p Q -> (forall m a, Q m a -> Q' m a) -> ok m p Q'.
Proof.
  intros Hp HQ. revert m Hp.
  induction p as [a|k IH|f IH| | |] using prog_induction; intros m Hp; simpl in *; auto.
  intros σ fr HI. specialize (Hp σ fr HI).
  destruct (f σ) as [[σ' p']|] eqn:E; [|done].
  destruct Hp as [?|(m' & HI' & Hp)]; [by left|right].
  exists m'. eauto.
Qed.

Lemma ok_pick {A} m (k : bool -> prog Σ A) Q : (forall b, ok m (k b) Q) -> ok m (Pick k) Q.
Proof. done. Qed.

(** Sequencing. *)
Lemma ok_bind {A B} m (p : prog Σ A) (k : A -> prog Σ B) Q :
  ok m p (fun m' a => ok m' (k a) Q) -> ok m (p ≫= k) Q.
Proof.
  change (p ≫= k) with (prog_bind k p).
  revert m. induction p as [a|c IH|f IH| | |] using prog_induction;
    intros m Hp; simpl in *; auto.
  intros σ fr HI. specialize (Hp σ fr HI).
  destruct (f σ) as [[σ' p']|] eqn:E; [|done].
  destruct Hp as [Ha|(m' & HI' & Hp)].
  - left. by destruct p'.
  - right. exists m'. split; [done|]. by eapply IH.
Qed.

Lemma ok_atomic {A} m (f : Σ -> A * Σ) Q :
  (forall σ fr, I σ (m ⊎ fr) ->
     exists m', I (snd (f σ)) (m' ⊎ fr) /\ Q m' (fst (f σ))) ->
  ok m (atomic f) Q.
Proof.
  intros Hf σ fr HI. destruct (Hf σ fr HI) as (m' & HI' & HQ).
  simpl. destruct (f σ) as [a σ']; simpl in *. right. by exists m'.
Qed.

Lemma ok_await {A} m (f : Σ -> option (A * Σ)) Q :
  (forall σ fr a σ', I σ (m ⊎ fr) -> f σ = Some (a, σ') ->
     exists m', I σ' (m' ⊎ fr) /\ Q m' a) ->
  ok m (await f) Q.
Proof.
  intros Hf σ fr HI. simpl.
  destruct (f σ) as [[a σ']|] eqn:E; [|done].
  destruct (Hf σ fr a σ' HI E) as (m' & HI' & HQ). right. by exists m'.
Qed.

(** Tokens a program does not need are kept. *)
Lemma ok_frame {A} r m (p : prog Σ A) (Q : gmultiset K -> A -> Prop) :
  ok m p Q -> ok (m ⊎ r) p (fun m' a => exists m1, m' = m1 ⊎ r /\ Q m1 a).
Proof.
  revert m. induction p as [a|k IH|f IH| | |] using prog_induction; intros m Hp; simpl in *; eauto.
  intros σ fr HI. rewrite <- (assoc_L (⊎)) in HI. specialize (Hp σ _ HI).
  destruct (f σ) as [[σ' p']|] eqn:E; [|done]. destruct Hp as [?|(m' & HI' & Hp)]; [by left|right].
  exists (m' ⊎ r). rewrite <- (assoc_L (⊎)). eauto.
Qed.

(** An invariant that counts tokens; an action that exchanges the tokens
    [L] for others. *)
Lemma ok_exchange {A} (tally : Σ -> (K -> nat) -> Prop) (f : Σ -> option (Σ * prog Σ A)) L Q :
  (forall σ c c', (forall t, c t = c' t) -> tally σ c -> tally σ c') ->
  (forall σ m, I σ m <-> tally σ (fun t => multiplicity t m)) ->
  (forall σ (c : K -> nat), tally σ (fun t => occ t L + c t)%nat ->
     match f σ with
     | None => True
     | Some (σ', p) => is_abort p = true \/ exists a L', p = Ret a /\ tally σ' (fun t => occ t L' + c t)%nat /\ Q (list_to_set_disj L') a
     end) ->
  ok (list_to_set_disj L) (Act f) Q.
Proof.
  intros Hext HI Hf σ fr Hσ. apply HI in Hσ. specialize (Hf σ (fun t => multiplicity t fr)).
  assert (Hm : forall L t, multiplicity t (list_to_set_disj L ⊎ fr) = (occ t L + multiplicity t fr)%nat)
    by (intros; by rewrite multiplicity_disj_union, multiplicity_list).
  specialize (Hf (Hext _ _ _ (Hm L) Hσ)). destruct (f σ) as [[σ' p']|]; [|done].
  destruct Hf as [?|(a & L' & -> & Ht & HQ)]; [by left|right].
  exists (list_to_set_disj L'). split; [|done]. apply HI. eapply Hext; [|exact Ht]. intros t. symmetry. apply Hm.
Qed.

(** An action that leaves the shared state alone. *)
Lemma ok_read {A} m (f : Σ -> A) Q :
  (forall σ fr, I σ (m ⊎ fr) -> Q m (f σ)) ->
  ok m (atomic (fun σ => (f σ, σ))) Q.
Proof. intros Hf. apply ok_atomic. intros σ fr HI. exists m. eauto. Qed.
End ok.

(** * Parts of a shared state

    A component of the state with an invariant and tokens of its own can be
    verified once and used inside a larger one: [Sub] says that the
    component [S] is reached by [get]/[put], that the tokens [mine] are its
    own, and that the invariant [I] of the whole is its invariant [Inv] and
    something that sees neither the component nor its tokens. *)

Section sub.
Context {Σ S K : Type} `{Countable K} (get : Σ -> S) (put : S -> Σ -> Σ).
Context (mine : K -> Prop) (Inv : S -> gmultiset K -> Prop) (I : Σ -> gmultiset K -> Prop).

Definition agree_off (m m' : gmultiset K) : Prop :=
  forall k, ~ mine k -> multiplicity k m = multiplicity k m'.

Class Sub := {
  rest : Σ -> gmultiset K -> Prop;
  sub_split σ m : I σ m <-> Inv (get σ) m /\ rest σ m;
  sub_put s σ m : rest σ m -> rest (put s σ) m;
  sub_mine σ m m' : agree_off m m' -> rest σ m -> rest σ m';
  sub_get s σ : get (put s σ) = s }.
Context `{!Sub}.

Lemma sub_elim σ m : I σ m -> Inv (get σ) m.
Proof. intros ?%sub_split. naive_solver. Qed.

(** The component moves, the rest stays. *)
Lemma sub_step s' σ m m' fr :
  I σ (m ⊎ fr) -> Inv s' (m' ⊎ fr) -> agree_off m m' -> I (put s' σ) (m' ⊎ fr).
Proof.
  intros [_ Hr]%sub_split HInv Hoff. apply sub_split. rewrite sub_get.
  split; [done|]. apply sub_put. eapply sub_mine; [|done].
  intros k Hk. rewrite !multiplicity_disj_union, (Hoff k Hk). done.
Qed.

Lemma ok_sub {A} m (f : S -> option (S * A)) (Q : gmultiset K -> A -> Prop) :
  (forall s fr, Inv s (m ⊎ fr) -> match f s with
     | None => False
     | Some (s', a) => exists m', Inv s' (m' ⊎ fr) /\ agree_off m m' /\ Q m' a
     end) ->
  ok I m (Act (fun σ => match f (get σ) with
                        | Some (s', a) => Some (put s' σ, Ret a)
                        | None => Some (σ, Crash)
                        end)) Q.
Proof.
  intros Hf σ fr HI. specialize (Hf (get σ) fr (sub_elim _ _ HI)).
  destruct (f (get σ)) as [[s' a]|]; [|done]. destruct Hf as (m' & HInv & Hoff & HQ).
  right. exists m'. split; [|done]. by eapply sub_step.
Qed.

(** The same for an action that always has a result. *)
Lemma ok_sub_atomic {A} m (f : S -> A * S) (Q : gmultiset K -> A -> Prop) :
  (forall s fr, Inv s (m ⊎ fr) ->
     exists m', Inv (snd (f s)) (m' ⊎ fr) /\ agree_off m m' /\ Q m' (fst (f s))) ->
  ok I m (atomic (fun σ => (fst (f (get σ)), put (snd (f (get σ))) σ))) Q.
Proof.
  intros Hf. apply ok_atomic. intros σ fr HI.
  destruct (Hf (get σ) fr (sub_elim _ _ HI)) as (m' & HInv & Hoff & HQ).
  exists m'. split; [|done]. by eapply sub_step.
Qed.
End sub.
Arguments Sub {Σ S K _ _} get put mine Inv I.
Arguments rest {Σ S K _ _ get put mine Inv I} _ σ m.
Arguments sub_split {Σ S K _ _ get put mine Inv I} _ σ m.
Arguments sub_put {Σ S K _ _ get put mine Inv I} _ s σ m.
Arguments sub_mine {Σ S K _ _ get put mine Inv I} _ σ m m'.
Arguments sub_get {Σ S K _ _ get put mine Inv I} _ s σ.

Section sub_trans.
Context {Σ S T K : Type} `{Countable K}.
Context (get : Σ -> S) (put : S -> Σ -> Σ) (mine : K -> Prop) (Inv : S -> gmultiset K -> Prop).
Context (get' : S -> T) (put' : T -> S -> S) (mine' : K -> Prop) (Inv' : T -> gmultiset K -> Prop).
Context (I : Σ -> gmultiset K -> Prop).

Definition put_in (t : T) (σ : Σ) : Σ := put (put' t (get σ)) σ.

(** Components nest. *)
Lemma Sub_trans :
  (forall k, mine' k -> mine k) ->
  Sub get put mine Inv I -> Sub get' put' mine' Inv' Inv ->
  Sub (fun σ => get' (get σ)) put_in mine' Inv' I.
Proof.
  intros Hm S1 S2.
  refine {| rest σ m := rest S1 σ m /\
                        rest S2 (get σ) m |}; unfold put_in.
  - intros σ m. rewrite (sub_split S1), (sub_split S2). tauto.
  - intros t σ m [H1 H2]. rewrite (sub_get S1).
    split; [by apply (sub_put S1)|by apply (sub_put S2)].
  - intros σ m m' Ho [H1 H2]. split.
    + eapply (sub_mine S1); [|done]. intros k Hk. apply Ho. auto.
    + by eapply (sub_mine S2).
  - intros t σ. by rewrite (sub_get S1), (sub_get S2).
Qed.
End sub_trans.

(** * Atomic words

    The read-modify-write operations on an [AtomicUsize] reached by [wget]
    and [wput]; each returns the previous value. *)

Section words.
Context {Σ : Type} (wget : Σ -> Z) (wput : Z -> Σ -> Σ).

Definition rmw (f : Z -> Z) : prog Σ Z :=
  atomic (fun σ => (wget σ, wput (f (wget σ)) σ)).
Definition load : prog Σ Z := atomic (fun σ => (wget σ, σ)).
Definition fetch_add (n : Z) : prog Σ Z := rmw (fun s => wrapping_add s n).
Definition fetch_sub (n : Z) : prog Σ Z := rmw (fun s => wrapping_sub s n).
Definition fetch_or (n : Z) : prog Σ Z := rmw (fun s => Z.lor s n).
Definition fetch_and (n : Z) : prog Σ Z := rmw (fun s => Z.land s n).
Definition swap (n : Z) : prog Σ Z := rmw (fun _ => n).
(** [compare_exchange(a, b)], merged into the value it saw. *)
Definition cas_value (a b : Z) : prog Σ Z := rmw (fun s => if s =? a then b else s).
Definition cas (a b : Z) : prog Σ (result Z Z) :=
  s ← cas_value a b; mret (if s =? a then Ok s else Err s).
End words.

Section pool_sound.
Context {Σ Op R C : Type} {K} `{Countable K}.
Context (code : Op -> prog Σ R).
Context (start : C -> Op -> option C) (finish : C -> Op -> R -> C).
Context (I : Σ -> gmultiset K -> Prop) (tok : C -> gmultiset K).

(** Each operation is justified by the tokens of the values moved into it,
    and ends with the tokens of the values it returns. *)
Definition ops_ok : Prop := forall c op c',
  start c op = Some c' ->
  exists m, tok c = tok c' ⊎ m /\
    ok I m (code op) (fun m' r => tok (finish c' op r) = tok c' ⊎ m').

Definition thread_ok (t : thread Σ Op R C) (m : gmultiset K) : Prop :=
  match running t with
  | None => m = tok (owns t)
  | Some (op, p) => exists mp, m = tok (owns t) ⊎ mp /\
      ok I mp p (fun m' r => tok (finish (owns t) op r) = tok (owns t) ⊎ m')
  end.

Definition pool_inv (c : config Σ Op R C) : Prop :=
  existsb thread_aborted (threads c) = true \/
  exists ms, Forall2 thread_ok (threads c) ms /\ I (shared c) (⋃+ ms).

Lemma disj_union_list_insert (ms : list (gmultiset K)) i m :
  ms !! i = Some m ->
  exists fr, ⋃+ ms = m ⊎ fr /\ forall m', ⋃+ (<[i := m']> ms) = m' ⊎ fr.
Proof.
  revert i. induction ms as [|x ms IH]; intros [|i] Hi; simplify_eq/=.
  - by exists (⋃+ ms).
  - destruct (IH i Hi) as (fr & E & Eins).
    exists (x ⊎ fr). rewrite E. split; [multiset_solver|].
    intros m'. rewrite Eins. multiset_solver.
Qed.

Lemma existsb_insert_aborted (ts : list (thread Σ Op R C)) i t :
  (i < length ts)%nat -> thread_aborted t = true ->
  existsb thread_aborted (<[i := t]> ts) = true.
Proof.
  intros Hi Ht. apply existsb_exists. exists t. split; [|done].
  apply list_elem_of_In, list_elem_of_lookup. exists i.
  by apply list_lookup_insert_eq.
Qed.

Lemma thread_step_ok b σ t m fr :
  thread_ok t m -> I σ (m ⊎ fr) ->
  match thread_step finish b σ t with
  | None => True
  | Some (σ', t') => thread_aborted t' = true \/
      exists m', thread_ok t' m' /\ I σ' (m' ⊎ fr)
  end.
Proof.
  destruct t as [c [[op p]|]]; unfold thread_ok, thread_step; simpl; [|done].
  intros (mp & -> & Hok) HI.
  destruct p as [r|f|k| | |]; simpl in *; auto.
  - right. exists (tok c ⊎ mp). auto.
  - rewrite <- (assoc_L (⊎)), (comm_L (⊎)), <- (assoc_L (⊎)) in HI.
    specialize (Hok σ (fr ⊎ tok c) HI). destruct (f σ) as [[σ' p']|]; [|done].
    destruct Hok as [Ha|(m' & HI' & Hok)].
    + left. done.
    + right. exists (tok c ⊎ m'). split; [by exists m'|].
      by rewrite <- (assoc_L (⊎)), (comm_L (⊎)), <- (assoc_L (⊎)).
  - right. exists (tok c ⊎ mp). split; [|done]. exists mp. auto.
Qed.

Lemma fire_inv e c c' :
  ops_ok -> pool_inv c -> fire code start finish e c = Some c' -> pool_inv c'.
Proof.
  intros Hops Hc. unfold fire. destruct (existsb _ _) eqn:Ea; [done|].
  destruct Hc as [?|(ms & HF & HI)]; [congruence|].
  assert (Hpos : forall i t, threads c !! i = Some t -> exists m fr,
            thread_ok t m /\ I (shared c) (m ⊎ fr) /\
            forall t' m' σ', thread_ok t' m' -> I σ' (m' ⊎ fr) ->
              pool_inv (Config σ' (<[i := t']> (threads c)))).
  { intros i t Hi. destruct (Forall2_lookup_l _ _ _ _ _ HF Hi) as (m & Hm & Ht).
    destruct (disj_union_list_insert ms i m Hm) as (fr & E & Eins).
    exists m, fr. rewrite <- E. repeat split; auto.
    intros t' m' σ' Ht' HI'. right. exists (<[i := m']> ms). simpl.
    rewrite Eins. split; [by apply Forall2_insert|done]. }
  destruct e as [i op|i b]; destruct (threads c !! i) as [t|] eqn:Hi; simpl; try done;
    destruct (Hpos i t Hi) as (m & fr & Ht & HIm & Hput).
  - destruct t as [cw [x|]]; unfold thread_start; simpl; [done|].
    destruct (start cw op) as [cw'|] eqn:Es; simpl; [|done]. intros [= <-].
    destruct (Hops _ _ _ Es) as (mp & Etok & Hok).
    apply (Hput _ m); [|done]. unfold thread_ok in *; simpl in *; subst.
    exists mp. auto.
  - pose proof (thread_step_ok b _ _ _ _ Ht HIm) as Hs.
    destruct (thread_step finish b (shared c) t) as [[σ' t']|]; simpl; [|done].
    intros [= <-]. destruct Hs as [Hs|(m' & Ht' & HI')].
    + left. simpl. apply existsb_insert_aborted; [|done].
      by eapply lookup_lt_Some.
    + by apply (Hput _ m').
Qed.

Theorem run_inv es c c' :
  ops_ok -> pool_inv c -> run code start finish es c = Some c' -> pool_inv c'.
Proof.
  intros Hops. revert c. induction es as [|e es IH]; intros c Hc Hr; simpl in Hr.
  - by simplify_eq.
  - destruct (fire code start finish e c) as [c1|] eqn:Ef; simpl in Hr; [|done].
    eapply IH; [|done]. by eapply fire_inv.
Qed.

(** What a reachable pool that has not aborted satisfies. *)
Lemma pool_inv_elim c :
  pool_inv c -> existsb thread_aborted (threads c) = false ->
  exists ms, Forall2 thread_ok (threads c) ms /\ I (shared c) (⋃+ ms).
Proof. intros [?|?] ?; [congruence|done]. Qed.

Lemma pool_inv_no_crash c :
  pool_inv c -> existsb thread_aborted (threads c) = false ->
  existsb thread_crashed (threads c) = false.
Proof.
  intros Hc Ha. destruct (pool_inv_elim c Hc Ha) as (ms & HF & _).
  clear Hc Ha. induction HF as [|t m ts ms Ht HF IH]; [done|].
  simpl. rewrite IH, orb_false_r.
  destruct t as [cw [[op p]|]]; unfold thread_crashed; simpl; [|done].
  unfold thread_ok in Ht; simpl in Ht. destruct Ht as (mp & _ & Hok).
  by destruct p.
Qed.

(** The tokens of what the threads own are part of the tokens of the pool. *)
Lemma owned_tokens (ts : list (thread Σ Op R C)) ms :
  Forall2 thread_ok ts ms ->
  ⋃+ ((fun t => tok (owns t)) <$> ts) ⊆ ⋃+ ms.
Proof.
  induction 1 as [|t m ts ms Ht HF IH]; [done|].
  change (tok (owns t) ⊎ ⋃+ ((fun t => tok (owns t)) <$> ts) ⊆ m ⊎ ⋃+ ms).
  enough (tok (owns t) ⊆ m) by multiset_solver.
  unfold thread_ok in Ht. destruct (running t) as [[op p]|].
  - destruct Ht as (mp & -> & _). multiset_solver.
  - by subst.
Qed.

(** [n] threads that own nothing yet. *)
Definition fresh_pool (n : nat) (σ : Σ) (c : C) : config Σ Op R C :=
  Config σ (replicate n (Thread c None)).

Lemma fresh_pool_inv n σ c : tok c = ∅ -> I σ ∅ -> pool_inv (fresh_pool n σ c).
Proof.
  intros Hc HI. right. exists (replicate n ∅). simpl. split.
  - induction n as [|n IH]; simpl; constructor; [|done]. done.
  - replace (⋃+ replicate n ∅ : gmultiset K) with (∅ : gmultiset K); [done|].
    induction n as [|n IH]; [done|]. simpl. rewrite <- IH. by rewrite (left_id_L ∅ (⊎)).
Qed.

(** In every execution: nothing crashes, and the invariant holds of the
    tokens of what the threads own, and of some more held by operations
    under way. *)
Theorem pool_safe n σ c0 c :
  ops_ok -> tok c0 = ∅ -> I σ ∅ ->
  reachable code start finish (fresh_pool n σ c0) c ->
  existsb thread_aborted (threads c) = false ->
  existsb thread_crashed (threads c) = false /\
  exists fr, I (shared c) (⋃+ ((fun t => tok (owns t)) <$> threads c) ⊎ fr).
Proof.
  intros Hops Hc HI [es Hr] Ha.
  assert (Hinv : pool_inv c) by (eapply run_inv; [done| |done]; by apply fresh_pool_inv).
  split; [by apply pool_inv_no_crash|].
  destruct (pool_inv_elim c Hinv Ha) as (ms & HF & HIc).
  pose proof (owned_tokens _ _ HF) as Hsub.
  exists (⋃+ ms ∖ ⋃+ ((fun t => tok (owns t)) <$> threads c)).
  by rewrite <- gmultiset_disj_union_difference.
Qed.

Lemma multiplicity_owned k (ts : list (thread Σ Op R C)) :
  multiplicity k (⋃+ ((fun t => tok (owns t)) <$> ts))
  = sum_list ((fun t => multiplicity k (tok (owns t))) <$> ts).
Proof.
  induction ts as [|t ts IH]; [apply multiplicity_empty|].
  change (multiplicity k (tok (owns t) ⊎ ⋃+ ((fun t => tok (owns t)) <$> ts))
          = (multiplicity k (tok (owns t)) +
             sum_list ((fun t => multiplicity k (tok (owns t))) <$> ts))%nat).
  by rewrite multiplicity_disj_union, IH.
Qed.

Lemma owned_count k (f : C -> nat) (ts : list (thread Σ Op R C)) :
  (forall c, multiplicity k (tok c) = f c) ->
  multiplicity k (⋃+ ((fun t => tok (owns t)) <$> ts)) = sum_list ((fun t => f (owns t)) <$> ts).
Proof. intros Hf. rewrite multiplicity_owned. f_equal. apply list_fmap_ext. auto. Qed.

Lemma owned_none k (ts : list (thread Σ Op R C)) :
  (forall c, multiplicity k (tok c) = 0%nat) -> multiplicity k (⋃+ ((fun t => tok (owns t)) <$> ts)) = 0%nat.
Proof. intros Hk. rewrite multiplicity_owned. induction ts as [|t ts IH]; [done|]. cbn. by rewrite Hk. Qed.

(** With no operation under way there are no other tokens. *)
Lemma idle_tokens (ts : list (thread Σ Op R C)) ms :
  Forall2 thread_ok ts ms -> Forall (fun t => running t = None) ts ->
  ⋃+ ms = ⋃+ ((fun t => tok (owns t)) <$> ts).
Proof.
  intros HF Hi. f_equal. induction HF as [|t m ts ms Ht HF IH]; [done|].
  apply Forall_cons in Hi as [Ht' Hi]. rewrite fmap_cons, IH by done. f_equal.
  unfold thread_ok in Ht. by rewrite Ht' in Ht.
Qed.
End pool_sound.
