(* ===== verification/EventApi.v ===== *)
(** The interface between the event and its clients (the locks, the channel,
    the barrier).

    [EventOps] lists the operations a client performs on an event, each one
    critical section of the event's internal mutex; [EventLaws] is the
    contract: [ev_inv e L] says that the listeners alive on [e] are those of
    [L] (tagged [true] once a thread blocks on them), and every operation on
    a live listener succeeds.  [Event.v] implements the contract.

    The second half turns the operations into programs over a client's state,
    reached through [get] and [put], and proves what the programs do to the
    tokens of the listeners once and for all. *)

From stdpp Require Export gmap gmultiset.
From S2P Require Export Prelude Conc.

Abbreviation ptr := positive (only parsing).

(** Wakers and parked threads are names; waking one is recorded. *)
Inductive wake := WakeTask (w : nat) | Unpark (t : nat).

#[export] Instance wake_eq_dec : EqDecision wake.
Proof. solve_decision. Defined.

Class EventOps (E : Type) := {
  ev_new : E;
  (** the word that [notify] reads without the lock *)
  ev_word : E -> Z;
  (** no memory is left for another listener *)
  ev_full : E -> bool;
  ev_listen : E -> option (ptr * E);
  ev_notify : Z -> E -> option (E * list wake);
  ev_notify_additional : Z -> E -> option (E * list wake);
  ev_wait : ptr -> nat -> E -> option (bool * E);
  ev_poll : ptr -> nat -> E -> option (poll unit * E);
  ev_discard : ptr -> E -> option (bool * E);
  ev_drop : ptr -> E -> option (E * list wake) }.

Class EventLaws (E : Type) `{EventOps E} := {
  ev_inv : E -> gset (bool * ptr) -> Prop;
  ev_inv_new : ev_inv ev_new ∅;
  ev_inv_tag e L p : ev_inv e L -> (false, p) ∈ L -> (true, p) ∉ L;
  ev_inv_listen e L : ev_inv e L -> ev_full e = false -> exists p e',
    ev_listen e = Some (p, e') /\ (forall b, (b, p) ∉ L) /\ ev_inv e' ({[(false, p)]} ∪ L);
  ev_inv_notify e L n : ev_inv e L -> is_usize n -> exists e' ws,
    ev_notify n e = Some (e', ws) /\ ev_inv e' L;
  ev_inv_notify_additional e L n : ev_inv e L -> is_usize n -> exists e' ws,
    ev_notify_additional n e = Some (e', ws) /\ ev_inv e' L;
  ev_inv_wait e L b p t : ev_inv e L -> (b, p) ∈ L -> exists r e',
    ev_wait p t e = Some (r, e') /\
    ev_inv e' ((if r then ∅ else {[(true, p)]}) ∪ L ∖ {[(b, p)]});
  ev_inv_poll e L p w : ev_inv e L -> (false, p) ∈ L -> exists r e',
    ev_poll p w e = Some (r, e') /\
    ev_inv e' (match r with Ready _ => L ∖ {[(false, p)]} | Pending => L end);
  ev_inv_discard e L b p : ev_inv e L -> (b, p) ∈ L -> exists r e',
    ev_discard p e = Some (r, e') /\ ev_inv e' (L ∖ {[(b, p)]});
  ev_inv_drop e L b p : ev_inv e L -> (b, p) ∈ L -> exists e' ws,
    ev_drop p e = Some (e', ws) /\ ev_inv e' (L ∖ {[(b, p)]}) }.

(** * The operations as programs *)

Section programs.
Context {E} `{EventOps E} {Σ : Type} (get : Σ -> E) (put : E -> Σ -> Σ).

(** An operation of the event; [None] would be a dangling pointer. *)
Definition on_event {A} (f : E -> option (A * E)) : prog Σ A :=
  Act (fun σ => match f (get σ) with
                | Some (a, e) => Some (put e σ, Ret a)
                | None => Some (σ, Crash)
                end).

Definition flip_res {A} (f : E -> option (E * A)) (e : E) : option (unit * E) :=
  '(e', _) ← f e; Some ((), e').

(** [Event::listen]; a heap that cannot hold another listener aborts. *)
Definition listen_p : prog Σ ptr :=
  full ← atomic (fun σ => (ev_full (get σ), σ));
  if full : bool then ProcAbort else
  Act (fun σ => if ev_full (get σ) then Some (σ, ProcAbort) else
                match ev_listen (get σ) with
                | Some (p, e) => Some (put e σ, Ret p)
                | None => Some (σ, Crash)
                end).

(** [Event::notify]: one load, then perhaps one critical section. *)
Definition notify_p (n : Z) : prog Σ unit :=
  w ← atomic (fun σ => (ev_word (get σ), σ));
  if w <? n then on_event (flip_res (ev_notify n)) else mret ().

Definition notify_additional_p (n : Z) : prog Σ unit :=
  w ← atomic (fun σ => (ev_word (get σ), σ));
  if w <? usize_MAX then on_event (flip_res (ev_notify_additional n)) else mret ().

Definition drop_p (p : ptr) : prog Σ unit := on_event (flip_res (ev_drop p)).

(** [listener.await]: a first poll registers the waker; a pending listener
    is polled again once it is notified.  The future that contains the
    await may be dropped instead, which drops the listener: [false]. *)
Definition await_p (p : ptr) (w : nat) : prog Σ bool :=
  r ← on_event (ev_poll p w);
  match r with
  | Ready _ => mret true
  | Pending => Pick (fun cancel : bool =>
      if cancel then drop_p p ;; mret false
      else Act (fun σ => match ev_poll p w (get σ) with
                         | Some (Ready _, e) => Some (put e σ, Ret true)
                         | Some (Pending, _) => None
                         | None => Some (σ, Crash)
                         end))
  end.

(** [EventListener::wait] by the thread [t]: it parks until it is
    notified. *)
Definition wait_p (p : ptr) (t : nat) : prog Σ unit :=
  r ← on_event (ev_wait p t);
  if r : bool then mret () else
  Act (fun σ => match ev_wait p t (get σ) with
                | Some (true, e) => Some (put e σ, Ret ())
                | Some (false, _) => None
                | None => Some (σ, Crash)
                end).
End programs.

(** * Tokens of listeners

    A client whose tokens [K] include the listeners of the event ([lis]) and
    whose invariant [I] contains [ev_tokens] may use the programs above. *)

Section tokens.
Context {E} `{EventLaws E} {Σ : Type} (get : Σ -> E) (put : E -> Σ -> Σ).
Context {K} `{Countable K} (lis : bool * ptr -> K) `{!Inj (=) (=) lis}.
Context (I : Σ -> gmultiset K -> Prop).

Definition ev_tokens (e : E) (m : gmultiset K) : Prop :=
  exists L, ev_inv e L /\
    forall x, multiplicity (lis x) m = if decide (x ∈ L) then 1%nat else 0%nat.

Definition is_lis (k : K) : Prop := exists x, k = lis x.

(** The event is a part of the client's state. *)
Context `{!Sub get put is_lis ev_tokens I}.

Local Notation lk x := ({[+ lis x +]} : gmultiset K).

Lemma I_event σ m fr :
  I σ (m ⊎ fr) -> exists L, ev_inv (get σ) L /\
    forall x, multiplicity (lis x) (m ⊎ fr) = if decide (x ∈ L) then 1%nat else 0%nat.
Proof. intros HI. apply (sub_elim get put is_lis ev_tokens I) in HI. exact HI. Qed.

Lemma client_step e' σ m m' fr L' :
  I σ (m ⊎ fr) -> ev_inv e' L' ->
  (forall x, multiplicity (lis x) (m' ⊎ fr) = if decide (x ∈ L') then 1%nat else 0%nat) ->
  (forall k, (forall x, k <> lis x) -> multiplicity k m = multiplicity k m') ->
  I (put e' σ) (m' ⊎ fr).
Proof.
  intros HI HL' Hm' Hk. eapply (sub_step get put is_lis ev_tokens I); [done|by exists L'|].
  intros k Hk'. apply Hk. intros x ->. apply Hk'. by exists x.
Qed.

Lemma mult_lis_ne x k : k <> lis x -> multiplicity k (lk x) = 0%nat.
Proof. intros ?. by rewrite multiplicity_singleton_ne. Qed.

Lemma mult_lis x y : multiplicity (lis y) (lk x) = if decide (y = x) then 1%nat else 0%nat.
Proof.
  destruct (decide (y = x)) as [->|Hne]; [by rewrite multiplicity_singleton_eq|].
  rewrite multiplicity_singleton_ne; [done|]. by intros ?%(inj lis).
Qed.

(** The three ways the listeners change. *)
Lemma client_same e' σ m fr L :
  I σ (m ⊎ fr) -> ev_inv e' L ->
  (forall x, multiplicity (lis x) (m ⊎ fr) = if decide (x ∈ L) then 1%nat else 0%nat) ->
  I (put e' σ) (m ⊎ fr).
Proof.
  intros HI HL Hm. destruct (I_event _ _ _ HI) as (L0 & HL0 & Hm0).
  by eapply (client_step e' σ m m fr L).
Qed.

Lemma client_add (x : bool * ptr) e' σ m fr L :
  I σ (m ⊎ fr) -> x ∉ L -> ev_inv e' ({[x]} ∪ L) ->
  (forall x, multiplicity (lis x) (m ⊎ fr) = if decide (x ∈ L) then 1%nat else 0%nat) ->
  I (put e' σ) ((m ⊎ lk x) ⊎ fr).
Proof.
  intros HI Hx HL Hm. destruct (I_event _ _ _ HI) as (L0 & HL0 & Hm0).
  eapply (client_step e' σ m _ fr ({[x]} ∪ L)); try done.
  - intros y. specialize (Hm y). rewrite !multiplicity_disj_union, mult_lis in *.
    repeat case_decide; simplify_eq; (lia || set_solver).
  - intros k Hk. rewrite multiplicity_disj_union, mult_lis_ne by done. lia.
Qed.

Lemma client_del (x : bool * ptr) e' σ m fr L :
  I σ ((m ⊎ lk x) ⊎ fr) -> ev_inv e' (L ∖ {[x]}) ->
  (forall y, multiplicity (lis y) ((m ⊎ lk x) ⊎ fr) = if decide (y ∈ L) then 1%nat else 0%nat) ->
  I (put e' σ) (m ⊎ fr).
Proof.
  intros HI HL Hm. destruct (I_event _ _ _ HI) as (L0 & HL0 & Hm0).
  eapply (client_step e' σ _ m fr (L ∖ {[x]})); try done.
  - intros y. specialize (Hm y). rewrite !multiplicity_disj_union, mult_lis in *.
    repeat case_decide; simplify_eq; (lia || set_solver).
  - intros k Hk. rewrite multiplicity_disj_union, mult_lis_ne by done. lia.
Qed.

Lemma client_in (x : bool * ptr) (m fr : gmultiset K) (L : gset (bool * ptr)) :
  (forall y, multiplicity (lis y) ((m ⊎ lk x) ⊎ fr) = if decide (y ∈ L) then 1%nat else 0%nat) ->
  x ∈ L.
Proof.
  intros Hm. specialize (Hm x). rewrite !multiplicity_disj_union, mult_lis in Hm.
  rewrite decide_True in Hm by done. case_decide; [done|lia].
Qed.

(** ** What the programs do to the tokens *)

Lemma ok_on_event_same {A} (f : E -> option (A * E)) m (Q : gmultiset K -> A -> Prop) :
  (forall e L, ev_inv e L -> exists a e', f e = Some (a, e') /\ ev_inv e' L) ->
  (forall a, Q m a) -> ok I m (on_event get put f) Q.
Proof.
  intros Hf HQ σ fr HI. destruct (I_event _ _ _ HI) as (L & HL & Hm). simpl.
  destruct (Hf _ _ HL) as (a & e' & -> & HL'). right. exists m.
  split; [by eapply client_same|apply HQ].
Qed.

Lemma ok_notify_p n m (Q : gmultiset K -> unit -> Prop) :
  is_usize n -> Q m () -> ok I m (notify_p get put n) Q.
Proof.
  intros Hn HQ. apply ok_bind, ok_read. intros σ fr _. case_match; [|done].
  apply ok_on_event_same; [|by intros []]. intros e L HL. unfold flip_res.
  destruct (ev_inv_notify e L n HL Hn) as (e' & ws & -> & HL'). by exists (), e'.
Qed.

Lemma ok_notify_additional_p n m (Q : gmultiset K -> unit -> Prop) :
  is_usize n -> Q m () -> ok I m (notify_additional_p get put n) Q.
Proof.
  intros Hn HQ. apply ok_bind, ok_read. intros σ fr _. case_match; [|done].
  apply ok_on_event_same; [|by intros []]. intros e L HL. unfold flip_res.
  destruct (ev_inv_notify_additional e L n HL Hn) as (e' & ws & -> & HL'). by exists (), e'.
Qed.

Lemma ok_listen_p m (Q : gmultiset K -> ptr -> Prop) :
  (forall p, Q (m ⊎ lk (false, p)) p) -> ok I m (listen_p get put) Q.
Proof.
  intros HQ. apply ok_bind, ok_read. intros σ0 fr0 _. case_match; [done|].
  intros σ fr HI.  destruct (I_event _ _ _ HI) as (L & HL & Hm).
  destruct (ev_full (get σ)) eqn:Ef; [by left|].
  destruct (ev_inv_listen _ _ HL Ef) as (p & e' & -> & Hp & HL').
  right. exists (m ⊎ lk (false, p)). split; [|apply HQ]. by eapply client_add.
Qed.

Lemma ok_drop_p b p m (Q : gmultiset K -> unit -> Prop) :
  Q m () -> ok I (m ⊎ lk (b, p)) (drop_p get put p) Q.
Proof.
  intros HQ σ fr HI. destruct (I_event _ _ _ HI) as (L & HL & Hm). simpl.
  unfold flip_res.
  destruct (ev_inv_drop _ _ b p HL (client_in _ _ _ _ Hm)) as (e' & ws & -> & HL').
  right. exists m. split; [|done]. by eapply client_del.
Qed.

Lemma ok_await_p p w m (Q : gmultiset K -> bool -> Prop) :
  (forall b, Q m b) -> ok I (m ⊎ lk (false, p)) (await_p get put p w) Q.
Proof.
  intros HQ. apply ok_bind. intros σ fr HI.
  destruct (I_event _ _ _ HI) as (L & HL & Hm).
  destruct (ev_inv_poll _ _ p w HL (client_in _ _ _ _ Hm)) as (r & e' & -> & HL').
  right. destruct r as [[]|].
  { exists m. split; [by eapply client_del|]. apply HQ. }
  exists (m ⊎ lk (false, p)). split; [by eapply client_same|].
  apply ok_pick. intros [|]; [apply ok_bind, ok_drop_p, HQ|].
  clear dependent σ fr L e'. intros σ fr HI.
  destruct (I_event _ _ _ HI) as (L & HL & Hm).
  destruct (ev_inv_poll _ _ p w HL (client_in _ _ _ _ Hm)) as (r & e' & -> & HL').
  destruct r as [[]|]; [|done]. right. exists m. split; [by eapply client_del|]. apply HQ.
Qed.

Lemma ok_wait_p p t m (Q : gmultiset K -> unit -> Prop) :
  Q m () -> ok I (m ⊎ lk (false, p)) (wait_p get put p t) Q.
Proof.
  intros HQ. apply ok_bind. intros σ fr HI.
  destruct (I_event _ _ _ HI) as (L & HL & Hm).
  destruct (ev_inv_wait _ _ false p t HL (client_in _ _ _ _ Hm)) as (r & e' & -> & HL').
  right. destruct r.
  { exists m. split; [|done]. rewrite (left_id_L ∅ _) in HL'. by eapply client_del. }
  exists (m ⊎ lk (true, p)). split.
  { eapply (client_step e' σ _ _ fr ({[(true, p)]} ∪ L ∖ {[(false, p)]})); try done.
    - pose proof (ev_inv_tag _ _ p HL (client_in _ _ _ _ Hm)) as Ht.
      intros y. specialize (Hm y). rewrite !multiplicity_disj_union, !mult_lis in *.
      repeat case_decide; simplify_eq; (lia || set_solver).
    - intros k Hk. rewrite !multiplicity_disj_union, !mult_lis_ne by done. done. }
  clear dependent σ fr L e'. intros σ fr HI.
  destruct (I_event _ _ _ HI) as (L & HL & Hm).
  destruct (ev_inv_wait _ _ true p t HL (client_in _ _ _ _ Hm)) as (r & e' & -> & HL').
  destruct r; [|done]. right. exists m. split; [|done].
  rewrite (left_id_L ∅ _) in HL'. by eapply client_del.
Qed.
End tokens.
