(* ===== verification/Event.v ===== *)
(** [platform/event/listener.rs]: the event on which every lock and channel
    of the runtime blocks.

    An event keeps a doubly linked list of entries, one per listener, in a
    heap of boxes plus one inline cell (the "cache"); [start] points at the
    first entry that has not been notified.  The definitions below manipulate
    the heap pointer by pointer, as the code does, and fail with [None] where
    the code would follow a dangling pointer.  [rep] ties a heap to the
    abstract state, a list of entries whose notified ones form a prefix, and
    the theorems show that every operation refines its abstract counterpart
    without ever failing. *)

From stdpp Require Import gmap.
From S2P Require Import Prelude EventApi.

Inductive State :=
| Created
| Notified (additional : bool)
| Polling (w : nat)
| Waiting (t : nat).

#[export] Instance State_eq_dec : EqDecision State.
Proof. solve_decision. Defined.

Definition is_notified (s : State) : bool :=
  match s with Notified _ => true | _ => false end.

(** What waking the owner of an entry in state [s] does. *)
Definition wakes_of (s : State) : list wake :=
  match s with
  | Notified _ | Created => []
  | Polling w => [WakeTask w]
  | Waiting t => [Unpark t]
  end.

Record Entry := mkEntry { state : State; prev : option ptr; next : option ptr }.

Record List := mkList {
  head : option ptr; tail : option ptr; start : option ptr;
  len : Z; notified : Z; cache_used : bool }.

(** [Inner]: the word read without the lock, the list behind the lock, and
    the memory the entries live in. *)
Record Inner := mkInner {
  inner_notified : Z; list_ : List; heap : gmap ptr Entry }.

Definition cache : ptr := 1%positive.

Definition empty_list : List := mkList None None None 0 0 false.

(** [Event::inner] on its first use. *)
Definition Inner_new : Inner :=
  mkInner usize_MAX empty_list {[ cache := mkEntry Created None None ]}.

Definition set_state (s : State) (e : Entry) := mkEntry s (prev e) (next e).
Definition set_prev (p : option ptr) (e : Entry) := mkEntry (state e) p (next e).
Definition set_next (n : option ptr) (e : Entry) := mkEntry (state e) (prev e) n.

(** [ListGuard::drop]: refresh the word read without the lock. *)
Definition unlock (i : Inner) : Inner :=
  let l := list_ i in
  mkInner (if notified l <? len l then notified l else usize_MAX) l (heap i).

(** * [impl List] *)

Definition List_insert (l : List) (h : gmap ptr Entry)
    : option (ptr * List * gmap ptr Entry) :=
  let entry := mkEntry Created (tail l) None in
  let p := if cache_used l then fresh (dom h) else cache in
  let h := <[p := entry]> h in
  '(hd, h) ← match tail l with
             | None => Some (Some p, h)
             | Some t => te ← h !! t; Some (head l, <[t := set_next (Some p) te]> h)
             end;
  let st := match start l with None => Some p | Some s => Some s end in
  Some (p, mkList hd (Some p) st (len l + 1) (notified l) true, h).

Definition List_remove (p : ptr) (l : List) (h : gmap ptr Entry)
    : option (State * List * gmap ptr Entry) :=
  e ← h !! p;
  '(hd, h) ← match prev e with
             | None => Some (next e, h)
             | Some q => qe ← h !! q; Some (head l, <[q := set_next (next e) qe]> h)
             end;
  '(tl, h) ← match next e with
             | None => Some (prev e, h)
             | Some n => ne ← h !! n; Some (tail l, <[n := set_prev (prev e) ne]> h)
             end;
  let st := if decide (start l = Some p) then next e else start l in
  let '(used, h) :=
    if decide (p = cache) then (false, alter (set_state Created) p h)
    else (cache_used l, delete p h) in
  let nt := if is_notified (state e) then notified l - 1 else notified l in
  Some (state e, mkList hd tl st (len l - 1) nt used, h).

(** The loop shared by [notify] and [notify_additional]; [fuel] bounds the
    iterations, and one more than the length of the list is always enough. *)
Fixpoint notify_loop (fuel : nat) (additional : bool) (n : Z) (l : List)
    (h : gmap ptr Entry) (ws : list wake) : option (List * gmap ptr Entry * list wake) :=
  match fuel with
  | O => None
  | S fuel =>
      if n <=? 0 then Some (l, h, ws) else
      match start l with
      | None => Some (l, h, ws)
      | Some p =>
          e ← h !! p;
          let l := mkList (head l) (tail l) (next e) (len l) (notified l + 1) (cache_used l) in
          notify_loop fuel additional (n - 1) l
            (<[p := set_state (Notified additional) e]> h) (ws ++ wakes_of (state e))
      end
  end.

Definition loop_fuel (l : List) : nat := S (Z.to_nat (len l)).

Definition List_notify (n : Z) (l : List) (h : gmap ptr Entry)
    : option (List * gmap ptr Entry * list wake) :=
  if n <=? notified l then Some (l, h, [])
  else notify_loop (loop_fuel l) false (n - notified l) l h [].

Definition List_notify_additional (n : Z) (l : List) (h : gmap ptr Entry)
    : option (List * gmap ptr Entry * list wake) :=
  notify_loop (loop_fuel l) true n l h [].

(** * [impl Event] and [impl EventListener]

    Each function locks the list once, so it is one atomic step. *)

Definition listen (i : Inner) : option (ptr * Inner) :=
  '(p, l, h) ← List_insert (list_ i) (heap i);
  Some (p, unlock (mkInner (inner_notified i) l h)).

Definition locked_notify (n : Z) (i : Inner) : option (Inner * list wake) :=
  '(l, h, ws) ← List_notify n (list_ i) (heap i);
  Some (unlock (mkInner (inner_notified i) l h), ws).

Definition notify (n : Z) (i : Inner) : option (Inner * list wake) :=
  if inner_notified i <? n then locked_notify n i else Some (i, []).

Definition locked_notify_additional (n : Z) (i : Inner) : option (Inner * list wake) :=
  '(l, h, ws) ← List_notify_additional n (list_ i) (heap i);
  Some (unlock (mkInner (inner_notified i) l h), ws).

Definition notify_additional (n : Z) (i : Inner) : option (Inner * list wake) :=
  if inner_notified i <? usize_MAX then locked_notify_additional n i else Some (i, []).

(** [EventListener::discard]: was the entry notified? *)
Definition discard (p : ptr) (i : Inner) : option (bool * Inner) :=
  '(s, l, h) ← List_remove p (list_ i) (heap i);
  Some (is_notified s, unlock (mkInner (inner_notified i) l h)).

(** One pass of [wait_internal] over the entry: [true] once it is notified
    (and removed), otherwise the thread [t] is recorded and parks. *)
Definition wait_poll (p : ptr) (t : nat) (i : Inner) : option (bool * Inner) :=
  e ← heap i !! p;
  let h := <[p := set_state (Notified false) e]> (heap i) in
  match state e with
  | Notified _ =>
      '(_, l, h) ← List_remove p (list_ i) h;
      Some (true, unlock (mkInner (inner_notified i) l h))
  | _ =>
      let h := <[p := set_state (Waiting t) e]> h in
      Some (false, unlock (mkInner (inner_notified i) (list_ i) h))
  end.

(** [<EventListener as Future>::poll] with a context whose waker is [w]. *)
Definition poll_listener (p : ptr) (w : nat) (i : Inner) : option (poll unit * Inner) :=
  e ← heap i !! p;
  let h := <[p := set_state (Notified false) e]> (heap i) in
  match state e with
  | Notified _ =>
      '(_, l, h) ← List_remove p (list_ i) h;
      Some (Ready (), unlock (mkInner (inner_notified i) l h))
  | Created | Polling _ =>
      let h := <[p := set_state (Polling w) e]> h in
      Some (Pending, unlock (mkInner (inner_notified i) (list_ i) h))
  | Waiting _ => None
  end.

(** [<EventListener as Drop>::drop]: a notification that nobody consumed is
    passed on. *)
Definition drop_listener (p : ptr) (i : Inner) : option (Inner * list wake) :=
  '(s, l, h) ← List_remove p (list_ i) (heap i);
  '(l, h, ws) ← match s with
                | Notified true => List_notify_additional 1 l h
                | Notified false => List_notify 1 l h
                | _ => Some (l, h, [])
                end;
  Some (unlock (mkInner (inner_notified i) l h), ws).

(** * The abstract event: notified entries, then the others *)

Abbreviation entries := (list (ptr * State)) (only parsing).

Definition first (q : entries) (d : option ptr) : option ptr :=
  match q with [] => d | (p, _) :: _ => Some p end.
Definition last_ptr (d : option ptr) (q : entries) : option ptr :=
  match list.last q with None => d | Some (p, _) => Some p end.

(** [seg h pr q nx]: the heap holds the entries of [q], doubly linked, with
    [pr] before the first and [nx] after the last. *)
Fixpoint seg (h : gmap ptr Entry) (pr : option ptr) (q : entries) (nx : option ptr) : Prop :=
  match q with
  | [] => True
  | (p, s) :: q => h !! p = Some (mkEntry s pr (first q nx)) /\ seg h (Some p) q nx
  end.

Lemma first_app A B d : first (A ++ B) d = first A (first B d).
Proof. by destruct A as [|[]]. Qed.

Lemma last_ptr_app d A B : last_ptr d (A ++ B) = last_ptr (last_ptr d A) B.
Proof. unfold last_ptr. rewrite last_app. by destruct (list.last B) as [[]|]. Qed.

Lemma last_ptr_cons d p s A : last_ptr d ((p, s) :: A) = last_ptr (Some p) A.
Proof. apply (last_ptr_app d [(p, s)] A). Qed.

Lemma last_ptr_snoc d A p s : last_ptr d (A ++ [(p, s)]) = Some p.
Proof. by rewrite last_ptr_app. Qed.

Lemma seg_app h pr A B nx :
  seg h pr (A ++ B) nx <-> seg h pr A (first B nx) /\ seg h (last_ptr pr A) B nx.
Proof.
  revert pr. induction A as [|[p s] A IH]; intros pr; simpl; [naive_solver|].
  rewrite IH, first_app, last_ptr_cons. naive_solver.
Qed.

Lemma seg_ext h h' pr q nx :
  (forall p, p ∈ q.*1 -> h' !! p = h !! p) -> seg h pr q nx -> seg h' pr q nx.
Proof.
  revert pr. induction q as [|[p s] q IH]; intros pr Heq; simpl; [done|].
  intros [Hp Hs]. split; [rewrite Heq; [done|left]|].
  apply IH; [|done]. intros p' ?. apply Heq. by right.
Qed.

Lemma seg_lookup h pr A p s B nx :
  seg h pr (A ++ (p, s) :: B) nx -> h !! p = Some (mkEntry s (last_ptr pr A) (first B nx)).
Proof. intros Hs. apply seg_app in Hs as [_ Hs]. apply Hs. Qed.

(** Redirecting the two pointers that enter a segment from outside. *)
Lemma seg_relink_last h A p s pr nx nx' :
  NoDup (A ++ [(p, s)]).*1 -> seg h pr (A ++ [(p, s)]) nx ->
  seg (<[p := mkEntry s (last_ptr pr A) nx']> h) pr (A ++ [(p, s)]) nx'.
Proof.
  rewrite fmap_app, NoDup_app. intros (_ & Hd & _) Hs.
  apply seg_app in Hs as [HA Hp]. apply seg_app. split.
  - eapply seg_ext; [|done]. intros p' Hp'.
    rewrite lookup_insert_ne; [done|]. intros <-. apply (Hd p Hp'). left.
  - simpl. by rewrite lookup_insert_eq.
Qed.

Lemma seg_relink_first h p s B pr pr' nx :
  NoDup ((p, s) :: B).*1 -> seg h pr ((p, s) :: B) nx ->
  seg (<[p := mkEntry s pr' (first B nx)]> h) pr' ((p, s) :: B) nx.
Proof.
  intros [Hp _]%NoDup_cons [_ HB]. split; [by rewrite lookup_insert_eq|].
  eapply seg_ext; [|done]. intros p' Hp'.
  rewrite lookup_insert_ne; [done|]. by intros ->.
Qed.

Lemma NoDup_fst_app (A B : entries) p :
  NoDup (A ++ B).*1 -> p ∈ A.*1 -> p ∉ B.*1.
Proof. rewrite fmap_app, NoDup_app. naive_solver. Qed.

Record rep (N U : entries) (l : List) (h : gmap ptr Entry) : Prop := {
  rep_seg : seg h None (N ++ U) None;
  rep_nodup : NoDup (N ++ U).*1;
  rep_head : head l = first (N ++ U) None;
  rep_tail : tail l = last_ptr None (N ++ U);
  rep_start : start l = first U None;
  rep_len : len l = Z.of_nat (length (N ++ U));
  rep_notified : notified l = Z.of_nat (length N);
  rep_N : Forall (fun x => is_notified x.2 = true) N;
  rep_U : Forall (fun x => is_notified x.2 = false) U;
  rep_cache : cache_used l = bool_decide (cache ∈ (N ++ U).*1);
  rep_dom : dom h = {[ cache ]} ∪ list_to_set (N ++ U).*1 }.

Lemma rep_fresh N U l h :
  rep N U l h -> (if cache_used l then fresh (dom h) else cache) ∉ (N ++ U).*1.
Proof.
  intros Hr. rewrite (rep_cache _ _ _ _ Hr). case_bool_decide; [|done].
  assert (Hf := is_fresh (dom h)). rewrite (rep_dom _ _ _ _ Hr) in Hf at 2.
  set_solver.
Qed.

(** [List::insert] adds one created entry at the end, at an address that is
    not in use. *)
Lemma List_insert_spec N U l h :
  rep N U l h -> exists p l' h',
    List_insert l h = Some (p, l', h') /\ p ∉ (N ++ U).*1 /\
    rep N (U ++ [(p, Created)]) l' h'.
Proof.
  intros Hr. pose proof (rep_fresh _ _ _ _ Hr) as Hp.
  unfold List_insert. set (p := if cache_used l then _ else _) in *.
  destruct Hr as [Hs Hnd Hhd Htl Hst Hlen Hno HN HU Hca Hdom].
  set (q := N ++ U) in *.
  rewrite Htl. set (h1 := <[p := mkEntry Created (last_ptr None q) None]> h).
  assert (Hs1 : seg h1 None q None).
  { eapply seg_ext; [|done]. intros p' ?. unfold h1.
    rewrite lookup_insert_ne; [done|]. by intros ->. }
  assert (Hdom1 : dom h1 = {[cache]} ∪ list_to_set (q ++ [(p, Created)]).*1).
  { unfold h1. rewrite dom_insert_L, Hdom, fmap_app, list_to_set_app_L. set_solver. }
  assert (Hnd1 : NoDup (q ++ [(p, Created)]).*1).
  { rewrite fmap_app, NoDup_app. split_and!; [done| |apply NoDup_singleton]. set_solver. }
  assert (Hrep : forall h2,
    seg h2 None (q ++ [(p, Created)]) None -> dom h2 = dom h1 ->
    rep N (U ++ [(p, Created)])
      (mkList (first (q ++ [(p, Created)]) None) (Some p)
         (first (U ++ [(p, Created)]) None) (len l + 1) (notified l) true) h2).
  { intros h2 Hs2 Hd2. split; simpl; rewrite ?(assoc_L (++)); fold q; auto.
    - by rewrite last_ptr_snoc.
    - rewrite Hlen, length_app. simpl. lia.
    - apply Forall_app. auto.
    - symmetry. apply bool_decide_eq_true. rewrite fmap_app.
      subst p. rewrite Hca. case_bool_decide; set_solver.
    - congruence. }
  assert (Est : match start l with None => Some p | Some s => Some s end
                = first (U ++ [(p, Created)]) None).
  { rewrite Hst. by destruct U as [|[]]. }
  fold h1. rewrite Est.
  destruct q as [|[t s] q' _] eqn:Eq using rev_ind.
  - simpl. eexists _, _, _. split_and!; [done|done|].
    apply Hrep; [|done]. simpl. unfold h1. by rewrite lookup_insert_eq.
  - rewrite (last_ptr_snoc _ q' t s).
    assert (Hl : h1 !! t = Some (mkEntry s (last_ptr None q') None)) by apply (seg_lookup _ _ _ _ _ [] _ Hs1).
    rewrite Hl. simpl. eexists _, _, _. split_and!; [done|done|].
    replace (head l) with (first ((q' ++ [(t, s)]) ++ [(p, Created)]) None)
      by (rewrite Hhd, !first_app; by destruct q' as [|[]]).
    apply Hrep.
    + apply seg_app. split; [eapply seg_relink_last; [|done]|].
      * done.
      * rewrite last_ptr_snoc. simpl. split; [|done].
        rewrite lookup_insert_ne by set_solver. unfold h1.
        by rewrite lookup_insert_eq, last_ptr_snoc.
    + rewrite dom_insert_L. apply elem_of_dom_2 in Hl. set_solver.
Qed.

(** Unlinking the entry [p] between [A] and [B], as [List::remove] does:
    first the pointer from the left, then the pointer from the right. *)
Lemma unlink_left h A p s B :
  NoDup (A ++ (p, s) :: B).*1 -> seg h None (A ++ (p, s) :: B) None ->
  exists h1,
    match last_ptr None A with
    | None => Some (first B None, h)
    | Some q => qe ← h !! q;
                Some (first (A ++ (p, s) :: B) None, <[q := set_next (first B None) qe]> h)
    end = Some (first (A ++ B) None, h1) /\
    seg h1 None A (first B None) /\ seg h1 (Some p) B None /\
    dom h1 = dom h /\ h1 !! p = h !! p.
Proof.
  intros Hnd Hs. apply seg_app in Hs as [HA [Hp HB]].
  destruct A as [|[q sq] A' _] eqn:EA using rev_ind.
  - exists h. simpl. auto.
  - rewrite last_ptr_snoc.
    assert (Hq : h !! q = Some (mkEntry sq (last_ptr None A') (Some p)))
      by exact (seg_lookup _ _ _ _ _ [] _ HA).
    rewrite Hq. simpl. eexists. split.
    { do 2 f_equal. rewrite !first_app. by destruct A' as [|[]]. }
    assert (Hqn : q ∉ ((p, s) :: B).*1).
    { eapply NoDup_fst_app; [done|]. rewrite fmap_app. set_solver. }
    split_and!.
    + rewrite fmap_app, NoDup_app in Hnd.
      eapply seg_relink_last; [apply Hnd|done].
    + eapply seg_ext; [|done]. intros p' ?. rewrite lookup_insert_ne; [done|]. set_solver.
    + rewrite dom_insert_L. apply elem_of_dom_2 in Hq. set_solver.
    + rewrite lookup_insert_ne; [done|]. set_solver.
Qed.

Lemma unlink_right h A p s B :
  NoDup (A ++ (p, s) :: B).*1 -> seg h None A (first B None) -> seg h (Some p) B None ->
  exists h2,
    match first B None with
    | None => Some (last_ptr None A, h)
    | Some n => ne ← h !! n;
                Some (last_ptr None (A ++ (p, s) :: B), <[n := set_prev (last_ptr None A) ne]> h)
    end = Some (last_ptr None (A ++ B), h2) /\
    seg h2 None (A ++ B) None /\ dom h2 = dom h /\ h2 !! p = h !! p.
Proof.
  intros Hnd HA HB. destruct B as [|[n sn] B']; simpl.
  - exists h. rewrite app_nil_r. auto.
  - destruct HB as [Hn HB']. rewrite Hn. simpl. eexists. split.
    { do 2 f_equal. rewrite !last_ptr_app. by rewrite !last_ptr_cons. }
    assert (HnA : n ∉ A.*1 /\ n <> p /\ NoDup ((n, sn) :: B').*1).
    { rewrite fmap_app, NoDup_app in Hnd. destruct Hnd as (_ & Hd & Hnd).
      apply NoDup_cons in Hnd as [Hp Hnd]. split_and!; [|set_solver|done].
      intros Hin. apply (Hd _ Hin). set_solver. }
    destruct HnA as (HnA & Hnp & HndB). split_and!.
    + apply seg_app. split.
      * eapply seg_ext; [|done]. intros p' ?. rewrite lookup_insert_ne; [done|]. set_solver.
      * eapply (seg_relink_first _ _ _ _ (Some p)); [done|]. by split.
    + rewrite dom_insert_L. apply elem_of_dom_2 in Hn. set_solver.
    + by rewrite lookup_insert_ne.
Qed.

(** What is left of a queue without the entry [p]. *)
Definition rm (p : ptr) (q : entries) : entries := filter (fun x => x.1 <> p) q.

Lemma rm_notin p q : p ∉ q.*1 -> rm p q = q.
Proof.
  induction q as [|[p' s] q IH]; [done|]. unfold rm. rewrite filter_cons. simpl.
  intros [Hne Hp]%not_elem_of_cons. rewrite decide_True by done.
  f_equal. by apply IH.
Qed.

Lemma rm_app p A B : rm p (A ++ B) = rm p A ++ rm p B.
Proof. apply filter_app. Qed.

Lemma rm_split p s A B :
  NoDup (A ++ (p, s) :: B).*1 -> rm p (A ++ (p, s) :: B) = A ++ B.
Proof.
  rewrite fmap_app, NoDup_app. intros (_ & Hd & Hp).
  apply NoDup_cons in Hp as [Hp _]. rewrite rm_app. unfold rm at 2.
  rewrite filter_cons_False by naive_solver. fold (rm p B).
  rewrite !rm_notin; [done|done|]. intros Hin. apply (Hd _ Hin). left.
Qed.

Lemma rm_subset p q : (rm p q).*1 ⊆ q.*1.
Proof.
  intros x ((y & s) & -> & Hin)%list_elem_of_fmap.
  apply list_elem_of_filter in Hin as [_ Hin]. apply list_elem_of_fmap. by exists (y, s).
Qed.

Lemma elem_of_fst (q : entries) p s : (p, s) ∈ q -> p ∈ q.*1.
Proof. intros Hin. apply list_elem_of_fmap. by exists (p, s). Qed.

Lemma rm_length p s q :
  NoDup q.*1 -> (p, s) ∈ q -> Z.of_nat (length (rm p q)) = Z.of_nat (length q) - 1.
Proof.
  intros Hnd (A & B & ->)%list_elem_of_split. rewrite (rm_split p s) by done.
  rewrite !length_app. simpl. lia.
Qed.

Lemma rm_Forall p q (P : ptr * State -> Prop) : Forall P q -> Forall P (rm p q).
Proof. rewrite !Forall_forall. intros HP x [_ Hx]%list_elem_of_filter. auto. Qed.

Lemma rep_start_next N U l h A p s B :
  rep N U l h -> N ++ U = A ++ (p, s) :: B ->
  (if decide (start l = Some p) then first B None else start l) = first (rm p U) None.
Proof.
  intros [Hs Hnd _ _ Hst _ _ _ _ _ _] Eq. rewrite Hst.
  destruct U as [|[u su] U']; [done|]. case_decide as Hu; simpl in Hu.
  - injection Hu as ->.
    pose proof (seg_lookup _ _ _ _ _ _ _ Hs) as H1.
    rewrite Eq in Hs. rewrite (seg_lookup _ _ _ _ _ _ _ Hs) in H1.
    injection H1 as _ _ ->. rewrite fmap_app, NoDup_app in Hnd.
    destruct Hnd as (_ & _ & Hnd). symmetry. f_equal. by apply (rm_split p su [] U').
  - unfold rm. rewrite filter_cons_True; [done|]. simpl. congruence.
Qed.

Lemma rep_count_rm N U l h p s :
  rep N U l h -> (p, s) ∈ N ++ U ->
  (if is_notified s then notified l - 1 else notified l) = Z.of_nat (length (rm p N)).
Proof.
  intros [_ Hnd _ _ _ _ Hno HN HU _ _] Hin. rewrite Hno.
  rewrite Forall_forall in HN, HU.
  pose proof Hnd as Hnd'. rewrite fmap_app, NoDup_app in Hnd'.
  destruct Hnd' as (HndN & Hdis & _).
  apply elem_of_app in Hin as [Hin|Hin].
  - specialize (HN _ Hin). simpl in HN. rewrite HN.
    by rewrite (rm_length p s).
  - specialize (HU _ Hin). simpl in HU. rewrite HU, rm_notin; [done|].
    intros Hp. apply (Hdis _ Hp). by eapply elem_of_fst.
Qed.

(** [List::remove] takes exactly the entry [p] out and returns its state. *)
Lemma List_remove_spec N U l h p s :
  rep N U l h -> (p, s) ∈ N ++ U -> exists l' h',
    List_remove p l h = Some (s, l', h') /\ rep (rm p N) (rm p U) l' h'.
Proof.
  intros Hr Hin. pose proof (rep_count_rm _ _ _ _ _ _ Hr Hin) as Hcnt.
  pose proof Hin as (A & B & Eq)%list_elem_of_split.
  pose proof (rep_start_next _ _ _ _ _ _ _ _ Hr Eq) as Hst'.
  destruct Hr as [Hs Hnd Hhd Htl Hst Hlen Hno HN HU Hca Hdom].
  assert (HABl : rm p N ++ rm p U = A ++ B).
  { rewrite <- rm_app, Eq. apply (rm_split p s). by rewrite <- Eq. }
  rewrite Eq in *.
  assert (HpAB : p ∉ (A ++ B).*1 /\ NoDup (A ++ B).*1).
  { rewrite fmap_app in Hnd |- *. simpl in Hnd.
    rewrite <- Permutation_middle, NoDup_cons in Hnd. done. }
  destruct HpAB as [HpAB HndAB].
  unfold List_remove. rewrite Hhd, Htl, (seg_lookup _ _ _ _ _ _ _ Hs).
  cbn [mbind option_bind prev next state].
  destruct (unlink_left h A p s B) as (h1 & E1 & HA1 & HB1 & Hd1 & Hp1); [done..|].
  cbn [mbind option_bind] in E1. rewrite E1. cbn [mbind option_bind].
  destruct (unlink_right h1 A p s B) as (h2 & E2 & Hs2 & Hd2 & Hp2); [done..|].
  cbn [mbind option_bind] in E2. rewrite E2. cbn [mbind option_bind].
  rewrite Hst', Hcnt.
  assert (Hdom2 : dom h2 = {[cache]} ∪ list_to_set (p :: (A ++ B).*1)).
  { rewrite Hd2, Hd1, Hdom, !fmap_app, list_to_set_cons, !list_to_set_app_L.
    simpl. set_solver. }
  destruct (decide (p = cache)) as [Hpc|Hpc]; simpl; eexists _, _; (split; [reflexivity|]); split; simpl; rewrite ?HABl; auto.
  all: try (by apply rm_Forall).
  all: try (by rewrite Hlen, !length_app; simpl; lia).
  - eapply seg_ext; [|done]. intros p' ?. rewrite lookup_alter_ne; [done|]. set_solver.
  - symmetry. apply bool_decide_eq_false. congruence.
  - rewrite dom_alter_L, Hdom2. set_solver.
  - eapply seg_ext; [|done]. intros p' ?. rewrite lookup_delete_ne; [done|]. set_solver.
  - rewrite Hca, !fmap_app. apply bool_decide_ext. set_solver.
  - rewrite dom_delete_L, Hdom2. set_solver.
Qed.

(** Writing a new state into the entry [p]. *)
Definition upd (p : ptr) (s : State) (q : entries) : entries :=
  (fun x => if decide (x.1 = p) then (p, s) else x) <$> q.

Lemma upd_fst p s q : (upd p s q).*1 = q.*1.
Proof.
  unfold upd. rewrite <- list_fmap_compose. apply list_fmap_ext.
  intros _ [x t] _. simpl. by case_decide.
Qed.

Lemma upd_notin p s q : p ∉ q.*1 -> upd p s q = q.
Proof.
  induction q as [|[x t] q IH]; [done|]. intros [Hne Hp]%not_elem_of_cons.
  cbn. rewrite decide_False by done. f_equal. by apply IH.
Qed.

Lemma upd_split p s s' A B :
  NoDup (A ++ (p, s) :: B).*1 -> upd p s' (A ++ (p, s) :: B) = A ++ (p, s') :: B.
Proof.
  rewrite fmap_app, NoDup_app. intros (_ & Hd & Hp).
  apply NoDup_cons in Hp as [Hp _]. unfold upd. rewrite fmap_app, fmap_cons.
  fold (upd p s' A) (upd p s' B). rewrite decide_True by done.
  rewrite !upd_notin; [done|done|]. intros Hin. apply (Hd _ Hin). left.
Qed.

Lemma upd_app p s A B : upd p s (A ++ B) = upd p s A ++ upd p s B.
Proof. apply fmap_app. Qed.

Lemma rm_upd p s q : rm p (upd p s q) = rm p q.
Proof.
  induction q as [|[x t] q IH]; [done|]. unfold rm, upd in *.
  rewrite fmap_cons. destruct (decide (x = p)) as [->|Hx]; simpl fst.
  - rewrite decide_True by done. rewrite !filter_cons_False by naive_solver. done.
  - rewrite decide_False by done. rewrite !filter_cons_True by done. by f_equal.
Qed.

Lemma first_upd p s q d : first (upd p s q) d = first q d.
Proof. destruct q as [|[x t] q]; [done|]. cbn. case_decide; simpl; congruence. Qed.

Lemma last_ptr_fst d A B : A.*1 = B.*1 -> last_ptr d A = last_ptr d B.
Proof.
  intros E. unfold last_ptr. assert (E' : list.last A.*1 = list.last B.*1) by by rewrite E.
  rewrite !fmap_last in E'. destruct (list.last A) as [[]|], (list.last B) as [[]|];
    simpl in *; congruence.
Qed.

Lemma seg_set_state h pr A p s s' B nx :
  NoDup (A ++ (p, s) :: B).*1 -> seg h pr (A ++ (p, s) :: B) nx ->
  seg (<[p := mkEntry s' (last_ptr pr A) (first B nx)]> h) pr (A ++ (p, s') :: B) nx.
Proof.
  rewrite fmap_app, NoDup_app. intros (_ & Hd & Hp) Hs.
  apply NoDup_cons in Hp as [Hp _].
  apply seg_app in Hs as [HA [_ HB]]. apply seg_app. split; [|split].
  - eapply seg_ext; [|exact HA]. intros p' Hp'. rewrite lookup_insert_ne; [done|].
    intros <-. apply (Hd _ Hp'). left.
  - by rewrite lookup_insert_eq.
  - eapply seg_ext; [|exact HB]. intros p' Hp'. rewrite lookup_insert_ne; [done|].
    by intros ->.
Qed.

Lemma Forall_upd p s b q :
  is_notified s = b ->
  Forall (fun x => is_notified x.2 = b) q -> Forall (fun x => is_notified x.2 = b) (upd p s q).
Proof.
  intros Hs Hq. apply Forall_fmap. eapply Forall_impl; [done|].
  intros [x t] Hx. simpl. case_decide; done.
Qed.

Lemma rep_set_state N U l h p s s' :
  rep N U l h -> (p, s) ∈ N ++ U -> is_notified s' = is_notified s ->
  exists e, h !! p = Some e /\ state e = s /\
    rep (upd p s' N) (upd p s' U) l (<[p := set_state s' e]> h).
Proof.
  intros [Hs Hnd Hhd Htl Hst Hlen Hno HN HU Hca Hdom] Hin Hn.
  pose proof Hin as Hin'.
  apply list_elem_of_split in Hin' as (A & B & Eq).
  assert (Hfst : (upd p s' N ++ upd p s' U).*1 = (N ++ U).*1)
    by by rewrite <- upd_app, upd_fst.
  assert (Hp : h !! p = Some (mkEntry s (last_ptr None A) (first B None)))
    by (rewrite Eq in Hs; apply (seg_lookup _ _ _ _ _ _ _ Hs)).
  exists (mkEntry s (last_ptr None A) (first B None)). split_and!; [done|done|].
  split; rewrite ?Hfst; auto.
  - rewrite <- upd_app, Eq, (upd_split p s s') by by rewrite <- Eq.
    apply (seg_set_state _ _ _ _ s); by rewrite <- Eq.
  - by rewrite <- upd_app, first_upd.
  - rewrite Htl. apply last_ptr_fst. by rewrite Hfst.
  - by rewrite first_upd.
  - rewrite Hlen, !length_app. unfold upd. by rewrite !length_fmap.
  - rewrite Hno. unfold upd. by rewrite length_fmap.
  - destruct (is_notified s) eqn:Es; [by apply Forall_upd|].
    rewrite upd_notin; [done|]. intros HpN.
    rewrite fmap_app, NoDup_app in Hnd. destruct Hnd as (HndN & Hd & _).
    apply list_elem_of_fmap in HpN as ([p' t] & -> & HtN). simpl in *.
    rewrite Forall_forall in HN. apply elem_of_app in Hin as [Hin|Hin].
    + specialize (HN _ Hin). simpl in HN. congruence.
    + eapply Hd; [|by eapply elem_of_fst]. by eapply elem_of_fst.
  - destruct (is_notified s) eqn:Es; [|by apply Forall_upd].
    rewrite upd_notin; [done|]. intros HpU.
    rewrite fmap_app, NoDup_app in Hnd. destruct Hnd as (HndN & Hd & _).
    rewrite Forall_forall in HU. apply elem_of_app in Hin as [Hin|Hin].
    + eapply Hd; [by eapply elem_of_fst|done].
    + specialize (HU _ Hin). simpl in HU. congruence.
  - rewrite dom_insert_L, Hdom. apply elem_of_fst in Hin. set_solver.
Qed.

(** Marking entries as notified. *)
Definition mark (additional : bool) (q : entries) : entries :=
  (fun x => (x.1, Notified additional)) <$> q.

Definition all_wakes (q : entries) : list wake := q.*2 ≫= wakes_of.

Lemma rep_notify_one N p s U l h add :
  rep N ((p, s) :: U) l h ->
  exists e, h !! p = Some e /\ state e = s /\
    rep (N ++ [(p, Notified add)]) U
      (mkList (head l) (tail l) (next e) (len l) (notified l + 1) (cache_used l))
      (<[p := set_state (Notified add) e]> h).
Proof.
  intros [Hs Hnd Hhd Htl Hst Hlen Hno HN HU Hca Hdom].
  pose proof (seg_lookup _ _ _ _ _ _ _ Hs) as Hp.
  eexists. split_and!; [done|done|].
  assert (Hfst : ((N ++ [(p, Notified add)]) ++ U).*1 = (N ++ (p, s) :: U).*1)
    by by rewrite !fmap_app, <- (assoc_L (++)).
  split; simpl; rewrite ?Hfst; auto.
  - rewrite <- (assoc_L (++)). by apply (seg_set_state _ _ _ _ s).
  - rewrite Hhd, <- (assoc_L (++)), !first_app. done.
  - rewrite Htl. apply last_ptr_fst. by rewrite Hfst.
  - rewrite Hlen, !length_app. simpl. lia.
  - rewrite Hno, length_app. simpl. lia.
  - apply Forall_app. auto.
  - by apply Forall_cons in HU as [_ HU].
  - rewrite dom_insert_L, Hdom. rewrite fmap_app. set_solver.
Qed.

Lemma notify_loop_spec add fuel : forall n N U l h ws,
  rep N U l h -> (length U < fuel)%nat -> exists l' h',
    notify_loop fuel add n l h ws
      = Some (l', h', ws ++ all_wakes (take (Z.to_nat n) U)) /\
    rep (N ++ mark add (take (Z.to_nat n) U)) (drop (Z.to_nat n) U) l' h'.
Proof.
  induction fuel as [|fuel IH]; intros n N U l h ws Hr Hf; [lia|].
  simpl. destruct (n <=? 0) eqn:En.
  - exists l, h. rewrite Z2Nat.nonpos by lia. simpl.
    rewrite !app_nil_r. by destruct U.
  - rewrite (rep_start _ _ _ _ Hr). destruct U as [|[p s] U]; simpl.
    + exists l, h. by rewrite take_nil, drop_nil, !app_nil_r.
    + destruct (rep_notify_one _ _ _ _ _ _ add Hr) as (e & -> & Es & Hr').
      cbn [mbind option_bind]. rewrite Es. simpl in Hf.
      destruct (IH (n - 1) _ _ _ _ (ws ++ wakes_of s) Hr') as (l' & h' & -> & Hr'');
        [lia|].
      exists l', h'. replace (Z.to_nat n) with (S (Z.to_nat (n - 1))) by lia.
      simpl. rewrite <- !(assoc_L (++)) in *. done.
Qed.

(** * Refinement of the whole event *)

Record queue := mkQueue { qN : entries; qU : entries }.

Definition ptrs (q : queue) : list ptr := (qN q ++ qU q).*1.
Definition in_queue (x : ptr * State) (q : queue) : Prop := x ∈ qN q ++ qU q.

Definition a_remove (p : ptr) (q : queue) : queue := mkQueue (rm p (qN q)) (rm p (qU q)).
Definition a_update (p : ptr) (s : State) (q : queue) : queue :=
  mkQueue (upd p s (qN q)) (upd p s (qU q)).

(** Notify the first [k] of the entries that are not. *)
Definition a_mark (add : bool) (k : nat) (q : queue) : queue * list wake :=
  (mkQueue (qN q ++ mark add (take k (qU q))) (drop k (qU q)), all_wakes (take k (qU q))).

(** [notify(n)] makes sure that [n] entries are notified, counting those that
    already are; [notify_additional(n)] notifies [n] more. *)
Definition a_notify (n : Z) (q : queue) : queue * list wake :=
  a_mark false (Z.to_nat (n - Z.of_nat (length (qN q)))) q.
Definition a_notify_additional (n : Z) (q : queue) : queue * list wake :=
  a_mark true (Z.to_nat n) q.

(** The memory represents [q], the word read without the lock is up to date,
    and there are at most [usize::MAX] listeners. *)
Record Rep (q : queue) (i : Inner) : Prop := {
  Rep_list : rep (qN q) (qU q) (list_ i) (heap i);
  Rep_word : inner_notified i = inner_notified (unlock i);
  Rep_size : Z.of_nat (length (ptrs q)) <= usize_MAX }.

Lemma Rep_unlock q n l h :
  rep (qN q) (qU q) l h -> Z.of_nat (length (ptrs q)) <= usize_MAX ->
  Rep q (unlock (mkInner n l h)).
Proof. intros Hr Hs. split; simpl; [done|done|done]. Qed.

Lemma Rep_new : Rep (mkQueue [] []) Inner_new.
Proof.
  split; [|done|done]. split; simpl; auto.
  constructor.
Qed.

Lemma ptrs_length q : length (ptrs q) = (length (qN q) + length (qU q))%nat.
Proof. unfold ptrs. by rewrite length_fmap, length_app. Qed.

(** The word that [notify] reads without taking the lock. *)
Lemma Rep_fast_path q i n :
  Rep q i -> 0 <= n <= usize_MAX -> n <= inner_notified i ->
  Z.to_nat (n - Z.of_nat (length (qN q))) = 0%nat \/ qU q = [].
Proof.
  intros [Hr Hw Hs] Hn Hi. rewrite Hw in Hi. unfold unlock in Hi. simpl in Hi. revert Hi.
  destruct (notified (list_ i) <? len (list_ i)) eqn:E; intros Hi.
  - left. rewrite (rep_notified _ _ _ _ Hr) in Hi. lia.
  - right. rewrite (rep_notified _ _ _ _ Hr), (rep_len _ _ _ _ Hr), length_app in E.
    apply Z.ltb_ge in E. apply length_zero_iff_nil. lia.
Qed.

Lemma a_mark_nop add k q : k = 0%nat \/ qU q = [] -> a_mark add k q = (q, []).
Proof.
  destruct q as [N U]. unfold a_mark. simpl. intros [->| ->].
  - by rewrite drop_0, app_nil_r.
  - by rewrite take_nil, drop_nil, app_nil_r.
Qed.

Lemma a_mark_length add k q : length (ptrs (a_mark add k q).1) = length (ptrs q).
Proof.
  rewrite !ptrs_length. unfold a_mark, mark. simpl.
  rewrite length_app, length_fmap, length_take, length_drop. lia.
Qed.

Lemma List_notify_spec q l h n :
  rep (qN q) (qU q) l h ->
  exists l' h', List_notify n l h = Some (l', h', (a_notify n q).2) /\
    rep (qN (a_notify n q).1) (qU (a_notify n q).1) l' h'.
Proof.
  intros Hr. unfold List_notify. pose proof (rep_notified _ _ _ _ Hr) as Hno.
  destruct (n <=? notified l) eqn:E.
  - unfold a_notify. rewrite a_mark_nop by (left; lia). eauto.
  - destruct (notify_loop_spec false (loop_fuel l) (n - notified l) _ _ _ _ [] Hr)
      as (l' & h' & -> & Hr').
    { unfold loop_fuel. rewrite (rep_len _ _ _ _ Hr), length_app. lia. }
    rewrite Hno in Hr' |- *. eauto.
Qed.

Lemma List_notify_additional_spec q l h n :
  rep (qN q) (qU q) l h ->
  exists l' h', List_notify_additional n l h = Some (l', h', (a_notify_additional n q).2) /\
    rep (qN (a_notify_additional n q).1) (qU (a_notify_additional n q).1) l' h'.
Proof.
  intros Hr.
  destruct (notify_loop_spec true (loop_fuel l) n _ _ _ _ [] Hr) as (l' & h' & E & Hr').
  { unfold loop_fuel. rewrite (rep_len _ _ _ _ Hr), length_app. lia. }
  exists l', h'. eauto.
Qed.

(** ** Operations, their answers and their specification *)

Inductive op :=
| OListen | ONotify (n : Z) | ONotifyAdditional (n : Z)
| ODiscard (p : ptr) | OWait (p : ptr) (t : nat) | OPoll (p : ptr) (w : nat)
| ODrop (p : ptr).

Inductive answer :=
| AListener (p : ptr) | AWakes (ws : list wake) | ABool (b : bool) | APoll (r : poll unit).

Definition exec (o : op) (i : Inner) : option (answer * Inner) :=
  match o with
  | OListen => '(p, i) ← listen i; Some (AListener p, i)
  | ONotify n => '(i, ws) ← notify n i; Some (AWakes ws, i)
  | ONotifyAdditional n => '(i, ws) ← notify_additional n i; Some (AWakes ws, i)
  | ODiscard p => '(b, i) ← discard p i; Some (ABool b, i)
  | OWait p t => '(b, i) ← wait_poll p t i; Some (ABool b, i)
  | OPoll p w => '(r, i) ← poll_listener p w i; Some (APoll r, i)
  | ODrop p => '(i, ws) ← drop_listener p i; Some (AWakes ws, i)
  end.

(** What a caller may do: only name listeners it holds, poll a listener that
    is not being waited on by a thread, pass [usize] counts. *)
Definition allowed (q : queue) (o : op) : Prop :=
  match o with
  | OListen => Z.of_nat (length (ptrs q)) < usize_MAX
  | ONotify n | ONotifyAdditional n => is_usize n
  | ODiscard p | OWait p _ | ODrop p => p ∈ ptrs q
  | OPoll p _ => exists s, in_queue (p, s) q /\ forall t, s <> Waiting t
  end.

Definition spec (o : op) (q q' : queue) (a : answer) : Prop :=
  match o with
  | OListen => exists p, p ∉ ptrs q /\ a = AListener p /\
      q' = mkQueue (qN q) (qU q ++ [(p, Created)])
  | ONotify n => (q', a) = ((a_notify n q).1, AWakes (a_notify n q).2)
  | ONotifyAdditional n =>
      (q', a) = ((a_notify_additional n q).1, AWakes (a_notify_additional n q).2)
  | ODiscard p => exists s, in_queue (p, s) q /\
      a = ABool (is_notified s) /\ q' = a_remove p q
  | OWait p t => exists s, in_queue (p, s) q /\
      if is_notified s then a = ABool true /\ q' = a_remove p q
      else a = ABool false /\ q' = a_update p (Waiting t) q
  | OPoll p w => exists s, in_queue (p, s) q /\
      if is_notified s then a = APoll (Ready ()) /\ q' = a_remove p q
      else a = APoll Pending /\ q' = a_update p (Polling w) q
  | ODrop p => exists s, in_queue (p, s) q /\
      let q1 := a_remove p q in
      match s with
      | Notified true =>
          (q', a) = ((a_notify_additional 1 q1).1, AWakes (a_notify_additional 1 q1).2)
      | Notified false => (q', a) = ((a_notify 1 q1).1, AWakes (a_notify 1 q1).2)
      | _ => q' = q1 /\ a = AWakes []
      end
  end.

Lemma ptrs_in_queue p q : p ∈ ptrs q -> exists s, in_queue (p, s) q.
Proof.
  unfold ptrs, in_queue. intros ([p' s] & -> & Hin)%list_elem_of_fmap. by exists s.
Qed.

Lemma a_remove_length p q : (length (ptrs (a_remove p q)) <= length (ptrs q))%nat.
Proof.
  rewrite !ptrs_length. unfold a_remove, rm. simpl.
  pose proof (length_filter (fun x : ptr * State => x.1 <> p) (qN q)).
  pose proof (length_filter (fun x : ptr * State => x.1 <> p) (qU q)). lia.
Qed.

Lemma a_update_length p s q : length (ptrs (a_update p s q)) = length (ptrs q).
Proof. rewrite !ptrs_length. unfold a_update, upd. simpl. by rewrite !length_fmap. Qed.

Lemma notified_refines q i n (locked : Z -> Inner -> option (Inner * list wake)) qw lim :
  Rep q i -> lim <= usize_MAX ->
  (lim <= inner_notified i -> qw = (q, [])) ->
  (exists l h, locked n i = Some (unlock (mkInner (inner_notified i) l h), qw.2) /\
     rep (qN qw.1) (qU qw.1) l h) ->
  length (ptrs qw.1) = length (ptrs q) ->
  exists i', (if inner_notified i <? lim then locked n i else Some (i, []))
      = Some (i', qw.2) /\ Rep qw.1 i'.
Proof.
  intros HR Hlim Hfast (l & h & E & Hr) Hlen.
  destruct (inner_notified i <? lim) eqn:Ei.
  - rewrite E. eexists. split; [done|]. apply Rep_unlock; [done|].
    rewrite Hlen. apply HR.
  - rewrite Hfast by lia. eauto.
Qed.

(** A heap operation that took the entry [p] out, followed by [unlock]. *)
Lemma a_remove_Rep q n l h p :
  Z.of_nat (length (ptrs q)) <= usize_MAX ->
  rep (rm p (qN q)) (rm p (qU q)) l h -> Rep (a_remove p q) (unlock (mkInner n l h)).
Proof.
  intros Hs Hr. apply Rep_unlock; [done|]. pose proof (a_remove_length p q). lia.
Qed.

Lemma remove_refines q i p s :
  Rep q i -> in_queue (p, s) q -> exists l h,
    List_remove p (list_ i) (heap i) = Some (s, l, h) /\
    rep (qN (a_remove p q)) (qU (a_remove p q)) l h /\
    Rep (a_remove p q) (unlock (mkInner (inner_notified i) l h)).
Proof.
  intros HR Hin.
  destruct (List_remove_spec _ _ _ _ p s (Rep_list _ _ HR) Hin) as (l & h & E & Hr).
  exists l, h. split_and!; [done|done|]. apply a_remove_Rep; [apply HR|done].
Qed.

(** The same for an entry whose state was overwritten first, as [wait] and
    [poll] do. *)
Lemma update_refines q i p s s' :
  Rep q i -> in_queue (p, s) q -> is_notified s' = is_notified s -> exists e,
    heap i !! p = Some e /\ state e = s /\
    rep (qN (a_update p s' q)) (qU (a_update p s' q)) (list_ i) (<[p := set_state s' e]> (heap i)) /\
    Rep (a_update p s' q)
      (unlock (mkInner (inner_notified i) (list_ i) (<[p := set_state s' e]> (heap i)))).
Proof.
  intros HR Hin Hn.
  destruct (rep_set_state _ _ _ _ p s s' (Rep_list _ _ HR) Hin Hn) as (e & E & Es & Hr).
  exists e. split_and!; [done|done|done|].
  apply Rep_unlock; [done|]. rewrite a_update_length. apply HR.
Qed.

Lemma upd_in p s s' q : (p, s) ∈ q -> (p, s') ∈ upd p s' q.
Proof.
  intros Hin. unfold upd. apply list_elem_of_fmap. exists (p, s). simpl.
  by rewrite decide_True.
Qed.

Lemma consume_refines q i p b :
  Rep q i -> in_queue (p, Notified b) q -> exists e l h,
    heap i !! p = Some e /\ state e = Notified b /\
    List_remove p (list_ i) (<[p := set_state (Notified false) e]> (heap i))
      = Some (Notified false, l, h) /\
    Rep (a_remove p q) (unlock (mkInner (inner_notified i) l h)).
Proof.
  intros HR Hin.
  destruct (update_refines q i p (Notified b) (Notified false) HR Hin eq_refl)
    as (e & E & Es & Hr & _).
  assert (Hin' : (p, Notified false) ∈ qN (a_update p (Notified false) q)
                 ++ qU (a_update p (Notified false) q)).
  { simpl. rewrite <- upd_app. by eapply upd_in. }
  destruct (List_remove_spec _ _ _ _ _ _ Hr Hin') as (l & h & E' & Hr').
  exists e, l, h. split_and!; [done..|]. apply a_remove_Rep; [apply HR|].
  simpl in Hr'. by rewrite !rm_upd in Hr'.
Qed.

Lemma notify_refines q i n :
  Rep q i -> is_usize n -> exists i',
    notify n i = Some (i', (a_notify n q).2) /\ Rep (a_notify n q).1 i'.
Proof.
  intros HR Hn. apply (notified_refines q i n locked_notify); [done|apply Hn| | |].
  - intros Hi. apply a_mark_nop. by apply (Rep_fast_path q i n).
  - destruct (List_notify_spec q _ _ n (Rep_list _ _ HR)) as (l & h & E & Hr).
    exists l, h. unfold locked_notify. by rewrite E.
  - apply a_mark_length.
Qed.

Lemma notify_additional_refines q i n :
  Rep q i -> is_usize n -> exists i',
    notify_additional n i = Some (i', (a_notify_additional n q).2) /\
    Rep (a_notify_additional n q).1 i'.
Proof.
  intros HR Hn.
  apply (notified_refines q i n locked_notify_additional); [done|done| | |].
  - intros Hi. apply a_mark_nop.
    destruct (Rep_fast_path q i usize_MAX HR) as [Hz|Hz]; auto; [done|].
    right. pose proof (Rep_size _ _ HR) as Hs. rewrite ptrs_length in Hs.
    destruct HR as [Hr Hw _]. rewrite Hw in Hi. unfold unlock in Hi. simpl in Hi.
    rewrite (rep_notified _ _ _ _ Hr), (rep_len _ _ _ _ Hr), length_app in Hi.
    destruct (Z.ltb_spec (Z.of_nat (length (qN q)))
      (Z.of_nat (length (qN q) + length (qU q)))); destruct (qU q); simpl in *; try done; lia.
  - destruct (List_notify_additional_spec q _ _ n (Rep_list _ _ HR)) as (l & h & E & Hr).
    exists l, h. unfold locked_notify_additional. by rewrite E.
  - apply a_mark_length.
Qed.

Lemma drop_refines q i p s :
  Rep q i -> in_queue (p, s) q -> exists i' ws q',
    drop_listener p i = Some (i', ws) /\ spec (ODrop p) q q' (AWakes ws) /\ Rep q' i'.
Proof.
  intros HR Hin. destruct (remove_refines q i p s HR Hin) as (l & h & E & Hr & HRr).
  unfold drop_listener. rewrite E. cbn [mbind option_bind].
  pose proof (a_remove_length p q) as Hle. pose proof (Rep_size _ _ HR) as Hs.
  destruct s as [|[]|w|t]; cbn [spec].
  - eexists _, _, _. split_and!; [done| |done]. by exists Created.
  - destruct (List_notify_additional_spec _ _ _ 1 Hr) as (l' & h' & -> & Hr').
    eexists _, _, _. split_and!; [done|by exists (Notified true)|].
    apply Rep_unlock; [done|]. unfold a_notify_additional. rewrite a_mark_length. lia.
  - destruct (List_notify_spec _ _ _ 1 Hr) as (l' & h' & -> & Hr').
    eexists _, _, _. split_and!; [done|by exists (Notified false)|].
    apply Rep_unlock; [done|]. unfold a_notify. rewrite a_mark_length. lia.
  - eexists _, _, _. split_and!; [done| |done]. by exists (Polling w).
  - eexists _, _, _. split_and!; [done| |done]. by exists (Waiting t).
Qed.

Lemma listen_refines q i :
  Rep q i -> Z.of_nat (length (ptrs q)) < usize_MAX -> exists p i',
    listen i = Some (p, i') /\ p ∉ ptrs q /\
    Rep (mkQueue (qN q) (qU q ++ [(p, Created)])) i'.
Proof.
  intros HR Hs.
  destruct (List_insert_spec _ _ _ _ (Rep_list _ _ HR)) as (p & l & h & E & Hp & Hr).
  unfold listen. rewrite E. eexists _, _. split_and!; [done|done|].
  apply Rep_unlock; [done|]. rewrite !ptrs_length in *. simpl. rewrite length_app. simpl. lia.
Qed.

Lemma exec_refines o q i :
  Rep q i -> allowed q o -> exists a i' q',
    exec o i = Some (a, i') /\ spec o q q' a /\ Rep q' i'.
Proof.
  intros HR. destruct o as [|n|n|p|p t|p w|p]; cbn [allowed exec]; intros Ha.
  - destruct (listen_refines q i HR Ha) as (p & i' & -> & Hp & HR').
    eexists _, _, _. split_and!; [done| |done]. by exists p.
  - destruct (notify_refines q i n HR Ha) as (i' & -> & HR').
    by eexists _, _, _.
  - destruct (notify_additional_refines q i n HR Ha) as (i' & -> & HR').
    by eexists _, _, _.
  - destruct (ptrs_in_queue p q Ha) as (s & Hin).
    destruct (remove_refines q i p s HR Hin) as (l & h & E & _ & HR').
    unfold discard. rewrite E. eexists _, _, _. split_and!; [done| |done]. by exists s.
  - destruct (ptrs_in_queue p q Ha) as (s & Hin). unfold wait_poll.
    destruct (is_notified s) eqn:Es.
    + destruct s as [|b|w|t']; try done.
      destruct (consume_refines q i p b HR Hin) as (e & l & h & E & Ee & Er & HR').
      rewrite E. cbn [mbind option_bind]. rewrite Ee, Er.
      eexists _, _, _. split_and!; [done| |done]. by exists (Notified b).
    + destruct (update_refines q i p s (Waiting t) HR Hin) as (e & E & Ee & _ & HR'); [done|].
      rewrite E. cbn [mbind option_bind]. rewrite Ee, insert_insert_eq.
      exists (ABool false). destruct s; try done;
        (eexists _, _; split_and!; [done| |exact HR']; eexists; split; [done|]; done).
  - destruct Ha as (s & Hin & Hw). unfold poll_listener.
    destruct (is_notified s) eqn:Es.
    + destruct s as [|b|w'|t']; try done.
      destruct (consume_refines q i p b HR Hin) as (e & l & h & E & Ee & Er & HR').
      rewrite E. cbn [mbind option_bind]. rewrite Ee, Er.
      eexists _, _, _. split_and!; [done| |done]. by exists (Notified b).
    + destruct (update_refines q i p s (Polling w) HR Hin) as (e & E & Ee & _ & HR'); [done|].
      rewrite E. cbn [mbind option_bind]. rewrite Ee, insert_insert_eq.
      exists (APoll Pending). destruct s; try done; [| |by destruct (Hw t)];
        (eexists _, _; split_and!; [done| |exact HR']; eexists; split; [done|]; done).
  - destruct (ptrs_in_queue p q Ha) as (s & Hin).
    destruct (drop_refines q i p s HR Hin) as (i' & ws & q' & -> & Hs & HR').
    by eexists _, _, _.
Qed.

(** * The event implements the interface *)

Lemma a_mark_ptrs add k q p : p ∈ ptrs (a_mark add k q).1 <-> p ∈ ptrs q.
Proof.
  unfold ptrs, a_mark, mark. simpl. rewrite !fmap_app, <- list_fmap_compose.
  rewrite <- (take_drop k (qU q)) at 3. rewrite fmap_app, !elem_of_app.
  simpl. naive_solver.
Qed.

Lemma a_mark_in add k q x :
  in_queue x (a_mark add k q).1 -> in_queue x q \/ is_notified x.2 = true.
Proof.
  unfold in_queue, a_mark, mark. simpl. rewrite !elem_of_app.
  intros [[?|([p s] & -> & _)%list_elem_of_fmap]|Hd]; auto.
  left. right. rewrite <- (take_drop k (qU q)). apply elem_of_app. by right.
Qed.

Lemma a_remove_in p q x : in_queue x (a_remove p q) <-> in_queue x q /\ x.1 <> p.
Proof.
  unfold in_queue, a_remove. simpl. rewrite <- rm_app. unfold rm.
  rewrite list_elem_of_filter. naive_solver.
Qed.

Lemma ptrs_in p q : p ∈ ptrs q <-> exists s, in_queue (p, s) q.
Proof.
  split; [apply ptrs_in_queue|]. intros [s Hs]. by apply (elem_of_fst _ p s).
Qed.

Lemma a_remove_ptrs p q p' : p' ∈ ptrs (a_remove p q) <-> p' ∈ ptrs q /\ p' <> p.
Proof. rewrite !ptrs_in. setoid_rewrite a_remove_in. naive_solver. Qed.

Lemma a_update_ptrs p s q p' : p' ∈ ptrs (a_update p s q) <-> p' ∈ ptrs q.
Proof.
  unfold ptrs, a_update. simpl. rewrite <- upd_app. by rewrite upd_fst.
Qed.

Lemma a_update_in p s q x :
  in_queue x (a_update p s q) -> x = (p, s) \/ in_queue x q /\ x.1 <> p.
Proof.
  unfold in_queue, a_update. simpl. rewrite <- upd_app. unfold upd.
  intros ([p' s'] & -> & Hin)%list_elem_of_fmap. simpl. case_decide; [by left|right]. auto.
Qed.

(** The listeners of [L] are the entries of the queue; those not tagged are
    not waited on by a thread. *)
Record alive (q : queue) (L : gset (bool * ptr)) : Prop := {
  alive_ptrs p : p ∈ ptrs q <-> exists b, (b, p) ∈ L;
  alive_tag p : (false, p) ∈ L -> (true, p) ∉ L;
  alive_poll p t : (false, p) ∈ L -> ~ in_queue (p, Waiting t) q }.

Definition ev_alive (i : Inner) (L : gset (bool * ptr)) : Prop :=
  exists q, Rep q i /\ alive q L.

Lemma alive_mark add k q L : alive q L -> alive (a_mark add k q).1 L.
Proof.
  intros [Hp Ht Hw]. split; [|done|].
  - intros p. by rewrite a_mark_ptrs.
  - intros p t Hin [Hq|?]%a_mark_in; [by eapply Hw|done].
Qed.

Lemma alive_remove b p q L : alive q L -> (b, p) ∈ L -> alive (a_remove p q) (L ∖ {[(b, p)]}).
Proof.
  intros [Hp Ht Hw] Hin. split.
  - intros p'. rewrite a_remove_ptrs, Hp. split.
    + intros [[b' ?] ?]. exists b'. set_solver.
    + intros [b' Hb]. split; [exists b'; set_solver|]. intros ->.
      destruct b, b'; set_solver.
  - intros p' ?. set_solver.
  - intros p' t ? [? ?]%a_remove_in. eapply Hw; [|done]. set_solver.
Qed.

Lemma alive_wait b p t q L :
  alive q L -> (b, p) ∈ L -> alive (a_update p (Waiting t) q) ({[(true, p)]} ∪ L ∖ {[(b, p)]}).
Proof.
  intros [Hp Ht Hw] Hin. split.
  - intros p'. rewrite a_update_ptrs, Hp. split.
    + intros [b' ?]. destruct (decide (p' = p)) as [->|]; [exists true|exists b']; set_solver.
    + intros [b' [?%elem_of_singleton|?]%elem_of_union]; [simplify_eq; by exists b|exists b'; set_solver].
  - intros p' ?. destruct b; set_solver.
  - intros p' t' Hin' [?|[? ?]]%a_update_in; [simplify_eq|].
    + destruct b; set_solver.
    + eapply Hw; [|done]. set_solver.
Qed.

Lemma alive_poll_update p w q L : alive q L -> alive (a_update p (Polling w) q) L.
Proof.
  intros [Hp Ht Hw]. split; [|done|].
  - intros p'. by rewrite a_update_ptrs.
  - intros p' t' Hin' [?|[? ?]]%a_update_in; [done|]. by eapply Hw.
Qed.

Lemma alive_insert p q L :
  alive q L -> p ∉ ptrs q -> alive (mkQueue (qN q) (qU q ++ [(p, Created)])) ({[(false, p)]} ∪ L).
Proof.
  intros [Hp Ht Hw] Hfresh.
  assert (Hn : forall b, (b, p) ∉ L) by (intros b ?; apply Hfresh, Hp; by exists b).
  split.
  - intros p'. unfold ptrs. simpl. rewrite (assoc_L (++)), fmap_app, elem_of_app.
    fold (ptrs q). rewrite Hp. simpl. rewrite list_elem_of_singleton. split.
    + intros [[b ?]| ->]; [exists b|exists false]; set_solver.
    + intros [b [?%elem_of_singleton|?]%elem_of_union]; [right; congruence|left; by exists b].
  - intros p' [?%elem_of_singleton|?]%elem_of_union; simplify_eq; set_solver.
  - intros p' t Hin. unfold in_queue. simpl. rewrite (assoc_L (++)), elem_of_app.
    intros [Hq|Hq]; [|set_solver]. apply elem_of_union in Hin as [Hin|Hin].
    + apply elem_of_singleton in Hin. simplify_eq. apply Hfresh, ptrs_in. by exists (Waiting t).
    + by eapply Hw.
Qed.

#[export] Instance event_ops : EventOps Inner := {|
  ev_new := Inner_new;
  ev_word := inner_notified;
  ev_full i := usize_MAX <=? len (list_ i);
  ev_listen := listen;
  ev_notify := locked_notify;
  ev_notify_additional := locked_notify_additional;
  ev_wait := wait_poll;
  ev_poll := poll_listener;
  ev_discard := discard;
  ev_drop := drop_listener |}.

Lemma alive_exec o q L i :
  Rep q i -> allowed q o -> alive q L ->
  exists a i' q', exec o i = Some (a, i') /\ spec o q q' a /\ Rep q' i'.
Proof. intros. by apply exec_refines. Qed.

Lemma alive_ptr b p q L : alive q L -> (b, p) ∈ L -> p ∈ ptrs q.
Proof. intros Ha Hin. apply (alive_ptrs _ _ Ha). by exists b. Qed.

#[export] Instance event_laws : EventLaws Inner.
Proof.
  refine {| ev_inv := ev_alive |}.
  - exists (mkQueue [] []). split; [apply Rep_new|]. split; [|set_solver..].
    intros p. split; [inversion 1|intros [? ?]; set_solver].
  - intros e L p (q & _ & Ha). apply Ha.
  - intros e L (q & HR & Ha) Hf. cbn in *. apply Z.leb_gt in Hf.
    destruct (listen_refines q e HR) as (p & e' & E & Hp & HR').
    { rewrite (rep_len _ _ _ _ (Rep_list _ _ HR)) in Hf. unfold ptrs. by rewrite length_fmap. }
    exists p, e'. split_and!; [done| |].
    + intros b Hb. apply Hp. by eapply alive_ptr.
    + eexists. split; [done|]. by apply alive_insert.
  - intros e L n (q & HR & Ha) Hn. cbn [ev_notify event_ops]. unfold locked_notify.
    destruct (List_notify_spec q _ _ n (Rep_list _ _ HR)) as (l & h & -> & Hr).
    eexists _, _. split; [done|]. exists (a_notify n q).1.
    split; [|by apply alive_mark]. apply Rep_unlock; [done|].
    unfold a_notify. rewrite a_mark_length. apply HR.
  - intros e L n (q & HR & Ha) Hn. cbn [ev_notify_additional event_ops]. unfold locked_notify_additional.
    destruct (List_notify_additional_spec q _ _ n (Rep_list _ _ HR)) as (l & h & -> & Hr).
    eexists _, _. split; [done|]. exists (a_notify_additional n q).1.
    split; [|by apply alive_mark]. apply Rep_unlock; [done|].
    unfold a_notify_additional. rewrite a_mark_length. apply HR.
  - intros e L b p t (q & HR & Ha) Hin. cbn.
    destruct (exec_refines (OWait p t) q e HR (alive_ptr _ _ _ _ Ha Hin))
      as (a & e' & q' & E & (s & Hs & Hsp) & HR').
    cbn in E. destruct (wait_poll p t e) as [[r e1]|]; [|done]. cbn in E. simplify_eq.
    exists r, e'. split; [done|]. exists q'. split; [done|].
    destruct (is_notified s); destruct Hsp as [[= ->] ->].
    + rewrite (left_id_L ∅ _). by apply alive_remove.
    + by apply alive_wait.
  - intros e L p w (q & HR & Ha) Hin. cbn.
    destruct (proj1 (ptrs_in p q) (alive_ptr _ _ _ _ Ha Hin)) as [s Hs].
    destruct (exec_refines (OPoll p w) q e HR) as (a & e' & q' & E & (s' & Hs' & Hsp) & HR').
    { exists s. split; [done|]. intros t ->. by eapply (alive_poll _ _ Ha). }
    cbn in E. destruct (poll_listener p w e) as [[r e1]|]; [|done]. cbn in E. simplify_eq.
    exists r, e'. split; [done|]. exists q'. split; [done|].
    destruct (is_notified s'); destruct Hsp as [[= ->] ->].
    + by apply alive_remove.
    + by apply alive_poll_update.
  - intros e L b p (q & HR & Ha) Hin. cbn.
    destruct (exec_refines (ODiscard p) q e HR (alive_ptr _ _ _ _ Ha Hin))
      as (a & e' & q' & E & (s & Hs & -> & ->) & HR').
    cbn in E. destruct (discard p e) as [[r e1]|]; [|done]. cbn in E. simplify_eq.
    eexists _, e'. split; [done|]. eexists. split; [done|]. by apply alive_remove.
  - intros e L b p (q & HR & Ha) Hin. cbn.
    destruct (exec_refines (ODrop p) q e HR (alive_ptr _ _ _ _ Ha Hin))
      as (a & e' & q' & E & (s & Hs & Hsp) & HR').
    cbn in E. destruct (drop_listener p e) as [[e1 ws]|]; [|done]. cbn in E. simplify_eq.
    exists e', ws. split; [done|]. exists q'. split; [done|].
    pose proof (alive_remove _ _ _ _ Ha Hin) as Har.
    destruct s as [|[]|w|t]; try (destruct Hsp as [-> _]; exact Har);
      apply (f_equal fst) in Hsp; cbn [fst] in Hsp; subst q'; by apply alive_mark.
Qed.

(** * Properties *)

(** C1: every operation of the event and of its listeners, run on memory that
    represents a queue of listeners (notified ones first) and used within its
    contract, follows no dangling pointer, answers what the queue operation
    answers (FIFO notification, removal of exactly the listener named), and
    leaves memory that represents the resulting queue. *)
Theorem event_refines (o : op) (q : queue) (i : Inner) :
  Rep q i -> allowed q o -> exists a i' q',
    exec o i = Some (a, i') /\ spec o q q' a /\ Rep q' i'.
Proof. apply exec_refines. Qed.

(** A heap with two listeners, the first one notified. *)
Definition two : Inner :=
  mkInner 1 (mkList (Some 1%positive) (Some 2%positive) (Some 2%positive) 2 1 true)
    {[ 1%positive := mkEntry (Notified true) None (Some 2%positive);
       2%positive := mkEntry (Polling 7) (Some 1%positive) None ]}.
Definition two_queue : queue :=
  mkQueue [(1%positive, Notified true)] [(2%positive, Polling 7)].

Lemma two_Rep : Rep two_queue two.
Proof.
  split; [|done|done].
  split; [|compute_done|done..| | |compute_done|compute_done]; simpl.
  - split_and!; by vm_compute.
  - by repeat constructor.
  - by repeat constructor.
Qed.

Lemma event_refines_witness :
  Rep two_queue two /\ allowed two_queue (ODrop 1) /\
  exists a i' q', exec (ODrop 1) two = Some (a, i') /\
    spec (ODrop 1) two_queue q' a /\ Rep q' i'.
Proof.
  assert (Hin : allowed two_queue (ODrop 1)) by (simpl; left).
  split; [exact two_Rep|split; [exact Hin|]].
  exact (event_refines (ODrop 1) two_queue two two_Rep Hin).
Defined.

Lemma Rep_counts q i : Rep q i ->
  notified (list_ i) = Z.of_nat (length (qN q)) /\
  len (list_ i) = Z.of_nat (length (qN q) + length (qU q)).
Proof.
  intros [Hr _ _]. rewrite (rep_notified _ _ _ _ Hr), (rep_len _ _ _ _ Hr), length_app. done.
Qed.

Lemma a_mark_counts add k q :
  length (qN (a_mark add k q).1) = (length (qN q) + k `min` length (qU q))%nat /\
  length (qU (a_mark add k q).1) = (length (qU q) - k)%nat.
Proof.
  unfold a_mark, mark. simpl. by rewrite length_app, length_fmap, length_take, length_drop.
Qed.

(** C2: a listener dropped before it consumed its notification passes it on:
    an additional one to the next listener that has none (if there is one),
    an ordinary one unless another listener is already notified; no other
    listener leaves the queue. *)
Theorem drop_passes_on (q : queue) (i : Inner) (p : ptr) (b : bool) :
  Rep q i -> in_queue (p, Notified b) q -> exists i' ws,
    drop_listener p i = Some (i', ws) /\
    len (list_ i') = len (list_ i) - 1 /\
    notified (list_ i') =
      (if b then Z.min (notified (list_ i)) (len (list_ i'))
      else Z.max (notified (list_ i) - 1) (Z.min 1 (len (list_ i')))).
Proof.
  intros HR Hin. destruct (drop_refines q i p (Notified b) HR Hin) as (i' & ws & q' & E & Hs & HR').
  exists i', ws. split; [done|].
  assert (Hs' : q' = (a_mark b (Z.to_nat (if b then 1 else 1 - Z.of_nat (length (rm p (qN q)))))
                        (a_remove p q)).1).
  { destruct Hs as (s & Hin' & Hs). assert (s = Notified b) as ->; [|by destruct b; simplify_eq Hs].
    pose proof (rep_nodup _ _ _ _ (Rep_list _ _ HR)) as Hnd. fold (ptrs q) in Hnd.
    unfold in_queue in *. apply list_elem_of_split in Hin as (A & B & Eq).
    unfold ptrs in Hnd. rewrite Eq in Hnd, Hin'. rewrite fmap_app, NoDup_app in Hnd.
    destruct Hnd as (_ & Hd & [Hp _]%NoDup_cons).
    apply elem_of_app in Hin' as [Hin'|[[= ->]|Hin']%elem_of_cons]; [|done|].
    - by destruct (Hd p (elem_of_fst _ _ _ Hin')); left.
    - by destruct Hp; apply (elem_of_fst _ _ _ Hin'). }
  pose proof (rep_count_rm _ _ _ _ _ _ (Rep_list _ _ HR) Hin) as Hc.
  destruct (Rep_counts _ _ HR) as [HN HL]. destruct (Rep_counts _ _ HR') as [HN' HL'].
  pose proof (rm_length p _ _ (rep_nodup _ _ _ _ (Rep_list _ _ HR)) Hin) as Hlen.
  rewrite rm_app, !length_app in Hlen. simpl in Hc.
  set (k := Z.to_nat _) in Hs'. pose proof (a_mark_counts b k (a_remove p q)) as [HkN HkU].
  rewrite <- Hs' in HkN, HkU. simpl in HkN, HkU. rewrite HL', HN', HL, HN, HkN, HkU.
  destruct b; lia.
Qed.

Lemma drop_passes_on_witness :
  Rep two_queue two /\ in_queue (1%positive, Notified true) two_queue /\
  exists i' ws, drop_listener 1 two = Some (i', ws) /\
    len (list_ i') = len (list_ two) - 1 /\
    notified (list_ i') = Z.min (notified (list_ two)) (len (list_ i')).
Proof.
  assert (Hin : in_queue (1%positive, Notified true) two_queue) by left.
  split; [exact two_Rep|split; [exact Hin|]].
  exact (drop_passes_on two_queue two 1 true two_Rep Hin).
Defined.

(** [notify(n)] leaves at least [min n len] listeners notified, counting
    those that were, and wakes nobody if there were enough;
    [notify_additional(n)] notifies [n] more, or everybody; in both cases the
    listeners woken are the oldest ones without a notification, and reading
    the notified count outside the lock never misses one. *)
Theorem notify_counts (q : queue) (i : Inner) (n : Z) :
  Rep q i -> is_usize n ->
  (exists i' ws, notify n i = Some (i', ws) /\
     len (list_ i') = len (list_ i) /\
     notified (list_ i') = Z.max (notified (list_ i)) (Z.min n (len (list_ i))) /\
     ws = all_wakes (take (Z.to_nat (n - notified (list_ i))) (qU q))) /\
  (exists i' ws, notify_additional n i = Some (i', ws) /\
     len (list_ i') = len (list_ i) /\
     notified (list_ i') = Z.min (notified (list_ i) + n) (len (list_ i)) /\
     ws = all_wakes (take (Z.to_nat n) (qU q))).
Proof.
  intros HR Hn. destruct (Rep_counts _ _ HR) as [HN HL].
  destruct (notify_refines q i n HR Hn) as (i1 & E1 & HR1).
  destruct (notify_additional_refines q i n HR Hn) as (i2 & E2 & HR2).
  destruct (Rep_counts _ _ HR1) as [HN1 HL1]. destruct (Rep_counts _ _ HR2) as [HN2 HL2].
  unfold a_notify, a_notify_additional in HN1, HL1, HN2, HL2.
  pose proof (a_mark_counts false (Z.to_nat (n - Z.of_nat (length (qN q)))) q) as [C1 C2].
  pose proof (a_mark_counts true (Z.to_nat n) q) as [C3 C4].
  rewrite C1 in HN1. rewrite C1, C2 in HL1. rewrite C3 in HN2. rewrite C3, C4 in HL2.
  split; eexists _, _; (split; [done|]); rewrite ?HN1, ?HL1, ?HN2, ?HL2, ?HN, ?HL;
    (split_and!; [|destruct Hn|done]); lia.
Qed.

Lemma notify_counts_witness :
  Rep two_queue two /\ is_usize 2 /\
  exists i' ws, notify 2 two = Some (i', ws) /\
     len (list_ i') = len (list_ two) /\
     notified (list_ i') = Z.max (notified (list_ two)) (Z.min 2 (len (list_ two))) /\
     ws = all_wakes (take (Z.to_nat (2 - notified (list_ two))) (qU two_queue)).
Proof.
  assert (Hn : is_usize 2) by (split; lia || (vm_compute; congruence)).
  split; [exact two_Rep|split; [exact Hn|]].
  exact (proj1 (notify_counts two_queue two 2 two_Rep Hn)).
Defined.
