(* ===== verification/AsyncMutex.v ===== *)
(** [platform/lock/mutex.rs]: the asynchronous mutex.

    The state word counts 2 for every starving task and 1 for the lock.  The
    code is written over any shared state that contains a mutex ([mget],
    [mput]), so that the reader-writer lock and the barrier run the same
    code on their own; [Exclusion] instantiates it with a mutex alone. *)

From S2P Require Import Prelude Conc EventApi.
From S2P Require Event.

Record MState (E : Type) := mkM { word : Z; lock_ops : E }.
Arguments mkM {E} word lock_ops.
Arguments word {E} m.
Arguments lock_ops {E} m.

Section code.
Context {E} `{EventOps E} {Σ : Type} (mget : Σ -> MState E) (mput : MState E -> Σ -> Σ).

Definition get_word (σ : Σ) : Z := word (mget σ).
Definition put_word (w : Z) (σ : Σ) : Σ := mput (mkM w (lock_ops (mget σ))) σ.
Definition get_ops (σ : Σ) : E := lock_ops (mget σ).
Definition put_ops (e : E) (σ : Σ) : Σ := mput (mkM (word (mget σ)) e) σ.

Local Abbreviation cas_word := (cas_value get_word put_word).
Local Abbreviation listen := (listen_p get_ops put_ops).
Local Abbreviation notify := (notify_p get_ops put_ops).
Local Abbreviation await := (await_p get_ops put_ops).
Local Abbreviation drop := (drop_p get_ops put_ops).

Definition try_lock : prog Σ bool :=
  s ← cas_word 0 1; mret (s =? 0).

Inductive slow := Acquired | Starve | Dropped.

(** The first loop of [acquire_slow]; [Dropped] when the caller dropped the
    future during the [await]. *)
Fixpoint acquire_loop (fuel : nat) (w : nat) : prog Σ slow :=
  match fuel with
  | O => OutOfFuel
  | S fuel =>
      p ← listen;
      s ← cas_word 0 1;
      if s =? 0 then drop p ;; mret Acquired
      else if s =? 1 then
        ok ← await p w;
        if negb ok then mret Dropped else
        s ← cas_word 0 1;
        if s =? 0 then mret Acquired
        else if s =? 1 then
          elapsed ← Pick Ret;
          if elapsed : bool then mret Starve else acquire_loop fuel w
        else notify 1 ;; mret Starve
      else drop p ;; mret Starve
  end.

(** The second loop: the task counts as starving. *)
Fixpoint starve_loop (fuel : nat) (w : nat) : prog Σ bool :=
  match fuel with
  | O => OutOfFuel
  | S fuel =>
      p ← listen;
      s ← cas_word 2 (Z.lor 2 1);
      if s =? 2 then drop p ;; mret true
      else
        (if s mod 2 =? 1 then mret () else notify 1) ;;
        ok ← await p w;
        if negb ok then mret false else
        s ← fetch_or get_word put_word 1;
        if s mod 2 =? 0 then mret true else starve_loop fuel w
  end.

(** [acquire_slow]: [false] when the future was dropped before it finished;
    the second [fetch_sub] is the drop of [_call]. *)
Definition acquire_slow (fuel : nat) (w : nat) : prog Σ bool :=
  r ← acquire_loop fuel w;
  match r with
  | Acquired => mret true
  | Dropped => mret false
  | Starve =>
      s ← fetch_add get_word put_word 2;
      if usize_MAX / 2 <? s then ProcAbort else
      b ← starve_loop fuel w;
      fetch_sub get_word put_word 2 ;;
      mret b
  end.

Definition lock (fuel : nat) (w : nat) : prog Σ bool :=
  b ← try_lock; if b : bool then mret true else acquire_slow fuel w.

(** [<MutexGuard as Drop>::drop]. *)
Definition unlock : prog Σ unit :=
  fetch_sub get_word put_word 1 ;; notify 1.

(** The same over an [Arc] of the mutex. *)
Definition try_lock_arc : prog Σ bool :=
  s ← cas_word 0 1; mret (s =? 0).
Definition lock_arc (fuel : nat) (w : nat) : prog Σ bool :=
  b ← try_lock_arc; if b : bool then mret true else acquire_slow fuel w.
Definition unlock_arc : prog Σ unit :=
  fetch_sub get_word put_word 1 ;; notify 1.
End code.

(** * What the code does to the tokens: one [guard] for every guard, one
    [starving] for every task between the two [fetch_add]/[fetch_sub]. *)

Section spec.
Context {E} `{EventLaws E} {Σ : Type} (mget : Σ -> MState E) (mput : MState E -> Σ -> Σ).
Context {K} `{Countable K} (guard starving : K) (lis : bool * ptr -> K).
Context `{!Inj (=) (=) lis}.
Context (Hgs : guard <> starving) (Hgl : forall x, guard <> lis x)
        (Hsl : forall x, starving <> lis x).
Context (I : Σ -> gmultiset K -> Prop).

Definition mutex_token (k : K) : Prop := k = guard \/ k = starving \/ is_lis lis k.

(** Guards a client of the mutex keeps under tokens of its own. *)
Context (extra : gmultiset K -> nat).
Context (Hextra : forall m m', agree_off mutex_token m m' -> extra m = extra m').

Definition guards (m : gmultiset K) : nat := (multiplicity guard m + extra m)%nat.

Definition mutex_inv (s : MState E) (m : gmultiset K) : Prop :=
  ev_tokens lis (lock_ops s) m /\
  word s = wrap 64 (2 * Z.of_nat (multiplicity starving m) + Z.of_nat (guards m)) /\
  (guards m <= 1)%nat.

Lemma mutex_event : Sub lock_ops (fun e s => mkM (word s) e) (is_lis lis) (ev_tokens lis) mutex_inv.
Proof.
  refine {| rest s m :=
    word s = wrap 64 (2 * Z.of_nat (multiplicity starving m) + Z.of_nat (guards m)) /\
    (guards m <= 1)%nat |}.
  - done.
  - done.
  - intros s m m' Ho. unfold guards.
    rewrite <- (Ho guard), <- (Ho starving), (Hextra m m'); [done| | |].
    + intros k Hk. apply Ho. intros Hl. apply Hk. unfold mutex_token. auto.
    + intros [x ?]. naive_solver.
    + intros [x ?]. naive_solver.
  - done.
Qed.

Context `{!Sub mget mput mutex_token mutex_inv I}.

Lemma mutex_client :
  Sub (get_ops mget) (put_ops mget mput) (is_lis lis) (ev_tokens lis) I.
Proof.
  apply (Sub_trans mget mput mutex_token mutex_inv lock_ops (fun e s => mkM (word s) e));
    [|done|apply mutex_event]. unfold mutex_token. auto.
Qed.
Local Existing Instance mutex_client.

Local Notation gk := ({[+ guard +]} : gmultiset K).
Local Notation sk := ({[+ starving +]} : gmultiset K).

Definition counts (m : gmultiset K) : Z * Z :=
  (Z.of_nat (multiplicity starving m), Z.of_nat (guards m)).

(** One read-modify-write of the word. *)
Lemma ok_word (f : Z -> Z) m (Q : gmultiset K -> Z -> Prop) :
  (forall s fr, s = wrap 64 (2 * (counts (m ⊎ fr)).1 + (counts (m ⊎ fr)).2) ->
     (counts (m ⊎ fr)).2 <= 1 ->
     exists m', f s = wrap 64 (2 * (counts (m' ⊎ fr)).1 + (counts (m' ⊎ fr)).2) /\
       (counts (m' ⊎ fr)).2 <= 1 /\
       (forall k, k <> guard -> k <> starving -> multiplicity k m = multiplicity k m') /\
       Q m' s) ->
  ok I m (rmw (get_word mget) (put_word mget mput) f) Q.
Proof.
  intros Hf. apply ok_atomic. intros σ fr HI.
  pose proof (sub_elim mget mput mutex_token mutex_inv I _ _ HI) as (Hev & Hw & Hg).
  destruct (Hf (word (mget σ)) fr) as (m' & Hw' & Hg' & Hoff & HQ); [done|simpl; lia|].
  exists m'. split; [|done].
  apply (sub_step mget mput mutex_token mutex_inv I _ _ m).
  - done.
  - split_and!; [|done|simpl in Hg'; lia].
    destruct Hev as (L & HL & Hm). exists L. split; [done|]. intros x. rewrite <- Hm.
    rewrite !multiplicity_disj_union. f_equal. symmetry. apply Hoff; naive_solver.
  - intros k Hk. apply Hoff; intros ->; apply Hk; unfold mutex_token; auto.
Qed.

Lemma extra_token k m fr : mutex_token k -> extra ((m ⊎ {[+ k +]}) ⊎ fr) = extra (m ⊎ fr).
Proof.
  intros Hk. apply Hextra. intros k' Hk'. rewrite !multiplicity_disj_union.
  rewrite (multiplicity_singleton_ne k'); [lia|]. by intros ->.
Qed.

Lemma counts_guard m fr :
  counts ((m ⊎ gk) ⊎ fr) = ((counts (m ⊎ fr)).1, (counts (m ⊎ fr)).2 + 1).
Proof.
  unfold counts, guards. rewrite extra_token by (by left).
  rewrite !multiplicity_disj_union, multiplicity_singleton_eq,
    (multiplicity_singleton_ne starving) by done. simpl. f_equal; lia.
Qed.
Lemma counts_starving m fr :
  counts ((m ⊎ sk) ⊎ fr) = ((counts (m ⊎ fr)).1 + 1, (counts (m ⊎ fr)).2).
Proof.
  unfold counts, guards. rewrite extra_token by (by right; left).
  rewrite !multiplicity_disj_union, multiplicity_singleton_eq,
    (multiplicity_singleton_ne guard) by done. simpl. f_equal; lia.
Qed.
Lemma counts_pos m : 0 <= (counts m).1 /\ 0 <= (counts m).2.
Proof. unfold counts. simpl. lia. Qed.
Lemma off_guard m : forall k, k <> guard -> k <> starving -> multiplicity k m = multiplicity k (m ⊎ gk).
Proof. intros k ? ?. rewrite multiplicity_disj_union, multiplicity_singleton_ne by done. lia. Qed.
Lemma off_starving m : forall k, k <> guard -> k <> starving -> multiplicity k m = multiplicity k (m ⊎ sk).
Proof. intros k ? ?. rewrite multiplicity_disj_union, multiplicity_singleton_ne by done. lia. Qed.

(** A compare-exchange that sets the lock bit of an even word. *)
Lemma ok_cas_lock a m (Q : gmultiset K -> Z -> Prop) :
  0 <= a < 2 ^ 64 - 1 -> a mod 2 = 0 ->
  (forall s, Q (if s =? a then m ⊎ gk else m) s) ->
  ok I m (cas_value (get_word mget) (put_word mget mput) a (a + 1)) Q.
Proof.
  intros Ha Hev HQ. apply ok_word. intros s fr Hs Hg.
  specialize (HQ s). destruct (s =? a) eqn:Es.
  - apply Z.eqb_eq in Es. rewrite Es in Hs, HQ |- *. exists (m ⊎ gk). rewrite counts_guard. pose proof (counts_pos (m ⊎ fr)).
    set (st := (counts (m ⊎ fr)).1) in *. set (gd := (counts (m ⊎ fr)).2) in *.
    assert (gd = 0) as Hgd.
    { rewrite Hs, wrap_mod2, Z.add_comm, Z.mul_comm, Z_mod_plus_full in Hev by lia.
      assert (gd = 0 \/ gd = 1) as [?| ->] by lia; [done|by vm_compute in Hev]. }
    simpl. split_and!; [|lia|apply off_guard|done].
    rewrite Z.add_assoc, <- wrap_add_l, <- Hs. symmetry. apply wrap_small. lia.
  - exists m. auto.
Qed.

Lemma word_parity (st gd : Z) : 0 <= gd <= 1 -> wrap 64 (2 * st + gd) mod 2 = gd.
Proof.
  intros Hg. rewrite wrap_mod2, Z.add_comm, Z.mul_comm, Z_mod_plus_full by lia.
  apply Z.mod_small. lia.
Qed.

Lemma ok_fetch_or m (Q : gmultiset K -> Z -> Prop) :
  (forall s, Q (if s mod 2 =? 0 then m ⊎ gk else m) s) ->
  ok I m (fetch_or (get_word mget) (put_word mget mput) 1) Q.
Proof.
  intros HQ. apply ok_word. intros s fr Hs Hg. pose proof (counts_pos (m ⊎ fr)).
  specialize (HQ s).
  assert (Hp : s mod 2 = (counts (m ⊎ fr)).2) by (rewrite Hs; apply word_parity; lia).
  destruct (s mod 2 =? 0) eqn:Es.
  - exists (m ⊎ gk). rewrite counts_guard. apply Z.eqb_eq in Es. cbn [fst snd].
    split_and!; [|lia|apply off_guard|done].
    rewrite lor_1_even, Z.add_assoc, <- wrap_add_l, <- Hs by done. symmetry.
    apply wrap_small. assert (s <> 2 ^ 64 - 1) by (intros ->; by vm_compute in Es).
    pose proof (wrap_range 64 (2 * (counts (m ⊎ fr)).1 + (counts (m ⊎ fr)).2) ltac:(lia)) as Hr.
    rewrite <- Hs in Hr. lia.
  - exists m. apply Z.eqb_neq in Es. split_and!; [|done|done|done].
    rewrite <- Hs. apply lor_1_odd. lia.
Qed.

Lemma ok_add_starving m (Q : gmultiset K -> Z -> Prop) :
  (forall s, Q (m ⊎ sk) s) ->
  ok I m (fetch_add (get_word mget) (put_word mget mput) 2) Q.
Proof.
  intros HQ. apply ok_word. intros s fr Hs Hg. exists (m ⊎ sk).
  rewrite counts_starving. split_and!; [|done|apply off_starving|done].
  rewrite Hs. unfold wrapping_add. rewrite wrap_add_l. simpl. f_equal. lia.
Qed.

Lemma ok_sub_starving m (Q : gmultiset K -> Z -> Prop) :
  (forall s, Q m s) ->
  ok I (m ⊎ sk) (fetch_sub (get_word mget) (put_word mget mput) 2) Q.
Proof.
  intros HQ. apply ok_word. intros s fr. rewrite counts_starving. intros Hs Hg. exists m.
  split_and!; [|done|by intros; symmetry; apply off_starving|done].
  rewrite Hs. unfold wrapping_sub. rewrite wrap_sub_l. simpl. f_equal. lia.
Qed.

Lemma ok_sub_guard m (Q : gmultiset K -> Z -> Prop) :
  (forall s, Q m s) ->
  ok I (m ⊎ gk) (fetch_sub (get_word mget) (put_word mget mput) 1) Q.
Proof.
  intros HQ. apply ok_word. intros s fr. rewrite counts_guard. intros Hs Hg. exists m.
  split_and!; [|cbn [fst snd] in Hg; lia|by intros; symmetry; apply off_guard|done].
  rewrite Hs. unfold wrapping_sub. rewrite wrap_sub_l. simpl. f_equal. lia.
Qed.

(** ** The operations *)

Lemma ok_try_lock m (Q : gmultiset K -> bool -> Prop) :
  (forall b : bool, Q (if b then m ⊎ gk else m) b) -> ok I m (try_lock mget mput) Q.
Proof.
  intros HQ. apply ok_bind, (ok_cas_lock 0); [lia|done|]. intros s. apply HQ.
Qed.

Definition slow_tokens (r : slow) (m : gmultiset K) : gmultiset K :=
  match r with Acquired => m ⊎ gk | _ => m end.

Lemma ok_drop_then {A} (x : A) p m (Q : gmultiset K -> A -> Prop) :
  Q m x ->
  ok I (m ⊎ {[+ lis (false, p) +]})
    (drop_p (get_ops mget) (put_ops mget mput) p ;; mret x) Q.
Proof. intros HQ. apply ok_bind, (ok_drop_p (get_ops mget) (put_ops mget mput) lis I). exact HQ. Qed.

Lemma ok_acquire_loop fuel w m (Q : gmultiset K -> slow -> Prop) :
  (forall r, Q (slow_tokens r m) r) -> ok I m (acquire_loop mget mput fuel w) Q.
Proof.
  intros HQ. induction fuel as [|fuel IH]; [done|].
  apply ok_bind, (ok_listen_p (get_ops mget) (put_ops mget mput) lis I). intros p.
  apply ok_bind, (ok_cas_lock 0); [lia|done|]. intros s.
  destruct (s =? 0) eqn:E0; [|destruct (s =? 1)].
  - rewrite <- (assoc_L (⊎)), (comm_L (⊎) {[+ _ +]}), (assoc_L (⊎)).
    apply ok_drop_then, (HQ Acquired).
  - apply ok_bind, (ok_await_p (get_ops mget) (put_ops mget mput) lis I). intros [|]; [|apply (HQ Dropped)].
    apply ok_bind, (ok_cas_lock 0); [lia|done|]. intros s'.
    destruct (s' =? 0) eqn:E0'; [apply (HQ Acquired)|destruct (s' =? 1)].
    + apply ok_bind, ok_pick. intros [|]; [apply (HQ Starve)|apply IH].
    + apply ok_bind, (ok_notify_p (get_ops mget) (put_ops mget mput) lis I); [done|apply (HQ Starve)].
  - apply ok_drop_then, (HQ Starve).
Qed.

Lemma ok_starve_loop fuel w m (Q : gmultiset K -> bool -> Prop) :
  (forall b : bool, Q (if b then m ⊎ gk else m) b) ->
  ok I m (starve_loop mget mput fuel w) Q.
Proof.
  intros HQ. induction fuel as [|fuel IH]; [done|].
  apply ok_bind, (ok_listen_p (get_ops mget) (put_ops mget mput) lis I). intros p.
  apply ok_bind, (ok_cas_lock 2); [lia|done|]. intros s. destruct (s =? 2).
  - rewrite <- (assoc_L (⊎)), (comm_L (⊎) {[+ _ +]}), (assoc_L (⊎)).
    apply ok_drop_then, (HQ true).
  - apply ok_bind. assert (Hrest : ok I (m ⊎ {[+ lis (false, p) +]})
      (ok ← await_p (get_ops mget) (put_ops mget mput) p w;
       if negb ok then mret false else
       s ← fetch_or (get_word mget) (put_word mget mput) 1;
       if s mod 2 =? 0 then mret true else starve_loop mget mput fuel w) Q).
    { apply ok_bind, (ok_await_p (get_ops mget) (put_ops mget mput) lis I). intros [|]; [|apply (HQ false)].
      apply ok_bind, ok_fetch_or. intros s'. destruct (s' mod 2 =? 0); [apply (HQ true)|apply IH]. }
    destruct (s mod 2 =? 1); [done|]. by apply (ok_notify_p (get_ops mget) (put_ops mget mput) lis I).
Qed.

Lemma ok_lock fuel w m (Q : gmultiset K -> bool -> Prop) :
  (forall b : bool, Q (if b then m ⊎ gk else m) b) -> ok I m (lock mget mput fuel w) Q.
Proof.
  intros HQ. apply ok_bind, ok_try_lock. intros [|]; [apply (HQ true)|].
  apply ok_bind, ok_acquire_loop. intros [| |]; [apply (HQ true)| |apply (HQ false)].
  apply ok_bind, ok_add_starving. intros s. case_match; [done|].
  apply ok_bind, ok_starve_loop. intros b. apply ok_bind.
  destruct b; [|apply ok_sub_starving; intros; apply (HQ false)].
  rewrite <- (assoc_L (⊎)), (comm_L (⊎) sk), (assoc_L (⊎)).
  apply ok_sub_starving. intros. apply (HQ true).
Qed.

Lemma ok_unlock m (Q : gmultiset K -> unit -> Prop) :
  Q m () -> ok I (m ⊎ gk) (unlock mget mput) Q.
Proof.
  intros HQ. apply ok_bind, ok_sub_guard. intros _. by apply (ok_notify_p (get_ops mget) (put_ops mget mput) lis I).
Qed.
End spec.

(** * A mutex shared by a pool of tasks *)

Section exclusion.
Context {E} `{EventLaws E}.

(** Tokens: guards, starving tasks, listeners. *)
Definition mtok : Type := bool + (bool * ptr).
Definition TGuard : mtok := inl true.
Definition TStarving : mtok := inl false.
Definition no_extra (m : gmultiset mtok) : nat := 0.

Inductive mop :=
| MTryLock | MTryLockArc
| MLock (fuel w : nat) | MLockArc (fuel w : nat)
| MUnlock | MUnlockArc.

Definition mcode (op : mop) : prog (MState E) bool :=
  match op with
  | MTryLock => try_lock id (fun s _ => s)
  | MTryLockArc => try_lock_arc id (fun s _ => s)
  | MLock fuel w => lock id (fun s _ => s) fuel w
  | MLockArc fuel w => lock_arc id (fun s _ => s) fuel w
  | MUnlock => unlock id (fun s _ => s) ;; mret false
  | MUnlockArc => unlock_arc id (fun s _ => s) ;; mret false
  end.

(** A task owns some number of guards and must own one to drop it. *)
Definition mstart (c : nat) (op : mop) : option nat :=
  match op with
  | MUnlock | MUnlockArc => match c with O => None | S c => Some c end
  | _ => Some c
  end.
Definition mfinish (c : nat) (op : mop) (r : bool) : nat := if r then S c else c.

Definition mtokens (c : nat) : gmultiset mtok := c *: {[+ TGuard +]}.

Definition minit (n : nat) : config (MState E) mop bool nat :=
  Config (mkM 0 ev_new) (replicate n (Thread 0%nat None)).

Local Abbreviation Minv := (mutex_inv TGuard TStarving (inr : bool * ptr -> mtok) no_extra).

Lemma TG_TS : TGuard <> TStarving. Proof. done. Qed.
Lemma TG_lis x : TGuard <> inr x. Proof. done. Qed.
Lemma TS_lis x : TStarving <> inr x. Proof. done. Qed.
Lemma Hno_extra (m m' : gmultiset mtok) :
  agree_off (mutex_token TGuard TStarving inr) m m' -> no_extra m = no_extra m'.
Proof. done. Qed.

Lemma mtokens_S c : mtokens (S c) = mtokens c ⊎ {[+ TGuard +]}.
Proof. unfold mtokens. rewrite gmultiset_scalar_mul_S_r. reflexivity. Qed.

Lemma Minv_sub : Sub (fun s : MState E => s) (fun s _ => s)
  (mutex_token TGuard TStarving inr) Minv Minv.
Proof. refine {| rest _ _ := True |}; auto. intros; naive_solver. Qed.
Local Existing Instance Minv_sub.

Lemma mops_ok : ops_ok mcode mstart mfinish Minv mtokens.
Proof.
  intros c op c' Hs. destruct op as [| |fuel w|fuel w| |]; simpl in Hs.
  1-2: simplify_eq; exists ∅; split; [by rewrite (right_id_L ∅ (⊎))|];
    apply (ok_try_lock _ _ TGuard TStarving inr TG_TS TG_lis TS_lis Minv no_extra Hno_extra);
    intros [|]; simpl; [|by rewrite (right_id_L ∅ (⊎))];
    by rewrite mtokens_S, (left_id_L ∅ (⊎)).
  1-2: simplify_eq; exists ∅; split; [by rewrite (right_id_L ∅ (⊎))|];
    apply (ok_lock _ _ TGuard TStarving inr TG_TS TG_lis TS_lis Minv no_extra Hno_extra);
    intros [|]; simpl; [|by rewrite (right_id_L ∅ (⊎))];
    by rewrite mtokens_S, (left_id_L ∅ (⊎)).
  1-2: destruct c; simplify_eq; exists {[+ TGuard +]}; split; [apply mtokens_S|];
    apply ok_bind; rewrite <- (left_id_L ∅ (⊎) {[+ TGuard +]});
    apply (ok_unlock _ _ TGuard TStarving inr TG_TS TG_lis TS_lis Minv no_extra Hno_extra);
    simpl; by rewrite (right_id_L ∅ (⊎)).
Qed.

Lemma Minv_init : Minv (mkM 0 ev_new) ∅.
Proof.
  split_and!; unfold guards, no_extra; rewrite ?multiplicity_empty; [|done|lia]. exists ∅. split; [apply ev_inv_new|].
  intros x. rewrite multiplicity_empty. by rewrite decide_False by set_solver.
Qed.

Lemma mtokens_guards c : multiplicity TGuard (mtokens c) = c.
Proof. unfold mtokens. rewrite multiplicity_scalar_mul, multiplicity_singleton_eq. lia. Qed.
End exclusion.

(** C14: in every interleaving of any number of tasks that try to lock, lock
    (with the retries, the starvation phase, the awaits and futures dropped
    half way), and drop guards, no operation of the event is misused and at
    most one guard exists. *)
Theorem mutex_exclusion {E} `{EventLaws E} (n : nat) (c : config (MState E) mop bool nat) :
  reachable mcode mstart mfinish (minit n) c ->
  existsb thread_aborted (threads c) = false ->
  existsb thread_crashed (threads c) = false /\ (sum_list (owns <$> threads c) <= 1)%nat.
Proof.
  intros Hr Ha.
  destruct (pool_safe mcode mstart mfinish (mutex_inv TGuard TStarving inr no_extra) mtokens n
    (mkM 0 ev_new) 0%nat c) as [Hc [fr (_ & _ & Hg)]]; try done.
  - apply mops_ok.
  - apply Minv_init.
  - split; [done|]. unfold guards in Hg. 
    assert (E1 : multiplicity TGuard (⋃+ ((fun t => mtokens (owns t)) <$> threads c))
                 = sum_list (owns <$> threads c)) by apply (owned_count mtokens TGuard id), mtokens_guards.
    rewrite multiplicity_disj_union, E1 in Hg. lia.
Qed.

(** One task holds the lock; a second one listens, fails, awaits, is notified
    by the unlock and takes the lock. *)
Definition handover : list (event mop) :=
  let s := EStep 0 false in let s' := EStep 1 false in
  [EStart 0 MTryLock; s; s; EStart 1 (MLock 5 7); s'; s'; s'; s'; s'; s';
   EStart 0 MUnlock; s; s; s; s; s'; s'; s'].

Definition handover_final : config (MState Event.Inner) mop bool nat :=
  after (mcode (H:=Event.event_ops)) mstart mfinish handover (minit (H:=Event.event_ops) 2).

Lemma mutex_exclusion_witness :
  reachable (mcode (H:=Event.event_ops)) mstart mfinish (minit (H:=Event.event_ops) 2) handover_final /\
  (owns <$> threads handover_final) = [0%nat; 1%nat] /\
  existsb thread_crashed (threads handover_final) = false /\
  (sum_list (owns <$> threads handover_final) <= 1)%nat.
Proof.
  assert (Hr : reachable (mcode (H:=Event.event_ops)) mstart mfinish
                 (minit (H:=Event.event_ops) 2) handover_final)
    by (apply after_reachable; vm_compute; reflexivity).
  split; [exact Hr|split; [vm_compute; reflexivity|]].
  apply (mutex_exclusion (H0:=Event.event_laws) 2 _ Hr). vm_compute. reflexivity.
Defined.
