(* ===== verification/SyncMutex.v ===== *)
(** [platform/mutex/mutex.rs]: the blocking mutex.

    The same word and event as the asynchronous mutex (and the same token
    lemmas), but threads spin, then block on the listener.  Mutual exclusion
    holds; the starvation loop, which drops the notification its
    asynchronous twin sends, can leave a free mutex with every contender
    blocked. *)

From S2P Require Import Prelude Conc EventApi AsyncMutex.
From S2P Require Event.

Section code.
Context {E} `{EventOps E}.
Abbreviation sync_word := (cas (@word E) (fun w s => mkM w (lock_ops s))).
Local Abbreviation get_word := (get_word (fun s : MState E => s)).
Local Abbreviation put_word := (put_word (fun s : MState E => s) (fun s _ => s)).
Local Abbreviation get_ops := (get_ops (fun s : MState E => s)).
Local Abbreviation put_ops := (put_ops (fun s : MState E => s) (fun s _ => s)).
Local Abbreviation cas := (cas get_word put_word).

(** [try_lock]. *)
Definition sync_try_lock : prog (MState E) bool :=
  r ← cas 0 1;
  match r with Ok 0 => mret true | Err _ => mret false | _ => mret false end.

(** The ten rounds of spinning: [true] with the lock taken, [false] to go
    on to the listeners. *)
Fixpoint spin (steps : nat) : prog (MState E) bool :=
  match steps with
  | O => mret false
  | S steps =>
      r ← cas 0 1;
      match r with
      | Ok 0 => mret true
      | Err 1 => spin steps
      | _ => mret false
      end
  end.

(** The first loop of [lock_slow]: [true] with the lock taken, [false] when
    the thread starves. *)
Fixpoint wait_loop (fuel : nat) (t : nat) : prog (MState E) bool :=
  match fuel with
  | O => OutOfFuel
  | S fuel =>
      p ← listen_p get_ops put_ops;
      r ← cas 0 1;
      match r with
      | Ok 0 => drop_p get_ops put_ops p ;; mret true
      | Err 1 =>
          wait_p get_ops put_ops p t ;;
          r ← cas 0 1;
          match r with
          | Ok 0 => mret true
          | Err 1 => elapsed ← Pick Ret;
                     if elapsed : bool then mret false else wait_loop fuel t
          | _ => notify_p get_ops put_ops 1 ;; mret false
          end
      | _ => drop_p get_ops put_ops p ;; mret false
      end
  end.

(** The second loop.  Every failure of the compare-exchange is an [Err], so
    the arm that notifies is never taken. *)
Fixpoint starving_loop (fuel : nat) (t : nat) : prog (MState E) unit :=
  match fuel with
  | O => OutOfFuel
  | S fuel =>
      p ← listen_p get_ops put_ops;
      r ← cas 2 (Z.lor 2 1);
      let blocked : prog (MState E) unit :=
        wait_p get_ops put_ops p t ;;
        s ← fetch_or get_word put_word 1;
        if s mod 2 =? 0 then mret () else starving_loop fuel t in
      match r with
      | Ok 2 => drop_p get_ops put_ops p
      | Err s => (if s mod 2 =? 1 then mret () else mret ()) ;; blocked
      | _ => notify_p get_ops put_ops 1 ;; blocked
      end
  end.

Definition lock_slow (fuel : nat) (t : nat) : prog (MState E) unit :=
  b ← spin 10;
  if b : bool then mret () else
  b ← wait_loop fuel t;
  if b : bool then mret () else
  fetch_add get_word put_word 2 ;;
  starving_loop fuel t ;;
  fetch_sub get_word put_word 2 ;;
  mret ().

Definition sync_lock (fuel : nat) (t : nat) : prog (MState E) unit :=
  b ← sync_try_lock; if b : bool then mret () else lock_slow fuel t.

(** [<MutexGuard as Drop>::drop]; the two notifications differ by a fence. *)
Definition sync_unlock : prog (MState E) unit :=
  fetch_sub get_word put_word 1 ;; notify_p get_ops put_ops 1.

Inductive sop := STryLock | SLock (fuel t : nat) | SUnlock.

Definition scode (op : sop) : prog (MState E) bool :=
  match op with
  | STryLock => sync_try_lock
  | SLock fuel t => sync_lock fuel t ;; mret true
  | SUnlock => sync_unlock ;; mret false
  end.
End code.

Definition sstart (c : nat) (op : sop) : option nat :=
  match op with
  | SUnlock => match c with O => None | S c => Some c end
  | _ => Some c
  end.
Definition sfinish (c : nat) (op : sop) (r : bool) : nat := if r then S c else c.

Definition sinit {E} `{EventOps E} (n : nat) : config (MState E) sop bool nat :=
  Config (mkM 0 ev_new) (replicate n (Thread 0%nat None)).

Section spec.
Context {E} `{EventLaws E}.
Local Abbreviation lis := (inr : bool * ptr -> mtok).
Local Abbreviation Inv := (mutex_inv (E:=E) TGuard TStarving lis no_extra).
Local Abbreviation get_word := (get_word (fun s : MState E => s)).
Local Abbreviation put_word := (put_word (fun s : MState E => s) (fun s _ => s)).
Local Abbreviation get_ops := (get_ops (fun s : MState E => s)).
Local Abbreviation put_ops := (put_ops (fun s : MState E => s) (fun s _ => s)).

Local Notation gk := ({[+ TGuard +]} : gmultiset mtok).
Local Notation lk p := ({[+ lis (false, p) +]} : gmultiset mtok).

Local Existing Instance Minv_sub.

Lemma sync_client : Sub get_ops put_ops (is_lis lis) (ev_tokens lis) Inv.
Proof. apply (mutex_client _ _ TGuard TStarving lis TG_lis TS_lis Inv no_extra Hno_extra). Qed.
Local Existing Instance sync_client.

(** The two outcomes of a compare-exchange that takes the lock. *)
Lemma ok_cas (a : Z) (m : gmultiset mtok) (Q : gmultiset mtok -> result Z Z -> Prop) :
  a = 0 \/ a = 2 ->
  Q (m ⊎ gk) (Ok a) -> (forall s, s <> a -> Q m (Err s)) ->
  ok Inv m (cas get_word put_word a (a + 1)) Q.
Proof.
  intros Ha HOk HErr. apply ok_bind.
  apply (ok_cas_lock _ _ TGuard TStarving lis TG_TS TG_lis TS_lis Inv no_extra Hno_extra); [lia|by destruct Ha; subst|].
  intros s. destruct (Z.eqb_spec s a) as [Es|Es]; [rewrite Es; exact HOk|by apply HErr].
Qed.

Lemma ok_sync_try_lock (m : gmultiset mtok) (Q : gmultiset mtok -> bool -> Prop) :
  (forall b : bool, Q (if b then m ⊎ gk else m) b) -> ok Inv m sync_try_lock Q.
Proof.
  intros HQ. apply ok_bind, (ok_cas 0); [auto|apply (HQ true)|]. intros s _. apply (HQ false).
Qed.

Lemma ok_spin (n : nat) (m : gmultiset mtok) (Q : gmultiset mtok -> bool -> Prop) :
  (forall b : bool, Q (if b then m ⊎ gk else m) b) -> ok Inv m (spin n) Q.
Proof.
  intros HQ. induction n as [|n IH]; [apply (HQ false)|].
  apply ok_bind, (ok_cas 0); [auto|apply (HQ true)|].
  intros s _. destruct s as [|[?|?|]|?]; try apply (HQ false). apply IH.
Qed.

Lemma ok_drop_after (p : ptr) (b : bool) (m : gmultiset mtok) (Q : gmultiset mtok -> bool -> Prop) :
  Q m b -> ok Inv (m ⊎ lk p) (drop_p get_ops put_ops p ;; mret b) Q.
Proof. intros HQ. apply ok_bind, (ok_drop_p get_ops put_ops lis Inv). exact HQ. Qed.

Lemma swap_lis (m : gmultiset mtok) p : (m ⊎ lk p) ⊎ gk = (m ⊎ gk) ⊎ lk p.
Proof. multiset_solver. Qed.

Lemma ok_wait_loop (fuel t : nat) (m : gmultiset mtok) (Q : gmultiset mtok -> bool -> Prop) :
  (forall b : bool, Q (if b then m ⊎ gk else m) b) -> ok Inv m (wait_loop fuel t) Q.
Proof.
  intros HQ. induction fuel as [|fuel IH]; [done|].
  apply ok_bind, (ok_listen_p get_ops put_ops lis Inv). intros p.
  apply ok_bind, (ok_cas 0); [auto| |].
  - rewrite swap_lis. apply ok_drop_after, (HQ true).
  - intros s _.
    assert (Hno : ok Inv (m ⊎ lk p) (drop_p get_ops put_ops p ;; mret false) Q)
      by apply ok_drop_after, (HQ false).
    destruct s as [|[?|?|]|?]; try exact Hno.
    apply ok_bind, (ok_wait_p get_ops put_ops lis Inv).
    apply ok_bind, (ok_cas 0); [auto|apply (HQ true)|]. intros s _.
    assert (Hn : ok Inv m (notify_p get_ops put_ops 1 ;; mret false) Q).
    { apply ok_bind, (ok_notify_p get_ops put_ops lis Inv); [done|apply (HQ false)]. }
    destruct s as [|[?|?|]|?]; try exact Hn.
    apply ok_bind, ok_pick. intros [|]; [apply (HQ false)|apply IH].
Qed.

Lemma ok_starving_loop (fuel t : nat) (m : gmultiset mtok) (Q : gmultiset mtok -> unit -> Prop) :
  Q (m ⊎ gk) () -> ok Inv m (starving_loop fuel t) Q.
Proof.
  intros HQ. induction fuel as [|fuel IH]; [done|].
  apply ok_bind, (ok_listen_p get_ops put_ops lis Inv). intros p.
  apply ok_bind, (ok_cas 2); [auto| |].
  - rewrite swap_lis. by apply (ok_drop_p get_ops put_ops lis Inv).
  - intros s _. apply ok_bind. destruct (s mod 2 =? 1);
      (apply ok_bind, (ok_wait_p get_ops put_ops lis Inv);
       apply ok_bind, (ok_fetch_or _ _ TGuard TStarving lis TG_TS TG_lis TS_lis Inv no_extra Hno_extra);
       intros s'; destruct (s' mod 2 =? 0); [exact HQ|apply IH]).
Qed.

Lemma ok_sync_lock (fuel t : nat) (m : gmultiset mtok) (Q : gmultiset mtok -> unit -> Prop) :
  Q (m ⊎ gk) () -> ok Inv m (sync_lock fuel t) Q.
Proof.
  intros HQ. apply ok_bind, ok_sync_try_lock. intros [|]; [exact HQ|].
  apply ok_bind, ok_spin. intros [|]; [exact HQ|].
  apply ok_bind, ok_wait_loop. intros [|]; [exact HQ|].
  apply ok_bind, (ok_add_starving _ _ TGuard TStarving lis TG_TS TG_lis TS_lis Inv no_extra Hno_extra).
  intros _. apply ok_bind, ok_starving_loop.
  replace (m ⊎ {[+ TStarving +]} ⊎ gk) with (m ⊎ gk ⊎ {[+ TStarving +]}) by multiset_solver.
  apply ok_bind, (ok_sub_starving _ _ TGuard TStarving lis TG_TS TG_lis TS_lis Inv no_extra Hno_extra). intros; exact HQ.
Qed.

Lemma sops_ok : ops_ok (scode (E:=E)) sstart sfinish Inv mtokens.
Proof.
  intros c op c' Hs. destruct op; simpl in Hs.
  - simplify_eq. exists ∅. split; [by rewrite (right_id_L ∅ (⊎))|].
    apply ok_sync_try_lock. intros [|]; simpl; [|by rewrite (right_id_L ∅ (⊎))].
    by rewrite mtokens_S, (left_id_L ∅ (⊎)).
  - simplify_eq. exists ∅. split; [by rewrite (right_id_L ∅ (⊎))|].
    apply ok_bind, ok_sync_lock. simpl. by rewrite mtokens_S, (left_id_L ∅ (⊎)).
  - destruct c; simplify_eq. exists {[+ TGuard +]}. split; [apply mtokens_S|].
    apply ok_bind. rewrite <- (left_id_L ∅ (⊎) {[+ TGuard +]}).
    apply (ok_unlock _ _ TGuard TStarving lis TG_TS TG_lis TS_lis Inv no_extra Hno_extra).
    simpl. by rewrite (right_id_L ∅ (⊎)).
Qed.
End spec.

(** C15: the blocking mutex under every interleaving of any number of threads
    that try, lock and unlock: no operation of the event is misused, and at
    most one guard exists. *)
Theorem sync_mutex_exclusion {E} `{EventLaws E} (n : nat) (c : config (MState E) sop bool nat) :
  reachable scode sstart sfinish (sinit n) c ->
  existsb thread_aborted (threads c) = false ->
  existsb thread_crashed (threads c) = false /\ (sum_list (owns <$> threads c) <= 1)%nat.
Proof.
  intros Hr Ha.
  destruct (pool_safe scode sstart sfinish (mutex_inv TGuard TStarving inr no_extra) mtokens n
    (mkM 0 ev_new) 0%nat c) as [Hc [fr (_ & _ & Hg)]]; try done.
  - apply sops_ok.
  - apply Minv_init.
  - split; [done|]. unfold guards in Hg. 
    assert (E1 : multiplicity TGuard (⋃+ ((fun t => mtokens (owns t)) <$> threads c))
                 = sum_list (owns <$> threads c)) by apply (owned_count mtokens TGuard id), mtokens_guards.
    rewrite multiplicity_disj_union, E1 in Hg. lia.
Qed.

(** * A lost wake-up

    Thread 0 holds the mutex; thread 1 blocks, is woken too late, finds the
    mutex locked again and starves after 500 microseconds; thread 2 sees the
    starving thread and starves at once; thread 0 unlocks while neither is
    listening; both then find the word even but not the value they expect
    (4, not 2) and block without notifying anybody. *)

Definition steps (i n : nat) (b : bool) : list (event sop) := replicate n (EStep i b).

Definition lost_wakeup : list (event sop) :=
  [EStart 0%nat STryLock] ++ steps 0 2 false ++
  [EStart 1%nat (SLock 2 1)] ++ steps 1 15 false ++
  [EStart 0%nat SUnlock] ++ steps 0 4 false ++
  [EStart 0%nat STryLock] ++ steps 0 2 false ++
  steps 1 4 true ++
  [EStart 2%nat (SLock 2 2)] ++ steps 2 7 false ++
  [EStart 0%nat SUnlock] ++ steps 0 3 false ++
  steps 1 4 false ++ steps 2 4 false.

Definition in_lock {E} (t : thread (MState E) sop bool nat) : bool :=
  match running t with Some (SLock _ _, _) => true | _ => false end.

(** No step of the thread is enabled, whatever it would choose. *)
Definition blocked {E} (σ : MState E) (t : thread (MState E) sop bool nat) : bool :=
  match thread_step sfinish false σ t, thread_step sfinish true σ t with
  | None, None => true | _, _ => false
  end.

Definition is_act {E} (t : thread (MState E) sop bool nat) : bool :=
  match running t with Some (_, Act _) => true | _ => false end.

(** C16: the blocking mutex can deadlock while it is free: an execution of three
    threads reaches a state where nobody holds a guard and the lock bit is
    clear, one thread is idle, and the two others are parked inside [lock]
    for ever. *)
Theorem sync_mutex_lost_wakeup :
  exists es c, run (scode (H:=Event.event_ops)) sstart sfinish es (sinit (H:=Event.event_ops) 3) = Some c /\
    word (shared c) mod 2 = 0 /\
    owns <$> threads c = [0%nat; 0%nat; 0%nat] /\
    in_lock <$> threads c = [false; true; true] /\
    is_act <$> threads c = [false; true; true] /\
    forallb (blocked (shared c)) (threads c) = true.
Proof.
  exists lost_wakeup, (after (scode (H:=Event.event_ops)) sstart sfinish lost_wakeup
    (sinit (H:=Event.event_ops) 3)).
  split; [apply after_run|]; by vm_compute.
Qed.

(** The same execution, stopped while thread 0 holds the lock and thread 1
    waits for it. *)
Lemma sync_mutex_exclusion_witness :
  exists c, reachable (scode (H:=Event.event_ops)) sstart sfinish (sinit (H:=Event.event_ops) 3) c /\
  owns <$> threads c = [1%nat; 0%nat; 0%nat] /\
  existsb thread_crashed (threads c) = false /\
  (sum_list (owns <$> threads c) <= 1)%nat.
Proof.
  exists (after (scode (H:=Event.event_ops)) sstart sfinish (take 19 lost_wakeup)
    (sinit (H:=Event.event_ops) 3)).
  match goal with |- reachable _ _ _ ?i ?c /\ _ =>
    assert (Hr : reachable (scode (H:=Event.event_ops)) sstart sfinish i c)
      by (apply after_reachable; vm_compute; reflexivity) end.
  split; [exact Hr|split; [vm_compute; reflexivity|]].
  apply (sync_mutex_exclusion (H0:=Event.event_laws) 3 _ Hr). vm_compute. reflexivity.
Defined.
