(* ===== verification/Semaphore.v ===== *)
(** [platform/lock/semaphore.rs]: the counting semaphore.

    [try_acquire] retries its weak compare-exchange (which may fail
    spuriously); [acquire] alternates between trying, listening and awaiting.
    Permits are conserved: the count and the guards always add up to the
    initial number. *)

From S2P Require Import Prelude Conc EventApi.
From S2P Require Event.

Record Sem (E : Type) := mkSem { count : Z; event_ : E }.
Arguments mkSem {E}.
Arguments count {E}.
Arguments event_ {E}.

Section code.
Context {E} `{EventOps E}.

Definition put_count (c : Z) (s : Sem E) : Sem E := mkSem c (event_ s).
Definition put_event (e : E) (s : Sem E) : Sem E := mkSem (count s) e.

(** The retry loop of [try_acquire] and [try_acquire_arc], from a value of
    [count] read before. *)
Fixpoint try_acquire_loop (fuel : nat) (c : Z) : prog (Sem E) bool :=
  match fuel with
  | O => OutOfFuel
  | S fuel =>
      if c =? 0 then mret false else
      spurious ← Pick Ret;
      if spurious : bool then
        c ← load count; try_acquire_loop fuel c
      else
        r ← cas count put_count c (c - 1);
        match r with
        | Ok _ => mret true
        | Err c => try_acquire_loop fuel c
        end
  end.

Definition try_acquire (fuel : nat) : prog (Sem E) bool :=
  c ← load count; try_acquire_loop fuel c.

(** [acquire] and [acquire_arc]; [false] when the future is dropped at its
    [await].  [listener] is the variable of the same name. *)
Fixpoint acquire_from (fuel : nat) (w : nat) (listener : option ptr) : prog (Sem E) bool :=
  match fuel with
  | O => OutOfFuel
  | S n =>
      b ← try_acquire n;
      if b : bool then
        match listener with
        | Some l => drop_p event_ put_event l ;; mret true
        | None => mret true
        end
      else
        match listener with
        | None => l ← listen_p event_ put_event; acquire_from n w (Some l)
        | Some l =>
            ok ← await_p event_ put_event l w;
            if ok : bool then acquire_from n w None else mret false
        end
  end.

Definition acquire (fuel : nat) (w : nat) : prog (Sem E) bool := acquire_from fuel w None.

(** [<SemaphoreGuard as Drop>::drop] and [SemaphoreGuardArc]. *)
Definition release : prog (Sem E) unit :=
  fetch_add count put_count 1 ;; notify_p event_ put_event 1.

(** The same over an [Arc] of the semaphore. *)
Definition try_acquire_arc (fuel : nat) : prog (Sem E) bool :=
  c ← load count; try_acquire_loop fuel c.
Definition acquire_arc (fuel : nat) (w : nat) : prog (Sem E) bool := acquire_from fuel w None.
Definition release_arc : prog (Sem E) unit :=
  fetch_add count put_count 1 ;; notify_p event_ put_event 1.

Inductive semop :=
| STryAcquire (fuel : nat) | STryAcquireArc (fuel : nat)
| SAcquire (fuel w : nat) | SAcquireArc (fuel w : nat)
| SRelease | SReleaseArc.

Definition semcode (op : semop) : prog (Sem E) bool :=
  match op with
  | STryAcquire fuel => try_acquire fuel
  | STryAcquireArc fuel => try_acquire_arc fuel
  | SAcquire fuel w => acquire fuel w
  | SAcquireArc fuel w => acquire_arc fuel w
  | SRelease => release ;; mret false
  | SReleaseArc => release_arc ;; mret false
  end.
End code.

Definition semstart (c : nat) (op : semop) : option nat :=
  match op with
  | SRelease | SReleaseArc => match c with O => None | S c => Some c end
  | _ => Some c
  end.
Definition semfinish (c : nat) (op : semop) (r : bool) : nat := if r then S c else c.

(** [Semaphore::new(n)] shared by [k] tasks. *)
Definition seminit {E} `{EventOps E} (n : Z) (k : nat) : config (Sem E) semop bool nat :=
  Config (mkSem n ev_new) (replicate k (Thread 0%nat None)).

(** * Permits are conserved *)

Section spec.
Context {E} `{EventLaws E} (n : Z) (Hn : 0 <= n <= usize_MAX).

(** Tokens: permits and listeners. *)
Definition semtok : Type := unit + (bool * ptr).
Definition Permit : semtok := inl tt.
Local Abbreviation lis := (inr : bool * ptr -> semtok).
Local Notation pk := ({[+ Permit +]} : gmultiset semtok).

Lemma lis_permit x : lis x <> Permit. Proof. discriminate. Qed.

Definition permits_inv (s : Sem E) (m : gmultiset semtok) : Prop :=
  0 <= count s /\ count s + Z.of_nat (multiplicity Permit m) = n.

Definition sem_inv (s : Sem E) (m : gmultiset semtok) : Prop :=
  ev_tokens lis (event_ s) m /\ permits_inv s m.

Lemma sem_client : Sub event_ put_event (is_lis lis) (ev_tokens lis) sem_inv.
Proof.
  refine {| rest := permits_inv |}; try done.
  intros s m m' Ho. unfold permits_inv. rewrite (Ho Permit); [done|]. by intros [x ?].
Qed.
Local Existing Instance sem_client.

Lemma permit_event s s' m m' :
  event_ s' = event_ s -> (forall x, multiplicity (lis x) m' = multiplicity (lis x) m) ->
  sem_inv s m -> permits_inv s' m' -> sem_inv s' m'.
Proof.
  intros He Hm [(L & HL & Hx) _] Hp. split; [|done]. rewrite He. exists L.
  split; [done|]. intros x. by rewrite Hm.
Qed.

Lemma ok_count_take (c : Z) (m : gmultiset semtok) (Q : gmultiset semtok -> result Z Z -> Prop) :
  c <> 0 -> Q (m ⊎ pk) (Ok c) -> (forall s, Q m (Err s)) ->
  ok sem_inv m (cas count put_count c (c - 1)) Q.
Proof.
  intros Hc HOk HErr. apply ok_bind, ok_atomic. intros s fr Hs. simpl.
  destruct (Z.eqb_spec (count s) c) as [E1|]; [|exists m; split; [by destruct s|apply HErr]].
  exists (m ⊎ pk). rewrite E1. split; [|exact HOk].
  eapply (permit_event s _ (m ⊎ fr)); [done| |done|].
  - intros x. rewrite !multiplicity_disj_union, (multiplicity_singleton_ne _ _ (lis_permit x)). lia.
  - destruct Hs as [_ [H1 H2]]. unfold permits_inv. simpl.
    rewrite !multiplicity_disj_union, multiplicity_singleton_eq in *. lia.
Qed.

Lemma ok_try_acquire_loop (fuel : nat) : forall (c : Z) (m : gmultiset semtok) (Q : gmultiset semtok -> bool -> Prop),
  (forall b : bool, Q (if b then m ⊎ pk else m) b) ->
  ok sem_inv m (try_acquire_loop fuel c) Q.
Proof.
  induction fuel as [|fuel IH]; intros c m Q HQ; [done|].
  cbn [try_acquire_loop]. destruct (Z.eqb_spec c 0); [apply (HQ false)|].
  apply ok_bind, ok_pick. intros [|].
  - apply ok_bind, ok_read. intros s fr _. by apply IH.
  - apply ok_bind, ok_count_take; [done|apply (HQ true)|]. intros s. by apply IH.
Qed.

Lemma ok_try_acquire (fuel : nat) (m : gmultiset semtok) (Q : gmultiset semtok -> bool -> Prop) :
  (forall b : bool, Q (if b then m ⊎ pk else m) b) -> ok sem_inv m (try_acquire fuel) Q.
Proof. intros HQ. apply ok_bind, ok_read. intros s fr _. by apply ok_try_acquire_loop. Qed.

Definition lis_tokens (l : option ptr) : gmultiset semtok :=
  match l with Some p => {[+ lis (false, p) +]} | None => ∅ end.

Lemma ok_acquire_from (fuel w : nat) : forall (l : option ptr) (m : gmultiset semtok)
    (Q : gmultiset semtok -> bool -> Prop),
  (forall b : bool, Q (if b then m ⊎ pk else m) b) ->
  ok sem_inv (m ⊎ lis_tokens l) (acquire_from fuel w l) Q.
Proof.
  induction fuel as [|fuel IH]; intros l m Q HQ; [done|].
  cbn [acquire_from]. apply ok_bind, ok_try_acquire. intros [|]; destruct l as [p|]; cbn [lis_tokens].
  - replace (m ⊎ {[+ lis (false, p) +]} ⊎ pk) with (m ⊎ pk ⊎ {[+ lis (false, p) +]})
      by multiset_solver.
    apply ok_bind, (ok_drop_p event_ put_event lis sem_inv), (HQ true).
  - rewrite (right_id_L ∅ (⊎)). apply (HQ true).
  - apply ok_bind, (ok_await_p event_ put_event lis sem_inv).
    intros [|]; [|apply (HQ false)].
    rewrite <- (right_id_L ∅ (⊎) m). by apply (IH None).
  - apply ok_bind, (ok_listen_p event_ put_event lis sem_inv). intros p.
    rewrite (right_id_L ∅ (⊎)). by apply (IH (Some p)).
Qed.

Lemma ok_release (m : gmultiset semtok) (Q : gmultiset semtok -> unit -> Prop) :
  Q m () -> ok sem_inv (m ⊎ pk) release Q.
Proof.
  intros HQ. apply ok_bind, ok_atomic. intros s fr Hs. exists m. split.
  - eapply (permit_event s _ (m ⊎ pk ⊎ fr)); [done| |done|].
    + intros x. rewrite !multiplicity_disj_union, (multiplicity_singleton_ne _ _ (lis_permit x)). lia.
    + destruct Hs as [_ [H1 H2]]. unfold permits_inv. simpl.
      rewrite !multiplicity_disj_union, multiplicity_singleton_eq in *.
      unfold wrapping_add. rewrite wrap_small; [lia|]. unfold usize_MAX in Hn. lia.
  - by apply (ok_notify_p event_ put_event lis sem_inv).
Qed.

Definition semtokens (c : nat) : gmultiset semtok := c *: {[+ Permit +]}.

Lemma semtokens_S c : semtokens (S c) = semtokens c ⊎ pk.
Proof. unfold semtokens. rewrite gmultiset_scalar_mul_S_r. reflexivity. Qed.

Lemma semops_ok : ops_ok (semcode (E:=E)) semstart semfinish sem_inv semtokens.
Proof.
  intros c op c' Hs. destruct op as [fuel|fuel|fuel w|fuel w| |]; simpl in Hs.
  1-2: simplify_eq; exists ∅; split; [by rewrite (right_id_L ∅ (⊎))|];
    apply ok_try_acquire; intros [|]; simpl; [|by rewrite (right_id_L ∅ (⊎))];
    by rewrite semtokens_S, (left_id_L ∅ (⊎)).
  1-2: simplify_eq; exists ∅; split; [by rewrite (right_id_L ∅ (⊎))|];
    rewrite <- (right_id_L ∅ (⊎) ∅); apply (ok_acquire_from fuel w None);
    intros [|]; simpl; [|by rewrite (right_id_L ∅ (⊎))];
    by rewrite semtokens_S, (left_id_L ∅ (⊎)).
  1-2: destruct c; simplify_eq; exists pk; split; [apply semtokens_S|];
    apply ok_bind; rewrite <- (left_id_L ∅ (⊎) pk); apply ok_release;
    simpl; by rewrite (right_id_L ∅ (⊎)).
Qed.

Lemma sem_inv_init : sem_inv (mkSem n ev_new) ∅.
Proof.
  split.
  - exists ∅. split; [apply ev_inv_new|].
    intros x. rewrite multiplicity_empty. by rewrite decide_False by set_solver.
  - unfold permits_inv. simpl. rewrite multiplicity_empty. lia.
Qed.

Lemma semtokens_permits c : multiplicity Permit (semtokens c) = c.
Proof. unfold semtokens. rewrite multiplicity_scalar_mul, multiplicity_singleton_eq. lia. Qed.
End spec.

(** C19: in every interleaving of tasks that acquire (with retries, spurious
    failures, awaits and dropped futures) and drop guards of a semaphore
    created with [n] permits, the guards and the count together never exceed
    [n] and the count never leaves [0..n]; whenever no operation is under
    way they add up to [n] exactly, so no permit is ever lost. *)
Theorem semaphore_permits {E} `{EventLaws E} (n : Z) (k : nat)
    (c : config (Sem E) semop bool nat) :
  0 <= n <= usize_MAX ->
  reachable semcode semstart semfinish (seminit n k) c ->
  existsb thread_aborted (threads c) = false ->
  existsb thread_crashed (threads c) = false /\
  0 <= count (shared c) /\
  count (shared c) + Z.of_nat (sum_list (owns <$> threads c)) <= n /\
  (Forall (fun t => running t = None) (threads c) ->
   count (shared c) + Z.of_nat (sum_list (owns <$> threads c)) = n).
Proof.
  intros Hn [es Hr] Ha.
  assert (Hinv : pool_inv semfinish (sem_inv n) semtokens c).
  { eapply run_inv; [by apply semops_ok| |exact Hr].
    by apply fresh_pool_inv; [|apply sem_inv_init]. }
  split; [by eapply pool_inv_no_crash|].
  destruct (pool_inv_elim _ _ _ c Hinv Ha) as (ms & HF & _ & Hc0 & Hc).
  assert (Hsum : multiplicity Permit (⋃+ ((fun t => semtokens (owns t)) <$> threads c))
                 = sum_list (owns <$> threads c)).
  { apply (owned_count semtokens Permit id), semtokens_permits. }
  split_and!; [done| |].
  - pose proof HF as Hsub. apply (owned_tokens semcode) in Hsub.
    specialize (Hsub Permit). rewrite Hsum in Hsub. lia.
  - intros Hidle. rewrite <- Hsum, <- Hc. do 3 f_equal.
    symmetry. by apply (idle_tokens semfinish (sem_inv n)).
Qed.

(** One permit, two tasks: the second blocks, the first releases, the second
    acquires. *)
Definition sem_run : list (event semop) :=
  [EStart 0%nat (STryAcquire 3); EStep 0 false; EStep 0 false; EStep 0 false; EStep 0 false;
   EStart 1%nat (SAcquire 9 7)] ++ replicate 5 (EStep 1%nat false) ++
  [EStart 0%nat SRelease] ++ replicate 4 (EStep 0%nat false) ++ replicate 6 (EStep 1%nat false).

Definition sem_final : config (Sem Event.Inner) semop bool nat :=
  after (semcode (H:=Event.event_ops)) semstart semfinish sem_run (seminit (H:=Event.event_ops) 1 2).

Lemma semaphore_permits_witness :
  0 <= 1 <= usize_MAX /\
  reachable (semcode (H:=Event.event_ops)) semstart semfinish (seminit (H:=Event.event_ops) 1 2) sem_final /\
  (owns <$> threads sem_final = [0%nat; 1%nat]) /\
  existsb thread_crashed (threads sem_final) = false /\
  0 <= count (shared sem_final) /\
  count (shared sem_final) + Z.of_nat (sum_list (owns <$> threads sem_final)) <= 1 /\
  (Forall (fun t => running t = None) (threads sem_final) ->
   count (shared sem_final) + Z.of_nat (sum_list (owns <$> threads sem_final)) = 1).
Proof.
  assert (Hn : 0 <= 1 <= usize_MAX) by (split; vm_compute; discriminate).
  assert (Hr : reachable (semcode (H:=Event.event_ops)) semstart semfinish
                 (seminit (H:=Event.event_ops) 1 2) sem_final)
    by (apply after_reachable; vm_compute; reflexivity).
  split; [exact Hn|split; [exact Hr|split; [vm_compute; reflexivity|]]].
  apply (semaphore_permits (H0:=Event.event_laws) 1 2 _ Hn Hr). vm_compute. reflexivity.
Defined.
