(* ===== verification/RwLock.v ===== *)
(** [platform/lock/rwlock.rs]: the asynchronous reader-writer lock.

    Bit 0 of the state word is the writer bit, the rest counts readers; an
    inner mutex serialises writers and upgradable readers.  The inner mutex
    is the code of [AsyncMutex], run on its part of the state. *)

From S2P Require Import Prelude Conc EventApi AsyncMutex.
From S2P Require Event.

Definition WRITER_BIT : Z := 1.
Definition ONE_READER : Z := 2.

Record RW (E : Type) := mkRW {
  rmutex : MState E; no_readers : E; no_writer : E; rstate : Z }.
Arguments mkRW {E}.
Arguments rmutex {E}.
Arguments no_readers {E}.
Arguments no_writer {E}.
Arguments rstate {E}.

Section code.
Context {E} `{EventOps E}.

Definition put_mutex (x : MState E) (s : RW E) := mkRW x (no_readers s) (no_writer s) (rstate s).
Definition put_readers (e : E) (s : RW E) := mkRW (rmutex s) e (no_writer s) (rstate s).
Definition put_writer (e : E) (s : RW E) := mkRW (rmutex s) (no_readers s) e (rstate s).
Definition put_state (z : Z) (s : RW E) := mkRW (rmutex s) (no_readers s) (no_writer s) z.

Local Abbreviation load_state := (load (@rstate E)).
Local Abbreviation cas_state := (cas (@rstate E) put_state).
Local Abbreviation mutex_try_lock := (try_lock (@rmutex E) put_mutex).
Local Abbreviation mutex_lock := (lock (@rmutex E) put_mutex).
Local Abbreviation mutex_unlock := (unlock (@rmutex E) put_mutex).

Fixpoint try_read_loop (fuel : nat) (s : Z) : prog (RW E) bool :=
  match fuel with
  | O => OutOfFuel
  | S fuel =>
      if negb (Z.land s WRITER_BIT =? 0) then mret false
      else if isize_MAX <? s then ProcAbort
      else r ← cas_state s (s + ONE_READER);
           match r with Ok _ => mret true | Err s => try_read_loop fuel s end
  end.

Definition try_read (fuel : nat) : prog (RW E) bool :=
  s ← load_state; try_read_loop fuel s.

(** [false] when the future was dropped at its [await]. *)
Fixpoint read_loop (fuel : nat) (w : nat) (s : Z) : prog (RW E) bool :=
  match fuel with
  | O => OutOfFuel
  | S fuel =>
      if Z.land s WRITER_BIT =? 0 then
        if isize_MAX <? s then ProcAbort
        else r ← cas_state s (s + ONE_READER);
             match r with Ok _ => mret true | Err s => read_loop fuel w s end
      else
        p ← listen_p no_writer put_writer;
        s ← load_state;
        if negb (Z.land s WRITER_BIT =? 0) then
          ok ← await_p no_writer put_writer p w;
          if negb ok then mret false else
          notify_p no_writer put_writer 1 ;;
          s ← load_state; read_loop fuel w s
        else
          s ← load_state;
          drop_p no_writer put_writer p ;;
          read_loop fuel w s
  end.

Definition read (fuel : nat) (w : nat) : prog (RW E) bool :=
  s ← load_state; read_loop fuel w s.

(** The compare-exchange loop of the two upgradable reads. *)
Fixpoint add_reader_loop (fuel : nat) (s : Z) : prog (RW E) unit :=
  match fuel with
  | O => OutOfFuel
  | S fuel =>
      r ← cas_state s (s + ONE_READER);
      match r with Ok _ => mret () | Err s => add_reader_loop fuel s end
  end.

Definition add_reader (fuel : nat) : prog (RW E) unit :=
  s ← load_state;
  if isize_MAX <? s then ProcAbort else add_reader_loop fuel s.

Definition try_upgradable_read (fuel : nat) : prog (RW E) bool :=
  b ← mutex_try_lock;
  if b : bool then add_reader fuel ;; mret true else mret false.

Definition upgradable_read (fuel : nat) (w : nat) : prog (RW E) bool :=
  b ← mutex_lock fuel w;
  if b : bool then add_reader fuel ;; mret true else mret false.

Definition try_write : prog (RW E) bool :=
  b ← mutex_try_lock;
  if b : bool then
    r ← cas_state 0 WRITER_BIT;
    match r with
    | Ok _ => mret true
    | Err _ => mutex_unlock ;; mret false
    end
  else mret false.

(** [<RwLockWriteGuard as Drop>]: the fields in order. *)
Definition drop_write : prog (RW E) unit :=
  fetch_and rstate put_state (wnot WRITER_BIT) ;;
  notify_p no_writer put_writer 1 ;;
  mutex_unlock.

(** The loop of [write] and [upgrade]; when the future is dropped at its
    [await], so is the guard it holds. *)
Fixpoint drain_readers (fuel : nat) (w : nat) : prog (RW E) bool :=
  match fuel with
  | O => OutOfFuel
  | S fuel =>
      s ← load_state;
      if s =? WRITER_BIT then mret true else
      p ← listen_p no_readers put_readers;
      s ← load_state;
      if s =? WRITER_BIT then drop_p no_readers put_readers p ;; drain_readers fuel w
      else
        ok ← await_p no_readers put_readers p w;
        if ok : bool then drain_readers fuel w else drop_write ;; mret false
  end.

Definition write (fuel : nat) (w : nat) : prog (RW E) bool :=
  b ← mutex_lock fuel w;
  if b : bool then
    fetch_or rstate put_state WRITER_BIT ;;
    drain_readers fuel w
  else mret false.

(** [<RwLockReadGuard as Drop>::drop]. *)
Definition drop_read : prog (RW E) unit :=
  s ← fetch_sub rstate put_state ONE_READER;
  if Z.land s (wnot WRITER_BIT) =? ONE_READER then notify_p no_readers put_readers 1
  else mret ().

(** The fields of [RwLockUpgradableReadGuard], in order. *)
Definition drop_upgradable : prog (RW E) unit := drop_read ;; mutex_unlock.

(** [RwLockUpgradableReadGuard::downgrade] keeps the reader. *)
Definition downgrade_upgradable : prog (RW E) unit := mutex_unlock.

Definition try_upgrade : prog (RW E) bool :=
  r ← cas_state ONE_READER WRITER_BIT;
  mret (match r with Ok _ => true | Err _ => false end).

Definition upgrade (fuel : nat) (w : nat) : prog (RW E) bool :=
  fetch_sub rstate put_state (ONE_READER - WRITER_BIT) ;;
  drain_readers fuel w.

(** [RwLockWriteGuard::downgrade]: the reserved mutex guard is dropped last. *)
Definition downgrade : prog (RW E) unit :=
  fetch_add rstate put_state (ONE_READER - WRITER_BIT) ;;
  notify_p no_writer put_writer 1 ;;
  mutex_unlock.

Definition downgrade_to_upgradable : prog (RW E) unit :=
  fetch_add rstate put_state (ONE_READER - WRITER_BIT) ;; mret ().

(** * The operations of a pool of tasks *)

Inductive rwop :=
| OTryRead (fuel : nat) | ORead (fuel w : nat) | ODropRead
| OTryUpg (fuel : nat) | OUpg (fuel w : nat) | ODropUpg | ODowngradeUpg
| OTryUpgrade | OUpgrade (fuel w : nat)
| OTryWrite | OWrite (fuel w : nat) | ODropWrite | ODowngrade | ODowngradeToUpg.

(** The guard an operation returns. *)
Inductive got := GNone | GRead | GUpg | GWrite.

Definition gives (g g' : got) (p : prog (RW E) bool) : prog (RW E) got :=
  b ← p; mret (if b : bool then g else g').

Definition rwcode (op : rwop) : prog (RW E) got :=
  match op with
  | OTryRead f => gives GRead GNone (try_read f)
  | ORead f w => gives GRead GNone (read f w)
  | ODropRead => drop_read ;; mret GNone
  | OTryUpg f => gives GUpg GNone (try_upgradable_read f)
  | OUpg f w => gives GUpg GNone (upgradable_read f w)
  | ODropUpg => drop_upgradable ;; mret GNone
  | ODowngradeUpg => downgrade_upgradable ;; mret GRead
  | OTryUpgrade => gives GWrite GUpg try_upgrade
  | OUpgrade f w => gives GWrite GNone (upgrade f w)
  | OTryWrite => gives GWrite GNone try_write
  | OWrite f w => gives GWrite GNone (write f w)
  | ODropWrite => drop_write ;; mret GNone
  | ODowngrade => downgrade ;; mret GRead
  | ODowngradeToUpg => downgrade_to_upgradable ;; mret GUpg
  end.
End code.

(** The guards a task owns: readers, upgradable readers, writers. *)
Record held := Held { hr : nat; hu : nat; hw : nat }.

Definition rwstart (c : held) (op : rwop) : option held :=
  match op with
  | ODropRead => match hr c with O => None | S n => Some (Held n (hu c) (hw c)) end
  | ODropUpg | ODowngradeUpg | OTryUpgrade | OUpgrade _ _ =>
      match hu c with O => None | S n => Some (Held (hr c) n (hw c)) end
  | ODropWrite | ODowngrade | ODowngradeToUpg =>
      match hw c with O => None | S n => Some (Held (hr c) (hu c) n) end
  | _ => Some c
  end.

Definition rwfinish (c : held) (op : rwop) (g : got) : held :=
  match g with
  | GNone => c
  | GRead => Held (S (hr c)) (hu c) (hw c)
  | GUpg => Held (hr c) (S (hu c)) (hw c)
  | GWrite => Held (hr c) (hu c) (S (hw c))
  end.

Definition rwinit {E} `{EventOps E} (n : nat) : config (RW E) rwop got held :=
  Config (mkRW (mkM 0 ev_new) ev_new ev_new 0) (replicate n (Thread (Held 0 0 0) None)).

(** * Tokens and the invariant

    A reader; the mutex guard of an upgradable read that has checked the
    count and not yet added itself; the mutex guard of a writer that has set
    the writer bit but may still wait for readers; and of one that knows
    there are none. *)

Inductive own := OReader | OChecked | OPending | OExclusive.
#[export] Instance own_eq_dec : EqDecision own.
Proof. solve_decision. Defined.
#[export] Instance own_countable : Countable own.
Proof.
  refine (inj_countable'
    (fun o => match o with OReader => 0 | OChecked => 1 | OPending => 2 | OExclusive => 3 end%nat)
    (fun n => match n with 0 => OReader | 1 => OChecked | 2 => OPending | _ => OExclusive end%nat) _).
  by intros [].
Defined.

Definition rwtok : Type := (mtok + own) + (bool * (bool * ptr)).
Definition KM (t : mtok) : rwtok := inl (inl t).
Definition KO (o : own) : rwtok := inl (inr o).
Definition KL (b : bool) (x : bool * ptr) : rwtok := inr (b, x).
Definition KG : rwtok := KM TGuard.
Definition KS : rwtok := KM TStarving.
Definition KML (x : bool * ptr) : rwtok := KM (inr x).

#[export] Instance KML_inj : Inj (=) (=) KML.
Proof. by intros x y [= ->]. Qed.
#[export] Instance KL_inj b : Inj (=) (=) (KL b).
Proof. by intros x y [= ->]. Qed.

(** How many of the four, and of the mutex's own guards. *)
Definition nO (o : own) (m : gmultiset rwtok) : nat := multiplicity (KO o) m.
Definition rw_extra (m : gmultiset rwtok) : nat :=
  (nO OChecked m + nO OPending m + nO OExclusive m)%nat.
Definition nG (m : gmultiset rwtok) : nat := multiplicity KG m.

Section spec.
Context {E} `{EventLaws E}.

Lemma KG_KS : KG <> KS. Proof. discriminate. Qed.
Lemma KG_KML x : KG <> KML x. Proof. discriminate. Qed.
Lemma KS_KML x : KS <> KML x. Proof. discriminate. Qed.

Lemma rw_extra_off (m m' : gmultiset rwtok) :
  agree_off (mutex_token KG KS KML) m m' -> rw_extra m = rw_extra m'.
Proof.
  intros Ho. unfold rw_extra, nO.
  rewrite !Ho; [done|..]; intros [?|[?|[x ?]]]; discriminate.
Qed.

(** The state word: exactly the readers and the writer bit, far from
    overflow; a writer that saw no reader is right. *)
Definition core (s : Z) (m : gmultiset rwtok) : Prop :=
  s = 2 * Z.of_nat (nO OReader m) + Z.of_nat (nO OPending m) + Z.of_nat (nO OExclusive m) /\
  Z.of_nat (nO OReader m) <= 2 ^ 62 + 1 /\
  ((0 < nO OChecked m)%nat -> Z.of_nat (nO OReader m) <= 2 ^ 62) /\
  ((0 < nO OExclusive m)%nat -> nO OReader m = 0%nat).

Definition rw_inv (s : RW E) (m : gmultiset rwtok) : Prop :=
  mutex_inv KG KS KML rw_extra (rmutex s) m /\
  ev_tokens (KL false) (no_readers s) m /\
  ev_tokens (KL true) (no_writer s) m /\
  core (rstate s) m.

Lemma ev_tokens_ext {K} `{Countable K} (lis : bool * ptr -> K) (e : E) m m' :
  (forall x, multiplicity (lis x) m = multiplicity (lis x) m') ->
  ev_tokens lis e m -> ev_tokens lis e m'.
Proof. intros Hm (L & HL & Hx). exists L. split; [done|]. intros x. by rewrite <- Hm. Qed.

Lemma core_ext s m m' : (forall o, nO o m = nO o m') -> core s m -> core s m'.
Proof. intros Ho. unfold core. by rewrite !Ho. Qed.

Lemma mutex_inv_ext (s : MState E) (m m' : gmultiset rwtok) :
  (forall x, multiplicity (KML x) m = multiplicity (KML x) m') ->
  multiplicity KS m = multiplicity KS m' ->
  (nG m + rw_extra m = nG m' + rw_extra m')%nat ->
  mutex_inv KG KS KML rw_extra s m -> mutex_inv KG KS KML rw_extra s m'.
Proof.
  unfold mutex_inv, guards, nG. intros Hl Hs Hg (He & Hw & Hle).
  rewrite <- Hs, <- Hg. split_and!; [by eapply ev_tokens_ext|done|done].
Qed.

#[local] Instance rw_mutex :
  Sub rmutex put_mutex (mutex_token KG KS KML) (mutex_inv KG KS KML rw_extra) rw_inv.
Proof.
  refine {| rest s m := ev_tokens (KL false) (no_readers s) m /\
    ev_tokens (KL true) (no_writer s) m /\ core (rstate s) m |}; try done.
  intros s m m' Ho (H1 & H2 & H3).
  split_and!; [apply (ev_tokens_ext _ _ m)|apply (ev_tokens_ext _ _ m)|apply (core_ext _ m)]; try done;
    intros; apply Ho; intros [?|[?|[? ?]]]; discriminate.
Qed.

#[local] Instance rw_no_readers :
  Sub no_readers put_readers (is_lis (KL false)) (ev_tokens (KL false)) rw_inv.
Proof.
  refine {| rest s m := mutex_inv KG KS KML rw_extra (rmutex s) m /\
    ev_tokens (KL true) (no_writer s) m /\ core (rstate s) m |}.
  - intros s m. unfold rw_inv. tauto.
  - done.
  - intros s m m' Ho (H1 & H2 & H3).
    assert (forall k, (forall x, k <> KL false x) -> multiplicity k m = multiplicity k m') as Ho'
      by (intros k Hk; apply Ho; intros [x Hx]; by apply (Hk x)).
    split_and!; [apply (mutex_inv_ext _ m)|apply (ev_tokens_ext _ _ m)|apply (core_ext _ m)]; try done.
    + intros; apply Ho'; discriminate.
    + apply Ho'; discriminate.
    + unfold nG, rw_extra, nO. by rewrite !Ho' by discriminate.
    + intros; apply Ho'; discriminate.
    + intros; apply Ho'; discriminate.
  - done.
Qed.

#[local] Instance rw_no_writer :
  Sub no_writer put_writer (is_lis (KL true)) (ev_tokens (KL true)) rw_inv.
Proof.
  refine {| rest s m := mutex_inv KG KS KML rw_extra (rmutex s) m /\
    ev_tokens (KL false) (no_readers s) m /\ core (rstate s) m |}.
  - intros s m. unfold rw_inv. tauto.
  - done.
  - intros s m m' Ho (H1 & H2 & H3).
    assert (forall k, (forall x, k <> KL true x) -> multiplicity k m = multiplicity k m') as Ho'
      by (intros k Hk; apply Ho; intros [x Hx]; by apply (Hk x)).
    split_and!; [apply (mutex_inv_ext _ m)|apply (ev_tokens_ext _ _ m)|apply (core_ext _ m)]; try done.
    + intros; apply Ho'; discriminate.
    + apply Ho'; discriminate.
    + unfold nG, rw_extra, nO. by rewrite !Ho' by discriminate.
    + intros; apply Ho'; discriminate.
    + intros; apply Ho'; discriminate.
  - done.
Qed.

(** ** Accesses to the state word *)

Definition same_others (m m' : gmultiset rwtok) : Prop :=
  forall k, k <> KG -> (forall o, k <> KO o) -> multiplicity k m = multiplicity k m'.

Definition one_guard (m : gmultiset rwtok) : Prop := (nG m + rw_extra m <= 1)%nat.

Lemma rw_inv_state σ s m m' fr :
  rw_inv σ (m ⊎ fr) -> core s (m' ⊎ fr) -> same_others m m' ->
  (nG m + rw_extra m = nG m' + rw_extra m')%nat ->
  rw_inv (put_state s σ) (m' ⊎ fr).
Proof.
  intros (H1 & H2 & H3 & _) Hc Hs Hg.
  assert (Ho : forall k, k <> KG -> (forall o, k <> KO o) ->
    multiplicity k (m ⊎ fr) = multiplicity k (m' ⊎ fr)).
  { intros k Hk Hk'. by rewrite !multiplicity_disj_union, (Hs k). }
  split_and!; [apply (mutex_inv_ext _ (m ⊎ fr))|apply (ev_tokens_ext _ _ (m ⊎ fr))
              |apply (ev_tokens_ext _ _ (m ⊎ fr))|]; try done.
  - intros. by apply Ho.
  - by apply Ho.
  - unfold nG, rw_extra, nO in *. rewrite !multiplicity_disj_union. lia.
  - intros. by apply Ho.
  - intros. by apply Ho.
Qed.

Lemma rw_inv_guard σ m : rw_inv σ m -> core (rstate σ) m /\ one_guard m.
Proof. intros ((_ & _ & Hg) & _ & _ & Hc). done. Qed.

Lemma ok_rstate {A} (f : Z -> A * Z) (m : gmultiset rwtok) (Q : gmultiset rwtok -> A -> Prop) :
  (forall s fr, core s (m ⊎ fr) -> one_guard (m ⊎ fr) -> exists m',
     core (f s).2 (m' ⊎ fr) /\ (nG m + rw_extra m = nG m' + rw_extra m')%nat /\
     same_others m m' /\ Q m' (f s).1) ->
  ok rw_inv m (atomic (fun σ => ((f (rstate σ)).1, put_state (f (rstate σ)).2 σ))) Q.
Proof.
  intros Hf. apply ok_atomic. intros σ fr HI.
  destruct (rw_inv_guard _ _ HI) as [Hc Hg].
  destruct (Hf _ fr Hc Hg) as (m' & Hc' & Hg' & Hs & HQ).
  exists m'. split; [|done]. by eapply rw_inv_state.
Qed.

Lemma ok_rload (m : gmultiset rwtok) (Q : gmultiset rwtok -> Z -> Prop) :
  (forall s fr, core s (m ⊎ fr) -> one_guard (m ⊎ fr) -> exists m',
     core s (m' ⊎ fr) /\ (nG m + rw_extra m = nG m' + rw_extra m')%nat /\
     same_others m m' /\ Q m' s) ->
  ok rw_inv m (load rstate) Q.
Proof.
  intros Hf. apply ok_atomic. intros σ fr HI.
  destruct (rw_inv_guard _ _ HI) as [Hc Hg].
  destruct (Hf _ fr Hc Hg) as (m' & Hc' & Hg' & Hs & HQ).
  exists m'. split; [|done]. replace (snd (rstate σ, σ)) with (put_state (rstate σ) σ)
    by by destruct σ.
  by eapply rw_inv_state.
Qed.

Local Notation tR := ({[+ KO OReader +]} : gmultiset rwtok).
Local Notation tC := ({[+ KO OChecked +]} : gmultiset rwtok).
Local Notation tP := ({[+ KO OPending +]} : gmultiset rwtok).
Local Notation tX := ({[+ KO OExclusive +]} : gmultiset rwtok).
Local Notation tG := ({[+ KG +]} : gmultiset rwtok).

Ltac count :=
  unfold core, one_guard, rw_extra, nG, nO in *;
  rewrite ?multiplicity_disj_union in *;
  rewrite ?multiplicity_singleton_eq in *;
  rewrite ?multiplicity_singleton_ne in * by discriminate.

Ltac others :=
  intros ? ? ?; rewrite ?multiplicity_disj_union, ?multiplicity_singleton_ne by auto; lia.


(** Reading an even word and adding a reader to it. *)
Lemma ok_add_read (s : Z) (m : gmultiset rwtok) (Q : gmultiset rwtok -> result Z Z -> Prop) :
  s <= isize_MAX -> s mod 2 = 0 -> Q (m ⊎ tR) (Ok s) -> (forall s', Q m (Err s')) ->
  ok rw_inv m (cas rstate put_state s (s + ONE_READER)) Q.
Proof.
  intros Hs He HOk HErr.
  apply ok_bind, (ok_rstate (fun v => (v, if v =? s then s + ONE_READER else v))).
  intros v fr Hc Hg. simpl. destruct (Z.eqb_spec v s) as [->|].
  - exists (m ⊎ tR). split_and!; [|by count; lia|others|exact HOk].
    pose proof (Z.div_mod s 2 ltac:(lia)). unfold isize_MAX, ONE_READER in *. count.
    split_and!; lia.
  - exists m. split_and!; [done|done|done|apply HErr].
Qed.

Lemma ok_check (m : gmultiset rwtok) (Q : gmultiset rwtok -> Z -> Prop) :
  (forall s, s <= isize_MAX -> Q (m ⊎ tC) s) -> (forall s, isize_MAX < s -> Q (m ⊎ tG) s) ->
  ok rw_inv (m ⊎ tG) (load rstate) Q.
Proof.
  intros Hle Hgt. apply ok_rload. intros s fr Hc Hg.
  destruct (Z.leb_spec s isize_MAX).
  - exists (m ⊎ tC). split_and!; [|by count; lia|others|by apply Hle].
    unfold isize_MAX in *. count. split_and!; lia.
  - exists (m ⊎ tG). split_and!; [done|done|done|by apply Hgt].
Qed.

Lemma ok_add_upg (s : Z) (m : gmultiset rwtok) (Q : gmultiset rwtok -> result Z Z -> Prop) :
  Q (m ⊎ tG ⊎ tR) (Ok s) -> (forall s', Q (m ⊎ tC) (Err s')) ->
  ok rw_inv (m ⊎ tC) (cas rstate put_state s (s + ONE_READER)) Q.
Proof.
  intros HOk HErr.
  apply ok_bind, (ok_rstate (fun v => (v, if v =? s then s + ONE_READER else v))).
  intros v fr Hc Hg. simpl. destruct (Z.eqb_spec v s) as [->|].
  - exists (m ⊎ tG ⊎ tR). split_and!; [|by count; lia|others|exact HOk].
    unfold ONE_READER. count. split_and!; lia.
  - exists (m ⊎ tC). split_and!; [done|done|done|apply HErr].
Qed.

(** The four ways to become a writer. *)
Lemma ok_cas_write (m : gmultiset rwtok) (Q : gmultiset rwtok -> result Z Z -> Prop) :
  Q (m ⊎ tX) (Ok 0) -> (forall s, Q (m ⊎ tG) (Err s)) ->
  ok rw_inv (m ⊎ tG) (cas rstate put_state 0 WRITER_BIT) Q.
Proof.
  intros HOk HErr.
  apply ok_bind, (ok_rstate (fun v => (v, if v =? 0 then WRITER_BIT else v))).
  intros v fr Hc Hg. simpl. destruct (Z.eqb_spec v 0) as [->|].
  - exists (m ⊎ tX). split_and!; [|by count; lia|others|exact HOk].
    unfold WRITER_BIT. count. split_and!; lia.
  - exists (m ⊎ tG). split_and!; [done|done|done|apply HErr].
Qed.

Lemma ok_set_writer (m : gmultiset rwtok) (Q : gmultiset rwtok -> Z -> Prop) :
  (forall s, Q (m ⊎ tP) s) ->
  ok rw_inv (m ⊎ tG) (fetch_or rstate put_state WRITER_BIT) Q.
Proof.
  intros HQ. apply (ok_rstate (fun v => (v, Z.lor v WRITER_BIT))).
  intros s fr Hc Hg. simpl. exists (m ⊎ tP). split_and!; [|by count; lia|others|apply HQ].
  unfold WRITER_BIT. rewrite lor_1_even.
  - count. split_and!; lia.
  - count. destruct Hc as [-> _]. rewrite Z.mul_comm.
    replace (_ + _ + _) with (Z.of_nat (multiplicity (KO OReader) m + multiplicity (KO OReader) fr) * 2)
      by lia. apply Z_mod_mult.
Qed.

Lemma ok_cas_upgrade (m : gmultiset rwtok) (Q : gmultiset rwtok -> result Z Z -> Prop) :
  Q (m ⊎ tX) (Ok 2) -> (forall s, Q (m ⊎ tG ⊎ tR) (Err s)) ->
  ok rw_inv (m ⊎ tG ⊎ tR) (cas rstate put_state ONE_READER WRITER_BIT) Q.
Proof.
  intros HOk HErr.
  apply ok_bind, (ok_rstate (fun v => (v, if v =? 2 then WRITER_BIT else v))).
  intros v fr Hc Hg. simpl. destruct (Z.eqb_spec v 2) as [->|].
  - exists (m ⊎ tX). split_and!; [|by count; lia|others|exact HOk].
    unfold WRITER_BIT. count. split_and!; lia.
  - exists (m ⊎ tG ⊎ tR). split_and!; [done|done|done|]. unfold ONE_READER.
    destruct (Z.eqb_spec v 2); [done|]. apply HErr.
Qed.

Lemma ok_upgrade_word (m : gmultiset rwtok) (Q : gmultiset rwtok -> Z -> Prop) :
  (forall s, Q (m ⊎ tP) s) ->
  ok rw_inv (m ⊎ tG ⊎ tR) (fetch_sub rstate put_state (ONE_READER - WRITER_BIT)) Q.
Proof.
  intros HQ. apply (ok_rstate (fun v => (v, wrapping_sub v 1))).
  intros s fr Hc Hg. simpl. exists (m ⊎ tP). split_and!; [|by count; lia|others|apply HQ].
  unfold wrapping_sub. rewrite wrap_small; count; [split_and!; lia|lia].
Qed.

(** A pending writer that reads [WRITER_BIT] has the lock to itself. *)
Lemma ok_drained (m : gmultiset rwtok) (Q : gmultiset rwtok -> Z -> Prop) :
  Q (m ⊎ tX) WRITER_BIT -> (forall s, s <> WRITER_BIT -> Q (m ⊎ tP) s) ->
  ok rw_inv (m ⊎ tP) (load rstate) Q.
Proof.
  intros H1 Hne. apply ok_rload. intros s fr Hc Hg.
  destruct (decide (s = WRITER_BIT)) as [->|].
  - exists (m ⊎ tX). split_and!; [|by count; lia|others|done].
    unfold WRITER_BIT in *. count. split_and!; lia.
  - exists (m ⊎ tP). split_and!; [done|done|done|by apply Hne].
Qed.

Lemma ok_same_load (m : gmultiset rwtok) (Q : gmultiset rwtok -> Z -> Prop) :
  (forall s, Q m s) -> ok rw_inv m (load rstate) Q.
Proof. intros HQ. apply ok_rload. intros s fr Hc Hg. exists m. by split_and!. Qed.

(** Leaving. *)
Lemma ok_clear_writer (o : own) (m : gmultiset rwtok) (Q : gmultiset rwtok -> Z -> Prop) :
  o = OPending \/ o = OExclusive -> (forall s, Q (m ⊎ tG) s) ->
  ok rw_inv (m ⊎ {[+ KO o +]}) (fetch_and rstate put_state (wnot WRITER_BIT)) Q.
Proof.
  intros Ho HQ. apply (ok_rstate (fun v => (v, Z.land v (wnot WRITER_BIT)))).
  intros s fr Hc Hg. simpl. exists (m ⊎ tG).
  assert (Hs : 0 <= s <= usize_MAX /\ s mod 2 = 1).
  { destruct Ho as [-> | ->]; unfold usize_MAX; count; destruct Hc as (Hs & ? & ? & ?);
      (split; [lia|]);
      replace s with (1 + Z.of_nat (multiplicity (KO OReader) m + multiplicity (KO OReader) fr) * 2)
        by lia; by rewrite Z_mod_plus_full. }
  destruct Hs as [Hs Hm]. unfold WRITER_BIT. rewrite land_wnot_1, Hm by done.
  destruct Ho as [-> | ->]; (split_and!; [|by count; lia|others|apply HQ]);
    count; split_and!; lia.
Qed.

Lemma ok_sub_reader (m : gmultiset rwtok) (Q : gmultiset rwtok -> Z -> Prop) :
  (forall s, Q m s) -> ok rw_inv (m ⊎ tR) (fetch_sub rstate put_state ONE_READER) Q.
Proof.
  intros HQ. apply (ok_rstate (fun v => (v, wrapping_sub v ONE_READER))).
  intros s fr Hc Hg. simpl. exists m. split_and!; [|by count; lia|others|apply HQ].
  unfold wrapping_sub, ONE_READER. rewrite wrap_small; count; [split_and!; lia|lia].
Qed.

Lemma ok_downgrade_word (m : gmultiset rwtok) (Q : gmultiset rwtok -> Z -> Prop) :
  (forall s, Q (m ⊎ tG ⊎ tR) s) ->
  ok rw_inv (m ⊎ tX) (fetch_add rstate put_state (ONE_READER - WRITER_BIT)) Q.
Proof.
  intros HQ. apply (ok_rstate (fun v => (v, wrapping_add v 1))).
  intros s fr Hc Hg. simpl. exists (m ⊎ tG ⊎ tR).
  split_and!; [|by count; lia|others|apply HQ].
  unfold wrapping_add. rewrite wrap_small; count; [split_and!; lia|lia].
Qed.

(** ** The operations *)

Local Notation lkw p := ({[+ KL true (false, p) +]} : gmultiset rwtok).
Local Notation lkr p := ({[+ KL false (false, p) +]} : gmultiset rwtok).
Local Notation boolQ m t Q := (forall b : bool, Q (if b then m ⊎ t else m) b).

Lemma ok_notify_writer (n : Z) (m : gmultiset rwtok) (Q : gmultiset rwtok -> unit -> Prop) :
  is_usize n -> Q m () -> ok rw_inv m (notify_p no_writer put_writer n) Q.
Proof. apply (ok_notify_p no_writer put_writer (KL true) rw_inv). Qed.
Lemma ok_notify_readers (n : Z) (m : gmultiset rwtok) (Q : gmultiset rwtok -> unit -> Prop) :
  is_usize n -> Q m () -> ok rw_inv m (notify_p no_readers put_readers n) Q.
Proof. apply (ok_notify_p no_readers put_readers (KL false) rw_inv). Qed.
Lemma ok_mutex_unlock (m : gmultiset rwtok) (Q : gmultiset rwtok -> unit -> Prop) :
  Q m () -> ok rw_inv (m ⊎ tG) (unlock rmutex put_mutex) Q.
Proof. apply (ok_unlock rmutex put_mutex KG KS KML KG_KS KG_KML KS_KML rw_inv rw_extra rw_extra_off). Qed.
Lemma ok_mutex_lock (f w : nat) (m : gmultiset rwtok) (Q : gmultiset rwtok -> bool -> Prop) :
  boolQ m tG Q -> ok rw_inv m (lock rmutex put_mutex f w) Q.
Proof. apply (ok_lock rmutex put_mutex KG KS KML KG_KS KG_KML KS_KML rw_inv rw_extra rw_extra_off). Qed.
Lemma ok_mutex_try_lock (m : gmultiset rwtok) (Q : gmultiset rwtok -> bool -> Prop) :
  boolQ m tG Q -> ok rw_inv m (try_lock rmutex put_mutex) Q.
Proof. apply (ok_try_lock rmutex put_mutex KG KS KML KG_KS KG_KML KS_KML rw_inv rw_extra rw_extra_off). Qed.

Lemma ok_try_read (f : nat) (m : gmultiset rwtok) (Q : gmultiset rwtok -> bool -> Prop) :
  boolQ m tR Q -> ok rw_inv m (try_read f) Q.
Proof.
  intros HQ. apply ok_bind, ok_same_load. intros s. revert s.
  induction f as [|f IH]; intros s; [done|]. cbn [try_read_loop]. unfold WRITER_BIT. rewrite land_1.
  destruct (Z.eqb_spec (s mod 2) 0); simpl negb; [|apply (HQ false)].
  destruct (Z.ltb_spec isize_MAX s); [done|].
  apply ok_bind, ok_add_read; [done|done|apply (HQ true)|]. intros s'. apply IH.
Qed.

Lemma ok_read_loop (f w : nat) (m : gmultiset rwtok) (Q : gmultiset rwtok -> bool -> Prop) (s : Z) :
  boolQ m tR Q -> ok rw_inv m (read_loop f w s) Q.
Proof.
  intros HQ. revert s. induction f as [|f IH]; intros s; [done|].
  cbn [read_loop]. unfold WRITER_BIT. rewrite land_1. destruct (Z.eqb_spec (s mod 2) 0).
  - destruct (Z.ltb_spec isize_MAX s); [done|].
    apply ok_bind, ok_add_read; [done|done|apply (HQ true)|]. intros s'. apply IH.
  - apply ok_bind, (ok_listen_p no_writer put_writer (KL true) rw_inv). intros p.
    apply ok_bind, ok_same_load. intros s'. destruct (Z.land s' 1 =? 0); simpl negb.
    + apply ok_bind, ok_same_load. intros s2.
      apply ok_bind, (ok_drop_p no_writer put_writer (KL true) rw_inv). apply IH.
    + apply ok_bind, (ok_await_p no_writer put_writer (KL true) rw_inv).
      intros [|]; [|apply (HQ false)].
      apply ok_bind, ok_notify_writer; [done|]. apply ok_bind, ok_same_load. intros s2. apply IH.
Qed.

Lemma ok_add_reader (f : nat) (m : gmultiset rwtok) (Q : gmultiset rwtok -> unit -> Prop) :
  Q (m ⊎ tG ⊎ tR) () -> ok rw_inv (m ⊎ tG) (add_reader f) Q.
Proof.
  intros HQ. apply ok_bind, ok_check; intros s Hs;
    [rewrite (proj2 (Z.ltb_ge _ _)) by done|by rewrite (proj2 (Z.ltb_lt _ _))].
  clear Hs. revert s. induction f as [|f IH]; intros s; [done|].
  apply ok_bind, ok_add_upg; [exact HQ|]. intros s'. apply IH.
Qed.

Lemma ok_drop_write (o : own) (m : gmultiset rwtok) (Q : gmultiset rwtok -> unit -> Prop) :
  o = OPending \/ o = OExclusive -> Q m () -> ok rw_inv (m ⊎ {[+ KO o +]}) drop_write Q.
Proof.
  intros Ho HQ. apply ok_bind, ok_clear_writer; [done|]. intros s.
  apply ok_bind, ok_notify_writer; [done|]. by apply ok_mutex_unlock.
Qed.

Lemma ok_drain (f w : nat) (m : gmultiset rwtok) (Q : gmultiset rwtok -> bool -> Prop) :
  boolQ m tX Q -> ok rw_inv (m ⊎ tP) (drain_readers f w) Q.
Proof.
  intros HQ. induction f as [|f IH]; [done|].
  apply ok_bind, ok_drained; [apply (HQ true)|]. intros s Hs.
  destruct (Z.eqb_spec s WRITER_BIT); [done|].
  apply ok_bind, (ok_listen_p no_readers put_readers (KL false) rw_inv). intros p.
  apply ok_bind, ok_same_load. intros s'. destruct (s' =? WRITER_BIT).
  - apply ok_bind, (ok_drop_p no_readers put_readers (KL false) rw_inv). exact IH.
  - apply ok_bind, (ok_await_p no_readers put_readers (KL false) rw_inv).
    intros [|]; [exact IH|]. apply ok_bind, ok_drop_write; [by left|apply (HQ false)].
Qed.

Lemma ok_drop_read (m : gmultiset rwtok) (Q : gmultiset rwtok -> unit -> Prop) :
  Q m () -> ok rw_inv (m ⊎ tR) drop_read Q.
Proof.
  intros HQ. apply ok_bind, ok_sub_reader. intros s. case_match; [|exact HQ].
  by apply ok_notify_readers.
Qed.

(** What a task owns, in tokens. *)
Definition rwtokens (c : held) : gmultiset rwtok :=
  (hr c *: tR) ⊎ (hu c *: (tG ⊎ tR)) ⊎ (hw c *: tX).

Definition got_tokens (g : got) : gmultiset rwtok :=
  match g with GNone => ∅ | GRead => tR | GUpg => tG ⊎ tR | GWrite => tX end.

Lemma rwtokens_finish (c : held) (op : rwop) (g : got) : rwtokens (rwfinish c op g) = rwtokens c ⊎ got_tokens g.
Proof.
  unfold rwtokens. destruct g; simpl; rewrite ?gmultiset_scalar_mul_S_r; multiset_solver.
Qed.

Definition arg_tokens (op : rwop) : gmultiset rwtok :=
  match op with
  | ODropRead => tR
  | ODropUpg | ODowngradeUpg | OTryUpgrade | OUpgrade _ _ => tG ⊎ tR
  | ODropWrite | ODowngrade | ODowngradeToUpg => tX
  | _ => ∅
  end.

Lemma rwtokens_start (c : held) (op : rwop) (c' : held) : rwstart c op = Some c' -> rwtokens c = rwtokens c' ⊎ arg_tokens op.
Proof.
  unfold rwtokens. destruct c as [r u w]. intros Hs.
  destruct op; simpl in *; simplify_eq; try (rewrite (right_id_L ∅ (⊎)); done);
    case_match; simplify_eq; simpl; rewrite ?gmultiset_scalar_mul_S_r; multiset_solver.
Qed.

Lemma ok_gives (g g' : got) (p : prog (RW E) bool) (m : gmultiset rwtok) :
  ok rw_inv m p (fun m' b => m' = got_tokens (if b : bool then g else g')) ->
  ok rw_inv m (gives g g' p) (fun m' r => m' = got_tokens r).
Proof. intros Hp. apply ok_bind. eapply ok_mono; [exact Hp|]. intros m' [] ->; reflexivity. Qed.

Lemma ok_rwcode (op : rwop) : ok rw_inv (arg_tokens op) (rwcode op) (fun m' g => m' = got_tokens g).
Proof.
  assert (Hl : forall X : gmultiset rwtok, ∅ ⊎ X = X) by (intros; apply (left_id_L ∅ (⊎))).
  destruct op; cbn [arg_tokens rwcode].
  - apply ok_gives, ok_try_read. intros [|]; simpl; by rewrite ?Hl.
  - apply ok_gives. apply ok_bind, ok_same_load. intros s.
    apply ok_read_loop. intros [|]; simpl; by rewrite ?Hl.
  - apply ok_bind. rewrite <- (Hl tR). by apply ok_drop_read.
  - apply ok_gives, ok_bind, ok_mutex_try_lock. intros [|]; [|done].
    apply ok_bind, ok_add_reader. simpl. multiset_solver.
  - apply ok_gives, ok_bind, ok_mutex_lock. intros [|]; [|done].
    apply ok_bind, ok_add_reader. simpl. multiset_solver.
  - apply ok_bind, ok_bind, ok_drop_read. rewrite <- (Hl tG). by apply ok_mutex_unlock.
  - apply ok_bind. rewrite (comm_L (⊎)). by apply ok_mutex_unlock.
  - apply ok_gives, ok_bind. rewrite <- (Hl tG). apply ok_cas_upgrade; simpl; intros; by rewrite Hl.
  - apply ok_gives, ok_bind. rewrite <- (Hl tG). apply ok_upgrade_word. intros s.
    apply ok_drain. intros [|]; simpl; by rewrite ?Hl.
  - apply ok_gives, ok_bind, ok_mutex_try_lock. intros [|]; [|done].
    apply ok_bind, ok_cas_write; [simpl; by rewrite Hl|]. intros s.
    apply ok_bind, ok_mutex_unlock. done.
  - apply ok_gives, ok_bind, ok_mutex_lock. intros [|]; [|done].
    apply ok_bind, ok_set_writer. intros s. apply ok_drain.
    intros [|]; simpl; by rewrite ?Hl.
  - apply ok_bind. rewrite <- (Hl tX). apply ok_drop_write; [by right|done].
  - apply ok_bind. rewrite <- (Hl tX). apply ok_bind, ok_downgrade_word. intros s.
    apply ok_bind, ok_notify_writer; [done|]. rewrite Hl, (comm_L (⊎)). by apply ok_mutex_unlock.
  - apply ok_bind. rewrite <- (Hl tX). apply ok_bind, ok_downgrade_word. intros s. simpl. by rewrite Hl.
Qed.

Lemma rwops_ok : ops_ok (rwcode (E:=E)) rwstart rwfinish rw_inv rwtokens.
Proof.
  intros c op c' Hs. exists (arg_tokens op). split; [by apply rwtokens_start|].
  eapply ok_mono; [apply ok_rwcode|]. intros m g ->. apply rwtokens_finish.
Qed.

Lemma ev_tokens_new {K} `{Countable K} (lis : bool * ptr -> K) : ev_tokens lis ev_new (∅ : gmultiset K).
Proof.
  exists ∅. split; [apply ev_inv_new|]. intros x. rewrite multiplicity_empty.
  by rewrite decide_False by set_solver.
Qed.

Lemma rw_inv_init : rw_inv (mkRW (mkM 0 ev_new) ev_new ev_new 0) ∅.
Proof.
  split_and!; [|apply ev_tokens_new|apply ev_tokens_new|].
  - split; [apply ev_tokens_new|split]; unfold guards, rw_extra, nO;
      rewrite !multiplicity_empty; [done|lia].
  - unfold core, nO. rewrite !multiplicity_empty. simpl. split_and!; lia.
Qed.

Lemma rwtokens_counts (c : held) :
  nO OReader (rwtokens c) = (hr c + hu c)%nat /\ nO OExclusive (rwtokens c) = hw c /\
  nG (rwtokens c) = hu c.
Proof.
  unfold rwtokens, nO, nG. rewrite !multiplicity_disj_union, !multiplicity_scalar_mul,
    !multiplicity_disj_union, !multiplicity_singleton_eq, !multiplicity_singleton_ne by discriminate.
  lia.
Qed.
End spec.

(** The guards of one kind, over the whole pool. *)
Definition total {E} (f : held -> nat) (c : config (RW E) rwop got held) : nat :=
  sum_list ((fun t => f (owns t)) <$> threads c).

(** C17: reader-writer exclusion, in every interleaving of any number of tasks
    that read, write, take upgradable guards, upgrade, downgrade and drop
    guards or futures: a write guard excludes every other guard, at most one
    guard is upgradable, and nothing crashes. *)
Theorem rwlock_exclusion {E} `{EventLaws E} (n : nat) (c : config (RW E) rwop got held) :
  reachable rwcode rwstart rwfinish (rwinit n) c ->
  existsb thread_aborted (threads c) = false ->
  existsb thread_crashed (threads c) = false /\
  (total hw c + total hu c <= 1)%nat /\
  ((0 < total hw c)%nat -> total hr c = 0%nat) /\
  Z.of_nat (total hr c + total hu c) < 2 ^ 63.
Proof.
  intros Hr Ha.
  destruct (pool_safe rwcode rwstart rwfinish rw_inv rwtokens n
    (mkRW (mkM 0 ev_new) ev_new ev_new 0) (Held 0 0 0) c) as [Hc [fr Hinv]]; try done.
  - apply rwops_ok.
  - apply rw_inv_init.
  - split; [done|]. destruct (rw_inv_guard _ _ Hinv) as [Hcore Hg].
    pose proof (owned_count rwtokens (KO OReader) (fun c => hr c + hu c)%nat (threads c)
      (fun c => proj1 (rwtokens_counts c))) as HR.
    pose proof (owned_count rwtokens (KO OExclusive) hw (threads c)
      (fun c => proj1 (proj2 (rwtokens_counts c)))) as HX.
    pose proof (owned_count rwtokens KG hu (threads c)
      (fun c => proj2 (proj2 (rwtokens_counts c)))) as HG.
    cbv beta in HR. rewrite (sum_list_fmap_add (fun t => hr (owns t)) (fun t => hu (owns t))) in HR.
    unfold core, one_guard, rw_extra, nG, nO, total in *. rewrite !multiplicity_disj_union in *.
    rewrite HR, HX in *. rewrite HG in Hg. lia.
Qed.

Definition rwsteps (i n : nat) : list (event rwop) := replicate n (EStep i false).

(** Task 0 writes, task 1 waits for the writer, task 0 keeps an upgradable
    guard, then drops it. *)
Definition rw_run : list (event rwop) :=
  [EStart 0%nat (OWrite 3 5)] ++ rwsteps 0 4 ++ [EStart 1%nat (ORead 4 7)] ++ rwsteps 1 6 ++
  [EStart 0%nat ODowngradeToUpg] ++ rwsteps 0 2.

Definition rw_end : list (event rwop) := rw_run ++ [EStart 0%nat ODropUpg] ++ rwsteps 0 5.

Definition rw_after (es : list (event rwop)) : config (RW Event.Inner) rwop got held :=
  after (rwcode (H:=Event.event_ops)) rwstart rwfinish es (rwinit (H:=Event.event_ops) 2).

Definition rw_blocked (σ : RW Event.Inner) (t : thread (RW Event.Inner) rwop got held) : bool :=
  match running t, thread_step rwfinish false σ t with
  | Some (ORead _ _, Act _), None => true
  | _, _ => false
  end.

Lemma rwlock_exclusion_witness :
  reachable (rwcode (H:=Event.event_ops)) rwstart rwfinish (rwinit (H:=Event.event_ops) 2) (rw_after rw_run) /\
  (owns <$> threads (rw_after rw_run) = [Held 0 1 0; Held 0 0 0]) /\
  existsb thread_crashed (threads (rw_after rw_run)) = false /\
  (total hw (rw_after rw_run) + total hu (rw_after rw_run) <= 1)%nat /\
  ((0 < total hw (rw_after rw_run))%nat -> total hr (rw_after rw_run) = 0%nat) /\
  Z.of_nat (total hr (rw_after rw_run) + total hu (rw_after rw_run)) < 2 ^ 63.
Proof.
  assert (Hr : reachable (rwcode (H:=Event.event_ops)) rwstart rwfinish
                 (rwinit (H:=Event.event_ops) 2) (rw_after rw_run))
    by (apply after_reachable; vm_compute; reflexivity).
  split; [exact Hr|split; [vm_compute; reflexivity|]].
  apply (rwlock_exclusion (H0:=Event.event_laws) 2 _ Hr). vm_compute. reflexivity.
Defined.

