(* ===== verification/Barrier.v ===== *)
(** [platform/lock/barrier.rs]: the barrier.

    Everything between taking and dropping the inner mutex is one step of
    [BState] ([arrive], [keep_waiting]); [wait] strings the steps together
    with the inner mutex and the event.  The theorem is about the sequence
    of arrivals, which the mutex serialises. *)

From S2P Require Import Prelude Conc EventApi AsyncMutex.

Record BState := mkB { bcount : Z; generation_id : Z }.

(** The first critical section of [wait]: the caller's generation, the new
    state, and whether the caller is the leader. *)
Definition arrive (n : Z) (s : BState) : Z * BState * bool :=
  let local_gen := generation_id s in
  let c := bcount s + 1 in
  if c <? n then (local_gen, mkB c (generation_id s), false)
  else (local_gen, mkB 0 (wrapping_add (generation_id s) 1), true).

(** The condition of the [while] loop. *)
Definition keep_waiting (n : Z) (local_gen : Z) (s : BState) : bool :=
  (local_gen =? generation_id s) && (bcount s <? n).

Record Barrier (E : Type) := mkBar { bmutex : MState E; bstate : BState; bevent : E }.
Arguments mkBar {E}.
Arguments bmutex {E}.
Arguments bstate {E}.
Arguments bevent {E}.

Section code.
Context {E} `{EventOps E} (n : Z).

Definition put_bmutex (m : MState E) (s : Barrier E) := mkBar m (bstate s) (bevent s).
Definition put_bevent (e : E) (s : Barrier E) := mkBar (bmutex s) (bstate s) e.

Local Abbreviation block := (lock (@bmutex E) put_bmutex).
Local Abbreviation bunlock := (unlock (@bmutex E) put_bmutex).

(** The waiting loop, entered with the mutex held; [None] when the future is
    dropped. *)
Fixpoint wait_turn (fuel : nat) (w : nat) (local_gen : Z) : prog (Barrier E) (option bool) :=
  match fuel with
  | O => OutOfFuel
  | S fuel =>
      k ← atomic (fun s => (keep_waiting n local_gen (bstate s), s));
      if k : bool then
        p ← listen_p bevent put_bevent;
        bunlock ;;
        ok ← await_p bevent put_bevent p w;
        if negb ok then mret None else
        b ← block fuel w;
        if b : bool then wait_turn fuel w local_gen else mret None
      else bunlock ;; mret (Some false)
  end.

(** [Barrier::wait]: [Some is_leader]. *)
Definition wait (fuel : nat) (w : nat) : prog (Barrier E) (option bool) :=
  b ← block fuel w;
  if negb b then mret None else
  r ← atomic (fun s => let '(g, st, leader) := arrive n (bstate s) in
                       ((g, leader), mkBar (bmutex s) st (bevent s)));
  if r.2 : bool then
    notify_p bevent put_bevent usize_MAX ;;
    bunlock ;; mret (Some true)
  else wait_turn fuel w r.1.
End code.

(** [k] arrivals at a new barrier. *)
Fixpoint arrivals (n : Z) (k : nat) : BState :=
  match k with
  | O => mkB 0 0
  | S k => (arrive n (arrivals n k)).1.2
  end.

Definition is_leader_at (n : Z) (k : nat) : bool := (arrive n (arrivals n k)).2.
Definition generation_at (n : Z) (k : nat) : Z := (arrive n (arrivals n k)).1.1.

Lemma arrivals_spec n k : 1 <= n ->
  arrivals n k = mkB (Z.of_nat k mod n) (wrap 64 (Z.of_nat k / n)).
Proof.
  intros Hn. induction k as [|k IH].
  - simpl. by rewrite Z.mod_0_l, Z.div_0_l by lia.
  - cbn [arrivals]. rewrite IH. unfold arrive. simpl bcount. simpl generation_id.
    pose proof (Z.mod_pos_bound (Z.of_nat k) n ltac:(lia)). pose proof (Z.div_mod (Z.of_nat k) n ltac:(lia)).
    rewrite Nat2Z.inj_succ. unfold Z.succ.
    destruct (Z.ltb_spec (Z.of_nat k mod n + 1) n); simpl; f_equal.
    + apply (Z.mod_unique_pos _ _ (Z.of_nat k / n)); lia.
    + f_equal. apply (Z.div_unique_pos _ _ _ (Z.of_nat k mod n + 1)); lia.
    + symmetry. apply Z.mod_divide; [lia|]. exists (Z.of_nat k / n + 1). lia.
    + unfold wrapping_add. rewrite wrap_add_l. f_equal.
      apply (Z.div_unique_pos _ _ _ 0); lia.
Qed.


