(* ===== verification/Stream.v ===== *)
(** [future/stream.rs]: the stream adapters and the futures that consume
    streams.

    A stream is a machine: a state and a [poll_next] that returns a poll and
    the next state ([None] is a panic, or a loop whose fuel ran out).  A
    source may be any machine, in particular the replay of an arbitrary
    script of answers.  Closures ([FnMut]) carry a state [C] of their own,
    threaded through every call, so the order and number of calls is part of
    what is proved.

    [yields next k s l]: polled again and again from [s], the stream answers
    [Pending] exactly [k] times, produces the items [l] in order, and ends.
    Each adapter is shown to yield the list the documentation promises, with
    as many pending answers as its source: it never parks without the
    source having been polled and pending. *)

From S2P Require Import Prelude.

Abbreviation machine S A := (S -> option (poll (option A) * S)) (only parsing).

(** The [ready!] macro: a pending answer returns at once, in state [st]. *)
Definition ready {X T St} (r : poll X) (st : St) (k : X -> option (poll T * St))
    : option (poll T * St) :=
  match r with
  | Pending => Some (Pending, st)
  | Ready x => k x
  end.

(** * Sources *)

(** A script of answers; after its end it has ended. *)
Definition script_next {A} (s : list (option A)) : option (poll (option A) * list (option A)) :=
  match s with
  | [] => Some (Ready None, [])
  | None :: s => Some (Pending, s)
  | Some a :: s => Some (Ready (Some a), s)
  end.

Definition Repeat_poll_next {T} (item : T) : option (poll (option T) * T) :=
  Some (Ready (Some item), item).

Definition RepeatWith_poll_next {T C} (f : C -> T * C) (c : C) : option (poll (option T) * C) :=
  let '(item, c) := f c in Some (Ready (Some item), c).

Definition Empty_poll_next {T} (s : unit) : option (poll (option T) * unit) :=
  Some (Ready None, s).

Definition Iter_poll_next {T} (iter : list T) : option (poll (option T) * list T) :=
  match iter with
  | [] => Some (Ready None, [])
  | x :: iter => Some (Ready (Some x), iter)
  end.

Definition Once_poll_next {T} (value : option T) : option (poll (option T) * option T) :=
  Some (Ready value, None).

Definition Pending_poll_next {T} (s : unit) : option (poll (option T) * unit) :=
  Some (Pending, s).

Definition PollFn_poll_next {T C} (f : C -> poll (option T) * C) (c : C) :=
  Some (f c).

(** [Unfold] and [TryUnfold]; [fpoll] polls the futures the closure makes. *)
Section unfold.
Context {T Item E Fut C : Type}.

Definition Unfold_poll_next (f : C -> T -> Fut * C)
    (fpoll : Fut -> option (poll (option (Item * T)) * Fut))
    (st : C * option T * option Fut) : option (poll (option Item) * (C * option T * option Fut)) :=
  let '(c, state, fut) := st in
  let '(c, state, fut) :=
    match state with
    | Some x => let '(fu, c) := f c x in (c, None, Some fu)
    | None => (c, None, fut)
    end in
  fu ← fut;                                     (* expect *)
  '(r, fu) ← fpoll fu;
  ready r (c, state, Some fu) (fun step =>
    match step with
    | Some (item, next_state) => Some (Ready (Some item), (c, Some next_state, None))
    | None => Some (Ready None, (c, state, None))
    end).

Definition TryUnfold_poll_next (f : C -> T -> Fut * C)
    (fpoll : Fut -> option (poll (result (option (Item * T)) E) * Fut))
    (st : C * option T * option Fut)
    : option (poll (option (result Item E)) * (C * option T * option Fut)) :=
  let '(c, state, fut) := st in
  let '(c, state, fut) :=
    match state with
    | Some x => let '(fu, c) := f c x in (c, None, Some fu)
    | None => (c, None, fut)
    end in
  match fut with
  | None => Some (Ready None, (c, state, None))
  | Some fu =>
      '(r, fu) ← fpoll fu;
      ready r (c, state, Some fu) (fun step =>
        match step with
        | Ok (Some (item, next_state)) => Some (Ready (Some (Ok item)), (c, Some next_state, None))
        | Ok None => Some (Ready None, (c, state, None))
        | Err e => Some (Ready (Some (Err e)), (c, state, None))
        end)
  end.
End unfold.

(** * Adapters of one stream *)

Section adapters.
Context {S A C : Type} (next : machine S A).

Definition Enumerate_poll_next (st : S * Z) : option (poll (option (Z * A)) * (S * Z)) :=
  let '(s, i) := st in
  '(r, s) ← next s;
  ready r (s, i) (fun x =>
    match x with
    | Some v => Some (Ready (Some (i, v)), (s, i + 1))
    | None => Some (Ready None, (s, i))
    end).

Definition Map_poll_next {B} (f : C -> A -> B * C) (st : S * C) : option (poll (option B) * (S * C)) :=
  let '(s, c) := st in
  '(r, s) ← next s;
  ready r (s, c) (fun x =>
    match x with
    | Some v => let '(b, c) := f c v in Some (Ready (Some b), (s, c))
    | None => Some (Ready None, (s, c))
    end).

(** Items are values here, so cloning or copying them is the identity. *)
Definition Cloned_poll_next (s : S) : option (poll (option A) * S) :=
  '(r, s) ← next s;
  ready r s (fun x => Some (Ready x, s)).
Definition Copied_poll_next := Cloned_poll_next.

Definition Inspect_poll_next (f : C -> A -> C) (st : S * C) : option (poll (option A) * (S * C)) :=
  let '(s, c) := st in
  '(r, s) ← next s;
  ready r (s, c) (fun x =>
    match x with
    | Some v => Some (Ready (Some v), (s, f c v))
    | None => Some (Ready None, (s, c))
    end).

Definition Scan_poll_next {B} (f : C -> A -> option B * C) (st : S * C)
    : option (poll (option B) * (S * C)) :=
  let '(s, c) := st in
  '(r, s) ← next s;
  match r with
  | Pending => Some (Pending, (s, c))
  | Ready None => Some (Ready None, (s, c))
  | Ready (Some v) => let '(b, c) := f c v in Some (Ready b, (s, c))
  end.

Definition Fuse_poll_next (st : S * bool) : option (poll (option A) * (S * bool)) :=
  let '(s, done) := st in
  if done then Some (Ready None, (s, done)) else
  '(r, s) ← next s;
  ready r (s, done) (fun x =>
    match x with
    | None => Some (Ready x, (s, true))
    | Some _ => Some (Ready x, (s, done))
    end).

Definition Take_poll_next (st : S * Z) : option (poll (option A) * (S * Z)) :=
  let '(s, n) := st in
  if n =? 0 then Some (Ready None, (s, n)) else
  '(r, s) ← next s;
  ready r (s, n) (fun x =>
    match x with
    | Some _ => Some (Ready x, (s, n - 1))
    | None => Some (Ready x, (s, 0))
    end).

Definition TakeWhile_poll_next (p : C -> A -> bool * C) (st : S * C)
    : option (poll (option A) * (S * C)) :=
  let '(s, c) := st in
  '(r, s) ← next s;
  ready r (s, c) (fun x =>
    match x with
    | Some v => let '(b, c) := p c v in
                if b : bool then Some (Ready (Some v), (s, c)) else Some (Ready None, (s, c))
    | None => Some (Ready None, (s, c))
    end).

(** The loop of the adapters that may skip items: [body] decides about one
    item, [None] goes round the loop. *)
Fixpoint skip_loop {B X} (fuel : nat) (body : X -> A -> option B * X) (st : S * X)
    : option (poll (option B) * (S * X)) :=
  match fuel with
  | O => None
  | Datatypes.S fuel =>
      let '(s, x) := st in
      '(r, s) ← next s;
      ready r (s, x) (fun v =>
        match v with
        | None => Some (Ready None, (s, x))
        | Some v => match body x v with
                    | (Some b, x) => Some (Ready (Some b), (s, x))
                    | (None, x) => skip_loop fuel body (s, x)
                    end
        end)
  end.

Definition Filter_body (p : C -> A -> bool * C) (c : C) (v : A) : option A * C :=
  let '(b, c) := p c v in (if b : bool then Some v else None, c).
Definition Filter_poll_next (fuel : nat) (p : C -> A -> bool * C) := skip_loop fuel (Filter_body p).

Definition FilterMap_poll_next {B} (fuel : nat) (f : C -> A -> option B * C) := skip_loop fuel f.

Definition Skip_body (n : Z) (v : A) : option A * Z :=
  if n =? 0 then (Some v, n) else (None, n - 1).
Definition Skip_poll_next (fuel : nat) := skip_loop fuel Skip_body.

(** [predicate: Option<P>], here the closure's state while it is kept. *)
Definition SkipWhile_body (p : C -> A -> bool * C) (predicate : option C) (v : A)
    : option A * option C :=
  match predicate with
  | Some c => let '(b, c) := p c v in
              if negb b then (Some v, None) else (None, Some c)
  | None => (Some v, None)
  end.
Definition SkipWhile_poll_next (fuel : nat) (p : C -> A -> bool * C) := skip_loop fuel (SkipWhile_body p).

Definition StepBy_body (step : Z) (i : Z) (v : A) : option A * Z :=
  if i =? 0 then (Some v, step - 1) else (None, i - 1).
Definition StepBy_poll_next (fuel : nat) (step : Z) := skip_loop fuel (StepBy_body step).

(** [orig] is cloned when the stream ends; the state is [(stream, orig)]. *)
Definition Cycle_poll_next (st : S * S) : option (poll (option A) * (S * S)) :=
  let '(s, orig) := st in
  '(r, s) ← next s;
  ready r (s, orig) (fun x =>
    match x with
    | Some item => Some (Ready (Some item), (s, orig))
    | None => '(r, s) ← next orig; Some (r, (s, orig))
    end).
End adapters.

(** * Adapters of several streams *)

Section nested.
Context {S U A : Type} (next : machine S U) (nextu : machine U A).

(** [Flatten] and, over a [Map], [FlatMap]. *)
Fixpoint Flatten_poll_next (fuel : nat) (st : S * option U)
    : option (poll (option A) * (S * option U)) :=
  match fuel with
  | O => None
  | Datatypes.S fuel =>
      let '(s, inner_stream) := st in
      let outer (s : S) : option (poll (option A) * (S * option U)) :=
        '(r, s) ← next s;
        ready r (s, None) (fun x =>
          match x with
          | Some inner => Flatten_poll_next fuel (s, Some inner)
          | None => Some (Ready None, (s, None))
          end) in
      match inner_stream with
      | Some inner =>
          '(r, inner) ← nextu inner;
          ready r (s, Some inner) (fun x =>
            match x with
            | Some item => Some (Ready (Some item), (s, Some inner))
            | None => outer s
            end)
      | None => outer s
      end
  end.
End nested.

Definition FlatMap_poll_next {S U A B C} (next : machine S B) (f : C -> B -> U * C)
    (nextu : machine U A) (fuel : nat) : machine ((S * C) * option U) A :=
  Flatten_poll_next (Map_poll_next next f) nextu fuel.

Section two.
Context {S1 S2 A B : Type} (next1 : machine S1 A) (next2 : machine S2 B).

Definition Zip_poll_next (st : option A * S1 * S2)
    : option (poll (option (A * B)) * (option A * S1 * S2)) :=
  let '(item_slot, s1, s2) := st in
  let second (slot : option A) (s1 : S1) : option (poll (option (A * B)) * (option A * S1 * S2)) :=
    '(r, s2) ← next2 s2;
    ready r (slot, s1, s2) (fun second_item : option B =>
      match slot with
      | Some first_item => Some (Ready (pair first_item <$> second_item), (None, s1, s2))
      | None => None                            (* unwrap *)
      end) in
  match item_slot with
  | None =>
      '(r, s1) ← next1 s1;
      match r with
      | Pending => Some (Pending, (None, s1, s2))
      | Ready None => Some (Ready None, (None, s1, s2))
      | Ready (Some item) => second (Some item) s1
      end
  | Some item => second (Some item) s1
  end.
End two.

(** [Then] applies an asynchronous closure, whose futures are polled by
    [fpoll]. *)
Fixpoint Then_poll_next {S A B C Fut} (next : machine S A) (f : C -> A -> Fut * C)
    (fpoll : Fut -> option (poll B * Fut)) (fuel : nat) (st : S * option Fut * C)
    : option (poll (option B) * (S * option Fut * C)) :=
  match fuel with
  | O => None
  | Datatypes.S fuel =>
      let '(s, future, c) := st in
      match future with
      | Some fut =>
          '(r, fut) ← fpoll fut;
          ready r (s, Some fut, c) (fun item => Some (Ready (Some item), (s, None, c)))
      | None =>
          '(r, s) ← next s;
          ready r (s, None, c) (fun x =>
            match x with
            | Some item => let '(fut, c) := f c item in
                           Then_poll_next next f fpoll fuel (s, Some fut, c)
            | None => Some (Ready None, (s, None, c))
            end)
      end
  end.

Section same_items.
Context {S1 S2 A : Type} (next1 : machine S1 A) (next2 : machine S2 A).

(** Both halves are fused. *)
Definition Chain_poll_next (st : (S1 * bool) * (S2 * bool))
    : option (poll (option A) * ((S1 * bool) * (S2 * bool))) :=
  let '(first, second) := st in
  let finish (first : S1 * bool) (second : S2 * bool)
      : option (poll (option A) * ((S1 * bool) * (S2 * bool))) :=
    if first.2 && second.2 then Some (Ready None, (first, second))
    else Some (Pending, (first, second)) in
  let rest (first : S1 * bool) : option (poll (option A) * ((S1 * bool) * (S2 * bool))) :=
    if negb second.2 then
      '(r, second) ← Fuse_poll_next next2 second;
      ready r (first, second) (fun next =>
        match next with
        | Some next => Some (Ready (Some next), (first, second))
        | None => finish first second
        end)
    else finish first second in
  if negb first.2 then
    '(r, first) ← Fuse_poll_next next1 first;
    ready r (first, second) (fun next =>
      match next with
      | Some next => Some (Ready (Some next), (first, second))
      | None => rest first
      end)
  else rest first.

Definition Or_poll_next (st : S1 * S2) : option (poll (option A) * (S1 * S2)) :=
  let '(s1, s2) := st in
  '(r, s1) ← next1 s1;
  match r with
  | Ready (Some t) => Some (Ready (Some t), (s1, s2))
  | _ => '(r, s2) ← next2 s2; Some (r, (s1, s2))
  end.

(** The coin is [rander::bool()]. *)
Definition Race_poll_next (coin : bool) (st : S1 * S2) : option (poll (option A) * (S1 * S2)) :=
  let '(s1, s2) := st in
  if coin then
    '(r, s1) ← next1 s1;
    match r with
    | Ready (Some t) => Some (Ready (Some t), (s1, s2))
    | _ => '(r, s2) ← next2 s2;
           match r with
           | Ready (Some t) => Some (Ready (Some t), (s1, s2))
           | _ => Some (Pending, (s1, s2))
           end
    end
  else
    '(r, s2) ← next2 s2;
    match r with
    | Ready (Some t) => Some (Ready (Some t), (s1, s2))
    | _ => '(r, s1) ← next1 s1;
           match r with
           | Ready (Some t) => Some (Ready (Some t), (s1, s2))
           | _ => Some (Pending, (s1, s2))
           end
    end.
End same_items.

(** * Futures over a stream *)

Section futures.
Context {S A : Type} (next : machine S A).

Definition NextFuture_poll (s : S) : option (poll (option A) * S) := next s.

(** The loop of the futures that consume a stream: [body] treats one item
    ([inr]: return), [fin] is the value when the stream ends; both leave the
    future's own fields in a last state and may panic. *)
Fixpoint consume {X T} (fuel : nat) (body : X -> A -> option (X + (T * X))) (fin : X -> option (T * X))
    (st : S * X) : option (poll T * (S * X)) :=
  match fuel with
  | O => None
  | Datatypes.S fuel =>
      let '(s, x) := st in
      '(r, s) ← next s;
      ready r (s, x) (fun v =>
        match v with
        | None => '(t, x) ← fin x; Some (Ready t, (s, x))
        | Some v => match body x v with
                    | None => None
                    | Some (inr (t, x)) => Some (Ready t, (s, x))
                    | Some (inl x) => consume fuel body fin (s, x)
                    end
        end)
  end.

Definition CountFuture_poll (fuel : nat) : S * Z -> option (poll Z * (S * Z)) :=
  consume fuel (fun count _ => Some (inl (count + 1))) (fun count => Some (count, count)).

(** The collection is a list that [extend] appends to; [mem::replace] leaves
    an empty one. *)
Definition CollectFuture_poll (fuel : nat) : S * list A -> option (poll (list A) * (S * list A)) :=
  consume fuel (fun collection e => Some (inl (collection ++ [e]))) (fun collection => Some (collection, [])).

(** [Option::take] and [unwrap]. *)
Definition take_unwrap {T} (o : option T) : option (T * option T) := (fun t => (t, None)) <$> o.

Definition PartitionFuture_poll {C} (p : C -> A -> bool * C) (fuel : nat)
    : S * (C * option (list A * list A)) ->
      option (poll (list A * list A) * (S * (C * option (list A * list A)))) :=
  consume fuel (fun '((c, res) : C * option (list A * list A)) v =>
      '(l, r) ← res;
      let '(b, c) := p c v in
      Some (inl (c, Some (if b : bool then (l ++ [v], r) else (l, r ++ [v])))))
    (fun '((c, res) : C * option (list A * list A)) => '(t, res) ← take_unwrap res; Some (t, (c, res))).

(** [acc] is taken and put back around every call. *)
Definition FoldFuture_poll {C T} (f : C -> T -> A -> T * C) (fuel : nat)
    : S * (C * option T) -> option (poll T * (S * (C * option T))) :=
  consume fuel (fun '((c, acc) : C * option T) v =>
      old ← acc;
      let '(new, c) := f c old v in
      Some (inl (c, Some new)))
    (fun '((c, acc) : C * option T) => '(t, acc) ← take_unwrap acc; Some (t, (c, acc))).

Definition NthFuture_poll (fuel : nat) : S * Z -> option (poll (option A) * (S * Z)) :=
  consume fuel (fun n v => Some (if n =? 0 then inr (Some v, n) else inl (n - 1))) (fun n => Some (None, n)).

Definition LastFuture_poll (fuel : nat) : S * option A -> option (poll (option A) * (S * option A)) :=
  consume fuel (fun _ new => Some (inl (Some new))) (fun last => Some (last, None)).

Definition FindFuture_poll {C} (p : C -> A -> bool * C) (fuel : nat)
    : S * C -> option (poll (option A) * (S * C)) :=
  consume fuel (fun c v => let '(b, c) := p c v in Some (if b : bool then inr (Some v, c) else inl c))
    (fun c => Some (None, c)).

Definition FindMapFuture_poll {B C} (f : C -> A -> option B * C) (fuel : nat)
    : S * C -> option (poll (option B) * (S * C)) :=
  consume fuel (fun c v =>
      Some (match f c v with (Some b, c) => inr (Some b, c) | (None, c) => inl c end))
    (fun c => Some (None, c)).

Definition PositionFuture_poll {C} (p : C -> A -> bool * C) (fuel : nat)
    : S * (C * Z) -> option (poll (option Z) * (S * (C * Z))) :=
  consume fuel (fun '(c, index) v =>
      let '(b, c) := p c v in
      Some (if b : bool then inr (Some index, (c, index)) else inl (c, index + 1)))
    (fun x => Some (None, x)).

Definition AllFuture_poll {C} (p : C -> A -> bool * C) (fuel : nat)
    : S * C -> option (poll bool * (S * C)) :=
  consume fuel (fun c v => let '(b, c) := p c v in Some (if negb b then inr (false, c) else inl c))
    (fun c => Some (true, c)).

Definition AnyFuture_poll {C} (p : C -> A -> bool * C) (fuel : nat)
    : S * C -> option (poll bool * (S * C)) :=
  consume fuel (fun c v => let '(b, c) := p c v in Some (if b : bool then inr (true, c) else inl c))
    (fun c => Some (false, c)).

Definition ForEachFuture_poll {C} (f : C -> A -> C) (fuel : nat)
    : S * C -> option (poll unit * (S * C)) :=
  consume fuel (fun c v => Some (inl (f c v))) (fun c => Some (tt, c)).

Definition TryForEachFuture_poll {C E} (f : C -> A -> result unit E * C) (fuel : nat)
    : S * C -> option (poll (result unit E) * (S * C)) :=
  consume fuel (fun c v =>
      Some (match f c v with (Ok _, c) => inl c | (Err e, c) => inr (Err e, c) end))
    (fun c => Some (Ok tt, c)).
End futures.

Section result_futures.
Context {S A E : Type} (next : machine S (result A E)).

Definition TryNextFuture_poll (s : S) : option (poll (result (option A) E) * S) :=
  '(r, s) ← next s;
  ready r s (fun res =>
    Some (Ready (match res with
                 | None => Ok None
                 | Some (Ok x) => Ok (Some x)
                 | Some (Err e) => Err e
                 end), s)).

Definition TryCollectFuture_poll (fuel : nat)
    : S * list A -> option (poll (result (list A) E) * (S * list A)) :=
  consume next fuel (fun items x =>
      Some (match x with Ok x => inl (items ++ [x]) | Err e => inr (Err e, items) end))
    (fun items => Some (Ok items, [])).

Definition TryFoldFuture_poll {C B} (f : C -> B -> A -> result B E * C) (fuel : nat)
    : S * (C * option B) -> option (poll (result B E) * (S * (C * option B))) :=
  consume next fuel (fun '((c, acc) : C * option B) x =>
      match x with
      | Err e => Some (inr (Err e, (c, acc)))
      | Ok t => old ← acc;                             (* take, unwrap *)
                Some (match f c old t with
                      | (Ok b, c) => inl (c, Some b)
                      | (Err e, c) => inr (Err e, (c, None))
                      end)
      end)
    (fun '((c, acc) : C * option B) => '(b, acc) ← take_unwrap acc; Some (Ok b, (c, acc))).
End result_futures.

Definition UnzipFuture_poll {S A B} (next : machine S (A * B)) (fuel : nat)
    : S * option (list A * list B) -> option (poll (list A * list B) * (S * option (list A * list B))) :=
  consume next fuel (fun (res : option (list A * list B)) '(a, b) => '(l, r) ← res; Some (inl (Some (l ++ [a], r ++ [b]))))
    take_unwrap.

(** * The constructors

    The methods of [StreamExt] (prefix [ext_]) and the free functions (prefix
    [new_]) build the states the machines above start in.  A closure is its
    captured state. *)

Definition new_repeat {T} (item : T) : T := item.
Definition new_repeat_with {C} (f : C) : C := f.
Definition new_empty : unit := tt.
Definition new_iter {T} (iter : list T) : list T := iter.
Definition new_once {T} (t : T) : option T := Some t.
Definition new_pending : unit := tt.
Definition new_poll_fn {C} (f : C) : C := f.
Definition new_unfold {T C Fut} (seed : T) (f : C) : C * option T * option Fut := (f, Some seed, None).
Definition new_try_unfold {T C Fut} (init : T) (f : C) : C * option T * option Fut :=
  (f, Some init, None).
Definition new_or {S1 S2} (s1 : S1) (s2 : S2) : S1 * S2 := (s1, s2).
Definition new_race {S1 S2} (s1 : S1) (s2 : S2) : S1 * S2 := (s1, s2).

Section ext.
Context {S A C U : Type} (s : S).

Definition ext_next : S := s.
Definition ext_try_next : S := s.
Definition ext_count : S * Z := (s, 0).
Definition ext_map (f : C) : S * C := (s, f).
Definition ext_flat_map (f : C) : (S * C) * option U := (ext_map f, None).
Definition ext_flatten : S * option U := (s, None).
Definition ext_then (f : C) : S * option U * C := (s, None, f).
Definition ext_filter (predicate : C) : S * C := (s, predicate).
Definition ext_filter_map (f : C) : S * C := (s, f).
Definition ext_take (n : Z) : S * Z := (s, n).
Definition ext_take_while (predicate : C) : S * C := (s, predicate).
Definition ext_skip (n : Z) : S * Z := (s, n).
Definition ext_skip_while (predicate : C) : S * option C := (s, Some predicate).
(** The counter and the step; the assertion panics. *)
Definition ext_step_by (step : Z) : option (S * Z) := if 0 <? step then Some (s, 0) else None.
Definition ext_cloned : S := s.
Definition ext_copied : S := s.
Definition ext_collect : S * list A := (s, []).
Definition ext_try_collect : S * list A := (s, []).
Definition ext_partition (predicate : C) : S * (C * option (list A * list A)) :=
  (s, (predicate, Some ([], []))).
Definition ext_fold (init : U) (f : C) : S * (C * option U) := (s, (f, Some init)).
Definition ext_try_fold (init : U) (f : C) : S * (C * option U) := (s, (f, Some init)).
(** The closure and its [St] argument. *)
Definition ext_scan (initial_state_f : C) : S * C := (s, initial_state_f).
Definition ext_fuse : S * bool := (s, false).
Definition ext_cycle : S * S := (s, s).
Definition ext_enumerate : S * Z := (s, 0).
Definition ext_inspect (f : C) : S * C := (s, f).
Definition ext_nth (n : Z) : S * Z := (s, n).
Definition ext_last : S * option A := (s, None).
Definition ext_find (predicate : C) : S * C := (s, predicate).
Definition ext_find_map (f : C) : S * C := (s, f).
Definition ext_position (predicate : C) : S * (C * Z) := (s, (predicate, 0)).
Definition ext_all (predicate : C) : S * C := (s, predicate).
Definition ext_any (predicate : C) : S * C := (s, predicate).
Definition ext_for_each (f : C) : S * C := (s, f).
Definition ext_try_for_each (f : C) : S * C := (s, f).
Definition ext_zip {S2} (other : S2) : option A * S * S2 := (None, s, other).
Definition ext_unzip {B} : S * option (list A * list B) := (s, Some ([], [])).
Definition ext_or {S2} (other : S2) : S * S2 := (s, other).
Definition ext_race {S2} (other : S2) : S * S2 := (s, other).
End ext.

Definition ext_chain {S S2} (s : S) (other : S2) : (S * bool) * (S2 * bool) :=
  (ext_fuse s, ext_fuse other).

(** * Size hints

    The lower bound and, if known, the upper bound on the items to come. *)

Definition size_hint : Type := Z * option Z.

Definition Repeat_size_hint {T} (item : T) : size_hint := (usize_MAX, None).
Definition RepeatWith_size_hint {C} (f : C) : size_hint := (usize_MAX, None).
Definition Empty_size_hint (s : unit) : size_hint := (0, Some 0).
(** [list::size_hint] is exact. *)
Definition Iter_size_hint {T} (iter : list T) : size_hint :=
  (Z.of_nat (length iter), Some (Z.of_nat (length iter))).
Definition Once_size_hint {T} (value : option T) : size_hint :=
  match value with Some _ => (1, Some 1) | None => (0, Some 0) end.
Definition Pending_size_hint (s : unit) : size_hint := (0, Some 0).
Definition Map_size_hint {S C} (hint : S -> size_hint) (st : S * C) : size_hint := hint st.1.
Definition Then_size_hint {S C Fut} (hint : S -> size_hint) (st : S * option Fut * C) : size_hint :=
  let '(s, future, _) := st in
  let future_len := match future with Some _ => 1 | None => 0 end in
  let '(lower, upper) := hint s in
  let lower := Z.min usize_MAX (lower + future_len) in           (* saturating_add *)
  let upper := u ← upper; if u + future_len <=? usize_MAX        (* checked_add *)
                          then Some (u + future_len) else None in
  (lower, upper).

(** * Blocking iteration *)

(** [future::block_on] polls until the future is ready. *)
Fixpoint block_on {St T} (poll_ : St -> option (poll T * St)) (fuel : nat) (st : St)
    : option (T * St) :=
  match fuel with
  | O => None
  | Datatypes.S fuel =>
      '(r, st) ← poll_ st;
      match r with
      | Ready t => Some (t, st)
      | Pending => block_on poll_ fuel st
      end
  end.

Definition BlockOn_next {S A} (next : machine S A) (fuel : nat) (s : S) : option (option A * S) :=
  block_on (NextFuture_poll next) fuel s.

(** * What a stream produces *)

Inductive yields {S A} (next : machine S A) : nat -> S -> list A -> Prop :=
| yields_end s s' : next s = Some (Ready None, s') -> yields next 0 s []
| yields_pending k s s' l :
    next s = Some (Pending, s') -> yields next k s' l -> yields next (Datatypes.S k) s l
| yields_item k s s' a l :
    next s = Some (Ready (Some a), s') -> yields next k s' l -> yields next k s (a :: l).

(** What a future returns, after [k] pending polls, and its last state. *)
Inductive completes {St T} (poll_ : St -> option (poll T * St)) : nat -> St -> T -> St -> Prop :=
| completes_ready s t s' : poll_ s = Some (Ready t, s') -> completes poll_ 0 s t s'
| completes_pending k s s' t s'' :
    poll_ s = Some (Pending, s') -> completes poll_ k s' t s'' ->
    completes poll_ (Datatypes.S k) s t s''.

(** A stream that need not end: what it has produced so far. *)
Inductive emits {S A} (next : machine S A) : S -> list A -> S -> Prop :=
| emits_nil s : emits next s [] s
| emits_pending s s' l s'' :
    next s = Some (Pending, s') -> emits next s' l s'' -> emits next s l s''
| emits_item s s' a l s'' :
    next s = Some (Ready (Some a), s') -> emits next s' l s'' -> emits next s (a :: l) s''.

Create HintDb stream.
#[export] Hint Constructors yields completes emits : stream.

(** The first poll decides. *)
Lemma yields_same {S A} (next : machine S A) k s1 s2 l :
  next s1 = next s2 -> yields next k s1 l -> yields next k s2 l.
Proof. intros E Hy. inversion Hy; subst; rewrite E in *; eauto with stream. Qed.

Lemma completes_same {St T} (poll_ : St -> option (poll T * St)) k s1 s2 t s' :
  poll_ s1 = poll_ s2 -> completes poll_ k s1 t s' -> completes poll_ k s2 t s'.
Proof. intros E Hc. inversion Hc; subst; rewrite E in *; eauto with stream. Qed.

Lemma emits_app {S A} (next : machine S A) s l1 s1 l2 s2 :
  emits next s l1 s1 -> emits next s1 l2 s2 -> emits next s (l1 ++ l2) s2.
Proof. induction 1; simpl; eauto with stream. Qed.

Lemma yields_emits {S A} (next : machine S A) k s l :
  yields next k s l -> exists s1 s2, emits next s l s1 /\ next s1 = Some (Ready None, s2).
Proof. induction 1; naive_solver eauto with stream. Qed.

(** ** The skipping loop *)

Fixpoint omapS {A B X} (body : X -> A -> option B * X) (x : X) (l : list A) : list B :=
  match l with
  | [] => []
  | v :: l => match body x v with
              | (Some b, x) => b :: omapS body x l
              | (None, x) => omapS body x l
              end
  end.

Section loop.
Context {S A : Type} (next : machine S A).

Ltac poll_step E := simpl; rewrite E; simpl.

Lemma skip_loop_fuel {B X} (body : X -> A -> option B * X) k s l :
  yields next k s l -> forall x n m, (length l < n)%nat -> (length l < m)%nat ->
  skip_loop next n body (s, x) = skip_loop next m body (s, x).
Proof.
  induction 1 as [s s' E|k s s' l E _ _|k s s' a l E _ IH]; intros x [|n] [|m] Hn Hm;
    simpl in *; try lia; poll_step E; try done.
  destruct (body x a) as [[b|] x']; [done|]. apply IH; lia.
Qed.

Lemma skip_loop_yields {B X} (body : X -> A -> option B * X) fuel k s l :
  yields next k s l -> forall x, (length l < fuel)%nat ->
  yields (skip_loop next fuel body) k (s, x) (omapS body x l).
Proof.
  induction 1 as [s s' E|k s s' l E Hy IH|k s s' a l E Hy IH]; intros x Hf;
    (destruct fuel as [|fuel]; [simpl in Hf; lia|]).
  - apply (yields_end _ _ (s', x)). by poll_step E.
  - eapply (yields_pending _ _ _ (s', x)); [by poll_step E|]. apply IH. lia.
  - simpl in Hf. cbn [omapS]. destruct (body x a) as [[b|] x'] eqn:Eb.
    + eapply (yields_item _ _ _ (s', x')); [poll_step E; by rewrite Eb|]. apply IH. lia.
    + apply (yields_same _ _ (s', x')); [|apply IH; lia].
      transitivity (skip_loop next fuel body (s', x')); [|poll_step E; by rewrite Eb].
      by eapply skip_loop_fuel; [exact Hy|lia|lia].
Qed.

(** ** The consuming loop *)

Fixpoint list_consume {X T} (body : X -> A -> option (X + (T * X))) (fin : X -> option (T * X))
    (x : X) (l : list A) : option (T * X * option (list A)) :=
  match l with
  | [] => '(t, x) ← fin x; Some (t, x, None)
  | v :: l => match body x v with
              | None => None
              | Some (inr (t, x)) => Some (t, x, Some l)
              | Some (inl x) => list_consume body fin x l
              end
  end.

Lemma consume_fuel {X T} (body : X -> A -> option (X + (T * X))) fin k s l :
  yields next k s l -> forall x n m, (length l < n)%nat -> (length l < m)%nat ->
  consume next n body fin (s, x) = consume next m body fin (s, x).
Proof.
  induction 1 as [s s' E|k s s' l E _ _|k s s' a l E _ IH]; intros x [|n] [|m] Hn Hm;
    simpl in *; try lia; poll_step E; try done.
  destruct (body x a) as [[x'|[t x']]|]; [|done|done]. apply IH; lia.
Qed.

(** The future returns what the list function returns; if it returned before
    the end, the stream still has the other items. *)
Lemma consume_completes {X T} (body : X -> A -> option (X + (T * X))) fin fuel k s l :
  yields next k s l -> forall x t x' left, (length l < fuel)%nat ->
  list_consume body fin x l = Some (t, x', left) ->
  exists k1 s', completes (consume next fuel body fin) k1 (s, x) t (s', x') /\
    match left with
    | None => k1 = k
    | Some l' => exists k2, k = (k1 + k2)%nat /\ yields next k2 s' l'
    end.
Proof.
  induction 1 as [s s' E|k s s' l E Hy IH|k s s' a l E Hy IH]; intros x t x' left Hf Hl;
    (destruct fuel as [|fuel]; [simpl in Hf; lia|]).
  - simpl in Hl. destruct (fin x) as [[t1 x1]|] eqn:Ef; simplify_eq/=.
    exists 0%nat, s'. split; [|done]. apply completes_ready. poll_step E. by rewrite Ef.
  - destruct (IH x t x' left) as (k1 & s1 & Hc & Hleft); [lia|done|].
    exists (Datatypes.S k1), s1. split.
    + eapply completes_pending; [|exact Hc]. by poll_step E.
    + destruct left; [|by subst]. destruct Hleft as (k2 & -> & ?). by exists k2.
  - simpl in Hf, Hl. destruct (body x a) as [[x1|[t1 x1]]|] eqn:Eb; [| |done].
    + destruct (IH x1 t x' left) as (k1 & s1 & Hc & Hleft); [lia|done|].
      exists k1, s1. split; [|done].
      apply (completes_same _ _ (s', x1)); [|exact Hc].
      transitivity (consume next fuel body fin (s', x1)); [|poll_step E; by rewrite Eb].
      by eapply consume_fuel; [exact Hy|lia|lia].
    + simplify_eq. exists 0%nat, s'. split; [|by exists k].
      apply completes_ready. poll_step E. by rewrite Eb.
Qed.
End loop.

(** * Lists the adapters are compared with *)

(** The answers of a closure called on every item, in order. *)
Fixpoint mapS {A B C} (f : C -> A -> B * C) (c : C) (l : list A) : list B :=
  match l with
  | [] => []
  | v :: l => let '(b, c) := f c v in b :: mapS f c l
  end.

(** The items whose answer is [true]; those before the first [false]; those
    from it on. *)
Definition selected {A} (l : list A) (bs : list bool) : list A := (List.filter snd (zip l bs)).*1.
Fixpoint while_true {A} (l : list A) (bs : list bool) : list A :=
  match l, bs with v :: l, true :: bs => v :: while_true l bs | _, _ => [] end.
Fixpoint after_true {A} (l : list A) (bs : list bool) : list A :=
  match l, bs with v :: l, true :: bs => after_true l bs | l, _ => l end.
Fixpoint while_some {B} (l : list (option B)) : list B :=
  match l with Some b :: l => b :: while_some l | _ => [] end.

Section lists.
Context {A B C : Type}.

Lemma omapS_filter (p : C -> A -> bool * C) c l :
  omapS (Filter_body p) c l = selected l (mapS p c l).
Proof.
  unfold selected. revert c. induction l as [|v l IH]; intros c; [done|]. simpl.
  unfold Filter_body at 1. destruct (p c v) as [[] c']; simpl; by rewrite IH.
Qed.

Lemma omapS_filter_map (f : C -> A -> option B * C) c l :
  omapS f c l = omap id (mapS f c l).
Proof.
  revert c. induction l as [|v l IH]; intros c; [done|]. simpl.
  destruct (f c v) as [[b|] c']; simpl; by rewrite IH.
Qed.

Lemma omapS_skip (n : Z) (l : list A) : omapS Skip_body n l = drop (Z.to_nat n) l \/ n < 0.
Proof.
  destruct (Z.ltb_spec n 0) as [|Hn]; [by right|left].
  revert n Hn. induction l as [|v l IH]; intros n Hn; [by rewrite drop_nil|]. simpl.
  unfold Skip_body at 1. destruct (Z.eqb_spec n 0) as [->|].
  - simpl. f_equal. rewrite IH by lia. done.
  - rewrite IH by lia. by replace (Z.to_nat n) with (Datatypes.S (Z.to_nat (n - 1))) by lia.
Qed.

Lemma omapS_skip_none (p : C -> A -> bool * C) l : omapS (SkipWhile_body p) None l = l.
Proof. induction l as [|v l IH]; [done|]. simpl. by rewrite IH. Qed.

Lemma omapS_skip_while (p : C -> A -> bool * C) c l :
  omapS (SkipWhile_body p) (Some c) l = after_true l (mapS p c l).
Proof.
  revert c. induction l as [|v l IH]; intros c; [done|]. simpl.
  destruct (p c v) as [[] c']; simpl; [by rewrite IH|by rewrite omapS_skip_none].
Qed.

(** Every [step]-th item, the first one after [i] more. *)
Lemma omapS_step_by (step i : Z) (l : list A) (j : nat) : 0 < step -> 0 <= i ->
  omapS (StepBy_body step) i l !! j = l !! (Z.to_nat i + j * Z.to_nat step)%nat.
Proof.
  intros Hs. revert i j. induction l as [|v l IH]; intros i j Hi; [done|]. simpl.
  unfold StepBy_body at 1. destruct (Z.eqb_spec i 0) as [->|].
  - destruct j as [|j]; [done|]. simpl. rewrite IH by lia.
    replace (Z.to_nat step + j * Z.to_nat step)%nat
      with (Datatypes.S (Z.to_nat (step - 1) + j * Z.to_nat step)) by lia. done.
  - rewrite IH by lia.
    replace (Z.to_nat i + j * Z.to_nat step)%nat
      with (Datatypes.S (Z.to_nat (i - 1) + j * Z.to_nat step)) by lia. done.
Qed.
End lists.

(** * Properties of the adapters *)

(** One poll of the adapter, given one of the source. *)
Ltac one_poll E := unfold Cloned_poll_next; cbn; rewrite E; reflexivity.

Section one_stream.
Context {S A C : Type} (next : machine S A).

Lemma Map_yields {B} (f : C -> A -> B * C) k s l c :
  yields next k s l -> yields (Map_poll_next next f) k (s, c) (mapS f c l).
Proof.
  intros Hy. revert c. induction Hy as [s s' E|k s s' l E Hy IH|k s s' a l E Hy IH]; intros c.
  - eapply yields_end. one_poll E.
  - eapply yields_pending; [one_poll E|apply IH].
  - simpl. destruct (f c a) as [b c'] eqn:Ef.
    eapply yields_item; [cbn; rewrite E; cbn; by rewrite Ef|apply IH].
Qed.

Lemma Enumerate_yields k s l i :
  yields next k s l -> yields (Enumerate_poll_next next) k (s, i) (zip (seqZ i (Z.of_nat (length l))) l).
Proof.
  intros Hy. revert i. induction Hy as [s s' E|k s s' l E Hy IH|k s s' a l E Hy IH]; intros i.
  - eapply yields_end. one_poll E.
  - eapply yields_pending; [one_poll E|apply IH].
  - cbn [length]. rewrite seqZ_cons by lia. cbn [zip_with].
    replace (Z.pred (Z.of_nat (Datatypes.S (length l)))) with (Z.of_nat (length l)) by lia.
    eapply yields_item; [one_poll E|]. apply IH.
Qed.

Lemma Cloned_yields k s l : yields next k s l -> yields (Cloned_poll_next next) k s l.
Proof.
  induction 1 as [s s' E|k s s' l E Hy IH|k s s' a l E Hy IH].
  - eapply yields_end. one_poll E.
  - eapply yields_pending; [one_poll E|apply IH].
  - eapply yields_item; [one_poll E|apply IH].
Qed.

Lemma Inspect_yields (f : C -> A -> C) k s l c :
  yields next k s l -> yields (Inspect_poll_next next f) k (s, c) l.
Proof.
  intros Hy. revert c. induction Hy as [s s' E|k s s' l E Hy IH|k s s' a l E Hy IH]; intros c.
  - eapply yields_end. one_poll E.
  - eapply yields_pending; [one_poll E|apply IH].
  - eapply yields_item; [one_poll E|apply IH].
Qed.

Lemma Fuse_yields k s l : yields next k s l -> yields (Fuse_poll_next next) k (s, false) l.
Proof.
  induction 1 as [s s' E|k s s' l E Hy IH|k s s' a l E Hy IH].
  - eapply yields_end. one_poll E.
  - eapply yields_pending; [one_poll E|apply IH].
  - eapply yields_item; [one_poll E|apply IH].
Qed.

(** The prefix adapters may end before the source, hence with fewer pending
    answers. *)
Lemma Scan_yields {B} (f : C -> A -> option B * C) k s l c :
  yields next k s l -> exists k', (k' <= k)%nat /\
  yields (Scan_poll_next next f) k' (s, c) (while_some (mapS f c l)).
Proof.
  intros Hy. revert c. induction Hy as [s s' E|k s s' l E Hy IH|k s s' a l E Hy IH]; intros c.
  - exists 0%nat. split; [lia|]. eapply yields_end. one_poll E.
  - destruct (IH c) as (k' & ? & ?). exists (Datatypes.S k'). split; [lia|].
    eapply yields_pending; [one_poll E|done].
  - simpl. destruct (f c a) as [[b|] c'] eqn:Ef.
    + destruct (IH c') as (k' & ? & ?). exists k'. split; [lia|].
      eapply yields_item; [cbn; rewrite E; cbn; by rewrite Ef|done].
    + exists 0%nat. split; [lia|]. eapply yields_end. cbn. rewrite E. cbn. by rewrite Ef.
Qed.

Lemma TakeWhile_yields (p : C -> A -> bool * C) k s l c :
  yields next k s l -> exists k', (k' <= k)%nat /\
  yields (TakeWhile_poll_next next p) k' (s, c) (while_true l (mapS p c l)).
Proof.
  intros Hy. revert c. induction Hy as [s s' E|k s s' l E Hy IH|k s s' a l E Hy IH]; intros c.
  - exists 0%nat. split; [lia|]. eapply yields_end. one_poll E.
  - destruct (IH c) as (k' & ? & ?). exists (Datatypes.S k'). split; [lia|].
    eapply yields_pending; [one_poll E|done].
  - simpl. destruct (p c a) as [[] c'] eqn:Ef.
    + destruct (IH c') as (k' & ? & ?). exists k'. split; [lia|].
      eapply yields_item; [cbn; rewrite E; cbn; by rewrite Ef|done].
    + exists 0%nat. split; [lia|]. eapply yields_end. cbn. rewrite E. cbn. by rewrite Ef.
Qed.

Lemma Take_yields k s l n :
  0 <= n -> yields next k s l -> exists k', (k' <= k)%nat /\
  yields (Take_poll_next next) k' (s, n) (take (Z.to_nat n) l).
Proof.
  intros Hn Hy. revert n Hn. induction Hy as [s s' E|k s s' l E Hy IH|k s s' a l E Hy IH];
    intros n Hn; (destruct (Z.eqb_spec n 0) as [->|Hne];
      [exists 0%nat; split; [lia|]; by apply (yields_end _ _ (s, 0))|]);
    apply Z.eqb_neq in Hne.
  - exists 0%nat. split; [lia|]. rewrite take_nil. eapply yields_end.
    cbn. rewrite Hne, E. reflexivity.
  - destruct (IH n Hn) as (k' & ? & ?). exists (Datatypes.S k'). split; [lia|].
    eapply yields_pending; [cbn; rewrite Hne, E; reflexivity|done].
  - destruct (IH (n - 1)) as (k' & ? & ?); [lia|]. exists k'. split; [lia|].
    replace (Z.to_nat n) with (Datatypes.S (Z.to_nat (n - 1))) by lia.
    eapply yields_item; [cbn; rewrite Hne, E; reflexivity|done].
Qed.
End one_stream.

(** ** Adapters of several streams *)

Section several.
Context {S1 S2 A B : Type}.

Lemma Fuse_done (next : machine S1 A) s : Fuse_poll_next next (s, true) = Some (Ready None, (s, true)).
Proof. done. Qed.

(** Once the first half has ended, the chain is the second half. *)
Lemma Chain_second (next1 : machine S1 A) (next2 : machine S2 A) k s2 l s1 :
  yields next2 k s2 l ->
  yields (Chain_poll_next next1 next2) k ((s1, true), (s2, false)) l.
Proof.
  induction 1 as [s s' E|k s s' l E Hy IH|k s s' a l E Hy IH].
  - eapply yields_end. one_poll E.
  - eapply yields_pending; [one_poll E|apply IH].
  - eapply yields_item; [one_poll E|apply IH].
Qed.

Lemma Chain_yields (next1 : machine S1 A) (next2 : machine S2 A) k1 k2 s1 s2 l1 l2 :
  yields next1 k1 s1 l1 -> yields next2 k2 s2 l2 ->
  yields (Chain_poll_next next1 next2) (k1 + k2) ((s1, false), (s2, false)) (l1 ++ l2).
Proof.
  intros H1 H2. induction H1 as [s s' E|k s s' l E Hy IH|k s s' a l E Hy IH].
  - apply (yields_same _ _ ((s', true), (s2, false))); [cbn; by rewrite E|].
    by apply Chain_second.
  - eapply yields_pending; [one_poll E|apply IH].
  - eapply yields_item; [one_poll E|apply IH].
Qed.

(** With an item of the first stream in the slot, the zip waits for the
    second. *)
Lemma Zip_yields (next1 : machine S1 A) (next2 : machine S2 B) k1 s1 l1 :
  yields next1 k1 s1 l1 -> forall k2 s2 l2, yields next2 k2 s2 l2 ->
  exists k, (k <= k1 + k2)%nat /\
    yields (Zip_poll_next next1 next2) k (None, s1, s2) (zip l1 l2).
Proof.
  induction 1 as [s s' E|k s s' l E Hy IH|k s s' a l E Hy IH]; intros k2 s2 l2 H2.
  - exists 0%nat. split; [lia|]. eapply yields_end. one_poll E.
  - destruct (IH _ _ _ H2) as (k0 & ? & ?). exists (Datatypes.S k0). split; [lia|].
    eapply yields_pending; [one_poll E|done].
  - assert (Hslot : exists k0, (k0 <= k + k2)%nat /\
      yields (Zip_poll_next next1 next2) k0 (Some a, s', s2) (zip (a :: l) l2)).
    { induction H2 as [t t' E2|k2 t t' l2 E2 Hy2 IH2|k2 t t' b l2 E2 Hy2 IH2].
      - exists 0%nat. split; [lia|]. eapply yields_end. one_poll E2.
      - destruct IH2 as (k0 & ? & ?). exists (Datatypes.S k0). split; [lia|].
        eapply yields_pending; [one_poll E2|done].
      - destruct (IH _ _ _ Hy2) as (k0 & ? & ?). exists k0. split; [lia|]. simpl.
        eapply yields_item; [one_poll E2|done]. }
    destruct Hslot as (k0 & ? & Hs). exists k0. split; [done|].
    apply (yields_same _ _ (Some a, s', s2)); [|done]. cbn. by rewrite E.
Qed.
End several.

(** The inner streams of a flattened stream, one after the other. *)
Section flatten.
Context {S U A : Type} (next : machine S U) (nextu : machine U A).

Definition flat (us : list (nat * U * list A)) : list A := concat ((fun x => x.2) <$> us).
Definition pend (us : list (nat * U * list A)) : nat := sum_list ((fun x => x.1.1) <$> us).
Definition inner_ok (us : list (nat * U * list A)) : Prop :=
  Forall (fun x => yields nextu x.1.1 x.1.2 x.2) us.

Lemma Flatten_fuel us : forall k s, yields next k s ((fun x => x.1.2) <$> us) -> inner_ok us ->
  forall n m, (length us < n)%nat -> (length us < m)%nat ->
  Flatten_poll_next next nextu n (s, None) = Flatten_poll_next next nextu m (s, None).
Proof.
  induction us as [|[[ku u] lu] us IH]; intros k s Hy Hi [|n] [|m] Hn Hm; simpl in Hn, Hm; try lia.
  - simpl in Hy. inversion Hy as [s0 s' E|k0 s0 s' l E Hy'|]; subst; cbn; by rewrite E.
  - simpl in Hy. inversion Hy as [|k0 s0 s' l E Hy'|k0 s0 s' a l E Hy']; subst; cbn; rewrite E; cbn; [done|].
    apply Forall_cons in Hi as [Hu Hi]. simpl in Hu.
    assert (Hrest : forall n m, (length us < n)%nat -> (length us < m)%nat ->
      Flatten_poll_next next nextu n (s', None) = Flatten_poll_next next nextu m (s', None))
      by by eapply IH.
    destruct n as [|n]; [lia|]. destruct m as [|m]; [lia|].
    inversion Hu as [u0 u' Eu|? u0 u' lu' Eu|? u0 u' a lu' Eu]; subst; cbn; rewrite Eu; cbn; try done.
    specialize (Hrest (Datatypes.S n) (Datatypes.S m) ltac:(lia) ltac:(lia)).
    cbn in Hrest. exact Hrest.
Qed.

Lemma Flatten_yields fuel us : forall k s, yields next k s ((fun x => x.1.2) <$> us) -> inner_ok us ->
  (length us < fuel)%nat ->
  yields (Flatten_poll_next next nextu fuel) (k + pend us) (s, None) (flat us).
Proof.
  induction us as [|[[ku u] lu] us IH]; intros k s Hy Hi Hf.
  - simpl in Hy. remember [] as l eqn:El. destruct fuel as [|fuel]; [lia|].
    induction Hy as [s s' E|k s s' l E Hy IHy|]; [| |done].
    + eapply yields_end. one_poll E.
    + eapply yields_pending; [one_poll E|]. by apply IHy.
  - simpl in Hy. remember (u :: _) as l eqn:El. simpl in Hf.
    induction Hy as [|k s s' l E Hy IHy|k s s' a l E Hy _]; [done| |]; subst.
    + destruct fuel as [|fuel]; [lia|]. eapply yields_pending; [one_poll E|]. by apply IHy.
    + simplify_eq. apply Forall_cons in Hi as [Hu Hi]. simpl in Hu.
      assert (Hrest : yields (Flatten_poll_next next nextu fuel) (k + pend us) (s', None) (flat us))
        by (apply IH; [done|done|lia]).
      change (flat ((ku, u, lu) :: us)) with (lu ++ flat us).
      change (pend ((ku, u, lu) :: us)) with (ku + pend us)%nat.
      replace (k + (ku + pend us))%nat with (ku + (k + pend us))%nat by lia.
      assert (Hin : yields (Flatten_poll_next next nextu fuel) (ku + (k + pend us)) (s', Some u) (lu ++ flat us)).
      { destruct fuel as [|fuel]; [lia|]. clear IH E.
        induction Hu as [u0 u' Eu|ku u0 u' lu Eu Hu IHu|ku u0 u' a lu Eu Hu IHu].
        - apply (yields_same _ _ (s', None)); [cbn; by rewrite Eu|exact Hrest].
        - eapply yields_pending; [one_poll Eu|apply IHu].
        - eapply yields_item; [one_poll Eu|apply IHu]. }
      apply (yields_same _ _ (s', Some u)); [|exact Hin].
      destruct fuel as [|[|fuel]]; [lia|lia|].
      transitivity (Flatten_poll_next next nextu (Datatypes.S fuel) (s', Some u));
        [|cbn; by rewrite E].
      inversion Hu as [u0 u' Eu|? u0 u' lu' Eu|? u0 u' a lu' Eu]; subst; cbn; rewrite Eu; cbn; try done.
      pose proof (Flatten_fuel us _ _ Hy Hi (Datatypes.S (Datatypes.S fuel)) (Datatypes.S fuel)
        ltac:(lia) ltac:(lia)) as Hrest'. cbn in Hrest'. exact Hrest'.
Qed.
End flatten.

(** ** Streams that do not end *)

Lemma Repeat_emits {T} (item : T) n : emits Repeat_poll_next item (replicate n item) item.
Proof. induction n; simpl; eauto with stream. Qed.

Lemma Cycle_once {S A} (next : machine S A) s s1 l orig :
  emits next s l s1 -> emits (Cycle_poll_next next) (s, orig) l (s1, orig).
Proof.
  induction 1 as [s|s s' l s'' E He IH|s s' a l s'' E He IH].
  - constructor.
  - eapply emits_pending; [one_poll E|exact IH].
  - eapply emits_item; [one_poll E|exact IH].
Qed.

(** Starting again after the end needs one poll that goes on with the fresh
    clone. *)
Lemma Cycle_restart {S A} (next : machine S A) s s1 orig l s2 :
  next s = Some (Ready None, s1) -> l <> [] -> emits (Cycle_poll_next next) (orig, orig) l s2 ->
  exists s3, emits (Cycle_poll_next next) (s, orig) l s3.
Proof.
  intros E Hl He. inversion He as [|s0 s' l' s'' E1 He1|s0 s' a l' s'' E1 He1]; subst; [done| |];
    cbn in E1; destruct (next orig) as [[r so]|] eqn:Eo; try done; cbn in E1;
    destruct r as [[x|]|]; cbn in E1; simplify_eq.
  - exists s2. eapply emits_pending; [cbn; rewrite E; cbn; by rewrite Eo|done].
  - exists s2. eapply emits_item; [cbn; rewrite E; cbn; by rewrite Eo|done].
Qed.

Lemma Cycle_emits {S A} (next : machine S A) k s l n :
  yields next k s l -> l <> [] ->
  exists s', emits (Cycle_poll_next next) (s, s) (concat (replicate n l)) s'.
Proof.
  intros Hy Hl. destruct (yields_emits _ _ _ _ Hy) as (s1 & s2 & He & Eend).
  assert (Hn : forall n, exists s', emits (Cycle_poll_next next) (s, s) (concat (replicate n l)) s').
  { clear n. induction n as [|n [s' IH]]; [eexists; constructor|]. simpl.
    destruct n as [|n].
    - exists (s1, s). rewrite app_nil_r. by apply Cycle_once.
    - destruct (Cycle_restart next s1 s2 s (concat (replicate (Datatypes.S n) l)) s' Eend) as [s3 H3];
        [by destruct l|done|].
      exists s3. eapply emits_app; [by apply Cycle_once|done]. }
  apply Hn.
Qed.

(** ** Asynchronous closures *)

Section async.
Context {T Item A B C Fut E : Type}.

(** What the futures a closure makes for the items of a list return, and how
    often they are pending in all. *)
Inductive async_map (f : C -> A -> Fut * C) (fpoll : Fut -> option (poll B * Fut))
    : C -> list A -> nat -> list B -> Prop :=
| async_nil c : async_map f fpoll c [] 0 []
| async_cons c v l fut c' kf b fut' k out :
    f c v = (fut, c') -> completes fpoll kf fut b fut' -> async_map f fpoll c' l k out ->
    async_map f fpoll c (v :: l) (kf + k) (b :: out).

Lemma Then_yields {S} (next : machine S A) f fpoll fuel k s l : (2 <= fuel)%nat ->
  yields next k s l -> forall c kf out, async_map f fpoll c l kf out ->
  yields (Then_poll_next next f fpoll fuel) (k + kf) (s, None, c) out.
Proof.
  intros Hf. destruct fuel as [|[|fuel]]; [lia|lia|]. clear Hf.
  induction 1 as [s s' E1|k s s' l E1 Hy IH|k s s' a l E1 Hy IH]; intros c kf out Ha.
  - inversion Ha; subst. eapply yields_end. one_poll E1.
  - eapply yields_pending; [one_poll E1|by apply IH].
  - inversion Ha as [|? ? ? fut c' kf' b fut' k' out' Efut Hc Ha']; subst.
    replace (k + (kf' + k'))%nat with (kf' + (k + k'))%nat by lia.
    assert (Hin : yields (Then_poll_next next f fpoll (Datatypes.S (Datatypes.S fuel)))
                    (kf' + (k + k')) (s', Some fut, c') (b :: out')).
    { clear Efut Ha. induction Hc as [fut b fut' Ef|kf' fut fut1 b fut' Ef Hc IHc].
      - eapply yields_item; [one_poll Ef|]. by apply IH.
      - eapply yields_pending; [one_poll Ef|]. by apply IHc. }
    apply (yields_same _ _ (s', Some fut, c')); [|done].
    cbn. rewrite E1. cbn. rewrite Efut. done.
Qed.

Inductive unfolds (f : C -> T -> Fut * C) (fpoll : Fut -> option (poll (option (Item * T)) * Fut))
    : C -> T -> nat -> list Item -> Prop :=
| unfolds_stop c x fut c' k fut' :
    f c x = (fut, c') -> completes fpoll k fut None fut' -> unfolds f fpoll c x k []
| unfolds_more c x fut c' k item x' fut' k' l :
    f c x = (fut, c') -> completes fpoll k fut (Some (item, x')) fut' ->
    unfolds f fpoll c' x' k' l -> unfolds f fpoll c x (k + k') (item :: l).

Lemma Unfold_yields f fpoll c x k l :
  unfolds f fpoll c x k l -> yields (Unfold_poll_next f fpoll) k (c, Some x, None) l.
Proof.
  induction 1 as [c x fut c' k fut' Ef Hc|c x fut c' k item x' fut' k' l Ef Hc Hu IH].
  - apply (yields_same _ _ (c', None, Some fut)); [cbn; by rewrite Ef|]. clear Ef.
    remember None as o eqn:Eo.
    induction Hc as [fut t fut' Ep|k fut fut1 t fut' Ep Hc IHc]; subst.
    + eapply yields_end. one_poll Ep.
    + eapply yields_pending; [one_poll Ep|]. by apply IHc.
  - apply (yields_same _ _ (c', None, Some fut)); [cbn; by rewrite Ef|]. clear Ef.
    remember (Some (item, x')) as o eqn:Eo.
    induction Hc as [fut t fut' Ep|k fut fut1 t fut' Ep Hc IHc]; subst.
    + eapply yields_item; [one_poll Ep|]. exact IH.
    + eapply yields_pending; [one_poll Ep|]. by apply IHc.
Qed.

Inductive try_unfolds (f : C -> T -> Fut * C)
    (fpoll : Fut -> option (poll (result (option (Item * T)) E) * Fut))
    : C -> T -> nat -> list (result Item E) -> Prop :=
| try_unfolds_stop c x fut c' k fut' :
    f c x = (fut, c') -> completes fpoll k fut (Ok None) fut' -> try_unfolds f fpoll c x k []
| try_unfolds_error c x fut c' k e fut' :
    f c x = (fut, c') -> completes fpoll k fut (Err e) fut' -> try_unfolds f fpoll c x k [Err e]
| try_unfolds_more c x fut c' k item x' fut' k' l :
    f c x = (fut, c') -> completes fpoll k fut (Ok (Some (item, x'))) fut' ->
    try_unfolds f fpoll c' x' k' l -> try_unfolds f fpoll c x (k + k') (Ok item :: l).

Lemma TryUnfold_yields f fpoll c x k l :
  try_unfolds f fpoll c x k l -> yields (TryUnfold_poll_next f fpoll) k (c, Some x, None) l.
Proof.
  induction 1 as [c x fut c' k fut' Ef Hc|c x fut c' k e fut' Ef Hc
                 |c x fut c' k item x' fut' k' l Ef Hc Hu IH];
    (apply (yields_same _ _ (c', None, Some fut)); [cbn; by rewrite Ef|]); clear Ef.
  - remember (Ok None) as o eqn:Eo.
    induction Hc as [fut t fut' Ep|k fut fut1 t fut' Ep Hc IHc]; subst.
    + eapply yields_end. one_poll Ep.
    + eapply yields_pending; [one_poll Ep|]. by apply IHc.
  - remember (Err e) as o eqn:Eo.
    induction Hc as [fut t fut' Ep|k fut fut1 t fut' Ep Hc IHc]; subst.
    + eapply yields_item; [one_poll Ep|]. by apply (yields_end _ _ (c', None, None)).
    + eapply yields_pending; [one_poll Ep|]. by apply IHc.
  - remember (Ok (Some (item, x'))) as o eqn:Eo.
    induction Hc as [fut t fut' Ep|k fut fut1 t fut' Ep Hc IHc]; subst.
    + eapply yields_item; [one_poll Ep|]. exact IH.
    + eapply yields_pending; [one_poll Ep|]. by apply IHc.
Qed.
End async.

(** ** The futures, on lists *)

Section consumers.
Context {A : Type}.

Lemma consume_drain {X T} (step : X -> A -> X) (fin : X -> option (T * X)) x l :
  list_consume (fun x v => Some (inl (step x v))) fin x l
  = '(t, x) ← fin (foldl step x l); Some (t, x, None).
Proof. revert x. induction l as [|v l IH]; intros x; [done|]. apply IH. Qed.

Lemma foldl_count (n : Z) (l : list A) : foldl (fun n _ => n + 1) n l = n + Z.of_nat (length l).
Proof. revert n. induction l as [|v l IH]; intros n; simpl; [lia|]. rewrite IH. lia. Qed.

Lemma foldl_collect (acc l : list A) : foldl (fun acc e => acc ++ [e]) acc l = acc ++ l.
Proof.
  revert acc. induction l as [|v l IH]; intros acc; simpl; [by rewrite app_nil_r|].
  by rewrite IH, <- (assoc_L (++)).
Qed.

Lemma foldl_last (o : option A) (l : list A) :
  foldl (fun _ new => Some new) o l = match last l with Some v => Some v | None => o end.
Proof.
  revert o. induction l as [|v l IH]; intros o; [done|]. simpl foldl. rewrite IH.
  destruct l as [|w l]; [done|]. change (last (v :: w :: l)) with (last (w :: l)).
  by destruct (last (w :: l)) eqn:E; [|apply last_None in E].
Qed.

(** A fold with a stateful closure. *)
Fixpoint foldS {C T} (f : C -> T -> A -> T * C) (c : C) (t : T) (l : list A) : T :=
  match l with [] => t | v :: l => let '(t, c) := f c t v in foldS f c t l end.

Lemma fold_consume {C T} (f : C -> T -> A -> T * C) c t l :
  exists x', list_consume (fun '((c, acc) : C * option T) v =>
      old ← acc; let '(new, c) := f c old v in Some (inl (c, Some new)))
    (fun '((c, acc) : C * option T) => '(t, acc) ← take_unwrap acc; Some (t, (c, acc))) (c, Some t) l
  = Some (foldS f c t l, x', None).
Proof.
  revert c t. induction l as [|v l IH]; intros c t; simpl; [by exists (c, None)|].
  destruct (f c t v) as [t1 c1]. apply IH.
Qed.

(** The items, split by their answers. *)
Lemma partition_consume {C} (p : C -> A -> bool * C) c a b l :
  exists x', list_consume (fun '((c, res) : C * option (list A * list A)) v =>
      '(l, r) ← res;
      let '(b, c) := p c v in
      Some (inl (c, Some (if b : bool then (l ++ [v], r) else (l, r ++ [v])))))
    (fun '((c, res) : C * option (list A * list A)) => '(t, res) ← take_unwrap res; Some (t, (c, res))) (c, Some (a, b)) l
  = Some ((a ++ selected l (mapS p c l), b ++ selected l (negb <$> mapS p c l)), x', None).
Proof.
  revert c a b. induction l as [|v l IH]; intros c a b; simpl.
  - exists (c, None). by rewrite !app_nil_r.
  - destruct (p c v) as [[] c1]; simpl;
      [destruct (IH c1 (a ++ [v]) b) as [x' E]|destruct (IH c1 a (b ++ [v])) as [x' E]];
      exists x'; (etransitivity; [exact E|]); by rewrite <- (assoc_L (++)).
Qed.

(** Searching: the index of the first [true] answer. *)
Fixpoint first_true (bs : list bool) : option nat :=
  match bs with [] => None | true :: _ => Some 0%nat | false :: bs => Datatypes.S <$> first_true bs end.

Lemma find_consume {C} (p : C -> A -> bool * C) c l :
  exists c', list_consume (fun c v => let '(b, c) := p c v in
      Some (if b : bool then inr (Some v, c) else inl c)) (fun c => Some (None, c)) c l
  = Some (i ← first_true (mapS p c l); l !! i, c',
          (fun i => drop (Datatypes.S i) l) <$> first_true (mapS p c l)).
Proof.
  revert c. induction l as [|v l IH]; intros c; simpl; [by exists c|].
  destruct (p c v) as [[] c1]; simpl; [by exists c1|].
  destruct (IH c1) as [c' ->]. exists c'. by destruct (first_true (mapS p c1 l)).
Qed.

Definition is_some {B} (o : option B) : bool := match o with Some _ => true | None => false end.

Lemma find_map_consume {B C} (f : C -> A -> option B * C) c l :
  exists c', list_consume (fun c v =>
      Some (match f c v with (Some b, c) => inr (Some b, c) | (None, c) => inl c end))
      (fun c => Some (None, c)) c l
  = Some (head (omap id (mapS f c l)), c',
          (fun i => drop (Datatypes.S i) l) <$> first_true (is_some <$> mapS f c l)).
Proof.
  revert c. induction l as [|v l IH]; intros c; simpl; [by exists c|].
  destruct (f c v) as [[b|] c1]; simpl; [by exists c1|].
  destruct (IH c1) as [c' ->]. exists c'. by destruct (first_true _).
Qed.

Lemma position_consume {C} (p : C -> A -> bool * C) c (i : Z) l :
  exists x', list_consume (fun '(c, index) v =>
      let '(b, c) := p c v in
      Some (if b : bool then inr (Some index, (c, index)) else inl (c, index + 1)))
    (fun x => Some (None, x)) (c, i) l
  = Some ((fun j => i + Z.of_nat j) <$> first_true (mapS p c l), x',
          (fun j => drop (Datatypes.S j) l) <$> first_true (mapS p c l)).
Proof.
  revert c i. induction l as [|v l IH]; intros c i; simpl; [by exists (c, i)|].
  destruct (p c v) as [[] c1]; simpl; [exists (c1, i); by rewrite Z.add_0_r|].
  destruct (IH c1 (i + 1)) as [x' ->]. exists x'.
  destruct (first_true (mapS p c1 l)) as [j|]; simpl; [|done]. do 4 f_equal. lia.
Qed.

Lemma any_consume {C} (p : C -> A -> bool * C) c l :
  exists c', list_consume (fun c v => let '(b, c) := p c v in
      Some (if b : bool then inr (true, c) else inl c)) (fun c => Some (false, c)) c l
  = Some (existsb id (mapS p c l), c',
          (fun i => drop (Datatypes.S i) l) <$> first_true (mapS p c l)).
Proof.
  revert c. induction l as [|v l IH]; intros c; simpl; [by exists c|].
  destruct (p c v) as [[] c1]; simpl; [by exists c1|].
  destruct (IH c1) as [c' ->]. exists c'. by destruct (first_true (mapS p c1 l)).
Qed.

Lemma all_consume {C} (p : C -> A -> bool * C) c l :
  exists c', list_consume (fun c v => let '(b, c) := p c v in
      Some (if negb b then inr (false, c) else inl c)) (fun c => Some (true, c)) c l
  = Some (forallb id (mapS p c l), c',
          (fun i => drop (Datatypes.S i) l) <$> first_true (negb <$> mapS p c l)).
Proof.
  revert c. induction l as [|v l IH]; intros c; simpl; [by exists c|].
  destruct (p c v) as [[] c1]; simpl; [|by exists c1].
  destruct (IH c1) as [c' ->]. exists c'. by destruct (first_true _).
Qed.

Lemma nth_consume (n : Z) (l : list A) : 0 <= n ->
  exists n', list_consume (fun n v => Some (if n =? 0 then inr (Some v, n) else inl (n - 1)))
    (fun n => Some (None, n)) n l
  = Some (l !! Z.to_nat n, n',
          if decide (Z.to_nat n < length l)%nat then Some (drop (Datatypes.S (Z.to_nat n)) l) else None).
Proof.
  revert n. induction l as [|v l IH]; intros n Hn; simpl; [by exists n|].
  destruct (Z.eqb_spec n 0) as [->|]; [by exists 0|].
  destruct (IH (n - 1)) as [n' ->]; [lia|]. exists n'.
  replace (Z.to_nat n) with (Datatypes.S (Z.to_nat (n - 1))) by lia. simpl.
  do 2 f_equal. repeat case_decide; (done || lia).
Qed.
End consumers.

Lemma unzip_consume {A B} (a : list A) (b : list B) l :
  list_consume (fun (res : option (list A * list B)) '(a, b) => '(l, r) ← res; Some (inl (Some (l ++ [a], r ++ [b]))))
    take_unwrap (Some (a, b)) l = Some ((a ++ l.*1, b ++ l.*2), None, None).
Proof.
  revert a b. induction l as [|[x y] l IH]; intros a b; simpl; [by rewrite !app_nil_r|].
  etransitivity; [apply IH|]. by rewrite <- !(assoc_L (++)).
Qed.

(** * Properties *)

(** A concrete source, and what it yields. *)
Definition source : list (option Z) := [Some 4; None; Some 7; Some 10; None; None; Some 3].

Lemma script_yields {A} (s : list (option A)) :
  yields script_next (length (List.filter (fun o => match o with None => true | _ => false end) s)) s
    (omap id s).
Proof.
  induction s as [|[a|] s IH]; simpl.
  - by apply (yields_end _ _ []).
  - by eapply yields_item.
  - by eapply yields_pending.
Qed.

Lemma source_yields : yields script_next 3 source [4; 7; 10; 3].
Proof. exact (script_yields source). Qed.

(** Adapters that treat every item: over any source that yields [l] with
    [k] pending answers, [map], [enumerate], [cloned], [inspect] and [fuse]
    yield the mapped, numbered or same list, calling a stateful closure once
    per item in order, pending exactly as often as the source; a fused
    stream that has ended stays ended. *)
Theorem stream_maps {S A B C} (next : machine S A) (k : nat) (s : S) (l : list A) :
  yields next k s l ->
  (forall (f : C -> A -> B * C) c, yields (Map_poll_next next f) k (ext_map s c) (mapS f c l)) /\
  yields (Enumerate_poll_next next) k (ext_enumerate s) (zip (seqZ 0 (Z.of_nat (length l))) l) /\
  yields (Cloned_poll_next next) k (ext_cloned s) l /\
  yields (Copied_poll_next next) k (ext_copied s) l /\
  (forall (f : C -> A -> C) c, yields (Inspect_poll_next next f) k (ext_inspect s c) l) /\
  yields (Fuse_poll_next next) k (ext_fuse s) l /\
  (forall s, Fuse_poll_next next (s, true) = Some (Ready None, (s, true))).
Proof.
  intros Hy. split_and!; intros;
    first [by apply Map_yields|by apply Enumerate_yields|by apply Cloned_yields
          |by apply Inspect_yields|by apply Fuse_yields|by apply Fuse_done].
Qed.

Lemma stream_maps_witness :
  yields script_next 3 source [4; 7; 10; 3] /\
  yields (Map_poll_next script_next (fun (c : Z) a => (a + c, c + 1))) 3 (source, 100) [104; 108; 112; 106] /\
  yields (Enumerate_poll_next script_next) 3 (source, 0) [(0, 4); (1, 7); (2, 10); (3, 3)].
Proof.
  split; [exact source_yields|].
  pose proof (stream_maps (B:=Z) (C:=Z) script_next 3 source _ source_yields) as (Hm & He & _).
  split; [exact (Hm (fun c a => (a + c, c + 1)) 100)|exact He].
Defined.

(** Adapters that end early: [take n], [take_while] and [scan] yield the
    prefix the list functions give, with at most the pending answers of the
    source. *)
Theorem stream_prefixes {S A B C} (next : machine S A) (k : nat) (s : S) (l : list A) :
  yields next k s l ->
  (forall n, 0 <= n -> exists k', (k' <= k)%nat /\
     yields (Take_poll_next next) k' (ext_take s n) (take (Z.to_nat n) l)) /\
  (forall (p : C -> A -> bool * C) c, exists k', (k' <= k)%nat /\
     yields (TakeWhile_poll_next next p) k' (ext_take_while s c) (while_true l (mapS p c l))) /\
  (forall (f : C -> A -> option B * C) c, exists k', (k' <= k)%nat /\
     yields (Scan_poll_next next f) k' (ext_scan s c) (while_some (mapS f c l))).
Proof.
  intros Hy. split_and!; intros.
  - by apply Take_yields.
  - by apply TakeWhile_yields.
  - by apply Scan_yields.
Qed.

Lemma stream_prefixes_witness :
  yields script_next 3 source [4; 7; 10; 3] /\
  exists k', (k' <= 3)%nat /\
    yields (TakeWhile_poll_next script_next (fun (c : unit) a => (a <? 10, c))) k' (source, tt) [4; 7].
Proof.
  split; [exact source_yields|].
  exact (proj1 (proj2 (stream_prefixes (B:=Z) script_next 3 source _ source_yields))
           (fun (c : unit) a => (a <? 10, c)) tt).
Defined.

(** Adapters that skip items: with fuel for one more poll than there are
    items, [filter], [filter_map], [skip n] and [skip_while] yield what the
    list functions give, and [step_by step] the items at the multiples of
    [step], all pending exactly as often as the source. *)
Theorem stream_skips {S A B C} (next : machine S A) (fuel k : nat) (s : S) (l : list A) :
  yields next k s l -> (length l < fuel)%nat ->
  (forall (p : C -> A -> bool * C) c,
     yields (Filter_poll_next next fuel p) k (ext_filter s c) (selected l (mapS p c l))) /\
  (forall (f : C -> A -> option B * C) c,
     yields (FilterMap_poll_next next fuel f) k (ext_filter_map s c) (omap id (mapS f c l))) /\
  (forall n, 0 <= n -> yields (Skip_poll_next next fuel) k (ext_skip s n) (drop (Z.to_nat n) l)) /\
  (forall (p : C -> A -> bool * C) c,
     yields (SkipWhile_poll_next next fuel p) k (ext_skip_while s c) (after_true l (mapS p c l))) /\
  (forall step, match ext_step_by s step with
     | None => step <= 0
     | Some st => exists l', yields (StepBy_poll_next next fuel step) k st l' /\
         forall j, l' !! j = l !! (j * Z.to_nat step)%nat
     end).
Proof.
  intros Hy Hf. split_and!; intros.
  - rewrite <- omapS_filter. by apply skip_loop_yields.
  - rewrite <- omapS_filter_map. by apply skip_loop_yields.
  - destruct (omapS_skip n l) as [<-|]; [|lia]. by apply skip_loop_yields.
  - rewrite <- omapS_skip_while. by apply skip_loop_yields.
  - unfold ext_step_by. destruct (Z.ltb_spec 0 step); [|done].
    eexists. split; [by apply skip_loop_yields|]. intros j. by apply (omapS_step_by step 0).
Qed.

Lemma stream_skips_witness :
  yields script_next 3 source [4; 7; 10; 3] /\
  yields (Filter_poll_next script_next 9 (fun (c : unit) a => (Z.even a, c))) 3 (source, tt) [4; 10] /\
  yields (Skip_poll_next script_next 9) 3 (source, 3) [3].
Proof.
  split; [exact source_yields|].
  pose proof (stream_skips (B:=Z) (C:=unit) script_next 9 3 source _ source_yields ltac:(simpl; lia))
    as (Hf & _ & Hs & _).
  split; [exact (Hf (fun (c : unit) a => (Z.even a, c)) tt)|exact (Hs 3 ltac:(lia))].
Defined.

(** C31: combinations: [chain] yields one list after the other with the
    pending answers of both, [zip] the pairs, [flatten] (over [map],
    [flat_map]) the concatenation of the inner streams, [then] what the
    futures of its closure return, and [cycle] the list over and over. *)
Theorem stream_combines {S S2 A B U C Fut} (next : machine S A) (next2 : machine S2 A)
    (nextb : machine S2 B) (nextu : machine S U) (inner : machine U A) :
  (forall k1 k2 s1 s2 l1 l2, yields next k1 s1 l1 -> yields next2 k2 s2 l2 ->
     yields (Chain_poll_next next next2) (k1 + k2) (ext_chain s1 s2) (l1 ++ l2)) /\
  (forall k1 k2 s1 s2 l1 l2, yields next k1 s1 l1 -> yields nextb k2 s2 l2 ->
     exists k, (k <= k1 + k2)%nat /\
       yields (Zip_poll_next next nextb) k (ext_zip s1 s2) (zip l1 l2)) /\
  (forall fuel us k s, yields nextu k s ((fun x => x.1.2) <$> us) -> inner_ok inner us ->
     (length us < fuel)%nat ->
     yields (Flatten_poll_next nextu inner fuel) (k + pend us) (ext_flatten s) (flat us)) /\
  (forall (f : C -> A -> U * C) fuel us k s l c, yields next k s l ->
     mapS f c l = (fun x => x.1.2) <$> us -> inner_ok inner us -> (length us < fuel)%nat ->
     yields (FlatMap_poll_next next f inner fuel) (k + pend us) (ext_flat_map s c) (flat us)) /\
  (forall (f : C -> A -> Fut * C) (fpoll : Fut -> option (poll B * Fut)) fuel k s l c kf out,
     (2 <= fuel)%nat -> yields next k s l -> async_map f fpoll c l kf out ->
     yields (Then_poll_next next f fpoll fuel) (k + kf) (ext_then s c) out) /\
  (forall k s l n, yields next k s l -> l <> [] ->
     exists s', emits (Cycle_poll_next next) (ext_cycle s) (concat (replicate n l)) s').
Proof.
  split_and!; intros.
  - by apply Chain_yields.
  - by eapply Zip_yields.
  - by apply Flatten_yields.
  - apply Flatten_yields; [|done|done]. rewrite <- H0. by apply Map_yields.
  - by eapply Then_yields.
  - by eapply Cycle_emits.
Qed.

(** [unfold] and [try_unfold] yield what the closure's futures produce one
    from the other; [try_unfold] yields an error once and then ends. *)
Theorem stream_unfolds {T Item E Fut C} (f : C -> T -> Fut * C)
    (fpoll : Fut -> option (poll (option (Item * T)) * Fut))
    (tpoll : Fut -> option (poll (result (option (Item * T)) E) * Fut)) :
  (forall c x k l, unfolds f fpoll c x k l ->
     yields (Unfold_poll_next f fpoll) k (new_unfold x c) l) /\
  (forall c x k l, try_unfolds f tpoll c x k l ->
     yields (TryUnfold_poll_next f tpoll) k (new_try_unfold x c) l).
Proof. split; intros; [by apply Unfold_yields|by apply TryUnfold_yields]. Qed.

(** Futures that consume a whole stream return, after exactly as many
    pending polls as the stream, its length, items, fold, last item,
    the closure called on each item, partition or unzipped halves. *)
Theorem stream_consumers {S A B C T} (next : machine S A) (nextp : machine S (A * B))
    (fuel k : nat) (s : S) :
  (forall l, yields next k s l -> (length l < fuel)%nat ->
     (exists s', completes (CountFuture_poll next fuel) k (ext_count s) (Z.of_nat (length l)) s') /\
     (exists s', completes (CollectFuture_poll next fuel) k (ext_collect s) l s') /\
     (forall (f : C -> T -> A -> T * C) c t, exists s',
        completes (FoldFuture_poll next f fuel) k (ext_fold s t c) (foldS f c t l) s') /\
     (forall (f : C -> A -> C) c, exists s', completes (ForEachFuture_poll next f fuel) k (ext_for_each s c) tt
        (s', foldl f c l)) /\
     (exists s', completes (LastFuture_poll next fuel) k (ext_last s) (last l) s') /\
     (forall (p : C -> A -> bool * C) c, exists s',
        completes (PartitionFuture_poll next p fuel) k (ext_partition s c)
          (selected l (mapS p c l), selected l (negb <$> mapS p c l)) s')) /\
  (forall l, yields nextp k s l -> (length l < fuel)%nat ->
     exists s', completes (UnzipFuture_poll nextp fuel) k (ext_unzip s) (l.*1, l.*2) s').
Proof.
  assert (Hdrain : forall {A' X T'} (nx : machine S A') (step : X -> A' -> X) fin l x t x',
    yields nx k s l -> (length l < fuel)%nat -> fin (foldl step x l) = Some (t, x') ->
    exists s' : S * X, completes (consume nx fuel (fun x v => Some (inl (step x v))) fin) k (s, x) (t : T') s').
  { intros A' X T' nx step fin l x t x' Hy Hf Hfin.
    destruct (consume_completes nx (fun x v => Some (inl (step x v))) fin fuel k s l Hy x t x' None Hf)
      as (k1 & s' & Hc & ->); [by rewrite consume_drain, Hfin|]. by exists (s', x'). }
  split.
  - intros l Hy Hf. split_and!; intros.
    + eapply (Hdrain A Z Z next (fun n _ => n + 1)); [done|done|]. by rewrite foldl_count.
    + eapply (Hdrain A _ _ next (fun c e => c ++ [e])); [done|done|]. by rewrite foldl_collect.
    + destruct (fold_consume f c t l) as [x' E].
      destruct (consume_completes _ _ _ fuel k s l Hy _ _ _ None Hf E) as (k1 & s' & Hc & ->).
      by exists (s', x').
    + destruct (consume_completes next (fun c v => Some (inl (f c v))) (fun c => Some (tt, c))
        fuel k s l Hy c tt (foldl f c l) None Hf) as (k1 & s' & Hc & ->);
        [by rewrite (consume_drain f)|]. by exists s'.
    + eapply (Hdrain A _ _ next (fun _ new => Some new)); [done|done|].
      rewrite foldl_last. by destruct (last l).
    + destruct (partition_consume p c [] [] l) as [x' E].
      destruct (consume_completes _ _ _ fuel k s l Hy _ _ _ None Hf E) as (k1 & s' & Hc & ->).
      by exists (s', x').
  - intros l Hy Hf.
    destruct (consume_completes _ _ _ fuel k s l Hy _ _ _ None Hf (unzip_consume [] [] l))
      as (k1 & s' & Hc & ->). by exists (s', None).
Qed.

(** What is left of the stream when a search ends. *)
Definition leftover {S A} (next : machine S A) (k k1 : nat) (s' : S) (rest : option (list A)) : Prop :=
  match rest with
  | None => k1 = k
  | Some l' => exists k2, k = (k1 + k2)%nat /\ yields next k2 s' l'
  end.

(** Searches: [nth], [find], [position], [find_map], [any] and [all] return what the
    list search returns; they stop at the item that decides, and the stream
    still has the items after it. *)
Theorem stream_searches {S A C} (next : machine S A) (fuel k : nat) (s : S) (l : list A) :
  yields next k s l -> (length l < fuel)%nat ->
  (forall n, 0 <= n -> exists k1 s' n', completes (NthFuture_poll next fuel) k1 (ext_nth s n) (l !! Z.to_nat n) (s', n') /\
     leftover next k k1 s' (if decide (Z.to_nat n < length l)%nat
                            then Some (drop (Datatypes.S (Z.to_nat n)) l) else None)) /\
  (forall (p : C -> A -> bool * C) c, exists k1 s' c',
     completes (FindFuture_poll next p fuel) k1 (ext_find s c) (i ← first_true (mapS p c l); l !! i) (s', c') /\
     leftover next k k1 s' ((fun i => drop (Datatypes.S i) l) <$> first_true (mapS p c l))) /\
  (forall (p : C -> A -> bool * C) c, exists k1 s' c',
     completes (PositionFuture_poll next p fuel) k1 (ext_position s c) (Z.of_nat <$> first_true (mapS p c l)) (s', c') /\
     leftover next k k1 s' ((fun i => drop (Datatypes.S i) l) <$> first_true (mapS p c l))) /\
  (forall (f : C -> A -> option A * C) c, exists k1 s' c',
     completes (FindMapFuture_poll next f fuel) k1 (ext_find_map s c) (head (omap id (mapS f c l))) (s', c') /\
     leftover next k k1 s'
       ((fun i => drop (Datatypes.S i) l) <$> first_true (is_some <$> mapS f c l))) /\
  (forall (p : C -> A -> bool * C) c, exists k1 s' c',
     completes (AnyFuture_poll next p fuel) k1 (ext_any s c) (existsb id (mapS p c l)) (s', c') /\
     leftover next k k1 s' ((fun i => drop (Datatypes.S i) l) <$> first_true (mapS p c l))) /\
  (forall (p : C -> A -> bool * C) c, exists k1 s' c',
     completes (AllFuture_poll next p fuel) k1 (ext_all s c) (forallb id (mapS p c l)) (s', c') /\
     leftover next k k1 s' ((fun i => drop (Datatypes.S i) l) <$> first_true (negb <$> mapS p c l))).
Proof.
  intros Hy Hf.
  assert (Hc : forall {X T} (body : X -> A -> option (X + (T * X))) fin x t x' left,
    list_consume body fin x l = Some (t, x', left) ->
    exists k1 s' x', completes (consume next fuel body fin) k1 (s, x) t (s', x') /\
      leftover next k k1 s' left).
  { intros X T body fin x t x' left E.
    destruct (consume_completes next body fin fuel k s l Hy x t x' left Hf E) as (k1 & s' & Hc & Hl).
    by exists k1, s', x'. }
  split_and!.
  - intros n Hn. destruct (nth_consume n l Hn) as [n' E]. by eapply Hc.
  - intros p c. destruct (find_consume p c l) as [c' E]. by eapply Hc.
  - intros p c. destruct (position_consume p c 0 l) as [x' E]. by eapply Hc.
  - intros f c. destruct (find_map_consume f c l) as [c' E]. by eapply Hc.
  - intros p c. destruct (any_consume p c l) as [c' E]. by eapply Hc.
  - intros p c. destruct (all_consume p c l) as [c' E]. by eapply Hc.
Qed.

Lemma stream_searches_witness :
  yields script_next 3 source [4; 7; 10; 3] /\
  exists k1 s' c', completes (FindFuture_poll script_next (fun (c : unit) a => (5 <? a, c)) 9) k1
      (source, tt) (Some 7) (s', c') /\
    leftover script_next 3 k1 s' (Some [10; 3]).
Proof.
  split; [exact source_yields|].
  exact (proj1 (proj2 (stream_searches (C:=unit) script_next 9 3 source _ source_yields ltac:(simpl; lia)))
    (fun (c : unit) a => (5 <? a, c)) tt).
Defined.

(** The results of a list of fallible items. *)
Fixpoint all_ok {A E} (l : list (result A E)) : result (list A) E :=
  match l with
  | [] => Ok []
  | Ok x :: l => match all_ok l with Ok xs => Ok (x :: xs) | Err e => Err e end
  | Err e :: _ => Err e
  end.
Fixpoint try_foldl {A B C E} (f : C -> B -> A -> result B E * C) (c : C) (b : B)
    (l : list (result A E)) : result B E :=
  match l with
  | [] => Ok b
  | Ok x :: l => match f c b x with (Ok b, c) => try_foldl f c b l | (Err e, _) => Err e end
  | Err e :: _ => Err e
  end.
Fixpoint try_each {A C E} (f : C -> A -> result unit E * C) (c : C) (l : list A) : result unit E :=
  match l with
  | [] => Ok tt
  | x :: l => match f c x with (Ok _, c) => try_each f c l | (Err e, _) => Err e end
  end.

Lemma try_collect_consume {A E} (items : list A) (l : list (result A E)) :
  exists x' left, list_consume (fun items x =>
      Some (match x with Ok x => inl (items ++ [x]) | Err e => inr (Err e, items) end))
    (fun items => Some (Ok items, [])) items l
  = Some (match all_ok l with Ok xs => Ok (items ++ xs) | Err e => Err e end, x', left).
Proof.
  revert items. induction l as [|[x|e] l IH]; intros items; simpl.
  - rewrite app_nil_r. eauto.
  - destruct (IH (items ++ [x])) as (x' & left & ->). exists x', left.
    destruct (all_ok l); [|done]. by rewrite <- (assoc_L (++)).
  - eauto.
Qed.

Lemma try_fold_consume {A B C E} (f : C -> B -> A -> result B E * C) c b (l : list (result A E)) :
  exists x' left, list_consume (fun '((c, acc) : C * option B) x =>
      match x with
      | Err e => Some (inr (Err e, (c, acc)))
      | Ok t => old ← acc;
                Some (match f c old t with
                      | (Ok b, c) => inl (c, Some b)
                      | (Err e, c) => inr (Err e, (c, None))
                      end)
      end) (fun '((c, acc) : C * option B) => '(b, acc) ← take_unwrap acc; Some (Ok b, (c, acc))) (c, Some b) l
  = Some (try_foldl f c b l, x', left).
Proof.
  revert c b. induction l as [|[x|e] l IH]; intros c b; simpl; [eauto| |eauto].
  destruct (f c b x) as [[b'|e] c']; [apply IH|eauto].
Qed.

Lemma try_each_consume {A C E} (f : C -> A -> result unit E * C) c (l : list A) :
  exists x' left, list_consume (fun c v =>
      Some (match f c v with (Ok _, c) => inl c | (Err e, c) => inr (Err e, c) end))
    (fun c => Some (Ok tt, c)) c l = Some (try_each f c l, x', left).
Proof.
  revert c. induction l as [|x l IH]; intros c; simpl; [eauto|].
  destruct (f c x) as [[[]|e] c']; [apply IH|eauto].
Qed.

(** The fallible futures [try_collect], [try_fold] and [try_for_each]
    return the first error, or the result over the whole stream if there is
    none; [try_next] returns the next item or its error. *)
Theorem stream_try {S A B C E} (next : machine S (result A E)) (nexta : machine S A)
    (fuel k : nat) (s : S) :
  (forall l, yields next k s l -> (length l < fuel)%nat ->
     (exists k1 s', completes (TryCollectFuture_poll next fuel) k1 (ext_try_collect s) (all_ok l) s') /\
     (forall (f : C -> B -> A -> result B E * C) c b, exists k1 s',
        completes (TryFoldFuture_poll next f fuel) k1 (ext_try_fold s b c) (try_foldl f c b l) s')) /\
  (forall r s', next s = Some (r, s') -> TryNextFuture_poll next (ext_try_next s)
     = Some (match r with
             | Pending => Pending
             | Ready None => Ready (Ok None)
             | Ready (Some (Ok x)) => Ready (Ok (Some x))
             | Ready (Some (Err e)) => Ready (Err e)
             end, s')) /\
  (forall l, yields nexta k s l -> (length l < fuel)%nat ->
     forall (f : C -> A -> result unit E * C) c, exists k1 s',
        completes (TryForEachFuture_poll nexta f fuel) k1 (ext_try_for_each s c) (try_each f c l) s').
Proof.
  split_and!.
  - intros l Hy Hf. split.
    + destruct (try_collect_consume [] l) as (x' & left & Ec).
      destruct (consume_completes _ _ _ fuel k s l Hy _ _ _ _ Hf Ec) as (k1 & s' & Hc & _).
      exists k1, (s', x'). unfold TryCollectFuture_poll. by destruct (all_ok l).
    + intros f c b. destruct (try_fold_consume f c b l) as (x' & left & Ec).
      destruct (consume_completes _ _ _ fuel k s l Hy _ _ _ _ Hf Ec) as (k1 & s' & Hc & _).
      by exists k1, (s', x').
  - intros r s' En. unfold TryNextFuture_poll, ext_try_next. rewrite En.
    by destruct r as [[[x|e]|]|].
  - intros l Hy Hf f c. destruct (try_each_consume f c l) as (x' & left & Ec).
    destruct (consume_completes _ _ _ fuel k s l Hy _ _ _ _ Hf Ec) as (k1 & s' & Hc & _).
    by exists k1, (s', x').
Qed.

(** C32: merging two streams is not symmetric about the end.  [race] never
    reports the end of the stream, whatever the coin: once both streams have
    ended it answers [Pending] for ever, although no source is pending.
    [or], whenever its first stream is pending, forwards the end of the
    second one, before the first stream has produced its items. *)
Theorem stream_merges_end :
  (forall S1 S2 A (next1 : machine S1 A) (next2 : machine S2 A) coin st st',
     Race_poll_next next1 next2 coin st <> Some (Ready None, st')) /\
  (forall A coin, Race_poll_next (@script_next A) script_next coin (new_race [] []) = Some (Pending, ([], []))) /\
  (exists s1 s2 st', yields script_next 1 s1 [7] /\ yields script_next 0 s2 [] /\
     Or_poll_next script_next script_next (new_or s1 s2) = Some (Ready (@None Z), st')).
Proof.
  split_and!.
  - intros S1 S2 A next1 next2 coin [s1 s2] st'. unfold Race_poll_next.
    destruct coin; [destruct (next1 s1) as [[[[|]|] ?]|]|destruct (next2 s2) as [[[[|]|] ?]|]];
      simpl; try done;
      [destruct (next2 s2) as [[[[|]|] ?]|]|destruct (next2 s2) as [[[[|]|] ?]|]
      |destruct (next1 s1) as [[[[|]|] ?]|]|destruct (next1 s1) as [[[[|]|] ?]|]]; simpl; done.
  - by intros A [].
  - exists [None; Some 7], [], ([Some 7], []). split_and!; [|by apply (yields_end _ _ [])|done].
    exact (script_yields [None; Some 7]).
Qed.

(** When the first stream never pends and keeps answering [None] after its
    end, [or] is the concatenation. *)
Lemma Or_yields {S1 S2 A} (next1 : machine S1 A) (next2 : machine S2 A) s1 l1 :
  yields next1 0 s1 l1 -> (forall s s', next1 s = Some (Ready None, s') -> next1 s' = Some (Ready None, s')) ->
  forall k2 s2 l2, yields next2 k2 s2 l2 ->
  yields (Or_poll_next next1 next2) k2 (s1, s2) (l1 ++ l2).
Proof.
  intros H1 Hfuse k2 s2 l2 H2. remember 0%nat as k1 eqn:Ek.
  induction H1 as [s s' E|k s s' l E Hy IH|k s s' a l E Hy IH]; [|done|].
  - simpl. pose proof (Hfuse _ _ E) as E'.
    apply (yields_same _ _ (s', s2)); [cbn; by rewrite E, E'|]. clear E.
    induction H2 as [t t' E2|k2 t t' l E2 Hy2 IH2|k2 t t' a l E2 Hy2 IH2].
    + eapply yields_end. cbn. rewrite E'. cbn. by rewrite E2.
    + eapply yields_pending; [cbn; rewrite E'; cbn; by rewrite E2|exact IH2].
    + eapply yields_item; [cbn; rewrite E'; cbn; by rewrite E2|exact IH2].
  - simpl. eapply yields_item; [one_poll E|by apply IH].
Qed.

(** ** Sources *)

Lemma Iter_source {T} k (s l : list T) : yields Iter_poll_next k s l -> l = s.
Proof.
  induction 1 as [s s' E|k s s' l E _ IH|k s s' a l E _ IH]; destruct s; by simplify_eq/=.
Qed.

Lemma Once_source {T} k (o : option T) l :
  yields Once_poll_next k o l -> l = match o with Some t => [t] | None => [] end.
Proof.
  induction 1 as [s s' E|k s s' l E _ IH|k s s' a l E _ IH]; inversion E; subst; done.
Qed.

Lemma Pending_never {T} k s l : ~ yields (@Pending_poll_next T) k s l.
Proof. induction 1 as [s s' E|k s s' l E _ IH|k s s' a l E _ _]; [discriminate|done|discriminate]. Qed.

Lemma Repeat_never {T} k s l : ~ yields (@Repeat_poll_next T) k s l.
Proof. induction 1 as [s s' E|k s s' l E _ IH|k s s' a l E _ IH]; [discriminate|discriminate|done]. Qed.

(** Sources: [iter] yields its list, [once] one item, [empty] none,
    without ever pending; [pending] never answers; [repeat] and
    [repeat_with] produce as many items as are asked for, calling the closure
    once for each. *)
Theorem stream_sources {T C} :
  (forall l : list T, yields Iter_poll_next 0 (new_iter l) l) /\
  (forall t : T, yields Once_poll_next 0 (new_once t) [t]) /\
  yields (@Empty_poll_next T) 0 new_empty [] /\
  (forall k l, ~ yields (@Pending_poll_next T) k new_pending l) /\
  (forall (t : T) n, emits Repeat_poll_next (new_repeat t) (replicate n t) t) /\
  (forall (f : C -> T * C) c n, exists c',
     emits (RepeatWith_poll_next f) (new_repeat_with c) (mapS (fun c (_ : unit) => f c) c (replicate n tt)) c') /\
  (forall (f : C -> poll (option T) * C) c, PollFn_poll_next f (new_poll_fn c) = Some (f c)).
Proof.
  split_and!.
  - induction l as [|t l IH]; [by eapply yields_end|by eapply yields_item].
  - intros t. eapply yields_item; [done|]. by eapply yields_end.
  - by eapply yields_end.
  - intros k l. apply Pending_never.
  - intros t n. apply Repeat_emits.
  - intros f c n. revert c. induction n as [|n IH]; intros c; simpl; [eauto with stream|].
    destruct (f c) as [t c1] eqn:E. destruct (IH c1) as [c' Hc']. exists c'.
    eapply emits_item; [|exact Hc']. unfold RepeatWith_poll_next, new_repeat_with. by rewrite E.
  - done.
Qed.

(** ** Size hints *)

(** A hint that holds: between the lower and the upper bound are to come. *)
Definition hint_ok {S A} (next : machine S A) (hint : S -> size_hint) (s : S) : Prop :=
  forall k l, yields next k s l ->
  fst (hint s) <= Z.of_nat (length l) /\
  match snd (hint s) with Some u => Z.of_nat (length l) <= u | None => True end.

Lemma Map_source {S A B C} (next : machine S A) (f : C -> A -> B * C) k st out :
  yields (Map_poll_next next f) k st out ->
  exists l, yields next k st.1 l /\ length out = length l.
Proof.
  induction 1 as [[s c] st' E|k [s c] st' l E _ IH|k [s c] st' b l E _ IH]; cbn in E;
    destruct (next s) as [[[[x|]|] s']|] eqn:En; simplify_eq/=;
    try (destruct (f c x) as [b' c'] eqn:Ef; simplify_eq/=);
    try (destruct IH as (l' & Hy & Hl)).
  - exists []. split; [by eapply yields_end|done].
  - exists l'. split; [by eapply yields_pending|done].
  - exists (x :: l'). split; [by eapply yields_item|simpl; lia].
Qed.

(** What [then] yields is made of what its source yields and the future it
    is waiting for. *)
Lemma Then_source {S A B C Fut} (next : machine S A) (f : C -> A -> Fut * C)
    (fpoll : Fut -> option (poll B * Fut)) fuel k st out :
  yields (Then_poll_next next f fpoll fuel) k st out ->
  exists k' l, yields next k' st.1.1 l /\
    length out = (length l + match st.1.2 with Some _ => 1 | None => 0 end)%nat.
Proof.
  assert (Hwait : forall fuel s fut c, Then_poll_next next f fpoll fuel (s, Some fut, c)
    = match fuel with
      | O => None
      | _ => '(r, fut) ← fpoll fut;
             ready r (s, Some fut, c) (fun item => Some (Ready (Some item), (s, None, c)))
      end) by (intros [|?] s fut c; done).
  induction 1 as [st st' E|k st st' l E _ IH|k st st' a l E _ IH];
    destruct st as [[s fut] c]; destruct fuel as [|fuel]; try done; cbn [fst snd];
    (destruct fut as [fut|];
     [rewrite Hwait in E; destruct (fpoll fut) as [[[b|] fut']|]; simplify_eq/=;
      destruct IH as (k' & l' & Hy & Hl)
     |cbn [Then_poll_next] in E; destruct (next s) as [[[[x|]|] s']|] eqn:En; simplify_eq/=;
      try (destruct (f c x) as [fut c1]; rewrite Hwait in E;
           destruct fuel as [|fuel]; [done|];
           destruct (fpoll fut) as [[[b|] fut']|]; simplify_eq/=);
      try (destruct IH as (k' & l' & Hy & Hl))]).
  all: try (by eexists _, _; split; [eassumption|simpl in *; lia]).
  - exists 0%nat, []. split; [by eapply yields_end|done].
  - exists k', (x :: l'). split; [by eapply yields_item|simpl in *; lia].
  - exists (Datatypes.S k'), l'. split; [by eapply yields_pending|done].
  - exists k', (x :: l'). split; [by eapply yields_item|simpl in *; lia].
Qed.


(** ** Blocking iteration *)

(** The items the iterator [BlockOn] returns, up to its [None]. *)
Inductive iterates {S A} (next : machine S A) (fuel : nat) : S -> list A -> Prop :=
| iterates_end s s' : BlockOn_next next fuel s = Some (None, s') -> iterates next fuel s []
| iterates_item s s' a l :
    BlockOn_next next fuel s = Some (Some a, s') -> iterates next fuel s' l ->
    iterates next fuel s (a :: l).

Lemma block_on_fuel {St T} (poll_ : St -> option (poll T * St)) n m st r :
  (n <= m)%nat -> block_on poll_ n st = Some r -> block_on poll_ m st = Some r.
Proof.
  revert m st. induction n as [|n IH]; intros [|m] st Hn; simpl; try done; [lia|].
  destruct (poll_ st) as [[[t|] st']|]; simpl; [done| |done]. apply IH. lia.
Qed.

(** [stream::block_on] is an iterator over what the stream yields: with
    fuel for every pending poll, each call returns the next item, and the
    last one [None]. *)
Theorem stream_iterates {S A} (next : machine S A) (fuel k : nat) (s : S) (l : list A) :
  yields next k s l -> (k < fuel)%nat -> iterates next fuel s l.
Proof.
  intros Hy. revert fuel.
  induction Hy as [s s' E|k s s' l E Hy IH|k s s' a l E Hy IH]; intros [|fuel] Hf; try lia.
  - eapply iterates_end. unfold BlockOn_next, NextFuture_poll. simpl. by rewrite E.
  - assert (Hb : forall r, BlockOn_next next fuel s' = Some r -> BlockOn_next next (Datatypes.S fuel) s = Some r).
    { intros r Hr. unfold BlockOn_next, NextFuture_poll in *. simpl. by rewrite E. }
    assert (Hi : forall s l, iterates next fuel s l -> iterates next (Datatypes.S fuel) s l).
    { induction 1; [eapply iterates_end|eapply iterates_item]; try done;
        (eapply block_on_fuel; [|eassumption]; lia). }
    specialize (IH fuel ltac:(lia)). inversion IH as [? s2 E2|? s2 a l2 E2 Hi2]; subst.
    + eapply iterates_end. by apply Hb.
    + eapply iterates_item; [by apply Hb|by apply Hi].
  - eapply iterates_item; [|apply IH; lia]. unfold BlockOn_next, NextFuture_poll. simpl. by rewrite E.
Qed.

Lemma stream_iterates_witness : iterates script_next 4 source [4; 7; 10; 3].
Proof. exact (stream_iterates script_next 4 3 source _ source_yields ltac:(lia)). Defined.


Lemma stream_consumers_witness :
  exists s', completes (CountFuture_poll script_next 9) 3 (ext_count source) 4 s'.
Proof.
  pose proof (stream_consumers (B:=Z) (C:=unit) (T:=Z) script_next (fun s : list (option Z) => Some (Ready None, s))
    9 3 source) as [H _].
  exact (proj1 (H [4; 7; 10; 3] source_yields ltac:(simpl; lia))).
Defined.

Lemma stream_try_witness :
  exists k1 s', completes (TryCollectFuture_poll script_next 9) k1
    (ext_try_collect [Some (Ok 1); None; Some (Err 2); Some (Ok 3)]) (Err (T:=list Z) 2) s'.
Proof.
  pose proof (stream_try (B:=Z) (C:=unit) (A:=Z) (E:=Z) script_next
    (fun s : list (option (result Z Z)) => Some (Ready None, s)) 9 1
    [Some (Ok 1); None; Some (Err 2); Some (Ok 3)]) as [H _].
  exact (proj1 (H [Ok 1; Err 2; Ok 3] (script_yields [Some (Ok 1); None; Some (Err 2); Some (Ok 3)])
    ltac:(simpl; lia))).
Defined.

Lemma stream_combines_witness :
  yields (Chain_poll_next script_next script_next) 6 (ext_chain source source)
    ([4; 7; 10; 3] ++ [4; 7; 10; 3]).
Proof.
  pose proof (stream_combines (B:=Z) (C:=unit) (U:=unit) (Fut:=unit) (A:=Z) script_next script_next
    script_next (fun s => Some (Ready None, s)) (@Empty_poll_next Z)) as [H _].
  exact (H 3%nat 3%nat source source _ _ source_yields source_yields).
Defined.

(** A closure whose futures are ready at once, counting down. *)
Lemma stream_unfolds_witness :
  yields (Unfold_poll_next (fun (c : unit) (x : Z) => (x, c))
    (fun x => Some (Ready (if x =? 0 then None else Some (x, x - 1)), x))) 0 (new_unfold 2 tt) [2; 1].
Proof.
  pose proof (stream_unfolds (E:=unit) (fun (c : unit) (x : Z) => (x, c))
    (fun x => Some (Ready (if x =? 0 then None else Some (x, x - 1)), x))
    (fun x => Some (Ready (Ok None), x))) as [H _].
  apply H.
  apply (unfolds_more _ _ tt 2 2 tt 0 2 1 2 0); [done|by apply completes_ready|].
  apply (unfolds_more _ _ tt 1 1 tt 0 1 0 1 0); [done|by apply completes_ready|].
  apply (unfolds_stop _ _ tt 0 0 tt 0 0); [done|by apply completes_ready].
Defined.
