(* ===== verification/Io.v ===== *)
(** [future/swap.rs], part 1: the I/O traits, what their implementations
    promise each other, and the basic readers and writers.

    A trait is a class of operations: a poll takes the object, and the buffer
    it is to fill, and returns the answer, the object and the buffer as they
    are left ([None] is a panic).  A buffer is the list of its bytes, so what
    a reader leaves in the part it did not fill is in the model.  The
    contracts [AsyncReadOk], [AsyncBufReadOk] and [AsyncWriteOk] are what the
    adapters rely on and what they promise in turn: an object in a state
    [rep r data fin k] has still to deliver [data], then ends ([fin = None])
    or fails, and answers [Pending] at most [k] more times. *)

From S2P Require Import Prelude Stream.

Abbreviation bytes := (list Z).
Abbreviation zlen l := (Z.of_nat (length l)).
Abbreviation ztake n l := (take (Z.to_nat n) l).
Abbreviation zdrop n l := (drop (Z.to_nat n) l).

(** [std::io::ErrorKind]; messages are not modelled. *)
Inductive ErrorKind : Type :=
| Interrupted
| UnexpectedEof
| WriteZero
| InvalidData
| InvalidInput
| OtherError (code : Z).

#[export] Instance ErrorKind_eq_dec : EqDecision ErrorKind.
Proof. solve_decision. Defined.

Abbreviation ioresult T := (result T ErrorKind).

(** [std::io::SeekFrom]: [Start] takes a [u64], the others an [i64]. *)
Inductive SeekFrom : Type :=
| Start (n : Z)
| End_ (n : Z)
| Current (n : Z).

(** [ready!(r)?]: pending and errors return at once, in state [st]. *)
Definition ready_ok {X T St} (r : poll (ioresult X)) (st : St)
    (k : X -> option (poll (ioresult T) * St)) : option (poll (ioresult T) * St) :=
  ready r st (fun x => match x with Ok v => k v | Err e => Some (Ready (Err e), st) end).

(** [&buf[i..j]], which panics outside the buffer. *)
Definition slice (i j : Z) (b : bytes) : option bytes :=
  if (0 <=? i) && (i <=? j) && (j <=? zlen b) then Some (ztake (j - i) (zdrop i b)) else None.

(** * The traits of [futures_io] *)

Class AsyncRead (R : Type) := {
  poll_read : R -> bytes -> option (poll (ioresult Z) * (R * bytes));
  poll_read_vectored : R -> list bytes -> option (poll (ioresult Z) * (R * list bytes)) }.

Class AsyncBufRead (R : Type) := {
  poll_fill_buf : R -> option (poll (ioresult bytes) * R);
  consume : R -> Z -> option R }.

Class AsyncWrite (W : Type) := {
  poll_write : W -> bytes -> option (poll (ioresult Z) * W);
  poll_write_vectored : W -> list bytes -> option (poll (ioresult Z) * W);
  poll_flush : W -> option (poll (ioresult unit) * W);
  poll_close : W -> option (poll (ioresult unit) * W) }.

Class AsyncSeek (S : Type) := poll_seek : S -> SeekFrom -> option (poll (ioresult Z) * S).

(** The trait's own [poll_read_vectored]: the first buffer that is not empty,
    or no buffer at all. *)
Fixpoint read_first_buf {R} (rd : R -> bytes -> option (poll (ioresult Z) * (R * bytes)))
    (r : R) (bufs : list bytes) : option (poll (ioresult Z) * (R * list bytes)) :=
  match bufs with
  | [] => '(p, (r, _)) ← rd r []; Some (p, (r, []))
  | [] :: bufs => '(p, (r, bufs)) ← read_first_buf rd r bufs; Some (p, (r, [] :: bufs))
  | b :: bufs => '(p, (r, b)) ← rd r b; Some (p, (r, b :: bufs))
  end.

Fixpoint write_first_buf {W} (wr : W -> bytes -> option (poll (ioresult Z) * W))
    (w : W) (bufs : list bytes) : option (poll (ioresult Z) * W) :=
  match bufs with
  | [] => wr w []
  | [] :: bufs => write_first_buf wr w bufs
  | b :: _ => wr w b
  end.

(** * The contracts *)

Abbreviation repr R := (R -> bytes -> option ErrorKind -> nat -> Prop).

(** What a read into [buf] that left [buf'] may answer when [data] then [fin]
    are to come. *)
Definition read_answer {R} (rep : repr R) (data : bytes) (fin : option ErrorKind) (k : nat)
    (room : Z) (out : bytes) (p : poll (ioresult Z)) (r' : R) : Prop :=
  match p with
  | Pending => exists k', (k' < k)%nat /\ rep r' data fin k'
  | Ready (Ok n) =>
      0 <= n <= room /\ n <= zlen data /\ ztake n out = ztake n data /\
      (n = 0 -> room = 0 \/ (data = [] /\ fin = None)) /\
      exists k', (k' <= k)%nat /\ rep r' (zdrop n data) fin k'
  | Ready (Err e) => data = [] /\ fin = Some e /\ exists k', (k' <= k)%nat /\ rep r' data fin k'
  end.

Class AsyncReadOk (R : Type) `{!AsyncRead R} (rep : repr R) : Prop :=
  poll_read_ok r data fin k buf : rep r data fin k ->
    exists p r' buf', poll_read r buf = Some (p, (r', buf')) /\ length buf' = length buf /\
      read_answer rep data fin k (zlen buf) buf' p r'.

(** A vectored read fills the buffers in order, as if they were one. *)
Class AsyncReadVectoredOk (R : Type) `{!AsyncRead R} (rep : repr R) : Prop :=
  poll_read_vectored_ok r data fin k bufs : rep r data fin k ->
    exists p r' bufs', poll_read_vectored r bufs = Some (p, (r', bufs')) /\
      length <$> bufs' = length <$> bufs /\
      read_answer rep data fin k (zlen (concat bufs)) (concat bufs') p r'.

(** A buffered reader shows a part of what is to come, shows it again when
    asked again, and skips what is consumed of it. *)
Definition fill_answer {R} `{!AsyncBufRead R} (rep : repr R) (data : bytes)
    (fin : option ErrorKind) (k : nat) (p : poll (ioresult bytes)) (r' : R) : Prop :=
  match p with
  | Pending => exists k', (k' < k)%nat /\ rep r' data fin k'
  | Ready (Ok bs) =>
      bs `prefix_of` data /\ (bs = [] -> data = [] /\ fin = None) /\
      (bs <> [] -> poll_fill_buf r' = Some (Ready (Ok bs), r')) /\
      exists k', (k' <= k)%nat /\ rep r' data fin k' /\
        forall n, 0 <= n <= zlen bs -> exists r'', consume r' n = Some r'' /\ rep r'' (zdrop n data) fin k'
  | Ready (Err e) => data = [] /\ fin = Some e /\ exists k', (k' <= k)%nat /\ rep r' data fin k'
  end.

Class AsyncBufReadOk (R : Type) `{!AsyncBufRead R} (rep : repr R) : Prop := {
  poll_fill_buf_ok r data fin k : rep r data fin k ->
    exists p r', poll_fill_buf r = Some (p, r') /\ fill_answer rep data fin k p r';
  consume_0_ok r data fin k : rep r data fin k ->
    exists r', consume r 0 = Some r' /\ rep r' data fin k }.

(** [rep w out k]: the writer has accepted [out] so far, and answers
    [Pending] or [Interrupted] at most [k] more times. *)
Abbreviation wrepr W := (W -> bytes -> nat -> Prop).

Definition write_answer {W} (rep : wrepr W) (out : bytes) (k : nat) (b : bytes)
    (p : poll (ioresult Z)) (w' : W) : Prop :=
  match p with
  | Pending => exists k', (k' < k)%nat /\ rep w' out k'
  | Ready (Ok n) => 0 <= n <= zlen b /\ exists k', (k' <= k)%nat /\ rep w' (out ++ ztake n b) k'
  | Ready (Err e) =>
      exists k', (k' <= k)%nat /\ (e = Interrupted -> (k' < k)%nat) /\ rep w' out k'
  end.

Definition flush_answer {W} (rep : wrepr W) (out : bytes) (k : nat)
    (p : poll (ioresult unit)) (w' : W) : Prop :=
  exists k', (k' <= k)%nat /\ (p = Pending -> (k' < k)%nat) /\ rep w' out k'.

Class AsyncWriteOk (W : Type) `{!AsyncWrite W} (rep : wrepr W) : Prop := {
  poll_write_ok w out k b : rep w out k ->
    exists p w', poll_write w b = Some (p, w') /\ write_answer rep out k b p w';
  poll_flush_ok w out k : rep w out k ->
    exists p w', poll_flush w = Some (p, w') /\ flush_answer rep out k p w';
  poll_close_ok w out k : rep w out k ->
    exists p w', poll_close w = Some (p, w') /\ flush_answer rep out k p w' }.

(** A writer that fails: it takes nothing of some bytes, or an error comes
    out of a write or a flush. *)
Definition writer_fails {W} `{!AsyncWrite W} (rep : wrepr W) : Prop :=
  exists w out k, rep w out k /\
    ((exists b p w', b <> [] /\ poll_write w b = Some (Ready p, w') /\ (p = Ok 0 \/ exists e, p = Err e)) \/
     (exists e w', poll_flush w = Some (Ready (Err e), w'))).

Lemma write_fails {W} `{!AsyncWrite W} (rep : wrepr W) w out k b p w' :
  rep w out k -> b <> [] -> poll_write w b = Some (Ready p, w') -> p = Ok 0 \/ (exists e, p = Err e) ->
  writer_fails rep.
Proof. intros. exists w, out, k. split; [done|]. left. by exists b, p, w'. Qed.

Lemma flush_fails {W} `{!AsyncWrite W} (rep : wrepr W) w out k e w' :
  rep w out k -> poll_flush w = Some (Ready (Err e), w') -> writer_fails rep.
Proof. intros. exists w, out, k. split; [done|]. right. by exists e, w'. Qed.

(** * Reading out of a slice: [Read for &[u8]] *)

Definition slice_read (rem buf : bytes) : Z * bytes * bytes :=
  let n := Z.min (zlen rem) (zlen buf) in
  (n, zdrop n rem, ztake n rem ++ zdrop n buf).

(** [read_vectored] fills one buffer after the other, until nothing is left. *)
Fixpoint slice_read_vectored (rem : bytes) (bufs : list bytes) : Z * bytes * list bytes :=
  match bufs with
  | [] => (0, rem, [])
  | b :: bufs =>
      let '(n, rem, b) := slice_read rem b in
      match rem with
      | [] => (n, rem, b :: bufs)
      | _ => let '(m, rem, bufs) := slice_read_vectored rem bufs in (n + m, rem, b :: bufs)
      end
  end.

Lemma slice_read_spec rem buf : exists n buf',
  slice_read rem buf = (n, zdrop n rem, buf') /\ n = Z.min (zlen rem) (zlen buf) /\
  length buf' = length buf /\ ztake n buf' = ztake n rem.
Proof.
  eexists _, _. split; [done|]. split; [done|].
  assert (E : length (ztake (Z.min (zlen rem) (zlen buf)) rem) = Z.to_nat (Z.min (zlen rem) (zlen buf)))
    by (rewrite length_take; lia).
  split; [rewrite length_app, E, length_drop; lia|].
  rewrite take_app_le by lia. apply take_ge. lia.
Qed.

Lemma slice_read_vectored_spec rem bufs : exists n bufs',
  slice_read_vectored rem bufs = (n, zdrop n rem, bufs') /\
  n = Z.min (zlen rem) (zlen (concat bufs)) /\
  length <$> bufs' = length <$> bufs /\ ztake n (concat bufs') = ztake n rem.
Proof.
  revert rem. induction bufs as [|b bufs IH]; intros rem.
  { exists 0, []. repeat split; [cbn; lia]. }
  cbn [slice_read_vectored concat]. destruct (slice_read_spec rem b) as (n & b' & -> & Hn & Hl & Ht).
  rewrite length_app. destruct (zdrop n rem) as [|x rem'] eqn:Ed.
  - assert (zlen rem <= n) by (apply (f_equal length) in Ed; rewrite length_drop in Ed; simpl in Ed; lia).
    exists n, (b' :: bufs). rewrite Ed. split_and!; [done|lia|by rewrite !fmap_cons, Hl|].
    cbn [concat]. rewrite take_app_le by lia. done.
  - assert (n < zlen rem /\ n = zlen b).
    { apply (f_equal length) in Ed. rewrite length_drop in Ed. simpl in Ed. lia. }
    destruct (IH (x :: rem')) as (m & bufs' & E & Hm & Hls & Hts). rewrite E.
    assert (Hm0 : 0 <= m) by lia.
    exists (n + m), (b' :: bufs'). rewrite <- Ed, drop_drop. split_and!.
    + by replace (Z.to_nat n + Z.to_nat m)%nat with (Z.to_nat (n + m)) by lia.
    + rewrite Hm, <- Ed, length_drop. lia.
    + by rewrite !fmap_cons, Hl, Hls.
    + cbn [concat]. rewrite take_app_ge by lia.
      replace (Z.to_nat (n + m) - length b')%nat with (Z.to_nat m) by lia.
      rewrite Hts, <- Ed, Z2Nat.inj_add, <- take_take_drop, <- Ht by lia.
      by rewrite (take_ge b') by lia.
Qed.

(** * [Repeat], [Empty] and [Sink] *)

Definition Repeat := Z.

#[export] Instance Repeat_AsyncRead : AsyncRead Repeat := {
  poll_read byte buf := Some (Ready (Ok (zlen buf)), (byte, (fun _ => byte) <$> buf));
  poll_read_vectored := read_first_buf (fun byte buf =>
    Some (Ready (Ok (zlen buf)), (byte, (fun _ => byte) <$> buf))) }.

Definition Empty := unit.

#[export] Instance Empty_AsyncRead : AsyncRead Empty := {
  poll_read r buf := Some (Ready (Ok 0), (r, buf));
  poll_read_vectored := read_first_buf (fun r buf => Some (Ready (Ok 0), (r, buf))) }.

#[export] Instance Empty_AsyncBufRead : AsyncBufRead Empty := {
  poll_fill_buf r := Some (Ready (Ok []), r);
  consume r _ := Some r }.

Definition Sink := unit.

#[export] Instance Sink_AsyncWrite : AsyncWrite Sink := {
  poll_write w buf := Some (Ready (Ok (zlen buf)), w);
  poll_write_vectored := write_first_buf (fun w buf => Some (Ready (Ok (zlen buf)), w));
  poll_flush w := Some (Ready (Ok tt), w);
  poll_close w := Some (Ready (Ok tt), w) }.

(** * [Cursor], over [std::io::Cursor]

    The position is a [u64] that may lie past the end of the data. *)

Record Cursor := { inner : bytes; pos : Z }.

Definition Cursor_new (l : bytes) : Cursor := {| inner := l; pos := 0 |}.
Definition Cursor_get_ref (c : Cursor) : bytes := inner c.
Definition Cursor_into_inner (c : Cursor) : bytes := inner c.
Definition Cursor_position (c : Cursor) : Z := pos c.
Definition Cursor_set_position (c : Cursor) (p : Z) : Cursor := {| inner := inner c; pos := p |}.

Definition remaining_slice (c : Cursor) : bytes := zdrop (Z.min (pos c) (zlen (inner c))) (inner c).

(** [std::io::Seek for Cursor]: an offset before the start or past [u64] is
    refused. *)
Definition Cursor_seek (c : Cursor) (style : SeekFrom) : ioresult Z * Cursor :=
  let at_ base offset :=
    let p := base + offset in
    if (0 <=? p) && (p <=? usize_MAX) then (Ok p, Cursor_set_position c p) else (Err InvalidInput, c) in
  match style with
  | Start n => (Ok n, Cursor_set_position c n)
  | End_ n => at_ (zlen (inner c)) n
  | Current n => at_ (pos c) n
  end.

#[export] Instance Cursor_AsyncSeek : AsyncSeek Cursor :=
  fun c p => let '(r, c) := Cursor_seek c p in Some (Ready r, c).

#[export] Instance Cursor_AsyncRead : AsyncRead Cursor := {
  poll_read c buf :=
    let '(n, _, buf) := slice_read (remaining_slice c) buf in
    Some (Ready (Ok n), (Cursor_set_position c (pos c + n), buf));
  poll_read_vectored c bufs :=
    let '(n, _, bufs) := slice_read_vectored (remaining_slice c) bufs in
    Some (Ready (Ok n), (Cursor_set_position c (pos c + n), bufs)) }.

#[export] Instance Cursor_AsyncBufRead : AsyncBufRead Cursor := {
  poll_fill_buf c := Some (Ready (Ok (remaining_slice c)), c);
  consume c length :=
    if pos c + length <=? usize_MAX then Some (Cursor_set_position c (pos c + length)) else None }.

(** A write over [Cursor<&mut [u8]>] stops at the end of the slice. *)
Definition Cursor_slice_write (c : Cursor) (buf : bytes) : Z * Cursor :=
  let p := Z.min (pos c) (zlen (inner c)) in
  let amt := Z.min (zlen buf) (zlen (inner c) - p) in
  (amt, {| inner := ztake p (inner c) ++ ztake amt buf ++ zdrop (p + amt) (inner c); pos := pos c + amt |}).

(** A write over [Cursor<Vec<u8>>] and [Cursor<&mut Vec<u8>>] fills a gap with
    zeros and extends the vector. *)
Definition Cursor_vec_write (c : Cursor) (buf : bytes) : Z * Cursor :=
  let padded := inner c ++ replicate (Z.to_nat (pos c) - length (inner c)) 0 in
  (zlen buf, {| inner := ztake (pos c) padded ++ buf ++ zdrop (pos c + zlen buf) padded;
                pos := pos c + zlen buf |}).

Fixpoint write_bufs (wr : Cursor -> bytes -> Z * Cursor) (c : Cursor) (bufs : list bytes) : Z * Cursor :=
  match bufs with
  | [] => (0, c)
  | b :: bufs =>
      let '(n, c) := wr c b in
      if n <? zlen b then (n, c) else let '(m, c) := write_bufs wr c bufs in (n + m, c)
  end.

(** The two kinds of cursor that are written: over a slice, over a vector. *)
Record SliceCursor := { slice_cursor : Cursor }.
Record VecCursor := { vec_cursor : Cursor }.

#[export] Instance SliceCursor_AsyncWrite : AsyncWrite SliceCursor := {
  poll_write c buf := let '(n, c) := Cursor_slice_write (slice_cursor c) buf in
    Some (Ready (Ok n), {| slice_cursor := c |});
  poll_write_vectored c bufs := let '(n, c) := write_bufs Cursor_slice_write (slice_cursor c) bufs in
    Some (Ready (Ok n), {| slice_cursor := c |});
  poll_flush c := Some (Ready (Ok tt), c);
  poll_close c := Some (Ready (Ok tt), c) }.

#[export] Instance VecCursor_AsyncWrite : AsyncWrite VecCursor := {
  poll_write c buf := let '(n, c) := Cursor_vec_write (vec_cursor c) buf in
    Some (Ready (Ok n), {| vec_cursor := c |});
  poll_write_vectored := write_first_buf (fun c buf =>
    let '(n, c) := Cursor_vec_write (vec_cursor c) buf in Some (Ready (Ok n), {| vec_cursor := c |}));
  poll_flush c := Some (Ready (Ok tt), c);
  poll_close c := Some (Ready (Ok tt), c) }.

(** [AsyncWrite for Vec<u8>] appends. *)
#[export] Instance Vec_AsyncWrite : AsyncWrite bytes := {
  poll_write v buf := Some (Ready (Ok (zlen buf)), v ++ buf);
  poll_write_vectored v bufs := Some (Ready (Ok (zlen (concat bufs))), v ++ concat bufs);
  poll_flush v := Some (Ready (Ok tt), v);
  poll_close v := Some (Ready (Ok tt), v) }.

(** * The futures of [AsyncReadExt], [AsyncSeekExt] and [AsyncWriteExt] that
    are one operation of the object *)

(** The borrowed reader and its buffer; a poll is a read. *)
Definition ReadFuture_poll {R} `{!AsyncRead R} (st : R * bytes) : option (poll (ioresult Z) * (R * bytes)) :=
  let '(reader, buf) := st in poll_read reader buf.

Definition ReadVectoredFuture_poll {R} `{!AsyncRead R} (st : R * list bytes)
    : option (poll (ioresult Z) * (R * list bytes)) :=
  let '(reader, bufs) := st in poll_read_vectored reader bufs.

Definition SeekFuture_poll {T} `{!AsyncSeek T} (st : T * SeekFrom)
    : option (poll (ioresult Z) * (T * SeekFrom)) :=
  let '(seeker, p) := st in '(r, seeker) ← poll_seek seeker p; Some (r, (seeker, p)).

Definition WriteFuture_poll {W} `{!AsyncWrite W} (st : W * bytes)
    : option (poll (ioresult Z) * (W * bytes)) :=
  let '(writer, buf) := st in '(r, writer) ← poll_write writer buf; Some (r, (writer, buf)).

Definition WriteVectoredFuture_poll {W} `{!AsyncWrite W} (st : W * list bytes)
    : option (poll (ioresult Z) * (W * list bytes)) :=
  let '(writer, bufs) := st in '(r, writer) ← poll_write_vectored writer bufs; Some (r, (writer, bufs)).

Definition FlushFuture_poll {W} `{!AsyncWrite W} (writer : W) := poll_flush writer.
Definition CloseFuture_poll {W} `{!AsyncWrite W} (writer : W) := poll_close writer.

(** * [AssertAsync] and [BlockOn]

    The traits of [std::io]: an operation answers at once. *)

Class StdRead (T : Type) := {
  read : T -> bytes -> option (ioresult Z * (T * bytes));
  read_vectored : T -> list bytes -> option (ioresult Z * (T * list bytes)) }.

Class StdWrite (T : Type) := {
  write : T -> bytes -> option (ioresult Z * T);
  write_vectored : T -> list bytes -> option (ioresult Z * T);
  flush : T -> option (ioresult unit * T) }.

Class StdSeek (T : Type) := seek : T -> SeekFrom -> option (ioresult Z * T).

(** [loop { match op { Err(Interrupted) => {}, res => return Ready(res) } }] *)
Fixpoint retry {X St} (op : St -> option (ioresult X * St)) (fuel : nat) (st : St)
    : option (poll (ioresult X) * St) :=
  match fuel with
  | O => None
  | S fuel =>
      '(res, st) ← op st;
      match res with
      | Err Interrupted => retry op fuel st
      | _ => Some (Ready res, st)
      end
  end.

Record AssertAsync (T : Type) := { assert_async : T }.
Arguments assert_async {T} _.

Section assert_async.
Context {T : Type} `{!StdRead T, !StdWrite T, !StdSeek T} (fuel : nat).

Definition AssertAsync_poll_read (a : AssertAsync T) (buf : bytes)
    : option (poll (ioresult Z) * (AssertAsync T * bytes)) :=
  '(r, (t, buf)) ← retry (fun st => read st.1 st.2) fuel (assert_async a, buf);
  Some (r, ({| assert_async := t |}, buf)).

Definition AssertAsync_poll_read_vectored (a : AssertAsync T) (bufs : list bytes)
    : option (poll (ioresult Z) * (AssertAsync T * list bytes)) :=
  '(r, (t, bufs)) ← retry (fun st => read_vectored st.1 st.2) fuel (assert_async a, bufs);
  Some (r, ({| assert_async := t |}, bufs)).

Definition AssertAsync_poll_write (a : AssertAsync T) (buf : bytes)
    : option (poll (ioresult Z) * AssertAsync T) :=
  '(r, t) ← retry (fun t => write t buf) fuel (assert_async a);
  Some (r, {| assert_async := t |}).

Definition AssertAsync_poll_write_vectored (a : AssertAsync T) (bufs : list bytes)
    : option (poll (ioresult Z) * AssertAsync T) :=
  '(r, t) ← retry (fun t => write_vectored t bufs) fuel (assert_async a);
  Some (r, {| assert_async := t |}).

Definition AssertAsync_poll_flush (a : AssertAsync T) : option (poll (ioresult unit) * AssertAsync T) :=
  '(r, t) ← retry flush fuel (assert_async a);
  Some (r, {| assert_async := t |}).

Definition AssertAsync_poll_close (a : AssertAsync T) : option (poll (ioresult unit) * AssertAsync T) :=
  AssertAsync_poll_flush a.

Definition AssertAsync_poll_seek (a : AssertAsync T) (p : SeekFrom)
    : option (poll (ioresult Z) * AssertAsync T) :=
  '(r, t) ← retry (fun t => seek t p) fuel (assert_async a);
  Some (r, {| assert_async := t |}).
End assert_async.

(** The fuel bounds both the interrupted calls of one poll and the polls of
    one [block_on]. *)
#[export] Instance AssertAsync_AsyncRead {T} `{!StdRead T} fuel : AsyncRead (AssertAsync T) | 10 := {
  poll_read := AssertAsync_poll_read fuel;
  poll_read_vectored := AssertAsync_poll_read_vectored fuel }.

#[export] Instance AssertAsync_AsyncWrite {T} `{!StdWrite T} fuel : AsyncWrite (AssertAsync T) | 10 := {
  poll_write := AssertAsync_poll_write fuel;
  poll_write_vectored := AssertAsync_poll_write_vectored fuel;
  poll_flush := AssertAsync_poll_flush fuel;
  poll_close := AssertAsync_poll_close fuel }.

#[export] Instance AssertAsync_AsyncSeek {T} `{!StdSeek T} fuel : AsyncSeek (AssertAsync T) | 10 :=
  AssertAsync_poll_seek fuel.

Section block_on_io.
Context {T : Type} (fuel : nat).

Definition BlockOn_read `{!AsyncRead T} (t : T) (buf : bytes) : option (ioresult Z * (T * bytes)) :=
  block_on ReadFuture_poll fuel (t, buf).

Definition BlockOn_write `{!AsyncWrite T} (t : T) (buf : bytes) : option (ioresult Z * T) :=
  '(r, (t, _)) ← block_on WriteFuture_poll fuel (t, buf); Some (r, t).

Definition BlockOn_flush `{!AsyncWrite T} (t : T) : option (ioresult unit * T) :=
  block_on FlushFuture_poll fuel t.

Definition BlockOn_seek `{!AsyncSeek T} (t : T) (p : SeekFrom) : option (ioresult Z * T) :=
  '(r, (t, _)) ← block_on SeekFuture_poll fuel (t, p); Some (r, t).
End block_on_io.

(** * The contracts of the basic readers and writers *)

Definition empty_rep : repr Empty := fun _ data fin _ => data = [] /\ fin = None.

#[export] Instance Empty_ok : AsyncReadOk Empty empty_rep.
Proof.
  intros r data fin k buf [-> ->]. eexists _, _, _. split_and!; [done|done|].
  split_and!; [lia..|done|by right|]. exists k. done.
Qed.

Definition cursor_rep : repr Cursor := fun c data fin _ =>
  data = remaining_slice c /\ fin = None /\ 0 <= pos c <= usize_MAX /\ zlen (inner c) <= isize_MAX.

Lemma zdrop_ge n (l : bytes) : zlen l <= n -> zdrop n l = [].
Proof. intros. apply drop_ge. lia. Qed.

Lemma remaining_advance c n : 0 <= pos c -> 0 <= n <= zlen (remaining_slice c) ->
  remaining_slice (Cursor_set_position c (pos c + n)) = zdrop n (remaining_slice c).
Proof.
  unfold remaining_slice. intros Hp Hn. cbn [inner pos Cursor_set_position].
  rewrite length_drop in Hn. rewrite drop_drop.
  destruct (Z.le_gt_cases (pos c + n) (zlen (inner c))).
  - f_equal. lia.
  - rewrite !drop_ge by lia. done.
Qed.

Lemma cursor_rep_advance c data fin k n : cursor_rep c data fin k -> 0 <= n <= zlen data ->
  cursor_rep (Cursor_set_position c (pos c + n)) (zdrop n data) fin k /\ pos c + n <= usize_MAX.
Proof.
  intros (-> & -> & Hp & Hl) Hn. assert (pos c + n <= usize_MAX).
  { unfold remaining_slice in Hn. rewrite length_drop in Hn. unfold usize_MAX, isize_MAX in *. lia. }
  split; [|done]. split_and!; [by rewrite remaining_advance by lia|done|cbn; lia|cbn; lia|done].
Qed.

#[export] Instance Cursor_ok : AsyncReadOk Cursor cursor_rep.
Proof.
  intros c data fin k buf H. pose proof H as (-> & -> & Hp & Hl).
  cbn [poll_read Cursor_AsyncRead].
  destruct (slice_read_spec (remaining_slice c) buf) as (n & b' & -> & Hn & Hlen & Ht).
  eexists _, _, _. split_and!; [done..|].
  destruct (cursor_rep_advance _ _ _ _ n H) as [? _]; [lia|].
  split_and!; [lia..|done| |by exists k].
  intros ->. destruct (remaining_slice c); [by right|left; cbn in Hn; lia].
Qed.

#[export] Instance Cursor_vectored_ok : AsyncReadVectoredOk Cursor cursor_rep.
Proof.
  intros c data fin k bufs H. pose proof H as (-> & -> & Hp & Hl).
  cbn [poll_read_vectored Cursor_AsyncRead].
  destruct (slice_read_vectored_spec (remaining_slice c) bufs) as (n & b' & -> & Hn & Hlen & Ht).
  eexists _, _, _. split_and!; [done..|].
  destruct (cursor_rep_advance _ _ _ _ n H) as [? _]; [lia|].
  split_and!; [lia..|done| |by exists k].
  intros ->. destruct (remaining_slice c); [by right|left; cbn in Hn; lia].
Qed.

#[export] Instance Cursor_buf_ok : AsyncBufReadOk Cursor cursor_rep.
Proof.
  assert (Hc : forall c data fin k n, cursor_rep c data fin k -> 0 <= n <= zlen data ->
    exists c', consume c n = Some c' /\ cursor_rep c' (zdrop n data) fin k).
  { intros c data fin k n H Hn. destruct (cursor_rep_advance _ _ _ _ n H Hn) as [H1 H2].
    cbn [consume Cursor_AsyncBufRead]. rewrite (proj2 (Z.leb_le _ _) H2). by eexists. }
  split; [|intros c data fin k H; apply (Hc _ _ _ _ 0 H); lia].
  intros c data fin k H. pose proof H as (-> & -> & Hp & Hl).
  eexists _, _. split; [done|]. split_and!; [done..|].
  exists k. split_and!; [done|done|]. intros n. by apply Hc.
Qed.


(** ** A reader and a writer for concrete runs

    A cursor that is pending a number of times and may end in an error; a
    vector that is pending or interrupted a number of times, and takes at most
    [per_write] bytes at once. *)

Record Probe := { probe_cursor : Cursor; probe_pendings : nat; probe_error : option ErrorKind }.

#[export] Instance Probe_AsyncBufRead : AsyncBufRead Probe := {
  poll_fill_buf r :=
    match probe_pendings r with
    | S n => Some (Pending, {| probe_cursor := probe_cursor r; probe_pendings := n; probe_error := probe_error r |})
    | O => match remaining_slice (probe_cursor r), probe_error r with
           | [], Some e => Some (Ready (Err e), r)
           | s, _ => Some (Ready (Ok s), r)
           end
    end;
  consume r n :=
    c ← consume (probe_cursor r) n;
    Some {| probe_cursor := c; probe_pendings := probe_pendings r; probe_error := probe_error r |} }.

#[export] Instance Probe_AsyncRead : AsyncRead Probe := {
  poll_read r buf :=
    '(p, r) ← poll_fill_buf r;
    ready_ok p (r, buf) (fun s =>
      let '(n, _, buf) := slice_read s buf in
      r ← consume r n;
      Some (Ready (Ok n), (r, buf)));
  poll_read_vectored := read_first_buf (fun r buf => Some (Pending, (r, buf))) }.

Definition probe_rep : repr Probe := fun r data fin k =>
  cursor_rep (probe_cursor r) data None k /\ fin = probe_error r /\ (probe_pendings r <= k)%nat.

Definition probe (l : bytes) (pendings : nat) (e : option ErrorKind) : Probe :=
  {| probe_cursor := Cursor_new l; probe_pendings := pendings; probe_error := e |}.

Lemma probe_consume r data fin k n : probe_rep r data fin k -> 0 <= n <= zlen data ->
  exists r', consume r n = Some r' /\ probe_rep r' (zdrop n data) fin k.
Proof.
  intros (Hc & -> & Hk) Hn. destruct (cursor_rep_advance _ _ _ _ n Hc Hn) as [H1 H2].
  cbn [consume Probe_AsyncBufRead Cursor_AsyncBufRead]. rewrite (proj2 (Z.leb_le _ _) H2). by eexists.
Qed.

#[export] Instance Probe_buf_ok : AsyncBufReadOk Probe probe_rep.
Proof.
  split; [|intros r data fin k Hr; apply (probe_consume r data fin k 0 Hr); lia].
  intros r data fin k Hr. pose proof Hr as (Hc & -> & Hk). pose proof Hc as (Hd & _).
  cbn [poll_fill_buf Probe_AsyncBufRead]. destruct (probe_pendings r) as [|n] eqn:En.
  2:{ eexists _, _. split; [done|]. exists n. split; [done|]. split_and!; try done; by destruct Hc as (_ & _ & ? & ?). }
  rewrite <- Hd.
  assert (Hok : (data = [] -> probe_error r = None) ->
    (data <> [] -> poll_fill_buf r = Some (Ready (Ok data), r)) ->
    fill_answer probe_rep data (probe_error r) k (Ready (Ok data)) r).
  { intros He Hf. split_and!; [done|intros ->; by split; [|apply He]|done|].
    exists k. split_and!; [done|done|]. intros m Hm. by apply probe_consume. }
  cbn [poll_fill_buf Probe_AsyncBufRead] in Hok. rewrite En, <- Hd in Hok.
  destruct data as [|x data']; [destruct (probe_error r) as [e|] eqn:Ee|]; (eexists _, _; split; [done|]);
    [|by apply Hok|by apply Hok].
  split_and!; [done|done|]. exists k. by rewrite <- Ee in *.
Qed.

#[export] Instance Probe_ok : AsyncReadOk Probe probe_rep.
Proof.
  intros r data fin k buf Hr. cbn [poll_read Probe_AsyncRead].
  destruct (poll_fill_buf_ok r data fin k Hr) as (p & r' & -> & Ha). cbn [mbind option_bind].
  destruct p as [[s|e]|]; [|by eexists _, _, _..]. cbn [ready_ok ready].
  destruct Ha as ([d ->] & He & _ & k' & Hk & Hr' & Hc).
  destruct (slice_read_spec s buf) as (n & buf' & -> & Hn & Hl & Ht).
  destruct (Hc n) as (r2 & -> & Hr2); [lia|]. eexists _, _, _. split_and!; [done..|].
  hnf. rewrite length_app. split_and!; [lia..| | |by exists k'].
  - by rewrite Ht, take_app_le by lia.
  - intros ->. destruct s; [right; destruct He; [done|]; by subst|left; cbn in Hn; lia].
Qed.

Record ProbeW := { probe_out : bytes; probe_answers : list (poll (ioresult unit)); per_write : nat }.

(** The next answer, before the write is done. *)
Definition probe_next {X} (w : ProbeW) (go : option (poll (ioresult X) * ProbeW)) : option (poll (ioresult X) * ProbeW) :=
  match probe_answers w with
  | [] | Ready (Ok _) :: _ => go
  | a :: l =>
      Some (match a with Ready (Err e) => Ready (Err e) | _ => Pending end,
            {| probe_out := probe_out w; probe_answers := l; per_write := per_write w |})
  end.

#[export] Instance ProbeW_AsyncWrite : AsyncWrite ProbeW := {
  poll_write w buf := probe_next w
    (let n := Nat.min (per_write w) (length buf) in
     Some (Ready (Ok (Z.of_nat n)),
           {| probe_out := probe_out w ++ take n buf; probe_answers := probe_answers w; per_write := per_write w |}));
  poll_write_vectored := write_first_buf (fun w buf => Some (Pending, w));
  poll_flush w := probe_next w (Some (Ready (Ok tt), w));
  poll_close w := probe_next w (Some (Ready (Ok tt), w)) }.

Definition probe_wrep : wrepr ProbeW := fun w out k => probe_out w = out /\ (length (probe_answers w) <= k)%nat.

Lemma probe_next_ok {X} w out k (go : option (poll (ioresult X) * ProbeW)) (P : poll (ioresult X) -> ProbeW -> Prop) :
  probe_wrep w out k ->
  (exists p w', go = Some (p, w') /\ P p w') ->
  (forall k' w', (k' < k)%nat -> probe_wrep w' out k' -> P Pending w') ->
  (forall k' w' e, (k' < k)%nat -> probe_wrep w' out k' -> P (Ready (Err e)) w') ->
  exists p w', probe_next w go = Some (p, w') /\ P p w'.
Proof.
  intros [Ho Hk] Hgo Hp He. unfold probe_next. destruct (probe_answers w) as [|[[u|e]|] l] eqn:El; try done;
    cbn in Hk; eexists _, _; (split; [done|]); [eapply (He (length l))|eapply (Hp (length l))];
    (lia || (split; cbn; [done|lia])).
Qed.

#[export] Instance ProbeW_ok : AsyncWriteOk ProbeW probe_wrep.
Proof.
  split.
  - intros w out k b Hr. apply (probe_next_ok w out k); [done| | |].
    + eexists _, _. split; [done|]. split; [lia|]. exists k. split; [done|].
      destruct Hr as [<- ?]. rewrite Nat2Z.id. done.
    + intros k' w' Hk Hr'. by exists k'.
    + intros k' w' e Hk Hr'. exists k'. split_and!; [lia|done|done].
  - intros w out k Hr. apply (probe_next_ok w out k); [done| | |].
    + eexists _, _. split; [done|]. by exists k.
    + intros k' w' Hk Hr'. exists k'. split_and!; [lia|done|done].
    + intros k' w' e Hk Hr'. exists k'. split_and!; [lia|done|done].
  - intros w out k Hr. apply (probe_next_ok w out k); [done| | |].
    + eexists _, _. split; [done|]. by exists k.
    + intros k' w' Hk Hr'. exists k'. split_and!; [lia|done|done].
    + intros k' w' e Hk Hr'. exists k'. split_and!; [lia|done|done].
Qed.

(** * Properties *)

(** An operation of [std::io] called again while it is interrupted: [n] times,
    then the answer [res]. *)
Inductive settles {X St} (op : St -> option (ioresult X * St)) : nat -> St -> ioresult X -> St -> Prop :=
| settles_now st res st' : op st = Some (res, st') -> res <> Err Interrupted -> settles op 0 st res st'
| settles_again n st st' res st'' :
    op st = Some (Err Interrupted, st') -> settles op n st' res st'' -> settles op (S n) st res st''.

Lemma retry_settles {X St} (op : St -> option (ioresult X * St)) n st res st' fuel :
  settles op n st res st' -> (n < fuel)%nat -> retry op fuel st = Some (Ready res, st').
Proof.
  intros H. revert fuel. induction H as [st res st' E Hn|n st st' res st'' E _ IH];
    intros [|fuel] Hf; try lia; simpl; rewrite E; simpl.
  - by destruct res as [|[]].
  - apply IH. lia.
Qed.

Lemma retry_inv {X St} (op : St -> option (ioresult X * St)) fuel st p st' :
  retry op fuel st = Some (p, st') -> exists n res, p = Ready res /\ settles op n st res st'.
Proof.
  revert st. induction fuel as [|fuel IH]; intros st; [done|]. simpl.
  destruct (op st) as [[res st1]|] eqn:E; [|done]. simpl.
  destruct res as [x|[]]; try (intros [= <- <-]; eexists O, _; split; [done|by constructor]).
  intros H. destruct (IH _ H) as (n & res & -> & Hs). exists (S n), res. split; [done|by econstructor].
Qed.

(** [AssertAsync] turns blocking I/O into polls that are always ready: a
    poll answers what the operation answers once it is no longer interrupted,
    and nothing else; [BlockOn] over it is the blocking object again, without
    the interruptions. *)
Theorem assert_async_settles T `{!StdRead T, !StdWrite T, !StdSeek T} fuel :
  (forall t buf p a buf', AssertAsync_poll_read fuel {| assert_async := t |} buf = Some (p, (a, buf')) ->
     exists n res, p = Ready res /\ settles (fun st => read st.1 st.2) n (t, buf) res (assert_async a, buf')) /\
  (forall t buf n res t' buf', settles (fun st => read st.1 st.2) n (t, buf) res (t', buf') -> (n < fuel)%nat ->
     AssertAsync_poll_read fuel {| assert_async := t |} buf = Some (Ready res, ({| assert_async := t' |}, buf')) /\
     BlockOn_read (AsyncRead0 := AssertAsync_AsyncRead fuel) 1 {| assert_async := t |} buf
       = Some (res, ({| assert_async := t' |}, buf'))) /\
  (forall t bufs n res t' bufs', settles (fun st => read_vectored st.1 st.2) n (t, bufs) res (t', bufs') -> (n < fuel)%nat ->
     AssertAsync_poll_read_vectored fuel {| assert_async := t |} bufs
       = Some (Ready res, ({| assert_async := t' |}, bufs'))) /\
  (forall t buf n res t', settles (fun t => write t buf) n t res t' -> (n < fuel)%nat ->
     AssertAsync_poll_write fuel {| assert_async := t |} buf = Some (Ready res, {| assert_async := t' |}) /\
     BlockOn_write (AsyncWrite0 := AssertAsync_AsyncWrite fuel) 1 {| assert_async := t |} buf
       = Some (res, {| assert_async := t' |})) /\
  (forall t n res t', settles flush n t res t' -> (n < fuel)%nat ->
     AssertAsync_poll_flush fuel {| assert_async := t |} = Some (Ready res, {| assert_async := t' |}) /\
     BlockOn_flush (AsyncWrite0 := AssertAsync_AsyncWrite fuel) 1 {| assert_async := t |}
       = Some (res, {| assert_async := t' |})) /\
  (forall t p n res t', settles (fun t => seek t p) n t res t' -> (n < fuel)%nat ->
     AssertAsync_poll_seek fuel {| assert_async := t |} p = Some (Ready res, {| assert_async := t' |}) /\
     BlockOn_seek (AsyncSeek0 := AssertAsync_AsyncSeek fuel) 1 {| assert_async := t |} p
       = Some (res, {| assert_async := t' |})).
Proof.
  split_and!.
  - intros t buf p a buf'. unfold AssertAsync_poll_read. cbn [assert_async].
    destruct (retry _ _ _) as [[p1 [t1 b1]]|] eqn:E; [|done].
    intros H. cbn in H. simplify_eq. exact (retry_inv _ _ _ _ _ E).
  - intros t buf n res t' buf' H Hf. pose proof (retry_settles _ _ _ _ _ _ H Hf) as E.
    unfold BlockOn_read. cbn [block_on ReadFuture_poll poll_read AssertAsync_AsyncRead].
    unfold AssertAsync_poll_read. cbn [assert_async]. by rewrite E.
  - intros t bufs n res t' bufs' H Hf. unfold AssertAsync_poll_read_vectored. cbn [assert_async].
    by rewrite (retry_settles _ _ _ _ _ _ H Hf).
  - intros t buf n res t' H Hf. pose proof (retry_settles _ _ _ _ _ _ H Hf) as E.
    unfold BlockOn_write. cbn [block_on WriteFuture_poll poll_write AssertAsync_AsyncWrite].
    unfold AssertAsync_poll_write. cbn [assert_async]. by rewrite E.
  - intros t n res t' H Hf. pose proof (retry_settles _ _ _ _ _ _ H Hf) as E.
    unfold BlockOn_flush. cbn [block_on]. unfold FlushFuture_poll. cbn [poll_flush AssertAsync_AsyncWrite].
    unfold AssertAsync_poll_flush. cbn [assert_async]. by rewrite E.
  - intros t p n res t' H Hf. pose proof (retry_settles _ _ _ _ _ _ H Hf) as E.
    unfold BlockOn_seek. cbn [block_on SeekFuture_poll].
    unfold poll_seek, AssertAsync_AsyncSeek, AssertAsync_poll_seek. cbn [assert_async]. by rewrite E.
Qed.

(** [BlockOn] makes blocking I/O of polls: over a reader or a writer that
    is pending at most [k] times, [k + 1] polls are enough for [read] and for
    [write] to return, and they return an answer the contract allows. *)
Theorem block_on_io_returns R W `{!AsyncRead R, !AsyncWrite W} (rrep : repr R) (wrep : wrepr W)
    `{!AsyncReadOk R rrep, !AsyncWriteOk W wrep} :
  (forall r data fin k buf fuel, rrep r data fin k -> (k < fuel)%nat ->
     exists res r' buf' k', BlockOn_read fuel r buf = Some (res, (r', buf')) /\ (k' <= k)%nat /\
       length buf' = length buf /\ read_answer rrep data fin k' (zlen buf) buf' (Ready res) r') /\
  (forall w out k buf fuel, wrep w out k -> (k < fuel)%nat ->
     exists res w' k', BlockOn_write fuel w buf = Some (res, w') /\ (k' <= k)%nat /\
       write_answer wrep out k' buf (Ready res) w').
Proof.
  split.
  - intros r data fin k buf fuel. unfold BlockOn_read. revert r k buf.
    induction fuel as [|fuel IH]; intros r k buf Hr Hf; [lia|]. cbn [block_on ReadFuture_poll].
    destruct (poll_read_ok r data fin k buf Hr) as (p & r' & buf' & -> & Hl & Ha). cbn [mbind option_bind].
    destruct p as [res|]; [by exists res, r', buf', k|].
    destruct Ha as (k1 & Hk1 & Hr'). destruct (IH r' k1 buf' Hr') as (res & r2 & b2 & k2 & -> & ? & Hl2 & Ha); [lia|].
    rewrite Hl in *. exists res, r2, b2, k2. split_and!; [done|lia|done|done].
  - intros w out k buf fuel. unfold BlockOn_write. revert w k.
    induction fuel as [|fuel IH]; intros w k Hw Hf; [lia|]. cbn [block_on WriteFuture_poll].
    destruct (poll_write_ok w out k buf Hw) as (p & w' & -> & Ha). cbn [mbind option_bind].
    destruct p as [res|]; [by exists res, w', k|].
    destruct Ha as (k1 & Hk1 & Hw'). destruct (IH w' k1 Hw') as (res & w2 & k2 & -> & ? & Ha); [lia|].
    exists res, w2, k2. split_and!; [done|lia|done].
Qed.

(** ** Concrete runs *)

(** A blocking object that answers from a list. *)
Definition StdScript := list (ioresult Z).

Definition script_answer (t : StdScript) : ioresult Z * StdScript :=
  match t with [] => (Ok 0, []) | r :: t => (r, t) end.

#[export] Instance StdScript_read : StdRead StdScript := {
  read t buf := let '(r, t) := script_answer t in Some (r, (t, buf));
  read_vectored t bufs := let '(r, t) := script_answer t in Some (r, (t, bufs)) }.
#[export] Instance StdScript_write : StdWrite StdScript := {
  write t _ := Some (script_answer t);
  write_vectored t _ := Some (script_answer t);
  flush t := let '(r, t) := script_answer t in Some (match r with Ok _ => Ok tt | Err e => Err e end, t) }.
#[export] Instance StdScript_seek : StdSeek StdScript := fun t _ => Some (script_answer t).

Lemma assert_async_settles_witness :
  let t : StdScript := [Err Interrupted; Err Interrupted; Ok 1; Ok 2] in
  AssertAsync_poll_read 3 {| assert_async := t |} [7; 8] = Some (Ready (Ok 1), ({| assert_async := [Ok 2] |}, [7; 8])).
Proof.
  pose proof (assert_async_settles StdScript 3) as (_ & H & _).
  apply (H _ _ 2%nat); [|lia]. do 2 (eapply settles_again; [reflexivity|]). by apply settles_now.
Defined.

Lemma block_on_io_returns_witness :
  probe_rep (probe [1; 2; 3] 2 None) [1; 2; 3] None 2 /\
  exists res r' buf' k', BlockOn_read 3 (probe [1; 2; 3] 2 None) [0; 0] = Some (res, (r', buf')) /\ (k' <= 2)%nat /\
    length buf' = 2%nat /\ read_answer probe_rep [1; 2; 3] None k' 2 buf' (Ready res) r'.
Proof.
  assert (Hr : probe_rep (probe [1; 2; 3] 2 None) [1; 2; 3] None 2) by (vm_compute; intuition discriminate || lia).
  split; [exact Hr|].
  exact (proj1 (block_on_io_returns Probe ProbeW probe_rep probe_wrep) _ _ _ _ [0; 0] 3%nat Hr ltac:(lia)).
Defined.
