(* ===== verification/BufIo.v ===== *)
(** [future/swap.rs], part 2: the buffered reader, [Take], [Chain], [Bytes]
    and the split halves, with the contracts they keep.

    Assertions, debug ones included, and arithmetic overflow panic, as in a
    build with debug assertions. *)

From S2P Require Import Prelude Stream Io.

Definition DEFAULT_BUFSZ : Z := 8 * 1024.

(** * [BufferReader] *)

Record BufferReader (R : Type) := {
  br_inner : R; br_buf : bytes; br_headroom : Z; br_pos : Z; br_cap : Z }.
Arguments Build_BufferReader {R}.
Arguments br_inner {R} _.
Arguments br_buf {R} _.
Arguments br_headroom {R} _.
Arguments br_pos {R} _.
Arguments br_cap {R} _.

Section buffer_reader.
Context {R : Type}.

(** [vec![0; capacity]] panics above [isize::MAX]. *)
Definition BufferReader_with_capacity (capacity : Z) (i : R) : option (BufferReader R) :=
  if capacity <=? isize_MAX
  then Some (Build_BufferReader i (replicate (Z.to_nat capacity) 0) 0 0 0) else None.
Definition BufferReader_new (i : R) : option (BufferReader R) :=
  BufferReader_with_capacity DEFAULT_BUFSZ i.
Definition BufferReader_buffer (b : BufferReader R) : option bytes :=
  slice (br_pos b) (br_cap b) (br_buf b).
Definition BufferReader_get_ref (b : BufferReader R) : R := br_inner b.
Definition BufferReader_into_inner (b : BufferReader R) : R := br_inner b.

Definition set_inner (b : BufferReader R) (i : R) : BufferReader R :=
  Build_BufferReader i (br_buf b) (br_headroom b) (br_pos b) (br_cap b).
Definition discard_buffer (b : BufferReader R) : BufferReader R :=
  Build_BufferReader (br_inner b) (br_buf b) (br_headroom b) 0 0.

Definition BufferReader_consume (b : BufferReader R) (length : Z) : option (BufferReader R) :=
  if br_pos b + length <=? usize_MAX
  then Some (Build_BufferReader (br_inner b) (br_buf b) (br_headroom b)
               (Z.min (br_pos b + length) (br_cap b)) (br_cap b))
  else None.

Context `{!AsyncRead R}.

Definition BufferReader_poll_fill_buf (b : BufferReader R) : option (poll (ioresult bytes) * BufferReader R) :=
  let shown b := s ← slice (br_pos b) (br_cap b) (br_buf b); Some (Ready (Ok s), b) in
  if br_cap b <=? br_pos b then
    guard (br_pos b = br_cap b);;                                    (* debug_assert! *)
    '(r, (i, buf)) ← poll_read (br_inner b) (br_buf b);
    let b := Build_BufferReader i buf (br_headroom b) (br_pos b) (br_cap b) in
    ready_ok r b (fun n => shown (Build_BufferReader i buf (br_headroom b) 0 n))
  else shown b.

Definition BufferReader_poll_read (b : BufferReader R) (buf : bytes)
    : option (poll (ioresult Z) * (BufferReader R * bytes)) :=
  if (br_pos b =? br_cap b) && (zlen (br_buf b) <=? zlen buf) then
    '(r, (i, buf)) ← poll_read (br_inner b) buf;
    ready r (set_inner b i, buf) (fun res =>
      Some (Ready res, (discard_buffer (set_inner b i), buf)))
  else
    '(r, b) ← BufferReader_poll_fill_buf b;
    ready_ok r (b, buf) (fun rem =>
      let '(nread, _, buf) := slice_read rem buf in
      b ← BufferReader_consume b nread;
      Some (Ready (Ok nread), (b, buf))).

Definition BufferReader_poll_read_vectored (b : BufferReader R) (bufs : list bytes)
    : option (poll (ioresult Z) * (BufferReader R * list bytes)) :=
  let total_len := zlen (concat bufs) in
  if (br_pos b =? br_cap b) && (zlen (br_buf b) <=? total_len) then
    '(r, (i, bufs)) ← poll_read_vectored (br_inner b) bufs;
    ready r (set_inner b i, bufs) (fun res =>
      Some (Ready res, (discard_buffer (set_inner b i), bufs)))
  else
    '(r, b) ← BufferReader_poll_fill_buf b;
    ready_ok r (b, bufs) (fun rem =>
      let '(nread, _, bufs) := slice_read_vectored rem bufs in
      b ← BufferReader_consume b nread;
      Some (Ready (Ok nread), (b, bufs))).

#[export] Instance BufferReader_AsyncRead : AsyncRead (BufferReader R) := {
  poll_read := BufferReader_poll_read;
  poll_read_vectored := BufferReader_poll_read_vectored }.

#[export] Instance BufferReader_AsyncBufRead : AsyncBufRead (BufferReader R) := {
  poll_fill_buf := BufferReader_poll_fill_buf;
  consume := BufferReader_consume }.

(** [n.checked_sub(m)] on [i64]. *)
Definition i64_checked_sub (n m : Z) : option Z :=
  if (- 2 ^ 63 <=? n - m) && (n - m <=? 2 ^ 63 - 1) then Some (n - m) else None.

Definition BufferReader_poll_seek `{!AsyncSeek R} (b : BufferReader R) (p : SeekFrom)
    : option (poll (ioresult Z) * BufferReader R) :=
  let seek_inner (b : BufferReader R) p k :=
    '(r, i) ← poll_seek (br_inner b) p;
    ready_ok r (set_inner b i) (fun result => k (set_inner b i) result) in
  let finish b result := Some (Ready (Ok result), discard_buffer b) in
  match p with
  | Current n =>
      let remainder := br_cap b - br_pos b in
      match i64_checked_sub n remainder with
      | Some offset => seek_inner b (Current offset) finish
      | None => seek_inner b (Current (- remainder)) (fun b _ =>
                  seek_inner (discard_buffer b) (Current n) finish)
      end
  | _ => seek_inner b p finish
  end.

#[export] Instance BufferReader_AsyncSeek `{!AsyncSeek R} : AsyncSeek (BufferReader R) :=
  BufferReader_poll_seek.
End buffer_reader.

(** * [Take] *)

Record Take (R : Type) := { take_inner : R; take_limit : Z }.
Arguments Build_Take {R}.
Arguments take_inner {R} _.
Arguments take_limit {R} _.

Section take.
Context {R : Type}.

Definition ext_take (r : R) (limit : Z) : Take R := Build_Take r limit.
Definition Take_set_limit (t : Take R) (limit : Z) : Take R := Build_Take (take_inner t) limit.
Definition Take_into_inner (t : Take R) : R := take_inner t.

(** [*limit -= n], which panics below zero. *)
Definition limit_sub (limit n : Z) : option Z := if n <=? limit then Some (limit - n) else None.

Definition take_read_internal `{!AsyncRead R} (rd : R) (buf : bytes) (limit : Z)
    : option (poll (ioresult Z) * (R * bytes * Z)) :=
  if limit =? 0 then Some (Ready (Ok 0), (rd, buf, limit))
  else
    let max := Z.min (zlen buf) limit in
    '(r, (rd, b)) ← poll_read rd (ztake max buf);
    let buf := b ++ zdrop max buf in
    ready_ok r (rd, buf, limit) (fun n =>
      limit ← limit_sub limit n;
      Some (Ready (Ok n), (rd, buf, limit))).

Definition Take_poll_read `{!AsyncRead R} (t : Take R) (buf : bytes)
    : option (poll (ioresult Z) * (Take R * bytes)) :=
  '(r, (rd, buf, limit)) ← take_read_internal (take_inner t) buf (take_limit t);
  Some (r, (Build_Take rd limit, buf)).

Definition Take_poll_fill_buf `{!AsyncBufRead R} (t : Take R) : option (poll (ioresult bytes) * Take R) :=
  if take_limit t =? 0 then Some (Ready (Ok []), t)
  else
    '(r, i) ← poll_fill_buf (take_inner t);
    let t := Build_Take i (take_limit t) in
    ready_ok r t (fun buf =>
      let cap := Z.min (zlen buf) (take_limit t) in
      Some (Ready (Ok (ztake cap buf)), t)).

Definition Take_consume `{!AsyncBufRead R} (t : Take R) (length : Z) : option (Take R) :=
  let length := Z.min length (take_limit t) in
  i ← consume (take_inner t) length;
  Some (Build_Take i (take_limit t - length)).

#[export] Instance Take_AsyncRead `{!AsyncRead R} : AsyncRead (Take R) := {
  poll_read := Take_poll_read;
  poll_read_vectored := read_first_buf Take_poll_read }.

#[export] Instance Take_AsyncBufRead `{!AsyncBufRead R} : AsyncBufRead (Take R) := {
  poll_fill_buf := Take_poll_fill_buf;
  consume := Take_consume }.
End take.

(** * [Chain] *)

Record Chain (R1 R2 : Type) := { chain_first : R1; chain_second : R2; chain_done_first : bool }.
Arguments Build_Chain {R1 R2}.
Arguments chain_first {R1 R2} _.
Arguments chain_second {R1 R2} _.
Arguments chain_done_first {R1 R2} _.

Section chain.
Context {R1 R2 : Type}.

Definition ext_chain (r1 : R1) (r2 : R2) : Chain R1 R2 := Build_Chain r1 r2 false.
Definition Chain_into_inner (c : Chain R1 R2) : R1 * R2 := (chain_first c, chain_second c).

(** The first reader is polled until it has ended; what it leaves in the
    buffers is what the second one is given. *)
Definition Chain_poll_read `{!AsyncRead R1, !AsyncRead R2} (c : Chain R1 R2) (buf : bytes)
    : option (poll (ioresult Z) * (Chain R1 R2 * bytes)) :=
  let '(Build_Chain r1 r2 done_first) := c in
  let second (r1 : R1) (buf : bytes) :=
    '(r, (r2, buf)) ← poll_read r2 buf; Some (r, (Build_Chain r1 r2 true, buf)) in
  if done_first then second r1 buf
  else
    '(r, (r1, buf)) ← poll_read r1 buf;
    ready_ok r (Build_Chain r1 r2 false, buf) (fun n =>
      if (n =? 0) && negb (bool_decide (buf = [])) then second r1 buf
      else Some (Ready (Ok n), (Build_Chain r1 r2 false, buf))).

Definition Chain_poll_read_vectored `{!AsyncRead R1, !AsyncRead R2} (c : Chain R1 R2) (bufs : list bytes)
    : option (poll (ioresult Z) * (Chain R1 R2 * list bytes)) :=
  let '(Build_Chain r1 r2 done_first) := c in
  let second (r1 : R1) (bufs : list bytes) :=
    '(r, (r2, bufs)) ← poll_read_vectored r2 bufs; Some (r, (Build_Chain r1 r2 true, bufs)) in
  if done_first then second r1 bufs
  else
    '(r, (r1, bufs)) ← poll_read_vectored r1 bufs;
    ready_ok r (Build_Chain r1 r2 false, bufs) (fun n =>
      if (n =? 0) && negb (bool_decide (bufs = [])) then second r1 bufs
      else Some (Ready (Ok n), (Build_Chain r1 r2 false, bufs))).

Definition Chain_poll_fill_buf `{!AsyncBufRead R1, !AsyncBufRead R2} (c : Chain R1 R2)
    : option (poll (ioresult bytes) * Chain R1 R2) :=
  let '(Build_Chain r1 r2 done_first) := c in
  let second (r1 : R1) := '(r, r2) ← poll_fill_buf r2; Some (r, Build_Chain r1 r2 true) in
  if done_first then second r1
  else
    '(r, r1) ← poll_fill_buf r1;
    ready_ok r (Build_Chain r1 r2 false) (fun buf =>
      if bool_decide (buf = []) then second r1
      else Some (Ready (Ok buf), Build_Chain r1 r2 false)).

Definition Chain_consume `{!AsyncBufRead R1, !AsyncBufRead R2} (c : Chain R1 R2) (length : Z)
    : option (Chain R1 R2) :=
  let '(Build_Chain r1 r2 done_first) := c in
  if done_first then r2 ← consume r2 length; Some (Build_Chain r1 r2 done_first)
  else r1 ← consume r1 length; Some (Build_Chain r1 r2 done_first).

#[export] Instance Chain_AsyncRead `{!AsyncRead R1, !AsyncRead R2} : AsyncRead (Chain R1 R2) := {
  poll_read := Chain_poll_read;
  poll_read_vectored := Chain_poll_read_vectored }.

#[export] Instance Chain_AsyncBufRead `{!AsyncBufRead R1, !AsyncBufRead R2} : AsyncBufRead (Chain R1 R2) := {
  poll_fill_buf := Chain_poll_fill_buf;
  consume := Chain_consume }.
End chain.

(** * [Bytes] and the halves of [split] *)

Section bytes_stream.
Context {R : Type} `{!AsyncRead R}.

Definition Bytes_poll_next (r : R) : option (poll (option (ioresult Z)) * R) :=
  '(p, (r, byte)) ← poll_read r [0];
  ready p r (fun res =>
    match res with
    | Ok 0 => Some (Ready None, r)
    | Ok _ => b ← head byte; Some (Ready (Some (Ok b)), r)
    | Err Interrupted => Some (Pending, r)
    | Err e => Some (Ready (Some (Err e)), r)
    end).

Definition Bytes_poll_read (r : R) (buf : bytes) := poll_read r buf.
Definition Bytes_poll_read_vectored (r : R) (bufs : list bytes) := poll_read_vectored r bufs.
End bytes_stream.

(** The two halves share the stream through one mutex; a half locks it for
    the time of one poll, and panics when an earlier poll has panicked. *)
Record Shared (T : Type) := { shared : T; poisoned : bool }.
Arguments Build_Shared {T}.
Arguments shared {T} _.
Arguments poisoned {T} _.

Section halves.
Context {T : Type}.

Definition ext_split (stream : T) : Shared T := Build_Shared stream false.

Definition with_lock {X B} (m : Shared T) (op : T -> option (X * (T * B))) : option (X * (Shared T * B)) :=
  guard (poisoned m = false);;
  '(r, (t, b)) ← op (shared m);
  Some (r, (Build_Shared t false, b)).

Definition with_lock_ {X} (m : Shared T) (op : T -> option (X * T)) : option (X * Shared T) :=
  guard (poisoned m = false);;
  '(r, t) ← op (shared m);
  Some (r, Build_Shared t false).

Definition ReadHalf_poll_read `{!AsyncRead T} (m : Shared T) (buf : bytes) :=
  with_lock m (fun t => poll_read t buf).
Definition ReadHalf_poll_read_vectored `{!AsyncRead T} (m : Shared T) (bufs : list bytes) :=
  with_lock m (fun t => poll_read_vectored t bufs).
Definition WriteHalf_poll_write `{!AsyncWrite T} (m : Shared T) (buf : bytes) :=
  with_lock_ m (fun t => poll_write t buf).
Definition WriteHalf_poll_flush `{!AsyncWrite T} (m : Shared T) := with_lock_ m poll_flush.
Definition WriteHalf_poll_close `{!AsyncWrite T} (m : Shared T) := with_lock_ m poll_close.
End halves.

(** * The contracts of the readers *)

Lemma slice_spec i j b s : slice i j b = Some s ->
  0 <= i <= j /\ j <= zlen b /\ s = ztake (j - i) (zdrop i b) /\ zlen s = j - i.
Proof.
  unfold slice. destruct (_ && _ && _) eqn:E; [|done]. intros [= <-].
  rewrite !andb_true_iff, !Z.leb_le in E. split_and!; try lia; [done|].
  rewrite length_take, length_drop. lia.
Qed.

Lemma slice_some i j b : 0 <= i <= j -> j <= zlen b -> slice i j b = Some (ztake (j - i) (zdrop i b)).
Proof. intros. unfold slice. replace (_ && _ && _) with true by lia. done. Qed.

(** Skipping the first bytes of a slice. *)
Lemma slice_drop i j b s n : slice i j b = Some s -> 0 <= n <= zlen s ->
  slice (i + n) j b = Some (zdrop n s).
Proof.
  intros Hs Hn. apply slice_spec in Hs as (?&?&->&Hl). rewrite slice_some by lia. f_equal.
  rewrite skipn_firstn_comm, drop_drop. f_equal; [lia|]. f_equal. lia.
Qed.

Lemma slice_empty i b : 0 <= i <= zlen b -> slice i i b = Some [].
Proof. intros. rewrite slice_some by lia. by rewrite Z.sub_diag. Qed.

Lemma slice_0 n b : 0 <= n <= zlen b -> slice 0 n b = Some (ztake n b).
Proof. intros. rewrite slice_some by lia. by rewrite Z.sub_0_r. Qed.

(** ** [BufferReader] delivers what it holds, then what its reader delivers *)

Definition buffer_rep {R} (rep : repr R) : repr (BufferReader R) := fun b data fin k =>
  exists s d, slice (br_pos b) (br_cap b) (br_buf b) = Some s /\ data = s ++ d /\
    rep (br_inner b) d fin k /\ 0 < zlen (br_buf b) <= isize_MAX.

Section buffer_ok.
Context {R : Type} `{!AsyncRead R} (rep : repr R).

Lemma buffer_consume b s d fin k n :
  slice (br_pos b) (br_cap b) (br_buf b) = Some s -> rep (br_inner b) d fin k ->
  0 < zlen (br_buf b) <= isize_MAX -> 0 <= n <= zlen s ->
  exists b', BufferReader_consume b n = Some b' /\ buffer_rep rep b' (zdrop n (s ++ d)) fin k.
Proof.
  intros Hs Hr Hb Hn. pose proof (slice_spec _ _ _ _ Hs) as (? & ? & _ & Hl).
  unfold BufferReader_consume. replace (_ <=? usize_MAX) with true
    by (unfold usize_MAX, isize_MAX in *; lia).
  eexists. split; [done|]. exists (zdrop n s), d. cbn [br_pos br_cap br_buf br_inner].
  split_and!; [|by rewrite drop_app_le by lia|done|lia|lia].
  replace (Z.min _ _) with (br_pos b + n) by lia. by eapply slice_drop.
Qed.

Lemma buffer_shown b s d fin k :
  slice (br_pos b) (br_cap b) (br_buf b) = Some s -> rep (br_inner b) d fin k ->
  0 < zlen (br_buf b) <= isize_MAX -> (s = [] -> d = [] /\ fin = None) ->
  (s <> [] -> BufferReader_poll_fill_buf b = Some (Ready (Ok s), b)) ->
  fill_answer (buffer_rep rep) (s ++ d) fin k (Ready (Ok s)) b.
Proof.
  intros Hs Hr Hb He Hf. split_and!.
  - by exists d.
  - intros ->. by apply He.
  - done.
  - exists k. split_and!; [done|by exists s, d|]. intros n Hn. by eapply buffer_consume.
Qed.

Lemma buffer_fill_nonempty b s :
  slice (br_pos b) (br_cap b) (br_buf b) = Some s -> s <> [] ->
  BufferReader_poll_fill_buf b = Some (Ready (Ok s), b).
Proof.
  intros Hs Hne. pose proof (slice_spec _ _ _ _ Hs) as (? & ? & _ & Hl).
  unfold BufferReader_poll_fill_buf. destruct (Z.leb_spec (br_cap b) (br_pos b)).
  - destruct s; [done|cbn in Hl; lia].
  - by rewrite Hs.
Qed.

Context `{!AsyncReadOk R rep}.

Lemma buffer_fill b data fin k : buffer_rep rep b data fin k ->
  exists p b', BufferReader_poll_fill_buf b = Some (p, b') /\
    fill_answer (buffer_rep rep) data fin k p b'.
Proof.
  intros (s & d & Hs & -> & Hr & Hb). pose proof (slice_spec _ _ _ _ Hs) as (? & ? & _ & Hl).
  destruct (decide (s = [])) as [->|Hne].
  2:{ rewrite (buffer_fill_nonempty _ _ Hs Hne). eexists _, _. split; [done|].
      apply buffer_shown; [done..|by intros ->|]. intros. by apply buffer_fill_nonempty. }
  cbn in Hl. assert (br_pos b = br_cap b) as He by lia.
  unfold BufferReader_poll_fill_buf. rewrite He, Z.leb_refl. rewrite option_guard_True by done.
  cbn [mbind option_bind].
  destruct (poll_read_ok (br_inner b) d fin k (br_buf b) Hr) as (p & i & buf & -> & Hlen & Ha).
  cbn [mbind option_bind]. destruct p as [[n|e]|].
  - destruct Ha as (Hn & Hnd & Ht & Hz & k' & Hk & Hr'). cbn [ready_ok ready br_pos br_cap br_buf].
    rewrite slice_0 by lia. cbn [mbind option_bind]. eexists _, _. split; [done|].
    rewrite app_nil_l. rewrite <- (take_drop (Z.to_nat n) d) at 1. rewrite <- Ht.
    set (b' := Build_BufferReader i buf (br_headroom b) 0 n).
    assert (Hs' : slice (br_pos b') (br_cap b') (br_buf b') = Some (ztake n buf)).
    { apply slice_0. lia. }
    assert (Hn0 : ztake n buf = [] -> n = 0).
    { intros E. apply (f_equal length) in E. rewrite length_take in E. cbn in E. lia. }
    destruct (buffer_shown b' (ztake n buf) (zdrop n d) fin k' Hs' Hr') as (?&?&?&k''&?&?&?).
    { cbn. lia. }
    { intros E. apply Hn0 in E as ->. destruct Hz as [?|[-> ->]]; [done|lia|done]. }
    { intros. by apply buffer_fill_nonempty. }
    split_and!; [done..|]. exists k''. split; [lia|done].
  - destruct Ha as (-> & -> & k' & Hk & Hr'). eexists _, _. split; [done|].
    split_and!; [done..|]. exists k'. split; [done|]. exists [], [].
    cbn [br_pos br_cap br_buf br_inner].
    split_and!; [apply slice_empty; lia|done|done|lia|lia].
  - destruct Ha as (k' & Hk & Hr'). eexists _, _. split; [done|]. exists k'. split; [done|].
    exists [], d. cbn [br_pos br_cap br_buf br_inner].
    split_and!; [apply slice_empty; lia|done|done|lia|lia].
Qed.

(** An answer of the inner reader, when nothing is buffered. *)
Lemma buffer_bypass b d fin k room out p i :
  br_pos b = br_cap b -> 0 <= br_pos b <= zlen (br_buf b) -> 0 < zlen (br_buf b) <= isize_MAX ->
  read_answer rep d fin k room out p i ->
  read_answer (buffer_rep rep) d fin k room out p
    (match p with Ready _ => discard_buffer (set_inner b i) | Pending => set_inner b i end).
Proof.
  intros He Hp Hb Ha.
  assert (forall d' k', rep i d' fin k' -> buffer_rep rep (set_inner b i) d' fin k' /\
                        buffer_rep rep (discard_buffer (set_inner b i)) d' fin k') as Hs.
  { intros d' k' ?. split; exists [], d'; cbn [br_pos br_cap br_buf br_inner set_inner discard_buffer];
      (split_and!; [|done..|lia|lia]).
    - rewrite He. apply slice_empty. lia.
    - apply slice_empty. lia. }
  destruct p as [[n|e]|]; [destruct Ha as (?&?&?&?&k'&?&?)|destruct Ha as (?&?&k'&?&?)|destruct Ha as (k'&?&?)];
    (hnf; split_and?; try first [done|lia]; exists k'; split; [done|by apply Hs]).
Qed.

(** A slice taken out of what [poll_fill_buf] shows. *)
Lemma buffer_copy b' bs data fin k room out n :
  fill_answer (R := BufferReader R) (buffer_rep rep) data fin k (Ready (Ok bs)) b' ->
  n = Z.min (zlen bs) room -> 0 <= room -> ztake n out = ztake n bs ->
  exists b'', BufferReader_consume b' n = Some b'' /\
    read_answer (buffer_rep rep) data fin k room out (Ready (Ok n)) b''.
Proof.
  intros ([d' ->] & He & _ & k' & Hk & _ & Hc) Hn Hroom Ht.
  destruct (Hc n) as (b'' & Hb & Hr); [lia|]. exists b''. split; [done|].
  hnf. rewrite length_app. split; [lia|]. split; [lia|]. split_and!.
  - by rewrite Ht, take_app_le by lia.
  - intros ->. destruct bs; [|cbn in Hn; left; lia]. right. destruct He; [done|]. by subst.
  - by exists k'.
Qed.

#[export] Instance BufferReader_buf_ok : AsyncBufReadOk (BufferReader R) (buffer_rep rep).
Proof.
  split; [intros b data fin k; apply buffer_fill|].
  intros b data fin k (s & d & Hs & -> & Hr & Hb).
  destruct (buffer_consume b s d fin k 0 Hs Hr Hb) as (b' & ? & ?); [lia|]. by exists b'.
Qed.

#[export] Instance BufferReader_ok : AsyncReadOk (BufferReader R) (buffer_rep rep).
Proof.
  intros b data fin k buf Hrep. cbn [poll_read BufferReader_AsyncRead]. unfold BufferReader_poll_read.
  destruct ((br_pos b =? br_cap b) && (zlen (br_buf b) <=? zlen buf)) eqn:E.
  - destruct Hrep as (s & d & Hs & -> & Hr & Hb). pose proof (slice_spec _ _ _ _ Hs) as (? & ? & _ & Hl).
    assert (br_pos b = br_cap b) as He by lia. assert (s = []) as -> by (destruct s; [done|cbn in Hl; lia]).
    destruct (poll_read_ok _ _ _ _ buf Hr) as (p & i & buf' & -> & Hlen & Ha). rewrite app_nil_l.
    apply (buffer_bypass b) in Ha; [|done|lia..].
    destruct p as [res|]; (eexists _, _, _; split; [done|by split]).
  - destruct (buffer_fill _ _ _ _ Hrep) as (p & b' & -> & Ha). cbn [mbind option_bind].
    destruct p as [[bs|e]|]; [|by eexists _, _, _..].
    cbn [ready_ok ready]. destruct (slice_read_spec bs buf) as (n & buf' & -> & Hn & Hlen & Ht).
    destruct (buffer_copy _ _ _ _ _ (zlen buf) buf' n Ha Hn ltac:(lia) Ht) as (b'' & -> & ?).
    eexists _, _, _. done.
Qed.

#[export] Instance BufferReader_vectored_ok `{!AsyncReadVectoredOk R rep} :
  AsyncReadVectoredOk (BufferReader R) (buffer_rep rep).
Proof.
  intros b data fin k bufs Hrep. cbn [poll_read_vectored BufferReader_AsyncRead].
  unfold BufferReader_poll_read_vectored.
  destruct ((br_pos b =? br_cap b) && (zlen (br_buf b) <=? zlen (concat bufs))) eqn:E.
  - destruct Hrep as (s & d & Hs & -> & Hr & Hb). pose proof (slice_spec _ _ _ _ Hs) as (? & ? & _ & Hl).
    assert (br_pos b = br_cap b) as He by lia. assert (s = []) as -> by (destruct s; [done|cbn in Hl; lia]).
    destruct (poll_read_vectored_ok _ _ _ _ bufs Hr) as (p & i & bufs' & -> & Hlen & Ha). rewrite app_nil_l.
    apply (buffer_bypass b) in Ha; [|done|lia..].
    destruct p as [res|]; (eexists _, _, _; split; [done|by split]).
  - destruct (buffer_fill _ _ _ _ Hrep) as (p & b' & -> & Ha). cbn [mbind option_bind].
    destruct p as [[bs|e]|]; [|by eexists _, _, _..].
    cbn [ready_ok ready]. destruct (slice_read_vectored_spec bs bufs) as (n & bufs' & -> & Hn & Hlen & Ht).
    destruct (buffer_copy _ _ _ _ _ (zlen (concat bufs)) (concat bufs') n Ha Hn ltac:(lia) Ht) as (b'' & -> & ?).
    eexists _, _, _. done.
Qed.
End buffer_ok.

(** ** [Take] delivers the first [limit] bytes *)

Definition take_rep {R} (rep : repr R) : repr (Take R) := fun t data fin k =>
  exists d f, rep (take_inner t) d f k /\ 0 <= take_limit t /\ data = ztake (take_limit t) d /\
    fin = if take_limit t <=? zlen d then None else f.

Section take_ok.
Context {R : Type} (rep : repr R).

Lemma take_rep_intro i d f k limit n : rep i (zdrop n d) f k -> 0 <= n <= limit -> n <= zlen d ->
  take_rep rep (Build_Take i (limit - n)) (zdrop n (ztake limit d))
    (if limit <=? zlen d then None else f) k.
Proof.
  intros Hr Hn Hd. exists (zdrop n d), f. cbn [take_inner take_limit]. split_and!; [done|lia| |].
  - rewrite skipn_firstn_comm. f_equal. lia.
  - rewrite length_drop. destruct (Z.leb_spec limit (zlen d)), (Z.leb_spec (limit - n) (Z.of_nat (length d - Z.to_nat n)));
      (done || lia).
Qed.

Lemma limit_nil limit (f : option ErrorKind) : 0 < limit ->
  (if limit <=? zlen (@nil Z) then None else f) = f.
Proof. intros. by destruct (Z.leb_spec limit (zlen (@nil Z))); [cbn in *; lia|]. Qed.

Lemma take_rep_0 i d f k limit : rep i d f k -> 0 <= limit ->
  take_rep rep (Build_Take i limit) (ztake limit d) (if limit <=? zlen d then None else f) k.
Proof. intros. by exists d, f. Qed.

#[export] Instance Take_ok `{!AsyncRead R, !AsyncReadOk R rep} : AsyncReadOk (Take R) (take_rep rep).
Proof.
  intros [i limit] data fin k buf (d & f & Hr & Hl & -> & ->). cbn [take_inner take_limit] in *.
  cbn [poll_read Take_AsyncRead]. unfold Take_poll_read, take_read_internal. cbn [take_inner take_limit].
  destruct (Z.eqb_spec limit 0) as [->|Hl0].
  { eexists _, _, _. split; [done|]. split; [done|]. change (ztake 0 d) with (@nil Z).
    rewrite (proj2 (Z.leb_le 0 (zlen d))) by lia.
    split_and!; [lia..|done|by right|]. exists k. split; [done|].
    pose proof (take_rep_0 i d f k 0 Hr Hl) as Ht. by rewrite (proj2 (Z.leb_le 0 (zlen d))) in Ht by lia. }
  set (max := Z.min (zlen buf) limit).
  destruct (poll_read_ok _ _ _ _ (ztake max buf) Hr) as (p & i' & b & -> & Hlen & Ha).
  cbn [mbind option_bind].
  assert (Hb : length b = Z.to_nat max) by (rewrite Hlen, length_take; lia).
  assert (Hbuf : length (b ++ zdrop max buf) = length buf) by (rewrite length_app, length_drop; lia).
  rewrite length_take in Ha.
  destruct p as [[n|e]|]; cbn [ready_ok ready].
  - destruct Ha as (Hn & Hd & Ht & Hz & k' & Hk & Hr'). unfold limit_sub.
    rewrite (proj2 (Z.leb_le n limit)) by lia. eexists _, _, _. split; [done|]. split; [done|].
    hnf. rewrite length_take. split; [lia|]. split; [lia|]. split_and!.
    + rewrite take_app_le, Ht, take_take by lia. f_equal. lia.
    + intros ->. destruct Hz as [?|[-> ->]]; [done|left; lia|right].
      by rewrite take_nil; destruct (_ <=? _).
    + exists k'. split; [done|]. apply take_rep_intro; [done|lia..].
  - destruct Ha as (-> & -> & k' & Hk & Hr'). eexists _, _, _. split; [done|]. split; [done|].
    rewrite take_nil, limit_nil by lia.
    split_and!; [done..|]. exists k'. split; [done|].
    pose proof (take_rep_0 i' [] (Some e) k' limit Hr' Hl) as Ht.
    by rewrite take_nil, limit_nil in Ht by lia.
  - destruct Ha as (k' & Hk & Hr'). eexists _, _, _. split; [done|]. split; [done|].
    exists k'. split; [done|]. by apply take_rep_0.
Qed.

Lemma Take_consume_0 `{!AsyncBufRead R, !AsyncBufReadOk R rep} t data fin k :
  take_rep rep t data fin k -> exists t', Take_consume t 0 = Some t' /\ take_rep rep t' data fin k.
Proof.
  intros (d & f & Hr & Hl & -> & ->). unfold Take_consume. rewrite Z.min_l by lia.
  destruct (consume_0_ok _ _ _ _ Hr) as (i & -> & Hr'). cbn [mbind option_bind]. rewrite Z.sub_0_r.
  eexists. split; [done|]. by apply take_rep_0.
Qed.

#[export] Instance Take_buf_ok `{!AsyncBufRead R, !AsyncBufReadOk R rep} : AsyncBufReadOk (Take R) (take_rep rep).
Proof.
  split; [|intros t data fin k; apply Take_consume_0].
  intros [i limit] data fin k H. pose proof H as (d & f & Hr & Hl & -> & ->).
  cbn [take_inner take_limit] in *. cbn [poll_fill_buf Take_AsyncBufRead]. unfold Take_poll_fill_buf. cbn [take_inner take_limit].
  destruct (poll_fill_buf_ok _ _ _ _ Hr) as (p & i' & Hp & Ha).
  destruct (Z.eqb_spec limit 0) as [->|Hl0].
  { eexists _, _. split; [done|]. change (ztake 0 d) with (@nil Z).
    rewrite (proj2 (Z.leb_le 0 (zlen d))) by lia.
    pose proof (take_rep_0 i d f k 0 Hr Hl) as Ht. rewrite (proj2 (Z.leb_le 0 (zlen d))) in Ht by lia.
    split_and!; [by exists []|done|done|]. exists k. split_and!; [done..|].
    intros n Hn. cbn in Hn. assert (n = 0) as -> by lia. by apply (Take_consume_0 _ [] None k). }
  rewrite Hp. cbn [mbind option_bind]. destruct p as [[bs|e]|]; cbn [ready_ok ready].
  - destruct Ha as ([d' ->] & He & Hf & k' & Hk & Hr' & Hc). eexists _, _. split; [done|].
    cbn [take_inner take_limit].
    assert (Hbs : ztake (Z.min (zlen bs) limit) bs = ztake limit bs).
    { destruct (Z.le_gt_cases limit (zlen bs)); [f_equal; lia|rewrite !take_ge by lia; done]. }
    rewrite Hbs. split_and!.
    + exists (ztake (limit - zlen bs) d'). rewrite take_app. f_equal. f_equal. lia.
    + intros E. assert (bs = []) as -> by (destruct bs; [done|]; apply (f_equal length) in E;
        rewrite length_take in E; cbn in E; lia).
      cbn in He. destruct He as [-> ->]; [done|]. rewrite app_nil_l, take_nil. split; [done|]. apply limit_nil; lia.
    + intros Hne. cbn [poll_fill_buf Take_AsyncBufRead]. unfold Take_poll_fill_buf.
      cbn [take_inner take_limit]. rewrite (proj2 (Z.eqb_neq _ _) Hl0), Hf
        by (intros ->; by rewrite take_nil in Hne).
      cbn [mbind option_bind ready_ok ready]. by rewrite Hbs.
    + exists k'. split_and!; [done|by apply take_rep_0|].
      intros n Hn. rewrite length_take in Hn. destruct (Hc n) as (r'' & Hc' & Hr''); [lia|].
      cbn [consume Take_AsyncBufRead]. unfold Take_consume. cbn [take_inner take_limit].
      replace (Z.min n limit) with n by lia. rewrite Hc'. eexists. split; [done|].
      apply take_rep_intro; [done|lia|]. rewrite length_app. lia.
  - destruct Ha as (-> & -> & k' & Hk & Hr'). eexists _, _. split; [done|].
    rewrite take_nil, limit_nil by lia.
    split_and!; [done..|]. exists k'. split; [done|].
    pose proof (take_rep_0 i' [] (Some e) k' limit Hr' Hl) as Ht.
    by rewrite take_nil, limit_nil in Ht by lia.
  - destruct Ha as (k' & Hk & Hr'). eexists _, _. split; [done|].
    exists k'. split; [done|]. by apply take_rep_0.
Qed.
End take_ok.

(** ** [Chain] delivers the bytes of the first reader, then those of the
    second, unless the first one fails *)

Definition chain_rep {R1 R2} (rep1 : repr R1) (rep2 : repr R2) : repr (Chain R1 R2) :=
  fun c data fin k =>
    if chain_done_first c then rep2 (chain_second c) data fin k
    else exists d1 f1 k1 d2 f2 k2,
      rep1 (chain_first c) d1 f1 k1 /\ rep2 (chain_second c) d2 f2 k2 /\ k = (k1 + k2)%nat /\
      match f1 with
      | None => data = d1 ++ d2 /\ fin = f2
      | Some e => data = d1 /\ fin = Some e
      end.

Section chain_ok.
Context {R1 R2 : Type} (rep1 : repr R1) (rep2 : repr R2).

Lemma chain_first_advance r1 r2 d1 f1 k1' k1 d2 f2 k2 data fin n :
  rep1 r1 (zdrop n d1) f1 k1' -> rep2 r2 d2 f2 k2 -> (k1' <= k1)%nat -> n <= zlen d1 ->
  match f1 with None => data = d1 ++ d2 /\ fin = f2 | Some e => data = d1 /\ fin = Some e end ->
  exists k', (k' <= k1 + k2)%nat /\ chain_rep rep1 rep2 (Build_Chain r1 r2 false) (zdrop n data) fin k'.
Proof.
  intros H1 H2 Hk Hn Hd. exists (k1' + k2)%nat. split; [lia|].
  exists (zdrop n d1), f1, k1', d2, f2, k2. split_and!; [done..|].
  destruct f1; destruct Hd as [-> ->]; [done|]. by rewrite drop_app_le by lia.
Qed.

Lemma chain_second_answer r1 r2 data fin k k2 room out p :
  read_answer rep2 data fin k2 room out p r2 -> (k2 <= k)%nat ->
  read_answer (chain_rep rep1 rep2) data fin k room out p (Build_Chain r1 r2 true).
Proof.
  destruct p as [[n|e]|]; [intros (?&?&?&?&k'&?&?)|intros (?&?&k'&?&?)|intros (k'&?&?)]; intros Hk;
    (hnf; split_and?; try first [done|lia]; exists k'; split; [lia|done]).
Qed.

Lemma chain_second_fill `{!AsyncBufRead R1, !AsyncBufRead R2} r1 r2 data fin k k2 p :
  fill_answer rep2 data fin k2 p r2 -> (k2 <= k)%nat ->
  fill_answer (chain_rep rep1 rep2) data fin k p (Build_Chain r1 r2 true).
Proof.
  destruct p as [[bs|e]|]; [intros (?&?&Hf&k'&?&?&Hc)|intros (?&?&k'&?&?)|intros (k'&?&?)]; intros Hk.
  - split_and!; [done|done| |].
    + intros Hne. cbn [poll_fill_buf Chain_AsyncBufRead]. unfold Chain_poll_fill_buf.
      by rewrite (Hf Hne).
    + exists k'. split_and!; [lia|done|]. intros n Hn. destruct (Hc n Hn) as (r'' & E & ?).
      cbn [consume Chain_AsyncBufRead]. unfold Chain_consume. rewrite E. by eexists.
  - split_and!; [done..|]. exists k'. split; [lia|done].
  - exists k'. split; [lia|done].
Qed.

#[export] Instance Chain_ok `{!AsyncRead R1, !AsyncRead R2, !AsyncReadOk R1 rep1, !AsyncReadOk R2 rep2} :
  AsyncReadOk (Chain R1 R2) (chain_rep rep1 rep2).
Proof.
  intros [r1 r2 []] data fin k buf Hrep; cbn [poll_read Chain_AsyncRead]; unfold Chain_poll_read.
  { destruct (poll_read_ok (rep:=rep2) r2 _ _ _ buf Hrep) as (p & r2' & buf' & -> & Hlen & Ha).
    eexists _, _, _. split_and!; [done..|]. by eapply chain_second_answer. }
  destruct Hrep as (d1 & f1 & k1 & d2 & f2 & k2 & H1 & H2 & -> & Hd). cbn [chain_first chain_second] in *.
  destruct (poll_read_ok _ _ _ _ buf H1) as (p & r1' & buf' & -> & Hlen & Ha). cbn [mbind option_bind].
  destruct p as [[n|e]|]; cbn [ready_ok ready].
  - destruct Ha as (Hn & Hd1 & Ht & Hz & k1' & Hk & H1').
    destruct ((n =? 0) && negb (bool_decide (buf' = []))) eqn:E.
    + rewrite andb_true_iff, negb_true_iff, bool_decide_eq_false, Z.eqb_eq in E. destruct E as [-> Hne].
      destruct Hz as [Hz|[-> ->]]; [done|destruct buf'; [done|cbn in *; lia]|]. destruct Hd as [-> ->].
      destruct (poll_read_ok _ _ _ _ buf' H2) as (p & r2' & buf'' & -> & Hlen' & Ha).
      eexists _, _, _. split_and!; [done|congruence|]. rewrite Hlen in Ha.
      eapply chain_second_answer; [done|lia].
    + eexists _, _, _. split_and!; [done..|].
      assert (n <= zlen data) by (destruct f1; destruct Hd as [-> _]; [done|rewrite length_app; lia]).
      split_and!; [lia..| | |by eapply chain_first_advance].
      * rewrite Ht. destruct f1; destruct Hd as [-> _]; [done|]. by rewrite take_app_le by lia.
      * intros ->. left. destruct buf'; [by rewrite <- Hlen|]. by rewrite bool_decide_eq_false_2 in E.
  - destruct Ha as (-> & -> & k' & Hk & H1'). destruct Hd as [-> ->].
    eexists _, _, _. split_and!; [done..|]. hnf. split_and!; [done..|].
    by apply (chain_first_advance r1' r2 [] (Some e) k' k1 d2 f2 k2 [] (Some e) 0).
  - destruct Ha as (k' & Hk & H1'). eexists _, _, _. split_and!; [done..|].
    exists (k' + k2)%nat. split; [lia|]. by exists d1, f1, k', d2, f2, k2.
Qed.

#[export] Instance Chain_buf_ok `{!AsyncBufRead R1, !AsyncBufRead R2, !AsyncBufReadOk R1 rep1, !AsyncBufReadOk R2 rep2} :
  AsyncBufReadOk (Chain R1 R2) (chain_rep rep1 rep2).
Proof.
  split.
  2:{ intros [r1 r2 []] data fin k Hrep; cbn [consume Chain_AsyncBufRead]; unfold Chain_consume.
      { destruct (consume_0_ok (rep:=rep2) r2 _ _ _ Hrep) as (r2' & -> & ?). by eexists. }
      destruct Hrep as (d1 & f1 & k1 & d2 & f2 & k2 & H1 & H2 & -> & Hd). cbn [chain_first chain_second] in *.
      destruct (consume_0_ok _ _ _ _ H1) as (r1' & -> & ?). eexists. split; [done|].
      by exists d1, f1, k1, d2, f2, k2. }
  intros [r1 r2 []] data fin k Hrep; cbn [poll_fill_buf Chain_AsyncBufRead]; unfold Chain_poll_fill_buf.
  { destruct (poll_fill_buf_ok (rep:=rep2) r2 _ _ _ Hrep) as (p & r2' & -> & Ha).
    eexists _, _. split_and!; [done..|]. by eapply chain_second_fill. }
  destruct Hrep as (d1 & f1 & k1 & d2 & f2 & k2 & H1 & H2 & -> & Hd). cbn [chain_first chain_second] in *.
  destruct (poll_fill_buf_ok _ _ _ _ H1) as (p & r1' & -> & Ha). cbn [mbind option_bind].
  destruct p as [[bs|e]|]; cbn [ready_ok ready].
  - destruct Ha as (Hp & He & Hf & k1' & Hk & H1' & Hc). case_bool_decide as Eb.
    + destruct (He Eb) as [-> ->]. destruct Hd as [-> ->].
      destruct (poll_fill_buf_ok _ _ _ _ H2) as (p & r2' & -> & Ha).
      eexists _, _. split_and!; [done|]. eapply chain_second_fill; [done|lia].
    + eexists _, _. split; [done|]. split_and!.
      * destruct Hp as [d' ->]. destruct f1; destruct Hd as [-> _]; [by exists d'|].
        exists (d' ++ d2). by rewrite app_assoc.
      * done.
      * intros _. cbn [poll_fill_buf Chain_AsyncBufRead]. unfold Chain_poll_fill_buf.
        rewrite (Hf Eb). cbn [mbind option_bind ready_ok ready]. by rewrite bool_decide_eq_false_2.
      * exists (k1' + k2)%nat. split_and!; [lia| |].
        { by exists d1, f1, k1', d2, f2, k2. }
        intros n Hn. destruct (Hc n Hn) as (r'' & E & Hr).
        cbn [consume Chain_AsyncBufRead]. unfold Chain_consume. rewrite E. eexists. split; [done|].
        exists (zdrop n d1), f1, k1', d2, f2, k2. split_and!; [done..|].
        apply prefix_length in Hp.
        destruct f1; destruct Hd as [-> ->]; [done|]. by rewrite drop_app_le by lia.
  - destruct Ha as (-> & -> & k' & Hk & H1'). destruct Hd as [-> ->].
    eexists _, _. split_and!; [done..|]. hnf. split_and!; [done..|].
    by apply (chain_first_advance r1' r2 [] (Some e) k' k1 d2 f2 k2 [] (Some e) 0).
  - destruct Ha as (k' & Hk & H1'). eexists _, _. split_and!; [done..|].
    exists (k' + k2)%nat. split; [lia|]. by exists d1, f1, k', d2, f2, k2.
Qed.
End chain_ok.

(** * Properties *)

(** The readers as they are made. *)
Lemma buffer_rep_new {R} (rep : repr R) c r b data fin k :
  BufferReader_with_capacity c r = Some b -> 0 < c -> rep r data fin k -> buffer_rep rep b data fin k.
Proof.
  unfold BufferReader_with_capacity. destruct (Z.leb_spec c isize_MAX); [|done]. intros [= <-] Hc Hr.
  exists [], data. cbn [br_pos br_cap br_buf br_inner]. rewrite length_replicate.
  split_and!; [apply slice_0; lia|done|done|lia|lia].
Qed.

Lemma chain_rep_new {R1 R2} (rep1 : repr R1) (rep2 : repr R2) r1 r2 d1 f1 k1 d2 f2 k2 :
  rep1 r1 d1 f1 k1 -> rep2 r2 d2 f2 k2 ->
  chain_rep rep1 rep2 (ext_chain r1 r2) (match f1 with None => d1 ++ d2 | Some _ => d1 end)
    (match f1 with None => f2 | Some _ => f1 end) (k1 + k2).
Proof. intros. exists d1, f1, k1, d2, f2, k2. by destruct f1. Qed.

(** The bytes one after the other; [Interrupted] is answered as [Pending]. *)
Lemma bytes_yields {R} `{!AsyncRead R} (rep : repr R) `{!AsyncReadOk R rep} data :
  forall k r, rep r data None k -> exists k', (k' <= k)%nat /\ yields Bytes_poll_next k' r (Ok <$> data).
Proof.
  induction data as [|x data IHd]; intros k; induction (lt_wf k) as [k _ IHk]; intros r Hr;
    destruct (poll_read_ok r _ None k [0] Hr) as (p & r' & b & E & Hl & Ha);
    destruct b as [|y [|? ?]]; try done;
    (destruct p as [[n|e]|]; [|by destruct Ha as (_ & ? & _)|]);
    (assert (Eb : Bytes_poll_next r = _) by (unfold Bytes_poll_next; rewrite E; reflexivity));
    cbn [mbind option_bind ready] in Eb.
  - destruct Ha as (Hn & Hd & _). assert (n = 0) as -> by (cbn in Hd; lia). exists O. split; [lia|]. by econstructor.
  - destruct Ha as (k1 & Hk1 & Hr'). destruct (IHk k1 Hk1 r' Hr') as (k2 & ? & ?).
    exists (S k2). split; [lia|]. by econstructor.
  - destruct Ha as (Hn & Hd & Ht & Hz & k1 & Hk1 & Hr'). cbn [length] in Hn.
    assert (n = 1) as ->.
    { destruct (decide (n = 0)) as [Hn0|]; [|lia]. destruct (Hz Hn0) as [Hz1|[Hz1 _]]; [cbn in Hz1; lia|done]. }
    injection Ht as ->. destruct (IHd k1 r' Hr') as (k2 & ? & ?).
    exists k2. split; [lia|]. rewrite fmap_cons. eapply yields_item; [exact Eb|done].
  - destruct Ha as (k1 & Hk1 & Hr'). destruct (IHk k1 Hk1 r' Hr') as (k2 & ? & ?).
    exists (S k2). split; [lia|]. by econstructor.
Qed.


(** ** Seeking *)

(** A buffered cursor and the plain cursor it stands for. *)
Definition seek_sim (b : BufferReader Cursor) (c : Cursor) : Prop :=
  exists s, slice (br_pos b) (br_cap b) (br_buf b) = Some s /\
    inner (br_inner b) = inner c /\ pos (br_inner b) = pos c + zlen s /\
    s `prefix_of` remaining_slice c /\ 0 <= pos c /\ pos (br_inner b) <= usize_MAX /\
    zlen (inner c) <= isize_MAX /\ 0 < zlen (br_buf b) <= isize_MAX.

(** The plain cursor is where a seek has put it, and nothing is buffered. *)
Lemma seek_sim_discard b c p : zlen (inner c) <= isize_MAX -> 0 < zlen (br_buf b) <= isize_MAX ->
  0 <= p <= usize_MAX -> seek_sim (discard_buffer (set_inner b (Cursor_set_position c p))) (Cursor_set_position c p).
Proof.
  intros. exists []. cbn [br_pos br_cap br_buf br_inner set_inner discard_buffer inner pos Cursor_set_position length].
  split_and!; [apply slice_0; lia|done|lia|apply prefix_nil|lia|lia|lia|lia|lia].
Qed.

Lemma Cursor_seek_range c p r c' : 0 <= pos c <= usize_MAX ->
  match p with Start n => 0 <= n <= usize_MAX | _ => True end -> Cursor_seek c p = (r, c') ->
  (exists q, r = Ok q /\ c' = Cursor_set_position c q /\ 0 <= q <= usize_MAX) \/ (r = Err InvalidInput /\ c' = c).
Proof.
  intros Hp Hs E. destruct p as [n|n|n]; cbn in E;
    [injection E as E1 E2; subst; left; by exists n|..];
    (destruct (_ && _) eqn:Eb; injection E as E1 E2; subst; [left; eexists; split_and!; [done|done|lia|lia]|by right]).
Qed.

Lemma i64_checked_sub_some n m o : i64_checked_sub n m = Some o -> o = n - m.
Proof. unfold i64_checked_sub. destruct (_ && _); [by intros [= <-]|done]. Qed.

(** What an inner seek does to both cursors. *)
Lemma seek_inner_sim b c p q : seek_sim b c -> 
  (forall r c', Cursor_seek c q = (r, c') -> Cursor_seek (br_inner b) p = (r, match r with Ok _ => c' | Err _ => br_inner b end)) ->
  match q with Start n => 0 <= n <= usize_MAX | _ => True end ->
  exists res c', poll_seek c q = Some (Ready res, c') /\
    match res with
    | Ok v => poll_seek (br_inner b) p = Some (Ready (Ok v), c') /\ seek_sim (discard_buffer (set_inner b c')) c'
    | Err e => poll_seek (br_inner b) p = Some (Ready (Err e), br_inner b) /\ c' = c
    end.
Proof.
  intros (s & Hs & Hi & Hp & Hpre & H0 & Hmax & Hl & Hb) Hq Hrange.
  unfold poll_seek, Cursor_AsyncSeek. destruct (Cursor_seek c q) as [r c'] eqn:E.
  rewrite (Hq r c' eq_refl). exists r, c'. split; [done|].
  destruct (Cursor_seek_range c q r c') as [(v & -> & -> & Hv)|[-> ->]]; [lia|done|done| |by split].
  split; [done|]. by apply seek_sim_discard.
Qed.

(** Skipping the same bytes on both. *)
Lemma seek_sim_consume b c s n : seek_sim b c -> slice (br_pos b) (br_cap b) (br_buf b) = Some s ->
  0 <= n <= zlen s -> exists b' c', BufferReader_consume b n = Some b' /\ consume c n = Some c' /\ seek_sim b' c'.
Proof.
  intros (s' & Hs' & Hi & Hp & Hpre & H0 & Hmax & Hl & Hb) Hs Hn. rewrite Hs in Hs'. injection Hs' as <-.
  pose proof (slice_spec _ _ _ _ Hs) as (Hp1 & Hp2 & _ & Hls).
  cbn [consume Cursor_AsyncBufRead]. unfold BufferReader_consume.
  rewrite (proj2 (Z.leb_le (pos c + n) usize_MAX)) by lia.
  rewrite (proj2 (Z.leb_le (br_pos b + n) usize_MAX)) by (unfold usize_MAX, isize_MAX in *; lia).
  eexists _, _. split_and!; [done|done|]. exists (zdrop n s).
  cbn [br_pos br_cap br_buf br_inner inner pos Cursor_set_position]. rewrite length_drop.
  split_and!; [|done|lia| |lia|done|done|lia|lia].
  - replace (Z.min _ _) with (br_pos b + n) by lia. by eapply slice_drop.
  - pose proof (prefix_length _ _ Hpre). rewrite remaining_advance by lia. destruct Hpre as [t ->].
    rewrite drop_app_le by lia. by exists t.
Qed.

Lemma seek_sim_fill b c s : seek_sim b c -> slice (br_pos b) (br_cap b) (br_buf b) = Some s ->
  exists bs b', BufferReader_poll_fill_buf b = Some (Ready (Ok bs), b') /\
    bs `prefix_of` remaining_slice c /\ (bs = [] -> remaining_slice c = []) /\ seek_sim b' c /\
    slice (br_pos b') (br_cap b') (br_buf b') = Some bs.
Proof.
  intros Hsim Hs. pose proof Hsim as (s' & Hs' & Hi & Hp & Hpre & H0 & Hmax & Hl & Hb).
  rewrite Hs in Hs'. injection Hs' as <-.
  pose proof (slice_spec _ _ _ _ Hs) as (Hp1 & Hp2 & _ & Hls).
  destruct (decide (s = [])) as [->|Hne].
  2:{ exists s, b. split_and!; [by apply buffer_fill_nonempty|done|done|done|done]. }
  cbn [length] in *. assert (Hcc : br_inner b = c) by (destruct (br_inner b), c; cbn in *; f_equal; [done|lia]).
  unfold BufferReader_poll_fill_buf. rewrite (proj2 (Z.leb_le _ _)), option_guard_True by lia.
  cbn [mbind option_bind poll_read Cursor_AsyncRead]. rewrite Hcc.
  destruct (slice_read_spec (remaining_slice c) (br_buf b)) as (n & buf & -> & Hn & Hlen & Ht).
  cbn [mbind option_bind ready_ok ready br_pos br_cap br_buf]. rewrite slice_0 by lia.
  cbn [mbind option_bind]. rewrite Ht. eexists _, _. split; [done|].
  assert (Hrl : pos c + n <= usize_MAX).
  { unfold remaining_slice in Hn. rewrite length_drop in Hn. unfold usize_MAX, isize_MAX in *. lia. }
  split_and!.
  - apply prefix_take.
  - intros E. apply (f_equal length) in E. rewrite length_take in E. cbn in E.
    destruct (remaining_slice c); [done|cbn in *; lia].
  - exists (ztake n (remaining_slice c)). cbn [br_pos br_cap br_buf br_inner inner pos Cursor_set_position].
    rewrite slice_0, Ht, length_take by lia.
    split_and!; [done|done|lia|apply prefix_take|lia|lia|lia|lia|lia].
  - cbn [br_pos br_cap br_buf]. by rewrite slice_0, Ht by lia.
Qed.

(** C30: A [BufferReader] over a cursor seeks as the cursor would: from any
    state in which some bytes are buffered, a seek answers the same position
    or the same error as on the plain cursor, and leaves the two at the same
    place, also when [Current(n)] minus what is buffered overflows an [i64];
    what [poll_fill_buf] shows and [consume] skips is what comes next at the
    plain cursor's position. *)
Theorem buffered_seek_equiv (b : BufferReader Cursor) (c : Cursor) (Hsim : seek_sim b c) :
  (forall p, match p with Start n => 0 <= n <= usize_MAX | _ => True end ->
     exists res b' c', BufferReader_poll_seek b p = Some (Ready res, b') /\
       poll_seek c p = Some (Ready res, c') /\ seek_sim b' c') /\
  (exists bs b', BufferReader_poll_fill_buf b = Some (Ready (Ok bs), b') /\
     bs `prefix_of` remaining_slice c /\ (bs = [] -> remaining_slice c = []) /\ seek_sim b' c /\
     forall n, 0 <= n <= zlen bs -> exists b'' c'', BufferReader_consume b' n = Some b'' /\
       consume c n = Some c'' /\ seek_sim b'' c'').
Proof.
  pose proof Hsim as (s & Hs & Hi & Hp & Hpre & H0 & Hmax & Hl & Hb).
  pose proof (slice_spec _ _ _ _ Hs) as (Hp1 & Hp2 & _ & Hls).
  split.
  - intros p Hrange. unfold BufferReader_poll_seek.
    assert (Hgo : forall p', (forall r c', Cursor_seek c p = (r, c') ->
        Cursor_seek (br_inner b) p' = (r, match r with Ok _ => c' | Err _ => br_inner b end)) ->
      exists res b' c', ('(r, i) ← poll_seek (br_inner b) p';
          ready_ok r (set_inner b i) (fun result =>
            Some (Ready (Ok result), discard_buffer (set_inner b i)))) = Some (Ready res, b') /\
        poll_seek c p = Some (Ready res, c') /\ seek_sim b' c').
    { intros p' Hq. destruct (seek_inner_sim b c p' p Hsim Hq Hrange) as (res & c' & -> & Hres).
      destruct res as [v|e]; destruct Hres as [-> Hs']; cbn [mbind option_bind ready_ok ready].
      - by eexists _, _, _.
      - subst c'. eexists _, _, _. split_and!; [done|done|]. by destruct b. }
    destruct p as [n|n|n].
    + apply Hgo. intros r c' [= <- <-]. cbn. unfold Cursor_set_position. by rewrite Hi.
    + apply Hgo. cbn. rewrite Hi. intros r c'. destruct (_ && _); intros [= <- <-]; [|done].
      unfold Cursor_set_position. by rewrite Hi.
    + destruct (i64_checked_sub n (br_cap b - br_pos b)) as [o|] eqn:Eo.
      * apply i64_checked_sub_some in Eo as ->. apply Hgo. cbn. intros r c'.
        replace (pos (br_inner b) + (n - (br_cap b - br_pos b))) with (pos c + n) by lia.
        destruct (_ && _); intros [= <- <-]; [|done]. unfold Cursor_set_position. by rewrite Hi.
      * (* back to the plain position first *)
        assert (E0 : poll_seek (br_inner b) (Current (- (br_cap b - br_pos b))) = Some (Ready (Ok (pos c)), c)).
        { unfold poll_seek, Cursor_AsyncSeek, Cursor_seek.
          replace (pos (br_inner b) + - (br_cap b - br_pos b)) with (pos c) by lia.
          replace ((0 <=? pos c) && (pos c <=? usize_MAX)) with true by lia.
          unfold Cursor_set_position. rewrite Hi. by destruct c. }
        rewrite E0. cbn [mbind option_bind ready_ok ready br_inner discard_buffer set_inner].
        pose proof (seek_sim_discard b c (pos c) Hl Hb ltac:(lia)) as Hd.
        replace (Cursor_set_position c (pos c)) with c in Hd by (by destruct c).
        destruct (seek_inner_sim _ c (Current n) (Current n) Hd) as (res & c' & E1 & Hres).
        { cbn [br_inner discard_buffer set_inner]. intros r c' E. rewrite E.
          destruct (Cursor_seek_range c (Current n) r c') as [(v & -> & -> & _)|[-> ->]]; [lia|done..]. }
        { done. }
        rewrite E1. cbn [br_inner discard_buffer set_inner] in Hres. rewrite E1 in Hres.
        cbn [mbind option_bind]. destruct res as [v|e]; cbn [ready_ok ready];
          destruct Hres as [_ Hres]; eexists _, _, _; (split_and!; [done|done|]).
        -- exact Hres.
        -- subst c'. exact Hd.
  - destruct (seek_sim_fill b c s Hsim Hs) as (bs & b' & E & Hpre' & Hnil & Hsim' & Hs').
    exists bs, b'. split_and!; [done..|]. intros n Hn. by apply (seek_sim_consume b' c bs).
Qed.
(** ** Concrete runs *)

Ltac probe_run := vm_compute; repeat split; first [discriminate | lia | congruence].


Lemma buffered_seek_equiv_witness :
  let c := {| inner := [1; 2; 3; 4; 5]; pos := 1 |} in
  let b := Build_BufferReader {| inner := [1; 2; 3; 4; 5]; pos := 3 |} [1; 2; 3] 0 1 3 in
  seek_sim b c /\ exists res b' c', BufferReader_poll_seek b (Current 2) = Some (Ready res, b') /\
    poll_seek c (Current 2) = Some (Ready res, c') /\ seek_sim b' c'.
Proof.
  cbv zeta.
  assert (H : seek_sim (Build_BufferReader {| inner := [1; 2; 3; 4; 5]; pos := 3 |} [1; 2; 3] 0 1 3)
                {| inner := [1; 2; 3; 4; 5]; pos := 1 |}).
  { exists [2; 3]. split_and!; try (vm_compute; congruence). by exists [4; 5]. }
  split; [exact H|]. exact (proj1 (buffered_seek_equiv _ _ H) (Current 2) I).
Defined.

(** A vectored read into empty buffers reads nothing, and [Chain] takes that
    for the end of its first reader, whose bytes are then lost. *)
Lemma chain_vectored_skips_first :
  let c := ext_chain (Cursor_new [1; 2]) (Cursor_new [3]) in
  exists c', poll_read_vectored c [[]] = Some (Ready (Ok 0), (c', [[]])) /\
    exists c'', poll_read c' [0; 0; 0] = Some (Ready (Ok 1), (c'', [3; 0; 0])).
Proof. eexists. split; [vm_compute; reflexivity|]. eexists. vm_compute. reflexivity. Qed.

(** [Bytes] answers [Pending] for an interrupted read: its reader was ready and
    has kept no waker, so nothing wakes the task again. *)
Lemma bytes_interrupted_pending :
  poll_read (probe [1] 0 (Some Interrupted)) [0] = Some (Ready (Ok 1), ({| probe_cursor :=
    {| inner := [1]; pos := 1 |}; probe_pendings := 0; probe_error := Some Interrupted |}, [1])) /\
  let r := {| probe_cursor := {| inner := [1]; pos := 1 |}; probe_pendings := 0; probe_error := Some Interrupted |} in
  poll_read r [0] = Some (Ready (Err Interrupted), (r, [0])) /\ Bytes_poll_next r = Some (Pending, r).
Proof. by vm_compute. Qed.
