(* ===== verification/LineIo.v ===== *)
(** [future/swap.rs], part 3: reading up to a delimiter. *)

From S2P Require Import Prelude Stream Io BufIo.

(** * [String::from_utf8] *)

Definition byte_in (lo hi b : Z) : bool := (lo <=? b) && (b <=? hi).
Definition utf8_cont (b : Z) : bool := byte_in 0x80 0xBF b.

(** The second byte of a three or four byte sequence. *)
Definition utf8_second3 (b0 b1 : Z) : bool :=
  if b0 =? 0xE0 then byte_in 0xA0 0xBF b1
  else if b0 =? 0xED then byte_in 0x80 0x9F b1
  else byte_in 0xE1 0xEF b0 && utf8_cont b1.
Definition utf8_second4 (b0 b1 : Z) : bool :=
  if b0 =? 0xF0 then byte_in 0x90 0xBF b1
  else if b0 =? 0xF4 then byte_in 0x80 0x8F b1
  else byte_in 0xF1 0xF3 b0 && utf8_cont b1.

Fixpoint utf8_valid (l : bytes) : bool :=
  match l with
  | [] => true
  | b0 :: l1 =>
      if b0 <? 0x80 then utf8_valid l1
      else match l1 with
      | [] => false
      | b1 :: l2 =>
          if byte_in 0xC2 0xDF b0 then utf8_cont b1 && utf8_valid l2
          else match l2 with
          | [] => false
          | b2 :: l3 =>
              if byte_in 0xE0 0xEF b0 then utf8_second3 b0 b1 && utf8_cont b2 && utf8_valid l3
              else match l3 with
              | [] => false
              | b3 :: l4 => utf8_second4 b0 b1 && utf8_cont b2 && utf8_cont b3 && utf8_valid l4
              end
          end
      end
  end.

(** A string is the list of the bytes of its encoding. *)
Definition from_utf8 (l : bytes) : option bytes := if utf8_valid l then Some l else None.

(** * [FillBuf] *)

Definition FillBuf_poll {R} `{!AsyncBufRead R} (reader : option R)
    : option (poll (ioresult bytes) * option R) :=
  reader ← reader;                                                 (* expect *)
  '(p, reader) ← poll_fill_buf reader;
  match p with
  | Ready (Ok _) =>
      '(p, reader) ← poll_fill_buf reader;
      match p with
      | Ready (Ok s) => Some (Ready (Ok s), None)
      | _ => None                                                  (* panic! *)
      end
  | Ready (Err err) => Some (Ready (Err err), None)
  | Pending => Some (Pending, Some reader)
  end.

(** * [read_until], [read_line], [lines] and [split]

    [memchr::memchr] belongs to the crate [memchr]: the index of the first
    occurrence of a byte. *)

Definition memchr_spec (memchr : Z -> bytes -> option Z) : Prop :=
  forall b l, match memchr b l with
              | Some i => 0 <= i < zlen l /\ l !! Z.to_nat i = Some b /\ b ∉ ztake i l
              | None => b ∉ l
              end.

Definition NL : Z := 10.
Definition CR : Z := 13.

Section until.
Context {R : Type} `{!AsyncBufRead R} (memchr : Z -> bytes -> option Z).

Fixpoint read_until_internal (fuel : nat) (reader : R) (byte : Z) (buf : bytes) (read : Z)
    : option (poll (ioresult Z) * (R * bytes * Z)) :=
  match fuel with
  | O => None
  | S fuel =>
      '(r, reader) ← poll_fill_buf reader;
      ready_ok r (reader, buf, read) (fun available =>
        let '(done, used, buf) :=
          match memchr byte available with
          | Some i => (true, i + 1, buf ++ ztake (i + 1) available)
          | None => (false, zlen available, buf ++ available)
          end in
        reader ← consume reader used;
        let read := read + used in
        if done || (used =? 0) then Some (Ready (Ok read), (reader, buf, 0))
        else read_until_internal fuel reader byte buf read)
  end.

Definition ReadUntilFuture_poll (fuel : nat) (byte : Z) (st : R * bytes * Z) :=
  let '(reader, buf, read) := st in read_until_internal fuel reader byte buf read.

(** The string [buf], the bytes of the line and the count of [read_line]. *)
Definition read_line_internal (fuel : nat) (reader : R) (buf bs : bytes) (read : Z)
    : option (poll (ioresult Z) * (R * bytes * bytes * Z)) :=
  '(r, (reader, bs, read)) ← read_until_internal fuel reader NL bs read;
  ready r (reader, buf, bs, read) (fun ret =>
    match from_utf8 bs with
    | Some s =>
        guard (buf = []);;                                         (* debug_assert! *)
        guard (read = 0);;                                         (* debug_assert_eq! *)
        Some (Ready ret, (reader, s, [], read))
    | None =>
        Some (Ready (match ret with Ok _ => Err InvalidData | Err e => Err e end), (reader, buf, [], read))
    end).

Definition ReadLineFuture_poll (fuel : nat) (st : R * bytes * bytes * Z) :=
  let '(reader, buf, bs, read) := st in read_line_internal fuel reader buf bs read.

Definition ends_with (l : bytes) (c : Z) : bool := bool_decide (last l = Some c).

(** [if buf.ends_with('\n') { buf.pop(); if buf.ends_with('\r') { .. } }] *)
Definition strip_newline (buf : bytes) : bytes :=
  if ends_with buf NL then
    let buf := removelast buf in
    if ends_with buf CR then removelast buf else buf
  else buf.

Definition Lines_poll_next (fuel : nat) (st : R * bytes * bytes * Z)
    : option (poll (option (ioresult bytes)) * (R * bytes * bytes * Z)) :=
  let '(reader, buf, bs, read) := st in
  '(r, (reader, buf, bs, read)) ← read_line_internal fuel reader buf bs read;
  ready r (reader, buf, bs, read) (fun res =>
    match res with
    | Err e => Some (Ready (Some (Err e)), (reader, buf, bs, read))
    | Ok n =>
        if (n =? 0) && bool_decide (buf = []) then Some (Ready None, (reader, buf, bs, read))
        else Some (Ready (Some (Ok (strip_newline buf))), (reader, [], bs, read))
    end).

Definition Split_poll_next (fuel : nat) (delim : Z) (st : R * bytes * Z)
    : option (poll (option (ioresult bytes)) * (R * bytes * Z)) :=
  let '(reader, buf, read) := st in
  '(r, (reader, buf, read)) ← read_until_internal fuel reader delim buf read;
  ready r (reader, buf, read) (fun res =>
    match res with
    | Err e => Some (Ready (Some (Err e)), (reader, buf, read))
    | Ok n =>
        if (n =? 0) && bool_decide (buf = []) then Some (Ready None, (reader, buf, read))
        else
          b ← last buf;                                            (* buf[buf.len() - 1] *)
          let buf := if b =? delim then removelast buf else buf in
          Some (Ready (Some (Ok buf)), (reader, [], read))
    end).

(** The futures and streams as they are made. *)
Definition ext_read_until (reader : R) (buf : bytes) : R * bytes * Z := (reader, buf, 0).
Definition ext_read_line (reader : R) (buf : bytes) : R * bytes * bytes * Z := (reader, buf, [], 0).
Definition ext_lines (reader : R) : R * bytes * bytes * Z := (reader, [], [], 0).
Definition ext_split_on (reader : R) : R * bytes * Z := (reader, [], 0).
End until.

(** * Up to a delimiter *)

(** The bytes up to the first [b], with it; all of them when there is none. *)
Fixpoint until (b : Z) (l : bytes) : bytes :=
  match l with
  | [] => []
  | x :: l => if x =? b then [x] else x :: until b l
  end.

(** A list cut after each [b]. *)
Fixpoint chunks (b : Z) (l : bytes) : list bytes :=
  match l with
  | [] => []
  | x :: l =>
      if x =? b then [x] :: chunks b l
      else match chunks b l with
           | [] => [[x]]
           | c :: cs => (x :: c) :: cs
           end
  end.

Lemma until_app b pre l : b ∉ pre -> until b (pre ++ l) = pre ++ until b l.
Proof.
  induction pre as [|x pre IH]; [done|]. rewrite not_elem_of_cons. intros [Hx Hp]. simpl.
  rewrite (proj2 (Z.eqb_neq x b)) by done. by rewrite IH.
Qed.

Lemma until_notin b l : b ∉ l -> until b l = l.
Proof. intros. rewrite <- (app_nil_r l), until_app by done. done. Qed.

Lemma until_found b l d i : 0 <= i -> l !! Z.to_nat i = Some b -> b ∉ ztake i l ->
  until b (l ++ d) = ztake (i + 1) l.
Proof.
  intros Hi Hl Hn. rewrite <- (take_drop (Z.to_nat i) l) at 1. rewrite <- app_assoc, until_app by done.
  rewrite (drop_S _ _ _ Hl). simpl. rewrite Z.eqb_refl.
  replace (Z.to_nat (i + 1)) with (S (Z.to_nat i)) by lia. by rewrite (take_S_r _ _ b).
Qed.

Lemma until_prefix b l : ztake (zlen (until b l)) l = until b l /\ (length (until b l) <= length l)%nat.
Proof.
  rewrite Nat2Z.id. induction l as [|x l [IH1 IH2]]; [done|]. simpl.
  destruct (x =? b); simpl; [split; [done|lia]|]. rewrite IH1. split; [done|lia].
Qed.

Lemma until_nonempty b l : l <> [] -> (0 < length (until b l) <= length l)%nat.
Proof. intros Hl. split; [|apply until_prefix]. destruct l as [|x l]; [done|]. simpl. destruct (x =? b); simpl; lia. Qed.

Lemma until_last b l : b ∈ l -> last (until b l) = Some b.
Proof.
  induction l as [|x l IH]; [by intros ?%elem_of_nil|]. intros H. simpl.
  destruct (Z.eqb_spec x b) as [->|Hx]; [done|].
  apply elem_of_cons in H as [->|H]; [done|]. specialize (IH H).
  rewrite last_cons, IH. done.
Qed.

Lemma chunks_until b l : l <> [] -> chunks b l = until b l :: chunks b (drop (length (until b l)) l).
Proof.
  induction l as [|x l IH]; [done|]. intros _. simpl. destruct (x =? b); [done|].
  destruct l as [|y l]; [done|]. by rewrite IH.
Qed.

(** The pieces put together again. *)
Lemma chunks_concat b l : concat (chunks b l) = l.
Proof.
  induction l as [|x l IH]; [done|]. simpl. destruct (x =? b); [simpl; by rewrite IH|].
  destruct (chunks b l); simpl in *; by rewrite <- IH.
Qed.

Section until_ok.
Context {R : Type} `{!AsyncBufRead R} (rep : repr R) `{!AsyncBufReadOk R rep}.
Context (memchr : Z -> bytes -> option Z) (memchr_ok : memchr_spec memchr).

(** What [m] bytes of [data] taken by one poll, or by one future, mean. *)
Definition until_answer (byte : Z) (buf : bytes) (read : Z) (data : bytes) (fin : option ErrorKind)
    (k m : nat) (p : poll (ioresult Z)) (st : R * bytes * Z) : Prop :=
  let '(r', buf', read') := st in
  (m <= length data)%nat /\ buf' = buf ++ take m data /\
  match p with
  | Pending => byte ∉ take m data /\ read' = read + Z.of_nat m /\
      exists k', (k' < k)%nat /\ rep r' (drop m data) fin k'
  | Ready (Ok c) => c = read + Z.of_nat m /\ read' = 0 /\ take m data = until byte data /\
      (byte ∈ data \/ fin = None) /\ exists k', (k' <= k)%nat /\ rep r' (drop m data) fin k'
  | Ready (Err e) => fin = Some e /\ byte ∉ data /\ m = length data /\ read' = read + Z.of_nat m /\
      exists k', (k' <= k)%nat /\ rep r' [] fin k'
  end.

(** A first part without the delimiter, then an answer on what follows. *)
Lemma until_answer_app byte buf read pre data fin k k' m p st :
  byte ∉ pre -> (k' <= k)%nat ->
  until_answer byte (buf ++ pre) (read + zlen pre) data fin k' m p st ->
  until_answer byte buf read (pre ++ data) fin k (length pre + m) p st.
Proof.
  destruct st as [[r' buf'] read']. intros Hn Hk (Hm & -> & Ha).
  split; [rewrite length_app; lia|]. rewrite take_app_add, drop_app_add. split; [by rewrite <- app_assoc|].
  destruct p as [[c|e]|].
  - destruct Ha as (-> & -> & Ht & Hd & k2 & ? & ?).
    split_and!; [lia|done|by rewrite until_app, Ht| |].
    + destruct Hd as [Hd|Hd]; [left|by right]. apply elem_of_app. by right.
    + exists k2. split; [lia|done].
  - destruct Ha as (-> & Hd & -> & -> & k2 & ? & ?).
    split_and!; [done|by rewrite elem_of_app; intros [|]|by rewrite length_app|lia|].
    exists k2. split; [lia|done].
  - destruct Ha as (Hd & -> & k2 & ? & ?).
    split_and!; [by rewrite elem_of_app; intros [|]|lia|]. exists k2. split; [lia|done].
Qed.

Lemma read_until_poll fuel reader byte buf read data fin k :
  rep reader data fin k -> (length data < fuel)%nat ->
  exists m p st, read_until_internal memchr fuel reader byte buf read = Some (p, st) /\
    until_answer byte buf read data fin k m p st.
Proof.
  revert reader buf read data k. induction fuel as [|fuel IH]; intros reader buf read data k Hr Hf; [lia|].
  cbn [read_until_internal]. destruct (poll_fill_buf_ok _ _ _ _ Hr) as (p & r' & -> & Ha).
  cbn [mbind option_bind]. destruct p as [[av|e]|]; cbn [ready_ok ready].
  - destruct Ha as ([d ->] & He & _ & k' & Hk & _ & Hc).
    pose proof (memchr_ok byte av) as Hm. destruct (memchr byte av) as [i|].
    + destruct Hm as (Hi & Hl & Hn). destruct (Hc (i + 1)) as (r'' & -> & Hr''); [lia|].
      eexists (Z.to_nat (i + 1)), _, _. split; [done|].
      split; [rewrite length_app; lia|]. rewrite take_app_le by lia. split; [done|].
      split_and!; [lia|done|by rewrite (until_found _ _ _ i) by (done || lia)| |by exists k'].
      left. apply elem_of_app. left. by apply list_elem_of_lookup_2 in Hl.
    + destruct (Hc (zlen av)) as (r'' & -> & Hr''); [lia|]. cbn [mbind option_bind orb].
      rewrite Nat2Z.id, drop_app_length in Hr''.
      destruct (Z.eqb_spec (zlen av) 0) as [Hz|Hz].
      * assert (av = []) as -> by (destruct av; [done|cbn in Hz; lia]). destruct He as [Hd ->]; [done|].
        rewrite app_nil_l in *. subst d.
        eexists O, _, _. split; [done|]. split_and!; [cbn; lia|done|cbn; lia|done|done|by right|by exists k'].
      * destruct (IH r'' (buf ++ av) (read + zlen av) d k' Hr'') as (m & p & st & -> & Ha).
        { rewrite length_app in Hf. lia. }
        eexists (length av + m)%nat, _, _. split; [done|]. by eapply until_answer_app.
  - destruct Ha as (-> & -> & k' & Hk & Hr'). eexists O, _, _. split; [done|].
    split_and!; [cbn; lia|by rewrite app_nil_r|done|apply not_elem_of_nil|done|lia|by exists k'].
  - destruct Ha as (k' & Hk & Hr'). eexists O, _, _. split; [done|].
    split_and!; [lia|by rewrite app_nil_r|apply not_elem_of_nil|lia|by exists k'].
Qed.

(** The future: pending at most [k] times, then the whole answer. *)
Lemma read_until_completes fuel reader byte buf read data fin k :
  rep reader data fin k -> (length data < fuel)%nat ->
  exists k' m t st, (k' <= k)%nat /\
    completes (ReadUntilFuture_poll memchr fuel byte) k' (reader, buf, read) t st /\
    until_answer byte buf read data fin (k - k') m (Ready t) st.
Proof.
  revert reader buf read data. induction (lt_wf k) as [k _ IH]. intros reader buf read data Hr Hf.
  destruct (read_until_poll fuel reader byte buf read data fin k Hr Hf) as (m & p & st & E & Ha).
  destruct p as [t|].
  { exists O, m, t, st. split; [lia|]. split; [by constructor|by rewrite Nat.sub_0_r]. }
  destruct st as [[r' buf'] read']. destruct Ha as (Hm & -> & Hn & -> & k1 & Hk1 & Hr').
  edestruct (IH k1 Hk1 r' (buf ++ take m data) (read + Z.of_nat m)) as (k2 & m2 & t & st & Hk2 & Hc & Ha);
    [done|rewrite length_drop; lia|].
  exists (S k2), (m + m2)%nat, t, st. split; [lia|]. split; [by econstructor|].
  pose proof (until_answer_app byte buf read (take m data) (drop m data) fin (k - S k2) (k1 - k2) m2 (Ready t) st Hn) as Happ.
  rewrite take_drop, length_take, Nat.min_l in Happ by lia. by apply Happ; [lia|].
Qed.
End until_ok.

(** ** Streams and futures made of another future *)

Section lift.
Context {F G T : Type} (fut : F -> option (poll T * F)) (emb : F -> G).

Lemma completes_lift {T2} (fut2 : G -> option (poll T2 * G)) (g : T -> F -> option (poll T2 * G)) k f t f' t2 s2 :
  (forall f, fut2 (emb f) = '(r, f) ← fut f; ready r (emb f) (fun t => g t f)) ->
  completes fut k f t f' -> g t f' = Some (Ready t2, s2) -> completes fut2 k (emb f) t2 s2.
Proof.
  intros Hf Hc Hg. induction Hc as [s t s' E|k s s' t s'' E Hc IH].
  - constructor. by rewrite Hf, E.
  - econstructor; [by rewrite Hf, E|]. by apply IH.
Qed.

(** When the last step panics, the future never returns. *)
Lemma completes_lift_none {T2} (fut2 : G -> option (poll T2 * G)) (g : T -> F -> option (poll T2 * G)) k f t f' :
  (forall f, fut2 (emb f) = '(r, f) ← fut f; ready r (emb f) (fun t => g t f)) ->
  completes fut k f t f' -> g t f' = None -> forall j t2 s2, ~ completes fut2 j (emb f) t2 s2.
Proof.
  intros Hf Hc Hg. induction Hc as [s t s' E|k s s' t s'' E Hc IH]; intros j t2 s2 H2;
    inversion H2 as [? ? ? E2|? ? ? ? ? E2]; subst; rewrite Hf, E in E2; cbn in E2; simplify_eq.
  by eapply IH.
Qed.

Lemma yields_lift {A} (next : machine G A) (g : T -> F -> option (poll (option A) * G)) k f t f' :
  (forall f, next (emb f) = '(r, f) ← fut f; ready r (emb f) (fun t => g t f)) ->
  completes fut k f t f' ->
  (forall a s l k2, g t f' = Some (Ready (Some a), s) -> yields next k2 s l -> yields next (k + k2) (emb f) (a :: l)) /\
  (forall s, g t f' = Some (Ready None, s) -> yields next k (emb f) []).
Proof.
  intros Hf Hc. induction Hc as [s t s' E|k s s' t s'' E Hc [IH1 IH2]].
  - split; intros; econstructor; rewrite ?Hf, ?E; done.
  - split; intros; simpl; (eapply yields_pending; [by rewrite Hf, E|]); eauto.
Qed.
End lift.

(** What [split] makes of a chunk, and [lines] of a line. *)
Definition piece (delim : Z) (c : bytes) : bytes :=
  match last c with
  | Some b => if b =? delim then removelast c else c
  | None => c
  end.

Definition line_item (c : bytes) : ioresult bytes :=
  if utf8_valid c then Ok (strip_newline c) else Err InvalidData.

Section streams.
Context {R : Type} `{!AsyncBufRead R} (rep : repr R) `{!AsyncBufReadOk R rep}.
Context (memchr : Z -> bytes -> option Z) (memchr_ok : memchr_spec memchr) (fuel : nat).

Lemma until_take data m b : (m <= length data)%nat -> take m data = until b data -> m = length (until b data).
Proof. intros ? E. apply (f_equal length) in E. rewrite length_take in E. lia. Qed.

Lemma split_yields delim reader data k : rep reader data None k -> (length data < fuel)%nat ->
  exists k', (k' <= k)%nat /\
    yields (Split_poll_next memchr fuel delim) k' (ext_split_on reader) (Ok <$> (piece delim <$> chunks delim data)).
Proof.
  remember (length data) as n eqn:Hlen. revert reader data k Hlen.
  induction (lt_wf n) as [n _ IH]. intros reader data k Hlen Hr Hf.
  destruct (read_until_completes rep memchr memchr_ok fuel reader delim [] 0 data None k Hr)
    as (k1 & m & t & [[r' buf'] read'] & Hk1 & Hc & Hm & -> & Ha); [lia|].
  destruct t as [c|e]; [|by destruct Ha]. destruct Ha as (-> & -> & Ht & _ & k2 & Hk2 & Hr').
  assert (Hl : forall f, Split_poll_next memchr fuel delim f =
    '(r, f) ← ReadUntilFuture_poll memchr fuel delim f; ready r f (fun res =>
      let '(reader, buf, read) := f in
      match res with
      | Err e => Some (Ready (Some (Err e)), f)
      | Ok n => if (n =? 0) && bool_decide (buf = []) then Some (Ready None, f)
                else b ← last buf;
                     Some (Ready (Some (Ok (if b =? delim then removelast buf else buf))), (reader, [], read))
      end)).
  { intros [[? ?] ?]. unfold Split_poll_next, ReadUntilFuture_poll.
    destruct (read_until_internal _ _ _ _ _ _) as [[? [[? ?] ?]]|]; done. }
  destruct (yields_lift _ id (Split_poll_next memchr fuel delim) _ _ _ _ _ Hl Hc) as [Hitem Hend].
  cbn beta iota in Hitem, Hend. rewrite Ht in *. pose proof (until_take _ _ _ Hm Ht) as ->.
  destruct (decide (data = [])) as [->|Hne].
  { exists k1. split; [lia|]. eapply Hend. done. }
  rewrite (chunks_until delim data Hne).
  destruct (IH (length (drop (length (until delim data)) data))) with (reader := r')
    (data := drop (length (until delim data)) data) (k := k2) as (k3 & Hk3 & Hy); [|done|done| |].
  { pose proof (until_nonempty delim data Hne). rewrite length_drop. lia. }
  { rewrite length_drop. lia. }
  exists (k1 + k3)%nat. split; [lia|]. rewrite !fmap_cons. eapply Hitem; [|done].
  pose proof (until_nonempty delim data Hne) as Hpos.
  destruct (last (until delim data)) as [b|] eqn:Hb; [|apply last_None in Hb; by rewrite Hb in Hpos; cbn in Hpos; lia].
  unfold piece. rewrite app_nil_l, Hb.
  assert (until delim data <> []) by (intros E; by rewrite E in Hb).
  rewrite bool_decide_eq_false_2, andb_false_r by done. done.
Qed.

(** [read_line] is [read_until], then one step. *)
Definition line_done (buf : bytes) (t : ioresult Z) (st : R * bytes * Z)
    : option (poll (ioresult Z) * (R * bytes * bytes * Z)) :=
  let '(reader, bs, read) := st in
  match from_utf8 bs with
  | Some s => guard (buf = []);; guard (read = 0);; Some (Ready t, (reader, s, [], read))
  | None => Some (Ready (match t with Ok _ => Err InvalidData | Err e => Err e end), (reader, buf, [], read))
  end.

Definition line_state (buf : bytes) (st : R * bytes * Z) : R * bytes * bytes * Z :=
  let '(reader, bs, read) := st in (reader, buf, bs, read).

Lemma read_line_lift buf st :
  ReadLineFuture_poll memchr fuel (line_state buf st) =
  '(r, st) ← ReadUntilFuture_poll memchr fuel NL st; ready r (line_state buf st) (fun t => line_done buf t st).
Proof.
  destruct st as [[reader bs] read]. cbn [line_state ReadLineFuture_poll ReadUntilFuture_poll].
  unfold read_line_internal. by destruct (read_until_internal _ _ _ _ _ _) as [[? [[? ?] ?]]|].
Qed.

Definition lines_done (t : ioresult Z) (st : R * bytes * bytes * Z)
    : option (poll (option (ioresult bytes)) * (R * bytes * bytes * Z)) :=
  let '(reader, buf, bs, read) := st in
  match t with
  | Err e => Some (Ready (Some (Err e)), st)
  | Ok n =>
      if (n =? 0) && bool_decide (buf = []) then Some (Ready None, st)
      else Some (Ready (Some (Ok (strip_newline buf))), (reader, [], bs, read))
  end.

Lemma lines_lift st :
  Lines_poll_next memchr fuel st =
  '(r, st) ← ReadLineFuture_poll memchr fuel st; ready r st (fun t => lines_done t st).
Proof.
  destruct st as [[[reader buf] bs] read]. cbn [Lines_poll_next ReadLineFuture_poll].
  by destruct (read_line_internal _ _ _ _ _ _) as [[? [[[? ?] ?] ?]]|].
Qed.

(** One line: pending at most [k] times, then the line is taken. *)
Lemma read_line_completes reader data fin k : rep reader data fin k -> (length data < fuel)%nat ->
  NL ∈ data \/ fin = None ->
  exists k' k2 r', (k' + k2 <= k)%nat /\ rep r' (drop (length (until NL data)) data) fin k2 /\
    let c := until NL data in
    completes (ReadLineFuture_poll memchr fuel) k' (ext_read_line reader [])
      (if utf8_valid c then Ok (zlen c) else Err InvalidData)
      (r', (if utf8_valid c then c else []), [], 0).
Proof.
  intros Hr Hf Hd.
  destruct (read_until_completes rep memchr memchr_ok fuel reader NL [] 0 data fin k Hr)
    as (k1 & m & t & [[r' buf'] read'] & Hk1 & Hc & Hm & -> & Ha); [lia|].
  destruct t as [c|e]; [|by destruct Ha as (-> & ? & _); destruct Hd].
  destruct Ha as (-> & -> & Ht & _ & k2 & Hk2 & Hr'). rewrite Ht in *.
  pose proof (until_take _ _ _ Hm Ht) as ->.
  exists k1, k2, r'. split_and!; [lia|done|]. cbv zeta.
  apply (completes_lift _ (line_state []) _ (line_done []) _ _ _ _ _ _ (read_line_lift []) Hc).
  unfold line_done, from_utf8. rewrite app_nil_l. by destruct (utf8_valid _).
Qed.

Lemma lines_yields reader data k : rep reader data None k -> (length data < fuel)%nat ->
  exists k', (k' <= k)%nat /\
    yields (Lines_poll_next memchr fuel) k' (ext_lines reader) (line_item <$> chunks NL data).
Proof.
  remember (length data) as n eqn:Hlen. revert reader data k Hlen.
  induction (lt_wf n) as [n _ IH]. intros reader data k Hlen Hr Hf.
  destruct (read_line_completes reader data None k Hr ltac:(lia) ltac:(by right))
    as (k1 & k2 & r' & Hk & Hr' & Hc). cbv zeta in Hc.
  destruct (yields_lift _ id (Lines_poll_next memchr fuel) _ _ _ _ _ lines_lift Hc) as [Hitem Hend].
  destruct (decide (data = [])) as [->|Hne].
  { exists k1. split; [lia|]. by eapply Hend. }
  pose proof (until_nonempty NL data Hne) as Hpos.
  rewrite (chunks_until NL data Hne).
  destruct (IH (length (drop (length (until NL data)) data))) with (reader := r')
    (data := drop (length (until NL data)) data) (k := k2) as (k3 & Hk3 & Hy); [|done|done| |].
  { rewrite length_drop. lia. }
  { rewrite length_drop. lia. }
  exists (k1 + k3)%nat. split; [lia|]. rewrite fmap_cons. eapply Hitem; [|done].
  unfold line_item. destruct (utf8_valid _); [|done].
  unfold lines_done. rewrite bool_decide_eq_false_2, andb_false_r; [done|].
  intros E. rewrite E in Hpos. cbn in Hpos. lia.
Qed.
End streams.

(** * Properties *)

Section examples.
Local Open Scope Z_scope.

(** A [memchr] for the witnesses. *)
Fixpoint memchr_ref (b : Z) (l : bytes) : option Z :=
  match l with
  | [] => None
  | x :: l => if x =? b then Some 0 else i ← memchr_ref b l; Some (i + 1)
  end.
End examples.

Lemma memchr_ref_ok : memchr_spec memchr_ref.
Proof.
  intros b l. induction l as [|x l IH]; [apply not_elem_of_nil|]. simpl.
  destruct (Z.eqb_spec x b) as [->|Hx].
  { split_and!; [lia|lia|done|]. apply not_elem_of_nil. }
  destruct (memchr_ref b l) as [i|]; cbn [mbind option_bind].
  - destruct IH as (Hi & Hl & Hn). replace (Z.to_nat (i + 1)) with (S (Z.to_nat i)) by lia.
    split_and!; [lia|lia|done|]. simpl. rewrite not_elem_of_cons. split; [congruence|done].
  - rewrite not_elem_of_cons. split; [congruence|done].
Qed.

(** Cutting what was put together with delimiters gives the pieces back. *)
Lemma chunks_joined d l ps : d ∉ l -> chunks d (l ++ d :: ps) = (l ++ [d]) :: chunks d ps.
Proof.
  induction l as [|x l IH]; simpl; [by rewrite Z.eqb_refl|]. rewrite not_elem_of_cons. intros [Hx Hl].
  rewrite (proj2 (Z.eqb_neq x d)) by done. by rewrite IH.
Qed.

Lemma chunks_join d ps : Forall (d ∉.) ps -> chunks d (concat ((.++ [d]) <$> ps)) = (.++ [d]) <$> ps.
Proof.
  induction 1 as [|p ps Hp _ IH]; [done|]. rewrite fmap_cons. cbn [concat].
  rewrite <- app_assoc. cbn [app]. by rewrite chunks_joined, IH.
Qed.

Lemma piece_snoc d p : piece d (p ++ [d]) = p.
Proof. unfold piece. by rewrite last_snoc, Z.eqb_refl, removelast_last. Qed.

Lemma utf8_snoc n : forall l b, (length l <= n)%nat -> 0 <= b < 0x80 -> utf8_valid l = true -> utf8_valid (l ++ [b]) = true.
Proof.
  induction n as [|n IH]; intros l b Hn Hb.
  { destruct l; [|cbn in Hn; lia]. intros _. simpl. by rewrite (proj2 (Z.ltb_lt b _)) by lia. }
  destruct l as [|b0 l1]; [intros _; simpl; by rewrite (proj2 (Z.ltb_lt b _)) by lia|].
  simpl in Hn |- *. destruct (b0 <? 128); [apply IH; [lia|done]|].
  destruct l1 as [|b1 l2]; [done|]. simpl in Hn |- *.
  destruct (byte_in 194 223 b0); [rewrite !andb_true_iff; intros [? ?]; split; [done|apply IH; [lia|done|done]]|].
  destruct l2 as [|b2 l3]; [done|]. simpl in Hn |- *.
  destruct (byte_in 224 239 b0); [rewrite !andb_true_iff; intros [? ?]; split; [done|apply IH; [lia|done|done]]|].
  destruct l3 as [|b3 l4]; [done|]. simpl in Hn |- *.
  rewrite !andb_true_iff. intros [? ?]; split; [done|apply IH; [lia|done|done]].
Qed.

Lemma strip_newline_snoc p : last p <> Some CR -> strip_newline (p ++ [NL]) = p.
Proof.
  intros H. unfold strip_newline, ends_with. rewrite last_snoc, bool_decide_eq_true_2 by done.
  rewrite removelast_last. by rewrite bool_decide_eq_false_2.
Qed.

(** C28: [read_until], [read_line], [split] and [lines] cut the bytes of the
    reader after each delimiter, whatever pieces the reader gives them in and
    however often it is pending: each takes from the reader the bytes up to
    the next delimiter and no more, the streams yield all chunks in order
    without their delimiters (a line also without a carriage return before
    it), an invalid line is an [InvalidData] error and the lines after it are
    still read, and they are pending at most as often as the reader. *)
Theorem delimited_reads R `{!AsyncBufRead R} (rep : repr R) `{!AsyncBufReadOk R rep}
    memchr (Hmemchr : memchr_spec memchr) fuel reader data fin k
    (Hrep : rep reader data fin k) (Hfuel : (length data < fuel)%nat) :
  (forall byte buf, byte ∈ data \/ fin = None ->
     let c := until byte data in
     exists k' k2 r', (k' + k2 <= k)%nat /\ rep r' (drop (length c) data) fin k2 /\
       completes (ReadUntilFuture_poll memchr fuel byte) k' (ext_read_until reader buf)
         (Ok (zlen c)) (r', buf ++ c, 0)) /\
  (NL ∈ data \/ fin = None ->
     let c := until NL data in
     exists k' k2 r', (k' + k2 <= k)%nat /\ rep r' (drop (length c) data) fin k2 /\
       completes (ReadLineFuture_poll memchr fuel) k' (ext_read_line reader [])
         (if utf8_valid c then Ok (zlen c) else Err InvalidData)
         (r', (if utf8_valid c then c else []), [], 0)) /\
  (fin = None ->
     (forall delim, exists k', (k' <= k)%nat /\
       yields (Split_poll_next memchr fuel delim) k' (ext_split_on reader)
         (Ok <$> (piece delim <$> chunks delim data))) /\
     exists k', (k' <= k)%nat /\
       yields (Lines_poll_next memchr fuel) k' (ext_lines reader) (line_item <$> chunks NL data)).
Proof.
  split_and!.
  - intros byte buf Hd. cbv zeta.
    destruct (read_until_completes rep memchr Hmemchr fuel reader byte buf 0 data fin k Hrep Hfuel)
      as (k1 & m & t & [[r' buf'] read'] & Hk1 & Hc & Hm & -> & Ha).
    destruct t as [c|e]; [|by destruct Ha as (-> & ? & _); destruct Hd].
    destruct Ha as (-> & -> & Ht & _ & k2 & Hk2 & Hr'). rewrite Ht in *.
    pose proof (until_take _ _ _ Hm Ht) as ->. exists k1, k2, r'. split_and!; [lia|done..].
  - intros Hd. by apply (read_line_completes rep memchr Hmemchr fuel reader data fin k).
  - intros ->. split.
    + intros delim. by apply (split_yields rep memchr Hmemchr fuel delim).
    + by apply (lines_yields rep memchr Hmemchr fuel).
Qed.

(** C27: Splitting what was joined gives the pieces back: over a reader of
    pieces that do not hold the delimiter, each followed by it, [split] yields
    the pieces, and [lines] yields valid lines that do not end in a carriage
    return. *)
Theorem split_join_roundtrip R `{!AsyncBufRead R} (rep : repr R) `{!AsyncBufReadOk R rep}
    memchr (Hmemchr : memchr_spec memchr) fuel reader ps k :
  (forall d (Hps : Forall (d ∉.) ps) (Hrep : rep reader (concat ((.++ [d]) <$> ps)) None k)
     (Hfuel : (length (concat ((.++ [d]) <$> ps)) < fuel)%nat),
   exists k', (k' <= k)%nat /\
     yields (Split_poll_next memchr fuel d) k' (ext_split_on reader) (Ok <$> ps)) /\
  (forall (Hps : Forall (fun l => NL ∉ l /\ last l <> Some CR /\ utf8_valid l = true) ps)
     (Hrep : rep reader (concat ((.++ [NL]) <$> ps)) None k)
     (Hfuel : (length (concat ((.++ [NL]) <$> ps)) < fuel)%nat),
   exists k', (k' <= k)%nat /\
     yields (Lines_poll_next memchr fuel) k' (ext_lines reader) (Ok <$> ps)).
Proof.
  split; intros; [destruct (split_yields rep memchr Hmemchr fuel d _ _ _ Hrep Hfuel) as (k' & ? & Hy)
                 |destruct (lines_yields rep memchr Hmemchr fuel _ _ _ Hrep Hfuel) as (k' & ? & Hy)];
    exists k'; (split; [done|]).
  - rewrite chunks_join in Hy by done. rewrite <- !list_fmap_compose in Hy.
    erewrite list_fmap_ext; [exact Hy|]. intros i p _. cbn. by rewrite piece_snoc.
  - rewrite chunks_join in Hy by (eapply Forall_impl; [done|]; naive_solver).
    rewrite <- list_fmap_compose in Hy. erewrite Forall_fmap_ext_1; [exact Hy|].
    eapply Forall_impl; [exact Hps|]. intros l (? & ? & ?). cbn. unfold line_item.
    rewrite (utf8_snoc (length l)) by (done || unfold NL; lia). by rewrite strip_newline_snoc.
Qed.

(** C29: A reader that fails before the delimiter: [read_until] returns the
    error and has appended what it read.  [read_line] returns the error when
    nothing or no valid string was read; when a valid part of a line was, its
    [debug_assert_eq!(read, 0)] panics instead of returning the error.  A
    [read_line] into a string that is not empty never returns either: it
    panics on [debug_assert!(buf.is_empty())]. *)
Theorem delimited_read_errors R `{!AsyncBufRead R} (rep : repr R) `{!AsyncBufReadOk R rep}
    memchr (Hmemchr : memchr_spec memchr) fuel reader data fin k
    (Hrep : rep reader data fin k) (Hfuel : (length data < fuel)%nat) :
  (forall byte buf e, fin = Some e -> byte ∉ data -> exists k' r', (k' <= k)%nat /\
     completes (ReadUntilFuture_poll memchr fuel byte) k' (ext_read_until reader buf)
       (Err e) (r', buf ++ data, zlen data)) /\
  (forall e, fin = Some e -> NL ∉ data ->
     if utf8_valid data && negb (bool_decide (data = []))
     then forall j t st, ~ completes (ReadLineFuture_poll memchr fuel) j (ext_read_line reader []) t st
     else exists k' r', (k' <= k)%nat /\
       completes (ReadLineFuture_poll memchr fuel) k' (ext_read_line reader []) (Err e)
         (r', [], [], zlen data)) /\
  (forall buf, buf <> [] -> utf8_valid (until NL data) = true ->
     forall j t st, ~ completes (ReadLineFuture_poll memchr fuel) j (ext_read_line reader buf) t st).
Proof.
  assert (Hu : forall byte buf e, fin = Some e -> byte ∉ data -> exists k' r', (k' <= k)%nat /\
     completes (ReadUntilFuture_poll memchr fuel byte) k' (ext_read_until reader buf)
       (Err e) (r', buf ++ data, zlen data)).
  { intros byte buf e -> Hn.
    destruct (read_until_completes rep memchr Hmemchr fuel reader byte buf 0 data _ k Hrep Hfuel)
      as (k1 & m & t & [[r' buf'] read'] & Hk1 & Hc & Hm & -> & Ha).
    destruct t as [c|e']; [by destruct Ha as (_ & _ & _ & [?|?] & _)|].
    destruct Ha as ([= <-] & _ & -> & -> & _). exists k1, r'. rewrite firstn_all in Hc. by split. }
  split_and!; [done| |].
  - intros e He Hn. destruct (Hu NL [] e He Hn) as (k' & r' & Hk & Hc).
    destruct (utf8_valid data) eqn:Ev; cbn [andb].
    + case_bool_decide as Hd; cbn [negb].
      * subst data. exists k', r'. split; [done|].
        apply (completes_lift _ (line_state []) _ (line_done []) _ _ _ _ _ _
                 (read_line_lift memchr fuel []) Hc). done.
      * apply (completes_lift_none _ (line_state []) _ (line_done []) _ _ _ _
                 (read_line_lift memchr fuel []) Hc).
        unfold line_done, from_utf8. cbn [app]. rewrite Ev. cbn [mbind option_bind].
        rewrite option_guard_True, option_guard_False; [done| |done].
        destruct data; [done|cbn; lia].
    + exists k', r'. split; [done|].
      apply (completes_lift _ (line_state []) _ (line_done []) _ _ _ _ _ _ (read_line_lift memchr fuel []) Hc).
      unfold line_done, from_utf8. cbn [app]. by rewrite Ev.
  - intros buf Hb Hv.
    destruct (read_until_completes rep memchr Hmemchr fuel reader NL [] 0 data fin k Hrep Hfuel)
      as (k1 & m & t & [[r' buf'] read'] & Hk1 & Hc & Hm & -> & Ha).
    apply (completes_lift_none _ (line_state buf) _ (line_done buf) _ _ _ _ (read_line_lift memchr fuel buf) Hc).
    assert (take m data = until NL data) as Ht.
    { destruct t; [by destruct Ha as (_ & _ & ? & _)|]. destruct Ha as (_ & Hn & -> & _).
      by rewrite firstn_all, until_notin. }
    unfold line_done, from_utf8. cbn [app]. rewrite Ht, Hv. cbn [mbind option_bind].
    by rewrite (option_guard_False (buf = [])).
Qed.

(** ** Concrete runs *)

Ltac not_in := repeat (apply not_elem_of_cons; split; [done|]); apply not_elem_of_nil.

Lemma delimited_reads_witness :
  let r := probe [97; 13; 10; 255; 10; 98] 1 None in
  probe_rep r [97; 13; 10; 255; 10; 98] None 1 /\
  exists k', (k' <= 1)%nat /\
    yields (Lines_poll_next memchr_ref 7) k' (ext_lines r) [Ok [97]; Err InvalidData; Ok [98]].
Proof.
  cbv zeta. assert (H : probe_rep (probe [97; 13; 10; 255; 10; 98] 1 None) [97; 13; 10; 255; 10; 98] None 1) by probe_run.
  split; [exact H|].
  exact (proj2 (proj2 (proj2 (delimited_reads Probe probe_rep memchr_ref memchr_ref_ok 7 _ _ _ _ H ltac:(cbn; lia)))
           eq_refl)).
Defined.

Lemma split_join_roundtrip_witness :
  Forall (44 ∉.) [[97]; []; [98]] /\
  exists k', (k' <= 1)%nat /\
    yields (Split_poll_next memchr_ref 6 44) k' (ext_split_on (probe [97; 44; 44; 98; 44] 1 None)) [Ok [97]; Ok []; Ok [98]].
Proof.
  assert (Hf : Forall (44 ∉.) [[97]; []; [98]]) by (repeat constructor; not_in).
  split; [exact Hf|].
  apply (proj1 (split_join_roundtrip Probe probe_rep memchr_ref memchr_ref_ok 6 _ [[97]; []; [98]] 1) 44);
    [exact Hf|probe_run|cbn; lia].
Defined.

Lemma delimited_read_errors_witness :
  let r := probe [97; 98] 1 (Some (OtherError 5)) in
  probe_rep r [97; 98] (Some (OtherError 5)) 1 /\
  forall j t st, ~ completes (ReadLineFuture_poll memchr_ref 3) j (ext_read_line r []) t st.
Proof.
  cbv zeta. assert (H : probe_rep (probe [97; 98] 1 (Some (OtherError 5))) [97; 98] (Some (OtherError 5)) 1) by probe_run.
  split; [exact H|].
  apply (proj1 (proj2 (delimited_read_errors Probe probe_rep memchr_ref memchr_ref_ok 3 _ _ _ _ H ltac:(cbn; lia)))
           (OtherError 5) eq_refl).
  not_in.
Defined.
