(* ===== verification/TransferIo.v ===== *)
(** [future/swap.rs], part 4: the futures that move all bytes of a reader or
    of a buffer, the buffered writer, and [copy]. *)

From S2P Require Import Prelude Stream Io BufIo LineIo.

(** * [Vec<u8>]

    Its elements and its capacity; [grow needed cap], the capacity it is given
    when [needed] elements do not fit, belongs to the allocator and is a
    parameter. *)

Record Vec := { elts : bytes; capacity : Z }.

(** [Vec::resize(n, 0)] within the capacity. *)
Definition resize_elts (n : Z) (l : bytes) : bytes :=
  ztake n l ++ replicate (Z.to_nat n - length l) 0.

Section vec.
Context (grow : Z -> Z -> Z).

Definition reserve (additional : Z) (v : Vec) : Vec :=
  let needed := zlen (elts v) + additional in
  if needed <=? capacity v then v
  else {| elts := elts v; capacity := grow needed (capacity v) |}.

Definition resize (n : Z) (v : Vec) : Vec :=
  let v := reserve (n - zlen (elts v)) v in
  {| elts := resize_elts n (elts v); capacity := capacity v |}.

Definition extend_from_slice (b : bytes) (v : Vec) : Vec :=
  let v := reserve (zlen b) v in {| elts := elts v ++ b; capacity := capacity v |}.

(** * [read_to_end], [read_to_string] and [read_exact] *)

Section read_all.
Context {R : Type} `{!AsyncRead R}.

(** The guard cuts the vector back to the [len] bytes that were read, however
    the loop is left. *)
Fixpoint read_to_end_loop (fuel : nat) (rd : R) (len : Z) (buf : Vec) (start_len : Z)
    : option (poll (ioresult Z) * (R * Vec)) :=
  match fuel with
  | O => None
  | S fuel =>
      let buf := if len =? zlen (elts buf)
                 then let buf := reserve 32 buf in resize (capacity buf) buf else buf in
      room ← slice len (zlen (elts buf)) (elts buf);
      '(r, (rd, room)) ← poll_read rd room;
      let buf := {| elts := ztake len (elts buf) ++ room; capacity := capacity buf |} in
      match r with
      | Pending => Some (Pending, (rd, resize len buf))
      | Ready (Ok 0) => Some (Ready (Ok (len - start_len)), (rd, resize len buf))
      | Ready (Ok n) => read_to_end_loop fuel rd (len + n) buf start_len
      | Ready (Err e) => Some (Ready (Err e), (rd, resize len buf))
      end
  end.

Definition read_to_end_internal (fuel : nat) (rd : R) (buf : Vec) (start_len : Z) :=
  read_to_end_loop fuel rd (zlen (elts buf)) buf start_len.

Definition ext_read_to_end (reader : R) (buf : Vec) : R * Vec * Z := (reader, buf, zlen (elts buf)).

Definition ReadToEndFuture_poll (fuel : nat) (st : R * Vec * Z)
    : option (poll (ioresult Z) * (R * Vec * Z)) :=
  let '(reader, buf, start_len) := st in
  '(r, (reader, buf)) ← read_to_end_internal fuel reader buf start_len;
  Some (r, (reader, buf, start_len)).

(** The string [buf] and the vector [bs] of its bytes. *)
Definition ext_read_to_string (reader : R) (buf : bytes) : R * bytes * Vec * Z :=
  (reader, buf, {| elts := []; capacity := 0 |}, 0).

Definition ReadToStringFuture_poll (fuel : nat) (st : R * bytes * Vec * Z)
    : option (poll (ioresult Z) * (R * bytes * Vec * Z)) :=
  let '(reader, buf, bs, start_len) := st in
  '(r, (reader, bs)) ← read_to_end_internal fuel reader bs start_len;
  ready r (reader, buf, bs, start_len) (fun ret =>
    let none := {| elts := []; capacity := 0 |} in
    match from_utf8 (elts bs) with
    | Some s =>
        guard (buf = []);;                                         (* debug_assert! *)
        Some (Ready ret, (reader, s, none, start_len))
    | None =>
        Some (Ready (match ret with Ok _ => Err InvalidData | Err e => Err e end), (reader, buf, none, start_len))
    end).

(** The caller's buffer is [filled], the part behind the future's slice, and
    [buf], the slice. *)
Fixpoint ReadExactFuture_loop (fuel : nat) (reader : R) (filled buf : bytes)
    : option (poll (ioresult unit) * (R * bytes * bytes)) :=
  match fuel with
  | O => None
  | S fuel =>
      if bool_decide (buf = []) then Some (Ready (Ok tt), (reader, filled, buf))
      else
        '(r, (reader, buf)) ← poll_read reader buf;
        ready_ok r (reader, filled, buf) (fun n =>
          guard (0 <= n <= zlen buf);;                             (* split_at_mut *)
          let filled := filled ++ ztake n buf in
          let buf := zdrop n buf in
          if n =? 0 then Some (Ready (Err UnexpectedEof), (reader, filled, buf))
          else ReadExactFuture_loop fuel reader filled buf)
  end.

Definition ext_read_exact (reader : R) (buf : bytes) : R * bytes * bytes := (reader, [], buf).

Definition ReadExactFuture_poll (fuel : nat) (st : R * bytes * bytes) :=
  let '(reader, filled, buf) := st in ReadExactFuture_loop fuel reader filled buf.
End read_all.

(** * [write_all] and [BufferWriter] *)

Section write_all.
Context {W : Type} `{!AsyncWrite W}.

Fixpoint WriteAllFuture_loop (fuel : nat) (writer : W) (buf : bytes)
    : option (poll (ioresult unit) * (W * bytes)) :=
  match fuel with
  | O => None
  | S fuel =>
      if bool_decide (buf = []) then Some (Ready (Ok tt), (writer, buf))
      else
        '(r, writer) ← poll_write writer buf;
        ready_ok r (writer, buf) (fun n =>
          guard (0 <= n <= zlen buf);;                             (* split_at *)
          let buf := zdrop n buf in
          if n =? 0 then Some (Ready (Err WriteZero), (writer, buf))
          else WriteAllFuture_loop fuel writer buf)
  end.

Definition WriteAllFuture_poll (fuel : nat) (st : W * bytes) :=
  let '(writer, buf) := st in WriteAllFuture_loop fuel writer buf.
End write_all.

Record BufferWriter (W : Type) := { bw_inner : W; bw_buf : Vec; bw_written : Z }.
#[global] Arguments Build_BufferWriter {W}.
#[global] Arguments bw_inner {W} _.
#[global] Arguments bw_buf {W} _.
#[global] Arguments bw_written {W} _.

Section buffer_writer.
Context {W : Type} `{!AsyncWrite W} (fuel : nat).

(** [Vec::with_capacity] panics above [isize::MAX]. *)
Definition BufferWriter_with_capacity (c : Z) (i : W) : option (BufferWriter W) :=
  if c <=? isize_MAX then Some (Build_BufferWriter i {| elts := []; capacity := c |} 0) else None.
Definition BufferWriter_new (i : W) : option (BufferWriter W) := BufferWriter_with_capacity DEFAULT_BUFSZ i.
Definition BufferWriter_buffer (b : BufferWriter W) : bytes := elts (bw_buf b).
Definition BufferWriter_into_inner (b : BufferWriter W) : W := bw_inner b.

(** The loop, up to [ret] or to the pending return. *)
Fixpoint flush_loop (n : nat) (i : W) (buf : bytes) (written : Z)
    : option (poll (ioresult unit) * (W * Z)) :=
  match n with
  | O => None
  | S n' =>
      if written <? zlen buf then
        '(r, i) ← poll_write i (zdrop written buf);
        match r with
        | Ready (Ok 0) => Some (Ready (Err WriteZero), (i, written))
        | Ready (Ok m) => flush_loop n' i buf (written + m)
        | Ready (Err Interrupted) => flush_loop n' i buf written
        | Ready (Err e) => Some (Ready (Err e), (i, written))
        | Pending => Some (Pending, (i, written))
        end
      else Some (Ready (Ok tt), (i, written))
  end.

Definition poll_flush_buf (b : BufferWriter W) : option (poll (ioresult unit) * BufferWriter W) :=
  '(r, (i, written)) ← flush_loop fuel (bw_inner b) (elts (bw_buf b)) (bw_written b);
  let v := bw_buf b in
  ready r (Build_BufferWriter i v written) (fun ret =>
    guard (written <= zlen (elts v));;                             (* drain *)
    let v := if 0 <? written then {| elts := zdrop written (elts v); capacity := capacity v |} else v in
    Some (Ready ret, Build_BufferWriter i v 0)).

Definition BufferWriter_poll_write (b : BufferWriter W) (buf : bytes)
    : option (poll (ioresult Z) * BufferWriter W) :=
  let rest b :=
    if capacity (bw_buf b) <=? zlen buf then
      '(r, i) ← poll_write (bw_inner b) buf;
      Some (r, Build_BufferWriter i (bw_buf b) (bw_written b))
    else
      Some (Ready (Ok (zlen buf)),
            Build_BufferWriter (bw_inner b) (extend_from_slice buf (bw_buf b)) (bw_written b)) in
  if capacity (bw_buf b) <? zlen (elts (bw_buf b)) + zlen buf then
    '(r, b) ← poll_flush_buf b; ready_ok r b (fun _ => rest b)
  else rest b.

Definition BufferWriter_poll_flush (b : BufferWriter W) : option (poll (ioresult unit) * BufferWriter W) :=
  '(r, b) ← poll_flush_buf b;
  ready_ok r b (fun _ =>
    '(r, i) ← poll_flush (bw_inner b); Some (r, Build_BufferWriter i (bw_buf b) (bw_written b))).

Definition BufferWriter_poll_close (b : BufferWriter W) : option (poll (ioresult unit) * BufferWriter W) :=
  '(r, b) ← poll_flush_buf b;
  ready_ok r b (fun _ =>
    '(r, i) ← poll_close (bw_inner b); Some (r, Build_BufferWriter i (bw_buf b) (bw_written b))).

Definition BufferWriter_poll_seek `{!AsyncSeek W} (b : BufferWriter W) (p : SeekFrom)
    : option (poll (ioresult Z) * BufferWriter W) :=
  '(r, b) ← poll_flush_buf b;
  ready_ok r b (fun _ =>
    '(r, i) ← poll_seek (bw_inner b) p; Some (r, Build_BufferWriter i (bw_buf b) (bw_written b))).

Definition BufferWriter_AsyncWrite : AsyncWrite (BufferWriter W) := {|
  poll_write := BufferWriter_poll_write;
  poll_write_vectored := write_first_buf BufferWriter_poll_write;
  poll_flush := BufferWriter_poll_flush;
  poll_close := BufferWriter_poll_close |}.
End buffer_writer.

(** * [copy] *)

Section copy.
Context {R W : Type} `{!AsyncBufRead R, !AsyncWrite W}.

Fixpoint CopyFuture_loop (fuel : nat) (reader : R) (writer : W) (amt : Z)
    : option (poll (ioresult Z) * (R * W * Z)) :=
  match fuel with
  | O => None
  | S fuel =>
      '(r, reader) ← poll_fill_buf reader;
      ready_ok r (reader, writer, amt) (fun buffer =>
        if bool_decide (buffer = []) then
          '(r, writer) ← poll_flush writer;
          ready_ok r (reader, writer, amt) (fun _ => Some (Ready (Ok amt), (reader, writer, amt)))
        else
          '(r, writer) ← poll_write writer buffer;
          ready_ok r (reader, writer, amt) (fun i =>
            if i =? 0 then Some (Ready (Err WriteZero), (reader, writer, amt))
            else
              reader ← consume reader i;
              CopyFuture_loop fuel reader writer (amt + i)))
  end.

Definition CopyFuture_poll (fuel : nat) (st : R * W * Z) :=
  let '(reader, writer, amt) := st in CopyFuture_loop fuel reader writer amt.
End copy.

(** [copy] runs the future over a new buffered reader. *)
Definition copy_start {R W} (reader : R) (writer : W) : option (BufferReader R * W * Z) :=
  b ← BufferReader_new reader; Some (b, writer, 0).
End vec.

(** * Proofs *)

(** The capacity law of the allocator. *)
Definition grow_spec (grow : Z -> Z -> Z) : Prop := forall needed c, needed <= grow needed c.

Lemma take_app_len {A} (l k : list A) n : n = length l -> take n (l ++ k) = l.
Proof. intros ->. apply take_app_length. Qed.

(** What a future that reads has taken: [m] bytes, and [k'] pendings left. *)
Section read_all_ok.
Context {R : Type} `{!AsyncRead R} (rep : repr R) `{!AsyncReadOk R rep}.
Context (grow : Z -> Z -> Z) (grow_ok : grow_spec grow).

Lemma grown_ok v : exists v' : Vec,
  v' = resize grow (capacity (reserve grow 32 v)) (reserve grow 32 v) /\
  (length (elts v) < length (elts v'))%nat /\ take (length (elts v)) (elts v') = elts v.
Proof.
  eexists. split; [done|].
  set (v1 := reserve grow 32 v). assert (H1 : elts v1 = elts v /\ zlen (elts v) + 32 <= capacity v1).
  { unfold v1, reserve. clear v1. destruct (Z.leb_spec (zlen (elts v) + 32) (capacity v)); [by split|].
    split; [done|]. apply grow_ok. }
  destruct H1 as [H1 H2]. unfold resize.
  assert (H3 : forall a, elts (reserve grow a v1) = elts v) by (intros a; unfold reserve; by destruct (_ <=? _)).
  cbn [elts]. rewrite !H3. unfold resize_elts. rewrite take_ge by lia.
  split; [rewrite length_app, length_replicate; lia|]. by rewrite take_app_length.
Qed.

(** [len] bytes of the vector are in use; the rest is scratch. *)
Lemma shrunk_elts n v : elts (resize grow n v) = resize_elts n (elts v).
Proof. unfold resize. cbn [elts]. unfold reserve. by destruct (_ <=? _). Qed.

Definition to_end_answer (got : bytes) (data : bytes) (fin : option ErrorKind) (k m : nat) (c : Z)
    (p : poll (ioresult Z)) (st : R * Vec) : Prop :=
  let '(r', v') := st in
  (m <= length data)%nat /\ elts v' = got ++ take m data /\
  match p with
  | Pending => exists k', (k' < k)%nat /\ rep r' (drop m data) fin k'
  | Ready (Ok n) => m = length data /\ fin = None /\ n = c + Z.of_nat m /\ exists k', (k' <= k)%nat /\ rep r' [] fin k'
  | Ready (Err e) => m = length data /\ fin = Some e /\ exists k', (k' <= k)%nat /\ rep r' [] fin k'
  end.

Lemma to_end_answer_app got pre data fin k k' m c p st :
  (k' <= k)%nat -> to_end_answer (got ++ pre) data fin k' m (c + zlen pre) p st ->
  to_end_answer got (pre ++ data) fin k (length pre + m) c p st.
Proof.
  destruct st as [r' v']. unfold to_end_answer. intros Hk (Hm & -> & Ha).
  split; [rewrite length_app; lia|]. rewrite take_app_add, drop_app_add. split; [by rewrite <- app_assoc|].
  rewrite length_app. destruct p as [[n|e]|].
  - destruct Ha as (-> & -> & -> & k2 & ? & ?). split_and!; [done|done|lia|]. exists k2. split; [lia|done].
  - destruct Ha as (-> & -> & k2 & ? & ?). split_and!; [done..|]. exists k2. split; [lia|done].
  - destruct Ha as (k2 & ? & ?). exists k2. split; [lia|done].
Qed.

Lemma read_to_end_poll fuel rd v len got start data fin k :
  rep rd data fin k -> (length data < fuel)%nat -> len = zlen got -> start <= len ->
  (length got <= length (elts v))%nat -> take (length got) (elts v) = got ->
  exists m p st, read_to_end_loop grow fuel rd len v start = Some (p, st) /\
    to_end_answer got data fin k m (len - start) p st.
Proof.
  revert rd v len got data k. induction fuel as [|fuel IH]; intros rd v len got data k Hr Hf -> Hs Hv Ht; [lia|].
  cbn [read_to_end_loop].
  set (v1 := if _ =? _ then _ else _).
  assert (H1 : (length got < length (elts v1))%nat /\ take (length got) (elts v1) = got).
  { unfold v1. destruct (Z.eqb_spec (zlen got) (zlen (elts v))) as [He|He]; [|split; [lia|done]].
    destruct (grown_ok v) as (v2 & <- & Hl & Ht2).
    assert (got = elts v) as -> by (rewrite <- Ht, take_ge by lia; done). done. }
  clearbody v1. destruct H1 as [Hl1 Ht1]. rewrite slice_some by lia. cbn [mbind option_bind].
  set (room := ztake (zlen (elts v1) - zlen got) (zdrop (zlen got) (elts v1))). assert (Hroom : (0 < length room)%nat).
  { unfold room. rewrite length_take, length_drop. lia. }
  destruct (poll_read_ok _ _ _ _ room Hr) as (p & r' & room' & -> & Hlen & Ha). cbn [mbind option_bind].
  rewrite Nat2Z.id, Ht1.
  assert (Hdone : forall c m', (m' <= length room')%nat ->
    elts (resize grow (Z.of_nat (length got + m')) {| elts := got ++ room'; capacity := c |}) = got ++ take m' room').
  { intros c m' Hm'. rewrite shrunk_elts. cbn [elts]. unfold resize_elts. rewrite Nat2Z.id.
    replace (_ - _)%nat with 0%nat by (rewrite length_app; lia).
    by rewrite app_nil_r, take_app_add. }
  pose proof (fun c => Hdone c O ltac:(lia)) as Hdone0. rewrite Nat.add_0_r in Hdone0.
  destruct p as [[n|e]|].
  - destruct Ha as (Hn & Hd & Htn & Hz & k' & Hk & Hr'). destruct n as [|n|n]; [| |lia].
    + destruct Hz as [?|[-> ->]]; [done|lia|]. eexists O, _, _. split; [done|].
      split_and!; [lia|by rewrite Hdone0|done|done|lia|by exists k'].
    + set (N := Z.pos n) in *.
      destruct (IH r' {| elts := got ++ room'; capacity := capacity v1 |} (zlen got + N)
                  (got ++ ztake N room') (zdrop N data) k') as (m & p & st & -> & Ha).
      * done.
      * rewrite length_drop. lia.
      * rewrite length_app, length_take. lia.
      * lia.
      * cbn [elts]. rewrite !length_app, length_take. lia.
      * cbn [elts]. rewrite length_app, take_app_add. f_equal. rewrite length_take. f_equal. lia.
      * eexists (length (ztake N data) + m)%nat, p, st. split; [done|].
        rewrite <- (take_drop (Z.to_nat N) data) at 1. rewrite Htn in Ha.
        eapply to_end_answer_app; [done|].
        replace (zlen got - start + zlen (ztake N data)) with (zlen got + N - start)
          by (rewrite length_take; lia). done.
  - destruct Ha as (-> & -> & k' & Hk & Hr'). eexists O, _, _. split; [done|].
    split_and!; [lia|by rewrite Hdone0|done|done|by exists k'].
  - destruct Ha as (k' & Hk & Hr'). eexists O, _, _. split; [done|].
    split_and!; [lia|by rewrite Hdone0|by exists k'].
Qed.

Lemma read_to_end_completes fuel rd v start data fin k :
  rep rd data fin k -> (length data < fuel)%nat -> start <= zlen (elts v) ->
  exists k' r' v', (k' <= k)%nat /\ elts v' = elts v ++ data /\ (exists k2, (k' + k2 <= k)%nat /\ rep r' [] fin k2) /\
    completes (ReadToEndFuture_poll grow fuel) k' (rd, v, start)
      (match fin with None => Ok (zlen (elts v ++ data) - start) | Some e => Err e end) (r', v', start).
Proof.
  revert rd v data. induction (lt_wf k) as [k _ IH]. intros rd v data Hr Hf Hs.
  destruct (read_to_end_poll fuel rd v (zlen (elts v)) (elts v) start data fin k)
    as (m & p & [r' v'] & E & Hm & Hv & Ha); [done|done|done|lia|lia|by rewrite firstn_all|].
  assert (Hstep : ReadToEndFuture_poll grow fuel (rd, v, start) = Some (p, (r', v', start))).
  { unfold ReadToEndFuture_poll, read_to_end_internal. by rewrite E. }
  destruct p as [[n|e]|].
  - destruct Ha as (-> & -> & -> & k2 & ? & ?). rewrite firstn_all in Hv.
    exists O, r', v'. split_and!; [lia|done|by exists k2|].
    replace (zlen (elts v ++ data) - start) with (zlen (elts v) - start + zlen data) by (rewrite length_app; lia).
    by constructor.
  - destruct Ha as (-> & -> & k2 & ? & ?). rewrite firstn_all in Hv.
    exists O, r', v'. split_and!; [lia|done|by exists k2|]. by constructor.
  - destruct Ha as (k1 & Hk1 & Hr').
    destruct (IH k1 Hk1 r' v' (drop m data)) as (k2 & r2 & v2 & Hk2 & Hv2 & (k3 & Hk3 & Hr2) & Hc);
      [done|rewrite length_drop; lia|rewrite Hv, length_app; lia|].
    rewrite Hv, <- app_assoc, take_drop in Hv2. rewrite Hv, <- app_assoc, take_drop in Hc.
    exists (S k2), r2, v2. split_and!; [lia|done|exists k3; split; [lia|done]|]. by econstructor.
Qed.

(** [read_to_string] is [read_to_end], then one step. *)
Definition to_string_state (buf : bytes) (st : R * Vec * Z) : R * bytes * Vec * Z :=
  let '(rd, bs, start) := st in (rd, buf, bs, start).

Definition to_string_done (buf : bytes) (ret : ioresult Z) (st : R * Vec * Z)
    : option (poll (ioresult Z) * (R * bytes * Vec * Z)) :=
  let '(rd, bs, start) := st in
  match from_utf8 (elts bs) with
  | Some s => guard (buf = []);; Some (Ready ret, (rd, s, {| elts := []; capacity := 0 |}, start))
  | None => Some (Ready (match ret with Ok _ => Err InvalidData | Err e => Err e end),
                  (rd, buf, {| elts := []; capacity := 0 |}, start))
  end.

Lemma read_to_string_lift fuel buf (st : R * Vec * Z) :
  ReadToStringFuture_poll grow fuel (to_string_state buf st) =
  '(r, st) ← ReadToEndFuture_poll grow fuel st;
  ready r (to_string_state buf st) (fun ret => to_string_done buf ret st).
Proof.
  destruct st as [[rd bs] start]. unfold ReadToStringFuture_poll, ReadToEndFuture_poll, to_string_state.
  by destruct (read_to_end_internal _ _ _ _ _) as [[? [? ?]]|].
Qed.

Lemma read_to_string_completes fuel rd data fin k :
  rep rd data fin k -> (length data < fuel)%nat ->
  exists k' r', (k' <= k)%nat /\
    completes (ReadToStringFuture_poll grow fuel) k' (ext_read_to_string rd [])
      (if utf8_valid data then match fin with None => Ok (zlen data) | Some e => Err e end
       else match fin with None => Err InvalidData | Some e => Err e end)
      (r', (if utf8_valid data then data else []), {| elts := []; capacity := 0 |}, 0).
Proof.
  intros Hr Hf. set (v0 := {| elts := []; capacity := 0 |}).
  destruct (read_to_end_completes fuel rd v0 0 data fin k Hr Hf) as (k' & r' & v' & Hk & Hv & _ & Hc); [done|].
  cbn [elts v0 app] in Hv, Hc. rewrite Z.sub_0_r in Hc.
  exists k', r'. split; [done|].
  apply (completes_lift _ (to_string_state []) _ (to_string_done []) _ _ _ _ _ _
           (read_to_string_lift fuel []) Hc).
  unfold to_string_done. rewrite Hv. unfold from_utf8. destruct (utf8_valid data); [done|by destruct fin].
Qed.

(** [read_exact]: the whole buffer, or an error. *)
Definition exact_answer (filled buf : bytes) (data : bytes) (fin : option ErrorKind) (k m : nat)
    (p : poll (ioresult unit)) (st : R * bytes * bytes) : Prop :=
  let '(r', filled', buf') := st in
  (m <= length data)%nat /\ (m <= length buf)%nat /\ filled' = filled ++ take m data /\
  length buf' = (length buf - m)%nat /\
  match p with
  | Pending => exists k', (k' < k)%nat /\ rep r' (drop m data) fin k'
  | Ready res =>
      match res with
      | Ok _ => m = length buf
      | Err e => m = length data /\ (m < length buf)%nat /\ e = default UnexpectedEof fin
      end /\ exists k', (k' <= k)%nat /\ rep r' (drop m data) fin k'
  end.

Lemma read_exact_poll fuel rd filled buf data fin k :
  rep rd data fin k -> (length buf < fuel)%nat ->
  exists m p st, ReadExactFuture_loop fuel rd filled buf = Some (p, st) /\
    exact_answer filled buf data fin k m p st.
Proof.
  revert rd filled buf data k. induction fuel as [|fuel IH]; intros rd filled buf data k Hr Hf; [lia|].
  cbn [ReadExactFuture_loop]. case_bool_decide as Hb.
  { subst buf. eexists O, _, _. split; [done|]. split_and!; [lia|done|by rewrite app_nil_r|done|done|by exists k]. }
  destruct (poll_read_ok _ _ _ _ buf Hr) as (p & r' & buf' & -> & Hlen & Ha). cbn [mbind option_bind].
  destruct p as [[n|e]|]; cbn [ready_ok ready].
  - destruct Ha as (Hn & Hd & Ht & Hz & k' & Hk & Hr').
    rewrite option_guard_True by lia. cbn [mbind option_bind].
    destruct (Z.eqb_spec n 0) as [->|Hn0].
    + destruct Hz as [?|[-> ->]]; [done|destruct buf; [done|cbn in *; lia]|].
      eexists O, _, _. split; [done|].
      split_and!; [cbn; lia|lia|done|rewrite length_drop; lia|done|destruct buf; [done|cbn; lia]|done|by exists k'].
    + destruct (IH r' (filled ++ ztake n buf') (zdrop n buf') (zdrop n data) k')
        as (m & p & [[r2 f2] b2] & E & Hm & Hm2 & -> & Hb2 & Ha); [done|rewrite length_drop; lia|].
      rewrite E. rewrite !length_drop in *.
      exists (Z.to_nat n + m)%nat, p, (r2, (filled ++ ztake n buf') ++ take m (zdrop n data), b2). split; [done|].
      assert (Hdrop : drop (Z.to_nat n + m) data = drop m (zdrop n data)) by (by rewrite drop_drop).
      unfold exact_answer. rewrite Hdrop, <- take_take_drop, Ht, <- app_assoc.
      split_and!; [lia|lia|done|lia|].
      destruct p as [res|].
      * destruct Ha as (Hres & k2 & ? & ?). split; [|exists k2; split; [lia|done]].
        destruct res; [lia|]. destruct Hres as (? & ? & ?). split_and!; [lia|lia|done].
      * destruct Ha as (k2 & ? & ?). exists k2. split; [lia|done].
  - destruct Ha as (-> & -> & k' & Hk & Hr'). eexists O, _, _. split; [done|].
    split_and!; [cbn; lia|lia|by rewrite app_nil_r|lia|done|destruct buf; [done|cbn; lia]|done|by exists k'].
  - destruct Ha as (k' & Hk & Hr'). eexists O, _, _. split; [done|].
    split_and!; [lia|lia|by rewrite app_nil_r|lia|by exists k'].
Qed.

Lemma read_exact_completes fuel rd filled buf data fin k :
  rep rd data fin k -> (length buf < fuel)%nat ->
  exists k' k2 r' buf', (k' + k2 <= k)%nat /\ rep r' (drop (length buf) data) fin k2 /\
    length buf' = (length buf - length data)%nat /\
    completes (ReadExactFuture_poll fuel) k' (rd, filled, buf)
      (if (length buf <=? length data)%nat then Ok tt else Err (default UnexpectedEof fin))
      (r', filled ++ take (length buf) data, buf').
Proof.
  revert rd filled buf data. induction (lt_wf k) as [k _ IH]. intros rd filled buf data Hr Hf.
  destruct (read_exact_poll fuel rd filled buf data fin k Hr Hf)
    as (m & p & [[r' f'] b'] & E & Hm & Hm2 & -> & Hb & Ha).
  destruct p as [res|].
  - destruct Ha as (Hres & k2 & Hk2 & Hr'). exists O, k2, r', b'.
    destruct res as [[]|e].
    + subst m. split_and!; [lia|done|lia|]. rewrite (proj2 (Nat.leb_le _ _)) by lia. by constructor.
    + destruct Hres as (-> & Hlt & ->). rewrite drop_ge in Hr' |- * by lia.
      split_and!; [lia|done|lia|]. rewrite (proj2 (Nat.leb_gt _ _)) by lia.
      rewrite !take_ge in * by lia. by constructor.
  - destruct Ha as (k1 & Hk1 & Hr').
    destruct (IH k1 Hk1 r' (filled ++ take m data) b' (drop m data)) as (k2 & k3 & r2 & b2 & Hk & Hr2 & Hb2 & Hc);
      [done|lia|].
    rewrite Hb, drop_drop, length_drop in *.
    exists (S k2), k3, r2, b2. replace (m + (length buf - m))%nat with (length buf) in Hr2 by lia.
    split_and!; [lia|done|lia|]. econstructor; [done|].
    replace (length buf <=? length data)%nat with (length buf - m <=? length data - m)%nat
      by (destruct (Nat.leb_spec (length buf) (length data)); [apply Nat.leb_le|apply Nat.leb_gt]; lia).
    rewrite <- app_assoc, take_take_drop in Hc. by replace (m + (length buf - m))%nat with (length buf) in Hc by lia.
Qed.
End read_all_ok.

(** ** Writers *)

Section write_ok.
Context {W : Type} `{!AsyncWrite W} (rep : wrepr W) `{!AsyncWriteOk W rep}.

(** [m] bytes of [buf] accepted; all of them, or an error. *)
Definition write_all_answer (out buf : bytes) (k m : nat) (p : poll (ioresult unit)) (st : W * bytes) : Prop :=
  let '(w', buf') := st in
  (m <= length buf)%nat /\ buf' = drop m buf /\
  match p with
  | Pending => exists k', (k' < k)%nat /\ rep w' (out ++ take m buf) k'
  | Ready res =>
      match res with Ok _ => m = length buf | Err _ => (m < length buf)%nat /\ writer_fails rep end /\
      exists k', (k' <= k)%nat /\ rep w' (out ++ take m buf) k'
  end.

Lemma write_all_poll fuel w out buf k :
  rep w out k -> (length buf < fuel)%nat ->
  exists m p st, WriteAllFuture_loop fuel w buf = Some (p, st) /\ write_all_answer out buf k m p st.
Proof.
  revert w out buf k. induction fuel as [|fuel IH]; intros w out buf k Hr Hf; [lia|].
  cbn [WriteAllFuture_loop]. case_bool_decide as Hb.
  { subst buf. eexists O, _, _. split; [done|]. split_and!; [done..|]. exists k. by rewrite app_nil_r. }
  assert (Hpos : (0 < length buf)%nat) by (destruct buf; [done|cbn; lia]).
  destruct (poll_write_ok w out k buf Hr) as (p & w' & Ew & Ha). rewrite Ew. cbn [mbind option_bind].
  destruct p as [[n|e]|]; cbn [ready_ok ready].
  - destruct Ha as (Hn & k' & Hk & Hr'). rewrite option_guard_True by lia. cbn [mbind option_bind].
    destruct (Z.eqb_spec n 0) as [->|Hn0].
    + eexists O, _, _. split; [done|]. split_and!; [lia|done|lia| |by exists k'].
      eapply write_fails; [| |exact Ew|]; eauto.
    + destruct (IH w' (out ++ ztake n buf) (zdrop n buf) k') as (m & p & [w2 b2] & -> & Hm & -> & Ha);
        [done|rewrite length_drop; lia|].
      rewrite length_drop in *. eexists (Z.to_nat n + m)%nat, _, _. split; [done|].
      unfold write_all_answer. rewrite drop_drop, <- take_take_drop, app_assoc. split_and!; [lia|done|].
      destruct p as [res|]; [destruct Ha as (Hres & k2 & ? & ?)|destruct Ha as (k2 & ? & ?)].
      * split; [destruct res; [lia|split; [lia|by apply Hres]]|]. exists k2. split; [lia|done].
      * exists k2. split; [lia|done].
  - destruct Ha as (k' & Hk & _ & Hr'). eexists O, _, _. split; [done|].
    split_and!; [lia|done|lia| |]; [eapply write_fails; [| |exact Ew|]; eauto|]. exists k'. by rewrite app_nil_r.
  - destruct Ha as (k' & Hk & Hr'). eexists O, _, _. split; [done|].
    split_and!; [lia|done|]. exists k'. by rewrite app_nil_r.
Qed.

Lemma write_all_completes fuel w out buf k :
  rep w out k -> (length buf < fuel)%nat ->
  exists k' k2 m res w', (k' + k2 <= k)%nat /\ (m <= length buf)%nat /\ rep w' (out ++ take m buf) k2 /\
    match res with Ok _ => m = length buf | Err _ => (m < length buf)%nat /\ writer_fails rep end /\
    completes (WriteAllFuture_poll fuel) k' (w, buf) res (w', drop m buf).
Proof.
  revert w out buf. induction (lt_wf k) as [k _ IH]. intros w out buf Hr Hf.
  destruct (write_all_poll fuel w out buf k Hr Hf) as (m & p & [w' b'] & E & Hm & -> & Ha).
  destruct p as [res|].
  - destruct Ha as (Hres & k2 & Hk2 & Hr'). exists O, k2, m, res, w'. split_and!; [lia..|done|done|by constructor].
  - destruct Ha as (k1 & Hk1 & Hr').
    destruct (IH k1 Hk1 w' _ (drop m buf) Hr') as (k2 & k3 & m2 & res & w2 & Hk & Hm2 & Hr2 & Hres & Hc);
      [rewrite length_drop; lia|].
    rewrite length_drop, drop_drop, <- app_assoc, take_take_drop in *.
    exists (S k2), k3, (m + m2)%nat, res, w2.
    split_and!; [lia|lia|done|destruct res; [lia|split; [lia|by apply Hres]]|by econstructor].
Qed.

(** ** [BufferWriter] passes on what it accepted, in order, once *)

Context (grow : Z -> Z -> Z) (fuel : nat).

Definition writer_rep : wrepr (BufferWriter W) := fun b total k =>
  exists out, rep (bw_inner b) out k /\
    total = out ++ zdrop (bw_written b) (elts (bw_buf b)) /\
    0 <= bw_written b <= zlen (elts (bw_buf b)) /\
    zlen (elts (bw_buf b)) <= capacity (bw_buf b) /\
    (Z.to_nat (capacity (bw_buf b)) + k < fuel)%nat.

Lemma flush_loop_ok n i buf written out k :
  rep i out k -> 0 <= written <= zlen buf -> (length buf - Z.to_nat written + k < n)%nat ->
  exists p i' written' out', flush_loop n i buf written = Some (p, (i', written')) /\
    written <= written' <= zlen buf /\
    out' ++ zdrop written' buf = out ++ zdrop written buf /\
    (p = Ready (Ok tt) -> written' = zlen buf) /\
    (forall e, p = Ready (Err e) -> e <> Interrupted /\ writer_fails rep) /\
    exists k', (k' <= k)%nat /\ (p = Pending -> (k' < k)%nat) /\ rep i' out' k'.
Proof.
  revert i written out k. induction n as [|n IH]; intros i written out k Hr Hw Hn; [lia|].
  cbn [flush_loop]. destruct (Z.ltb_spec written (zlen buf)) as [Hlt|Hge].
  2:{ eexists _, _, _, out. split; [done|]. split_and!; [lia|lia|done|intros; lia|done|by exists k]. }
  destruct (poll_write_ok i out k (zdrop written buf) Hr) as (p & i' & Ew & Ha). rewrite Ew. cbn [mbind option_bind].
  assert (Hne : zdrop written buf <> []).
  { intros E. apply (f_equal length) in E. rewrite length_drop in E. cbn in E. lia. }
  destruct p as [[m|e]|].
  - destruct Ha as (Hm & k' & Hk & Hr'). rewrite length_drop in Hm. destruct m as [|m|m]; [| |lia].
    + eexists _, _, _, out. split; [done|]. rewrite app_nil_r in Hr'.
      split_and!; [lia|lia|done|done| |by exists k'].
      intros e [= <-]. split; [done|]. eapply write_fails; [| |exact Ew|]; eauto.
    + set (M := Z.pos m) in *.
      destruct (IH i' (written + M) _ k' Hr') as (p & i2 & w2 & out2 & -> & Hw2 & Ho & Hp & Hi & k2 & Hk2 & Hr2);
        [lia|lia|].
      exists p, i2, w2, out2. split_and!; [done|lia|lia| |done|done|].
      * rewrite Ho, <- app_assoc. f_equal.
        replace (Z.to_nat (written + M)) with (Z.to_nat written + Z.to_nat M)%nat by lia.
        rewrite <- drop_drop. apply take_drop.
      * exists k2. split_and!; [lia|intros E; apply proj1 in Hr2; specialize (Hr2 E); lia|apply Hr2].
  - destruct Ha as (k' & Hk & Hi & Hr').
    destruct (decide (e = Interrupted)) as [->|He].
    + destruct (IH i' written out k' Hr') as (p & i2 & w2 & out2 & -> & Hw2 & Ho & Hp & Hi2 & k2 & Hk2 & Hr2);
        [lia|specialize (Hi eq_refl); lia|].
      exists p, i2, w2, out2. split_and!; [done|lia|lia|done|done|done|].
      exists k2. split_and!; [lia|intros E; apply proj1 in Hr2; specialize (Hr2 E); lia|apply Hr2].
    + exists (Ready (Err e)), i', written, out. split; [by destruct e|].
      split_and!; [lia|lia|done|done| |by exists k'].
      intros e' [= <-]. split; [done|]. eapply write_fails; [| |exact Ew|]; eauto.
  - destruct Ha as (k' & Hk & Hr'). eexists _, _, _, out. split; [done|].
    split_and!; [lia|lia|done|done|done|]. exists k'. split; [lia|done].
Qed.

Lemma flush_buf_ok b total k : writer_rep b total k ->
  exists p b', poll_flush_buf fuel b = Some (p, b') /\
    (forall e, p = Ready (Err e) -> e <> Interrupted /\ writer_fails rep) /\
    capacity (bw_buf b') = capacity (bw_buf b) /\
    (p = Ready (Ok tt) -> elts (bw_buf b') = [] /\ bw_written b' = 0) /\
    exists k', (k' <= k)%nat /\ (p = Pending -> (k' < k)%nat) /\ writer_rep b' total k'.
Proof.
  intros (out & Hr & -> & Hw & Hc & Hf). unfold poll_flush_buf.
  destruct (flush_loop_ok fuel (bw_inner b) (elts (bw_buf b)) (bw_written b) out k Hr Hw)
    as (p & i & w & out' & -> & Hw' & Ho & Hp & Hi & k' & Hk & Hkp & Hr'); [lia|].
  cbn [mbind option_bind]. rewrite <- Ho. destruct p as [res|]; cbn [ready].
  2:{ eexists _, _. split; [done|]. split_and!; [done|done|done|]. exists k'. split_and!; [done|done|].
      exists out'. cbn [bw_inner bw_buf bw_written]. split_and!; [done|done|lia|lia|lia|lia]. }
  rewrite option_guard_True by lia. cbn [mbind option_bind].
  set (v := if 0 <? w then _ else _).
  assert (Hv : capacity v = capacity (bw_buf b) /\ elts v = zdrop w (elts (bw_buf b))).
  { unfold v. destruct (Z.ltb_spec 0 w); [done|]. replace w with 0 by lia. done. }
  clearbody v. destruct Hv as [Hcv Hev]. eexists _, _. split; [done|]. cbn [bw_inner bw_buf bw_written].
  split_and!; [done|done| |].
  - intros Hres. specialize (Hp Hres). split; [|done]. rewrite Hev. apply zdrop_ge. lia.
  - exists k'. split_and!; [done|done|]. exists out'. cbn [bw_inner bw_buf bw_written].
    rewrite Hcv, Hev. split_and!; [done|done|lia|lia|rewrite length_drop; lia|lia].
Qed.

#[local] Instance writer_write : AsyncWrite (BufferWriter W) := BufferWriter_AsyncWrite grow fuel.

(** An operation of the inner writer behind a flush. *)
Lemma after_flush (op : W -> option (poll (ioresult unit) * W)) b total k :
  (forall w out k, rep w out k -> exists p w', op w = Some (p, w') /\ flush_answer rep out k p w') ->
  writer_rep b total k ->
  exists p b', ('(r, b) ← poll_flush_buf fuel b;
     ready_ok r b (fun _ => '(r, i) ← op (bw_inner b); Some (r, Build_BufferWriter i (bw_buf b) (bw_written b))))
     = Some (p, b') /\ flush_answer writer_rep total k p b' /\
     (p = Ready (Ok tt) -> elts (bw_buf b') = [] /\ exists k', (k' <= k)%nat /\ rep (bw_inner b') total k').
Proof.
  intros Hop Hr. destruct (flush_buf_ok b total k Hr) as (p & b' & -> & Hi & Hc & Hp & k' & Hk & Hkp & Hr').
  cbn [mbind option_bind]. destruct p as [[[]|e]|]; cbn [ready_ok ready].
  - destruct (Hp eq_refl) as [He Hw]. destruct Hr' as (out & Hr' & -> & Hw' & Hc' & Hf).
    destruct (Hop _ _ _ Hr') as (p & i & -> & k2 & Hk2 & Hk2p & Hr2). eexists _, _. split; [done|].
    cbn [bw_buf bw_inner]. rewrite He, drop_nil, app_nil_r.
    split; [|intros; split; [done|exists k2; split; [lia|done]]].
    exists k2. split_and!; [lia|intros; specialize (Hk2p ltac:(done)); lia|].
    exists out. cbn [bw_buf bw_inner bw_written].
    split_and!; [done|by rewrite He, drop_nil, app_nil_r|lia|lia|done|lia].
  - eexists _, _. split; [done|]. split; [|done]. by exists k'.
  - eexists _, _. split; [done|]. split; [|done]. by exists k'.
Qed.

#[export] Instance BufferWriter_ok : AsyncWriteOk (BufferWriter W) writer_rep.
Proof.
  split.
  - intros b total k buf Hr. cbn [poll_write writer_write BufferWriter_AsyncWrite].
    unfold BufferWriter_poll_write.
    assert (Hrest : forall b k, writer_rep b total k ->
      zlen (elts (bw_buf b)) + zlen buf <= capacity (bw_buf b) \/ (elts (bw_buf b) = [] /\ bw_written b = 0) ->
      exists p w', (if capacity (bw_buf b) <=? zlen buf then
          '(r, i) ← poll_write (bw_inner b) buf;
          Some (r, Build_BufferWriter i (bw_buf b) (bw_written b))
        else Some (Ready (Ok (zlen buf)),
               Build_BufferWriter (bw_inner b) (extend_from_slice grow buf (bw_buf b)) (bw_written b))) = Some (p, w') /\
        write_answer writer_rep total k buf p w').
    { clear b k Hr. intros b k (out & Hr & -> & Hw & Hc & Hf) Hfit.
      destruct (Z.leb_spec (capacity (bw_buf b)) (zlen buf)) as [Hbig|Hsmall].
      - assert (Hemp : elts (bw_buf b) = []).
        { destruct Hfit as [Hfit|[? _]]; [|done]. destruct (elts (bw_buf b)) as [|x l] eqn:El; [done|].
          cbn [length] in Hfit. lia. }
        rewrite Hemp, drop_nil, app_nil_r.
        assert (Hin : forall i o k', rep i o k' -> (k' <= k)%nat -> writer_rep (Build_BufferWriter i (bw_buf b) (bw_written b)) o k').
        { intros i o k' ? ?. exists o. cbn [bw_inner bw_buf bw_written].
          split_and!; [done|by rewrite Hemp, drop_nil, app_nil_r|lia|lia|lia|lia]. }
        destruct (poll_write_ok _ _ _ buf Hr) as (p & i & -> & Ha). eexists _, _. split; [done|].
        destruct p as [[n|e]|].
        + destruct Ha as (? & k' & ? & ?). split; [done|]. exists k'. split; [done|]. by apply Hin.
        + destruct Ha as (k' & ? & ? & ?). exists k'. split_and!; [done..|]. by apply Hin.
        + destruct Ha as (k' & ? & ?). exists k'. split; [done|]. apply Hin; [done|lia].
      - assert (Hfit' : zlen (elts (bw_buf b)) + zlen buf <= capacity (bw_buf b)).
        { destruct Hfit as [?|[-> _]]; [done|cbn; lia]. }
        eexists _, _. split; [done|]. split; [lia|]. exists k. split; [done|].
        exists out. unfold extend_from_slice, reserve.
        rewrite (proj2 (Z.leb_le _ _) Hfit'). cbn [bw_inner bw_buf bw_written elts capacity].
        rewrite Nat2Z.id, firstn_all, drop_app_le, app_assoc by lia.
        rewrite length_app. split_and!; [done|done|lia|lia|lia|lia]. }
    destruct (Z.ltb_spec (capacity (bw_buf b)) (zlen (elts (bw_buf b)) + zlen buf)) as [Hlt|Hge].
    + destruct (flush_buf_ok b total k Hr) as (p & b' & -> & Hi & Hc & Hp & k' & Hk & Hkp & Hr').
      cbn [mbind option_bind]. destruct p as [[[]|e]|]; cbn [ready_ok ready].
      * destruct (Hrest b' k' Hr') as (p & w' & E & Ha); [right; by apply Hp|]. exists p, w'. split; [done|].
        destruct p as [[n|e]|]; [destruct Ha as (? & k2 & ? & ?)|destruct Ha as (k2 & ? & He & ?)|destruct Ha as (k2 & ? & ?)].
        -- split; [done|]. exists k2. split; [lia|done].
        -- exists k2. split_and!; [lia|intros ->; specialize (He eq_refl); lia|done].
        -- exists k2. split; [lia|done].
      * eexists _, _. split; [done|]. exists k'. split_and!; [done| |done].
        intros ->. by destruct (Hi _ eq_refl).
      * eexists _, _. split; [done|]. exists k'. split; [by apply Hkp|done].
    + apply Hrest; [done|by left].
  - intros b total k Hr.
    destruct (after_flush poll_flush b total k poll_flush_ok Hr) as (p & b' & ? & ? & _). by exists p, b'.
  - intros b total k Hr.
    destruct (after_flush poll_close b total k poll_close_ok Hr) as (p & b' & ? & ? & _). by exists p, b'.
Qed.

(** The buffered writer fails only when its writer does. *)
Lemma buffer_write_fails b total k buf p b' :
  writer_rep b total k -> buf <> [] -> BufferWriter_poll_write grow fuel b buf = Some (Ready p, b') ->
  p = Ok 0 \/ (exists e, p = Err e) -> writer_fails rep.
Proof.
  intros Hr Hne E Hp. unfold BufferWriter_poll_write in E.
  assert (Hrest : forall b k, writer_rep b total k ->
    (if capacity (bw_buf b) <=? zlen buf then
       '(r, i) ← poll_write (bw_inner b) buf; Some (r, Build_BufferWriter i (bw_buf b) (bw_written b))
     else Some (Ready (Ok (zlen buf)),
            Build_BufferWriter (bw_inner b) (extend_from_slice grow buf (bw_buf b)) (bw_written b)))
    = Some (Ready p, b') -> writer_fails rep).
  { clear - Hne Hp. intros b k (out & Hr & _). destruct (_ <=? _).
    - destruct (poll_write (bw_inner b) buf) as [[r i]|] eqn:Ew; [|done]. intros [= -> _].
      by eapply write_fails.
    - intros [= <- _]. destruct Hp as [[= ?]|[? [=]]]. by destruct buf. }
  destruct (_ <? _); [|by eapply Hrest].
  destruct (flush_buf_ok b total k Hr) as (q & b2 & Eq & Hi & _ & _ & k' & _ & _ & Hr').
  rewrite Eq in E. cbn [mbind option_bind] in E. destruct q as [[[]|e]|]; cbn [ready_ok ready] in E; [| |done].
  - by eapply Hrest.
  - by destruct (Hi e eq_refl).
Qed.

Lemma buffer_fails : writer_fails writer_rep -> writer_fails rep.
Proof.
  intros (b & total & k & Hr & [(buf & p & w' & Hne & E & Hp)|(e & b' & E)]); [by eapply buffer_write_fails|].
  cbn [poll_flush writer_write BufferWriter_AsyncWrite] in E. unfold BufferWriter_poll_flush in E.
  destruct (flush_buf_ok b total k Hr) as (q & b2 & Eq & Hi & _ & _ & k' & _ & _ & out & Hr' & _).
  rewrite Eq in E. cbn [mbind option_bind] in E. destruct q as [[[]|e']|]; cbn [ready_ok ready] in E; [| |done].
  - destruct (poll_flush (bw_inner b2)) as [[r i]|] eqn:Ef; [|done]. injection E as -> _.
    by eapply flush_fails.
  - by destruct (Hi e' eq_refl).
Qed.
End write_ok.

(** ** [copy] *)

Section copy_ok.
Context {R : Type} `{!AsyncBufRead R} (rrep : repr R) `{!AsyncBufReadOk R rrep}.
Context {W : Type} `{!AsyncWrite W} (wrep : wrepr W) `{!AsyncWriteOk W wrep}.

(** [m] bytes moved. *)
Definition copy_answer (data : bytes) (fin : option ErrorKind) (out : bytes) (amt : Z) (k m : nat)
    (p : poll (ioresult Z)) (st : R * W * Z) : Prop :=
  let '(r', w', amt') := st in
  (m <= length data)%nat /\ amt' = amt + Z.of_nat m /\
  (exists kr kw, (kr + kw <= k)%nat /\ (p = Pending -> (kr + kw < k)%nat) /\
     rrep r' (drop m data) fin kr /\ wrep w' (out ++ take m data) kw) /\
  match p with
  | Ready (Ok n) => m = length data /\ fin = None /\ n = amt'
  | Ready (Err e) => (m = length data /\ fin = Some e) \/ writer_fails wrep
  | Pending => True
  end.

Lemma copy_poll fuel r w amt data fin out kr kw :
  rrep r data fin kr -> wrep w out kw -> (length data < fuel)%nat ->
  exists m p st, CopyFuture_loop fuel r w amt = Some (p, st) /\
    copy_answer data fin out amt (kr + kw) m p st.
Proof.
  revert r w amt data out kr kw. induction fuel as [|fuel IH]; intros r w amt data out kr kw Hr Hw Hf; [lia|].
  cbn [CopyFuture_loop]. destruct (poll_fill_buf_ok _ _ _ _ Hr) as (p & r' & -> & Ha). cbn [mbind option_bind].
  destruct p as [[buffer|e]|]; cbn [ready_ok ready].
  - destruct Ha as (Hpre & He & _ & k' & Hk & Hr' & Hc). case_bool_decide as Hb.
    + destruct (He Hb) as [-> ->].
      destruct (poll_flush_ok _ _ _ Hw) as (p & w' & Ew & k2 & Hk2 & Hk2p & Hw'). rewrite Ew. cbn [mbind option_bind].
      assert (H0 : forall p', (p' = Pending -> (k' + k2 < kr + kw)%nat) ->
        match p' with Ready (Ok n) => n = amt | Ready (Err e) => writer_fails wrep | _ => True end ->
        copy_answer [] None out amt (kr + kw) 0 p' (r', w', amt)).
      { intros p' Hp' Hn. split_and!; [done|lia| |by destruct p' as [[]|]; [|right|]].
        exists k', k2. rewrite app_nil_r. split_and!; [lia|done..]. }
      destruct p as [[u|e]|]; cbn [ready_ok ready]; eexists O, _, _; (split; [done|apply H0; try done]).
      { eapply flush_fails; [|exact Ew]; done. }
      intros _. specialize (Hk2p eq_refl). lia.
    + destruct (poll_write_ok _ _ _ buffer Hw) as (p & w' & Ew & Ha). rewrite Ew. cbn [mbind option_bind].
      assert (H0 : forall p' kw', (kw' <= kw)%nat -> wrep w' out kw' -> (p' = Pending -> (kw' < kw)%nat) ->
        match p' with Ready (Ok _) => False | Ready (Err _) => writer_fails wrep | _ => True end ->
        copy_answer data fin out amt (kr + kw) 0 p' (r', w', amt)).
      { intros p' kw' Hkw Hw' Hp Hn. split_and!; [lia|lia| |by destruct p' as [[]|]; [|right|]].
        exists k', kw'. rewrite app_nil_r. split_and!; [lia|intros E; specialize (Hp E); lia|done..]. }
      destruct p as [[i|e]|]; cbn [ready_ok ready].
      * destruct Ha as (Hi & k2 & Hk2 & Hw'). destruct (Z.eqb_spec i 0) as [->|Hi0].
        { eexists O, _, _. split; [done|]. rewrite app_nil_r in Hw'. apply (H0 _ k2); [done..|].
          eapply write_fails; [| |exact Ew|]; eauto. }
        destruct (Hc i Hi) as (r2 & -> & Hr2). cbn [mbind option_bind].
        pose proof (prefix_length _ _ Hpre).
        destruct (IH r2 w' (amt + i) (zdrop i data) (out ++ ztake i buffer) k' k2)
          as (m & p & [[r3 w3] a3] & -> & Hm & -> & (k3 & k4 & Hk34 & Hp & Hr3 & Hw3) & Ha);
          [done|done|rewrite length_drop; lia|].
        exists (Z.to_nat i + m)%nat, p, (r3, w3, amt + i + Z.of_nat m). split; [done|].
        rewrite length_drop in Hm. unfold copy_answer. split_and!; [lia|lia| |].
        -- exists k3, k4. split_and!; [lia|intros E; specialize (Hp E); lia|by rewrite <- drop_drop|].
           rewrite <- take_take_drop, app_assoc. destruct Hpre as [d ->].
           by rewrite (take_app_le buffer d (Z.to_nat i)) by lia.
        -- rewrite length_drop in Ha. destruct p as [[n|e]|]; [| |done].
           ++ destruct Ha as (? & ? & ?). split_and!; [lia|done|lia].
           ++ destruct Ha as [[? ?]|?]; [left; split; [lia|done]|by right].
      * destruct Ha as (k2 & Hk2 & _ & Hw'). eexists O, _, _. split; [done|]. apply (H0 _ k2); [done..|].
        eapply write_fails; [| |exact Ew|]; eauto.
      * destruct Ha as (k2 & Hk2 & Hw'). eexists O, _, _. split; [done|]. apply (H0 _ k2); [lia|done..].
  - destruct Ha as (-> & -> & k' & Hk & Hr'). eexists O, _, _. split; [done|].
    split_and!; [done|lia| |by left]. exists k', kw. rewrite app_nil_r. split_and!; [lia|done..].
  - destruct Ha as (k' & Hk & Hr'). eexists O, _, _. split; [done|].
    split_and!; [lia|lia| |done]. exists k', kw. rewrite app_nil_r. split_and!; [lia|intros; lia|done..].
Qed.

Lemma copy_completes fuel r w amt data fin out kr kw :
  rrep r data fin kr -> wrep w out kw -> (length data < fuel)%nat ->
  exists k' m t st, (k' <= kr + kw)%nat /\
    completes (CopyFuture_poll fuel) k' (r, w, amt) t st /\
    copy_answer data fin out amt (kr + kw - k') m (Ready t) st.
Proof.
  remember (kr + kw)%nat as k eqn:Hkeq. revert r w amt data out kr kw Hkeq.
  induction (lt_wf k) as [k _ IH]. intros r w amt data out kr kw -> Hr Hw Hf.
  destruct (copy_poll fuel r w amt data fin out kr kw Hr Hw Hf) as (m & p & [[r' w'] a'] & E & Ha).
  destruct p as [t|].
  { exists O, m, t, (r', w', a'). rewrite Nat.sub_0_r. split_and!; [lia|by constructor|done]. }
  destruct Ha as (Hm & -> & (k1 & k2 & Hk & Hlt & Hr' & Hw') & _). specialize (Hlt eq_refl).
  destruct (IH (k1 + k2)%nat Hlt r' w' (amt + Z.of_nat m) _ _ k1 k2 eq_refl Hr' Hw')
    as (k3 & m2 & t & [[r3 w3] a3] & Hk3 & Hc & Hm2 & -> & (k4 & k5 & Hk45 & _ & Hr3 & Hw3) & Ht);
    [rewrite length_drop; lia|].
  rewrite length_drop in *. exists (S k3), (m + m2)%nat, t, (r3, w3, amt + Z.of_nat m + Z.of_nat m2).
  split_and!; [lia|by econstructor|]. split_and!; [lia|lia| |].
  - exists k4, k5. split_and!; [lia|done|by rewrite <- drop_drop|by rewrite <- take_take_drop, app_assoc].
  - destruct t; [destruct Ht as (? & ? & ?); split_and!; [lia|done|done]|].
    destruct Ht as [[? ?]|?]; [left; split; [lia|done]|by right].
Qed.
End copy_ok.

(** * Properties *)

(** C25: The futures that read everything: over a reader that has [data] to
    deliver, [read_to_end] appends all of it to the vector, whatever the
    allocator's capacities, and cuts the scratch space off again;
    [read_to_string] gives it as a string when it is valid UTF-8 and
    [InvalidData] otherwise; [read_exact] fills the whole buffer and takes no
    byte more, or ends in [UnexpectedEof].  An error of the reader is
    returned, with the bytes before it kept, and each future is pending at
    most as often as the reader. *)
Theorem reads_everything R `{!AsyncRead R} (rep : repr R) `{!AsyncReadOk R rep}
    grow (Hgrow : grow_spec grow) fuel reader data fin k
    (Hrep : rep reader data fin k) (Hfuel : (length data < fuel)%nat) :
  (forall buf : Vec, exists k' r' v', (k' <= k)%nat /\ elts v' = elts buf ++ data /\
     completes (ReadToEndFuture_poll grow fuel) k' (ext_read_to_end reader buf)
       (match fin with None => Ok (zlen data) | Some e => Err e end) (r', v', zlen (elts buf))) /\
  (exists k' r', (k' <= k)%nat /\
     completes (ReadToStringFuture_poll grow fuel) k' (ext_read_to_string reader [])
       (if utf8_valid data then match fin with None => Ok (zlen data) | Some e => Err e end
        else match fin with None => Err InvalidData | Some e => Err e end)
       (r', (if utf8_valid data then data else []), {| elts := []; capacity := 0 |}, 0)) /\
  (forall buf, (length buf < fuel)%nat -> exists k' k2 r' buf', (k' + k2 <= k)%nat /\
     rep r' (drop (length buf) data) fin k2 /\ length buf' = (length buf - length data)%nat /\
     completes (ReadExactFuture_poll fuel) k' (ext_read_exact reader buf)
       (if (length buf <=? length data)%nat then Ok tt else Err (default UnexpectedEof fin))
       (r', take (length buf) data, buf')).
Proof.
  split_and!.
  - intros buf. destruct (read_to_end_completes rep grow Hgrow fuel reader buf (zlen (elts buf)) data fin k Hrep Hfuel)
      as (k' & r' & v' & Hk & Hv & _ & Hc); [lia|].
    exists k', r', v'. split_and!; [done..|].
    replace (zlen data) with (zlen (elts buf ++ data) - zlen (elts buf)) by (rewrite length_app; lia). done.
  - by apply (read_to_string_completes rep grow Hgrow fuel reader data fin k).
  - intros buf Hb. by apply (read_exact_completes rep fuel reader [] buf data fin k).
Qed.

(** C23: [BufferWriter] loses, repeats and reorders nothing: what its writer
    has accepted, followed by what is still in the buffer, is at every moment
    all that was accepted from the caller -- after pending polls, interrupted
    writes, errors and writes of nothing too -- so it keeps the contract of
    the writer it wraps; the capacity is never exceeded.  When a flush or a
    close returns [Ok], the buffer is empty and the writer has everything;
    a [write_all] and a flush over it put all the bytes behind what was
    there, or stop with a prefix of them at an error, which the writer below
    caused. *)
Theorem buffered_writer_transparent W `{!AsyncWrite W} (rep : wrepr W) `{!AsyncWriteOk W rep} grow fuel :
  (forall c i b out k, BufferWriter_with_capacity c i = Some b -> 0 <= c -> rep i out k ->
     (Z.to_nat c + k < fuel)%nat -> writer_rep rep fuel b out k) /\
  AsyncWriteOk (AsyncWrite0 := BufferWriter_AsyncWrite grow fuel) (BufferWriter W) (writer_rep rep fuel) /\
  (forall b total k, writer_rep rep fuel b total k ->
     zlen (elts (bw_buf b)) <= capacity (bw_buf b) /\
     forall op, op = BufferWriter_poll_flush fuel \/ op = BufferWriter_poll_close fuel ->
     exists p b', op b = Some (p, b') /\ flush_answer (writer_rep rep fuel) total k p b' /\
       (p = Ready (Ok tt) -> elts (bw_buf b') = [] /\
          exists k', (k' <= k)%nat /\ rep (bw_inner b') total k')) /\
  (forall b total k buf n, writer_rep rep fuel b total k -> (length buf < n)%nat ->
     exists k' k2 m res b', (k' + k2 <= k)%nat /\ (m <= length buf)%nat /\
       writer_rep rep fuel b' (total ++ take m buf) k2 /\
       match res with Ok _ => m = length buf | Err _ => (m < length buf)%nat /\ writer_fails rep end /\
       completes (WriteAllFuture_poll (AsyncWrite0 := BufferWriter_AsyncWrite grow fuel) n) k'
         (b, buf) res (b', drop m buf)).
Proof.
  split_and!.
  - unfold BufferWriter_with_capacity. intros c i b out k Hb Hc Hr Hf.
    destruct (c <=? isize_MAX); [|done]. injection Hb as <-.
    exists out. cbn [bw_inner bw_buf bw_written elts capacity].
    split_and!; [done|by rewrite app_nil_r|done|done|done|done].
  - apply BufferWriter_ok. done.
  - intros b total k Hr. split; [by destruct Hr as (? & _ & _ & _ & ? & _)|].
    intros op [-> | ->].
    + by apply (after_flush rep fuel poll_flush b total k poll_flush_ok).
    + by apply (after_flush rep fuel poll_close b total k poll_close_ok).
  - intros b total k buf n Hr Hn.
    destruct (write_all_completes (AsyncWrite0 := BufferWriter_AsyncWrite grow fuel) (writer_rep rep fuel) n
                b total buf k Hr Hn) as (k' & k2 & m & res & w' & ? & ? & ? & Hres & ?).
    exists k', k2, m, res, w'. split_and!; [done..| |done].
    destruct res; [done|]. destruct Hres. split; [done|]. by eapply buffer_fails.
Qed.

(** C24: [copy] moves every byte: unless the writer fails, it returns the
    number of bytes of a reader that ends after [data], all of them written in
    order and flushed, and the error of a reader that fails after [data];
    whatever it returns, the writer has got a prefix of the data, and the
    future is pending at most as often as its reader and its writer. *)
Theorem copy_moves_all R W `{!AsyncRead R, !AsyncWrite W} (rrep : repr R) (wrep : wrepr W)
    `{!AsyncReadOk R rrep, !AsyncWriteOk W wrep} fuel reader writer data fin out kr kw
    (Hr : rrep reader data fin kr) (Hw : wrep writer out kw) (Hfuel : (length data < fuel)%nat) :
  exists st k' m t r' w', copy_start reader writer = Some st /\ (k' <= kr + kw)%nat /\
    completes (CopyFuture_poll fuel) k' st t (r', w', Z.of_nat m) /\ (m <= length data)%nat /\
    (exists k2, wrep w' (out ++ take m data) k2) /\
    match t with
    | Ok n => fin = None /\ m = length data /\ n = zlen data
    | Err e => (fin = Some e /\ m = length data) \/ writer_fails wrep
    end.
Proof.
  set (b0 := Build_BufferReader reader (replicate (Z.to_nat DEFAULT_BUFSZ) 0) 0 0 0).
  assert (E : copy_start reader writer = Some (b0, writer, 0)) by done.
  assert (Hb : buffer_rep rrep b0 data fin kr).
  { exists [], data. split_and!; [done|done|done|done|]. cbn [b0 br_buf]. rewrite length_replicate. done. }
  destruct (copy_completes (buffer_rep rrep) wrep fuel b0 writer 0 data fin out kr kw Hb Hw Hfuel)
    as (k' & m & t & [[r' w'] a'] & Hk & Hc & Hm & -> & (k1 & k2 & _ & _ & _ & Hw') & Ht).
  exists (b0, writer, 0), k', m, t, r', w'. split_and!; [done|done|done|done|by exists k2|].
  destruct t; [destruct Ht as (-> & -> & ->); by split_and!|].
  destruct Ht as [[-> ->]|?]; [by left|by right].
Qed.

(** ** Concrete runs *)

Lemma reads_everything_witness :
  let r := probe [104; 105] 1 None in
  probe_rep r [104; 105] None 1 /\
  exists k' r', (k' <= 1)%nat /\
    completes (ReadToStringFuture_poll (fun needed _ => needed) 3) k' (ext_read_to_string r [])
      (Ok 2) (r', [104; 105], {| elts := []; capacity := 0 |}, 0).
Proof.
  cbv zeta. assert (H : probe_rep (probe [104; 105] 1 None) [104; 105] None 1) by probe_run.
  assert (Hg : grow_spec (fun needed _ => needed)) by (intros n c; lia).
  split; [exact H|].
  exact (proj1 (proj2 (reads_everything Probe probe_rep _ Hg 3 _ _ _ _ H ltac:(cbn; lia)))).
Defined.

(** Eight bytes through a buffer of four into a writer that takes three at
    once, with a pending and an interrupted write. *)
Lemma buffered_writer_transparent_witness :
  let w := {| probe_out := []; probe_answers := [Ready (Err Interrupted); Pending]; per_write := 3 |} in
  let b := Build_BufferWriter w {| elts := [1; 2; 3]; capacity := 4 |} 0 in
  writer_rep probe_wrep 10 b [1; 2; 3] 2 /\
  exists k' k2 m res b', (k' + k2 <= 2)%nat /\ (m <= 2)%nat /\
    writer_rep probe_wrep 10 b' ([1; 2; 3] ++ take m [4; 5]) k2 /\
    match res with Ok _ => m = 2%nat | Err _ => (m < 2)%nat /\ writer_fails probe_wrep end /\
    completes (WriteAllFuture_poll (AsyncWrite0 := BufferWriter_AsyncWrite (fun n _ => n) 10) 3) k'
      (b, [4; 5]) res (b', drop m [4; 5]).
Proof.
  cbv zeta. set (w := {| probe_out := []; probe_answers := [Ready (Err Interrupted); Pending]; per_write := 3 |}).
  assert (H : writer_rep probe_wrep 10 (Build_BufferWriter w {| elts := [1; 2; 3]; capacity := 4 |} 0) [1; 2; 3] 2).
  { exists []. split_and!; try (vm_compute; congruence); try (cbn; lia). split; [done|cbn; lia]. }
  split; [exact H|].
  pose proof (buffered_writer_transparent ProbeW probe_wrep (fun n _ => n) 10) as (_ & _ & _ & Hw).
  exact (Hw _ _ _ [4; 5] 3%nat H ltac:(cbn; lia)).
Defined.

Lemma copy_moves_all_witness :
  let r := probe [1; 2; 3; 4; 5] 1 None in
  let w := {| probe_out := [9]; probe_answers := [Pending]; per_write := 2 |} in
  probe_rep r [1; 2; 3; 4; 5] None 1 /\ probe_wrep w [9] 1 /\
  exists st k' m t r' w', copy_start r w = Some st /\ (k' <= 2)%nat /\
    completes (CopyFuture_poll 6) k' st t (r', w', Z.of_nat m) /\ (m <= 5)%nat /\
    (exists k2, probe_wrep w' ([9] ++ take m [1; 2; 3; 4; 5]) k2) /\
    match t with
    | Ok n => @None ErrorKind = None /\ m = 5%nat /\ n = 5
    | Err e => (None = Some e /\ m = 5%nat) \/ writer_fails probe_wrep
    end.
Proof.
  cbv zeta.
  assert (Hr : probe_rep (probe [1; 2; 3; 4; 5] 1 None) [1; 2; 3; 4; 5] None 1) by probe_run.
  assert (Hw : probe_wrep {| probe_out := [9]; probe_answers := [Pending]; per_write := 2 |} [9] 1) by (split; [done|cbn; lia]).
  split_and!; [exact Hr|exact Hw|].
  exact (copy_moves_all Probe ProbeW probe_rep probe_wrep 6 _ _ _ _ _ _ _ Hr Hw ltac:(cbn; lia)).
Defined.
