(* ===== verification/Futures.v ===== *)
(** [future/future.rs] and [future/timeout.rs]: the combinators of futures.

    A future is a machine: a poll takes its state and returns the answer and
    the next state ([None] is a panic).  [completes poll k s t s'] (of the
    file Stream): the future is pending [k] times, then ready with [t].  A
    poll may also wake its own task, which the combinators that do so count. *)

From S2P Require Import Prelude Stream.

Abbreviation future F T := (F -> option (poll T * F)) (only parsing).

(** * Futures that are ready by themselves *)

Definition outstanding {T} : option T := None.
Definition Outstanding_poll {T} (data : option T) : option (poll unit * option T) :=
  match data with Some _ => Some (Ready (), data) | None => Some (Pending, data) end.

Definition Pending_poll {T} (st : unit) : option (poll T * unit) := Some (Pending, st).

Definition ready_ {T} (val : T) : option T := Some val.
Definition Ready_poll {T} (st : option T) : option (poll T * option T) :=
  t ← st; Some (Ready t, None).                                    (* expect *)

(** The flag, and how often the task was woken. *)
Definition yield_now : bool * nat := (false, 0%nat).
Definition YieldNow_poll (st : bool * nat) : option (poll unit * (bool * nat)) :=
  let '(b, wakes) := st in
  if negb b then Some (Pending, (true, S wakes)) else Some (Ready (), (b, wakes)).

Definition PollFn_poll {T C} (f : C -> option (poll T * C)) (c : C) : option (poll T * C) := f c.

Section one.
Context {F T : Type} (fpoll : future F T).

Definition PollOnce_poll (f : F) : option (poll (option T) * F) :=
  '(r, f) ← fpoll f;
  match r with
  | Ready t => Some (Ready (Some t), f)
  | Pending => Some (Ready None, f)
  end.

(** [catch_unwind]: a panic of the future is its error; [unwound] is what the
    panic leaves of the future. *)
Definition CatchUnwind_poll (unwound : F -> F) (f : F) : option (poll (result T unit) * F) :=
  match fpoll f with
  | Some (Ready t, f) => Some (Ready (Ok t), f)
  | Some (Pending, f) => Some (Pending, f)
  | None => Some (Ready (Err ()), unwound f)
  end.

(** [timeout]: the timer is a future of its own. *)
Definition TimeoutFuture_poll {D I} (delay_poll : future D I) (st : F * D)
    : option (poll (result T unit) * (F * D)) :=
  let '(fu, delay) := st in
  '(r, fu) ← fpoll fu;
  match r with
  | Ready v => Some (Ready (Ok v), (fu, delay))
  | Pending =>
      '(r, delay) ← delay_poll delay;
      match r with
      | Ready _ => Some (Ready (Err ()), (fu, delay))
      | Pending => Some (Pending, (fu, delay))
      end
  end.
End one.

(** * Two futures *)

Section two.
Context {F1 F2 T : Type} (poll1 : future F1 T) (poll2 : future F2 T).

Definition Or_poll (st : F1 * F2) : option (poll T * (F1 * F2)) :=
  let '(f1, f2) := st in
  '(r, f1) ← poll1 f1;
  match r with
  | Ready t => Some (Ready t, (f1, f2))
  | Pending =>
      '(r, f2) ← poll2 f2;
      match r with
      | Ready t => Some (Ready t, (f1, f2))
      | Pending => Some (Pending, (f1, f2))
      end
  end.

(** [rander::bool] decides which future is polled first; [rand] is the state
    of the generator. *)
Definition Race_poll {G} (rand_bool : G -> bool * G) (st : F1 * F2 * G)
    : option (poll T * (F1 * F2 * G)) :=
  let '(f1, f2, g) := st in
  let '(b, g) := rand_bool g in
  if b : bool then
    '(r, f1) ← poll1 f1;
    match r with
    | Ready t => Some (Ready t, (f1, f2, g))
    | Pending =>
        '(r, f2) ← poll2 f2;
        match r with
        | Ready t => Some (Ready t, (f1, f2, g))
        | Pending => Some (Pending, (f1, f2, g))
        end
    end
  else
    '(r, f2) ← poll2 f2;
    match r with
    | Ready t => Some (Ready t, (f1, f2, g))
    | Pending =>
        '(r, f1) ← poll1 f1;
        match r with
        | Ready t => Some (Ready t, (f1, f2, g))
        | Pending => Some (Pending, (f1, f2, g))
        end
    end.
End two.

Section zips.
Context {F1 F2 T1 T2 E : Type}.

Definition zip (f1 : F1) (f2 : F2) : F1 * option T1 * F2 * option T2 := (f1, None, f2, None).

Definition Zip_poll (poll1 : future F1 T1) (poll2 : future F2 T2) (st : F1 * option T1 * F2 * option T2)
    : option (poll (T1 * T2) * (F1 * option T1 * F2 * option T2)) :=
  let '(f1, o1, f2, o2) := st in
  '(f1, o1) ← match o1 with
              | Some _ => Some (f1, o1)
              | None => '(r, f1) ← poll1 f1;
                        Some (f1, match r with Ready out => Some out | Pending => None end)
              end;
  '(f2, o2) ← match o2 with
              | Some _ => Some (f2, o2)
              | None => '(r, f2) ← poll2 f2;
                        Some (f2, match r with Ready out => Some out | Pending => None end)
              end;
  match o1, o2 with
  | Some t1, Some t2 => Some (Ready (t1, t2), (f1, None, f2, None))
  | _, _ => Some (Pending, (f1, o1, f2, o2))
  end.

Definition try_zip (f1 : F1) (f2 : F2) : F1 * option (result T1 E) * F2 * option (result T2 E) :=
  (f1, None, f2, None).

(** A step on one of the two: go on with the output, or return the error. *)
Definition TryZip_poll (poll1 : future F1 (result T1 E)) (poll2 : future F2 (result T2 E))
    (st : F1 * option (result T1 E) * F2 * option (result T2 E))
    : option (poll (result (T1 * T2) E) * (F1 * option (result T1 E) * F2 * option (result T2 E))) :=
  let '(f1, o1, f2, o2) := st in
  let finish f1 o1 f2 o2 :=
    match o1, o2 with
    | Some res1, Some res2 =>
        match res1, res2 with
        | Ok t1, Ok t2 => Some (Ready (Ok (t1, t2)), (f1, None, f2, None))
        | _, _ => None                                             (* unreachable! *)
        end
    | _, _ => Some (Pending, (f1, o1, f2, o2))
    end in
  let second f1 o1 :=
    match o2 with
    | Some _ => finish f1 o1 f2 o2
    | None =>
        '(r, f2) ← poll2 f2;
        match r with
        | Ready (Ok t) => finish f1 o1 f2 (Some (Ok t))
        | Ready (Err err) => Some (Ready (Err err), (f1, o1, f2, None))
        | Pending => finish f1 o1 f2 None
        end
    end in
  match o1 with
  | Some _ => second f1 o1
  | None =>
      '(r, f1) ← poll1 f1;
      match r with
      | Ready (Ok t) => second f1 (Some (Ok t))
      | Ready (Err err) => Some (Ready (Err err), (f1, None, f2, o2))
      | Pending => second f1 None
      end
  end.
End zips.

(** * Properties *)

(** A future that is pending [k] times in a row. *)
Inductive pends {F T} (fpoll : future F T) : nat -> F -> F -> Prop :=
| pends_O f : pends fpoll 0 f f
| pends_S k f f' f'' : fpoll f = Some (Pending, f') -> pends fpoll k f' f'' -> pends fpoll (S k) f f''.

Lemma completes_pends {F T} (fpoll : future F T) k f t f' :
  completes fpoll k f t f' -> exists f1, pends fpoll k f f1 /\ fpoll f1 = Some (Ready t, f').
Proof.
  induction 1 as [f t f' E|k f f1 t f' E _ (f2 & Hp & E2)]; [exists f; split; [constructor|done]|].
  exists f2. split; [by econstructor|done].
Qed.

Lemma pends_completes {F T} (fpoll : future F T) k f f1 t f' :
  pends fpoll k f f1 -> fpoll f1 = Some (Ready t, f') -> completes fpoll k f t f'.
Proof. induction 1; [by constructor|]. intros. econstructor; [done|auto]. Qed.

(** The first [j] of the pending polls. *)
Lemma pends_split {F T} (fpoll : future F T) k f f' j :
  pends fpoll k f f' -> (j <= k)%nat -> exists f1, pends fpoll j f f1 /\ pends fpoll (k - j) f1 f'.
Proof.
  intros H. revert j. induction H as [f|k f f1 f' E H IH]; intros j Hj.
  { exists f. replace j with 0%nat by lia. split; constructor. }
  destruct j as [|j].
  { exists f. split; [constructor|]. by econstructor. }
  destruct (IH j) as (f2 & ? & ?); [lia|]. exists f2. split; [by econstructor|done].
Qed.

Lemma pends_succ {F T} (fpoll : future F T) k f f' : pends fpoll (S k) f f' ->
  exists f1, fpoll f = Some (Pending, f1) /\ pends fpoll k f1 f'.
Proof. inversion 1; subst. eauto. Qed.

Ltac poll_with E := cbn; rewrite ?E; cbn; rewrite ?E; reflexivity.

Section two_ok.
Context {F1 F2 : Type}.

(** The first one, while the second is pending. *)
Lemma or_first {T} (poll1 : future F1 T) (poll2 : future F2 T) k f1 t f1' :
  completes poll1 k f1 t f1' -> forall f2 f2', pends poll2 k f2 f2' ->
  completes (Or_poll poll1 poll2) k (f1, f2) t (f1', f2').
Proof.
  induction 1 as [f1 t f1' E|k f1 f t f1' E _ IH]; intros f2 f2' Hp.
  - inversion Hp; subst. constructor. poll_with E.
  - apply pends_succ in Hp as (g & Eg & Hp). econstructor; [cbn; rewrite E; cbn; by rewrite Eg|auto].
Qed.

Lemma or_second {T} (poll1 : future F1 T) (poll2 : future F2 T) k f2 t f2' :
  completes poll2 k f2 t f2' -> forall f1 f1', pends poll1 (S k) f1 f1' ->
  completes (Or_poll poll1 poll2) k (f1, f2) t (f1', f2').
Proof.
  induction 1 as [f2 t f2' E|k f2 f t f2' E _ IH]; intros f1 f1' Hp; apply pends_succ in Hp as (g & Eg & Hp).
  - inversion Hp; subst. constructor. cbn. rewrite Eg. cbn. by rewrite E.
  - econstructor; [cbn; rewrite Eg; cbn; by rewrite E|auto].
Qed.

Lemma zip_left {T1 T2} (poll1 : future F1 T1) (poll2 : future F2 T2) k f1 t1 f1' f2 t2 :
  completes poll1 k f1 t1 f1' ->
  completes (Zip_poll poll1 poll2) k (f1, None, f2, Some t2) (t1, t2) (f1', None, f2, None).
Proof. induction 1 as [f1 t f1' E|k f1 f t f1' E _ IH]; [constructor|econstructor; [|exact IH]]; cbn; by rewrite E. Qed.

Lemma zip_right {T1 T2} (poll1 : future F1 T1) (poll2 : future F2 T2) k f2 t2 f2' f1 t1 :
  completes poll2 k f2 t2 f2' ->
  completes (Zip_poll poll1 poll2) k (f1, Some t1, f2, None) (t1, t2) (f1, None, f2', None).
Proof. induction 1 as [f2 t f2' E|k f2 f t f2' E _ IH]; [constructor|econstructor; [|exact IH]]; cbn; by rewrite E. Qed.

Lemma zip_both {T1 T2} (poll1 : future F1 T1) (poll2 : future F2 T2) k1 f1 t1 f1' :
  completes poll1 k1 f1 t1 f1' -> forall k2 f2 t2 f2', completes poll2 k2 f2 t2 f2' ->
  completes (Zip_poll poll1 poll2) (k1 `max` k2) (zip f1 f2) (t1, t2) (f1', None, f2', None).
Proof.
  unfold zip. induction 1 as [f1 t1 f1' E|k1 f1 f t1 f1' E H1 IH]; intros k2 f2 t2 f2' H2;
    inversion H2 as [? ? ? E2|k ? g ? ? E2 H2']; subst.
  - constructor. cbn. rewrite E. cbn. by rewrite E2.
  - econstructor; [cbn; rewrite E; cbn; by rewrite E2|]. by apply zip_right.
  - econstructor; [cbn; rewrite E; cbn; by rewrite E2|]. rewrite ?Nat.max_0_r. by apply zip_left.
  - simpl. econstructor; [cbn; rewrite E; cbn; by rewrite E2|]. by apply IH.
Qed.

(** [try_zip]: the other output is there, or still to come. *)
Section try.
Context {T1 T2 E : Type} (poll1 : future F1 (result T1 E)) (poll2 : future F2 (result T2 E)).

Lemma try_zip_left k f1 r1 f1' f2 t2 : completes poll1 k f1 r1 f1' ->
  completes (TryZip_poll poll1 poll2) k (f1, None, f2, Some (Ok t2))
    (match r1 with Ok t1 => Ok (t1, t2) | Err e => Err e end)
    (f1', None, f2, match r1 with Ok _ => None | Err _ => Some (Ok t2) end).
Proof.
  induction 1 as [f1 r f1' E1|k f1 f r f1' E1 _ IH].
  - constructor. cbn. rewrite E1. by destruct r.
  - econstructor; [|exact IH]. cbn. by rewrite E1.
Qed.

Lemma try_zip_right k f2 r2 f2' f1 t1 : completes poll2 k f2 r2 f2' ->
  completes (TryZip_poll poll1 poll2) k (f1, Some (Ok t1), f2, None)
    (match r2 with Ok t2 => Ok (t1, t2) | Err e => Err e end)
    (f1, match r2 with Ok _ => None | Err _ => Some (Ok t1) end, f2', None).
Proof.
  induction 1 as [f2 r f2' E2|k f2 f r f2' E2 _ IH].
  - constructor. cbn. rewrite E2. by destruct r.
  - econstructor; [|exact IH]. cbn. by rewrite E2.
Qed.

(** What the two outputs and their times make of the pair. *)
Definition try_both (k1 : nat) (r1 : result T1 E) (k2 : nat) (r2 : result T2 E) : nat * result (T1 * T2) E :=
  match r1, r2 with
  | Ok t1, Ok t2 => (k1 `max` k2, Ok (t1, t2))%nat
  | Err e, Ok _ => (k1, Err e)
  | Ok _, Err e => (k2, Err e)
  | Err e1, Err e2 => if (k1 <=? k2)%nat then (k1, Err e1) else (k2, Err e2)
  end.

Lemma try_zip_both k1 f1 r1 f1' : completes poll1 k1 f1 r1 f1' ->
  forall k2 f2 r2 f2', completes poll2 k2 f2 r2 f2' ->
  let '(k, r) := try_both k1 r1 k2 r2 in
  exists st, completes (TryZip_poll poll1 poll2) k (try_zip f1 f2) r st.
Proof.
  unfold try_zip. induction 1 as [f1 r1 f1' E1|k1 f1 f r1 f1' E1 H1 IH]; intros k2 f2 r2 f2' H2.
  - destruct r1 as [t1|e1].
    + inversion H2 as [? ? ? E2|k ? g ? ? E2 H2']; subst.
      * destruct r2; eexists; constructor; cbn; rewrite E1; cbn; by rewrite E2.
      * pose proof (try_zip_right _ _ _ _ f1' t1 H2') as Hr.
        destruct r2; eexists; (econstructor; [cbn; rewrite E1; cbn; by rewrite E2|exact Hr]).
    + destruct r2; eexists; constructor; cbn; by rewrite E1.
  - inversion H2 as [? ? ? E2|k ? g ? ? E2 H2']; subst.
    + destruct r2 as [t2|e2].
      * pose proof (try_zip_left _ _ _ _ f2' t2 H1) as Hl.
        destruct r1; eexists; rewrite ?Nat.max_0_r; (econstructor; [cbn; rewrite E1; cbn; by rewrite E2|exact Hl]).
      * destruct r1; eexists; constructor; cbn; rewrite E1; cbn; by rewrite E2.
    + specialize (IH k g r2 f2' H2').
      assert (Hs : forall k' r, (exists st, completes (TryZip_poll poll1 poll2) k' (f, None, g, None) r st) ->
        exists st, completes (TryZip_poll poll1 poll2) (S k') (f1, None, f2, None) r st).
      { intros k' r [st Hc]. exists st. econstructor; [cbn; rewrite E1; cbn; by rewrite E2|exact Hc]. }
      destruct r1, r2; cbn in IH |- *; try (by apply Hs). destruct (k1 <=? k)%nat; by apply Hs.
Qed.
End try.
End two_ok.

Section race_ok.
Context {F1 F2 G T : Type} (poll1 : future F1 T) (poll2 : future F2 T) (rand_bool : G -> bool * G).

Lemma race_pends j f1 g1 : pends poll1 j f1 g1 -> forall f2 g2 g, pends poll2 j f2 g2 ->
  exists g', pends (Race_poll poll1 poll2 rand_bool) j (f1, f2, g) (g1, g2, g').
Proof.
  induction 1 as [f1|j f1 h1 g1 E1 _ IH]; intros f2 g2 g H2.
  { inversion H2; subst. exists g. constructor. }
  apply pends_succ in H2 as (h2 & E2 & H2). destruct (rand_bool g) as [b g1'] eqn:Eg.
  destruct (IH h2 g2 g1' H2) as [g' ?]. exists g'.
  econstructor; [|done]. cbn. rewrite Eg. destruct b; [rewrite E1; cbn; by rewrite E2|rewrite E2; cbn; by rewrite E1].
Qed.

(** The earlier output, or either one. *)
Lemma race_both k1 f1 t1 f1' k2 f2 t2 f2' g :
  completes poll1 k1 f1 t1 f1' -> completes poll2 k2 f2 t2 f2' ->
  exists t st, completes (Race_poll poll1 poll2 rand_bool) (k1 `min` k2) (f1, f2, g) t st /\
    ((k1 < k2)%nat -> t = t1) /\ ((k2 < k1)%nat -> t = t2) /\ (t = t1 \/ t = t2).
Proof.
  intros (g1 & P1 & E1)%completes_pends (g2 & P2 & E2)%completes_pends.
  destruct (pends_split _ _ _ _ (k1 `min` k2) P1 ltac:(lia)) as (h1 & Q1 & R1).
  destruct (pends_split _ _ _ _ (k1 `min` k2) P2 ltac:(lia)) as (h2 & Q2 & R2).
  destruct (race_pends _ _ _ Q1 _ _ g Q2) as (g' & Hp).
  assert (Hlast : exists t st, Race_poll poll1 poll2 rand_bool (h1, h2, g') = Some (Ready t, st) /\
    ((k1 < k2)%nat -> t = t1) /\ ((k2 < k1)%nat -> t = t2) /\ (t = t1 \/ t = t2)).
  { cbn. destruct (rand_bool g') as [b g2'].
    destruct (lt_eq_lt_dec k1 k2) as [[Hlt|He]|Hlt].
    - rewrite Nat.min_l, Nat.sub_diag in R1 by lia. inversion R1; subst h1.
      replace (k2 - k1 `min` k2)%nat with (S (k2 - k1 - 1)) in R2 by lia.
      apply pends_succ in R2 as (h & Eh & _).
      destruct b; [rewrite E1|rewrite Eh; cbn; rewrite E1]; cbn; eexists _, _; (split; [done|auto with lia]).
    - subst k2. rewrite Nat.min_id, Nat.sub_diag in *. inversion R1; subst. inversion R2; subst.
      destruct b; [rewrite E1|rewrite E2]; cbn; eexists _, _; (split; [done|auto with lia]).
    - rewrite Nat.min_r, Nat.sub_diag in R2 by lia. inversion R2; subst h2.
      replace (k1 - k1 `min` k2)%nat with (S (k1 - k2 - 1)) in R1 by lia.
      apply pends_succ in R1 as (h & Eh & _).
      destruct b; [rewrite Eh; cbn; rewrite E2|rewrite E2]; cbn; eexists _, _; (split; [done|auto with lia]). }
  destruct Hlast as (t & st & E & Ht). exists t, st. split; [by eapply pends_completes|done].
Qed.
End race_ok.

(** The timer is polled only while the future is pending. *)
Lemma timeout_first {F D T I} (fpoll : future F T) (dpoll : future D I) k f t f' :
  completes fpoll k f t f' -> forall d d', pends dpoll k d d' ->
  completes (TimeoutFuture_poll fpoll dpoll) k (f, d) (Ok t) (f', d').
Proof.
  induction 1 as [f t f' E|k f f1 t f' E _ IH]; intros d d' Hp.
  - inversion Hp; subst. constructor. poll_with E.
  - apply pends_succ in Hp as (g & Eg & Hp). econstructor; [cbn; rewrite E; cbn; by rewrite Eg|auto].
Qed.

Lemma timeout_second {F D T I} (fpoll : future F T) (dpoll : future D I) k d i d' :
  completes dpoll k d i d' -> forall f f', pends fpoll (S k) f f' ->
  completes (TimeoutFuture_poll fpoll dpoll) k (f, d) (Err ()) (f', d').
Proof.
  induction 1 as [d i d' E|k d d1 i d' E _ IH]; intros f f' Hp; apply pends_succ in Hp as (g & Eg & Hp).
  - inversion Hp; subst. constructor. cbn. rewrite Eg. cbn. by rewrite E.
  - econstructor; [cbn; rewrite Eg; cbn; by rewrite E|auto].
Qed.

Lemma catch_completes {F T} (fpoll : future F T) unwound k f t f' :
  completes fpoll k f t f' -> completes (CatchUnwind_poll fpoll unwound) k f (Ok t) f'.
Proof. induction 1 as [f t f' E|k f f1 t f' E _ IH]; [constructor|econstructor; [|exact IH]]; unfold CatchUnwind_poll; by rewrite E. Qed.

Lemma catch_panics {F T} (fpoll : future F T) unwound k f f' :
  pends fpoll k f f' -> fpoll f' = None ->
  completes (CatchUnwind_poll fpoll unwound) k f (Err ()) (unwound f').
Proof.
  induction 1 as [f|k f f1 f' E _ IH]; intros HN; [constructor|econstructor; [|by apply IH]];
    unfold CatchUnwind_poll; [by rewrite HN|by rewrite E].
Qed.

(** Never ready. *)
Lemma never_completes {F T} (fpoll : future F T) (never : F -> Prop) :
  (forall f, never f -> exists f', fpoll f = Some (Pending, f') /\ never f') ->
  forall k f t f', never f -> ~ completes fpoll k f t f'.
Proof.
  intros Hn k f t f' Hf Hc. induction Hc as [f t f' E|k f f1 t f' E _ IH];
    destruct (Hn f Hf) as (g & Eg & Hg); rewrite E in Eg; [done|]. simplify_eq. auto.
Qed.

(** C34: The combinators of futures.  [zip] is ready with both outputs when the
    later of the two is, and polls neither again after its output; [try_zip]
    too, but returns an error as soon as one comes, the first future's first.
    [or] gives the output of its first future unless the second is ready
    strictly earlier, and needs no more of the other than that it is pending
    until then; [race] gives the earlier output, and one of the two when both
    come at once, for every random generator; [timeout] gives the output
    unless the timer fires strictly earlier. *)
Theorem futures_combine F1 F2 T1 T2 (poll1 : future F1 T1) (poll2 : future F2 T2) :
  (forall k1 f1 t1 f1' k2 f2 t2 f2',
     completes poll1 k1 f1 t1 f1' -> completes poll2 k2 f2 t2 f2' ->
     completes (Zip_poll poll1 poll2) (k1 `max` k2) (zip f1 f2) (t1, t2) (f1', None, f2', None)) /\
  (forall k f1 t f1' f2 f2', completes poll1 k f1 t f1' -> pends poll2 k f2 f2' ->
     completes (TimeoutFuture_poll poll1 poll2) k (f1, f2) (Ok t) (f1', f2')) /\
  (forall k f1 f1' f2 i f2', pends poll1 (S k) f1 f1' -> completes poll2 k f2 i f2' ->
     completes (TimeoutFuture_poll poll1 poll2) k (f1, f2) (Err ()) (f1', f2')) /\
  (forall E (p1 : future F1 (result T1 E)) (p2 : future F2 (result T2 E)) k1 f1 r1 f1' k2 f2 r2 f2',
     completes p1 k1 f1 r1 f1' -> completes p2 k2 f2 r2 f2' ->
     let '(k, r) := try_both k1 r1 k2 r2 in
     exists st, completes (TryZip_poll p1 p2) k (try_zip f1 f2) r st) /\
  (forall (p2 : future F2 T1) k f1 t f1' f2 f2', completes poll1 k f1 t f1' -> pends p2 k f2 f2' ->
     completes (Or_poll poll1 p2) k (f1, f2) t (f1', f2')) /\
  (forall (p2 : future F2 T1) k f1 f1' f2 t f2', pends poll1 (S k) f1 f1' -> completes p2 k f2 t f2' ->
     completes (Or_poll poll1 p2) k (f1, f2) t (f1', f2')) /\
  (forall (p2 : future F2 T1) G (rand_bool : G -> bool * G) k1 f1 t1 f1' k2 f2 t2 f2' g,
     completes poll1 k1 f1 t1 f1' -> completes p2 k2 f2 t2 f2' ->
     exists t st, completes (Race_poll poll1 p2 rand_bool) (k1 `min` k2) (f1, f2, g) t st /\
       ((k1 < k2)%nat -> t = t1) /\ ((k2 < k1)%nat -> t = t2) /\ (t = t1 \/ t = t2)).
Proof.
  split_and!.
  - intros. by apply zip_both.
  - intros. by apply timeout_first.
  - intros. by eapply timeout_second.
  - intros. by eapply (try_zip_both p1 p2).
  - intros. by apply or_first.
  - intros. by eapply or_second.
  - intros. by eapply race_both.
Qed.

(** The simple futures.  [ready] is ready once, and a poll after that
    panics; [yield_now] is pending once, having woken its task, then ready;
    [pending] and [outstanding] are never ready; [poll_once] is ready at the
    first poll, with the output or with nothing; [catch_unwind] gives the
    output, or the panic in the poll in which it comes. *)
Theorem futures_simple F T (fpoll : future F T) :
  (forall val : T, completes Ready_poll 0 (ready_ val) val None) /\ Ready_poll (@None T) = None /\
  completes YieldNow_poll 1 yield_now () (true, 1%nat) /\
  (forall k t st, ~ completes (@Pending_poll T) k () t st) /\
  (forall k t st, ~ completes Outstanding_poll k (@outstanding T) t st) /\
  (forall f r f', fpoll f = Some (r, f') ->
     completes (PollOnce_poll fpoll) 0 f (match r with Ready t => Some t | Pending => None end) f') /\
  (forall unwound k f t f', completes fpoll k f t f' ->
     completes (CatchUnwind_poll fpoll unwound) k f (Ok t) f') /\
  (forall unwound k f f', pends fpoll k f f' -> fpoll f' = None ->
     completes (CatchUnwind_poll fpoll unwound) k f (Err ()) (unwound f')).
Proof.
  split_and!.
  - by constructor.
  - done.
  - econstructor; [reflexivity|by constructor].
  - intros k t st. apply (never_completes _ (fun _ => True)); [|done]. intros []. by eexists.
  - intros k t st. apply (never_completes _ (fun d => d = None)); [|done]. intros ? ->. by eexists.
  - intros f r f' E. constructor. unfold PollOnce_poll. rewrite E. by destruct r.
  - intros. by apply catch_completes.
  - intros. by apply catch_panics.
Qed.

(** ** Concrete runs *)

(** Pending as often as its state says, then ready with [v]; [None] panics. *)
Definition later {T} (v : option T) (n : nat) : option (poll T * nat) :=
  match n with O => t ← v; Some (Ready t, O) | S n => Some (Pending, n) end.

Lemma later_completes {T} (v : T) n : completes (later (Some v)) n n v 0%nat.
Proof. induction n as [|n IH]; [by constructor|]. by econstructor. Qed.

Lemma later_pends {T} (v : option T) n m : pends (later v) n (n + m)%nat m.
Proof. induction n as [|n IH]; [constructor|]. by econstructor. Qed.

Lemma futures_combine_witness :
  completes (Zip_poll (later (Some 1)) (later (Some 2))) 3 (zip 1%nat 3%nat) (1, 2) (0%nat, None, 0%nat, None) /\
  completes (TimeoutFuture_poll (later (Some 1)) (later (Some 2))) 2 (3%nat, 2%nat) (Err ()) (0%nat, 0%nat) /\
  exists t st, completes (Race_poll (later (Some 1)) (later (Some 2)) (fun g => (negb g, negb g))) 1
    (1%nat, 3%nat, true) t st /\ ((1 < 3)%nat -> t = 1) /\ ((3 < 1)%nat -> t = 2) /\ (t = 1 \/ t = 2).
Proof.
  destruct (futures_combine nat nat Z Z (later (Some 1)) (later (Some 2))) as (Hz & _ & Ht & _ & _ & _ & Hr).
  split_and!.
  - exact (Hz 1%nat _ _ _ 3%nat _ _ _ (later_completes 1 1) (later_completes 2 3)).
  - exact (Ht 2%nat _ _ _ _ _ (later_pends (Some 1) 3 0) (later_completes 2 2)).
  - exact (Hr (later (Some 2)) bool _ 1%nat _ _ _ 3%nat _ _ _ true (later_completes 1 1) (later_completes 2 3)).
Defined.

Lemma futures_simple_witness :
  completes (CatchUnwind_poll (later (@None Z)) id) 2 2%nat (Err ()) 0%nat.
Proof.
  destruct (futures_simple nat Z (later None)) as (_ & _ & _ & _ & _ & _ & _ & Hc).
  exact (Hc id 2%nat _ _ (later_pends None 2 0) eq_refl).
Defined.
