(* ===== verification/Colo.v ===== *)
(** [utils/colo.rs]: a slab of objects under stable indices.

    The vacant slots are linked in a list that starts at [head] ([!0] is its
    end), so an index is reused after its object was removed.  The slab is
    shown to be a finite map from indices to objects whose [insert] chooses
    the key that [next_vacant] announces. *)

From stdpp Require Import gmap.
From S2P Require Import Prelude.

Inductive Slot (T : Type) : Type :=
| Vacant (next : Z)
| Occupied (object : T).
Arguments Vacant {T} next.
Arguments Occupied {T} object.

Definition is_occupied {T} (s : Slot T) : bool :=
  match s with Vacant _ => false | Occupied _ => true end.

Record Colo (T : Type) := mkColo { slots : list (Slot T); limited : Z; len : Z; head : Z }.
Arguments mkColo {T}.
Arguments slots {T} _.
Arguments limited {T} _.
Arguments len {T} _.
Arguments head {T} _.

(** [!0]. *)
Definition NONE : Z := usize_MAX.

Section colo.
Context {T : Type}.

Definition new : Colo T := mkColo [] 0 0 NONE.
(** The capacity of the vector has no effect on what the slab holds. *)
Definition with_capacity (cap : Z) : Colo T := mkColo [] 0 0 NONE.
Definition with_limited (limit : Z) : Colo T := mkColo [] limit 0 NONE.

Definition is_empty (c : Colo T) : bool := len c =? 0.
Definition next_vacant (c : Colo T) : Z := if head c =? NONE then len c else head c.

(** [None] is a panic: an index out of bounds, [unreachable!], a vector that
    cannot grow. *)
Definition insert (object : T) (c : Colo T) : option (Z * Colo T) :=
  if negb (limited c =? 0) && (len c =? limited c) then Some (0, c)
  else
    let l := len c + 1 in
    if head c =? NONE then
      if Z.of_nat (length (slots c)) <? isize_MAX
      then Some (l - 1, mkColo (slots c ++ [Occupied object]) (limited c) l (head c)) else None
    else
      let index := head c in
      s ← slots c !! Z.to_nat index;
      match s with
      | Vacant next =>
          Some (index, mkColo (<[Z.to_nat index := Occupied object]> (slots c)) (limited c) l next)
      | Occupied _ => None
      end.

Definition remove (index : Z) (c : Colo T) : option T * Colo T :=
  match slots c !! Z.to_nat index with
  | Some (Occupied object) =>
      (Some object, mkColo (<[Z.to_nat index := Vacant (head c)]> (slots c)) (limited c) (len c - 1) index)
  | _ => (None, c)
  end.

(** [get], and [get_mut] followed by a write of [f object]. *)
Definition get (index : Z) (c : Colo T) : option T :=
  match slots c !! Z.to_nat index with Some (Occupied object) => Some object | _ => None end.

Definition get_mut (index : Z) (f : T -> T) (c : Colo T) : option (Colo T) :=
  match slots c !! Z.to_nat index with
  | Some (Occupied object) =>
      Some (mkColo (<[Z.to_nat index := Occupied (f object)]> (slots c)) (limited c) (len c) (head c))
  | _ => None
  end.

(** The closure's state [C] goes from index to index; it may change the
    object. *)
Fixpoint retain_from {C} (f : C -> Z -> T -> bool * T * C) (n : nat) (i : Z) (st : C) (c : Colo T) : C * Colo T :=
  match n with
  | O => (st, c)
  | S n =>
      match slots c !! Z.to_nat i with
      | Some (Occupied v) =>
          let '(keep, v, st) := f st i v in
          let c := mkColo (<[Z.to_nat i := Occupied v]> (slots c)) (limited c) (len c) (head c) in
          let c := if keep then c else snd (remove i c) in
          retain_from f n (i + 1) st c
      | _ => retain_from f n (i + 1) st c
      end
  end.
Definition retain {C} (f : C -> Z -> T -> bool * T * C) (st : C) (c : Colo T) : C * Colo T :=
  retain_from f (length (slots c)) 0 st c.

Definition clear (c : Colo T) : Colo T := mkColo [] (limited c) 0 NONE.

(** [swap] panics on vacant slots and out of bounds. *)
Definition swap (a b : Z) (c : Colo T) : option (Colo T) :=
  sa ← slots c !! Z.to_nat a; guard (is_occupied sa = true);;
  sb ← slots c !! Z.to_nat b; guard (is_occupied sb = true);;
  if a =? b then Some c
  else Some (mkColo (<[Z.to_nat a := sb]> (<[Z.to_nat b := sa]> (slots c))) (limited c) (len c) (head c)).

(** [reserve] and [reserve_exact]: how much the vector is asked to grow. *)
Definition reserve (additional : Z) (c : Colo T) : Z :=
  let vacant := Z.of_nat (length (slots c)) - len c in
  if vacant <? additional then additional - vacant else 0.

(** [Iter], [IterMut] and [IntoIter]: the slots still to come, with their
    indices. *)
Fixpoint iter_next (i : Z) (l : list (Slot T)) : option ((Z * T) * (Z * list (Slot T))) :=
  match l with
  | [] => None
  | Vacant _ :: l => iter_next (i + 1) l
  | Occupied object :: l => Some ((i, object), (i + 1, l))
  end.
Definition iter (c : Colo T) : Z * list (Slot T) := (0, slots c).

(** All the items, in order. *)
Fixpoint items (i : Z) (l : list (Slot T)) : list (Z * T) :=
  match l with
  | [] => []
  | Vacant _ :: l => items (i + 1) l
  | Occupied object :: l => (i, object) :: items (i + 1) l
  end.

Definition index (i : Z) (c : Colo T) : option T := get i c.       (* expect *)

Fixpoint insert_all (l : list T) (c : Colo T) : option (Colo T) :=
  match l with
  | [] => Some c
  | x :: l => '(_, c) ← insert x c; insert_all l c
  end.
Definition from_iter (l : list T) : option (Colo T) := insert_all l (with_capacity (Z.of_nat (length l))).

(** * The invariant

    [chain h l ch]: from [h] the vacant slots of [l] are linked as [ch]. *)

Inductive chain (l : list (Slot T)) : Z -> list Z -> Prop :=
| chain_nil : chain l NONE []
| chain_cons i next ch :
    0 <= i < NONE -> l !! Z.to_nat i = Some (Vacant next) -> chain l next ch -> chain l i (i :: ch).

Definition vacant_at (l : list (Slot T)) (i : Z) : Prop :=
  0 <= i /\ exists next, l !! Z.to_nat i = Some (Vacant next).

Definition occupied_count (l : list (Slot T)) : Z := Z.of_nat (length (items 0 l)).

Definition wf (c : Colo T) : Prop :=
  (exists ch, chain (slots c) (head c) ch /\ NoDup ch /\ forall i, vacant_at (slots c) i -> i ∈ ch) /\
  len c = occupied_count (slots c) /\ Z.of_nat (length (slots c)) <= isize_MAX.

(** The map that the slab stands for. *)
Definition contents (c : Colo T) : gmap Z T := list_to_map (items 0 (slots c)).

Lemma items_shift i l : items i l = (fun x => (fst x + i, snd x)) <$> items 0 l.
Proof.
  revert i. induction l as [|[next|x] l IH]; intros i; simpl; [done|..].
  - rewrite (IH (i + 1)), (IH (0 + 1)), <- list_fmap_compose. apply list_fmap_ext. intros ? [] _. simpl. f_equal. lia.
  - f_equal. rewrite (IH (i + 1)), (IH (0 + 1)), <- list_fmap_compose. apply list_fmap_ext. intros ? [] _. simpl. f_equal. lia.
Qed.

Lemma elem_of_items i l j x : (j, x) ∈ items i l <-> i <= j /\ l !! Z.to_nat (j - i) = Some (Occupied x).
Proof.
  revert i. induction l as [|s l IH]; intros i; simpl.
  { rewrite elem_of_nil. split; [done|]. by intros [_ ?]. }
  assert (Hrest : (j, x) ∈ items (i + 1) l <-> i + 1 <= j /\ (s :: l) !! Z.to_nat (j - i) = Some (Occupied x)).
  { rewrite IH. split; intros [Hj Hl]; (split; [lia|]);
      replace (Z.to_nat (j - i)) with (S (Z.to_nat (j - (i + 1)))) in * by lia; done. }
  destruct s as [next|y].
  - rewrite Hrest. split; intros [Hj Hl]; (split; [|done]); [lia|].
    destruct (decide (j = i)) as [->|]; [|lia]. by rewrite Z.sub_diag in Hl.
  - rewrite elem_of_cons, Hrest. split.
    + intros [[= -> ->]|[? ?]]; [split; [lia|by rewrite Z.sub_diag]|split; [lia|done]].
    + intros [Hj Hl]. destruct (decide (j = i)) as [->|]; [|right; split; [lia|done]].
      rewrite Z.sub_diag in Hl. left. simpl in Hl. congruence.
Qed.

Lemma items_NoDup i l : NoDup (items i l).*1.
Proof.
  revert i. induction l as [|[next|x] l IH]; intros i; simpl; [constructor|apply IH|].
  constructor; [|apply IH]. intros ((j & y) & E & H)%list_elem_of_fmap. cbn in E.
  apply elem_of_items in H as [? _]. lia.
Qed.

Lemma contents_lookup c i : contents c !! i = if 0 <=? i then get i c else None.
Proof.
  unfold contents. apply option_eq. intros x.
  rewrite <- elem_of_list_to_map by apply items_NoDup. rewrite elem_of_items, Z.sub_0_r. unfold get.
  destruct (Z.leb_spec 0 i); [|by split; [intros [? _]; lia|]].
  destruct (slots c !! Z.to_nat i) as [[]|]; naive_solver.
Qed.

Lemma len_size c : wf c -> len c = Z.of_nat (size (contents c)).
Proof.
  intros (_ & -> & _). unfold occupied_count, contents. rewrite map_size_list_to_map by apply items_NoDup. done.
Qed.

(** ** Updates of the slots *)

Lemma get_set i j s c l h : 0 <= i -> 0 <= j -> (Z.to_nat j < length (slots c))%nat ->
  get i (mkColo (<[Z.to_nat j := s]> (slots c)) l (len c) h) =
  if decide (i = j) then match s with Occupied x => Some x | Vacant _ => None end else get i c.
Proof.
  intros Hi Hj Hl. unfold get. cbn [slots]. destruct (decide (i = j)) as [->|Hne].
  - rewrite list_lookup_insert_eq by done. by destruct s.
  - rewrite list_lookup_insert_ne by lia. done.
Qed.

Lemma get_len i l lm n1 n2 h1 h2 : get i (mkColo (T:=T) l lm n1 h1) = get i (mkColo l lm n2 h2).
Proof. done. Qed.

Lemma contents_fields (l : list (Slot T)) lm1 lm2 n1 n2 h1 h2 :
  contents (mkColo l lm1 n1 h1) = contents (mkColo l lm2 n2 h2).
Proof. done. Qed.

Lemma contents_set_occupied c j x lm n h : 0 <= j -> (Z.to_nat j < length (slots c))%nat ->
  contents (mkColo (<[Z.to_nat j := Occupied x]> (slots c)) lm n h) = <[j := x]> (contents c).
Proof.
  intros Hj Hl. rewrite (contents_fields _ _ lm _ (len c) _ h). apply map_eq. intros i.
  rewrite contents_lookup. destruct (Z.leb_spec 0 i) as [Hi|Hi].
  - rewrite get_set by lia. destruct (decide (i = j)) as [->|Hne]; [by rewrite lookup_insert_eq|].
    rewrite lookup_insert_ne, contents_lookup by done. by rewrite (proj2 (Z.leb_le 0 i)).
  - rewrite lookup_insert_ne, contents_lookup by lia. by rewrite (proj2 (Z.leb_gt 0 i)) by lia.
Qed.

Lemma contents_set_vacant c j next lm n h : 0 <= j -> (Z.to_nat j < length (slots c))%nat ->
  contents (mkColo (<[Z.to_nat j := Vacant next]> (slots c)) lm n h) = delete j (contents c).
Proof.
  intros Hj Hl. rewrite (contents_fields _ _ lm _ (len c) _ h). apply map_eq. intros i.
  rewrite contents_lookup. destruct (Z.leb_spec 0 i) as [Hi|Hi].
  - rewrite get_set by lia. destruct (decide (i = j)) as [->|Hne]; [by rewrite lookup_delete_eq|].
    rewrite lookup_delete_ne, contents_lookup by done. by rewrite (proj2 (Z.leb_le 0 i)).
  - rewrite lookup_delete_ne, contents_lookup by lia. by rewrite (proj2 (Z.leb_gt 0 i)) by lia.
Qed.

Lemma contents_push c x lm n h :
  contents (mkColo (slots c ++ [Occupied x]) lm n h) = <[Z.of_nat (length (slots c)) := x]> (contents c).
Proof.
  apply map_eq. intros i. rewrite contents_lookup. unfold get. cbn [slots].
  destruct (Z.leb_spec 0 i) as [Hi|Hi].
  - destruct (decide (i = Z.of_nat (length (slots c)))) as [->|Hne].
    + rewrite lookup_insert_eq, Nat2Z.id, list_lookup_middle by done. done.
    + rewrite lookup_insert_ne, contents_lookup by done. rewrite (proj2 (Z.leb_le 0 i)) by done. unfold get.
      destruct (Z.to_nat i <? length (slots c))%nat eqn:E.
      * apply Nat.ltb_lt in E. by rewrite lookup_app_l.
      * apply Nat.ltb_ge in E. rewrite lookup_app_r by done.
        rewrite (lookup_ge_None_2 (slots c)) by done.
        by rewrite (lookup_ge_None_2 [Occupied x]) by (cbn; lia).
  - rewrite lookup_insert_ne, contents_lookup by lia. by rewrite (proj2 (Z.leb_gt 0 i)) by lia.
Qed.

(** With the right count, [len] is the size of the map. *)
Lemma count_size (l : list (Slot T)) lm n h : occupied_count l = Z.of_nat (size (contents (mkColo l lm n h))).
Proof. unfold occupied_count, contents. by rewrite map_size_list_to_map by apply items_NoDup. Qed.

Lemma chain_vacant l h ch i : chain l h ch -> i ∈ ch -> vacant_at l i /\ i < NONE.
Proof.
  induction 1 as [|j next ch Hj Hl _ IH]; [by intros ?%elem_of_nil|].
  intros [->|?]%elem_of_cons; [|by apply IH]. split; [|lia]. split; [lia|by exists next].
Qed.

Lemma chain_set l h ch i s : chain l h ch -> 0 <= i -> i ∉ ch -> chain (<[Z.to_nat i := s]> l) h ch.
Proof.
  intros H Hi. induction H as [|j next ch Hj Hl _ IH]; [constructor|].
  rewrite not_elem_of_cons. intros [Hne Hn]. econstructor; [done| |by apply IH].
  rewrite list_lookup_insert_ne by lia. done.
Qed.

Lemma chain_app l k h ch : chain l h ch -> chain (l ++ k) h ch.
Proof.
  induction 1 as [|j next ch Hj Hl _ IH]; [constructor|]. econstructor; [done| |done].
  by apply lookup_app_l_Some.
Qed.

(** Without a vacant slot every slot counts. *)
Lemma no_vacant l : (forall i, ~ vacant_at l i) -> occupied_count l = Z.of_nat (length l).
Proof.
  unfold occupied_count. intros H. f_equal.
  assert (Hs : forall i, length (items i l) = length l); [|done].
  induction l as [|[next|x] l IH]; intros i; [done| |]; simpl.
  - exfalso. apply (H 0). split; [lia|by exists next].
  - f_equal. apply IH. intros j [Hj [next Hl]]. apply (H (j + 1)). split; [lia|].
    exists next. by replace (Z.to_nat (j + 1)) with (S (Z.to_nat j)) by lia.
Qed.

Lemma chain_head l h ch : chain l h ch -> (h = NONE /\ ch = []) \/
  exists next ch', ch = h :: ch' /\ 0 <= h < NONE /\ l !! Z.to_nat h = Some (Vacant next) /\ chain l next ch'.
Proof. inversion 1; subst; [by left|right]. eauto 10. Qed.

Lemma wf_new : wf (mkColo (T:=T) [] 0 0 NONE).
Proof.
  split; [|by split; [|unfold isize_MAX; cbn; lia]]. exists []. split_and!; [constructor|constructor|].
  by intros i [_ [? ?]].
Qed.

Lemma insert_ok x c : wf c -> (limited c = 0 \/ len c <> limited c) -> Z.of_nat (length (slots c)) < isize_MAX ->
  exists c', insert x c = Some (next_vacant c, c') /\ wf c' /\ limited c' = limited c /\
    contents c !! next_vacant c = None /\ contents c' = <[next_vacant c := x]> (contents c).
Proof.
  intros Hwf Hlim Hroom. pose proof Hwf as ((ch & Hc & Hnd & Hv) & Hlen & Hmax).
  unfold insert, next_vacant.
  replace (negb (limited c =? 0) && (len c =? limited c)) with false by lia.
  destruct (chain_head _ _ _ Hc) as [[Hh ->]|(next & ch' & -> & Hh & Hl & Hc')].
  - rewrite Hh, Z.eqb_refl, (proj2 (Z.ltb_lt _ _) Hroom).
    assert (Hno : occupied_count (slots c) = Z.of_nat (length (slots c))).
    { apply no_vacant. intros i Hi. by apply Hv, elem_of_nil in Hi. }
    replace (len c + 1 - 1) with (len c) by lia.
    assert (Hnone : contents c !! len c = None).
    { rewrite contents_lookup, Hlen, Hno, (proj2 (Z.leb_le _ _)) by lia. unfold get.
      by rewrite Nat2Z.id, lookup_ge_None_2 by lia. }
    eexists. split; [done|]. rewrite contents_push, <- Hno, <- Hlen. split_and!; [|done|done|done].
    split_and!.
    + exists []. rewrite Hh in Hc. split_and!; [by apply chain_app|constructor|].
      intros i [Hi [next Hl]]. cbn [slots] in Hl. exfalso.
      destruct (Z.to_nat i <? length (slots c))%nat eqn:E.
      * apply Nat.ltb_lt in E. rewrite lookup_app_l in Hl by done.
        by apply (not_elem_of_nil i), Hv; split; [|exists next].
      * apply Nat.ltb_ge in E. rewrite lookup_app_r in Hl by done.
        destruct (Z.to_nat i - length (slots c))%nat as [|[|?]]; done.
    + cbn [slots len]. rewrite (count_size _ 0 0 0), contents_push, map_size_insert_None
        by (by rewrite <- Hno, <- Hlen). rewrite (len_size c) by done. lia.
    + cbn [slots]. rewrite length_app. cbn. lia.
  - rewrite (proj2 (Z.eqb_neq _ _)) by lia. rewrite Hl. cbn [mbind option_bind].
    assert (Hlt : (Z.to_nat (head c) < length (slots c))%nat) by (by eapply lookup_lt_Some).
    assert (Hnone : contents c !! head c = None).
    { rewrite contents_lookup, (proj2 (Z.leb_le _ _)) by lia. unfold get. by rewrite Hl. }
    apply NoDup_cons in Hnd as [Hni Hnd].
    eexists. split; [done|]. rewrite contents_set_occupied by lia. split_and!; [|done|done|done].
    split_and!.
    + exists ch'. cbn [slots head]. split_and!; [apply chain_set; [done|lia|done]|done|].
      intros i [Hi [nx Hx]]. destruct (decide (i = head c)) as [->|Hne].
      { by rewrite list_lookup_insert_eq in Hx. }
      rewrite list_lookup_insert_ne in Hx by lia.
      assert (i ∈ head c :: ch') as [?|?]%elem_of_cons by (apply Hv; split; [done|by exists nx]); done.
    + cbn [slots len]. rewrite (count_size _ 0 0 0), contents_set_occupied, map_size_insert_None by (done || lia).
      rewrite (len_size c) by done. lia.
    + cbn [slots]. by rewrite length_insert.
Qed.

Lemma remove_ok i c : wf c -> 0 <= i ->
  exists c', remove i c = (contents c !! i, c') /\ wf c' /\ limited c' = limited c /\
    length (slots c') = length (slots c) /\ contents c' = delete i (contents c).
Proof.
  intros Hwf Hi. pose proof Hwf as ((ch & Hc & Hnd & Hv) & Hlen & Hmax).
  rewrite contents_lookup, (proj2 (Z.leb_le 0 i)) by done. unfold remove, get.
  assert (Hnone : get i c = None -> delete i (contents c) = contents c).
  { intros E. apply delete_id. by rewrite contents_lookup, (proj2 (Z.leb_le 0 i)). }
  unfold get in Hnone. destruct (slots c !! Z.to_nat i) as [[next|x]|] eqn:Hl;
    [rewrite Hnone by done; by eexists| |rewrite Hnone by done; by eexists].
  clear Hnone. assert (Hlt : (Z.to_nat i < length (slots c))%nat) by (by eapply lookup_lt_Some).
  assert (Hsome : contents c !! i = Some x).
  { rewrite contents_lookup, (proj2 (Z.leb_le 0 i)) by done. unfold get. by rewrite Hl. }
  eexists. split; [done|]. rewrite contents_set_vacant by done. cbn [slots limited]. rewrite length_insert.
  split_and!; [|done|done|done]. split_and!.
  - exists (i :: ch). cbn [slots head].
    assert (Hni : i ∉ ch).
    { intros Hin. destruct (chain_vacant _ _ _ _ Hc Hin) as [[_ [nx E]] _]. congruence. }
    split_and!; [|by apply NoDup_cons|].
    + econstructor; [unfold NONE, usize_MAX, isize_MAX in *; lia|by rewrite list_lookup_insert_eq|by apply chain_set].
    + intros j [Hj [nx E]]. destruct (decide (j = i)) as [->|Hne]; [apply elem_of_cons; by left|].
      rewrite list_lookup_insert_ne in E by lia. apply elem_of_cons. right. apply Hv. split; [done|by exists nx].
  - cbn [slots len]. rewrite (count_size _ 0 0 0), contents_set_vacant by done.
    rewrite (len_size c) by done. rewrite map_size_delete_Some by by eexists.
    assert (size (contents c) <> 0%nat) by (apply map_size_non_empty_iff; intros E; by rewrite E in Hsome). lia.
  - cbn [slots]. by rewrite length_insert.
Qed.

(** An object replaced by another. *)
Lemma wf_replace c i x y : wf c -> slots c !! i = Some (Occupied x) ->
  wf (mkColo (<[i := Occupied y]> (slots c)) (limited c) (len c) (head c)) /\
  contents (mkColo (<[i := Occupied y]> (slots c)) (limited c) (len c) (head c)) = <[Z.of_nat i := y]> (contents c).
Proof.
  intros Hwf Hl. pose proof Hwf as ((ch & Hc & Hnd & Hv) & Hlen & Hmax).
  pose proof (lookup_lt_Some _ _ _ Hl) as Hlt.
  assert (Hcont : contents (mkColo (<[i := Occupied y]> (slots c)) (limited c) (len c) (head c))
                  = <[Z.of_nat i := y]> (contents c)).
  { rewrite <- contents_set_occupied with (lm := limited c) (n := len c) (h := head c) by lia.
    by rewrite Nat2Z.id. }
  split; [|done]. split_and!.
  - exists ch. cbn [slots head]. split_and!; [|done|].
    + rewrite <- (Nat2Z.id i). apply chain_set; [done|lia|]. intros Hin.
      destruct (chain_vacant _ _ _ _ Hc Hin) as [[_ [nx E]] _]. rewrite Nat2Z.id in E. congruence.
    + intros j [Hj [nx E]]. apply Hv. split; [done|]. destruct (decide (Z.to_nat j = i)) as [<-|Hne].
      * by rewrite list_lookup_insert_eq in E.
      * rewrite list_lookup_insert_ne in E by done. by exists nx.
  - cbn [len slots]. rewrite (count_size _ (limited c) (len c) (head c)), Hcont, (len_size c) by done.
    rewrite map_size_insert_Some; [done|]. exists x.
    rewrite contents_lookup, (proj2 (Z.leb_le 0 _)) by lia. unfold get. by rewrite Nat2Z.id, Hl.
  - cbn [slots]. by rewrite length_insert.
Qed.

Lemma lookup_occupied c i v : 0 <= i -> contents c !! i = Some v <-> slots c !! Z.to_nat i = Some (Occupied v).
Proof.
  intros Hi. rewrite contents_lookup, (proj2 (Z.leb_le 0 i)) by done. unfold get.
  destruct (slots c !! Z.to_nat i) as [[]|]; naive_solver.
Qed.

Lemma lookup_not_occupied c i : 0 <= i -> contents c !! i = None ->
  slots c !! Z.to_nat i = None \/ exists next, slots c !! Z.to_nat i = Some (Vacant next).
Proof.
  intros Hi. rewrite contents_lookup, (proj2 (Z.leb_le 0 i)) by done. unfold get.
  destruct (slots c !! Z.to_nat i) as [[]|]; naive_solver.
Qed.

(** [retain] as a loop over the items and the map. *)
Fixpoint retain_map {C} (f : C -> Z -> T -> bool * T * C) (st : C) (l : list (Z * T)) (m : gmap Z T) : C * gmap Z T :=
  match l with
  | [] => (st, m)
  | (i, v) :: l =>
      let '(keep, v, st) := f st i v in
      retain_map f st l (if keep then <[i := v]> m else delete i m)
  end.

Lemma retain_from_ok {C} (f : C -> Z -> T -> bool * T * C) n i st c :
  wf c -> 0 <= i -> length (slots c) = (Z.to_nat i + n)%nat ->
  let '(st', c') := retain_from f n i st c in
  wf c' /\ limited c' = limited c /\
  (st', contents c') = retain_map f st (items i (drop (Z.to_nat i) (slots c))) (contents c).
Proof.
  revert i st c. induction n as [|n IH]; intros i st c Hwf Hi Hl; cbn [retain_from].
  { rewrite drop_ge by lia. done. }
  destruct (slots c !! Z.to_nat i) as [s|] eqn:Es; [|apply lookup_ge_None in Es; lia].
  rewrite (drop_S _ _ _ Es). replace (S (Z.to_nat i)) with (Z.to_nat (i + 1)) by lia.
  destruct s as [next|v]; cbn [items].
  { apply IH; [done|lia|lia]. }
  cbn [retain_map]. destruct (f st i v) as [[keep v'] st1].
  destruct (wf_replace c (Z.to_nat i) v v' Hwf Es) as [Hwf1 Hc1]. rewrite Z2Nat.id in Hc1 by done.
  set (c1 := mkColo _ _ _ _) in *.
  assert (Hs1 : drop (Z.to_nat (i + 1)) (slots c1) = drop (Z.to_nat (i + 1)) (slots c)).
  { unfold c1. cbn [slots]. rewrite drop_insert_lt by lia. done. }
  assert (Hl1 : length (slots c1) = length (slots c)) by (unfold c1; cbn [slots]; by rewrite length_insert).
  destruct keep.
  - specialize (IH (i + 1) st1 c1 Hwf1 ltac:(lia) ltac:(lia)).
    destruct (retain_from f n (i + 1) st1 c1) as [st' c']. rewrite Hs1, Hc1 in IH. done.
  - destruct (remove_ok i c1 Hwf1 Hi) as (c2 & E & Hwf2 & Hlim2 & Hl2 & Hc2). rewrite E. cbn [snd].
    assert (Hs2 : drop (Z.to_nat (i + 1)) (slots c2) = drop (Z.to_nat (i + 1)) (slots c)).
    { unfold remove in E. destruct (slots c1 !! Z.to_nat i) as [[|]|]; injection E as _ <-; try done.
      cbn [slots]. by rewrite drop_insert_lt by lia. }
    specialize (IH (i + 1) st1 c2 Hwf2 ltac:(lia) ltac:(lia)).
    destruct (retain_from f n (i + 1) st1 c2) as [st' c'].
    rewrite Hs2, Hc2, Hc1, delete_insert_eq, Hlim2 in IH.
    done.
Qed.

Lemma swap_ok a b c va vb : wf c -> 0 <= a -> 0 <= b ->
  contents c !! a = Some va -> contents c !! b = Some vb ->
  exists c', swap a b c = Some c' /\ wf c' /\ contents c' = <[a := vb]> (<[b := va]> (contents c)).
Proof.
  intros Hwf Ha Hb Hva Hvb. apply lookup_occupied in Hva, Hvb; [|done..].
  unfold swap. rewrite Hva, Hvb. cbn.
  destruct (Z.eqb_spec a b) as [->|Hab].
  { exists c. split_and!; [done|done|]. apply lookup_occupied in Hva, Hvb; [|done..].
    rewrite insert_insert_eq. symmetry. by apply insert_id. }
  destruct (wf_replace c (Z.to_nat b) vb va Hwf Hvb) as [Hwf1 Hc1]. rewrite Z2Nat.id in Hc1 by done.
  set (c1 := mkColo (<[Z.to_nat b := Occupied va]> _) _ _ _) in *.
  assert (exists x, slots c1 !! Z.to_nat a = Some (Occupied x)) as [x Hx].
  { unfold c1. cbn [slots]. destruct (decide (Z.to_nat a = Z.to_nat b)) as [->|Hne].
    - rewrite list_lookup_insert_eq by (by eapply lookup_lt_Some). by eexists.
    - rewrite list_lookup_insert_ne by done. by eexists. }
  destruct (wf_replace c1 (Z.to_nat a) x vb Hwf1 Hx) as [Hwf2 Hc2]. rewrite Z2Nat.id, Hc1 in Hc2 by done.
  eexists. split; [done|]. by split.
Qed.

Lemma swap_panics a b c : 0 <= a -> 0 <= b -> contents c !! a = None \/ contents c !! b = None -> swap a b c = None.
Proof.
  intros Ha Hb [H|H]; apply lookup_not_occupied in H; try done; unfold swap.
  - by destruct H as [-> | [nx ->]].
  - destruct (slots c !! Z.to_nat a) as [[]|]; [done| |done]. cbn.
    by destruct H as [-> | [nx ->]].
Qed.

Lemma insert_all_ok l : forall c, wf c -> limited c = 0 -> head c = NONE ->
  Z.of_nat (length (slots c) + length l) <= isize_MAX ->
  exists c', insert_all l c = Some c' /\ wf c' /\ slots c' = slots c ++ (Occupied <$> l).
Proof.
  induction l as [|x l IH]; intros c Hwf Hlim Hh Hmax.
  { exists c. by rewrite app_nil_r. }
  cbn [length] in Hmax.
  destruct (insert_ok x c Hwf) as (c1 & E & Hwf1 & Hlim1 & _ & _); [by left|lia|].
  assert (Hs : slots c1 = slots c ++ [Occupied x] /\ head c1 = NONE).
  { unfold insert in E. rewrite Hlim, Hh in E. cbn in E. destruct (_ <? _); [|done]. by injection E as _ <-. }
  destruct Hs as [Hs Hh1]. cbn [insert_all]. rewrite E. cbn [mbind option_bind].
  destruct (IH c1 Hwf1) as (c' & E' & Hwf' & Hs'); [by rewrite Hlim1|done|rewrite Hs, length_app; cbn; lia|].
  exists c'. split_and!; [done|done|]. by rewrite Hs', Hs, fmap_cons, <- app_assoc.
Qed.

Lemma items_iter i l :
  items i l = match iter_next i l with None => [] | Some (x, (i', l')) => x :: items i' l' end.
Proof. revert i. induction l as [|[next|x] l IH]; intros i; [done| |done]. simpl. apply IH. Qed.
End colo.

(** * Properties *)

(** C35: [Colo] is a finite map.  In every well-formed slab, [insert] stores the
    object under the key that [next_vacant] announced, which was free, unless
    the slab is at its limit: then nothing is stored and the key is 0;
    [remove] takes the object under a key out and says whether there was one;
    [get] and [index] look it up; [get_mut], [swap], [retain] and [clear]
    change the map as they should, [retain] asking about every object once,
    in order; the iterators yield each object once, by ascending key;
    [from_iter] numbers its items from 0; and all of them keep the slab well
    formed: the vacant slots are linked without a cycle, and [len] is the
    number of objects. *)
Theorem colo_refines_map T (c : Colo T) (Hwf : wf c) :
  (forall x, limited c <> 0 -> len c = limited c -> insert x c = Some (0, c)) /\
  (forall x, limited c = 0 \/ len c <> limited c -> Z.of_nat (length (slots c)) < isize_MAX ->
     exists c', insert x c = Some (next_vacant c, c') /\ wf c' /\ limited c' = limited c /\
       contents c !! next_vacant c = None /\ contents c' = <[next_vacant c := x]> (contents c)) /\
  (forall i, 0 <= i -> exists c', remove i c = (contents c !! i, c') /\ wf c' /\ limited c' = limited c /\
     length (slots c') = length (slots c) /\ contents c' = delete i (contents c)) /\
  (forall i, 0 <= i -> get i c = contents c !! i) /\
  (forall i f, 0 <= i -> match contents c !! i with
     | Some v => exists c', get_mut i f c = Some c' /\ wf c' /\ contents c' = <[i := f v]> (contents c)
     | None => get_mut i f c = None
     end) /\
  (forall a b, 0 <= a -> 0 <= b -> match contents c !! a, contents c !! b with
     | Some va, Some vb => exists c', swap a b c = Some c' /\ wf c' /\
         contents c' = <[a := vb]> (<[b := va]> (contents c))
     | _, _ => swap a b c = None
     end) /\
  (forall C (f : C -> Z -> T -> bool * T * C) st, let '(st', c') := retain f st c in
     wf c' /\ limited c' = limited c /\ (st', contents c') = retain_map f st (items 0 (slots c)) (contents c)) /\
  (wf (clear c) /\ contents (clear c) = ∅ /\ wf (new (T:=T)) /\ contents (new (T:=T)) = ∅) /\
  (len c = Z.of_nat (size (contents c)) /\ (is_empty c = true <-> contents c = ∅)) /\
  (items 0 (slots c) ≡ₚ map_to_list (contents c) /\
   forall i (l : list (Slot T)), items i l = match iter_next i l with None => [] | Some (x, (i', l')) => x :: items i' l' end) /\
  (forall l : list T, Z.of_nat (length l) <= isize_MAX ->
     exists c', from_iter l = Some c' /\ wf c' /\ forall i, 0 <= i -> contents c' !! i = l !! Z.to_nat i).
Proof.
  split_and!.
  - intros x Hl He. unfold insert. rewrite He, Z.eqb_refl, (proj2 (Z.eqb_neq _ _) Hl). done.
  - intros x. by apply insert_ok.
  - intros i. by apply remove_ok.
  - intros i Hi. by rewrite contents_lookup, (proj2 (Z.leb_le 0 i)).
  - intros i f Hi. unfold get_mut. destruct (contents c !! i) as [v|] eqn:E.
    + apply lookup_occupied in E; [|done]. rewrite E. eexists. split; [done|].
      destruct (wf_replace c (Z.to_nat i) v (f v) Hwf E) as [? Hc]. by rewrite Z2Nat.id in Hc.
    + apply lookup_not_occupied in E; [|done]. by destruct E as [-> | [nx ->]].
  - intros a b Ha Hb. destruct (contents c !! a) as [va|] eqn:Ea; [|by apply swap_panics; [..|left]].
    destruct (contents c !! b) as [vb|] eqn:Eb; [|by apply swap_panics; [..|right]]. by apply swap_ok.
  - intros C f st. pose proof (retain_from_ok f (length (slots c)) 0 st c Hwf ltac:(lia) ltac:(lia)) as H.
    unfold retain. destruct (retain_from _ _ _ _ _). by rewrite drop_0 in H.
  - apply wf_new.
  - done.
  - apply wf_new.
  - done.
  - by apply len_size.
  - unfold is_empty. rewrite (len_size c Hwf), Z.eqb_eq, <- map_size_empty_iff. lia.
  - symmetry. apply map_to_list_to_map, items_NoDup.
  - apply items_iter.
  - intros l Hl. destruct (insert_all_ok l (with_capacity (Z.of_nat (length l))) wf_new eq_refl eq_refl)
      as (c' & E & Hwf' & Hs); [done|]. exists c'. split_and!; [done|done|]. intros i Hi.
    rewrite contents_lookup, (proj2 (Z.leb_le 0 i)) by done. unfold get. rewrite Hs. cbn.
    rewrite list_lookup_fmap. by destruct (l !! Z.to_nat i).
Qed.

(** ** A concrete slab: two objects, the first removed. *)
Lemma colo_refines_map_witness :
  exists c, wf c /\ contents c !! 0 = None /\ exists c', insert 30 c = Some (0, c') /\ wf c' /\
    contents c' = <[0 := 30]> (contents c).
Proof.
  set (c := mkColo [Vacant NONE; Occupied 20] 0 1 0).
  assert (Hwf : wf c).
  { split_and!; [|done|done]. exists [0]. split_and!.
    - econstructor; [done|reflexivity|constructor].
    - apply NoDup_singleton.
    - intros i [Hi [nx E]]. destruct (Z.to_nat i) as [|[|?]] eqn:Ei; [|done|done].
      apply list_elem_of_singleton. lia. }
  exists c. split_and!; [exact Hwf|reflexivity|].
  destruct (colo_refines_map Z c Hwf) as (_ & Hi & _).
  destruct (Hi 30 (or_introl eq_refl) eq_refl) as (c' & E & Hw & _ & _ & Hc).
  exists c'. split_and!; [exact E|exact Hw|exact Hc].
Defined.
