(* ===== verification/QueueSpec.v ===== *)
(** What a concurrent queue promises, and how a queue is shown to keep it.

    The abstract queue is a list of items and a flag; its history is the list
    of the operations that changed it.  An implementation carries the history
    as an auxiliary variable: the atomic action in which an operation takes
    effect appends its entry.  Every operation returns, besides its result,
    the history when it was invoked and the history that explains the result;
    [explains] says what the result must be there.  [linearizable] is the
    promise: the history is one of a sequential queue, every result is
    explained between invocation and return, and every change belongs to
    exactly one operation.

    The second half is the part of the invariant and of the proofs that does
    not depend on the implementation. *)

From S2P Require Import Prelude Conc.

Section spec.
Context {T : Type} `{Countable T}.

Inductive entry :=
| EPush (v : T)
| EPop (v : T)
| EClose.

#[export] Instance entry_eq_dec : EqDecision entry.
Proof. solve_decision. Defined.

#[export] Instance entry_countable : Countable entry.
Proof.
  refine (inj_countable'
    (fun e => match e with EPush v => inl v | EPop v => inr (inl v) | EClose => inr (inr tt) end)
    (fun x => match x with inl v => EPush v | inr (inl v) => EPop v | inr (inr _) => EClose end) _).
  by intros [].
Defined.

Record aqueue := mkAq { items : list T; closed : bool }.

(** The capacity; [None] is unbounded. *)
Definition full (cap : option Z) (q : aqueue) : bool :=
  match cap with Some c => c <=? Z.of_nat (length (items q)) | None => false end.

Definition astep (cap : option Z) (q : aqueue) (e : entry) : option aqueue :=
  match e with
  | EPush v => if closed q || full cap q then None else Some (mkAq (items q ++ [v]) false)
  | EPop v =>
      match items q with
      | x :: l => if decide (x = v) then Some (mkAq l (closed q)) else None
      | [] => None
      end
  | EClose => if closed q then None else Some (mkAq (items q) true)
  end.

Fixpoint replay (cap : option Z) (q : aqueue) (l : list entry) : option aqueue :=
  match l with
  | [] => Some q
  | e :: l => q ← astep cap q e; replay cap q l
  end.

(** The queue after a history. *)
Definition state_at (cap : option Z) (l : list entry) : option aqueue := replay cap (mkAq [] false) l.

(** ** Operations and results *)

Inductive PopError := Empty | PopClosed.
Inductive PushError := Full (v : T) | PushClosed (v : T).

Inductive op :=
| OPush (v : T) | OPop | OLen | OIsEmpty | OIsFull | OCapacity | OClose | OIsClosed.

Inductive res :=
| RPush (r : result unit PushError) | RPop (r : result T PopError)
| RNum (n : Z) | RBool (b : bool) | RCap (c : option Z).

(** [r] is what a queue answers to [op] after the history [l]; an answer that
    changed the queue is the last entry of [l].  [lax] is a weaker condition
    under which a push may say that the queue is full, or [is_empty] that it
    is not. *)
Definition explains (cap : option Z) (lax : op -> list entry -> bool) (o : op) (r : res) (l : list entry) : bool :=
  match state_at cap l with
  | None => false
  | Some q =>
      match o, r with
      | OPush v, RPush (Ok _) => bool_decide (last l = Some (EPush v))
      | OPush v, RPush (Err (Full w)) => bool_decide (w = v) && (full cap q || lax o l) && negb (closed q)
      | OPush v, RPush (Err (PushClosed w)) => bool_decide (w = v) && closed q
      | OPop, RPop (Ok v) => bool_decide (last l = Some (EPop v))
      | OPop, RPop (Err Empty) => bool_decide (items q = []) && negb (closed q)
      | OPop, RPop (Err PopClosed) => bool_decide (items q = []) && closed q
      | OLen, RNum n => n =? Z.of_nat (length (items q))
      | OIsEmpty, RBool b => eqb b (bool_decide (items q = [])) || (negb b && lax o l)
      | OIsFull, RBool b => eqb b (full cap q)
      | OCapacity, RCap c => bool_decide (c = cap)
      | OClose, RBool true => bool_decide (last l = Some EClose)
      | OClose, RBool false => closed q
      | OIsClosed, RBool b => eqb b (closed q)
      | _, _ => false
      end
  end.

(** The shortest history between [l1] and [l2] that explains the answer, for
    the operations whose two loads see different states. *)
Definition settle (cap : option Z) (lax : op -> list entry -> bool) (o : op) (r : res) (l1 l2 : list entry) : list entry :=
  let hs := (fun k => take k l2) <$> seq (length l1) (length l2 + 1 - length l1) in
  default l2 (List.head (filter (fun l => explains cap lax o r l = true) hs)).

(** The answers that are entries of the history. *)
Definition changes (r : res) (o : op) : bool :=
  match o, r with
  | OPush _, RPush (Ok _) | OPop, RPop (Ok _) | OClose, RBool true => true
  | _, _ => false
  end.

(** An operation that has returned. *)
Record call := mkCall { the_op : op; answer : res; invoked : list entry; explained : list entry }.

Definition effect (c : call) : option nat :=
  if changes (answer c) (the_op c) then Some (length (explained c)) else None.

(** What a thread owns: how many pushes it may still begin, and its calls so
    far, the last first. *)
Record client := mkClient { budget : nat; calls : list call }.

Definition qstart (c : client) (o : op) : option client :=
  match o with
  | OPush _ => match budget c with O => None | S b => Some (mkClient b (calls c)) end
  | _ => Some c
  end.
Definition qfinish (c : client) (o : op) (r : res * list entry * list entry) : client :=
  let '(r, from, at_) := r in mkClient (budget c) (mkCall o r from at_ :: calls c).

Definition qpool {Σ} (σ : Σ) (budgets : list nat) : config Σ op (res * list entry * list entry) client :=
  Config σ ((fun b => Thread (mkClient b []) None) <$> budgets).

Definition all_calls {Σ R} (c : config Σ op R client) : list call := threads c ≫= (fun t => calls (owns t)).

(** The call is explained by a history that had not ended when it began. *)
Definition call_ok (cap : option Z) (lax : op -> list entry -> bool) (x : call) : bool :=
  bool_decide (invoked x `prefix_of` explained x) && explains cap lax (the_op x) (answer x) (explained x).

Definition linearizable {Σ} (cap : option Z) (lax : op -> list entry -> bool)
    (code : op -> prog Σ (res * list entry * list entry)) (hist : Σ -> list entry)
    (σ : Σ) (budgets : list nat) : Prop :=
  forall c, reachable code qstart qfinish (qpool σ budgets) c ->
  existsb thread_aborted (threads c) = false ->
  existsb thread_crashed (threads c) = false /\
  (exists q, state_at cap (hist (shared c)) = Some q) /\
  (forall x, x ∈ all_calls c -> call_ok cap lax x = true /\ explained x `prefix_of` hist (shared c)) /\
  NoDup (omap effect (all_calls c)) /\
  (Forall (fun t => running t = None) (threads c) ->
   length (omap effect (all_calls c)) = length (hist (shared c))).
End spec.
Arguments entry T : clear implicits.
Arguments op T : clear implicits.
Arguments res T : clear implicits.
Arguments aqueue T : clear implicits.
Arguments call T : clear implicits.
Arguments client T : clear implicits.

(** * Tokens

    [Lb l]: the history has begun with [l]; [Did k]: the [k]-th entry is the
    caller's; [Budget]: a push that may begin; [Bad]: a call without an
    explanation, which never exists; [Tk]: what an implementation needs. *)

Inductive qtok (T : Type) :=
| Lb (l : list (entry T)) | Did (k : nat) | Budget | Bad | Tk (kind : nat) (a b : Z).
Arguments Lb {T} l.
Arguments Did {T} k.
Arguments Budget {T}.
Arguments Bad {T}.
Arguments Tk {T} kind a b.

#[export] Instance qtok_eq_dec {T} `{EqDecision T} : EqDecision (qtok T).
Proof. solve_decision. Defined.

#[export] Instance qtok_countable {T} `{Countable T} : Countable (qtok T).
Proof.
  refine (inj_countable'
    (fun t => match t with
              | Lb l => inl l | Did k => inr (inl k) | Budget => inr (inr (inl true))
              | Bad => inr (inr (inl false)) | Tk n a b => inr (inr (inr (n, a, b)))
              end)
    (fun x => match x with
              | inl l => Lb l | inr (inl k) => Did k | inr (inr (inl true)) => Budget
              | inr (inr (inl false)) => Bad | inr (inr (inr (n, a, b))) => Tk n a b
              end) _).
  by intros [].
Defined.

Section histories.
Context {T : Type} `{Countable T} (cap : option Z).

Lemma replay_app l1 l2 q : replay (T:=T) cap q (l1 ++ l2) = q' ← replay cap q l1; replay cap q' l2.
Proof.
  revert q. induction l1 as [|e l1 IH]; intros q; simpl; [done|]. by destruct (astep cap q e); simpl.
Qed.

Lemma state_at_snoc l (e : entry T) : state_at cap (l ++ [e]) = q ← state_at cap l; astep cap q e.
Proof.
  unfold state_at. rewrite replay_app. destruct (replay _ _ l) as [q|]; simpl; [|done].
  by destruct (astep cap q e).
Qed.

(** ** What a history says: the items ever pushed, how many were popped,
    and whether the queue was closed. *)

Definition pushed (l : list (entry T)) : list T :=
  omap (fun e => match e with EPush v => Some v | _ => None end) l.
Definition popped (l : list (entry T)) : nat :=
  length (omap (fun e => match e with EPop v => Some v | _ => None end) l).
Definition closed_in (l : list (entry T)) : bool :=
  existsb (fun e => match e with EClose => true | _ => false end) l.

Lemma pushed_app l l' : pushed (l ++ l') = pushed l ++ pushed l'.
Proof. apply omap_app. Qed.
Lemma popped_app l l' : popped (l ++ l') = (popped l + popped l')%nat.
Proof. unfold popped. by rewrite omap_app, length_app. Qed.
Lemma closed_app l l' : closed_in (l ++ l') = closed_in l || closed_in l'.
Proof. apply existsb_app. Qed.

Lemma pushed_lookup l l' n v : l `prefix_of` l' -> pushed l !! n = Some v -> pushed l' !! n = Some v.
Proof. intros [s ->]. rewrite pushed_app. apply lookup_app_l_Some. Qed.
Lemma pushed_mono l l' : l `prefix_of` l' -> (length (pushed l) <= length (pushed l'))%nat.
Proof. intros [s ->]. rewrite pushed_app, length_app. lia. Qed.
Lemma popped_mono l l' : l `prefix_of` l' -> (popped l <= popped l')%nat.
Proof. intros [s ->]. rewrite popped_app. lia. Qed.

Lemma state_at_counts l q : state_at cap l = Some q ->
  items q = drop (popped l) (pushed l) /\ (popped l <= length (pushed l))%nat /\ closed q = closed_in l /\
  match cap with Some c => 0 <= c -> Z.of_nat (length (items q)) <= c | None => True end.
Proof.
  revert q. induction l as [|e l IH] using rev_ind; intros q.
  { intros [= <-]. split_and!; [done|done|done|]. by destruct cap. }
  rewrite state_at_snoc, pushed_app, popped_app, closed_app.
  destruct (state_at cap l) as [q0|]; [|done]. destruct (IH q0 eq_refl) as (Hi & Hle & Hc & Hcap). cbn.
  destruct e as [v|v|]; cbn.
  - destruct (closed q0) eqn:Ec; [done|]. destruct (full cap q0) eqn:Ef; [done|]. intros [= <-]. cbn.
    rewrite Nat.add_0_r, drop_app_le, Hi, length_app by lia. split_and!; [done|cbn; lia|by rewrite <- Hc|].
    destruct cap as [c|]; [|done]. intros Hc0. unfold full in Ef. rewrite Hi in Ef.
    rewrite length_app. cbn. lia.
  - destruct (items q0) as [|x xs] eqn:Ei; [done|]. case_decide; [|done]. intros [= <-]. cbn.
    assert (Hlt : (popped l < length (pushed l))%nat).
    { apply (f_equal length) in Hi. rewrite length_drop in Hi. cbn in Hi. lia. }
    rewrite app_nil_r. split_and!; [|change (popped [EPop v]) with 1%nat; lia|by rewrite orb_false_r|].
    + change (popped [EPop v]) with 1%nat. rewrite <- drop_drop. by rewrite <- Hi.
    + destruct cap as [c|]; [|done]. intros Hc0. specialize (Hcap Hc0). cbn in Hcap. lia.
  - destruct (closed q0) eqn:Ec; [done|]. intros [= <-]. cbn. rewrite app_nil_r, Nat.add_0_r, orb_true_r. by split_and!.
Qed.

Lemma state_at_prefix (l l' : list (entry T)) q : l `prefix_of` l' -> state_at cap l' = Some q -> exists q0, state_at cap l = Some q0.
Proof. intros [s ->]. unfold state_at. rewrite replay_app. destruct (replay _ _ l) as [q0|]; [by exists q0|done]. Qed.

(** What can be taken out next, and the history after it was. *)
Definition front (l : list (entry T)) : option T := q ← state_at cap l; head (items q).
Definition log_pop (l : list (entry T)) : list (entry T) :=
  match front l with Some v => l ++ [EPop v] | None => l end.

(** What the invariant of every queue says of the history. *)
Definition hist_inv (l : list (entry T)) (m : gmultiset (qtok T)) : Prop :=
  (exists q, state_at cap l = Some q) /\
  multiplicity Bad m = 0%nat /\
  (forall l', Lb l' ∈ m -> l' `prefix_of` l) /\
  (forall k, multiplicity (Did k) m = if decide (1 <= k <= length l)%nat then 1%nat else 0%nat).

(** A thread that exchanges its tokens [L] for [L'] while the history goes
    from [l] to [l']. *)
Lemma hist_inv_step l l' (L L' : list (qtok T)) fr :
  hist_inv l (list_to_set_disj L ⊎ fr) ->
  l `prefix_of` l' -> (exists q, state_at cap l' = Some q) ->
  occ Bad L' = occ Bad L ->
  (forall x, Lb x ∈ L' -> Lb x ∈ L \/ x `prefix_of` l') ->
  (forall k, occ (Did k) L' = (occ (Did k) L + if decide (length l < k <= length l')%nat then 1 else 0)%nat) ->
  hist_inv l' (list_to_set_disj L' ⊎ fr).
Proof.
  intros (_ & Hb & Hl & Hd) Hp Hq Hb' Hl' Hd'. split_and!; [done| | |].
  - rewrite multiplicity_disj_union, multiplicity_list in *. lia.
  - intros x [Hx|Hx]%gmultiset_elem_of_disj_union.
    + apply elem_of_list_to_set_disj, Hl' in Hx as [Hx|?]; [|done]. etrans; [apply Hl|done].
      apply gmultiset_elem_of_disj_union. left. by apply elem_of_list_to_set_disj.
    + etrans; [apply Hl|done]. apply gmultiset_elem_of_disj_union. by right.
  - intros k. specialize (Hd k). rewrite multiplicity_disj_union, multiplicity_list in *. rewrite Hd'.
    apply prefix_length in Hp. repeat case_decide; lia.
Qed.

Lemma hist_inv_init n : hist_inv [] (list_to_set_disj (replicate n Budget)).
Proof.
  split_and!; [by eexists| | |].
  - by rewrite multiplicity_list, occ_replicate_ne.
  - intros l Hl. apply elem_of_list_to_set_disj, elem_of_replicate in Hl. naive_solver.
  - intros k. by rewrite multiplicity_list, occ_replicate_ne, decide_False by (done || (cbn; lia)).
Qed.

Lemma hist_inv_lb l (L : list (qtok T)) fr x :
  hist_inv l (list_to_set_disj L ⊎ fr) -> Lb x ∈ L -> x `prefix_of` l.
Proof.
  intros (_ & _ & Hl & _) Hx. apply Hl, gmultiset_elem_of_disj_union. left. by apply elem_of_list_to_set_disj.
Qed.
(** [settle] finds an explanation where there is one. *)
Lemma settle_ok lax o (r : res T) l1 l2 :
  (exists l, l1 `prefix_of` l /\ l `prefix_of` l2 /\ explains cap lax o r l = true) ->
  l1 `prefix_of` settle cap lax o r l1 l2 /\ settle cap lax o r l1 l2 `prefix_of` l2 /\
  explains cap lax o r (settle cap lax o r l1 l2) = true.
Proof.
  intros (l & H1 & H2 & He). unfold settle.
  set (hs := filter _ _).
  assert (Hin : forall x, x ∈ hs <-> (explains cap lax o r x = true /\
    exists n, x = take n l2 /\ (length l1 <= n < length l2 + 1)%nat)).
  { intros x. unfold hs. rewrite list_elem_of_filter, list_elem_of_fmap. f_equiv. split.
    - intros (n & -> & Hn%elem_of_seq). exists n. apply prefix_length in H1, H2. split; [done|lia].
    - intros (n & -> & Hn). exists n. split; [done|]. apply elem_of_seq. lia. }
  destruct (List.head hs) as [x|] eqn:Eh.
  - assert (Hx : x ∈ hs) by (destruct hs; [done|]; injection Eh as ->; by left).
    apply Hin in Hx as (He' & n & -> & Hn). cbn. split_and!; [|by apply prefix_take|done].
    destruct H1 as [s ->], H2 as [s2 ->]. rewrite <- app_assoc, take_app_ge by lia. by eexists.
  - exfalso. assert (l ∈ hs) as Hl; [|by destruct hs; [apply elem_of_nil in Hl|]].
    apply Hin. split; [done|]. exists (length l). apply prefix_length in H1 as Hn1. apply prefix_length in H2 as Hn2.
    split; [|lia]. destruct H2 as [s ->]. by rewrite take_app_length.
Qed.

(** An empty queue that has an item later had one in between. *)
Lemma becomes_nonempty s : forall l q1 q2,
  state_at cap l = Some q1 -> items q1 = [] -> state_at cap (l ++ s) = Some q2 ->
  (popped l < length (pushed (l ++ s)))%nat ->
  exists l' q', l `prefix_of` l' /\ l' `prefix_of` l ++ s /\ state_at cap l' = Some q' /\ items q' <> [].
Proof.
  induction s as [|e s IH]; intros l q1 q2 Hq1 Hi Hq2 Hlt.
  { apply state_at_counts in Hq1 as (Hi' & _). rewrite Hi in Hi'. apply (f_equal length) in Hi'.
    rewrite app_nil_r, length_drop in *. cbn in Hi'. lia. }
  assert (Hpre : l ++ [e] `prefix_of` l ++ e :: s) by (exists s; by rewrite <- app_assoc).
  destruct (state_at_prefix _ _ _ Hpre Hq2) as [q' Hq']. pose proof Hq' as Hs.
  rewrite state_at_snoc, Hq1 in Hs. destruct e as [v|v|]; cbn [mbind option_bind astep] in Hs.
  - exists (l ++ [EPush v]), q'. split_and!; [by apply prefix_app_r|done|done|].
    destruct (closed q1 || full cap q1); [done|]. injection Hs as <-. cbn. by destruct (items q1).
  - by rewrite Hi in Hs.
  - destruct (closed q1); [done|]. injection Hs as <-.
    replace (l ++ EClose :: s) with ((l ++ [EClose]) ++ s) in * by by rewrite <- app_assoc.
    destruct (IH _ _ _ Hq' Hi Hq2) as (l' & q'' & ? & ? & ? & ?).
    { rewrite popped_app. change (popped [EClose]) with 0%nat. lia. }
    exists l', q''. split_and!; try done. etrans; [|eassumption]. by apply prefix_app_r.
Qed.

End histories.

(** The side conditions of [hist_inv_step] for lists that are written out. *)
Ltac hist_side :=
  match goal with
  | |- occ Bad _ = occ Bad _ => by cbn
  | |- forall x, Lb x ∈ _ -> _ =>
      let Hx := fresh in
      intros ? Hx; repeat first
        [ apply elem_of_cons in Hx as [Hx|Hx]; [simplify_eq; first [right; done|right; by eapply prefix_app_r|left; set_solver_lite]|]
        | by apply elem_of_nil in Hx ]
  | |- forall k, occ (Did k) _ = _ => intros ?; cbn [occ]; rewrite ?length_app; cbn [length]; repeat case_decide; simplify_eq;
      repeat match goal with H : Did ?a <> Did ?b |- _ => assert (a <> b) by congruence; clear H end; lia
  end
with set_solver_lite := repeat (apply elem_of_cons; first [by left|right]).

(** That an answer is explained, given the queue [Hq] at that point. *)
Ltac explain Hq := unfold explains; rewrite Hq; cbn;
  repeat first [rewrite bool_decide_eq_true_2 by done|rewrite bool_decide_eq_false_2 by done]; try done.

Section proof.
Context {T : Type} `{Countable T} (cap : option Z) (lax : op T -> list (entry T) -> bool).

Definition call_tokens (x : call T) : list (qtok T) :=
  Lb (explained x) ::
  match effect x with Some k => [Did k] | None => [] end ++
  (if call_ok cap lax x then [] else [Bad]).

Definition qtokens (c : client T) : gmultiset (qtok T) :=
  list_to_set_disj (replicate (budget c) Budget ++ (calls c ≫= call_tokens)).

Definition start_tokens (o : op T) : gmultiset (qtok T) :=
  list_to_set_disj match o with OPush _ => [Budget] | _ => [] end.

(** The tokens of an answer that is explained. *)
Lemma explained_at (l from : list (entry T)) o r :
  from `prefix_of` l -> explains cap lax o r l = true -> changes r o = false ->
  call_tokens (mkCall o r from l) = [Lb l].
Proof.
  intros Hp He Hc. unfold call_tokens, effect, call_ok. cbn. rewrite Hc, He, bool_decide_eq_true_2 by done. done.
Qed.

Lemma explained_change (l from : list (entry T)) (e : entry T) o r :
  from `prefix_of` l -> explains cap lax o r (l ++ [e]) = true -> changes r o = true ->
  call_tokens (mkCall o r from (l ++ [e])) = [Lb (l ++ [e]); Did (S (length l))].
Proof.
  intros Hp He Hc. unfold call_tokens, effect, call_ok. cbn. rewrite Hc, He, length_app. cbn.
  rewrite bool_decide_eq_true_2 by by apply prefix_app_r. by rewrite Nat.add_1_r.
Qed.

Definition done_tokens (o : op T) (m : gmultiset (qtok T)) (r : res T * list (entry T) * list (entry T)) : Prop :=
  m = list_to_set_disj (call_tokens (mkCall o (fst (fst r)) (snd (fst r)) (snd r))).

Lemma done_at (l from : list (entry T)) o r :
  from `prefix_of` l -> explains cap lax o r l = true -> changes r o = false ->
  done_tokens o (list_to_set_disj [Lb l]) (r, from, l).
Proof. intros. unfold done_tokens. cbn [fst snd]. by rewrite explained_at. Qed.

Lemma done_change (l from : list (entry T)) (e : entry T) o r :
  from `prefix_of` l -> explains cap lax o r (l ++ [e]) = true -> changes r o = true ->
  done_tokens o (list_to_set_disj [Lb (l ++ [e]); Did (S (length l))]) (r, from, l ++ [e]).
Proof. intros. unfold done_tokens. cbn [fst snd]. by rewrite explained_change. Qed.

Context {Σ : Type} (hist : Σ -> list (entry T)) (I : Σ -> gmultiset (qtok T) -> Prop).
Context (code : op T -> prog Σ (res T * list (entry T) * list (entry T))).
Context (HI : forall σ m, I σ m -> hist_inv cap (hist σ) m).
Context (Hcode : forall o, ok I (start_tokens o) (code o) (done_tokens o)).

Lemma q_ops_ok : ops_ok code qstart qfinish I qtokens.
Proof.
  intros c o c' Hs. exists (start_tokens o).
  assert (Hb : qtokens c = qtokens c' ⊎ start_tokens o /\ calls c' = calls c).
  { destruct o; simpl in Hs; simplify_eq; unfold start_tokens; cbn match;
      try (split; [by rewrite list_to_set_disj_nil, (right_id_L ∅ (⊎))|done]).
    destruct c as [[|b] cs]; cbn [budget] in Hs; [done|]. injection Hs as <-. split; [|done]. unfold qtokens. cbn [budget calls].
    rewrite list_to_set_disj_cons, list_to_set_disj_nil, !list_to_set_disj_app, !list_to_set_disj_replicate,
      gmultiset_scalar_mul_S_r. multiset_solver. }
  destruct Hb as [Hb _]. split; [done|]. eapply ok_mono; [apply Hcode|].
  intros m [[r from] at_] ->. unfold qtokens. cbn [qfinish budget calls fst snd].
  change ((mkCall o r from at_ :: calls c') ≫= call_tokens)
    with (call_tokens (mkCall o r from at_) ++ (calls c' ≫= call_tokens)).
  rewrite !list_to_set_disj_app. by rewrite (comm_L (⊎) (list_to_set_disj (call_tokens _))), (assoc_L (⊎)).
Qed.

Lemma effects_multiplicity k (l : list (call T)) :
  occ (Did k) (l ≫= call_tokens) = occ k (omap effect l).
Proof.
  induction l as [|x l IH]; [done|].
  change ((x :: l) ≫= call_tokens) with (call_tokens x ++ (l ≫= call_tokens)).
  rewrite occ_app, IH. change (omap effect (x :: l)) with
    (match effect x with Some y => y :: omap effect l | None => omap effect l end).
  unfold call_tokens. cbn [occ app]. rewrite decide_False by done. rewrite occ_app.
  assert (Hbad : occ (Did k) (if call_ok cap lax x then [] else [@Bad T]) = 0%nat)
    by (destruct (call_ok _ _ _); cbn; [done|by rewrite decide_False]).
  rewrite Hbad. destruct (effect x) as [j|]; cbn; [|lia].
  destruct (decide (k = j)) as [->|]; [rewrite decide_True by done|rewrite decide_False by congruence]; lia.
Qed.

Lemma owned_list (ts : list (thread Σ (op T) (res T * list (entry T) * list (entry T)) (client T))) :
  ⋃+ ((fun t => qtokens (owns t)) <$> ts) =
  list_to_set_disj ((ts ≫= fun t => replicate (budget (owns t)) Budget) ++
                    ((ts ≫= fun t => calls (owns t)) ≫= call_tokens)).
Proof.
  induction ts as [|t ts IH]; [done|].
  change (qtokens (owns t) ⊎ ⋃+ ((fun t => qtokens (owns t)) <$> ts) =
    list_to_set_disj ((replicate (budget (owns t)) Budget ++ (ts ≫= fun t => replicate (budget (owns t)) Budget)) ++
                    ((calls (owns t) ++ (ts ≫= fun t => calls (owns t))) ≫= call_tokens))).
  rewrite IH, bind_app. unfold qtokens. rewrite !list_to_set_disj_app. multiset_solver.
Qed.

Lemma occ_replicate_bind {A} `{EqDecision B} (x y : B) (f : A -> nat) l :
  x <> y -> occ x (l ≫= fun a => replicate (f a) y) = 0%nat.
Proof.
  intros Hne. induction l as [|a l IH]; [done|].
  change (occ x (replicate (f a) y ++ (l ≫= fun a => replicate (f a) y)) = 0%nat).
  by rewrite occ_app, IH, Nat.add_0_r, occ_replicate_ne.
Qed.

Lemma pool_at σ budgets c :
  I σ (list_to_set_disj (replicate (sum_list budgets) Budget)) ->
  reachable code qstart qfinish (qpool σ budgets) c -> pool_inv qfinish I qtokens c.
Proof.
  intros Hinit [es Hr]. eapply run_inv; [apply q_ops_ok| |exact Hr]. right.
  exists ((fun b => qtokens (mkClient b [])) <$> budgets). split.
  - simpl. apply Forall2_fmap_2. apply Forall_Forall2_diag, Forall_true. done.
  - simpl. replace (⋃+ _) with (list_to_set_disj (replicate (sum_list budgets) Budget) : gmultiset (qtok T)); [done|].
    clear. induction budgets as [|b bs IH]; [done|].
    change (sum_list (b :: bs)) with (b + sum_list bs)%nat. rewrite replicate_add, list_to_set_disj_app, IH.
    change (⋃+ ((fun b => qtokens (mkClient b [])) <$> b :: bs))
      with (qtokens (mkClient b []) ⊎ ⋃+ ((fun b => qtokens (mkClient b [])) <$> bs)).
    f_equal. unfold qtokens. simpl. by rewrite app_nil_r.
Qed.

Lemma idle_at σ budgets c :
  I σ (list_to_set_disj (replicate (sum_list budgets) Budget)) ->
  reachable code qstart qfinish (qpool σ budgets) c ->
  existsb thread_aborted (threads c) = false -> Forall (fun t => running t = None) (threads c) ->
  exists m, I (shared c) m /\ forall k a b, multiplicity (Tk k a b) m = 0%nat.
Proof.
  intros Hinit Hr Ha Hidle. destruct (pool_inv_elim _ _ _ c (pool_at _ _ _ Hinit Hr) Ha) as (ms & HF & HIc).
  exists (⋃+ ms). split; [done|]. intros k a b.
  rewrite (idle_tokens qfinish I qtokens _ _ HF Hidle), owned_list, multiplicity_list, occ_app, occ_replicate_bind by done.
  induction (threads c ≫= fun t => calls (owns t)) as [|x l IH]; [done|].
  change ((x :: l) ≫= call_tokens) with (call_tokens x ++ (l ≫= call_tokens)). rewrite occ_app.
  cbn [Nat.add] in IH. rewrite IH. unfold call_tokens. cbn [occ]. rewrite decide_False, occ_app by done.
  destruct (effect x), (call_ok _ _ _); cbn [occ]; rewrite ?decide_False by done; done.
Qed.

Theorem linearizable_by_tokens σ budgets :
  I σ (list_to_set_disj (replicate (sum_list budgets) Budget)) ->
  linearizable cap lax code hist σ budgets.
Proof.
  intros Hinit c Hr Ha. pose proof (pool_at _ _ _ Hinit Hr) as Hinv.
  split; [by eapply pool_inv_no_crash|].
  destruct (pool_inv_elim _ _ _ c Hinv Ha) as (ms & HF & HIc).
  pose proof (HI _ _ HIc) as (Hst & Hbad & Hlb & Hdid).
  pose proof HF as Hsub. apply (owned_tokens code) in Hsub. rewrite owned_list in Hsub.
  split; [done|]. split_and!.
  - intros x Hx.
    assert (Hin : forall t, t ∈ call_tokens x -> t ∈ ⋃+ ms).
    { intros t Ht. eapply gmultiset_elem_of_subseteq; [|exact Hsub].
      apply elem_of_list_to_set_disj, elem_of_app. right. apply list_elem_of_bind. by exists x. }
    split.
    + destruct (call_ok cap lax x) eqn:E; [done|]. exfalso.
      assert (Bad ∈ ⋃+ ms) as HB.
      { apply Hin. unfold call_tokens. rewrite E. apply elem_of_cons. right. apply elem_of_app. right.
        by apply list_elem_of_singleton. }
      rewrite elem_of_multiplicity, Hbad in HB. lia.
    + apply Hlb, Hin. by left.
  - apply occ_NoDup. intros k. specialize (Hsub (Did k)). rewrite Hdid in Hsub.
    rewrite multiplicity_list, occ_app, effects_multiplicity, occ_replicate_bind in Hsub by done.
    unfold all_calls. case_decide; lia.
  - intros Hidle. pose proof (idle_tokens qfinish I qtokens _ _ HF Hidle) as E. rewrite owned_list in E.
    assert (Hk : forall k, occ k (omap effect (all_calls c)) = if decide (1 <= k <= length (hist (shared c)))%nat then 1%nat else 0%nat).
    { intros k. rewrite <- Hdid, E. rewrite multiplicity_list, occ_app, effects_multiplicity, occ_replicate_bind by done. done. }
    rewrite <- (length_seq (length (hist (shared c))) 1). apply Permutation_length, NoDup_Permutation.
    + apply occ_NoDup. intros k. rewrite Hk. destruct (decide _); lia.
    + apply NoDup_seq.
    + intros k. rewrite occ_elem, Hk, elem_of_seq. destruct (decide _); lia.
Qed.
End proof.
