(* ===== verification/Single.v ===== *)
(** [platform/queue/single.rs]: the queue of capacity one.

    A word of three flags guards one slot.  The slot is [Busy] while a thread
    writes or reads it, so that two accesses at once, a read of nothing and a
    second read of a value are a [Crash].  [log] is the history, an
    auxiliary variable. *)

From S2P Require Import Prelude Conc QueueSpec.

Definition LOCKED : Z := 1.
Definition PUSHED : Z := 2.
Definition CLOSED : Z := 4.

Inductive cell (T : Type) := Uninit | Busy | Init (v : T).
Arguments Uninit {T}.
Arguments Busy {T}.
Arguments Init {T} v.

Section code.
Context {T : Type} `{Countable T}.

Record Single := mkSingle { state : Z; slot : cell T; log : list (entry T) }.

Definition single_new : Single := mkSingle 0 Uninit [].

Definition put_state (s : Z) (σ : Single) : Single := mkSingle s (slot σ) (log σ).

(** [compare_exchange(0, LOCKED | PUSHED)], with the history before it. *)
Definition push_cas (v : T) : prog Single (Z * list (entry T)) :=
  atomic (fun σ => ((state σ, log σ),
    if state σ =? 0 then mkSingle (Z.lor LOCKED PUSHED) (slot σ) (log σ ++ [EPush v]) else σ)).

Definition pop_cas (expected : Z) : prog Single (Z * list (entry T)) :=
  atomic (fun σ => ((state σ, log σ),
    if state σ =? expected
    then mkSingle (Z.land (Z.lor expected LOCKED) (wnot PUSHED)) (slot σ) (log_pop (Some 1) (log σ)) else σ)).

Definition fetch_close : prog Single (Z * list (entry T)) :=
  atomic (fun σ => ((state σ, log σ),
    mkSingle (Z.lor (state σ) CLOSED) (slot σ) (if has (state σ) CLOSED then log σ else log σ ++ [EClose]))).

Definition load_state : prog Single (Z * list (entry T)) := atomic (fun σ => ((state σ, log σ), σ)).

(** The accesses to the slot. *)
Definition slot_write (v : T) : prog Single unit :=
  Act (fun σ => match slot σ with
                | Busy => Some (σ, Crash)
                | _ => Some (mkSingle (state σ) Busy (log σ), Ret ())
                end) ;;
  atomic (fun σ => ((), mkSingle (state σ) (Init v) (log σ))).

Definition slot_read : prog Single T :=
  v ← Act (fun σ => match slot σ with
                    | Init v => Some (mkSingle (state σ) Busy (log σ), Ret v)
                    | _ => Some (σ, Crash)
                    end);
  atomic (fun σ => (v, mkSingle (state σ) Uninit (log σ))).

Definition push (v : T) : prog Single (res T * list (entry T) * list (entry T)) :=
  '(s, l) ← push_cas v;
  if s =? 0 then
    slot_write v ;;
    fetch_and state put_state (wnot LOCKED) ;;
    mret (RPush (Ok ()), l, l ++ [EPush v])
  else if has s CLOSED then mret (RPush (Err (PushClosed v)), l, l)
  else mret (RPush (Err (Full v)), l, l).

(** [expected] is the local [state]; [from] the history at the first look. *)
Fixpoint pop_loop (fuel : nat) (expected : Z) (from : option (list (entry T)))
    : prog Single (res T * list (entry T) * list (entry T)) :=
  match fuel with
  | O => OutOfFuel
  | Datatypes.S fuel =>
      '(prev, l) ← pop_cas expected;
      let from := default l from in
      if prev =? expected then
        v ← slot_read;
        fetch_and state put_state (wnot LOCKED) ;;
        mret (RPop (Ok v), from, l ++ [EPop v])
      else if negb (has prev PUSHED) then
        if negb (has prev CLOSED) then mret (RPop (Err Empty), from, l)
        else mret (RPop (Err PopClosed), from, l)
      else if negb (has prev LOCKED) then pop_loop fuel prev (Some from)
      else pop_loop fuel (Z.land prev (wnot LOCKED)) (Some from)
  end.
Definition pop (fuel : nat) : prog Single (res T * list (entry T) * list (entry T)) :=
  pop_loop fuel PUSHED None.

Definition len : prog Single (Z * list (entry T)) :=
  '(s, l) ← load_state; mret (if negb (has s PUSHED) then 0 else 1, l).
Definition is_empty : prog Single (bool * list (entry T)) := '(n, l) ← len; mret (n =? 0, l).
Definition is_full : prog Single (bool * list (entry T)) := '(n, l) ← len; mret (n =? 1, l).

Definition close : prog Single (res T * list (entry T) * list (entry T)) :=
  '(s, l) ← fetch_close;
  if negb (has s CLOSED) then mret (RBool true, l, l ++ [EClose]) else mret (RBool false, l, l).
Definition is_closed : prog Single (bool * list (entry T)) := '(s, l) ← load_state; mret (has s CLOSED, l).

(** [Drop]: what is dropped; [None] would read an empty slot. *)
Definition drop_single (σ : Single) : option (list T) :=
  if has (state σ) PUSHED then match slot σ with Init v => Some [v] | _ => None end else Some [].

(** [ConcurrentQueue] over a [Single]. *)
Definition single_code (fuel : nat) (o : op T) : prog Single (res T * list (entry T) * list (entry T)) :=
  match o with
  | OPush v => push v
  | OPop => pop fuel
  | OLen => '(n, l) ← len; mret (RNum n, l, l)
  | OIsEmpty => '(b, l) ← is_empty; mret (RBool b, l, l)
  | OIsFull => '(b, l) ← is_full; mret (RBool b, l, l)
  | OCapacity => '(_, l) ← load_state; mret (RCap (Some 1), l, l)
  | OClose => close
  | OIsClosed => '(b, l) ← is_closed; mret (RBool b, l, l)
  end.

(** The last change, closing apart, was a pop. *)
Definition popped_last (l : list (entry T)) : bool :=
  match last (filter (fun e => e <> EClose) l) with Some (EPop _) => true | _ => false end.
Definition push_after_pop (o : op T) (l : list (entry T)) : bool :=
  match o with OPush _ => popped_last l | _ => false end.
End code.
Arguments Single T : clear implicits.

(** * The invariant

    [PWriting v n j] is a push that has set the flags as the [n]-th entry of
    the history: the value is still to be written, being written, or written
    ([j] = 0, 1, 2); [PReading v n j] a pop in the same way. *)

Inductive phase (T : Type) :=
| PEmpty | PFull (v : T) | PWriting (v : T) (n : nat) (j : nat) | PReading (v : T) (n : nat) (j : nat).
Arguments PEmpty {T}.
Arguments PFull {T} v.
Arguments PWriting {T} v n j.
Arguments PReading {T} v n j.

Section spec.
Context {T : Type} `{Countable T}.
Local Abbreviation toks := (list_to_set_disj (A:=qtok T) (C:=gmultiset (qtok T))).

Definition flags (ph : phase T) : Z :=
  match ph with PEmpty => 0 | PFull _ => 2 | PWriting _ _ _ => 3 | PReading _ _ _ => 1 end.
Definition word (ph : phase T) (cl : bool) : Z := flags ph + if cl then 4 else 0.

Definition cell_of (ph : phase T) : cell T :=
  match ph with
  | PEmpty | PWriting _ _ 0 => Uninit
  | PFull v | PReading v _ 0 | PWriting v _ 2 => Init v
  | PReading _ _ 2 => Uninit
  | _ => Busy
  end.

Definition items_of (ph : phase T) : list T :=
  match ph with PFull v | PWriting v _ _ => [v] | PEmpty | PReading _ _ _ => [] end.

Definition owner (ph : phase T) : option (nat * Z * Z) :=
  match ph with
  | PWriting _ n j => Some (0%nat, Z.of_nat j, Z.of_nat n)
  | PReading _ n j => Some (1%nat, Z.of_nat j, Z.of_nat n)
  | _ => None
  end.

Definition linked (ph : phase T) (l : list (entry T)) : Prop :=
  match ph with
  | PWriting v n j => l !! n = Some (EPush v) /\ (j <= 2)%nat
  | PReading v n j => l !! n = Some (EPop v) /\ (j <= 2)%nat /\ popped_last l = true
  | _ => True
  end.

(** At most one thread has access to the slot. *)
Definition ind (o : option (nat * Z * Z)) (k : nat) (a b : Z) : nat :=
  if decide (o = Some (k, a, b)) then 1 else 0.
Definition tk_is (o : option (nat * Z * Z)) (m : gmultiset (qtok T)) : Prop :=
  forall k a b, multiplicity (Tk k a b) m = ind o k a b.

Definition sinv (σ : Single T) (m : gmultiset (qtok T)) : Prop :=
  hist_inv (Some 1) (log σ) m /\ exists ph cl,
  state σ = word ph cl /\ slot σ = cell_of ph /\
  state_at (Some 1) (log σ) = Some (mkAq (items_of ph) cl) /\
  linked ph (log σ) /\ tk_is (owner ph) m.

Lemma tk_step o o' L L' fr : tk_is o (toks L ⊎ fr) ->
  (forall k a b, (occ (Tk k a b) L' + ind o k a b = occ (Tk k a b) L + ind o' k a b)%nat) ->
  tk_is o' (toks L' ⊎ fr).
Proof.
  intros Ht Ho k a b. specialize (Ht k a b). specialize (Ho k a b).
  rewrite multiplicity_disj_union, multiplicity_list in *. lia.
Qed.

Lemma tk_own o L fr k a b : tk_is o (toks L ⊎ fr) -> Tk k a b ∈ L -> o = Some (k, a, b).
Proof.
  intros Ht Hin%occ_elem. specialize (Ht k a b). rewrite multiplicity_disj_union, multiplicity_list in Ht.
  unfold ind in Ht. case_decide; [done|lia].
Qed.

Lemma popped_last_close l : popped_last (T:=T) (l ++ [EClose]) = popped_last l.
Proof. unfold popped_last. rewrite filter_app, filter_cons_False by (intros Hc; by apply Hc). by rewrite app_nil_r. Qed.

Lemma popped_last_pop l (v : T) : popped_last (l ++ [EPop v]) = true.
Proof. unfold popped_last. by rewrite filter_app, filter_cons_True, filter_nil, last_snoc by done. Qed.

Lemma linked_close ph l : linked ph l -> linked ph (l ++ [EClose]).
Proof.
  destruct ph; cbn [linked]; [done|done|..]; rewrite ?popped_last_close; intros [? ?];
    (split; [by apply lookup_app_l_Some|done]).
Qed.

Lemma has_word ph cl :
  has (word ph cl) CLOSED = cl /\
  has (word ph cl) PUSHED = bool_decide (items_of ph <> []) /\
  has (word ph cl) LOCKED = bool_decide (owner ph <> None).
Proof. by destruct ph, cl. Qed.

Ltac tk_side := intros ? ? ?; cbn [occ owner app]; unfold ind; repeat case_decide; simplify_eq; try done; lia.

Ltac hist_ok Hh :=
  cbn [fst snd log put_state]; eapply hist_inv_step; [exact Hh|first [reflexivity|by apply prefix_app_r]|by eexists|hist_side..].

Ltac owner_is Ht ph v' n' j n k0 j0 :=
  let Ho := fresh "Ho" in
  assert (Ho : owner ph = Some (k0, j0, Z.of_nat n)) by (eapply tk_own; [exact Ht|set_solver_lite]);
  destruct ph as [|v'|v' n' j|v' n' j]; cbn [owner] in Ho; try done;
  assert (n' = n /\ Z.of_nat j = j0) as [-> ?] by (injection Ho; lia).

(** The entry of the thread's operation is still there. *)
Lemma entry_at l (L : list (qtok T)) fr σ n e :
  hist_inv (Some 1) (log σ) (toks L ⊎ fr) -> Lb l ∈ L -> l !! n = Some e -> log σ !! n = Some e.
Proof. intros Hh Hin Hn. destruct (hist_inv_lb _ _ _ _ _ Hh Hin) as [l' ->]. by apply lookup_app_l_Some. Qed.

(** The access to the slot, by the thread that owns it. *)
Lemma ok_slot_write v l (Q : gmultiset (qtok T) -> unit -> Prop) n d :
  l !! n = Some (EPush v) ->
  Q (toks [Lb l; d; Tk 0 2 (Z.of_nat n)]) () ->
  ok sinv (toks [Lb l; d; Tk 0 0 (Z.of_nat n)]) (slot_write v) Q.
Proof.
  intros Hn HQ. apply ok_bind. intros σ fr (Hh & ph & cl & Hs & Hc & Hq & Hl & Ht).
  owner_is Ht ph v' n' j n 0%nat 0. assert (j = 0%nat) as -> by lia.
  rewrite Hc. right. exists (toks [Lb l; d; Tk 0 1 (Z.of_nat n)]). split.
  { split; [hist_ok Hh|]. exists (PWriting v' n 1), cl. split_and!; try done.
    - cbn in Hl |- *. naive_solver lia.
    - eapply tk_step; [exact Ht|tk_side]. }
  clear - HQ Hn. intros σ fr (Hh & ph & cl & Hs & Hc & Hq & Hl & Ht).
  owner_is Ht ph v' n' j n 0%nat 1. assert (j = 1%nat) as -> by lia.
  assert (v' = v) as -> by (eapply entry_at in Hn; [|exact Hh|set_solver_lite]; cbn in Hl; naive_solver).
  right. exists (toks [Lb l; d; Tk 0 2 (Z.of_nat n)]). split; [|done].
  split; [hist_ok Hh|]. exists (PWriting v n 2), cl. split_and!; try done.
  - cbn in Hl |- *. naive_solver lia.
  - eapply tk_step; [exact Ht|tk_side].
Qed.

Lemma ok_slot_read v l (Q : gmultiset (qtok T) -> T -> Prop) n d :
  l !! n = Some (EPop v) ->
  Q (toks [Lb l; d; Tk 1 2 (Z.of_nat n)]) v ->
  ok sinv (toks [Lb l; d; Tk 1 0 (Z.of_nat n)]) slot_read Q.
Proof.
  intros Hn HQ. apply ok_bind. intros σ fr (Hh & ph & cl & Hs & Hc & Hq & Hl & Ht).
  owner_is Ht ph v' n' j n 1%nat 0. assert (j = 0%nat) as -> by lia.
  assert (v' = v) as -> by (eapply entry_at in Hn; [|exact Hh|set_solver_lite]; cbn in Hl; naive_solver).
  rewrite Hc. right. exists (toks [Lb l; d; Tk 1 1 (Z.of_nat n)]). split.
  { split; [hist_ok Hh|]. exists (PReading v n 1), cl. split_and!; try done.
    - cbn in Hl |- *. naive_solver lia.
    - eapply tk_step; [exact Ht|tk_side]. }
  clear - HQ Hn. intros σ fr (Hh & ph & cl & Hs & Hc & Hq & Hl & Ht).
  owner_is Ht ph v' n' j n 1%nat 1. assert (j = 1%nat) as -> by lia.
  right. exists (toks [Lb l; d; Tk 1 2 (Z.of_nat n)]). split; [|done].
  split; [hist_ok Hh|]. exists (PReading v' n 2), cl. split_and!; try done.
  - cbn in Hl |- *. naive_solver lia.
  - eapply tk_step; [exact Ht|tk_side].
Qed.

(** The end of a push or a pop: the flag [LOCKED] is cleared. *)
Lemma ok_s_unlock l n d k (Q : gmultiset (qtok T) -> Z -> Prop) :
  (k <= 1)%nat -> (forall s, Q (toks [Lb l; d]) s) ->
  ok sinv (toks [Lb l; d; Tk k 2 (Z.of_nat n)]) (fetch_and state put_state (wnot LOCKED)) Q.
Proof.
  intros Hk HQ. apply ok_atomic. intros σ fr (Hh & ph' & cl & Hs & Hc & Hq & Hl & Ht).
  exists (toks [Lb l; d]). split; [|done]. split; [hist_ok Hh|].
  assert (Ho : owner ph' = Some (k, 2, Z.of_nat n)) by (eapply tk_own; [exact Ht|set_solver_lite]).
  assert (Hnone : tk_is None (toks [Lb l; d] ⊎ fr)).
  { eapply tk_step; [exact Ht|]. rewrite Ho. tk_side. }
  cbn [snd put_state state slot log]. rewrite Hs.
  destruct ph' as [|v'|v' n' j|v' n' j]; cbn [owner] in Ho; try done;
    assert (j = 2%nat) as -> by (injection Ho; lia).
  - exists (PFull v'), cl. split_and!; try done. by destruct cl.
  - exists PEmpty, cl. split_and!; try done. by destruct cl.
Qed.

Local Abbreviation returned := (done_tokens (Some 1) push_after_pop).

(** An operation that only looks. *)
Lemma ok_s_look o (r : Z -> res T) :
  (forall ph cl l, state_at (Some 1) l = Some (mkAq (items_of ph) cl) ->
     explains (Some 1) push_after_pop o (r (word ph cl)) l = true) ->
  (forall s, changes (r s) o = false) ->
  ok sinv (toks []) ('(s, l) ← load_state; mret (r s, l, l)) (returned o).
Proof.
  intros He Hc. apply ok_bind, ok_atomic. intros σ fr (Hh & ph & cl & Hs & Hcell & Hq & Hl & Ht).
  exists (toks [Lb (log σ)]). split.
  - split; [hist_ok Hh|]. exists ph, cl. split_and!; try done. eapply tk_step; [exact Ht|tk_side].
  - apply done_at; [done| |done]. rewrite Hs. by apply He.
Qed.

Lemma ok_s_push v : ok sinv (toks [Budget]) (push v) (returned (OPush v)).
Proof.
  apply ok_bind, ok_atomic. intros σ fr (Hh & ph & cl & Hs & Hcell & Hq & Hl & Ht). cbn [fst snd].
  destruct (Z.eqb_spec (state σ) 0) as [Hz|Hz].
  - assert (ph = PEmpty /\ cl = false) as [-> ->] by (rewrite Hs in Hz; by destruct ph, cl).
    assert (Hq' : state_at (Some 1) (log σ ++ [EPush v]) = Some (mkAq [v] false)).
    { by rewrite state_at_snoc, Hq. }
    exists (toks [Lb (log σ ++ [EPush v]); Did (Datatypes.S (length (log σ))); Tk 0 0 (Z.of_nat (length (log σ)))]).
    split.
    + split; [hist_ok Hh|]. exists (PWriting v (length (log σ)) 0), false. split_and!; try done.
      * cbn. split; [by rewrite lookup_app_r, Nat.sub_diag|lia].
      * eapply tk_step; [exact Ht|tk_side].
    + apply ok_bind. apply ok_slot_write; [by rewrite lookup_app_r, Nat.sub_diag|].
      apply ok_bind, ok_s_unlock; [lia|]. intros _. apply done_change; [done| |done].
      explain Hq'. by rewrite last_snoc, bool_decide_eq_true_2.
  - exists (toks [Lb (log σ)]). split.
    + split; [hist_ok Hh|]. exists ph, cl. split_and!; try done. eapply tk_step; [exact Ht|tk_side].
    + rewrite Hs, (proj1 (has_word ph cl)). destruct cl; apply done_at; try done; explain Hq.
      destruct ph as [|v'|v' n j|v' n j]; try done. cbn in Hl |- *. by destruct Hl as (_ & _ & ->).
Qed.

Lemma ok_s_pop_loop fuel : forall expected from, expected = 2 \/ expected = 6 ->
  forall L, (from = None /\ L = [] \/ exists l, from = Some l /\ L = [Lb l]) ->
  ok sinv (toks L) (pop_loop fuel expected from) (returned OPop).
Proof.
  induction fuel as [|fuel IH]; intros expected from Hx L HL; [done|]. cbn [pop_loop].
  apply ok_bind, ok_atomic. intros σ fr (Hh & ph & cl & Hs & Hcell & Hq & Hl & Ht). cbn [fst snd].
  assert (Hfrom : default (log σ) from `prefix_of` log σ).
  { destruct HL as [[-> _]|(l & -> & ->)]; [done|]. eapply hist_inv_lb; [exact Hh|set_solver_lite]. }
  destruct (Z.eqb_spec (state σ) expected) as [Hz|Hz].
  - assert (exists v, ph = PFull v) as [v ->].
    { rewrite Hs in Hz. destruct ph as [|v| |], cl, Hx as [->| ->]; try done; by exists v. }
    assert (Hlog : log_pop (Some 1) (log σ) = log σ ++ [EPop v]) by (unfold log_pop, front; by rewrite Hq).
    assert (Hq' : state_at (Some 1) (log σ ++ [EPop v]) = Some (mkAq [] cl)).
    { rewrite state_at_snoc, Hq. cbn. by rewrite decide_True. }
    exists (toks [Lb (log σ ++ [EPop v]); Did (Datatypes.S (length (log σ))); Tk 1 0 (Z.of_nat (length (log σ)))]).
    rewrite Hlog. split.
    + split.
      { destruct HL as [[-> ->]|(l & -> & ->)]; hist_ok Hh. }
      exists (PReading v (length (log σ)) 0), cl. split_and!; try done.
      * cbn [state]. rewrite <- Hz, Hs. by destruct cl.
      * cbn. rewrite popped_last_pop. split_and!; [by rewrite lookup_app_r, Nat.sub_diag|lia|done].
      * destruct HL as [[-> ->]|(l & -> & ->)]; (eapply tk_step; [exact Ht|tk_side]).
    + apply ok_bind. apply (ok_slot_read v); [by rewrite lookup_app_r, Nat.sub_diag|].
      apply ok_bind, ok_s_unlock; [lia|]. intros _. apply done_change; [done| |done].
      explain Hq'. by rewrite last_snoc, bool_decide_eq_true_2.
  - assert (Hkeep : sinv σ (toks [Lb (log σ)] ⊎ fr)).
    { destruct HL as [[-> ->]|(l & -> & ->)]; (split; [hist_ok Hh|]; exists ph, cl; split_and!; try done;
        eapply tk_step; [exact Ht|tk_side]). }
    assert (Hagain : sinv σ (toks [Lb (default (log σ) from)] ⊎ fr)).
    { destruct HL as [[-> ->]|(l & -> & ->)]; [exact Hkeep|]. split; [exact Hh|]. by exists ph, cl. }
    rewrite Hs. destruct (has_word ph cl) as (-> & Hp & Hlk). rewrite Hp, Hlk.
    destruct (bool_decide (items_of ph <> [])) eqn:Hi; cbn [negb].
    + exists (toks [Lb (default (log σ) from)]). split; [exact Hagain|].
      case_bool_decide; cbn [negb]; (apply IH; [|right; by eexists]);
        destruct ph as [|v| |], cl; try done; vm_compute; by auto.
    + exists (toks [Lb (log σ)]). split; [exact Hkeep|].
      apply bool_decide_eq_false, dec_stable in Hi.
      destruct cl; cbn [negb]; apply done_at; try done; explain Hq.
Qed.

Lemma ok_s_close : ok sinv (toks []) close (returned OClose).
Proof.
  apply ok_bind, ok_atomic. intros σ fr (Hh & ph & cl & Hs & Hcell & Hq & Hl & Ht). cbn [fst snd].
  rewrite Hs, (proj1 (has_word ph cl)). destruct cl; cbn [negb].
  - exists (toks [Lb (log σ)]). split.
    + split; [hist_ok Hh|]. exists ph, true. split_and!; try done; [by destruct ph|].
      eapply tk_step; [exact Ht|tk_side].
    + apply done_at; try done. explain Hq.
  - assert (Hq' : state_at (Some 1) (log σ ++ [EClose]) = Some (mkAq (items_of ph) true)).
    { by rewrite state_at_snoc, Hq. }
    exists (toks [Lb (log σ ++ [EClose]); Did (Datatypes.S (length (log σ)))]). split.
    + split; [hist_ok Hh|]. exists ph, true. split_and!; try done; [by destruct ph|by apply linked_close|].
      eapply tk_step; [exact Ht|tk_side].
    + apply done_change; [done| |done]. explain Hq'. by rewrite last_snoc, bool_decide_eq_true_2.
Qed.

Lemma single_ok fuel o : ok sinv (start_tokens o) (single_code fuel o) (returned o).
Proof.
  destruct o; unfold start_tokens; cbn match; cbn [single_code].
  - apply ok_s_push.
  - apply ok_s_pop_loop; [by left|by left].
  - apply (ok_s_look OLen (fun s => RNum (if negb (has s PUSHED) then 0 else 1))); [|done].
    intros ph cl l Hq. rewrite (proj1 (proj2 (has_word ph cl))). explain Hq. by destruct ph.
  - apply (ok_s_look OIsEmpty (fun s => RBool ((if negb (has s PUSHED) then 0 else 1) =? 0))); [|done].
    intros ph cl l Hq. rewrite (proj1 (proj2 (has_word ph cl))). explain Hq. by destruct ph.
  - apply (ok_s_look OIsFull (fun s => RBool ((if negb (has s PUSHED) then 0 else 1) =? 1))); [|done].
    intros ph cl l Hq. rewrite (proj1 (proj2 (has_word ph cl))). explain Hq. by destruct ph.
  - apply (ok_s_look OCapacity (fun _ => RCap (Some 1))); [|done]. intros ph cl l Hq. explain Hq.
  - apply ok_s_close.
  - apply (ok_s_look OIsClosed (fun s => RBool (has s CLOSED))); [|done].
    intros ph cl l Hq. rewrite (proj1 (has_word ph cl)). explain Hq. by destruct cl.
Qed.

Lemma sinv_new bs : sinv single_new (toks (replicate bs Budget)).
Proof.
  split; [apply hist_inv_init|]. exists PEmpty, false. split_and!; try done.
  intros k a b. by rewrite multiplicity_list, occ_replicate_ne.
Qed.
End spec.

(** * Properties *)

Lemma single_keeps T `{Countable T} (fuel : nat) (budgets : list nat) :
  linearizable (Some 1) push_after_pop (single_code (T:=T) fuel) log single_new budgets.
Proof.
  apply (linearizable_by_tokens (Some 1) push_after_pop log sinv); [|apply single_ok|apply sinv_new].
  by intros σ m [? _].
Qed.


(** No operation is under way, and the queue holds what the history says. *)
Definition at_rest {T} `{Countable T} (σ : Single T) : Prop :=
  exists ph cl, (ph = PEmpty \/ exists v, ph = PFull v) /\ state σ = word ph cl /\ slot σ = cell_of ph /\
    state_at (Some 1) (log σ) = Some (mkAq (items_of ph) cl).

(** A pop has taken its item out of the abstract queue and not yet unlocked. *)
Definition spurious_run : list (event (op Z)) :=
  [EStart 0%nat (OPush 7)] ++ replicate 5 (EStep 0%nat false) ++ [EStart 0%nat OPop; EStep 0%nat false] ++
  [EStart 1%nat OIsEmpty] ++ replicate 2 (EStep 1%nat false) ++ [EStart 1%nat (OPush 8)] ++ replicate 2 (EStep 1%nat false).

(** The outcome of an operation that runs alone. *)
Definition alone {T} `{Countable T} (fuel : nat) (o : op T) (σ : Single T) : Prop :=
  exists r l σ', solo (single_code fuel o) [] σ = Done (r, log σ, l) σ' /\ at_rest σ' /\ log σ' = l /\
    call_ok (Some 1) (fun _ _ => false) (mkCall o r (log σ) l) = true.

Lemma alone_intro {T} `{Countable T} fuel (o : op T) σ r l ph cl :
  ph = PEmpty \/ (exists v, ph = PFull v) ->
  solo (single_code fuel o) [] σ = Done (r, log σ, l) (mkSingle (word ph cl) (cell_of ph) l) ->
  state_at (Some 1) l = Some (mkAq (items_of ph) cl) -> log σ `prefix_of` l ->
  (forall q, state_at (Some 1) l = Some q -> q = mkAq (items_of ph) cl ->
     explains (Some 1) (fun _ _ => false) o r l = true) ->
  alone fuel o σ.
Proof.
  intros Hph Hrun Hq Hp He. exists r, l, (mkSingle (word ph cl) (cell_of ph) l).
  split; [exact Hrun|]. split; [by exists ph, cl|]. split; [done|]. unfold call_ok. cbn.
  rewrite bool_decide_eq_true_2 by done. eapply He; [exact Hq|done].
Qed.

Lemma single_runs_alone {T} `{Countable T} (σ : Single T) fuel o :
  at_rest σ -> (2 <= fuel)%nat -> alone fuel o σ.
Proof.
  intros (ph & cl & Hph & Hs & Hc & Hq) Hf. destruct σ as [s sl l]. cbn [state slot log] in *. subst s sl.
  destruct fuel as [|[|fuel]]; [lia..|].
  assert (Hgo : forall r, changes r o = false ->
      solo (single_code (Datatypes.S (Datatypes.S fuel)) o) [] (mkSingle (word ph cl) (cell_of ph) l)
        = Done (r, l, l) (mkSingle (word ph cl) (cell_of ph) l) ->
      explains (Some 1) (fun _ _ => false) o r l = true ->
      alone (Datatypes.S (Datatypes.S fuel)) o (mkSingle (word ph cl) (cell_of ph) l)).
  { intros r Hch Hrun He. by eapply alone_intro. }
  assert (Hfront : forall v, ph = PFull v -> log_pop (Some 1) l = l ++ [EPop v] /\
      state_at (Some 1) (l ++ [EPop v]) = Some (mkAq [] cl)).
  { intros v ->. unfold log_pop, front. rewrite state_at_snoc, Hq. cbn. by rewrite decide_True. }
  destruct Hph as [->|[v ->]], o as [w| | | | | | |].
  - destruct cl; [apply (Hgo (RPush (Err (PushClosed w)))); [done|done|explain Hq]|].
    apply (alone_intro _ _ _ (RPush (Ok ())) (l ++ [EPush w]) (PFull w) false); [right; by eexists|done|..].
    + by rewrite state_at_snoc, Hq.
    + by apply prefix_app_r.
    + intros q E _. explain E. by rewrite last_snoc, bool_decide_eq_true_2.
  - destruct cl; [apply (Hgo (RPop (Err PopClosed)))|apply (Hgo (RPop (Err Empty)))]; try done; explain Hq.
  - apply (Hgo (RNum 0)); [done|by destruct cl|explain Hq].
  - apply (Hgo (RBool true)); [done|by destruct cl|explain Hq].
  - apply (Hgo (RBool false)); [done|by destruct cl|explain Hq].
  - apply (Hgo (RCap (Some 1))); [done|by destruct cl|explain Hq].
  - destruct cl; [apply (Hgo (RBool false)); [done|done|explain Hq]|].
    apply (alone_intro _ _ _ (RBool true) (l ++ [EClose]) PEmpty true); [by left|done|..].
    + by rewrite state_at_snoc, Hq.
    + by apply prefix_app_r.
    + intros q E _. explain E. by rewrite last_snoc, bool_decide_eq_true_2.
  - apply (Hgo (RBool cl)); [done|by destruct cl|explain Hq; by destruct cl].
  - destruct cl; [apply (Hgo (RPush (Err (PushClosed w))))|apply (Hgo (RPush (Err (Full w))))]; try done; explain Hq.
  - destruct (Hfront v eq_refl) as [Hlog Hq'].
    apply (alone_intro _ _ _ (RPop (Ok v)) (l ++ [EPop v]) PEmpty cl); [by left| |done|..].
    + transitivity (Done (RPop (Ok v), l, l ++ [EPop v]) (mkSingle (word (PEmpty (T:=T)) cl) Uninit (log_pop (Some 1) l)));
        [by destruct cl|by rewrite Hlog].
    + by apply prefix_app_r.
    + intros q E _. explain E. by rewrite last_snoc, bool_decide_eq_true_2.
  - apply (Hgo (RNum 1)); [done|by destruct cl|explain Hq].
  - apply (Hgo (RBool false)); [done|by destruct cl|explain Hq].
  - apply (Hgo (RBool true)); [done|by destruct cl|explain Hq].
  - apply (Hgo (RCap (Some 1))); [done|by destruct cl|explain Hq].
  - destruct cl; [apply (Hgo (RBool false)); [done|done|explain Hq]|].
    apply (alone_intro _ _ _ (RBool true) (l ++ [EClose]) (PFull v) true); [right; by eexists|done|..].
    + by rewrite state_at_snoc, Hq.
    + by apply prefix_app_r.
    + intros q E _. explain E. by rewrite last_snoc, bool_decide_eq_true_2.
  - apply (Hgo (RBool cl)); [done|by destruct cl|explain Hq; by destruct cl].
Qed.

Definition spurious_final : config (Single Z) (op Z) (res Z * list (entry Z) * list (entry Z)) (client Z) :=
  after (single_code 2) qstart qfinish spurious_run (qpool single_new [1%nat; 1%nat]).

(** C10: an operation that runs alone, from rest, returns, with the answer of the
    sequential queue of capacity 1 and nothing weaker, and leaves the queue
    at rest.  While a pop is under way this is not so: a thread that has just
    seen the empty queue is told [Full] by its next push, though nothing was
    pushed in between, and no history explains it. *)
Theorem single_alone_exact T `{Countable T} :
  (forall (σ : Single T) fuel o, at_rest σ -> (2 <= fuel)%nat -> alone fuel o σ) /\
  let c := spurious_final in
  reachable (single_code 2) qstart qfinish (qpool single_new [1%nat; 1%nat]) c /\
  log (shared c) = [EPush 7; EPop 7] /\
  (calls <$> (owns <$> threads c)) !! 1%nat = Some
    [mkCall (OPush 8) (RPush (Err (Full 8))) (log (shared c)) (log (shared c));
     mkCall OIsEmpty (RBool true) (log (shared c)) (log (shared c))] /\
  call_ok (Some 1) (fun _ _ => false) (mkCall (OPush 8) (RPush (Err (Full 8))) (log (shared c)) (log (shared c))) = false.
Proof.
  split; [intros; by apply single_runs_alone|].
  split_and!; [apply after_reachable| | |]; by vm_compute.
Qed.

(** ** A pop alone on a queue that holds one item *)
Lemma single_alone_exact_witness :
  alone 2 OPop (mkSingle 2 (Init 5) [EPush 5]).
Proof.
  apply (proj1 (single_alone_exact Z)); [|lia].
  exists (PFull 5), false. split_and!; [right; by exists 5|reflexivity..].
Defined.

