(* ===== verification/Bounded.v ===== *)
(** [platform/queue/bounded.rs]: the lock-free queue of fixed capacity.

    [head] and [tail] are positions: an index into the buffer, and a lap; the
    bit between them closes the queue.  A slot's stamp says which position
    may write it ([tail] itself) or read it ([head + 1]).  [blog] is the
    history, an auxiliary variable.  An index out of bounds, an overflow of a
    checked addition, and an access to a slot that another thread writes or
    reads, or that holds nothing, is a [Crash]. *)

From S2P Require Import Prelude Conc QueueSpec.
From S2P Require Single.

Abbreviation cell := Single.cell.
Abbreviation Uninit := Single.Uninit.
Abbreviation Busy := Single.Busy.
Abbreviation Init := Single.Init.

Definition next_power_of_two (n : Z) : Z := 2 ^ Z.log2_up n.

(** The fields that never change. *)
Record Consts := mkConsts { buffer_len : nat; one_lap : Z; mark_bit : Z }.

Section code.
Context {T : Type} `{Countable T}.

Record Slot := mkSlot { stamp : Z; value : cell T }.
Record Bounded := mkBounded { head : Z; tail : Z; buffer : list Slot; blog : list (entry T) }.

(** [Bounded::new]: [None] is the panic of the assertion. *)
Definition bounded_new (cap : nat) : option (Consts * Bounded) :=
  guard (0 < cap)%nat;;
  let mark := next_power_of_two (Z.of_nat cap + 1) in
  Some (mkConsts cap (mark * 2) mark,
        mkBounded 0 0 ((fun i => mkSlot (Z.of_nat i) Uninit) <$> seq 0 cap) []).

Context (q : Consts).

(** An index of the buffer is checked. *)
Definition on_slot {A} (index : Z) (f : Slot -> option (A * Slot)) : prog Bounded A :=
  Act (fun σ => match s ← buffer σ !! Z.to_nat index; f s with
                | Some (a, s') =>
                    Some (mkBounded (head σ) (tail σ) (<[Z.to_nat index := s']> (buffer σ)) (blog σ), Ret a)
                | None => Some (σ, Crash)
                end).

Definition load_stamp (index : Z) : prog Bounded Z := on_slot index (fun s => Some (stamp s, s)).
Definition store_stamp (index : Z) (x : Z) : prog Bounded unit :=
  on_slot index (fun s => Some ((), mkSlot x (value s))).

Definition write_value (index : Z) (v : T) : prog Bounded unit :=
  on_slot index (fun s => match value s with Single.Busy => None | _ => Some ((), mkSlot (stamp s) Busy) end) ;;
  on_slot index (fun s => Some ((), mkSlot (stamp s) (Init v))).
Definition read_value (index : Z) : prog Bounded T :=
  v ← on_slot index (fun s => match value s with Single.Init v => Some (v, mkSlot (stamp s) Busy) | _ => None end);
  on_slot index (fun s => Some (v, mkSlot (stamp s) Uninit)).

Definition load_tail : prog Bounded (Z * list (entry T)) := atomic (fun σ => ((tail σ, blog σ), σ)).
Definition load_head : prog Bounded (Z * list (entry T)) := atomic (fun σ => ((head σ, blog σ), σ)).

(** The compare-exchanges, with what they saw. *)
Definition cas_tail (a b : Z) (v : T) : prog Bounded (Z * list (entry T)) :=
  atomic (fun σ => ((tail σ, blog σ),
    if tail σ =? a then mkBounded (head σ) b (buffer σ) (blog σ ++ [EPush v]) else σ)).
Definition cas_head (a b : Z) : prog Bounded (Z * list (entry T)) :=
  atomic (fun σ => ((head σ, blog σ),
    if head σ =? a
    then mkBounded b (tail σ) (buffer σ) (log_pop (Some (Z.of_nat (buffer_len q))) (blog σ)) else σ)).

Definition index_of (x : Z) : Z := Z.land x (mark_bit q - 1).
Definition lap_of (x : Z) : Z := Z.land x (wnot (one_lap q - 1)).

(** The position after [x]. *)
Definition next_position (x : Z) : Z :=
  if index_of x + 1 <? Z.of_nat (buffer_len q) then x + 1 else wrapping_add (lap_of x) (one_lap q).

(** [tail] was read when the history was [l]. *)
Fixpoint push_loop (fuel : nat) (v : T) (tail : Z) (from l : list (entry T))
    : prog Bounded (res T * list (entry T) * list (entry T)) :=
  match fuel with
  | O => OutOfFuel
  | S fuel =>
      if has tail (mark_bit q) then mret (RPush (Err (PushClosed v)), from, l)
      else
        stamp ← load_stamp (index_of tail);
        if usize_MAX <? tail + 1 then Crash
        else if tail =? stamp then
          spurious ← Pick Ret;
          if spurious : bool then '(t, l) ← load_tail; push_loop fuel v t from l
          else
            '(t, l) ← cas_tail tail (next_position tail) v;
            if t =? tail then
              write_value (index_of tail) v ;;
              store_stamp (index_of tail) (tail + 1) ;;
              mret (RPush (Ok ()), from, l ++ [EPush v])
            else push_loop fuel v t from l
        else if wrapping_add stamp (one_lap q) =? tail + 1 then
          '(head, _) ← load_head;
          if wrapping_add head (one_lap q) =? tail then mret (RPush (Err (Full v)), from, l)
          else '(t, l) ← load_tail; push_loop fuel v t from l
        else '(t, l) ← load_tail; push_loop fuel v t from l
  end.
Definition push (fuel : nat) (v : T) : prog Bounded (res T * list (entry T) * list (entry T)) :=
  '(t, l) ← load_tail; push_loop fuel v t l l.

Fixpoint pop_loop (fuel : nat) (head : Z) (from : list (entry T))
    : prog Bounded (res T * list (entry T) * list (entry T)) :=
  match fuel with
  | O => OutOfFuel
  | S fuel =>
      stamp ← load_stamp (index_of head);
      if usize_MAX <? head + 1 then Crash
      else if head + 1 =? stamp then
        spurious ← Pick Ret;
        if spurious : bool then '(h, _) ← load_head; pop_loop fuel h from
        else
          '(h, l) ← cas_head head (next_position head);
          if h =? head then
            v ← read_value (index_of head);
            store_stamp (index_of head) (wrapping_add head (one_lap q)) ;;
            mret (RPop (Ok v), from, l ++ [EPop v])
          else pop_loop fuel h from
      else if stamp =? head then
        '(tail, l) ← load_tail;
        if Z.land tail (wnot (mark_bit q)) =? head then
          if has tail (mark_bit q) then mret (RPop (Err PopClosed), from, l)
          else mret (RPop (Err Empty), from, l)
        else '(h, _) ← load_head; pop_loop fuel h from
      else '(h, _) ← load_head; pop_loop fuel h from
  end.
Definition pop (fuel : nat) : prog Bounded (res T * list (entry T) * list (entry T)) :=
  '(h, l) ← load_head; pop_loop fuel h l.

(** The number of items between two positions. *)
Definition distance (head tail : Z) : Z :=
  let hix := index_of head in
  let tix := index_of tail in
  if hix <? tix then tix - hix
  else if tix <? hix then Z.of_nat (buffer_len q) - hix + tix
  else if Z.land tail (wnot (mark_bit q)) =? head then 0
  else Z.of_nat (buffer_len q).

Fixpoint len_loop (fuel : nat) (from : option (list (entry T))) : prog Bounded (Z * list (entry T) * list (entry T)) :=
  match fuel with
  | O => OutOfFuel
  | S fuel =>
      '(tail, l1) ← load_tail;
      '(head, l) ← load_head;
      '(tail2, _) ← load_tail;
      let from := default l1 from in
      if tail2 =? tail then mret (distance head tail, from, l) else len_loop fuel (Some from)
  end.

Definition is_empty : prog Bounded (bool * list (entry T) * list (entry T)) :=
  '(head, l1) ← load_head;
  '(tail, l2) ← load_tail;
  let b := Z.land tail (wnot (mark_bit q)) =? head in
  mret (b, l1, settle (Some (Z.of_nat (buffer_len q))) (fun _ _ => false) OIsEmpty (RBool b) l1 l2).
Definition is_full : prog Bounded (bool * list (entry T) * list (entry T)) :=
  '(tail, l1) ← load_tail;
  '(head, l2) ← load_head;
  let b := wrapping_add head (one_lap q) =? Z.land tail (wnot (mark_bit q)) in
  mret (b, l1, settle (Some (Z.of_nat (buffer_len q))) (fun _ _ => false) OIsFull (RBool b) l1 l2).

Definition fetch_close : prog Bounded (Z * list (entry T)) :=
  atomic (fun σ => ((tail σ, blog σ),
    mkBounded (head σ) (Z.lor (tail σ) (mark_bit q)) (buffer σ)
      (if has (tail σ) (mark_bit q) then blog σ else blog σ ++ [EClose]))).
Definition close : prog Bounded (res T * list (entry T) * list (entry T)) :=
  '(t, l) ← fetch_close;
  if negb (has t (mark_bit q)) then mret (RBool true, l, l ++ [EClose]) else mret (RBool false, l, l).
Definition is_closed : prog Bounded (bool * list (entry T)) :=
  '(t, l) ← load_tail; mret (has t (mark_bit q), l).

(** [Drop]: the values dropped, in order; [None] would read an empty slot. *)
Fixpoint drop_slots (n : nat) (index : Z) (b : list Slot) : option (list T) :=
  match n with
  | O => Some []
  | S n =>
      s ← b !! Z.to_nat (if index <? Z.of_nat (buffer_len q) then index else index - Z.of_nat (buffer_len q));
      match value s with
      | Single.Init v => vs ← drop_slots n (index + 1) b; Some (v :: vs)
      | _ => None
      end
  end.
Definition drop_bounded (σ : Bounded) : option (list T) :=
  drop_slots (Z.to_nat (distance (head σ) (tail σ))) (index_of (head σ)) (buffer σ).

(** [ConcurrentQueue] over a [Bounded]. *)
Definition bounded_code (fuel : nat) (o : op T) : prog Bounded (res T * list (entry T) * list (entry T)) :=
  match o with
  | OPush v => push fuel v
  | OPop => pop fuel
  | OLen => '(n, from, l) ← len_loop fuel None; mret (RNum n, from, l)
  | OIsEmpty => '(b, from, l) ← is_empty; mret (RBool b, from, l)
  | OIsFull => '(b, from, l) ← is_full; mret (RBool b, from, l)
  | OCapacity => '(_, l) ← load_tail; mret (RCap (Some (Z.of_nat (buffer_len q))), l, l)
  | OClose => close
  | OIsClosed => '(b, l) ← is_closed; mret (RBool b, l, l)
  end.
End code.
Arguments Bounded T : clear implicits.
Arguments Slot T : clear implicits.
