(* ===== verification/BoundedProof.v ===== *)
(** Correctness of the bounded queue: the arithmetic of its positions, its
    invariant, and its linearizability.

    The position of the [n]-th item ever pushed is [enc n]: its lap, the
    closing bit (always 0), its index.  The invariant gives every slot a
    phase: free for the push of item [n], being written by it, full, or being
    read by the pop of item [n]. *)

From S2P Require Import Prelude Conc QueueSpec Bounded.
From S2P Require Single.

(** * Words with one bit set apart *)

Lemma land_pow2 x k : 0 <= k -> Z.land x (2 ^ k) = if Z.testbit x k then 2 ^ k else 0.
Proof.
  intros Hk. apply Z.bits_inj'. intros i Hi. rewrite Z.land_spec, Z.pow2_bits_eqb by done.
  destruct (Z.eqb_spec k i) as [->|Hne].
  - destruct (Z.testbit x i); [by rewrite Z.pow2_bits_true|by rewrite Z.bits_0].
  - rewrite andb_false_r. destruct (Z.testbit x k); [by rewrite Z.pow2_bits_false|by rewrite Z.bits_0].
Qed.

Lemma has_pow2 x k : 0 <= k -> has x (2 ^ k) = Z.testbit x k.
Proof.
  intros Hk. unfold has. rewrite land_pow2 by done. pose proof (Z.pow_pos_nonneg 2 k).
  destruct (Z.testbit x k); [|done]. destruct (Z.eqb_spec (2 ^ k) 0); [lia|done].
Qed.

Lemma ldiff_sub x m : Z.ldiff x m = x - Z.land x m.
Proof.
  assert (Z.land (Z.land x m) (Z.ldiff x m) = 0) as Hd.
  { apply Z.bits_inj'. intros i Hi. rewrite !Z.land_spec, Z.ldiff_spec, Z.bits_0. by destruct (Z.testbit x i), (Z.testbit m i). }
  assert (Z.lor (Z.land x m) (Z.ldiff x m) = x) as Ho.
  { apply Z.bits_inj'. intros i Hi. rewrite Z.lor_spec, !Z.land_spec, Z.ldiff_spec. by destruct (Z.testbit x i), (Z.testbit m i). }
  pose proof (Z.add_nocarry_lxor _ _ Hd) as E1. pose proof (Z.lxor_lor _ _ Hd) as E2. lia.
Qed.

(** A word [a + b] with [a] a multiple of [2 ^ (k + 1)] and [b] below [2 ^ k]. *)
Section bit.
Context (k a b : Z) (Hk : 0 <= k) (Ha : 0 <= a) (Hb : 0 <= b < 2 ^ k).
Let x := a * 2 ^ (k + 1) + b.

Lemma word_bit : Z.testbit x k = false.
Proof.
  unfold x. rewrite Z.testbit_eqb, Z.pow_add_r by lia. change (2 ^ 1) with 2.
  replace (a * (2 ^ k * 2) + b) with (b + (a * 2) * 2 ^ k) by lia.
  rewrite Z.div_add, Z.div_small, Z.add_0_l, Z.mod_mul by lia. done.
Qed.

Lemma word_set : Z.lor x (2 ^ k) = x + 2 ^ k.
Proof.
  pose proof (land_pow2 x k Hk) as E. rewrite word_bit in E.
  pose proof (Z.add_nocarry_lxor _ _ E) as E1. pose proof (Z.lxor_lor _ _ E) as E2. lia.
Qed.

Lemma word_set_bit : Z.testbit (x + 2 ^ k) k = true.
Proof. rewrite <- word_set, Z.lor_spec, Z.pow2_bits_true by done. apply orb_true_r. Qed.

Lemma word_low : Z.land x (2 ^ k - 1) = b.
Proof.
  replace (2 ^ k - 1) with (Z.ones k) by (rewrite Z.ones_equiv; lia). rewrite Z.land_ones by done.
  unfold x. rewrite Z.pow_add_r by lia. change (2 ^ 1) with 2.
  replace (a * (2 ^ k * 2) + b) with (b + (a * 2) * 2 ^ k) by lia.
  rewrite Z.mod_add, Z.mod_small by lia. done.
Qed.

Lemma word_low_set : Z.land (x + 2 ^ k) (2 ^ k - 1) = b.
Proof.
  replace (2 ^ k - 1) with (Z.ones k) by (rewrite Z.ones_equiv; lia). rewrite Z.land_ones by done.
  unfold x. rewrite Z.pow_add_r by lia. change (2 ^ 1) with 2.
  replace (a * (2 ^ k * 2) + b + 2 ^ k) with (b + (a * 2 + 1) * 2 ^ k) by lia.
  rewrite Z.mod_add, Z.mod_small by lia. done.
Qed.

Lemma word_clear : x + 2 ^ k <= usize_MAX ->
  Z.land x (wnot (2 ^ k)) = x /\ Z.land (x + 2 ^ k) (wnot (2 ^ k)) = x.
Proof.
  intros Hm. pose proof (Z.pow_pos_nonneg 2 k). assert (0 <= x) by (unfold x; lia).
  rewrite !land_wnot, !ldiff_sub, !land_pow2, word_bit, word_set_bit by lia. lia.
Qed.

Lemma word_high : x <= usize_MAX -> 2 ^ (k + 1) <= usize_MAX + 1 ->
  Z.land x (wnot (2 ^ (k + 1) - 1)) = a * 2 ^ (k + 1).
Proof.
  intros Hm Hl. assert (Hp : 2 ^ k < 2 ^ (k + 1)) by (apply Z.pow_lt_mono_r; lia).
  assert (0 <= x) by (unfold x; lia).
  rewrite land_wnot by lia. replace (2 ^ (k + 1) - 1) with (Z.ones (k + 1)) by (rewrite Z.ones_equiv; lia).
  rewrite ldiff_sub, Z.land_ones by lia. unfold x.
  rewrite Z.add_comm, Z.mod_add, Z.mod_small by lia. lia.
Qed.
End bit.

(** * Positions *)

Section positions.
Context (c : nat) (k : Z) (Hc : (0 < c)%nat) (Hk : 0 <= k) (Hck : Z.of_nat c < 2 ^ k).
Local Abbreviation lap := (2 ^ (k + 1)).
Definition consts : Consts := mkConsts c lap (2 ^ k).
Local Abbreviation q := consts.

Definition enc (n : nat) : Z := Z.of_nat (n / c) * lap + Z.of_nat (n mod c).

Lemma lap_double : lap = 2 ^ k * 2.
Proof. by rewrite Z.pow_add_r by lia. Qed.

Lemma enc_low n : 0 <= Z.of_nat (n mod c) < 2 ^ k.
Proof. pose proof (Nat.mod_upper_bound n c). lia. Qed.

Lemma enc_nonneg n : 0 <= enc n.
Proof. pose proof (Z.pow_nonneg 2 (k + 1)). unfold enc. lia. Qed.

Lemma enc_succ n : enc (S n) =
  if decide (n mod c + 1 < c)%nat then enc n + 1 else Z.of_nat (n / c) * lap + lap.
Proof.
  pose proof (Nat.div_mod_eq n c) as E. pose proof (Nat.mod_upper_bound n c). unfold enc. case_decide.
  - replace (S n / c)%nat with (n / c)%nat by (apply (Nat.div_unique (S n) c _ (n mod c + 1)); lia).
    replace (S n mod c)%nat with (n mod c + 1)%nat by (apply (Nat.mod_unique (S n) c (n / c)); lia). lia.
  - replace (S n / c)%nat with (n / c + 1)%nat by (apply (Nat.div_unique (S n) c _ 0); lia).
    replace (S n mod c)%nat with 0%nat by (apply (Nat.mod_unique (S n) c (n / c + 1)); lia). lia.
Qed.

Lemma enc_lap n : enc (n + c) = enc n + lap.
Proof.
  unfold enc. replace (n + c)%nat with (n + 1 * c)%nat by lia.
  rewrite Nat.div_add, Nat.Div0.mod_add by lia. lia.
Qed.

Lemma enc_step n : enc n + 1 <= enc (S n).
Proof.
  rewrite enc_succ. case_decide; [lia|]. unfold enc. pose proof (enc_low n). pose proof lap_double. lia.
Qed.

Lemma enc_lt n m : (n < m)%nat -> enc n < enc m.
Proof. induction 1 as [|m _ IH]; [pose proof (enc_step n); lia|]. pose proof (enc_step m). lia. Qed.

Lemma enc_le n m : (n <= m)%nat -> enc n <= enc m.
Proof. intros [Hlt| ->]%Nat.lt_eq_cases; [apply enc_lt in Hlt; lia|done]. Qed.

Lemma stamp_inj n m : enc n = enc m -> n = m.
Proof.
  intros E. destruct (lt_eq_lt_dec n m) as [[Hlt|]|Hlt]; [|done|]; apply enc_lt in Hlt; lia.
Qed.

(** The positions of one slot are a whole lap apart. *)
Lemma enc_same_slot n m : (n mod c = m mod c)%nat -> enc n <> enc m + 1.
Proof.
  unfold enc. intros ->. pose proof lap_double. pose proof (Z.pow_pos_nonneg 2 k). nia.
Qed.

Context (limit : nat) (Hlimit : enc (limit + c) + lap <= usize_MAX).

Lemma enc_small n : (n <= limit + c)%nat -> enc n + lap <= usize_MAX.
Proof. intros Hn%enc_le. lia. Qed.

Ltac bits n Hn := pose proof (enc_low n); pose proof (enc_small n Hn); pose proof (enc_nonneg n);
  pose proof lap_double; pose proof (Z.pow_pos_nonneg 2 k).

Lemma index_enc n : index_of q (enc n) = Z.of_nat (n mod c).
Proof. unfold index_of, enc. cbn. apply word_low; [lia..|apply enc_low]. Qed.

Lemma index_mark n : index_of q (enc n + 2 ^ k) = Z.of_nat (n mod c).
Proof. unfold index_of, enc. cbn. apply word_low_set; [lia..|apply enc_low]. Qed.

Lemma mark_enc n : has (enc n) (mark_bit q) = false.
Proof. cbn. rewrite has_pow2 by done. apply word_bit; [lia..|apply enc_low]. Qed.

Lemma mark_set n : has (enc n + 2 ^ k) (mark_bit q) = true.
Proof. cbn. rewrite has_pow2 by done. apply word_set_bit; [lia..|apply enc_low]. Qed.

Lemma lor_enc n : Z.lor (enc n) (mark_bit q) = enc n + 2 ^ k.
Proof. cbn. apply word_set; [lia..|apply enc_low]. Qed.

Lemma lor_mark n : Z.lor (enc n + 2 ^ k) (mark_bit q) = enc n + 2 ^ k.
Proof. rewrite <- lor_enc, <- Z.lor_assoc, Z.lor_diag. done. Qed.

Lemma clear_enc n : (n <= limit + c)%nat -> Z.land (enc n) (wnot (mark_bit q)) = enc n.
Proof. intros Hn. bits n Hn. apply word_clear; [lia|lia|apply enc_low|]. fold (enc n). lia. Qed.

Lemma clear_mark n : (n <= limit + c)%nat -> Z.land (enc n + 2 ^ k) (wnot (mark_bit q)) = enc n.
Proof. intros Hn. bits n Hn. apply word_clear; [lia|lia|apply enc_low|]. fold (enc n). lia. Qed.

Lemma wrap_lap n : (n <= limit + c)%nat -> wrapping_add (enc n) (one_lap q) = enc (n + c).
Proof.
  intros Hn. bits n Hn. rewrite enc_lap. cbn [one_lap consts]. unfold wrapping_add. apply wrap_small.
  unfold usize_MAX in *. lia.
Qed.

Lemma next_enc n : (n <= limit + c)%nat -> next_position q (enc n) = enc (S n).
Proof.
  intros Hn. bits n Hn. unfold next_position. rewrite index_enc, enc_succ. cbn [buffer_len consts].
  case_decide as Hd.
  - by rewrite (proj2 (Z.ltb_lt _ _)) by lia.
  - rewrite (proj2 (Z.ltb_ge _ _)) by lia. unfold lap_of. cbn [one_lap consts]. unfold enc at 1.
    rewrite word_high; [|lia|lia|apply enc_low|fold (enc n); lia|lia].
    unfold wrapping_add. apply wrap_small. unfold enc, usize_MAX in *. lia.
Qed.
End positions.

(** * The invariant *)

Inductive sphase := SFree (n : nat) | SWriting (n j : nat) | SFull (n : nat) | SReading (n j : nat).

Definition ticket (p : sphase) : nat :=
  match p with SFree n | SWriting n _ | SFull n | SReading n _ => n end.
(** The phases of a slot in the order in which it goes through them. *)
Definition rank (p : sphase) : nat :=
  match p with SFree n | SWriting n _ => 2 * n | SFull n | SReading n _ => 2 * n + 1 end.
Definition owner (p : sphase) : option (nat * Z * Z) :=
  match p with
  | SWriting n j => Some (0%nat, Z.of_nat j, Z.of_nat n)
  | SReading n j => Some (1%nat, Z.of_nat j, Z.of_nat n)
  | _ => None
  end.

Section inv.
Context {T : Type} `{Countable T}.
Context (c : nat) (k : Z) (Hc : (0 < c)%nat) (Hk : 0 <= k) (Hck : Z.of_nat c < 2 ^ k).
Context (limit : nat) (Hlimit : enc c k (limit + c) + 2 ^ (k + 1) <= usize_MAX).
Local Abbreviation q := (consts c k).
Local Abbreviation enc := (enc c k).
Local Abbreviation cap := (Some (Z.of_nat c)).
Local Abbreviation toks := (list_to_set_disj (A:=qtok T) (C:=gmultiset (qtok T))).

Implicit Types l : list (entry T).

Definition tail_word (l : list (entry T)) : Z := enc (length (pushed l)) + if closed_in l then 2 ^ k else 0.

Definition item_cell (l : list (entry T)) (n : nat) : cell T :=
  match pushed l !! n with Some v => Init v | None => Uninit end.

Definition stamp_of (p : sphase) : Z :=
  match p with SFree n | SWriting n _ => enc n | SFull n | SReading n _ => enc n + 1 end.
Definition cell_of (l : list (entry T)) (p : sphase) : cell T :=
  match p with
  | SFree _ | SWriting _ 0 => Uninit
  | SWriting _ 1 | SReading _ 1 => Busy
  | SFull n | SWriting n _ | SReading n 0 => item_cell l n
  | SReading _ _ => Uninit
  end.
Definition in_range (l : list (entry T)) (p : sphase) : Prop :=
  let t := length (pushed l) in
  let h := popped l in
  match p with
  | SFree n => (t <= n < h + c)%nat
  | SWriting n j => (h <= n < t /\ j <= 2)%nat
  | SFull n => (h <= n < t)%nat
  | SReading n j => (n < h /\ t <= n + c /\ j <= 2)%nat
  end.

Definition slot_ok (l : list (entry T)) (b : list (Slot T)) (i : nat) (p : sphase) : Prop :=
  (ticket p mod c)%nat = i /\ b !! i = Some (mkSlot (stamp_of p) (cell_of l p)) /\ in_range l p.

Definition slots_ok (l : list (entry T)) (b : list (Slot T)) (ps : list sphase) : Prop :=
  length ps = c /\ length b = c /\ forall i p, ps !! i = Some p -> slot_ok l b i p.

Definition owner_at (ps : list sphase) (n : Z) : option (nat * Z * Z) :=
  p ← ps !! (Z.to_nat n mod c)%nat; owner p.

(** [Tk 0 j n], [Tk 1 j n]: the push and the pop of item [n]; [Tk 2 i r]: slot
    [i] has reached rank [r]. *)
Definition tokens_ok (ps : list sphase) (m : gmultiset (qtok T)) : Prop :=
  (forall kd a n, (kd < 2)%nat -> multiplicity (Tk kd a n) m = if decide (owner_at ps n = Some (kd, a, n)) then 1%nat else 0%nat) /\
  (forall i r, Tk 2 (Z.of_nat i) r ∈ m -> exists p, ps !! i = Some p /\ r <= Z.of_nat (rank p)).

Definition binv (σ : Bounded T) (m : gmultiset (qtok T)) : Prop :=
  hist_inv cap (blog σ) m /\
  (length (pushed (blog σ)) + multiplicity Budget m <= limit)%nat /\
  head σ = enc (popped (blog σ)) /\ tail σ = tail_word (blog σ) /\
  exists ps, slots_ok (blog σ) (buffer σ) ps /\ tokens_ok ps m.

(** ** Counts *)

Lemma counts l qa : state_at cap l = Some qa ->
  (popped l <= length (pushed l) <= popped l + c)%nat /\ closed qa = closed_in l /\
  items qa = drop (popped l) (pushed l) /\ Z.of_nat (length (items qa)) = Z.of_nat (length (pushed l)) - Z.of_nat (popped l).
Proof.
  intros (Hi & Hle & Hcl & Hcap)%state_at_counts. specialize (Hcap ltac:(lia)).
  rewrite Hi, length_drop in Hcap. rewrite Hi, length_drop. split_and!; try done; lia.
Qed.

Lemma tail_word_mark l : has (tail_word l) (mark_bit q) = closed_in l.
Proof.
  unfold tail_word. destruct (closed_in l); [by apply mark_set|]. rewrite Z.add_0_r. by apply mark_enc.
Qed.

Lemma tail_word_clear l : (length (pushed l) <= limit)%nat ->
  Z.land (tail_word l) (wnot (mark_bit q)) = enc (length (pushed l)).
Proof.
  intros Hl. unfold tail_word. destruct (closed_in l); [eapply clear_mark; eauto; lia|].
  rewrite Z.add_0_r. eapply clear_enc; eauto; lia.
Qed.

Lemma tail_word_inj l l' : (length (pushed l) <= limit)%nat -> (length (pushed l') <= limit)%nat ->
  tail_word l = tail_word l' -> length (pushed l) = length (pushed l') /\ closed_in l = closed_in l'.
Proof.
  intros Hl Hl' E. split.
  - apply (stamp_inj c k); [done..|]. rewrite <- !tail_word_clear by done. by rewrite E.
  - by rewrite <- !tail_word_mark, E.
Qed.

Lemma tail_word_index l : index_of q (tail_word l) = Z.of_nat (length (pushed l) mod c).
Proof.
  unfold tail_word. destruct (closed_in l); [by apply index_mark|]. rewrite Z.add_0_r. by apply index_enc.
Qed.

(** ** The slots *)

Lemma slots_lookup l b ps n : slots_ok l b ps -> exists p, ps !! (n mod c)%nat = Some p /\ slot_ok l b (n mod c) p.
Proof.
  intros (Hps & _ & Hs). pose proof (Nat.mod_upper_bound n c).
  destruct (lookup_lt_is_Some_2 ps (n mod c)) as [p Hp]; [lia|]. eauto.
Qed.

(** The history goes on, and one slot with it. *)
Lemma slots_log l l' b ps i p p' :
  slots_ok l b ps -> ps !! i = Some p -> slot_ok l' b i p' ->
  (forall j p, j <> i -> ps !! j = Some p -> slot_ok l b j p -> slot_ok l' b j p) ->
  slots_ok l' b (<[i := p']> ps).
Proof.
  intros (Hps & Hb & Hs) Hi Hp' Hrest. split_and!; [by rewrite length_insert|done|]. intros j r.
  destruct (decide (i = j)) as [->|Hne].
  - rewrite list_lookup_insert_eq by by eapply lookup_lt_Some. by intros [= <-].
  - rewrite list_lookup_insert_ne by done. intros Hj. apply Hrest; auto.
Qed.

Lemma slots_close l b ps : slots_ok l b ps -> slots_ok (l ++ [EClose]) b ps.
Proof.
  intros (Hps & Hb & Hs). split_and!; [done|done|]. intros i p Hi. destruct (Hs i p Hi) as (Ht & Hbi & Hr).
  assert (Hp : popped (l ++ [EClose]) = popped l) by (rewrite popped_app; cbn; lia).
  assert (Hl : pushed (l ++ [EClose]) = pushed l) by (rewrite pushed_app; cbn; by rewrite app_nil_r).
  split_and!; [done| |].
  - rewrite Hbi. unfold cell_of, item_cell. by rewrite Hl.
  - unfold in_range in *. by rewrite Hl, Hp.
Qed.

Lemma item_cell_app l e n : (n < length (pushed l))%nat -> item_cell (l ++ [e]) n = item_cell l n.
Proof. intros Hn. unfold item_cell. by rewrite pushed_app, lookup_app_l. Qed.

Lemma slots_push l b ps v :
  slots_ok l b ps -> (popped l <= length (pushed l))%nat ->
  ps !! (length (pushed l) mod c)%nat = Some (SFree (length (pushed l))) ->
  slots_ok (l ++ [EPush v]) b (<[(length (pushed l) mod c)%nat := SWriting (length (pushed l)) 0]> ps).
Proof.
  intros Hs Hle Hi. pose proof Hs as (_ & _ & Hslot). destruct (Hslot _ _ Hi) as (Ht & Hb & Hr).
  assert (Hp : popped (l ++ [EPush v]) = popped l) by (rewrite popped_app; cbn; lia).
  assert (Hl : length (pushed (l ++ [EPush v])) = S (length (pushed l))) by (rewrite pushed_app, length_app; cbn; lia).
  eapply slots_log; [done|done| |].
  - split_and!; [done|done|]. cbn. rewrite Hp, Hl. lia.
  - intros j p Hj Hpj (Ht' & Hb' & Hr').
    assert (Hne : ticket p <> length (pushed l)) by (intros E; apply Hj; by rewrite <- Ht', E).
    split_and!; [done| |].
    + rewrite Hb'. do 2 f_equal. destruct p as [n|n [|[|?]]|n|n [|[|?]]]; cbn in Hr' |- *; try done;
        symmetry; apply item_cell_app; lia.
    + destruct p as [n|n j'|n|n j']; cbn in Hr', Hne |- *; rewrite Hp, Hl; try lia.
      assert (length (pushed l) <> n + c)%nat; [|lia]. intros E. apply Hj. cbn in Ht'. rewrite <- Ht', E.
      replace (n + c)%nat with (n + 1 * c)%nat by lia. by rewrite Nat.Div0.mod_add.
Qed.

Lemma slots_pop l b ps v :
  slots_ok l b ps -> (popped l < length (pushed l) <= popped l + c)%nat ->
  ps !! (popped l mod c)%nat = Some (SFull (popped l)) ->
  slots_ok (l ++ [EPop v]) b (<[(popped l mod c)%nat := SReading (popped l) 0]> ps).
Proof.
  intros Hs Hle Hi. pose proof Hs as (_ & _ & Hslot). destruct (Hslot _ _ Hi) as (Ht & Hb & Hr).
  assert (Hp : popped (l ++ [EPop v]) = S (popped l)) by (rewrite popped_app; cbn; lia).
  assert (Hl : pushed (l ++ [EPop v]) = pushed l) by (rewrite pushed_app; cbn; by rewrite app_nil_r).
  eapply slots_log; [done|done| |].
  - split_and!; [done| |].
    + rewrite Hb. unfold cell_of, item_cell. by rewrite Hl.
    + cbn. rewrite Hp, Hl. lia.
  - intros j p Hj Hpj (Ht' & Hb' & Hr').
    assert (Hne : ticket p <> popped l) by (intros E; apply Hj; by rewrite <- Ht', E).
    split_and!; [done| |].
    + rewrite Hb'. do 2 f_equal. unfold cell_of, item_cell. by rewrite Hl.
    + destruct p as [n|n j'|n|n j']; cbn in Hr', Hne |- *; rewrite Hp, Hl; lia.
Qed.

Lemma slots_move l b ps i p p' :
  slots_ok l b ps -> ps !! i = Some p -> (ticket p' mod c)%nat = i -> in_range l p' ->
  slots_ok l (<[i := mkSlot (stamp_of p') (cell_of l p')]> b) (<[i := p']> ps).
Proof.
  intros (Hps & Hb & Hs) Hi Ht Hr. pose proof (lookup_lt_Some _ _ _ Hi).
  split_and!; [by rewrite length_insert..|]. intros j r. destruct (decide (i = j)) as [<-|Hne].
  - rewrite list_lookup_insert_eq by done. intros [= <-]. split_and!; [done| |done].
    by rewrite list_lookup_insert_eq by lia.
  - rewrite list_lookup_insert_ne by done. intros Hj. destruct (Hs _ _ Hj) as (Ht' & Hb' & Hr').
    split_and!; [done| |done]. by rewrite list_lookup_insert_ne.
Qed.

(** ** The tokens *)

Lemma owner_ticket p kd a n : owner p = Some (kd, a, n) -> n = Z.of_nat (ticket p).
Proof. by destruct p; intros [= <- <- <-]. Qed.

Lemma tokens_move ps i p p' L L' fr :
  tokens_ok ps (toks L ⊎ fr) -> ps !! i = Some p -> (ticket p mod c)%nat = i -> (ticket p' mod c)%nat = i ->
  (rank p <= rank p')%nat ->
  (forall kd a n, (kd < 2)%nat ->
     (occ (Tk kd a n) L' + Single.ind (owner p) kd a n = occ (Tk kd a n) L + Single.ind (owner p') kd a n)%nat) ->
  (forall j r, Tk 2 (Z.of_nat j) r ∈ L' -> Tk 2 (Z.of_nat j) r ∈ L \/ exists p1, <[i := p']> ps !! j = Some p1 /\ r <= Z.of_nat (rank p1)) ->
  tokens_ok (<[i := p']> ps) (toks L' ⊎ fr).
Proof.
  intros [Hown Hlb] Hi Ht Ht' Hrank Ho Hl. pose proof (lookup_lt_Some _ _ _ Hi) as Hlt. split.
  - intros kd a n Hkd. specialize (Hown kd a n Hkd). specialize (Ho kd a n Hkd). unfold Single.ind in Ho.
    rewrite multiplicity_disj_union, multiplicity_list in *. unfold owner_at in *.
    destruct (decide ((Z.to_nat n mod c)%nat = i)) as [E|E].
    + rewrite E, Hi in Hown. rewrite E, list_lookup_insert_eq by done. cbn in *. lia.
    + rewrite list_lookup_insert_ne by done.
      rewrite !(decide_False (P := owner _ = _)) in Ho; [lia|..]; intros Hx%owner_ticket; apply E;
        by rewrite Hx, Nat2Z.id.
  - intros j r [Hin|Hin]%gmultiset_elem_of_disj_union.
    + apply elem_of_list_to_set_disj, Hl in Hin as [Hin|?]; [|done].
      destruct (Hlb j r) as (p1 & Hp1 & Hr); [apply gmultiset_elem_of_disj_union; left; by apply elem_of_list_to_set_disj|].
      destruct (decide (i = j)) as [<-|Hne]; [|exists p1; by rewrite list_lookup_insert_ne].
      exists p'. rewrite list_lookup_insert_eq by done. split; [done|]. simplify_eq. lia.
    + destruct (Hlb j r) as (p1 & Hp1 & Hr); [apply gmultiset_elem_of_disj_union; by right|].
      destruct (decide (i = j)) as [<-|Hne]; [|exists p1; by rewrite list_lookup_insert_ne].
      exists p'. rewrite list_lookup_insert_eq by done. split; [done|]. simplify_eq. lia.
Qed.

Lemma tokens_keep ps L L' fr :
  tokens_ok ps (toks L ⊎ fr) ->
  (forall kd a n, (kd < 2)%nat -> occ (Tk kd a n) L' = occ (Tk kd a n) L) ->
  (forall j r, Tk 2 (Z.of_nat j) r ∈ L' -> Tk 2 (Z.of_nat j) r ∈ L \/ exists p1, ps !! j = Some p1 /\ r <= Z.of_nat (rank p1)) ->
  tokens_ok ps (toks L' ⊎ fr).
Proof.
  intros [Hown Hlb] Ho Hl. split.
  - intros kd a n Hkd. rewrite <- Hown by done. rewrite !multiplicity_disj_union, !multiplicity_list, Ho; done.
  - intros j r [Hin|Hin]%gmultiset_elem_of_disj_union; [|apply Hlb, gmultiset_elem_of_disj_union; by right].
    apply elem_of_list_to_set_disj, Hl in Hin as [Hin|?]; [|done].
    apply Hlb, gmultiset_elem_of_disj_union. left. by apply elem_of_list_to_set_disj.
Qed.

Lemma tokens_own ps L fr kd a n :
  tokens_ok ps (toks L ⊎ fr) -> (kd < 2)%nat -> Tk kd a (Z.of_nat n) ∈ L ->
  exists p, ps !! (n mod c)%nat = Some p /\ owner p = Some (kd, a, Z.of_nat n).
Proof.
  intros [Hown _] Hkd Hin%occ_elem. specialize (Hown kd a (Z.of_nat n) Hkd).
  rewrite multiplicity_disj_union, multiplicity_list in Hown. case_decide as E; [|lia].
  unfold owner_at in E. rewrite Nat2Z.id in E. destruct (ps !! _) as [p|]; [|done]. by exists p.
Qed.

Lemma tokens_rank ps L fr i r :
  tokens_ok ps (toks L ⊎ fr) -> Tk 2 (Z.of_nat i) r ∈ L -> exists p, ps !! i = Some p /\ r <= Z.of_nat (rank p).
Proof. intros [_ Hlb] Hin. apply Hlb, gmultiset_elem_of_disj_union. left. by apply elem_of_list_to_set_disj. Qed.

(** ** Actions *)

(** Tokens [L] given up for [L'] while the history stays [l]. *)
Definition exchange l (L L' : list (qtok T)) : Prop :=
  occ Bad L' = occ Bad L /\ (forall x, Lb x ∈ L' -> Lb x ∈ L \/ x `prefix_of` l) /\
  (forall n, occ (Did n) L' = occ (Did n) L) /\ (occ Budget L' <= occ Budget L)%nat.

Lemma exchange_hist l L L' fr n :
  exchange l L L' -> hist_inv cap l (toks L ⊎ fr) -> (n + multiplicity Budget (toks L ⊎ fr) <= limit)%nat ->
  hist_inv cap l (toks L' ⊎ fr) /\ (n + multiplicity Budget (toks L' ⊎ fr) <= limit)%nat.
Proof.
  intros (Hb & Hl & Hd & Hg) Hh Hn. split.
  - eapply hist_inv_step; [exact Hh|done|apply Hh|done|done|]. intros j. rewrite Hd, decide_False by lia. lia.
  - rewrite multiplicity_disj_union, multiplicity_list in *. lia.
Qed.

(** An action that reads a position. *)
Lemma ok_look {A} (f : Bounded T -> A) L (Q : gmultiset (qtok T) -> A -> Prop) :
  (forall σ fr ps, binv σ (toks L ⊎ fr) -> slots_ok (blog σ) (buffer σ) ps -> tokens_ok ps (toks L ⊎ fr) -> exists L',
     exchange (blog σ) L L' /\ (forall kd a n, (kd < 2)%nat -> occ (Tk kd a n) L' = occ (Tk kd a n) L) /\
     (forall j r, Tk 2 (Z.of_nat j) r ∈ L' -> Tk 2 (Z.of_nat j) r ∈ L) /\ Q (toks L') (f σ)) ->
  ok binv (toks L) (atomic (fun σ => (f σ, σ))) Q.
Proof.
  intros HQ. apply ok_atomic. intros σ fr HI. pose proof HI as (Hh & Hn & Hhd & Htl & ps & Hs & Ht).
  destruct (HQ σ fr ps HI Hs Ht) as (L' & Hx & Ho & Hr & HQ'). exists (toks L'). split; [|done].
  destruct (exchange_hist _ _ _ _ _ Hx Hh Hn). split_and!; [done..|]. exists ps. split; [done|].
  eapply tokens_keep; [done|done|]. intros j r Hin. left. by apply Hr.
Qed.

(** An action on a slot. *)
Lemma ok_slot {A} i (f : Slot T -> option (A * Slot T)) L (Q : gmultiset (qtok T) -> A -> Prop) :
  (i < c)%nat ->
  (forall σ fr ps p, binv σ (toks L ⊎ fr) -> tokens_ok ps (toks L ⊎ fr) -> ps !! i = Some p ->
     slot_ok (blog σ) (buffer σ) i p ->
     exists a p' L', f (mkSlot (stamp_of p) (cell_of (blog σ) p)) = Some (a, mkSlot (stamp_of p') (cell_of (blog σ) p')) /\
     (ticket p' mod c)%nat = i /\ in_range (blog σ) p' /\ (rank p <= rank p')%nat /\ exchange (blog σ) L L' /\
     (forall kd b n, (kd < 2)%nat ->
        (occ (Tk kd b n) L' + Single.ind (owner p) kd b n = occ (Tk kd b n) L + Single.ind (owner p') kd b n)%nat) /\
     (forall j r, Tk 2 (Z.of_nat j) r ∈ L' -> Tk 2 (Z.of_nat j) r ∈ L \/ (j = i /\ r <= Z.of_nat (rank p'))) /\
     Q (toks L') a) ->
  ok binv (toks L) (on_slot (Z.of_nat i) f) Q.
Proof.
  intros Hi HQ σ fr HI. pose proof HI as (Hh & Hn & Hhd & Htl & ps & Hs & Ht).
  pose proof Hs as (Hps & Hb & Hslot). destruct (lookup_lt_is_Some_2 ps i) as [p Hp]; [lia|].
  destruct (HQ σ fr ps p HI Ht Hp (Hslot _ _ Hp)) as (a & p' & L' & Hf & Htk & Hr & Hrk & Hx & Ho & Hl & HQ').
  destruct (Hslot _ _ Hp) as (Htp & Hbi & _). rewrite Nat2Z.id, Hbi. cbn [mbind option_bind]. rewrite Hf.
  right. exists (toks L'). split; [|done].
  destruct (exchange_hist _ _ _ _ _ Hx Hh Hn). split_and!; [done..|].
  exists (<[i := p']> ps). split; [by eapply slots_move|]. eapply tokens_move; try done.
  intros j r Hin. destruct (Hl j r Hin) as [?|[-> Hle]]; [by left|]. right. exists p'.
  rewrite list_lookup_insert_eq; [done|]. by eapply lookup_lt_Some.
Qed.
Ltac exchange := split_and!; [by cbn|hist_side| |];
  [intros ?; cbn [occ]; repeat case_decide; simplify_eq; lia
  |cbn [occ]; repeat case_decide; simplify_eq; lia].
Ltac tk_side := intros ? ? ? ?; cbn [occ owner app]; unfold Single.ind; repeat case_decide; simplify_eq; try done; lia.
Ltac lb_side := intros ? ? Hin; repeat first
  [ apply elem_of_cons in Hin as [Hin|Hin]; [simplify_eq; first [left; set_solver_lite|right; done|right; split; [lia|done]]|]
  | by apply elem_of_nil in Hin ].

Local Abbreviation slot n := (Z.of_nat (n mod c)%nat).

Ltac eight := refine (conj _ (conj _ (conj _ (conj _ (conj _ (conj _ (conj _ _))))))).

(** The thread that owns the slot finds it in its own phase. *)
Ltac owned Ht Hp Ho kd a n :=
  let p1 := fresh "p" in let Hp1 := fresh in
  destruct (tokens_own _ _ _ kd a n Ht ltac:(lia) ltac:(set_solver_lite)) as (p1 & Hp1 & Ho);
  rewrite Hp in Hp1; injection Hp1 as <-.

Lemma ok_write_value n v l d (Q : gmultiset (qtok T) -> unit -> Prop) :
  pushed l !! n = Some v -> Q (toks [Lb l; d; Tk 0 2 (Z.of_nat n)]) () ->
  ok binv (toks [Lb l; d; Tk 0 0 (Z.of_nat n)]) (write_value (slot n) v) Q.
Proof.
  intros Hv HQ. pose proof (Nat.mod_upper_bound n c). apply ok_bind, ok_slot; [lia|].
  intros σ fr ps p HI Ht Hp (Htk & Hb & Hr). owned Ht Hp Ho 0%nat 0 n.
  destruct p as [|n' j| |]; try done. cbn in Ho. assert (n' = n /\ j = 0%nat) as [-> ->] by (injection Ho; lia).
  exists (), (SWriting n 1), [Lb l; d; Tk 0 1 (Z.of_nat n)].
  eight; [done|done|cbn in Hr |- *; lia|cbn; lia|exchange|tk_side|lb_side|]. clear -Hc Hv HQ Hk Hck Hlimit.
  pose proof (Nat.mod_upper_bound n c). apply ok_slot; [lia|].
  intros σ fr ps p HI Ht Hp (Htk & Hb & Hr). owned Ht Hp Ho 0%nat 1 n.
  destruct p as [|n' j| |]; try done. cbn in Ho. assert (n' = n /\ j = 1%nat) as [-> ->] by (injection Ho; lia).
  assert (Hl : l `prefix_of` blog σ) by (eapply hist_inv_lb; [apply HI|set_solver_lite]).
  exists (), (SWriting n 2), [Lb l; d; Tk 0 2 (Z.of_nat n)].
  eight; [|done|cbn in Hr |- *; lia|cbn; lia|exchange|tk_side|lb_side|done].
  cbn. unfold item_cell. by rewrite (pushed_lookup _ _ _ _ Hl Hv).
Qed.

Lemma ok_store_write n l d (Q : gmultiset (qtok T) -> unit -> Prop) :
  Q (toks [Lb l; d]) () ->
  ok binv (toks [Lb l; d; Tk 0 2 (Z.of_nat n)]) (store_stamp (slot n) (enc n + 1)) Q.
Proof.
  intros HQ. pose proof (Nat.mod_upper_bound n c). apply ok_slot; [lia|].
  intros σ fr ps p HI Ht Hp (Htk & Hb & Hr). owned Ht Hp Ho 0%nat 2 n.
  destruct p as [|n' j| |]; try done. cbn in Ho. assert (n' = n /\ j = 2%nat) as [-> ->] by (injection Ho; lia).
  exists (), (SFull n), [Lb l; d].
  eight; [done|done|cbn in Hr |- *; lia|cbn; lia|exchange|tk_side|lb_side|done].
Qed.

Lemma ok_read_value n v l d (Q : gmultiset (qtok T) -> T -> Prop) :
  pushed l !! n = Some v -> Q (toks [Lb l; d; Tk 1 2 (Z.of_nat n)]) v ->
  ok binv (toks [Lb l; d; Tk 1 0 (Z.of_nat n)]) (read_value (slot n)) Q.
Proof.
  intros Hv HQ. pose proof (Nat.mod_upper_bound n c). apply ok_bind, ok_slot; [lia|].
  intros σ fr ps p HI Ht Hp (Htk & Hb & Hr). owned Ht Hp Ho 1%nat 0 n.
  destruct p as [| | |n' j]; try done. cbn in Ho. assert (n' = n /\ j = 0%nat) as [-> ->] by (injection Ho; lia).
  assert (Hl : l `prefix_of` blog σ) by (eapply hist_inv_lb; [apply HI|set_solver_lite]).
  exists v, (SReading n 1), [Lb l; d; Tk 1 1 (Z.of_nat n)].
  eight; [|done|cbn in Hr |- *; lia|cbn; lia|exchange|tk_side|lb_side|].
  { cbn. unfold item_cell. by rewrite (pushed_lookup _ _ _ _ Hl Hv). }
  clear -Hc Hv HQ Hk Hck Hlimit. pose proof (Nat.mod_upper_bound n c). apply ok_slot; [lia|].
  intros σ fr ps p HI Ht Hp (Htk & Hb & Hr). owned Ht Hp Ho 1%nat 1 n.
  destruct p as [| | |n' j]; try done. cbn in Ho. assert (n' = n /\ j = 1%nat) as [-> ->] by (injection Ho; lia).
  exists v, (SReading n 2), [Lb l; d; Tk 1 2 (Z.of_nat n)].
  eight; [done|done|cbn in Hr |- *; lia|cbn; lia|exchange|tk_side|lb_side|done].
Qed.

Lemma ok_store_read n l d (Q : gmultiset (qtok T) -> unit -> Prop) :
  (n <= limit)%nat -> Q (toks [Lb l; d]) () ->
  ok binv (toks [Lb l; d; Tk 1 2 (Z.of_nat n)]) (store_stamp (slot n) (wrapping_add (enc n) (one_lap q))) Q.
Proof.
  intros Hn HQ. pose proof (Nat.mod_upper_bound n c). erewrite wrap_lap by (eauto; lia). apply ok_slot; [lia|].
  intros σ fr ps p HI Ht Hp (Htk & Hb & Hr). owned Ht Hp Ho 1%nat 2 n.
  destruct p as [| | |n' j]; try done. cbn in Ho. assert (n' = n /\ j = 2%nat) as [-> ->] by (injection Ho; lia).
  exists (), (SFree (n + c)), [Lb l; d].
  eight; [done| |cbn in Hr |- *; lia|cbn; lia|exchange|tk_side|lb_side|done].
  cbn. replace (n + c)%nat with (n + 1 * c)%nat by lia. by rewrite Nat.Div0.mod_add.
Qed.

(** What a thread knows of the history it reads. *)
Definition valid l : Prop :=
  (exists qa, state_at cap l = Some qa) /\ (length (pushed l) <= limit)%nat /\
  (popped l <= length (pushed l) <= popped l + c)%nat.

Lemma binv_valid σ m : binv σ m -> valid (blog σ).
Proof.
  intros ((Hq & _) & Hn & _). split; [done|]. destruct Hq as [qa Hq].
  destruct (counts _ _ Hq) as [? _]. lia.
Qed.

(** Nothing but [Lb], [Did] and [Budget], the latter only given up. *)
Definition plain (L : list (qtok T)) : Prop := forall kd a n, Tk kd a n ∉ L.

Lemma plain_occ L kd a n : plain L -> occ (Tk kd a n) L = 0%nat.
Proof. intros Hp. destruct (decide (occ (Tk kd a n) L = 0%nat)) as [|Hne]; [done|]. by apply occ_elem, Hp in Hne. Qed.

(** Positions are read; a rank token may be forgotten. *)
Lemma ok_load (f : Bounded T -> Z * list (entry T)) (w : list (entry T) -> Z) L (Q : gmultiset (qtok T) -> Z * list (entry T) -> Prop) :
  (forall σ m, binv σ m -> f σ = (w (blog σ), blog σ)) ->
  (forall kd a n, (kd < 2)%nat -> Tk kd a n ∉ L) ->
  (forall l', valid l' -> (forall x, Lb x ∈ L -> x `prefix_of` l') -> exists L', exchange l' L L' /\ plain L' /\ Q (toks L') (w l', l')) ->
  ok binv (toks L) (atomic (fun σ => (f σ, σ))) Q.
Proof.
  intros Hf Hn HQ. apply ok_look. intros σ fr ps HI Hs Ht.
  destruct (HQ (blog σ)) as (L' & Hx & Hp & HQ').
  { by eapply binv_valid. }
  { intros x Hin. eapply hist_inv_lb; [apply HI|done]. }
  exists L'. split; [done|]. split_and!.
  - intros kd a n Hkd. rewrite plain_occ by done. destruct (decide (occ (Tk kd a n) L = 0%nat)) as [->|Hne]; [done|].
    apply occ_elem in Hne. by apply Hn in Hne.
  - intros j r Hin. by apply Hp in Hin.
  - by rewrite (Hf σ _ HI).
Qed.

Ltac plain_side :=
  try unfold plain; intros; let Hin := fresh in intros Hin;
  repeat (apply elem_of_cons in Hin as [Hin|Hin]; [simplify_eq; try done; lia|]); by apply elem_of_nil in Hin.

Lemma ok_load_tail L (Q : gmultiset (qtok T) -> Z * list (entry T) -> Prop) :
  (forall kd a n, (kd < 2)%nat -> Tk kd a n ∉ L) ->
  (forall l', valid l' -> (forall x, Lb x ∈ L -> x `prefix_of` l') ->
     exists L', exchange l' L L' /\ plain L' /\ Q (toks L') (tail_word l', l')) ->
  ok binv (toks L) load_tail Q.
Proof. apply (ok_load (fun σ => (tail σ, blog σ))). intros σ m (_ & _ & _ & -> & _). done. Qed.

Lemma ok_load_head L (Q : gmultiset (qtok T) -> Z * list (entry T) -> Prop) :
  (forall kd a n, (kd < 2)%nat -> Tk kd a n ∉ L) ->
  (forall l', valid l' -> (forall x, Lb x ∈ L -> x `prefix_of` l') ->
     exists L', exchange l' L L' /\ plain L' /\ Q (toks L') (enc (popped l'), l')) ->
  ok binv (toks L) load_head Q.
Proof. apply (ok_load (fun σ => (head σ, blog σ))). intros σ m (_ & _ & -> & _). done. Qed.

(** The stamp of slot [n mod c], and the rank of the phase it shows. *)
Lemma ok_load_stamp n L (Q : gmultiset (qtok T) -> Z -> Prop) :
  (forall p, (ticket p mod c)%nat = (n mod c)%nat ->
     Q (toks (L ++ [Tk 2 (slot n) (Z.of_nat (rank p))])) (stamp_of p)) ->
  ok binv (toks L) (load_stamp (slot n)) Q.
Proof.
  intros HQ. pose proof (Nat.mod_upper_bound n c). apply ok_slot; [lia|].
  intros σ fr ps p HI Ht Hp (Htk & Hb & Hr).
  exists (stamp_of p), p, (L ++ [Tk 2 (slot n) (Z.of_nat (rank p))]).
  assert (Hocc : forall x, (forall a b, x <> Tk 2 a b) -> occ x (L ++ [Tk 2 (slot n) (Z.of_nat (rank p))]) = occ x L).
  { intros x Hx. rewrite occ_app. cbn. rewrite decide_False by apply Hx. lia. }
  eight; [done|done|done|done| | | |by apply HQ].
  - split_and!; [by apply Hocc| |by intros; apply Hocc|by rewrite Hocc].
    intros x Hin%elem_of_app. destruct Hin as [?|Hin]; [by left|]. by apply list_elem_of_singleton in Hin.
  - intros kd a b Hkd. rewrite Hocc; [done|]. intros a' b' [= -> _ _]. lia.
  - intros j r Hin%elem_of_app. destruct Hin as [?|Hin]; [by left|]. right.
    apply list_elem_of_singleton in Hin. simplify_eq. lia.
Qed.

Lemma same_slot m n : (m mod c = n mod c)%nat -> (n <= m < n + c)%nat -> m = n.
Proof.
  intros E Hm. pose proof (Nat.div_mod_eq m c). pose proof (Nat.div_mod_eq n c).
  assert (m / c = n / c)%nat; [|lia]. apply Nat.le_antisymm; [|apply Nat.Div0.div_le_mono; lia].
  apply Nat.lt_succ_r, (Nat.mul_lt_mono_pos_l c); lia.
Qed.

(** A marked tail already says that the push fails. *)
Definition push_tokens l : list (qtok T) := if closed_in l then [Lb l] else [Budget; Lb l].

Lemma push_exchange l l' L : (exists x, L = [Budget; Lb l; Tk 2 (fst x) (snd x)]) \/ L = [Budget; Lb l] \/ L = [Budget] ->
  exchange l' L (push_tokens l') /\ plain (push_tokens l').
Proof.
  unfold push_tokens. intros [[[a b] ->]|[-> | ->]]; cbn [fst snd]; destruct (closed_in l'); (split; [exchange|plain_side]).
Qed.

Lemma tail_word_open l : closed_in l = false -> tail_word l = enc (length (pushed l)).
Proof. unfold tail_word. intros ->. lia. Qed.

Lemma tail_word_eq l n : (length (pushed l) <= limit)%nat -> (n <= limit)%nat -> tail_word l = enc n ->
  length (pushed l) = n /\ closed_in l = false.
Proof.
  intros Hl Hn E. split.
  - apply (stamp_inj c k); [done..|]. rewrite <- (tail_word_clear l) by done. rewrite E. eapply clear_enc; eauto; lia.
  - rewrite <- tail_word_mark, E. by apply mark_enc.
Qed.

Lemma ok_cas_tail n v l (Q : gmultiset (qtok T) -> Z * list (entry T) -> Prop) :
  (n <= limit)%nat ->
  (forall l', valid l' -> l `prefix_of` l' -> tail_word l' <> enc n -> Q (toks (push_tokens l')) (tail_word l', l')) ->
  (forall l', l `prefix_of` l' -> length (pushed l') = n -> (exists qa, state_at cap (l' ++ [EPush v]) = Some qa) ->
     Q (toks [Lb (l' ++ [EPush v]); Did (S (length l')); Tk 0 0 (Z.of_nat n)]) (enc n, l')) ->
  ok binv (toks [Budget; Lb l; Tk 2 (slot n) (Z.of_nat (2 * n))]) (cas_tail (enc n) (next_position q (enc n)) v) Q.
Proof.
  intros Hn Hfail Hok. apply ok_atomic. intros σ fr HI.
  pose proof HI as (Hh & Hbud & Hhd & Htl & ps & Hs & Ht). pose proof (binv_valid _ _ HI) as Hv.
  assert (Hl : l `prefix_of` blog σ) by (eapply hist_inv_lb; [apply Hh|set_solver_lite]).
  cbn [fst snd]. destruct (Z.eqb_spec (tail σ) (enc n)) as [E|E].
  - pose proof Hv as ((qa & Hqa) & HT & HHT). rewrite Htl in E. pose proof E as Etw.
    apply tail_word_eq in E as [E Eopen]; [|lia..].
    destruct (tokens_rank _ _ _ (n mod c)%nat (Z.of_nat (2 * n)) Ht ltac:(set_solver_lite)) as (p & Hp & Hrk).
    pose proof Hs as (_ & _ & Hslot). destruct (Hslot _ _ Hp) as (Htk & Hbp & Hr).
    assert (p = SFree n) as ->.
    { destruct p as [m|m j|m|m j]; cbn in Hrk, Hr, Htk; [|lia..]. f_equal. apply same_slot; lia. }
    assert (Hnew : state_at cap (blog σ ++ [EPush v]) = Some (mkAq (items qa ++ [v]) false)).
    { rewrite state_at_snoc, Hqa. cbn. destruct (counts _ _ Hqa) as (_ & Hcl & _ & Hlen).
      rewrite Hcl, Eopen. cbn. unfold full. rewrite (proj2 (Z.leb_gt _ _)); [done|]. cbn in Hr. lia. }
    rewrite Htl, Etw.
    eexists. split; [|by apply Hok; [done|done|eexists]].
    assert (Hn' : length (pushed (blog σ ++ [EPush v])) = S n) by (rewrite pushed_app, length_app; cbn; lia).
    assert (Hp' : popped (blog σ ++ [EPush v]) = popped (blog σ)) by (rewrite popped_app; cbn; lia).
    split_and!.
    + cbn [blog]. eapply hist_inv_step; [exact Hh|by apply prefix_app_r|by eexists|hist_side..].
    + cbn [blog]. rewrite Hn'. rewrite multiplicity_disj_union, multiplicity_list in *.
      cbn [occ] in *. repeat case_decide; simplify_eq; lia.
    + cbn [blog head]. by rewrite Hp'.
    + cbn [blog tail]. rewrite tail_word_open by (rewrite closed_app, Eopen; done). rewrite Hn'. eapply next_enc; eauto; lia.
    + exists (<[(n mod c)%nat := SWriting n 0]> ps). split.
      * cbn [blog buffer]. rewrite <- E. apply slots_push; [done|lia|by rewrite E].
      * eapply tokens_move; [exact Ht|exact Hp|done|done|cbn; lia|tk_side|].
        intros j r Hin. repeat (apply elem_of_cons in Hin as [?|Hin]; [done|]). by apply elem_of_nil in Hin.
  - exists (toks (push_tokens (blog σ))). rewrite Htl. rewrite Htl in E. split; [|by apply Hfail].
    destruct (push_exchange l (blog σ) [Budget; Lb l; Tk 2 (slot n) (Z.of_nat (2 * n))]) as [Hx Hp].
    { left. by exists (slot n, Z.of_nat (2 * n)). }
    destruct (exchange_hist _ _ _ _ _ Hx Hh Hbud). split_and!; try done. exists ps. split; [done|].
    eapply tokens_keep; [exact Ht| |].
    + intros kd a m Hkd. rewrite plain_occ by done. cbn [occ]. repeat case_decide; simplify_eq; lia.
    + intros j r Hin. by apply Hp in Hin.
Qed.

Lemma ok_cas_head n l (Q : gmultiset (qtok T) -> Z * list (entry T) -> Prop) :
  (n <= limit)%nat ->
  (forall l', valid l' -> l `prefix_of` l' -> enc (popped l') <> enc n -> Q (toks [Lb l']) (enc (popped l'), l')) ->
  (forall l' v, l `prefix_of` l' -> (exists qa, state_at cap (l' ++ [EPop v]) = Some qa) -> pushed l' !! n = Some v ->
     Q (toks [Lb (l' ++ [EPop v]); Did (S (length l')); Tk 1 0 (Z.of_nat n)]) (enc n, l')) ->
  ok binv (toks [Lb l; Tk 2 (slot n) (Z.of_nat (2 * n + 1))]) (cas_head q (enc n) (next_position q (enc n))) Q.
Proof.
  intros Hn Hfail Hok. apply ok_atomic. intros σ fr HI.
  pose proof HI as (Hh & Hbud & Hhd & Htl & ps & Hs & Ht). pose proof (binv_valid _ _ HI) as Hv.
  assert (Hl : l `prefix_of` blog σ) by (eapply hist_inv_lb; [apply Hh|set_solver_lite]).
  cbn [fst snd]. destruct (Z.eqb_spec (head σ) (enc n)) as [E|E].
  - pose proof Hv as ((qa & Hqa) & HT & HHT). rewrite Hhd in E. pose proof E as Ehd.
    apply (stamp_inj c k) in E; [|done..].
    destruct (tokens_rank _ _ _ (n mod c)%nat (Z.of_nat (2 * n + 1)) Ht ltac:(set_solver_lite)) as (p & Hp & Hrk).
    pose proof Hs as (_ & _ & Hslot). destruct (Hslot _ _ Hp) as (Htk & Hbp & Hr).
    assert (p = SFull n) as ->.
    { destruct p as [m|m j|m|m j]; cbn in Hrk, Hr, Htk; [| | |lia].
      - assert (m = n); [|lia]. apply same_slot; lia.
      - assert (m = n); [|lia]. apply same_slot; lia.
      - f_equal. apply same_slot; lia. }
    destruct (lookup_lt_is_Some_2 (pushed (blog σ)) n) as [v Hvn]; [cbn in Hr; lia|].
    destruct (counts _ _ Hqa) as (_ & Hcl & Hit & Hlen).
    assert (Hfront : items qa = v :: drop (S n) (pushed (blog σ))) by (rewrite Hit, E; by apply drop_S).
    assert (Hlog : log_pop cap (blog σ) = blog σ ++ [EPop v]) by (unfold log_pop, front; by rewrite Hqa; cbn; rewrite Hfront).
    assert (Hnew : exists qa', state_at cap (blog σ ++ [EPop v]) = Some qa').
    { rewrite state_at_snoc, Hqa. cbn. rewrite Hfront. rewrite decide_True by done. by eexists. }
    cbn [buffer_len consts]. rewrite Hhd, Ehd, Hlog.
    eexists. split; [|by eapply Hok].
    assert (Hn' : pushed (blog σ ++ [EPop v]) = pushed (blog σ)) by (rewrite pushed_app; cbn; by rewrite app_nil_r).
    assert (Hp' : popped (blog σ ++ [EPop v]) = S n) by (rewrite popped_app; cbn; lia).
    split_and!.
    + cbn [blog]. eapply hist_inv_step; [exact Hh|by apply prefix_app_r|done|hist_side..].
    + cbn [blog]. rewrite Hn'. rewrite multiplicity_disj_union, multiplicity_list in *.
      cbn [occ] in *. repeat case_decide; simplify_eq; lia.
    + cbn [blog head]. rewrite Hp'. eapply next_enc; eauto; lia.
    + cbn [blog tail]. rewrite Htl. unfold tail_word. rewrite Hn', closed_app. cbn. by rewrite orb_false_r.
    + exists (<[(n mod c)%nat := SReading n 0]> ps). split.
      * cbn [blog buffer]. rewrite <- E. apply slots_pop; [done|cbn in Hr; lia|by rewrite E].
      * eapply tokens_move; [exact Ht|exact Hp|done|done|cbn; lia|tk_side|].
        intros j r Hin. repeat (apply elem_of_cons in Hin as [?|Hin]; [done|]). by apply elem_of_nil in Hin.
  - exists (toks [Lb (blog σ)]). rewrite Hhd. rewrite Hhd in E. split; [|by apply Hfail].
    assert (Hx : exchange (blog σ) [Lb l; Tk 2 (slot n) (Z.of_nat (2 * n + 1))] [Lb (blog σ)]) by exchange.
    destruct (exchange_hist _ _ _ _ _ Hx Hh Hbud). split_and!; try done. exists ps. split; [done|].
    eapply tokens_keep; [exact Ht| |].
    + intros kd a m Hkd. cbn [occ]. repeat case_decide; simplify_eq; lia.
    + intros j r Hin. apply elem_of_cons in Hin as [?|Hin]; [done|]. by apply elem_of_nil in Hin.
Qed.

Local Abbreviation returned := (done_tokens cap (fun _ _ => false)).

Lemma enc_no_overflow n : (n <= limit)%nat -> (usize_MAX <? enc n + 1) = false.
Proof.
  intros Hn. apply Z.ltb_ge. pose proof (enc_small c k ltac:(done) ltac:(done) ltac:(done) limit Hlimit n ltac:(lia)).
  pose proof (Z.pow_pos_nonneg 2 (k + 1)). lia.
Qed.

(** The loop starts again with a fresh look at the tail. *)
Lemma ok_push_again fuel v from l L :
  (forall l', valid l' -> from `prefix_of` l' -> ok binv (toks (push_tokens l')) (push_loop q fuel v (tail_word l') from l') (returned (OPush v))) ->
  from `prefix_of` l -> L = [Budget; Lb l] \/ (exists x, L = [Budget; Lb l; Tk 2 (fst x) (snd x)]) ->
  ok binv (toks L) ('(t, l) ← load_tail; push_loop q fuel v t from l) (returned (OPush v)).
Proof.
  intros IH Hf HL. apply ok_bind, ok_load_tail.
  { intros kd a n Hkd. destruct HL as [->|[[x y] ->]]; plain_side. }
  intros l' Hv Hlb. destruct (push_exchange l l' L) as [Hx Hp]; [tauto|].
  exists (push_tokens l'). split; [done|]. split; [done|]. apply IH; [done|]. etrans; [done|]. apply Hlb.
  destruct HL as [->|[x ->]]; set_solver_lite.
Qed.

Lemma full_then l l' : valid l -> valid l' -> l `prefix_of` l' -> (popped l' + c)%nat = length (pushed l) ->
  exists qa, state_at cap l = Some qa /\ full cap qa = true /\ closed qa = closed_in l.
Proof.
  intros ((qa & Hqa) & _ & Hle) _ Hp E. exists qa. destruct (counts _ _ Hqa) as (_ & Hcl & _ & Hlen).
  split_and!; [done| |done]. cbn. apply Z.leb_le. pose proof (popped_mono _ _ Hp). lia.
Qed.

Lemma ok_push_loop fuel v from : forall l, valid l -> from `prefix_of` l ->
  ok binv (toks (push_tokens l)) (push_loop q fuel v (tail_word l) from l) (returned (OPush v)).
Proof.
  induction fuel as [|fuel IH]; intros l Hv Hf; [done|].
  assert (Hag : forall L, L = [Budget; Lb l] \/ (exists x, L = [Budget; Lb l; Tk 2 (fst x) (snd x)]) ->
    ok binv (toks L) ('(t, l) ← load_tail; push_loop q fuel v t from l) (returned (OPush v))).
  { intros L HL. by eapply ok_push_again. }
  pose proof Hv as ((qa & Hqa) & HT & HHT). destruct (counts _ _ Hqa) as (_ & Hcl & Hit & Hlen).
  cbn [push_loop]. rewrite tail_word_mark, tail_word_index. unfold push_tokens. destruct (closed_in l) eqn:Ecl.
  { apply done_at; [done| |done]. explain Hqa. }
  rewrite tail_word_open by done. set (n := length (pushed l)) in *.
  apply ok_bind, ok_load_stamp. intros p Hp. rewrite enc_no_overflow by done. cbn [app].
  destruct (Z.eqb_spec (enc n) (stamp_of p)) as [E|E].
  - assert (Hrk : rank p = (2 * n)%nat).
    { destruct p as [m|m j|m|m j]; cbn in E, Hp |- *;
        first [apply (stamp_inj c k) in E; [lia|done..]|exfalso; by eapply (enc_same_slot c k) with (n := n) (m := m)]. }
    apply ok_bind, ok_pick. intros [|]; [apply Hag; right; by exists (slot n, Z.of_nat (rank p))|].
    rewrite Hrk. apply ok_bind, ok_cas_tail; [done|..].
    + intros l' Hv' Hl Hne. rewrite (proj2 (Z.eqb_neq _ _)) by done. apply IH; [done|by etrans].
    + intros l' Hl Hn' [qa' Hqa']. rewrite Z.eqb_refl. apply ok_bind, ok_write_value.
      { rewrite pushed_app, lookup_app_r, Hn', Nat.sub_diag by lia. done. }
      apply ok_bind, ok_store_write. apply done_change; [by etrans| |done].
      explain Hqa'. by rewrite last_snoc, bool_decide_eq_true_2.
  - destruct (_ =? enc n + 1).
    + apply ok_bind, ok_load_head; [plain_side|]. intros l' Hv' Hlb.
      assert (Hl : l `prefix_of` l') by (apply Hlb; set_solver_lite).
      erewrite wrap_lap by (eauto; unfold valid in Hv'; lia).
      destruct (Z.eqb_spec (enc (popped l' + c)) (enc n)) as [E'|E'].
      * apply (stamp_inj c k) in E'; [|done..]. exists [Lb l]. split; [exchange|]. split; [plain_side|].
        destruct (full_then _ _ Hv Hv' Hl E') as (qa1 & Hqa1 & Hfull & Hcl1).
        apply done_at; [done| |done]. unfold explains. rewrite Hqa1, bool_decide_eq_true_2, Hfull, Hcl1, Ecl by done. done.
      * exists [Budget; Lb l]. split; [exchange|]. split; [plain_side|]. apply Hag. by left.
    + apply Hag. right. by exists (slot n, Z.of_nat (rank p)).
Qed.

Lemma ok_push fuel v : ok binv (toks [Budget]) (push q fuel v) (returned (OPush v)).
Proof.
  apply ok_bind, ok_load_tail; [plain_side|]. intros l Hv _. exists (push_tokens l).
  destruct (push_exchange [] l [Budget]) as [Hx Hp]; [tauto|]. split; [done|]. split; [done|]. by apply ok_push_loop.
Qed.

(** The same for the head. *)
Lemma ok_pop_again fuel from l L :
  (forall l', valid l' -> from `prefix_of` l' -> ok binv (toks [Lb l']) (pop_loop q fuel (enc (popped l')) from) (returned OPop)) ->
  from `prefix_of` l -> L = [Lb l] \/ (exists x, L = [Lb l; Tk 2 (fst x) (snd x)]) ->
  ok binv (toks L) ('(h, _) ← load_head; pop_loop q fuel h from) (returned OPop).
Proof.
  intros IH Hf HL. apply ok_bind, ok_load_head.
  { intros kd a n Hkd. destruct HL as [->|[[x y] ->]]; plain_side. }
  intros l' Hv Hlb. exists [Lb l'].
  assert (Hl : l `prefix_of` l') by (apply Hlb; destruct HL as [->|[x ->]]; set_solver_lite).
  split; [destruct HL as [->|[[x y] ->]]; exchange|]. split; [plain_side|]. apply IH; [done|]. by etrans.
Qed.

Lemma ok_pop_loop fuel from : forall l, valid l -> from `prefix_of` l ->
  ok binv (toks [Lb l]) (pop_loop q fuel (enc (popped l)) from) (returned OPop).
Proof.
  induction fuel as [|fuel IH]; intros l Hv Hf; [done|].
  assert (Hag : forall L, L = [Lb l] \/ (exists x, L = [Lb l; Tk 2 (fst x) (snd x)]) ->
    ok binv (toks L) ('(h, _) ← load_head; pop_loop q fuel h from) (returned OPop)).
  { intros L HL. by eapply ok_pop_again. }
  pose proof Hv as (_ & HT & HHT). cbn [pop_loop]. erewrite index_enc by eauto.
  set (n := popped l) in *. assert (Hn : (n <= limit)%nat) by lia.
  apply ok_bind, ok_load_stamp. intros p Hp. rewrite enc_no_overflow by done. cbn [app].
  destruct (Z.eqb_spec (enc n + 1) (stamp_of p)) as [E|E].
  - assert (Hrk : rank p = (2 * n + 1)%nat).
    { destruct p as [m|m j|m|m j]; cbn in E, Hp |- *;
        first [exfalso; symmetry in E; by eapply (enc_same_slot c k) with (n := m) (m := n)
              |assert (E' : enc n = enc m) by lia; apply (stamp_inj c k) in E'; [lia|done..]]. }
    apply ok_bind, ok_pick. intros [|]; [apply Hag; right; by exists (slot n, Z.of_nat (rank p))|].
    rewrite Hrk. apply ok_bind, ok_cas_head; [done|..].
    + intros l' Hv' Hl Hne. rewrite (proj2 (Z.eqb_neq _ _)) by done. apply IH; [done|by etrans].
    + intros l' v Hl [qa' Hqa'] Hvn. rewrite Z.eqb_refl. apply ok_bind, (ok_read_value n v).
      { rewrite pushed_app. by apply lookup_app_l_Some. }
      apply ok_bind, ok_store_read; [done|]. apply done_change; [by etrans| |done].
      explain Hqa'. by rewrite last_snoc, bool_decide_eq_true_2.
  - destruct (stamp_of p =? enc n); [|apply Hag; right; by exists (slot n, Z.of_nat (rank p))].
    apply ok_bind, ok_load_tail; [plain_side|]. intros l' Hv' Hlb.
    assert (Hl : l `prefix_of` l') by (apply Hlb; set_solver_lite).
    pose proof Hv' as ((qa & Hqa) & HT' & HHT'). destruct (counts _ _ Hqa) as (_ & Hcl & Hit & Hlen).
    rewrite tail_word_clear, tail_word_mark by done.
    destruct (Z.eqb_spec (enc (length (pushed l'))) (enc n)) as [E'|E'].
    + apply (stamp_inj c k) in E'; [|done..]. pose proof (popped_mono _ _ Hl).
      assert (Hnil : items qa = []) by (apply length_zero_iff_nil; lia).
      exists [Lb l']. split; [exchange|]. split; [plain_side|].
      destruct (closed_in l') eqn:Ecl; apply done_at; try done; try (by etrans);
        unfold explains; rewrite Hqa, Hnil, Hcl; done.
    + exists [Lb l]. split; [exchange|]. split; [plain_side|]. apply Hag. by left.
Qed.

(** ** The operations that only look *)

Lemma distance_ok h l : (length (pushed l) <= limit)%nat -> (h <= length (pushed l) <= h + c)%nat ->
  distance q (enc h) (tail_word l) = Z.of_nat (length (pushed l)) - Z.of_nat h.
Proof.
  intros Hl Hle. unfold distance. rewrite tail_word_index, tail_word_clear by done.
  erewrite index_enc by eauto. cbn [buffer_len consts]. set (t := length (pushed l)) in *.
  pose proof (Nat.div_mod_eq t c) as Et. pose proof (Nat.div_mod_eq h c) as Eh.
  pose proof (Nat.mod_upper_bound t c). pose proof (Nat.mod_upper_bound h c).
  assert (Hd : (h / c = t / c \/ t / c = h / c + 1)%nat).
  { destruct (lt_eq_lt_dec (h / c) (t / c)) as [[Hlt|]|Hlt]; [|by left|].
    - right. assert (~ (h / c + 2 <= t / c)%nat); [|lia]. intros Hx.
      apply (Nat.mul_le_mono_l _ _ c) in Hx. lia.
    - assert (t / c + 1 <= h / c)%nat as Hx by lia. apply (Nat.mul_le_mono_l _ _ c) in Hx. lia. }
  destruct (Z.ltb_spec (Z.of_nat (h mod c)) (Z.of_nat (t mod c))).
  { destruct Hd as [Hd|Hd]; rewrite Hd in *; lia. }
  destruct (Z.ltb_spec (Z.of_nat (t mod c)) (Z.of_nat (h mod c))).
  { destruct Hd as [Hd|Hd]; rewrite Hd in *; lia. }
  destruct (Z.eqb_spec (enc t) (enc h)) as [E|E].
  - apply (stamp_inj c k) in E; [lia|done..].
  - assert (t <> h) by congruence. destruct Hd as [Hd|Hd]; rewrite Hd in *; lia.
Qed.

Lemma ok_len_loop fuel : forall fo (Q : gmultiset (qtok T) -> Z * list (entry T) * list (entry T) -> Prop),
  (forall n from l, from `prefix_of` l -> explains cap (fun _ _ => false) OLen (RNum n) l = true -> Q (toks [Lb l]) (n, from, l)) ->
  ok binv (toks match fo with Some f => [Lb f] | None => [] end) (len_loop q fuel fo) Q.
Proof.
  induction fuel as [|fuel IH]; intros fo Q HQ; [done|]. cbn [len_loop].
  apply ok_bind, ok_load_tail; [destruct fo; plain_side|]. intros l1 Hv1 Hlb1.
  exists [Lb l1]. split; [destruct fo; exchange|]. split; [plain_side|].
  assert (Hf : default l1 fo `prefix_of` l1) by (destruct fo as [f|]; [apply Hlb1; set_solver_lite|done]).
  apply ok_bind, ok_load_head; [plain_side|]. intros l2 Hv2 Hlb2.
  assert (H12 : l1 `prefix_of` l2) by (apply Hlb2; set_solver_lite).
  exists [Lb l2]. split; [exchange|]. split; [plain_side|].
  apply ok_bind, ok_load_tail; [plain_side|]. intros l3 Hv3 Hlb3.
  assert (H23 : l2 `prefix_of` l3) by (apply Hlb3; set_solver_lite).
  destruct (Z.eqb_spec (tail_word l3) (tail_word l1)) as [E|E].
  - exists [Lb l2]. split; [exchange|]. split; [plain_side|]. apply HQ; [by etrans|].
    destruct Hv1 as (_ & HT1 & _), Hv3 as (_ & HT3 & _). apply tail_word_inj in E as [E _]; [|done..].
    destruct Hv2 as ((qa & Hqa) & HT2 & HHT2). destruct (counts _ _ Hqa) as (_ & _ & _ & Hlen).
    assert (length (pushed l1) = length (pushed l2)) as E12.
    { apply pushed_mono in H12, H23. lia. }
    unfold explains. rewrite Hqa, distance_ok by lia. apply Z.eqb_eq. lia.
  - exists [Lb (default l1 fo)]. split.
    { assert (default l1 fo `prefix_of` l3) by (etrans; [done|]; by etrans). exchange. }
    split; [plain_side|]. by apply (IH (Some (default l1 fo))).
Qed.

(** A full queue that lost an item was open in between. *)
Lemma becomes_open s : forall l q1 q2,
  state_at cap l = Some q1 -> full cap q1 = true -> state_at cap (l ++ s) = Some q2 -> (popped l < popped (l ++ s))%nat ->
  exists l' q', l `prefix_of` l' /\ l' `prefix_of` l ++ s /\ state_at cap l' = Some q' /\ full cap q' = false.
Proof.
  induction s as [|e s IH]; intros l q1 q2 Hq1 Hf Hq2 Hlt; [rewrite app_nil_r in Hlt; lia|].
  assert (Hpre : l ++ [e] `prefix_of` l ++ e :: s) by (exists s; by rewrite <- app_assoc).
  destruct (state_at_prefix cap _ _ _ Hpre Hq2) as [q' Hq'].
  destruct (full cap q') eqn:Hf'.
  - replace (l ++ e :: s) with ((l ++ [e]) ++ s) in * by by rewrite <- app_assoc.
    destruct (IH _ _ _ Hq' Hf' Hq2) as (l' & q'' & ? & ? & ? & ?).
    { rewrite state_at_snoc, Hq1 in Hq'. destruct e as [v|v|]; cbn [mbind option_bind astep] in Hq'.
      - rewrite Hf, orb_true_r in Hq'. done.
      - destruct (items q1) as [|x xs] eqn:Ei; [done|]. case_decide; [|done]. injection Hq' as <-.
        destruct (counts _ _ Hq1) as (? & _ & _ & Hlen). rewrite Ei in Hlen. cbn in Hf', Hlen. lia.
      - rewrite (popped_app l [EClose]). change (popped [EClose]) with 0%nat. lia. }
    exists l', q''. split_and!; try done. etrans; [|eassumption]. by apply prefix_app_r.
  - exists (l ++ [e]), q'. split_and!; try done. by apply prefix_app_r.
Qed.

Lemma explains_empty l qa b : state_at cap l = Some qa -> b = bool_decide (items qa = []) ->
  explains cap (fun _ _ => false) OIsEmpty (RBool b) l = true.
Proof. intros Hq ->. unfold explains. by rewrite Hq, eqb_reflx. Qed.

Lemma explains_full l qa b : state_at cap l = Some qa -> b = full cap qa ->
  explains cap (fun _ _ => false) OIsFull (RBool b) l = true.
Proof. intros Hq ->. unfold explains. rewrite Hq. apply eqb_reflx. Qed.

Lemma ok_is_empty (Q : gmultiset (qtok T) -> bool * list (entry T) * list (entry T) -> Prop) :
  (forall b from l, from `prefix_of` l -> explains cap (fun _ _ => false) OIsEmpty (RBool b) l = true -> Q (toks [Lb l]) (b, from, l)) ->
  ok binv (toks []) (is_empty q) Q.
Proof.
  intros HQ. apply ok_bind, ok_load_head; [plain_side|]. intros l1 Hv1 _.
  exists [Lb l1]. split; [exchange|]. split; [plain_side|].
  apply ok_bind, ok_load_tail; [plain_side|]. intros l2 Hv2 Hlb.
  assert (H12 : l1 `prefix_of` l2) by (apply Hlb; set_solver_lite).
  destruct Hv1 as ((q1 & Hq1) & HT1 & HHT1), Hv2 as ((q2 & Hq2) & HT2 & HHT2).
  destruct (counts _ _ Hq1) as (_ & _ & _ & Hlen1), (counts _ _ Hq2) as (_ & _ & _ & Hlen2).
  rewrite tail_word_clear by done. set (b := _ =? _).
  destruct (settle_ok cap (fun _ _ => false) OIsEmpty (RBool b) l1 l2) as (Hs1 & Hs2 & Hs3).
  { unfold b. destruct (Z.eqb_spec (enc (length (pushed l2))) (enc (popped l1))) as [E|E].
    - apply (stamp_inj c k) in E; [|done..]. exists l2. split_and!; [done|done|]. eapply explains_empty; [done|].
      pose proof (popped_mono _ _ H12). rewrite bool_decide_eq_true_2; [done|]. apply length_zero_iff_nil. lia.
    - destruct (decide (items q1 = [])) as [Hi|Hi].
      + destruct H12 as [s ->]. rewrite Hi in Hlen1. cbn in Hlen1.
        destruct (becomes_nonempty cap s l1 q1 q2) as (l' & q' & ? & ? & Hq' & Hi'); [done..| |].
        { assert (length (pushed (l1 ++ s)) <> popped l1) by congruence.
          pose proof (pushed_mono l1 (l1 ++ s) ltac:(by apply prefix_app_r)). lia. }
        exists l'. split_and!; [done..|]. eapply explains_empty; [done|]. by rewrite bool_decide_eq_false_2.
      + exists l1. split_and!; [done..|]. eapply explains_empty; [done|]. by rewrite bool_decide_eq_false_2. }
  exists [Lb (settle cap (fun _ _ => false) OIsEmpty (RBool b) l1 l2)]. split; [exchange|]. split; [plain_side|]. by apply HQ.
Qed.

Lemma ok_is_full (Q : gmultiset (qtok T) -> bool * list (entry T) * list (entry T) -> Prop) :
  (forall b from l, from `prefix_of` l -> explains cap (fun _ _ => false) OIsFull (RBool b) l = true -> Q (toks [Lb l]) (b, from, l)) ->
  ok binv (toks []) (is_full q) Q.
Proof.
  intros HQ. apply ok_bind, ok_load_tail; [plain_side|]. intros l1 Hv1 _.
  exists [Lb l1]. split; [exchange|]. split; [plain_side|].
  apply ok_bind, ok_load_head; [plain_side|]. intros l2 Hv2 Hlb.
  assert (H12 : l1 `prefix_of` l2) by (apply Hlb; set_solver_lite).
  destruct Hv1 as ((q1 & Hq1) & HT1 & HHT1), Hv2 as ((q2 & Hq2) & HT2 & HHT2).
  destruct (counts _ _ Hq1) as (_ & _ & _ & Hlen1).
  assert (Hfull1 : full cap q1 = (length (pushed l1) =? popped l1 + c)%nat).
  { cbn. destruct (Nat.eqb_spec (length (pushed l1)) (popped l1 + c)); [apply Z.leb_le; lia|apply Z.leb_gt; lia]. }
  rewrite tail_word_clear by done. erewrite wrap_lap by (eauto; lia). set (b := _ =? _).
  destruct (settle_ok cap (fun _ _ => false) OIsFull (RBool b) l1 l2) as (Hs1 & Hs2 & Hs3).
  { unfold b. destruct (Z.eqb_spec (enc (popped l2 + c)) (enc (length (pushed l1)))) as [E|E].
    - apply (stamp_inj c k) in E; [|done..]. exists l1. split_and!; [done|done|]. eapply explains_full; [done|].
      pose proof (popped_mono _ _ H12). rewrite Hfull1. symmetry. apply Nat.eqb_eq. lia.
    - destruct (full cap q1) eqn:Hf.
      + destruct H12 as [s ->]. symmetry in Hfull1. apply Nat.eqb_eq in Hfull1.
        destruct (becomes_open s l1 q1 q2) as (l' & q' & ? & ? & Hq' & Hi'); [done..| |].
        { assert ((popped (l1 ++ s) + c)%nat <> length (pushed l1)) by congruence.
          pose proof (popped_mono l1 (l1 ++ s) ltac:(by apply prefix_app_r)). lia. }
        exists l'. split_and!; [done..|]. eapply explains_full; [done|]. by rewrite Hi'.
      + exists l1. split_and!; [done..|]. eapply explains_full; [done|]. by rewrite Hf. }
  exists [Lb (settle cap (fun _ _ => false) OIsFull (RBool b) l1 l2)]. split; [exchange|]. split; [plain_side|]. by apply HQ.
Qed.

Lemma ok_close : ok binv (toks []) (close q) (returned OClose).
Proof.
  apply ok_bind, ok_atomic. intros σ fr HI. pose proof HI as (Hh & Hbud & Hhd & Htl & ps & Hs & Ht).
  pose proof Hh as ((qa & Hqa) & _). destruct (counts _ _ Hqa) as (_ & Hcl & _ & _).
  cbn [fst snd]. rewrite Htl, tail_word_mark. destruct (closed_in (blog σ)) eqn:Ecl; cbn [negb].
  - exists (toks [Lb (blog σ)]). split; [|apply done_at; [done| |done]; explain Hqa].
    assert (Hx : exchange (blog σ) [] [Lb (blog σ)]) by exchange.
    destruct (exchange_hist _ _ _ _ _ Hx Hh Hbud). split_and!; try done.
    + cbn [tail blog]. unfold tail_word. rewrite Ecl. eapply lor_mark; eauto.
    + exists ps. split; [done|]. eapply tokens_keep; [exact Ht|tk_side|lb_side].
  - assert (Hnew : state_at cap (blog σ ++ [EClose]) = Some (mkAq (items qa) true)).
    { rewrite state_at_snoc, Hqa. cbn [mbind option_bind astep]. by rewrite Hcl. }
    assert (Hn' : pushed (blog σ ++ [EClose]) = pushed (blog σ)) by (rewrite pushed_app; cbn; by rewrite app_nil_r).
    assert (Hp' : popped (blog σ ++ [EClose]) = popped (blog σ)) by (rewrite popped_app; cbn; lia).
    exists (toks [Lb (blog σ ++ [EClose]); Did (S (length (blog σ)))]). split.
    + split_and!; cbn [blog head tail].
      * eapply hist_inv_step; [exact Hh|by apply prefix_app_r|by eexists|hist_side..].
      * rewrite Hn'. rewrite multiplicity_disj_union, multiplicity_list in *. cbn [occ] in *. by repeat case_decide.
      * by rewrite Hp'.
      * unfold tail_word. rewrite Ecl, Hn', closed_app. cbn. rewrite orb_true_r, Z.add_0_r. eapply lor_enc; eauto.
      * exists ps. split; [by apply slots_close|]. eapply tokens_keep; [exact Ht|tk_side|lb_side].
    + apply done_change; [done| |done]. explain Hnew. by rewrite last_snoc, bool_decide_eq_true_2.
Qed.

Lemma ok_look_tail o (r : Z -> res T) :
  (forall l qa, state_at cap l = Some qa -> explains cap (fun _ _ => false) o (r (tail_word l)) l = true) ->
  (forall s, changes (r s) o = false) ->
  ok binv (toks []) ('(t, l) ← load_tail; mret (r t, l, l)) (returned o).
Proof.
  intros He Hch. apply ok_bind, ok_load_tail; [plain_side|]. intros l ((qa & Hqa) & _) _.
  exists [Lb l]. split; [exchange|]. split; [plain_side|]. apply done_at; [done| |done]. by eapply He.
Qed.

Lemma bounded_ok fuel o : ok binv (start_tokens o) (bounded_code q fuel o) (returned o).
Proof.
  destruct o; unfold start_tokens; cbn match; cbn [bounded_code].
  - apply ok_push.
  - apply ok_bind, ok_load_head; [plain_side|]. intros l Hv _. exists [Lb l].
    split; [exchange|]. split; [plain_side|]. by apply ok_pop_loop.
  - apply ok_bind, (ok_len_loop fuel None). intros n from l Hf He. by apply done_at.
  - apply ok_bind, ok_is_empty. intros b from l Hf He. by apply done_at.
  - apply ok_bind, ok_is_full. intros b from l Hf He. by apply done_at.
  - apply (ok_look_tail OCapacity (fun _ => RCap cap)); [|done]. intros l qa Hqa. explain Hqa.
  - apply ok_close.
  - apply (ok_look_tail OIsClosed (fun t => RBool (has t (mark_bit q)))); [|done].
    intros l qa Hqa. rewrite tail_word_mark. destruct (counts _ _ Hqa) as (_ & Hcl & _). explain Hqa.
    rewrite Hcl. apply eqb_reflx.
Qed.

Definition initial : Bounded T :=
  mkBounded 0 0 ((fun i => mkSlot (Z.of_nat i) Uninit) <$> seq 0 c) [].

Lemma binv_new n : (n <= limit)%nat -> binv initial (toks (replicate n Budget)).
Proof.
  intros Hn. assert (E0 : enc 0 = 0).
  { unfold BoundedProof.enc. rewrite Nat.Div0.div_0_l, Nat.Div0.mod_0_l. lia. }
  split_and!; [apply hist_inv_init| |done|unfold tail_word; change (0 = enc 0 + 0); by rewrite E0|].
  - cbn. rewrite multiplicity_list. enough (occ Budget (replicate n (@Budget T)) <= n)%nat by lia.
    clear. induction n as [|n IH]; [done|]. cbn [replicate occ]. case_decide; lia.
  - exists (SFree <$> seq 0 c). split.
    + unfold initial. cbn [buffer blog]. split_and!; [by rewrite length_fmap, length_seq..|].
      intros i p (m & -> & Hm)%list_lookup_fmap_Some. apply lookup_seq in Hm as [-> Hm]. cbn [Nat.add] in *.
      split_and!.
      * cbn. by apply Nat.mod_small.
      * unfold initial. cbn [buffer]. rewrite list_lookup_fmap, lookup_seq_lt by done. cbn.
        unfold BoundedProof.enc. rewrite Nat.div_small, Nat.mod_small by done. f_equal.
      * cbn. lia.
    + split.
      * intros kd a m Hkd. rewrite multiplicity_list, occ_replicate_ne by done.
        rewrite decide_False; [done|]. unfold owner_at. rewrite list_lookup_fmap.
        destruct (seq 0 c !! _); by cbn.
      * intros i r Hin. apply elem_of_list_to_set_disj, elem_of_replicate in Hin. naive_solver.
Qed.

(** ** Dropping the queue *)
Lemma drop_slots_ok b ps l : slots_ok l b ps -> (length (pushed l) <= popped l + c)%nat -> (forall i p, ps !! i = Some p -> owner p = None) ->
  forall n i, (popped l + i + n <= length (pushed l))%nat -> (i + n <= c)%nat ->
  drop_slots q n (Z.of_nat (popped l mod c + i)) b = Some (take n (drop (popped l + i) (pushed l))).
Proof.
  intros Hs HT Hno. induction n as [|n IH]; intros i Hl Hi; [done|]. cbn [drop_slots buffer_len consts].
  pose proof (Nat.mod_upper_bound (popped l) c). pose proof (Nat.div_mod_eq (popped l) c) as Ed.
  assert (Z.to_nat (if Z.of_nat (popped l mod c + i) <? Z.of_nat c then Z.of_nat (popped l mod c + i)
            else Z.of_nat (popped l mod c + i) - Z.of_nat c) = ((popped l + i) mod c)%nat) as ->.
  { destruct (Z.ltb_spec (Z.of_nat (popped l mod c + i)) (Z.of_nat c)).
    - rewrite Nat2Z.id. apply (Nat.mod_unique _ _ (popped l / c)); lia.
    - apply (Nat.mod_unique _ _ (popped l / c + 1)); lia. }
  destruct (slots_lookup _ _ _ (popped l + i) Hs) as (p & Hp & Htk & Hb & Hr). rewrite Hb. cbn [mbind option_bind value].
  specialize (Hno _ _ Hp).
  assert (p = SFull (popped l + i)) as ->.
  { destruct p as [m|m j|m|m j]; cbn in Htk, Hr, Hno; try done.
    - assert (m = popped l + i)%nat; [|lia]. apply same_slot; lia.
    - f_equal. destruct (decide (popped l + i <= m)%nat); [apply same_slot; lia|].
      symmetry. apply same_slot; lia. }
  destruct (lookup_lt_is_Some_2 (pushed l) (popped l + i)) as [v Hv]; [lia|].
  cbn [cell_of]. unfold item_cell. rewrite Hv.
  replace (Z.of_nat (popped l mod c + i) + 1) with (Z.of_nat (popped l mod c + S i)) by lia.
  rewrite IH by lia. cbn. rewrite (drop_S _ _ _ Hv). cbn. by rewrite Nat.add_succ_r.
Qed.

Lemma drop_bounded_ok σ m : binv σ m -> (forall kd a n, multiplicity (Tk kd a n) m = 0%nat) ->
  exists qa, state_at cap (blog σ) = Some qa /\ drop_bounded q σ = Some (items qa).
Proof.
  intros HI Hno. pose proof (binv_valid _ _ HI) as ((qa & Hqa) & HT & HHT).
  destruct HI as (Hh & _ & Hhd & Htl & ps & Hs & Ht). exists qa. split; [done|].
  destruct (counts _ _ Hqa) as (_ & _ & -> & _). unfold drop_bounded.
  rewrite Hhd, Htl, distance_ok by lia. erewrite index_enc by eauto.
  assert (Howner : forall i p, ps !! i = Some p -> owner p = None).
  { intros i p Hp. destruct (owner p) as [[[kd a] n]|] eqn:Eo; [|done]. exfalso.
    pose proof Hs as (_ & _ & Hslot). destruct (Hslot _ _ Hp) as (Htk & _ & _).
    assert (Hkd : (kd < 2)%nat) by (destruct p; simplify_eq/=; lia).
    destruct Ht as [Hown _]. specialize (Hown kd a n Hkd). rewrite Hno in Hown.
    rewrite decide_True in Hown; [done|].
    unfold owner_at. rewrite (owner_ticket _ _ _ _ Eo), Nat2Z.id, Htk, Hp. cbn. rewrite Eo.
    by rewrite (owner_ticket _ _ _ _ Eo). }
  replace (Z.to_nat _) with (length (pushed (blog σ)) - popped (blog σ))%nat by lia.
  pose proof (drop_slots_ok _ _ _ Hs ltac:(lia) Howner (length (pushed (blog σ)) - popped (blog σ)) 0 ltac:(lia) ltac:(lia)) as Hd.
  rewrite !Nat.add_0_r in Hd. rewrite Hd. f_equal. apply take_ge. rewrite length_drop. lia.
Qed.
End inv.

(** * Properties *)

Lemma bounded_new_inv T c q (σ : Bounded T) : bounded_new c = Some (q, σ) ->
  (0 < c)%nat /\ exists k, 0 <= k /\ Z.of_nat c < 2 ^ k /\ q = consts c k /\ σ = initial c.
Proof.
  unfold bounded_new. destruct (decide (0 < c)%nat) as [Hc|Hc]; [|by rewrite option_guard_False].
  rewrite option_guard_True by done. cbn. intros [= <- <-]. split; [done|].
  exists (Z.log2_up (Z.of_nat c + 1)). split; [apply Z.log2_up_nonneg|].
  pose proof (Z.log2_up_spec (Z.of_nat c + 1) ltac:(lia)). split; [lia|]. split; [|done].
  unfold consts, next_power_of_two. rewrite Z.pow_add_r by (done || apply Z.log2_up_nonneg). done.
Qed.

Lemma enc_bound c k n : (0 < c)%nat -> 0 <= k -> Z.of_nat c < 2 ^ k ->
  Z.of_nat (n / c + 3) * 2 ^ (k + 1) <= usize_MAX -> enc c k (n + c) + 2 ^ (k + 1) <= usize_MAX.
Proof.
  intros Hc Hk Hck Hb. rewrite enc_lap by done. unfold enc. pose proof (enc_low c k Hc Hk Hck n).
  pose proof (lap_double c k Hc Hk). pose proof (Z.pow_pos_nonneg 2 (k + 1)). nia.
Qed.

Lemma bounded_keeps T `{Countable T} (fuel cap : nat) (budgets : list nat) :
  match bounded_new cap with
  | None => cap = 0%nat
  | Some (q, σ) =>
      Z.of_nat (sum_list budgets / cap + 3) * one_lap q <= usize_MAX ->
      linearizable (Some (Z.of_nat cap)) (fun _ _ => false) (bounded_code (T:=T) q fuel) blog σ budgets
  end.
Proof.
  destruct (bounded_new cap) as [[q σ]|] eqn:E.
  - apply bounded_new_inv in E as (Hc & k & Hk & Hck & -> & ->). cbn [one_lap consts]. intros Hb.
    apply enc_bound in Hb; [|done..]. set (limit := sum_list budgets) in *.
    apply (linearizable_by_tokens _ _ blog (binv cap k limit)); [by intros σ m [? _]|by apply bounded_ok|by apply binv_new].
  - unfold bounded_new in E. destruct (decide (0 < cap)%nat) as [Hc|Hc]; [by rewrite option_guard_True in E|lia].
Qed.

(** C3: the lock-free queue of capacity [cap] is linearizable, in every
    interleaving of any number of threads whose pushes cannot wrap the lap
    counter around: the history is one of a sequential queue of that
    capacity, every answer (an empty or full queue, its length, a closed
    queue included) is explained by a history between its invocation and its
    return, every change belongs to exactly one call, no index is out of
    bounds, no addition overflows, and no slot is shared or read while it
    holds nothing.  When all operations have returned, dropping the queue
    drops exactly its items, in order.  A queue of capacity 0 is refused. *)
Theorem bounded_linearizable T `{Countable T} (fuel cap : nat) (budgets : list nat) :
  match bounded_new cap with
  | None => cap = 0%nat
  | Some (q, σ) =>
      Z.of_nat (sum_list budgets / cap + 3) * one_lap q <= usize_MAX ->
      linearizable (Some (Z.of_nat cap)) (fun _ _ => false) (bounded_code (T:=T) q fuel) blog σ budgets /\
      forall c, reachable (bounded_code q fuel) qstart qfinish (qpool σ budgets) c ->
        existsb thread_aborted (threads c) = false -> Forall (fun t => running t = None) (threads c) ->
        exists qa, state_at (Some (Z.of_nat cap)) (blog (shared c)) = Some qa /\
          drop_bounded q (shared c) = Some (items qa)
  end.
Proof.
  pose proof (bounded_keeps T fuel cap budgets) as Hkeep. destruct (bounded_new cap) as [[q σ]|] eqn:E; [|done].
  intros Hb. split; [by apply Hkeep|]. clear Hkeep.
  apply bounded_new_inv in E as (Hc & k & Hk & Hck & -> & ->). cbn [one_lap consts] in Hb.
  apply enc_bound in Hb; [|done..]. set (limit := sum_list budgets) in *. intros c Hr Ha Hidle.
  assert (Hhist : forall σ m, binv cap k limit σ m -> hist_inv (Some (Z.of_nat cap)) (blog (T:=T) σ) m) by by intros σ m [? _].
  destruct (idle_at _ _ blog (binv cap k limit) _ Hhist (bounded_ok (T:=T) cap k Hc Hk Hck limit Hb fuel) _ _ _
    (binv_new (T:=T) cap k Hc Hk limit limit ltac:(done)) Hr Ha Hidle) as (m & HI & Hno).
  by eapply drop_bounded_ok.
Qed.

(** ** Two threads, capacity 2: two pushes that overlap, a push that finds the
    queue full, a pop, and the length. *)
Definition two_consts : Consts := consts 2 2.
Definition two_run : list (event (op Z)) :=
  [EStart 0%nat (OPush 1)] ++ replicate 4 (EStep 0%nat false) ++
  [EStart 1%nat (OPush 2)] ++ replicate 8 (EStep 1%nat false) ++
  replicate 4 (EStep 0%nat false) ++ [EStart 1%nat (OPush 3)] ++ replicate 4 (EStep 1%nat false) ++
  [EStart 0%nat OPop] ++ replicate 8 (EStep 0%nat false) ++ [EStart 0%nat OLen] ++ replicate 4 (EStep 0%nat false).
Definition two_final : config (Bounded Z) (op Z) (res Z * list (entry Z) * list (entry Z)) (client Z) :=
  after (bounded_code two_consts 3) qstart qfinish two_run (qpool (initial 2) [1%nat; 2%nat]).

Lemma bounded_linearizable_witness :
  bounded_new 2 = Some (two_consts, initial (T:=Z) 2) /\
  reachable (bounded_code two_consts 3) qstart qfinish (qpool (initial 2) [1%nat; 2%nat]) two_final /\
  (answer <$> all_calls two_final) =
    [RNum 1; RPop (Ok 1); RPush (Ok ()); RPush (Err (Full 3)); RPush (Ok ())] /\
  drop_bounded two_consts (shared two_final) = Some [2] /\
  exists qa, state_at (Some 2) (blog (shared two_final)) = Some qa /\
    drop_bounded two_consts (shared two_final) = Some (items qa).
Proof.
  assert (E : bounded_new 2 = Some (two_consts, initial (T:=Z) 2)) by reflexivity.
  assert (Hr : reachable (bounded_code two_consts 3) qstart qfinish (qpool (initial 2) [1%nat; 2%nat]) two_final)
    by (apply after_reachable; vm_compute; reflexivity).
  split; [exact E|]. split; [exact Hr|]. split; [vm_compute; reflexivity|]. split; [vm_compute; reflexivity|].
  pose proof (bounded_linearizable Z 3 2 [1%nat; 2%nat]) as Hl. rewrite E in Hl.
  destruct Hl as [_ Hdrop]; [vm_compute; discriminate|].
  apply (Hdrop _ Hr); [vm_compute; reflexivity|].
  apply all_idle. vm_compute. reflexivity.
Defined.
