(* ===== verification/Unbounded.v ===== *)
(** [platform/queue/unbounded.rs]: the lock-free queue that grows by blocks.

    [head] and [tail] are positions counted in laps of 32, of which 31 are
    slots of a block and the last is the moment at which a thread moves to
    the next block.  Blocks live in a heap; a pointer is an index into it, a
    freed block is [None] there and any access to it, or to a slot that
    another thread writes or reads or that holds nothing, is a [Crash].
    Pointers are not reused: the code compares block pointers with null only.
    [ulog] is the history, an auxiliary variable. *)

From S2P Require Import Prelude Conc QueueSpec.
From S2P Require Single.

Abbreviation cell := Single.cell.
Abbreviation Uninit := Single.Uninit.
Abbreviation Busy := Single.Busy.
Abbreviation Init := Single.Init.

Definition WRITE : Z := 1.
Definition READ : Z := 2.
Definition DESTROY : Z := 4.
Definition LAP : Z := 32.
Definition BLOCK_CAP : Z := LAP - 1.
Definition SHIFT : Z := 1.
Definition MARK_BIT : Z := 1.

Section code.
Context {T : Type} `{Countable T}.

Record Slot := mkSlot { state : Z; value : cell T }.
Record Block := mkBlock { next : option nat; slots : list Slot }.
Record Unbounded := mkUnbounded {
  head_index : Z; head_block : option nat;
  tail_index : Z; tail_block : option nat;
  heap : list (option Block); ulog : list (entry T) }.

Definition UNINIT : Slot := mkSlot 0 Uninit.
Definition block_new : Block := mkBlock None (replicate (Z.to_nat BLOCK_CAP) UNINIT).
Definition unbounded_new : Unbounded := mkUnbounded 0 None 0 None [] [].

(** ** Atomic accesses *)

Definition with_heap (h : list (option Block)) (σ : Unbounded) : Unbounded :=
  mkUnbounded (head_index σ) (head_block σ) (tail_index σ) (tail_block σ) h (ulog σ).
Definition with_head (i : Z) (b : option nat) (l : list (entry T)) (σ : Unbounded) : Unbounded :=
  mkUnbounded i b (tail_index σ) (tail_block σ) (heap σ) l.
Definition with_tail (i : Z) (b : option nat) (l : list (entry T)) (σ : Unbounded) : Unbounded :=
  mkUnbounded (head_index σ) (head_block σ) i b (heap σ) l.

(** The loads of the positions come with the history. *)
Definition load_head : prog Unbounded (Z * list (entry T)) := atomic (fun σ => ((head_index σ, ulog σ), σ)).
Definition load_tail : prog Unbounded (Z * list (entry T)) := atomic (fun σ => ((tail_index σ, ulog σ), σ)).
Definition load_head_block : prog Unbounded (option nat) := atomic (fun σ => (head_block σ, σ)).
Definition load_tail_block : prog Unbounded (option nat) := atomic (fun σ => (tail_block σ, σ)).
Definition store_head_block (p : nat) : prog Unbounded unit :=
  atomic (fun σ => ((), with_head (head_index σ) (Some p) (ulog σ) σ)).
Definition store_tail_block (p : nat) : prog Unbounded unit :=
  atomic (fun σ => ((), with_tail (tail_index σ) (Some p) (ulog σ) σ)).
Definition store_head (x : Z) : prog Unbounded unit :=
  atomic (fun σ => ((), with_head x (head_block σ) (ulog σ) σ)).
Definition fetch_add_tail (x : Z) : prog Unbounded unit :=
  atomic (fun σ => ((), with_tail (wrapping_add (tail_index σ) x) (tail_block σ) (ulog σ) σ)).

(** [compare_exchange(null, p)] of the tail's block. *)
Definition cas_tail_block (p : nat) : prog Unbounded bool :=
  atomic (fun σ => match tail_block σ with
                   | None => (true, with_tail (tail_index σ) (Some p) (ulog σ) σ)
                   | Some _ => (false, σ)
                   end).

(** The compare-exchanges of the positions, with what they saw. *)
Definition cas_tail (a b : Z) (v : T) : prog Unbounded (Z * list (entry T)) :=
  atomic (fun σ => ((tail_index σ, ulog σ),
    if tail_index σ =? a then with_tail b (tail_block σ) (ulog σ ++ [EPush v]) σ else σ)).
Definition cas_head (a b : Z) : prog Unbounded (Z * list (entry T)) :=
  atomic (fun σ => ((head_index σ, ulog σ),
    if head_index σ =? a then with_head b (head_block σ) (log_pop None (ulog σ)) σ else σ)).

(** [Box::new(Block::new())], and dropping a box. *)
Definition new_block : prog Unbounded nat :=
  atomic (fun σ => (length (heap σ), with_heap (heap σ ++ [Some block_new]) σ)).
Definition free_block (p : nat) : prog Unbounded unit :=
  Act (fun σ => match heap σ !! p with
                | Some (Some _) => Some (with_heap (<[p := None]> (heap σ)) σ, Ret ())
                | _ => Some (σ, Crash)
                end).
Definition drop_box (p : option nat) : prog Unbounded unit :=
  match p with Some p => free_block p | None => mret () end.

Definition on_block {A} (p : nat) (f : Block -> option (A * Block)) : prog Unbounded A :=
  Act (fun σ => match b ← mjoin (heap σ !! p); f b with
                | Some (a, b') => Some (with_heap (<[p := Some b']> (heap σ)) σ, Ret a)
                | None => Some (σ, Crash)
                end).
Definition load_next (p : nat) : prog Unbounded (option nat) := on_block p (fun b => Some (next b, b)).
Definition store_next (p q : nat) : prog Unbounded unit :=
  on_block p (fun b => Some ((), mkBlock (Some q) (slots b))).

(** [get_unchecked] of an offset that is out of bounds is a [Crash]. *)
Definition on_slot {A} (p : nat) (offset : Z) (f : Slot -> option (A * Slot)) : prog Unbounded A :=
  on_block p (fun b =>
    s ← slots b !! Z.to_nat offset;
    '(a, s') ← f s;
    Some (a, mkBlock (next b) (<[Z.to_nat offset := s']> (slots b)))).
Definition load_state (p : nat) (offset : Z) : prog Unbounded Z := on_slot p offset (fun s => Some (state s, s)).
Definition fetch_or_state (p : nat) (offset x : Z) : prog Unbounded Z :=
  on_slot p offset (fun s => Some (state s, mkSlot (Z.lor (state s) x) (value s))).

Definition write_value (p : nat) (offset : Z) (v : T) : prog Unbounded unit :=
  on_slot p offset (fun s => match value s with Single.Busy => None | _ => Some ((), mkSlot (state s) Busy) end) ;;
  on_slot p offset (fun s => Some ((), mkSlot (state s) (Init v))).
Definition read_value (p : nat) (offset : Z) : prog Unbounded T :=
  v ← on_slot p offset (fun s => match value s with Single.Init v => Some (v, mkSlot (state s) Busy) | _ => None end);
  on_slot p offset (fun s => Some (v, mkSlot (state s) Uninit)).

(** [Slot::wait_write], [Block::wait_next]: they spin. *)
Fixpoint wait_write (fuel : nat) (p : nat) (offset : Z) : prog Unbounded unit :=
  match fuel with
  | O => OutOfFuel
  | S fuel => s ← load_state p offset; if has s WRITE then mret () else wait_write fuel p offset
  end.
Fixpoint wait_next (fuel : nat) (p : nat) : prog Unbounded nat :=
  match fuel with
  | O => OutOfFuel
  | S fuel => n ← load_next p; match n with Some q => mret q | None => wait_next fuel p end
  end.

(** [Block::destroy]: [n] slots are left, from [i] on. *)
Fixpoint destroy_loop (n : nat) (p : nat) (i : Z) : prog Unbounded unit :=
  match n with
  | O => free_block p
  | S n =>
      s ← load_state p i;
      if has s READ then destroy_loop n p (i + 1)
      else
        s ← fetch_or_state p i DESTROY;
        if has s READ then destroy_loop n p (i + 1) else mret ()
  end.
Definition destroy (p : nat) (start : Z) : prog Unbounded unit :=
  destroy_loop (Z.to_nat (BLOCK_CAP - 1 - start)) p start.

Definition offset_of (x : Z) : Z := (Z.shiftr x SHIFT) mod LAP.

(** ** Push *)

(** After the compare-exchange: the thread that took the last slot installs
    the next block, then the value is written. *)
Definition push_into (block : nat) (offset : Z) (next_block : option nat) (v : T) : prog Unbounded unit :=
  next_block ← (if offset + 1 =? BLOCK_CAP then
     match next_block with
     | None => Crash
     | Some nb =>
         store_tail_block nb ;;
         fetch_add_tail (Z.shiftl 1 SHIFT) ;;
         store_next block nb ;;
         mret None
     end
   else mret next_block);
  write_value block offset v ;;
  fetch_or_state block offset WRITE ;;
  drop_box next_block.

(** What a look at [block] gives: the block, whether it was installed by
    this thread, or [None] and the box when another thread was faster. *)
Definition find_block (block next_block : option nat) : prog Unbounded (option nat * option nat) :=
  match block with
  | Some b => mret (Some b, next_block)
  | None =>
      new ← new_block;
      won ← cas_tail_block new;
      if won : bool then store_head_block new ;; mret (Some new, next_block)
      else drop_box next_block ;; mret (None, Some new)
  end.

(** [tail] was read when the history was [l]. *)
Fixpoint push_loop (fuel : nat) (v : T) (tail : Z) (block next_block : option nat) (from l : list (entry T))
    : prog Unbounded (res T * list (entry T) * list (entry T)) :=
  match fuel with
  | O => OutOfFuel
  | S fuel =>
      if has tail MARK_BIT then drop_box next_block ;; mret (RPush (Err (PushClosed v)), from, l)
      else
        let offset := offset_of tail in
        if offset =? BLOCK_CAP then
          '(t, l) ← load_tail; b ← load_tail_block; push_loop fuel v t b next_block from l
        else
          next_block ← (match next_block with
             | None => if offset + 1 =? BLOCK_CAP then nb ← new_block; mret (Some nb) else mret None
             | Some nb => mret (Some nb)
             end);
          '(found, next_block) ← find_block block next_block;
          match found with
          | None => '(t, l) ← load_tail; b ← load_tail_block; push_loop fuel v t b next_block from l
          | Some block =>
              if usize_MAX <? tail + Z.shiftl 1 SHIFT then Crash
              else
                spurious ← Pick Ret;
                if spurious : bool then
                  '(t, l) ← load_tail; b ← load_tail_block; push_loop fuel v t b next_block from l
                else
                  '(t, l) ← cas_tail tail (tail + Z.shiftl 1 SHIFT) v;
                  if t =? tail then
                    push_into block offset next_block v ;;
                    mret (RPush (Ok ()), from, l ++ [EPush v])
                  else b ← load_tail_block; push_loop fuel v t b next_block from l
          end
  end.
Definition push (fuel : nat) (v : T) : prog Unbounded (res T * list (entry T) * list (entry T)) :=
  '(t, l) ← load_tail; b ← load_tail_block; push_loop fuel v t b None l l.

(** ** Pop *)

Definition pop_from (fuel : nat) (block : nat) (offset new_head : Z) : prog Unbounded T :=
  (if offset + 1 =? BLOCK_CAP then
     next ← wait_next fuel block;
     let next_index := wrapping_add (Z.land new_head (wnot MARK_BIT)) (Z.shiftl 1 SHIFT) in
     nn ← load_next next;
     let next_index := match nn with Some _ => Z.lor next_index MARK_BIT | None => next_index end in
     store_head_block next ;;
     store_head next_index
   else mret ()) ;;
  wait_write fuel block offset ;;
  v ← read_value block offset;
  (if offset + 1 =? BLOCK_CAP then destroy block 0
   else
     s ← fetch_or_state block offset READ;
     if has s DESTROY then destroy block (offset + 1) else mret ()) ;;
  mret v.

(** The comparison with the tail: an answer, or the new head. *)
Definition pop_check (head : Z) (from : list (entry T))
    : prog Unbounded (res T * list (entry T) * list (entry T) + Z) :=
  let new_head := head + Z.shiftl 1 SHIFT in
  if usize_MAX <? new_head then Crash
  else if has new_head MARK_BIT then mret (inr new_head)
  else
    '(tail, l) ← load_tail;
    if Z.shiftr head SHIFT =? Z.shiftr tail SHIFT then
      mret (inl (RPop (Err (if has tail MARK_BIT then PopClosed else Empty)), from, l))
    else if Z.shiftr head SHIFT / LAP =? Z.shiftr tail SHIFT / LAP then mret (inr new_head)
    else mret (inr (Z.lor new_head MARK_BIT)).

Fixpoint pop_loop (fuel : nat) (head : Z) (block : option nat) (from : list (entry T))
    : prog Unbounded (res T * list (entry T) * list (entry T)) :=
  match fuel with
  | O => OutOfFuel
  | S fuel =>
      let offset := offset_of head in
      if offset =? BLOCK_CAP then '(h, _) ← load_head; b ← load_head_block; pop_loop fuel h b from
      else
        check ← pop_check head from;
        match check with
        | inl r => mret r
        | inr new_head =>
            match block with
            | None => '(h, _) ← load_head; b ← load_head_block; pop_loop fuel h b from
            | Some block =>
                spurious ← Pick Ret;
                if spurious : bool then '(h, _) ← load_head; b ← load_head_block; pop_loop fuel h b from
                else
                  '(h, l) ← cas_head head new_head;
                  if h =? head then
                    v ← pop_from fuel block offset new_head;
                    mret (RPop (Ok v), from, l ++ [EPop v])
                  else b ← load_head_block; pop_loop fuel h b from
            end
        end
  end.
Definition pop (fuel : nat) : prog Unbounded (res T * list (entry T) * list (entry T)) :=
  '(h, l) ← load_head; b ← load_head_block; pop_loop fuel h b l.

(** ** The other operations *)

(** The number of items between two positions; [None] is an overflow of the
    last subtraction. *)
Definition count (tail head : Z) : option Z :=
  let tail := Z.land tail (wnot (Z.shiftl 1 SHIFT - 1)) in
  let head := Z.land head (wnot (Z.shiftl 1 SHIFT - 1)) in
  let tail := if Z.land (Z.shiftr tail SHIFT) (LAP - 1) =? LAP - 1 then wrapping_add tail (Z.shiftl 1 SHIFT) else tail in
  let head := if Z.land (Z.shiftr head SHIFT) (LAP - 1) =? LAP - 1 then wrapping_add head (Z.shiftl 1 SHIFT) else head in
  let lap := Z.shiftr head SHIFT / LAP in
  let tail := wrapping_sub tail (Z.shiftl (lap * LAP) SHIFT) in
  let head := wrapping_sub head (Z.shiftl (lap * LAP) SHIFT) in
  let tail := Z.shiftr tail SHIFT in
  let head := Z.shiftr head SHIFT in
  if tail - head - tail / LAP <? 0 then None else Some (tail - head - tail / LAP).

Fixpoint len_loop (fuel : nat) (from : option (list (entry T))) : prog Unbounded (Z * list (entry T) * list (entry T)) :=
  match fuel with
  | O => OutOfFuel
  | S fuel =>
      '(tail, l1) ← load_tail;
      '(head, l) ← load_head;
      '(tail2, _) ← load_tail;
      let from := default l1 from in
      if tail2 =? tail then
        match count tail head with Some n => mret (n, from, l) | None => Crash end
      else len_loop fuel (Some from)
  end.

(** The queue may be empty when a position has not yet moved to the next
    block, or has moved before the other. *)
Definition crossing (o : op T) (l : list (entry T)) : bool :=
  match o with
  | OIsEmpty => (0 <? Z.of_nat (popped l)) && (Z.of_nat (popped l) mod BLOCK_CAP =? 0)
  | _ => false
  end.

Definition is_empty : prog Unbounded (bool * list (entry T) * list (entry T)) :=
  '(head, l1) ← load_head;
  '(tail, l2) ← load_tail;
  let b := Z.shiftr head SHIFT =? Z.shiftr tail SHIFT in
  mret (b, l1, settle None crossing OIsEmpty (RBool b) l1 l2).

Definition fetch_close : prog Unbounded (Z * list (entry T)) :=
  atomic (fun σ => ((tail_index σ, ulog σ),
    with_tail (Z.lor (tail_index σ) MARK_BIT) (tail_block σ)
      (if has (tail_index σ) MARK_BIT then ulog σ else ulog σ ++ [EClose]) σ)).
Definition close : prog Unbounded (res T * list (entry T) * list (entry T)) :=
  '(t, l) ← fetch_close;
  if has t MARK_BIT then mret (RBool false, l, l) else mret (RBool true, l, l ++ [EClose]).
Definition is_closed : prog Unbounded (bool * list (entry T)) :=
  '(t, l) ← load_tail; mret (has t MARK_BIT, l).

(** [Drop]: the values dropped, in order, and the heap afterwards; [None]
    would read an empty slot, use a freed block, or not end. *)
Fixpoint drop_loop (n : nat) (head tail : Z) (block : option nat) (h : list (option Block))
    : option (list T * option nat * list (option Block)) :=
  if head =? tail then Some ([], block, h)
  else match n with
  | O => None
  | S n =>
      p ← block;
      b ← mjoin (h !! p);
      let head' := wrapping_add head (Z.shiftl 1 SHIFT) in
      if offset_of head <? BLOCK_CAP then
        s ← slots b !! Z.to_nat (offset_of head);
        match value s with
        | Single.Init v => '(vs, block, h) ← drop_loop n head' tail block h; Some (v :: vs, block, h)
        | _ => None
        end
      else drop_loop n head' tail (next b) (<[p := None]> h)
  end.
Definition drop_unbounded (n : nat) (σ : Unbounded) : option (list T * list (option Block)) :=
  let head := Z.land (head_index σ) (wnot (Z.shiftl 1 SHIFT - 1)) in
  let tail := Z.land (tail_index σ) (wnot (Z.shiftl 1 SHIFT - 1)) in
  '(vs, block, h) ← drop_loop n head tail (head_block σ) (heap σ);
  match block with
  | None => Some (vs, h)
  | Some p => _ ← mjoin (h !! p); Some (vs, <[p := None]> h)
  end.

(** [ConcurrentQueue] over an [Unbounded]. *)
Definition unbounded_code (fuel : nat) (o : op T) : prog Unbounded (res T * list (entry T) * list (entry T)) :=
  match o with
  | OPush v => push fuel v
  | OPop => pop fuel
  | OLen => '(n, from, l) ← len_loop fuel None; mret (RNum n, from, l)
  | OIsEmpty => '(b, from, l) ← is_empty; mret (RBool b, from, l)
  | OIsFull => '(_, l) ← load_tail; mret (RBool false, l, l)
  | OCapacity => '(_, l) ← load_tail; mret (RCap None, l, l)
  | OClose => close
  | OIsClosed => '(b, l) ← is_closed; mret (RBool b, l, l)
  end.
End code.
Arguments Unbounded T : clear implicits.
Arguments Block T : clear implicits.
Arguments Slot T : clear implicits.
