(* ===== verification/UnboundedInv.v ===== *)
(** The invariant of the unbounded queue, and the slots of its blocks.

    An auxiliary state says, for every item ever pushed, how far its writer
    and its reader are; for every block, how far the thread that links the
    next one and the thread that destroys it are; which blocks make up the
    queue; and who is moving the head to the next block ([ghost]).  The
    invariant [ginv] derives the words, the blocks and the heap from it.
    Each active phase is a token of exactly one thread ([own]); what a thread
    learned from a load is a token that can only become vacuous ([know]).

    The second half has the actions on slots and blocks: the writer, the
    reader, and the thread that destroys a block.  The actions on the words,
    and the theorem, are in [UnboundedProof]. *)

From stdpp Require Import gmap functions.
From S2P Require Import Prelude Conc QueueSpec Unbounded.
From S2P Require Single.

#[local] Open Scope Z_scope.

(** * Positions *)

(** The position of the [n]-th item: 31 of every 32. *)
Definition pos (n : nat) : Z := 32 * Z.of_nat (n / 31) + Z.of_nat (n mod 31).

Lemma split31 n : n = (31 * (n / 31) + n mod 31)%nat /\ (n mod 31 < 31)%nat.
Proof. split; [apply Nat.div_mod_eq|by apply Nat.mod_upper_bound]. Qed.

Lemma div31 k j n : n = (31 * k + j)%nat -> (j < 31)%nat -> (n / 31)%nat = k /\ (n mod 31)%nat = j.
Proof.
  intros -> Hj. split.
  - symmetry. apply (Nat.div_unique _ _ _ j); lia.
  - symmetry. apply (Nat.mod_unique _ _ k j); lia.
Qed.

Lemma pos_lap n : pos n / 32 = Z.of_nat (n / 31) /\ pos n mod 32 = Z.of_nat (n mod 31).
Proof.
  destruct (split31 n) as [_ Hr]. unfold pos. split.
  - symmetry. apply (Z.div_unique_pos _ _ _ (Z.of_nat (n mod 31))); lia.
  - symmetry. apply (Z.mod_unique_pos _ _ (Z.of_nat (n / 31))); lia.
Qed.

Lemma pos_cross n : (n mod 31 = 0)%nat -> (0 < n)%nat ->
  (pos n - 1) / 32 = Z.of_nat (n / 31) - 1 /\ (pos n - 1) mod 32 = 31 /\ (1 <= n / 31)%nat.
Proof.
  intros Hn Hp. destruct (split31 n) as [E _]. assert (1 <= n / 31)%nat by lia.
  assert (Hpos : pos n - 1 = 32 * (Z.of_nat (n / 31) - 1) + 31) by (unfold pos; lia).
  split_and!; [..|done].
  - symmetry. apply (Z.div_unique_pos _ _ _ 31); lia.
  - symmetry. apply (Z.mod_unique_pos _ _ (Z.of_nat (n / 31) - 1)); lia.
Qed.

Lemma pos_succ n : pos (S n) = if decide (n mod 31 = 30)%nat then pos n + 2 else pos n + 1.
Proof.
  destruct (split31 n) as [E Hr]. unfold pos. case_decide as Hd.
  - destruct (div31 (S (n / 31)) 0 (S n)) as [-> ->]; lia.
  - destruct (div31 (n / 31) (S (n mod 31)) (S n)) as [-> ->]; lia.
Qed.

Lemma pos_mono n m : (n <= m)%nat -> pos n <= pos m.
Proof. induction 1 as [|m _ IH]; [lia|]. rewrite pos_succ. case_decide; lia. Qed.

Lemma pos_lt n m : (n < m)%nat -> pos n + 1 <= pos m.
Proof. intros H%pos_mono. rewrite pos_succ in H. case_decide; lia. Qed.

Lemma pos_inj n m : pos n = pos m -> n = m.
Proof.
  intros E. destruct (Nat.lt_trichotomy n m) as [H|[H|H]]; [|done|]; apply pos_lt in H; lia.
Qed.

Lemma pos_nonneg n : 0 <= pos n.
Proof. unfold pos. lia. Qed.

Lemma pos_le n : pos n <= 2 * Z.of_nat n.
Proof. destruct (split31 n) as [E _]. unfold pos. lia. Qed.

(** A position and the bit under it. *)
Definition word (p : Z) (b : bool) : Z := 2 * p + Z.b2z b.

Lemma word_shift p b : Z.shiftr (word p b) SHIFT = p.
Proof.
  unfold SHIFT. rewrite Z.shiftr_div_pow2 by lia. unfold word. symmetry.
  apply (Z.div_unique_pos _ _ _ (Z.b2z b)); [|lia]. destruct b; cbn; lia.
Qed.

Lemma word_mod2 p b : word p b mod 2 = Z.b2z b.
Proof. symmetry. apply (Z.mod_unique_pos _ _ p); [|done]. destruct b; cbn; lia. Qed.

Lemma word_mark p b : has (word p b) MARK_BIT = b.
Proof. unfold has, MARK_BIT. rewrite land_1, word_mod2. by destruct b. Qed.

Lemma word_lor p b : Z.lor (word p b) MARK_BIT = word p true.
Proof.
  unfold MARK_BIT. destruct b.
  - apply lor_1_odd. by rewrite word_mod2.
  - rewrite lor_1_even by by rewrite word_mod2. unfold word. cbn. lia.
Qed.

Lemma pos_word_clear p b : 0 <= word p b <= usize_MAX -> Z.land (word p b) (wnot MARK_BIT) = word p false.
Proof. intros H. unfold MARK_BIT. rewrite land_wnot_1, word_mod2 by done. unfold word. cbn. lia. Qed.

Lemma word_offset p b : offset_of (word p b) = p mod 32.
Proof. unfold offset_of. by rewrite word_shift. Qed.

Lemma word_inj p q b c : word p b = word q c -> p = q /\ b = c.
Proof.
  intros E. split.
  - by rewrite <- (word_shift p b), E, word_shift.
  - by rewrite <- (word_mark p b), E, word_mark.
Qed.

(** * The auxiliary state *)

(** The thread that destroys a block: none yet, at a slot, waiting at a slot
    for its reader, or done. *)
Inductive dstate := DNone | Run (i : nat) | Park (i : nat) | Freed.

#[export] Instance dstate_eq_dec : EqDecision dstate.
Proof. solve_decision. Defined.

(** A writer: 0 none, 1 has the slot, 2 writes, 3 has written, 4 done.
    A reader: 0 none, 1 has the slot, 2 saw [WRITE], 3 reads, 4 has read,
    5 done.  The link of a block to the next: 0 not needed yet, 1 the last
    slot is taken, 2 the tail's block is stored, 3 its index too, 4 done.
    The head on its way from a block to the next one: 0 waits for it, 1 has
    it, 2 has stored it. *)
Record ghost := mkGhost {
  wr : nat -> nat; rd : nat -> nat; flag : nat -> bool;
  link : nat -> nat; dest : nat -> dstate; chain : list nat;
  hphase : option (nat * nat); inst : bool; priv : gset nat }.

Definition set_wr n x G := mkGhost (<[n := x]> (wr G)) (rd G) (flag G) (link G) (dest G) (chain G) (hphase G) (inst G) (priv G).
Definition set_rd n x G := mkGhost (wr G) (<[n := x]> (rd G)) (flag G) (link G) (dest G) (chain G) (hphase G) (inst G) (priv G).
Definition set_flag n x G := mkGhost (wr G) (rd G) (<[n := x]> (flag G)) (link G) (dest G) (chain G) (hphase G) (inst G) (priv G).
Definition set_link k x G := mkGhost (wr G) (rd G) (flag G) (<[k := x]> (link G)) (dest G) (chain G) (hphase G) (inst G) (priv G).
Definition set_dest k x G := mkGhost (wr G) (rd G) (flag G) (link G) (<[k := x]> (dest G)) (chain G) (hphase G) (inst G) (priv G).
Definition set_chain c G := mkGhost (wr G) (rd G) (flag G) (link G) (dest G) c (hphase G) (inst G) (priv G).
Definition set_hphase h G := mkGhost (wr G) (rd G) (flag G) (link G) (dest G) (chain G) h (inst G) (priv G).
Definition set_inst i G := mkGhost (wr G) (rd G) (flag G) (link G) (dest G) (chain G) (hphase G) i (priv G).
Definition set_priv s G := mkGhost (wr G) (rd G) (flag G) (link G) (dest G) (chain G) (hphase G) (inst G) s.

Definition ghost_new : ghost :=
  mkGhost (fun _ => 0%nat) (fun _ => 0%nat) (fun _ => false) (fun _ => 0%nat) (fun _ => DNone) [] None false ∅.

(** The item in slot [j] of block [k]. *)
Definition item (k j : nat) : nat := (31 * k + j)%nat.

Definition in_transit (N : nat) (G : ghost) : Prop := (N mod 31 = 0 /\ 0 < N /\ link G (N / 31 - 1) <= 2)%nat.
Definition to_link (N : nat) (G : ghost) : Prop := (N mod 31 = 0 /\ 0 < N /\ link G (N / 31 - 1) = 1)%nat.
#[export] Instance in_transit_dec N G : Decision (in_transit N G).
Proof. unfold in_transit. apply _. Defined.
#[export] Instance to_link_dec N G : Decision (to_link N G).
Proof. unfold to_link. apply _. Defined.

Definition tail_pos (N : nat) (G : ghost) : Z := pos N - (if decide (in_transit N G) then 1 else 0).
Definition head_pos (M : nat) (G : ghost) : Z := pos M - (if hphase G then 1 else 0).

(** The lap of the head's block. *)
Definition head_lap (M : nat) (G : ghost) : nat :=
  match hphase G with Some (k, (0%nat | 1%nat)) => k | Some (k, _) => S k | None => M / 31 end.

Definition dest_ok (k : nat) (G : ghost) : Prop :=
  match dest G k with
  | DNone => rd G (item k 30) <> 5%nat /\ (forall j, (j < 31)%nat -> flag G (item k j) = false)
  | Run i => (i <= 30)%nat /\ rd G (item k 30) = 5%nat /\ (forall j, (j < i)%nat -> rd G (item k j) = 5%nat) /\
      (forall j, (i <= j < 31)%nat -> flag G (item k j) = false)
  | Park i => (i < 30)%nat /\ rd G (item k 30) = 5%nat /\ (forall j, (j < i)%nat -> rd G (item k j) = 5%nat) /\
      rd G (item k i) <> 5%nat /\ flag G (item k i) = true /\ (forall j, (i < j < 31)%nat -> flag G (item k j) = false)
  | Freed => forall j, (j < 31)%nat -> rd G (item k j) = 5%nat
  end.

Section inv.
Context {T : Type} `{Countable T}.
Local Abbreviation toks := (list_to_set_disj (A:=qtok T) (C:=gmultiset (qtok T))).
Local Abbreviation returned := (done_tokens None crossing).

Definition cell_of (l : list (entry T)) (G : ghost) (n : nat) : cell T :=
  match wr G n with
  | 0%nat | 1%nat => Uninit
  | 2%nat => Busy
  | _ => match rd G n with
         | 0%nat | 1%nat | 2%nat => match pushed l !! n with Some v => Init v | None => Uninit end
         | 3%nat => Busy
         | _ => Uninit
         end
  end.
Definition bits (w r d : bool) : Z := Z.b2z w + 2 * Z.b2z r + 4 * Z.b2z d.
Definition state_of (G : ghost) (n : nat) : Z :=
  bits (bool_decide (wr G n = 4%nat)) (bool_decide (rd G n = 5%nat /\ (n mod 31)%nat <> 30%nat)) (flag G n).
Definition slot_of (l : list (entry T)) (G : ghost) (n : nat) : Slot T := mkSlot (state_of G n) (cell_of l G n).

Definition next_of (k : nat) (G : ghost) : option nat := if decide (link G k = 4%nat) then chain G !! S k else None.
Definition block_of (l : list (entry T)) (G : ghost) (k : nat) : Block T :=
  mkBlock (next_of k G) ((fun j => slot_of l G (item k j)) <$> seq 0 31).

Record ginv (σ : Unbounded T) (G : ghost) : Prop := {
  g_tail : tail_index σ = word (tail_pos (length (pushed (ulog σ))) G) (closed_in (ulog σ));
  g_tblock : tail_block σ = last (chain G);
  g_empty : chain G = [] -> length (pushed (ulog σ)) = 0%nat /\ inst G = false;
  g_chain : chain G <> [] -> let N := length (pushed (ulog σ)) in
    length (chain G) = if decide (to_link N G) then (N / 31)%nat else S (N / 31);
  g_nodup : NoDup (chain G);
  g_link k : let N := length (pushed (ulog σ)) in
    (link G k = 0 <-> N < 31 * (k + 1))%nat /\ (link G k <= 4)%nat /\
    (link G k = 1 \/ link G k = 2 -> N = 31 * (k + 1))%nat;
  g_head : exists mark, head_index σ = word (head_pos (popped (ulog σ)) G) mark /\
    (mark = true -> hphase G = None -> popped (ulog σ) / 31 < length (pushed (ulog σ)) / 31)%nat;
  g_hphase : match hphase G with
    | None => forall k, (k < popped (ulog σ) / 31)%nat -> link G k = 4%nat
    | Some (k, ph) => (ph <= 2)%nat /\ popped (ulog σ) = (31 * (k + 1))%nat /\
        (forall k', (k' < k)%nat -> link G k' = 4%nat) /\ ((1 <= ph)%nat -> link G k = 4%nat)
    end;
  g_hblock : head_block σ = if inst G then None else chain G !! head_lap (popped (ulog σ)) G;
  g_inst : inst G = true -> popped (ulog σ) = 0%nat;
  g_items n : (wr G n = 0 <-> length (pushed (ulog σ)) <= n)%nat /\ (rd G n = 0 <-> popped (ulog σ) <= n)%nat /\
    (wr G n <= 4)%nat /\ (rd G n <= 5)%nat /\ (2 <= rd G n -> wr G n = 4)%nat;
  g_dest k : dest_ok k G;
  g_heap k p : chain G !! k = Some p ->
    heap σ !! p = Some (if decide (dest G k = Freed) then None else Some (block_of (ulog σ) G k));
  g_priv p : p ∈ priv G -> heap σ !! p = Some (Some block_new) /\ p ∉ chain G;
  g_leak p b : heap σ !! p = Some (Some b) -> p ∈ chain G \/ p ∈ priv G }.

(** ** Tokens *)

Definition wtok (x n : nat) : list (qtok T) := if decide (1 <= x <= 3)%nat then [Tk 0 (Z.of_nat x) (Z.of_nat n)] else [].
Definition rtok (x n : nat) : list (qtok T) := if decide (1 <= x <= 4)%nat then [Tk 1 (Z.of_nat x) (Z.of_nat n)] else [].
Definition dtok (d : dstate) (k : nat) : list (qtok T) := match d with Run i => [Tk 2 (Z.of_nat i) (Z.of_nat k)] | _ => [] end.
Definition ltok (x k : nat) : list (qtok T) := if decide (1 <= x <= 3)%nat then [Tk 3 (Z.of_nat x) (Z.of_nat k)] else [].
Definition ptok (p : nat) : list (qtok T) := [Tk 4 0 (Z.of_nat p)].
Definition htok (h : option (nat * nat)) : list (qtok T) :=
  match h with Some (k, ph) => [Tk 5 (Z.of_nat ph) (Z.of_nat k)] | None => [] end.
Definition itok (i : bool) : list (qtok T) := if i then [Tk 6 0 0] else [].

(** How often a phase is owned. *)
Definition own (G : ghost) (kd : nat) (a b : Z) : nat :=
  let n := Z.to_nat b in
  occ (Tk kd a b) match kd with
    | 0%nat => wtok (wr G n) n
    | 1%nat => rtok (rd G n) n
    | 2%nat => dtok (dest G n) n
    | 3%nat => ltok (link G n) n
    | 4%nat => if decide (n ∈ priv G) then ptok n else []
    | 5%nat => htok (hphase G)
    | 6%nat => itok (inst G)
    | _ => []
    end.

Definition know (σ : Unbounded T) (G : ghost) (kd : nat) (a b : Z) : Prop :=
  match kd with
  | 7%nat => a <= tail_index σ /\ (tail_index σ = a -> offset_of a <> BLOCK_CAP -> tail_block σ = Some (Z.to_nat b))
  | 8%nat => a <= tail_index σ
  | 9%nat => a <= head_index σ /\ (head_index σ = a -> offset_of a <> BLOCK_CAP -> head_block σ = Some (Z.to_nat b))
  | 10%nat => a <= head_index σ
  | 11%nat => a <= head_index σ /\ (head_index σ = a ->
      (popped (ulog σ) < length (pushed (ulog σ)) /\ (b = 1%Z -> popped (ulog σ) / 31 < length (pushed (ulog σ)) / 31))%nat)
  | 12%nat => 0 <= a /\ 0 <= b /\ chain G !! Z.to_nat a = Some (Z.to_nat b)
  | _ => True
  end.

(** Words only grow, and while they stay what depends on them stays. *)
Record later (σ : Unbounded T) (G : ghost) (σ' : Unbounded T) (G' : ghost) : Prop := {
  l_tail : tail_index σ <= tail_index σ';
  l_tblock p : tail_index σ' = tail_index σ -> offset_of (tail_index σ) <> BLOCK_CAP ->
    tail_block σ = Some p -> tail_block σ' = Some p;
  l_head : head_index σ <= head_index σ';
  l_hblock p : head_index σ' = head_index σ -> offset_of (head_index σ) <> BLOCK_CAP ->
    head_block σ = Some p -> head_block σ' = Some p;
  l_popped : head_index σ' = head_index σ -> popped (ulog σ') = popped (ulog σ);
  l_log : ulog σ `prefix_of` ulog σ';
  l_chain : chain G `prefix_of` chain G' }.

Lemma know_later σ G σ' G' kd a b : later σ G σ' G' -> know σ G kd a b -> know σ' G' kd a b.
Proof.
  intros [Ht Htb Hh Hhb Hp Hl Hc] Hk. pose proof (pushed_mono _ _ Hl) as Hpm.
  destruct kd as [|[|[|[|[|[|[|[|[|[|[|[|[|kd]]]]]]]]]]]]]; cbn [know] in *; try done.
  - destruct Hk as [Hle Hb]. split; [lia|]. intros E Ho. assert (E' : tail_index σ = a) by lia.
    apply Htb; [lia|by rewrite E'|by apply Hb].
  - lia.
  - destruct Hk as [Hle Hb]. split; [lia|]. intros E Ho. assert (E' : head_index σ = a) by lia.
    apply Hhb; [lia|by rewrite E'|by apply Hb].
  - lia.
  - destruct Hk as [Hle Hb]. split; [lia|]. intros E. assert (E' : head_index σ = a) by lia.
    destruct (Hb E') as [Hb1 Hb2]. rewrite Hp by lia. split; [lia|]. intros Hb3. specialize (Hb2 Hb3).
    pose proof (Nat.Div0.div_le_mono _ _ 31 Hpm). lia.
  - destruct Hk as (? & ? & Hk). split_and!; [done..|]. by eapply prefix_lookup_Some.
Qed.

Lemma later_refl σ G : later σ G σ G.
Proof. by split. Qed.

Context {limit : nat}.

Definition uinv (σ : Unbounded T) (m : gmultiset (qtok T)) : Prop :=
  hist_inv None (ulog σ) m /\
  (length (pushed (ulog σ)) + multiplicity Budget m <= limit)%nat /\
  exists G, ginv σ G /\
    (forall kd a b, (kd < 7)%nat -> multiplicity (Tk kd a b) m = own G kd a b) /\
    (forall kd a b, (7 <= kd)%nat -> Tk kd a b ∈ m -> know σ G kd a b).

(** Tokens [L] given up for [L'] while the history stays [l]. *)
Definition exchange l (L L' : list (qtok T)) : Prop :=
  occ Bad L' = occ Bad L /\ (forall x, Lb x ∈ L' -> Lb x ∈ L \/ x `prefix_of` l) /\
  (forall n, occ (Did n) L' = occ (Did n) L) /\ (occ Budget L' <= occ Budget L)%nat.

(** What a thread that holds [L] can rely on. *)
Record sees (σ : Unbounded T) (G : ghost) (L : list (qtok T)) : Prop := {
  s_inv : ginv σ G;
  s_queue : exists qa, state_at None (ulog σ) = Some qa;
  s_limit : (length (pushed (ulog σ)) + occ Budget L <= limit)%nat;
  s_own kd a b : (kd < 7)%nat -> Tk kd a b ∈ L -> own G kd a b <> 0%nat;
  s_know kd a b : (7 <= kd)%nat -> Tk kd a b ∈ L -> know σ G kd a b;
  s_lb l : Lb l ∈ L -> l `prefix_of` ulog σ }.

Lemma uinv_sees σ L fr : uinv σ (toks L ⊎ fr) -> exists G, sees σ G L /\
  (forall kd a b, (kd < 7)%nat -> multiplicity (Tk kd a b) (toks L ⊎ fr) = own G kd a b) /\
  (forall kd a b, (7 <= kd)%nat -> Tk kd a b ∈ toks L ⊎ fr -> know σ G kd a b).
Proof.
  intros (Hh & Hn & G & HG & Ho & Hk). exists G. split; [|done].
  assert (Hin : forall x, x ∈ L -> x ∈ toks L ⊎ fr).
  { intros x Hx. apply gmultiset_elem_of_disj_union. left. by apply elem_of_list_to_set_disj. }
  split; [done|apply Hh| | | |].
  - rewrite multiplicity_disj_union, multiplicity_list in Hn. lia.
  - intros kd a b Hkd Hx. specialize (Ho kd a b Hkd).
    apply Hin in Hx. rewrite elem_of_multiplicity in Hx. lia.
  - intros kd a b Hkd Hx. by apply Hk, Hin.
  - intros l Hl. by apply Hh, Hin.
Qed.

(** One action, whatever the others own. *)
Lemma ok_step {A} (f : Unbounded T -> option (Unbounded T * prog (Unbounded T) A)) L (Q : gmultiset (qtok T) -> A -> Prop) :
  (forall σ G, sees σ G L -> exists σ' a G' L', f σ = Some (σ', Ret a) /\
     ginv σ' G' /\ later σ G σ' G' /\ (exists q, state_at None (ulog σ') = Some q) /\
     (occ Bad L' = occ Bad L /\ (forall x, Lb x ∈ L' -> Lb x ∈ L \/ x `prefix_of` ulog σ') /\
      (forall n, occ (Did n) L' = (occ (Did n) L + if decide (length (ulog σ) < n <= length (ulog σ'))%nat then 1 else 0)%nat) /\
      (length (pushed (ulog σ')) + occ Budget L' <= length (pushed (ulog σ)) + occ Budget L)%nat) /\
     (forall kd x y, (kd < 7)%nat -> (occ (Tk kd x y) L' + own G kd x y = occ (Tk kd x y) L + own G' kd x y)%nat) /\
     (forall kd x y, (7 <= kd)%nat -> Tk kd x y ∈ L' -> Tk kd x y ∈ L \/ know σ' G' kd x y) /\
     Q (toks L') a) ->
  ok uinv (toks L) (Act f) Q.
Proof.
  intros Hf σ fr HI. destruct (uinv_sees _ _ _ HI) as (G & Hsee & Hown & Hknow).
  destruct (Hf σ G Hsee) as (σ' & a & G' & L' & -> & HG' & Hlat & Hq & (Hb & Hlb & Hd & Hbu) & Ho & Hk & HQ).
  right. exists (toks L'). split; [|done]. destruct HI as (Hh & Hn & _). split; [|split].
  - eapply hist_inv_step; [exact Hh|apply Hlat|done..].
  - rewrite multiplicity_disj_union, multiplicity_list in *. lia.
  - exists G'. split; [done|]. split.
    + intros kd x y Hkd. specialize (Hown kd x y Hkd). specialize (Ho kd x y Hkd).
      rewrite multiplicity_disj_union, multiplicity_list in *. lia.
    + intros kd x y Hkd Hin. apply gmultiset_elem_of_disj_union in Hin as [Hin|Hin].
      * apply elem_of_list_to_set_disj, Hk in Hin as [Hin|?]; [|done|done].
        eapply know_later; [done|]. by eapply (s_know _ _ _ Hsee).
      * eapply know_later; [done|]. apply Hknow; [done|]. apply gmultiset_elem_of_disj_union. by right.
Qed.

(** The same for an action that leaves the history alone. *)
Lemma ok_action {A} (f : Unbounded T -> option (Unbounded T * prog (Unbounded T) A)) L (Q : gmultiset (qtok T) -> A -> Prop) :
  (forall σ G, sees σ G L -> exists σ' a G' L', f σ = Some (σ', Ret a) /\
     ginv σ' G' /\ later σ G σ' G' /\ ulog σ' = ulog σ /\ exchange (ulog σ) L L' /\
     (forall kd x y, (kd < 7)%nat -> (occ (Tk kd x y) L' + own G kd x y = occ (Tk kd x y) L + own G' kd x y)%nat) /\
     (forall kd x y, (7 <= kd)%nat -> Tk kd x y ∈ L' -> Tk kd x y ∈ L \/ know σ' G' kd x y) /\
     Q (toks L') a) ->
  ok uinv (toks L) (Act f) Q.
Proof.
  intros Hf. apply ok_step. intros σ G Hsee.
  destruct (Hf σ G Hsee) as (σ' & a & G' & L' & Hf' & HG' & Hlat & Hlog & (Hb & Hlb & Hd & Hbu) & Ho & Hk & HQ).
  exists σ', a, G', L'. rewrite Hlog. split; [done|]. split; [done|]. split; [done|]. split; [apply Hsee|].
  split; [|done]. split; [done|]. split; [done|]. split; [|lia]. intros n. rewrite Hd, decide_False by lia. lia.
Qed.

(** ** Tokens of a phase *)

Lemma fn_at {A} (f : nat -> A) n x m : <[n := x]> f m = if decide (n = m) then x else f m.
Proof. case_decide as E; [subst; apply fn_lookup_insert|by apply fn_lookup_insert_ne]. Qed.

(** A phase token names its item. *)
Lemma other_item (t : nat -> list (qtok T)) kd' n kd a b :
  (forall m x, x ∈ t m -> exists c, x = Tk kd' c (Z.of_nat m)) -> Z.to_nat b <> n ->
  occ (Tk kd a b) (t n) = 0%nat.
Proof.
  intros Ht Hne. destruct (decide (occ (Tk kd a b) (t n) = 0%nat)) as [|E]; [done|].
  apply occ_elem, Ht in E as [c E]. injection E as _ _ E. exfalso. apply Hne. by rewrite E, Nat2Z.id.
Qed.

Lemma wtok_item x m t : t ∈ wtok x m -> exists c, t = Tk 0 c (Z.of_nat m).
Proof. unfold wtok. case_decide; intros Ht; [apply list_elem_of_singleton in Ht as ->; by eexists|by apply elem_of_nil in Ht]. Qed.
Lemma rtok_item x m t : t ∈ rtok x m -> exists c, t = Tk 1 c (Z.of_nat m).
Proof. unfold rtok. case_decide; intros Ht; [apply list_elem_of_singleton in Ht as ->; by eexists|by apply elem_of_nil in Ht]. Qed.
Lemma dtok_item x m t : t ∈ dtok x m -> exists c, t = Tk 2 c (Z.of_nat m).
Proof. destruct x; cbn; intros Ht; try by apply elem_of_nil in Ht. apply list_elem_of_singleton in Ht as ->. by eexists. Qed.
Lemma ltok_item x m t : t ∈ ltok x m -> exists c, t = Tk 3 c (Z.of_nat m).
Proof. unfold ltok. case_decide; intros Ht; [apply list_elem_of_singleton in Ht as ->; by eexists|by apply elem_of_nil in Ht]. Qed.

(** Tokens of one kind do not count for another. *)
Lemma other_kind (t : list (qtok T)) kd' kd a b :
  (forall x, x ∈ t -> exists c d, x = Tk kd' c d) -> kd <> kd' -> occ (Tk kd a b) t = 0%nat.
Proof.
  intros Ht Hne. destruct (decide (occ (Tk kd a b) t = 0%nat)) as [|E]; [done|].
  apply occ_elem, Ht in E as (c & d & E). by injection E.
Qed.

Lemma own_update {A} (f : nat -> A) (t : A -> nat -> list (qtok T)) kd' n x kd a b :
  (forall y m z, z ∈ t y m -> exists c, z = Tk kd' c (Z.of_nat m)) -> kd = kd' ->
  (occ (Tk kd a b) (t (<[n := x]> f (Z.to_nat b)) (Z.to_nat b)) + occ (Tk kd a b) (t (f n) n) =
   occ (Tk kd a b) (t (f (Z.to_nat b)) (Z.to_nat b)) + occ (Tk kd a b) (t x n))%nat.
Proof.
  intros Ht ->. rewrite fn_at. destruct (decide (n = Z.to_nat b)) as [->|Hne]; [lia|].
  rewrite !(other_item (t _) kd' n) by (intros; by eauto || done). lia.
Qed.

(** The slot of an item moves on, with the destruction of its block. *)
Definition upd (k j w r : nat) (f : bool) (d : dstate) (G : ghost) : ghost :=
  set_dest k d (set_flag (item k j) f (set_rd (item k j) r (set_wr (item k j) w G))).

Ltac no_kind := repeat first
  [ rewrite (other_kind (wtok _ _) 0) by first [intros ? Hz; apply wtok_item in Hz as [? ->]; by do 2 eexists|done]
  | rewrite (other_kind (rtok _ _) 1) by first [intros ? Hz; apply rtok_item in Hz as [? ->]; by do 2 eexists|done]
  | rewrite (other_kind (dtok _ _) 2) by first [intros ? Hz; apply dtok_item in Hz as [? ->]; by do 2 eexists|done]
  | rewrite (other_kind (ltok _ _) 3) by first [intros ? Hz; apply ltok_item in Hz as [? ->]; by do 2 eexists|done] ].

Lemma own_upd k j w r f d G kd a b : let n := item k j in
  (own (upd k j w r f d G) kd a b + occ (Tk kd a b) (wtok (wr G n) n ++ rtok (rd G n) n ++ dtok (dest G k) k) =
   own G kd a b + occ (Tk kd a b) (wtok w n ++ rtok r n ++ dtok d k))%nat.
Proof.
  intros n. rewrite !occ_app. unfold own, upd. cbn [wr rd dest link priv hphase inst set_dest set_flag set_rd set_wr].
  destruct kd as [|[|[|kd]]].
  - no_kind. pose proof (own_update (wr G) wtok 0 n w 0 a b wtok_item eq_refl). unfold n in *. lia.
  - no_kind. pose proof (own_update (rd G) rtok 1 n r 1 a b rtok_item eq_refl). unfold n in *. lia.
  - no_kind. pose proof (own_update (dest G) dtok 2 k d 2 a b dtok_item eq_refl). unfold n in *. lia.
  - no_kind. done.
Qed.

Lemma own_link k x G kd a b :
  (own (set_link k x G) kd a b + occ (Tk kd a b) (ltok (link G k) k) = own G kd a b + occ (Tk kd a b) (ltok x k))%nat.
Proof.
  unfold own. cbn [wr rd dest link priv hphase inst set_link].
  destruct kd as [|[|[|[|kd]]]]; [no_kind; done..| |no_kind; done].
  pose proof (own_update (link G) ltok 3 k x 3 a b ltok_item eq_refl). lia.
Qed.

Lemma own_hphase h G kd a b :
  (own (set_hphase h G) kd a b + occ (Tk kd a b) (htok (hphase G)) = own G kd a b + occ (Tk kd a b) (htok h))%nat.
Proof.
  unfold own. cbn [wr rd dest link priv hphase inst set_hphase].
  destruct (decide (kd = 5%nat)) as [->|Hne]; [lia|].
  rewrite (other_kind (htok (hphase G)) 5), (other_kind (htok h) 5); try done;
    try (intros x Hx; unfold htok in Hx; repeat case_match; [apply list_elem_of_singleton in Hx as ->; by do 2 eexists|by apply elem_of_nil in Hx]).
  by destruct kd as [|[|[|[|[|[|kd]]]]]].
Qed.

Lemma own_inst i G kd a b :
  (own (set_inst i G) kd a b + occ (Tk kd a b) (itok (inst G)) = own G kd a b + occ (Tk kd a b) (itok i))%nat.
Proof.
  unfold own. cbn [wr rd dest link priv hphase inst set_inst].
  destruct (decide (kd = 6%nat)) as [->|Hne]; [lia|].
  rewrite (other_kind (itok (inst G)) 6), (other_kind (itok i) 6); try done;
    try (intros x Hx; unfold itok in Hx; case_match; [apply list_elem_of_singleton in Hx as ->; by do 2 eexists|by apply elem_of_nil in Hx]).
  by destruct kd as [|[|[|[|[|[|[|kd]]]]]]].
Qed.

Lemma own_box p s G kd a b : p ∉ s ->
  (own (set_priv ({[p]} ∪ s) G) kd a b = own (set_priv s G) kd a b + occ (Tk kd a b) (ptok p))%nat.
Proof.
  intros Hp. unfold own. cbn [wr rd dest link priv hphase inst set_priv].
  destruct (decide (kd = 4%nat)) as [->|Hne].
  - destruct (decide (p = Z.to_nat b)) as [->|Hpb].
    + rewrite decide_True, (decide_False (P := _ ∈ s)) by set_solver. cbn. lia.
    + assert (E : occ (Tk 4 a b) (ptok p) = 0%nat).
      { cbn. rewrite decide_False; [done|]. intros [= -> ->]. apply Hpb. lia. }
      rewrite E. destruct (decide (Z.to_nat b ∈ s)).
      * rewrite decide_True by set_solver. lia.
      * rewrite decide_False by set_solver. done.
  - rewrite (other_kind (ptok p) 4) by (try done; intros x Hx; apply list_elem_of_singleton in Hx as ->; by do 2 eexists).
    destruct kd as [|[|[|[|[|kd]]]]]; try done; lia.
Qed.

(** What a phase token says. *)
Lemma own_wr ph n G : own G 0 (Z.of_nat ph) (Z.of_nat n) <> 0%nat -> wr G n = ph /\ (1 <= ph <= 3)%nat.
Proof.
  unfold own. rewrite Nat2Z.id. unfold wtok. case_decide; cbn [occ]; [|done].
  case_decide as E; [|done]. injection E. lia.
Qed.
Lemma own_rd ph n G : own G 1 (Z.of_nat ph) (Z.of_nat n) <> 0%nat -> rd G n = ph /\ (1 <= ph <= 4)%nat.
Proof.
  unfold own. rewrite Nat2Z.id. unfold rtok. case_decide; cbn [occ]; [|done].
  case_decide as E; [|done]. injection E. lia.
Qed.
Lemma own_dest i k G : own G 2 (Z.of_nat i) (Z.of_nat k) <> 0%nat -> dest G k = Run i.
Proof.
  unfold own. rewrite Nat2Z.id. unfold dtok. destruct (dest G k) as [|i'| |]; cbn [occ]; try done.
  case_decide as E; [|done]. injection E. intros ?%Nat2Z.inj. by subst.
Qed.
Lemma own_ln ph k G : own G 3 (Z.of_nat ph) (Z.of_nat k) <> 0%nat -> link G k = ph /\ (1 <= ph <= 3)%nat.
Proof.
  unfold own. rewrite Nat2Z.id. unfold ltok. case_decide; cbn [occ]; [|done].
  case_decide as E; [|done]. injection E. lia.
Qed.
Lemma own_priv p G : own G 4 0 (Z.of_nat p) <> 0%nat -> p ∈ priv G.
Proof. unfold own. rewrite Nat2Z.id. by case_decide. Qed.
Lemma own_h ph k G : own G 5 (Z.of_nat ph) (Z.of_nat k) <> 0%nat -> hphase G = Some (k, ph).
Proof.
  unfold own, htok. destruct (hphase G) as [[k' ph']|]; cbn [occ]; [|done].
  case_decide as E; [|done]. injection E. intros ?%Nat2Z.inj ?%Nat2Z.inj. by subst.
Qed.
Lemma own_i G : own G 6 0 0 <> 0%nat -> inst G = true.
Proof. unfold own, itok. by destruct (inst G). Qed.

(** ** Actions on a slot *)

Lemma item_inj k j k' j' : (j < 31)%nat -> (j' < 31)%nat -> item k j = item k' j' -> k = k' /\ j = j'.
Proof.
  intros Hj Hj' E. destruct (div31 k j (item k j)) as [E1 E2]; [done..|].
  destruct (div31 k' j' (item k j)) as [E3 E4]; [done..|]. lia.
Qed.

Lemma item_split n : n = item (n / 31) (n mod 31).
Proof. apply split31. Qed.

Section upd.
Context (k j w r : nat) (f : bool) (d : dstate) (G : ghost).
Lemma upd_wr m : wr (upd k j w r f d G) m = if decide (item k j = m) then w else wr G m.
Proof. apply fn_at. Qed.
Lemma upd_rd m : rd (upd k j w r f d G) m = if decide (item k j = m) then r else rd G m.
Proof. apply fn_at. Qed.
Lemma upd_flag m : flag (upd k j w r f d G) m = if decide (item k j = m) then f else flag G m.
Proof. apply fn_at. Qed.
Lemma upd_dest m : dest (upd k j w r f d G) m = if decide (k = m) then d else dest G m.
Proof. apply fn_at. Qed.
Lemma upd_slot l m : m <> item k j -> slot_of l (upd k j w r f d G) m = slot_of l G m.
Proof.
  intros Hm. unfold slot_of, state_of, cell_of. by rewrite upd_wr, upd_rd, upd_flag, !(decide_False (P := item k j = m)) by done.
Qed.
End upd.

Lemma dest_ok_ext k G G' :
  dest G' k = dest G k ->
  (forall j, (j < 31)%nat -> (rd G' (item k j) = 5%nat <-> rd G (item k j) = 5%nat) /\ flag G' (item k j) = flag G (item k j)) ->
  dest_ok k G -> dest_ok k G'.
Proof.
  intros Hd He. unfold dest_ok. rewrite Hd.
  assert (Hf : forall j, (j < 31)%nat -> flag G' (item k j) = flag G (item k j)) by apply He.
  assert (Hr : forall j, (j < 31)%nat -> rd G' (item k j) = 5%nat <-> rd G (item k j) = 5%nat) by apply He.
  destruct (dest G k) as [|i|i|].
  - intros [H1 H2]. split; [by rewrite Hr by lia|]. intros j Hj. rewrite Hf by done. auto.
  - intros (H1 & H2 & H3 & H4). split_and!; [done|by apply Hr; [lia|]| |].
    + intros j Hj. apply Hr; [lia|auto].
    + intros j Hj. rewrite Hf by lia. auto.
  - intros (H1 & H2 & H3 & H4 & H5 & H6). split_and!; [done|by apply Hr; [lia|]| |by rewrite Hr by lia|by rewrite Hf by lia|].
    + intros j Hj. apply Hr; [lia|auto].
    + intros j Hj. rewrite Hf by lia. auto.
  - intros H1 j Hj. apply Hr; auto.
Qed.

Lemma block_slots_lookup l G k j : (j < 31)%nat -> slots (block_of l G k) !! j = Some (slot_of l G (item k j)).
Proof. intros Hj. unfold block_of. cbn [slots]. by rewrite list_lookup_fmap, lookup_seq_lt. Qed.

Lemma block_upd l k j w r f d G : (j < 31)%nat ->
  block_of l (upd k j w r f d G) k =
  mkBlock (next_of k G) (<[j := slot_of l (upd k j w r f d G) (item k j)]> (slots (block_of l G k))).
Proof.
  intros Hj. set (G' := upd k j w r f d G).
  enough (slots (block_of l G' k) = <[j := slot_of l G' (item k j)]> (slots (block_of l G k))) as <- by done.
  assert (Hlen : forall G, length (slots (block_of l G k)) = 31%nat) by (intros; unfold block_of; cbn [slots]; by rewrite length_fmap, length_seq).
  apply list_eq. intros i. destruct (decide (i < 31)%nat) as [Hi|Hi].
  2:{ rewrite !lookup_ge_None_2; [done|..]; rewrite ?length_insert, Hlen; lia. }
  rewrite block_slots_lookup by done. destruct (decide (i = j)) as [->|Hne].
  - by rewrite list_lookup_insert_eq by (rewrite Hlen; lia).
  - rewrite list_lookup_insert_ne, block_slots_lookup by done. f_equal. apply upd_slot.
    intros E. apply Hne. by apply item_inj in E as [_ ->].
Qed.

Lemma block_same l l' G G' k :
  next_of k G' = next_of k G -> (forall j, (j < 31)%nat -> slot_of l' G' (item k j) = slot_of l G (item k j)) ->
  block_of l' G' k = block_of l G k.
Proof.
  intros Hn Hs. unfold block_of. f_equal; [done|]. apply list_fmap_ext.
  intros i x Hx. apply lookup_seq in Hx as [-> Hx]. by apply Hs.
Qed.

(** A block that is not freed is in the heap. *)
Lemma block_alive σ G k p : ginv σ G -> chain G !! k = Some p -> dest G k <> Freed ->
  heap σ !! p = Some (Some (block_of (ulog σ) G k)).
Proof. intros HG Hk Hd. rewrite (g_heap _ _ HG k p Hk). by rewrite decide_False. Qed.

(** A reader that is not done keeps its block. *)
Lemma not_freed σ G k j : ginv σ G -> (j < 31)%nat -> rd G (item k j) <> 5%nat -> dest G k <> Freed.
Proof. intros HG Hj Hr E. pose proof (g_dest _ _ HG k) as Hd. unfold dest_ok in Hd. rewrite E in Hd. by apply Hr, Hd. Qed.

Lemma chain_inj σ G k k' p : ginv σ G -> chain G !! k = Some p -> chain G !! k' = Some p -> k = k'.
Proof. intros HG. by apply NoDup_lookup, (g_nodup _ _ HG). Qed.

(** The heap after a change of the block [p], the [k]-th of the chain. *)
Lemma heap_block σ G G' k p b (o : option (Block T)) :
  ginv σ G -> chain G' = chain G -> priv G' = priv G -> chain G !! k = Some p ->
  (if decide (dest G' k = Freed) then o = None else o = Some b /\ block_of (ulog σ) G' k = b) ->
  (forall k', k' <> k -> dest G' k' = dest G k' /\ block_of (ulog σ) G' k' = block_of (ulog σ) G k') ->
  let h := <[p := o]> (heap σ) in
  (forall k' p', chain G' !! k' = Some p' ->
    h !! p' = Some (if decide (dest G' k' = Freed) then None else Some (block_of (ulog σ) G' k'))) /\
  (forall p', p' ∈ priv G' -> h !! p' = Some (Some block_new) /\ p' ∉ chain G') /\
  (forall p' b', h !! p' = Some (Some b') -> p' ∈ chain G' \/ p' ∈ priv G').
Proof.
  intros HG Hc Hp Hk Ho Hrest h. rewrite Hc, Hp.
  assert (Hlt : (p < length (heap σ))%nat) by (eapply lookup_lt_Some; by eapply g_heap).
  split_and!.
  - intros k' p' Hk'. unfold h. destruct (decide (k' = k)) as [->|Hne].
    + rewrite Hk in Hk'. injection Hk' as <-. rewrite list_lookup_insert_eq by done. f_equal.
      case_decide; [done|]. by destruct Ho as [-> ->].
    + destruct (Hrest _ Hne) as [-> ->]. rewrite list_lookup_insert_ne; [by eapply g_heap|].
      intros ->. apply Hne. by eapply chain_inj.
  - intros p' Hp'. destruct (g_priv _ _ HG p' Hp') as [H1 H2]. split; [|done]. unfold h.
    rewrite list_lookup_insert_ne; [done|]. intros ->. by apply H2, list_elem_of_lookup_2 with k.
  - intros p' b' Hb'. unfold h in Hb'. destruct (decide (p = p')) as [<-|Hne].
    + left. by eapply list_elem_of_lookup_2.
    + rewrite list_lookup_insert_ne in Hb' by done. by eapply g_leak.
Qed.

Lemma ginv_slot σ G k j p w r f d :
  ginv σ G -> chain G !! k = Some p -> dest G k <> Freed -> d <> Freed -> (j < 31)%nat ->
  (w = 0 <-> wr G (item k j) = 0)%nat -> (r = 0 <-> rd G (item k j) = 0)%nat ->
  (w <= 4 /\ r <= 5 /\ (2 <= r -> w = 4))%nat -> dest_ok k (upd k j w r f d G) ->
  let G' := upd k j w r f d G in
  ginv (with_heap (<[p := Some (block_of (ulog σ) G' k)]> (heap σ)) σ) G'.
Proof.
  intros HG Hk Hal Hd Hj Hw Hr Hwr Hdest G'.
  destruct (heap_block σ G G' k p (block_of (ulog σ) G' k) (Some (block_of (ulog σ) G' k))) as (H1 & H2 & H3);
    [done|done|done|done| | |].
  { unfold G'. rewrite upd_dest, (decide_True (P := k = k)) by done. by rewrite decide_False. }
  { intros k' Hne. split; [unfold G'; by rewrite upd_dest, decide_False|]. apply block_same; [done|].
    intros j' Hj'. apply upd_slot. intros E. apply Hne. by apply item_inj in E as [-> _]. }
  destruct HG. split; cbn [with_heap tail_index tail_block head_index head_block ulog heap]; try done.
  - intros n. unfold G'. rewrite upd_wr, upd_rd. specialize (g_items0 n). case_decide as E; [|done]. rewrite E in *.
    destruct g_items0 as (I1 & I2 & _). split_and!; [lia|lia|lia|lia|lia].
  - intros k'. destruct (decide (k' = k)) as [->|Hne]; [done|]. eapply dest_ok_ext; [| |apply g_dest0].
    + unfold G'. by rewrite upd_dest, decide_False.
    + intros j' Hj'. unfold G'. rewrite upd_rd, upd_flag.
      assert (item k j <> item k' j') by (intros E; apply Hne; by apply item_inj in E as [-> _]).
      by rewrite !(decide_False (P := item k j = item k' j')) by done.
Qed.

Lemma ok_on_slot {A} p (o : Z) (f : Slot T -> option (A * Slot T)) L (Q : gmultiset (qtok T) -> A -> Prop) :
  (forall σ G, sees σ G L -> exists k j a w r fl d L',
     o = Z.of_nat j /\ chain G !! k = Some p /\ dest G k <> Freed /\ d <> Freed /\ (j < 31)%nat /\
     let G' := upd k j w r fl d G in
     f (slot_of (ulog σ) G (item k j)) = Some (a, slot_of (ulog σ) G' (item k j)) /\
     ((w = 0 <-> wr G (item k j) = 0)%nat /\ (r = 0 <-> rd G (item k j) = 0)%nat /\
      (w <= 4 /\ r <= 5 /\ (2 <= r -> w = 4))%nat /\ dest_ok k G') /\
     exchange (ulog σ) L L' /\
     (forall kd x y, (kd < 7)%nat ->
        (occ (Tk kd x y) L' + occ (Tk kd x y) (wtok (wr G (item k j)) (item k j) ++ rtok (rd G (item k j)) (item k j) ++ dtok (dest G k) k) =
         occ (Tk kd x y) L + occ (Tk kd x y) (wtok w (item k j) ++ rtok r (item k j) ++ dtok d k))%nat) /\
     (forall kd x y, (7 <= kd)%nat -> Tk kd x y ∈ L' -> Tk kd x y ∈ L) /\ Q (toks L') a) ->
  ok uinv (toks L) (on_slot p o f) Q.
Proof.
  intros HQ. unfold on_slot, on_block. apply ok_action. intros σ G Hsee. pose proof (s_inv _ _ _ Hsee) as HG.
  destruct (HQ σ G Hsee) as (k & j & a & w & r & fl & d & L' & -> & Hk & Hal & Hd & Hj & Hf & (Hw & Hr & Hwr & Hdest) & Hx & Ho & Hkn & HQ').
  rewrite (block_alive σ G k p HG Hk Hal). cbn [mjoin option_join mbind option_bind]. rewrite Nat2Z.id, block_slots_lookup by done.
  cbn [mbind option_bind]. rewrite Hf. cbn [mbind option_bind].
  exists (with_heap (<[p := Some (block_of (ulog σ) (upd k j w r fl d G) k)]> (heap σ)) σ), a, (upd k j w r fl d G), L'.
  split; [by rewrite block_upd|].
  split; [by apply ginv_slot|]. split; [by split|]. split; [done|]. split; [done|].
  split; [|split; [intros; left; by apply Hkn|done]].
  intros kd x y Hkd. specialize (Ho kd x y Hkd). pose proof (own_upd k j w r fl d G kd x y) as E. cbv zeta in E. lia.
Qed.

(** Histories and facts, which may be forgotten. *)
Definition facts (X : list (qtok T)) : Prop :=
  Forall (fun t => match t with Lb _ => True | Tk kd _ _ => (7 <= kd)%nat | _ => False end) X.

Lemma facts_occ X t : facts X -> match t with Lb _ => False | Tk kd _ _ => (kd < 7)%nat | _ => True end -> occ t X = 0%nat.
Proof.
  intros HX Ht. destruct (decide (occ t X = 0%nat)) as [|E]; [done|]. apply occ_elem in E.
  unfold facts in HX. rewrite Forall_forall in HX. specialize (HX t E). destruct t; try done. lia.
Qed.

Lemma facts_tk kd a b X : (7 <= kd)%nat -> facts X -> facts (Tk kd a b :: X).
Proof. intros. by apply Forall_cons. Qed.
Lemma facts_lb l X : facts X -> facts (Lb l :: X).
Proof. intros. by apply Forall_cons. Qed.
Lemma facts_nil : facts [].
Proof. by apply Forall_nil. Qed.
(** [K'] is [K] without some facts, or the right to push. *)
Definition drops (K K' : list (qtok T)) : Prop := exists Y b, facts Y /\ K ≡ₚ Y ++ replicate b Budget ++ K'.

Lemma drops_refl K : drops K K.
Proof. exists [], 0%nat. split; [apply facts_nil|done]. Qed.

Lemma drops_occ K K' t : drops K K' -> match t with Lb _ | Budget => False | Tk kd _ _ => (kd < 7)%nat | _ => True end ->
  occ t K' = occ t K.
Proof.
  intros (Y & b & HY & HP) Ht. rewrite (occ_perm _ _ _ HP), !occ_app.
  rewrite (facts_occ Y) by (done || by destruct t). by rewrite occ_replicate_ne by by destruct t.
Qed.

Lemma drops_budget K K' : drops K K' -> (occ Budget K' <= occ Budget K)%nat.
Proof. intros (Y & b & HY & HP). rewrite (occ_perm _ _ _ HP), !occ_app. lia. Qed.

Lemma drops_in K K' t : drops K K' -> t ∈ K' -> t ∈ K.
Proof. intros (Y & b & _ & ->) Ht. rewrite !elem_of_app. auto. Qed.

(** Phase tokens [A] are given up for [B]; [K] is kept, up to facts. *)
Definition phases (A : list (qtok T)) : Prop := Forall (fun t => match t with Tk _ _ _ => True | _ => False end) A.

Lemma phases_occ A t : phases A -> match t with Tk _ _ _ => False | _ => True end -> occ t A = 0%nat.
Proof.
  intros HA Ht. destruct (decide (occ t A = 0%nat)) as [|E]; [done|]. apply occ_elem in E.
  unfold phases in HA. rewrite Forall_forall in HA. specialize (HA t E). by destruct t.
Qed.

Lemma exchange_drops l A B K K' : phases A -> phases B -> drops K K' -> exchange l (A ++ K) (B ++ K').
Proof.
  intros HA HB Hd. split_and!.
  - by rewrite !occ_app, (phases_occ A), (phases_occ B), (drops_occ K K').
  - intros x [Hx|Hx]%elem_of_app; [|left; apply elem_of_app; right; by eapply drops_in].
    unfold phases in HB. rewrite Forall_forall in HB. by specialize (HB _ Hx).
  - intros n. by rewrite !occ_app, (phases_occ A), (phases_occ B), (drops_occ K K').
  - rewrite !occ_app, (phases_occ A), (phases_occ B) by done. pose proof (drops_budget _ _ Hd). lia.
Qed.
Lemma exchange_phases l A B K : phases A -> phases B -> exchange l (A ++ K) (B ++ K).
Proof. intros. apply exchange_drops; [done..|apply drops_refl]. Qed.

Lemma phases_w x n : phases (wtok x n).
Proof. unfold wtok. case_decide; by repeat constructor. Qed.
Lemma phases_r x n : phases (rtok x n).
Proof. unfold rtok. case_decide; by repeat constructor. Qed.
Lemma phases_d x n : phases (dtok x n).
Proof. destruct x; by repeat constructor. Qed.

(** An action on the slot of an item [n] moves its writer, its reader and the
    destruction of its block. *)
Lemma ok_u_slot {A} k j p (f : Slot T -> option (A * Slot T)) X K (Q : gmultiset (qtok T) -> A -> Prop) :
  let n := item k j in
  (j < 31)%nat -> Tk 12 (Z.of_nat k) (Z.of_nat p) ∈ K -> phases X ->
  (forall σ G, sees σ G (X ++ K) -> dest G k <> Freed /\ exists a w r fl d X' K',
     drops K K' /\ d <> Freed /\ let G' := upd k j w r fl d G in
     f (slot_of (ulog σ) G n) = Some (a, slot_of (ulog σ) G' n) /\
     ((w = 0 <-> wr G n = 0)%nat /\ (r = 0 <-> rd G n = 0)%nat /\ (w <= 4 /\ r <= 5 /\ (2 <= r -> w = 4))%nat /\ dest_ok k G') /\
     phases X' /\ (forall kd x y, (7 <= kd)%nat -> Tk kd x y ∈ X' -> False) /\
     (forall kd x y, (kd < 7)%nat ->
        (occ (Tk kd x y) X' + occ (Tk kd x y) (wtok (wr G n) n ++ rtok (rd G n) n ++ dtok (dest G k) k) =
         occ (Tk kd x y) X + occ (Tk kd x y) (wtok w n ++ rtok r n ++ dtok d k))%nat) /\
     Q (toks (X' ++ K')) a) ->
  ok uinv (toks (X ++ K)) (on_slot p (Z.of_nat j) f) Q.
Proof.
  intros n Hj Hchain HX HQ. apply ok_on_slot. intros σ G Hsee.
  destruct (HQ σ G Hsee) as (Hal & a & w & r & fl & d & X' & K' & Hdr & Hd & Hf & Hg & HX' & Hno & Ho & HQ').
  destruct (s_know _ _ _ Hsee 12%nat _ _ ltac:(lia) ltac:(apply elem_of_app; right; exact Hchain)) as (_ & _ & Hk).
  rewrite !Nat2Z.id in Hk.
  exists k, j, a, w, r, fl, d, (X' ++ K'). do 5 (split; [done|]). cbv zeta.
  split; [done|]. split; [done|]. split; [by apply exchange_drops|]. split; [|split; [|done]].
  - intros kd x y Hkd. specialize (Ho kd x y Hkd). fold n. rewrite !occ_app in *. rewrite (drops_occ K K') by done. lia.
  - intros kd x y Hkd [Hin|Hin]%elem_of_app; [by destruct (Hno _ _ _ Hkd Hin)|]. apply elem_of_app. right. by eapply drops_in.
Qed.

Lemma lor_write w r d : Z.lor (bits w r d) WRITE = bits true r d.
Proof. by destruct w, r, d. Qed.
Lemma lor_read w r d : Z.lor (bits w r d) READ = bits w true d.
Proof. by destruct w, r, d. Qed.
Lemma lor_destroy w r d : Z.lor (bits w r d) DESTROY = bits w r true.
Proof. by destruct w, r, d. Qed.
Lemma has_bits w r d : has (bits w r d) WRITE = w /\ has (bits w r d) READ = r /\ has (bits w r d) DESTROY = d.
Proof. by destruct w, r, d. Qed.

(** ** The writer *)

Lemma sees_wr σ G L ph n : sees σ G L -> Tk 0 (Z.of_nat ph) (Z.of_nat n) ∈ L -> wr G n = ph /\ (1 <= ph <= 3)%nat.
Proof. intros Hs Hin. by apply own_wr, (s_own _ _ _ Hs); [lia|]. Qed.
Lemma sees_rd σ G L ph n : sees σ G L -> Tk 1 (Z.of_nat ph) (Z.of_nat n) ∈ L -> rd G n = ph /\ (1 <= ph <= 4)%nat.
Proof. intros Hs Hin. by apply own_rd, (s_own _ _ _ Hs); [lia|]. Qed.

(** The destruction of the block does not notice. *)
Lemma dest_same k j w r G : (j < 31)%nat -> (r = 5 <-> rd G (item k j) = 5)%nat ->
  dest_ok k G -> dest_ok k (upd k j w r (flag G (item k j)) (dest G k) G).
Proof.
  intros Hj Hr. apply dest_ok_ext.
  - by rewrite upd_dest, decide_True.
  - intros j' Hj'. rewrite upd_rd, upd_flag. split; (case_decide as E; [rewrite <- E|]; done).
Qed.

Lemma upd_state k j w r f d G : (j < 31)%nat -> state_of (upd k j w r f d G) (item k j) =
  bits (bool_decide (w = 4%nat)) (bool_decide (r = 5%nat /\ j <> 30%nat)) f.
Proof.
  intros Hj. unfold state_of. rewrite upd_wr, upd_rd, upd_flag, !(decide_True (P := item k j = item k j)) by done.
  by destruct (div31 k j (item k j)) as [_ ->].
Qed.
Lemma here_state k j G : (j < 31)%nat -> state_of G (item k j) =
  bits (bool_decide (wr G (item k j) = 4%nat)) (bool_decide (rd G (item k j) = 5%nat /\ j <> 30%nat)) (flag G (item k j)).
Proof. intros Hj. unfold state_of. by destruct (div31 k j (item k j)) as [_ ->]. Qed.

Lemma upd_cell l k j w r f d G : cell_of l (upd k j w r f d G) (item k j) =
  match w with
  | 0%nat | 1%nat => Uninit
  | 2%nat => Busy
  | _ => match r with
         | 0%nat | 1%nat | 2%nat => match pushed l !! item k j with Some v => Init v | None => Uninit end
         | 3%nat => Busy
         | _ => Uninit
         end
  end.
Proof. unfold cell_of. by rewrite upd_wr, upd_rd, !(decide_True (P := item k j = item k j)). Qed.

(** An item whose writer is not done has no reader that saw it. *)
Lemma unread σ G n : ginv σ G -> wr G n <> 4%nat -> (rd G n <= 1)%nat.
Proof. intros HG Hw. destruct (g_items _ _ HG n) as (_ & _ & _ & _ & Hr). lia. Qed.

(** Steps of a writer: from phase [a] to [b]. *)
Lemma ok_writer {A} k j p (f : Slot T -> option (A * Slot T)) a b K K' (Q : gmultiset (qtok T) -> A -> Prop) :
  let n := item k j in
  (j < 31)%nat -> Tk 12 (Z.of_nat k) (Z.of_nat p) ∈ K -> (1 <= a <= 3)%nat -> (1 <= b <= 4)%nat -> drops K K' ->
  (forall σ G, sees σ G (wtok a n ++ K) -> wr G n = a -> (rd G n <= 1)%nat ->
     exists x, f (slot_of (ulog σ) G n) = Some (x, slot_of (ulog σ) (upd k j b (rd G n) (flag G n) (dest G k) G) n) /\
     Q (toks (wtok b n ++ K')) x) ->
  ok uinv (toks (wtok a n ++ K)) (on_slot p (Z.of_nat j) f) Q.
Proof.
  intros n; subst n; intros Hj Hk Ha Hb Hdr HQ. apply (ok_u_slot k j); [done|done|apply phases_w|].
  intros σ G Hsee. pose proof (s_inv _ _ _ Hsee) as HG.
  assert (Hwr : wr G (item k j) = a).
  { eapply sees_wr; [exact Hsee|]. unfold wtok. rewrite decide_True by done. by left. }
  pose proof (unread _ _ (item k j) HG ltac:(lia)) as Hrd.
  assert (Hal : dest G k <> Freed) by (eapply not_freed; [exact HG|exact Hj|]; lia).
  split; [done|]. destruct (HQ σ G Hsee Hwr Hrd) as (x & Hf & HQ').
  exists x, b, (rd G (item k j)), (flag G (item k j)), (dest G k), (wtok b (item k j)), K'. split; [done|]. split; [done|]. cbv zeta.
  split; [done|]. split; [|split; [apply phases_w|split; [|split; [|done]]]].
  - split; [lia|]. split; [done|]. split; [lia|]. apply dest_same; [done|done|apply HG].
  - intros kd x' y Hkd Hin. apply wtok_item in Hin as [? Hin]. injection Hin. lia.
  - intros kd x' y Hkd. rewrite !occ_app, Hwr. lia.
Qed.

Lemma ok_u_write_value k j p v l K (Q : gmultiset (qtok T) -> unit -> Prop) :
  let n := item k j in
  (j < 31)%nat -> Tk 12 (Z.of_nat k) (Z.of_nat p) ∈ K -> Lb l ∈ K -> pushed l !! n = Some v ->
  Q (toks (Tk 0 3 (Z.of_nat n) :: K)) () ->
  ok uinv (toks (Tk 0 1 (Z.of_nat n) :: K)) (write_value p (Z.of_nat j) v) Q.
Proof.
  intros n; subst n; intros Hj Hk Hl Hv HQ. apply ok_bind, (ok_writer k j p _ 1 2 K K); [done|done|lia|lia|apply drops_refl|].
  intros σ G Hsee Hwr Hrd. exists (). split.
  { cbn [slot_of value state]. unfold slot_of. rewrite upd_state, upd_cell, here_state by done. unfold cell_of. by rewrite Hwr. }
  apply (ok_writer k j p _ 2 3 K K); [done|done|lia|lia|apply drops_refl|].
  clear σ G Hsee Hwr Hrd. intros σ G Hsee Hwr Hrd. exists (). split; [|done].
  unfold slot_of. rewrite upd_state, upd_cell, here_state by done. cbn [state]. rewrite Hwr.
  assert (Hp : l `prefix_of` ulog σ) by (apply (s_lb _ _ _ Hsee), elem_of_app; by right).
  rewrite (pushed_lookup _ _ _ _ Hp Hv). destruct (rd G (item k j)) as [|[|?]]; [done|done|lia].
Qed.

Lemma ok_set_write k j p K K' (Q : gmultiset (qtok T) -> Z -> Prop) :
  let n := item k j in
  (j < 31)%nat -> Tk 12 (Z.of_nat k) (Z.of_nat p) ∈ K -> drops K K' -> (forall x, Q (toks K') x) ->
  ok uinv (toks (Tk 0 3 (Z.of_nat n) :: K)) (fetch_or_state p (Z.of_nat j) WRITE) Q.
Proof.
  intros n; subst n; intros Hj Hk Hdr HQ. apply (ok_writer k j p _ 3 4 K K'); [done|done|lia|lia|done|].
  intros σ G Hsee Hwr Hrd. eexists. split; [|apply HQ].
  unfold slot_of. rewrite upd_state, upd_cell, here_state by done. cbn [state value]. do 3 f_equal.
  - rewrite Hwr. by rewrite lor_write.
  - unfold cell_of. by rewrite Hwr.
Qed.

(** ** The reader *)

Lemma rtok_in a n K : (1 <= a <= 4)%nat -> Tk 1 (Z.of_nat a) (Z.of_nat n) ∈ rtok a n ++ K.
Proof. intros Ha. unfold rtok. rewrite decide_True by done. by left. Qed.

Lemma no_know (X : list (qtok T)) : (forall t, t ∈ X -> exists kd' c m, (kd' < 7)%nat /\ t = Tk kd' c m) ->
  forall kd x y, (7 <= kd)%nat -> Tk kd x y ∈ X -> False.
Proof. intros HX kd x y Hkd (kd' & c & m & Hlt & E)%HX. injection E as -> _ _. lia. Qed.

Lemma no_know_r a n : forall kd x y, (7 <= kd)%nat -> Tk kd x y ∈ rtok a n -> False.
Proof. apply no_know. intros t [c ->]%rtok_item. exists 1%nat, c, (Z.of_nat n). split; [lia|done]. Qed.
Lemma no_know_d d k : forall kd x y, (7 <= kd)%nat -> Tk kd x y ∈ dtok d k -> False.
Proof. apply no_know. intros t [c ->]%dtok_item. exists 2%nat, c, (Z.of_nat k). split; [lia|done]. Qed.

(** Steps of a reader that do not end its phases. *)
Lemma ok_reader {A} k j p (f : Slot T -> option (A * Slot T)) a K (Q : gmultiset (qtok T) -> A -> Prop) :
  let n := item k j in
  (j < 31)%nat -> Tk 12 (Z.of_nat k) (Z.of_nat p) ∈ K -> (1 <= a <= 4)%nat ->
  (forall σ G, sees σ G (rtok a n ++ K) -> rd G n = a -> exists x b, (1 <= b <= 4)%nat /\ (2 <= b -> wr G n = 4)%nat /\
     f (slot_of (ulog σ) G n) = Some (x, slot_of (ulog σ) (upd k j (wr G n) b (flag G n) (dest G k) G) n) /\
     Q (toks (rtok b n ++ K)) x) ->
  ok uinv (toks (rtok a n ++ K)) (on_slot p (Z.of_nat j) f) Q.
Proof.
  intros n; subst n; intros Hj Hk Ha HQ. apply (ok_u_slot k j); [done|done|apply phases_r|].
  intros σ G Hsee. pose proof (s_inv _ _ _ Hsee) as HG.
  assert (Hrd : rd G (item k j) = a) by (eapply sees_rd; [exact Hsee|by apply rtok_in]).
  split; [eapply not_freed; [exact HG|exact Hj|]; lia|].
  destruct (HQ σ G Hsee Hrd) as (x & b & Hb & Hw & Hf & HQ').
  destruct (g_items _ _ HG (item k j)) as (_ & _ & Hw4 & _ & _).
  exists x, (wr G (item k j)), b, (flag G (item k j)), (dest G k), (rtok b (item k j)), K. split; [apply drops_refl|].
  split; [eapply not_freed; [exact HG|exact Hj|]; lia|]. cbv zeta.
  split; [done|]. split; [|split; [apply phases_r|split; [apply no_know_r|split; [|done]]]].
  - split; [done|]. split; [lia|]. split; [lia|]. apply dest_same; [done|lia|apply HG].
  - intros kd x' y Hkd. rewrite !occ_app, Hrd. lia.
Qed.

Lemma ok_wait_write fuel k j p K (Q : gmultiset (qtok T) -> unit -> Prop) :
  let n := item k j in
  (j < 31)%nat -> Tk 12 (Z.of_nat k) (Z.of_nat p) ∈ K -> Q (toks (Tk 1 2 (Z.of_nat n) :: K)) () ->
  ok uinv (toks (Tk 1 1 (Z.of_nat n) :: K)) (wait_write fuel p (Z.of_nat j)) Q.
Proof.
  intros n; subst n; intros Hj Hk HQ. induction fuel as [|fuel IH]; [done|]. cbn [wait_write].
  apply ok_bind, (ok_reader k j p _ 1); [done|done|lia|]. intros σ G Hsee Hrd.
  assert (E : has (state_of G (item k j)) WRITE = bool_decide (wr G (item k j) = 4%nat)).
  { rewrite here_state by done. apply has_bits. }
  assert (Hs : forall b, (b <= 2)%nat -> slot_of (ulog σ) G (item k j) =
    slot_of (ulog σ) (upd k j (wr G (item k j)) b (flag G (item k j)) (dest G k) G) (item k j)).
  { intros b Hb. unfold slot_of. rewrite upd_state, upd_cell, here_state by done. unfold cell_of. rewrite Hrd. f_equal.
    - by destruct b as [|[|[|?]]]; [..|lia].
    - destruct (wr G (item k j)) as [|[|[|?]]]; [done..|]. by destruct b as [|[|[|?]]]; [..|lia]. }
  destruct (decide (wr G (item k j) = 4%nat)) as [Ew|Ew].
  - exists (state_of G (item k j)), 2%nat. split; [lia|]. split; [lia|]. split; [cbn [state]; by rewrite <- Hs by lia|].
    rewrite E. by rewrite bool_decide_eq_true_2.
  - exists (state_of G (item k j)), 1%nat. split; [lia|]. split; [lia|]. split; [cbn [state]; by rewrite <- Hs by lia|].
    rewrite E. by rewrite bool_decide_eq_false_2.
Qed.

(** What the reader of slot [j] is left with: for the last slot the
    destruction of the block. *)
Definition read_end (k j : nat) : list (qtok T) := if decide (j = 30%nat) then dtok (Run 0) k else rtok 4 (item k j).

Lemma ok_u_read_value k j p v l K (Q : gmultiset (qtok T) -> T -> Prop) :
  let n := item k j in
  (j < 31)%nat -> Tk 12 (Z.of_nat k) (Z.of_nat p) ∈ K -> Lb l ∈ K -> pushed l !! n = Some v ->
  Q (toks (read_end k j ++ K)) v ->
  ok uinv (toks (Tk 1 2 (Z.of_nat n) :: K)) (read_value p (Z.of_nat j)) Q.
Proof.
  intros n; subst n; intros Hj Hk Hl Hv HQ. apply ok_bind, (ok_reader k j p _ 2); [done|done|lia|].
  intros σ G Hsee Hrd. pose proof (s_inv _ _ _ Hsee) as HG.
  destruct (g_items _ _ HG (item k j)) as (_ & _ & _ & _ & Hw). specialize (Hw ltac:(lia)).
  assert (Hp : l `prefix_of` ulog σ) by (apply (s_lb _ _ _ Hsee), elem_of_app; by right).
  exists v, 3%nat. split; [lia|]. split; [done|]. split.
  { unfold slot_of. rewrite upd_state, upd_cell, here_state by done. cbn [state value].
    unfold cell_of. rewrite Hw, Hrd. by rewrite (pushed_lookup _ _ _ _ Hp Hv). }
  clear σ G Hsee HG Hrd Hw Hp. change ([Tk 1 3 (Z.of_nat (item k j))] ++ K) with (rtok 3 (item k j) ++ K).
  unfold read_end in HQ. destruct (decide (j = 30%nat)) as [->|Hj30].
  - apply (ok_u_slot k 30 p); [done|done|apply phases_r|].
    intros σ G Hsee. pose proof (s_inv _ _ _ Hsee) as HG.
    assert (Hrd : rd G (item k 30) = 3%nat) by (eapply (sees_rd _ _ _ 3); [exact Hsee|by left]).
    split; [eapply not_freed; [exact HG|exact Hj|]; lia|].
    destruct (g_items _ _ HG (item k 30)) as (_ & _ & _ & _ & Hw). specialize (Hw ltac:(lia)).
    pose proof (g_dest _ _ HG k) as Hd.
    assert (Ed : dest G k = DNone).
    { unfold dest_ok in Hd. destruct (dest G k) as [|i|i|]; [done|destruct Hd as (_ & Hd & _); lia..|].
      specialize (Hd 30%nat ltac:(lia)). lia. }
    exists v, 4%nat, 5%nat, (flag G (item k 30)), (Run 0), (dtok (Run 0) k), K. split; [apply drops_refl|]. split; [done|]. cbv zeta.
    split; [|split; [|split; [apply phases_d|split; [apply no_know_d|split; [|done]]]]].
    + unfold slot_of. rewrite upd_state, upd_cell, here_state by done. cbn [state value]. by rewrite Hw, Hrd.
    + split; [lia|]. split; [lia|]. split; [lia|]. unfold dest_ok in *. rewrite Ed in Hd. destruct Hd as [_ Hflag].
      rewrite upd_dest, decide_True by done. split; [lia|]. split; [by rewrite upd_rd, decide_True|]. split; [lia|].
      intros j' Hj'. rewrite upd_flag. case_decide as E; [|by apply Hflag; lia]. apply Hflag. lia.
    + intros kd x' y Hkd. rewrite !occ_app, Hrd, Hw, Ed. change (rtok 5 _) with (@nil (qtok T)).
      change (dtok DNone k) with (@nil (qtok T)). cbn [occ]. lia.
  - apply (ok_reader k j p _ 3); [done|done|lia|]. intros σ G Hsee Hrd. pose proof (s_inv _ _ _ Hsee) as HG.
    destruct (g_items _ _ HG (item k j)) as (_ & _ & _ & _ & Hw). specialize (Hw ltac:(lia)).
    exists v, 4%nat. split; [lia|]. split; [done|]. split; [|done].
    unfold slot_of. rewrite upd_state, upd_cell, here_state by done. cbn [state value]. by rewrite Hw, Hrd.
Qed.

(** ** The end of a block *)

Lemma dtok_in i k K : Tk 2 (Z.of_nat i) (Z.of_nat k) ∈ dtok (Run i) k ++ K.
Proof. by left. Qed.

Lemma sees_dest σ G L i k : sees σ G L -> Tk 2 (Z.of_nat i) (Z.of_nat k) ∈ L -> dest G k = Run i.
Proof. intros Hs Hin. by apply own_dest, (s_own _ _ _ Hs); [lia|]. Qed.

Lemma item_ne k j j' : j <> j' -> item k j <> item k j'.
Proof. unfold item. lia. Qed.

(** A flagged slot whose reader is not done is where the destruction waits. *)
Lemma flag_park k j G : dest_ok k G -> (j < 31)%nat -> rd G (item k j) <> 5%nat -> flag G (item k j) = true ->
  dest G k = Park j.
Proof.
  unfold dest_ok. intros Hd Hj Hr Hf. destruct (dest G k) as [|i|i|].
  - destruct Hd as [_ Hd]. by rewrite Hd in Hf.
  - destruct Hd as (Hi & _ & Hlt & Hge). destruct (decide (j < i)%nat); [by destruct Hr; apply Hlt|].
    by rewrite Hge in Hf by lia.
  - destruct Hd as (Hi & _ & Hlt & _ & _ & Hgt). f_equal.
    destruct (Nat.lt_trichotomy j i) as [Hji|[Hji|Hji]]; [by destruct Hr; apply Hlt|done|].
    by rewrite Hgt in Hf by lia.
  - by destruct Hr; apply Hd.
Qed.

Lemma dest_read k j w G : let fl := flag G (item k j) in
  dest_ok k G -> (j < 30)%nat -> rd G (item k j) <> 5%nat ->
  dest_ok k (upd k j w 5 fl (if fl then Run (S j) else dest G k) G).
Proof.
  intros fl Hd Hj Hrd. set (d := if fl then _ else _).
  assert (Hr : forall j', rd (upd k j w 5 fl d G) (item k j') = if decide (j = j') then 5%nat else rd G (item k j')).
  { intros j'. rewrite upd_rd. destruct (decide (j = j')) as [->|Hne]; [by rewrite decide_True|].
    by rewrite decide_False by by apply item_ne. }
  assert (Hf : forall j', flag (upd k j w 5 fl d G) (item k j') = flag G (item k j')).
  { intros j'. rewrite upd_flag. case_decide as Ej; [|done]. unfold fl. by rewrite Ej. }
  assert (Hpark : fl = true -> dest G k = Park j) by (intros; apply flag_park; [done|lia|done|done]).
  unfold dest_ok in *. rewrite upd_dest, decide_True by done. unfold d in *. destruct fl eqn:Efl.
  - rewrite (Hpark eq_refl) in Hd. destruct Hd as (Hi & H30 & Hlt & Hne & Hfl & Hgt).
    split; [lia|]. split; [by rewrite Hr, decide_False by lia|]. split.
    + intros j' Hj'. rewrite Hr. case_decide; [done|]. apply Hlt. lia.
    + intros j' Hj'. rewrite Hf. apply Hgt. lia.
  - destruct (dest G k) as [|i|i|] eqn:Edk; [| | |by destruct Hrd; apply Hd; lia].
    + destruct Hd as [H30 Hd]. split; [by rewrite Hr, decide_False by lia|]. intros j' Hj'. rewrite Hf. by apply Hd.
    + destruct Hd as (Hi & H30 & Hlt & Hge). split; [done|]. split; [by rewrite Hr, decide_False by lia|]. split.
      * intros j' Hj'. rewrite Hr. case_decide; [done|]. by apply Hlt.
      * intros j' Hj'. rewrite Hf. by apply Hge.
    + destruct Hd as (Hi & H30 & Hlt & Hne & Hfl & Hgt).
      assert (j <> i) by (intros ->; unfold fl in Efl; congruence).
      split; [done|]. split; [by rewrite Hr, decide_False by lia|].
      split; [|split; [by rewrite Hr, decide_False by lia|split; [by rewrite Hf|]]].
      * intros j' Hj'. rewrite Hr. case_decide; [done|]. by apply Hlt.
      * intros j' Hj'. rewrite Hf. by apply Hgt.
Qed.

(** The reader of a slot before the last is done: it takes over the
    destruction when that waits for it. *)
Lemma ok_set_read k j p K K' (Q : gmultiset (qtok T) -> Z -> Prop) :
  let n := item k j in
  (j < 30)%nat -> Tk 12 (Z.of_nat k) (Z.of_nat p) ∈ K -> drops K K' ->
  (forall x, Q (toks (if has x DESTROY then dtok (Run (S j)) k ++ K else K')) x) ->
  ok uinv (toks (Tk 1 4 (Z.of_nat n) :: K)) (fetch_or_state p (Z.of_nat j) READ) Q.
Proof.
  intros n; subst n; intros Hj Hk Hdr HQ. change (Tk 1 4 (Z.of_nat (item k j)) :: K) with (rtok 4 (item k j) ++ K).
  apply (ok_u_slot k j p); [lia|done|apply phases_r|].
  intros σ G Hsee. pose proof (s_inv _ _ _ Hsee) as HG.
  assert (Hrd : rd G (item k j) = 4%nat) by (eapply (sees_rd _ _ _ 4); [exact Hsee|by left]).
  assert (Hal : dest G k <> Freed) by (eapply (not_freed σ G k j); [exact HG|lia|lia]).
  destruct (g_items _ _ HG (item k j)) as (_ & _ & _ & _ & Hw). specialize (Hw ltac:(lia)).
  pose proof (g_dest _ _ HG k) as Hd. pose proof (dest_read k j 4 G Hd Hj ltac:(lia)) as Hd'.
  pose proof (flag_park k j G Hd ltac:(lia) ltac:(lia)) as Hpark.
  assert (E : has (state_of G (item k j)) DESTROY = flag G (item k j)) by (rewrite here_state by lia; apply has_bits).
  cbv zeta in Hd'. set (fl := flag G (item k j)) in *. set (d := if fl then Run (S j) else dest G k) in *.
  split; [done|].
  exists (state_of G (item k j)), 4%nat, 5%nat, fl, d, (if fl then dtok (Run (S j)) k else []), (if fl then K else K').
  split; [destruct fl; [apply drops_refl|done]|].
  split; [unfold d; by destruct fl|]. cbv zeta. split; [|split; [|split; [|split; [|split]]]].
  - unfold slot_of. rewrite upd_state, upd_cell, here_state by lia. cbn [state value]. rewrite lor_read.
    unfold cell_of. rewrite Hw, Hrd. by rewrite (bool_decide_eq_true_2 (5 = 5 /\ j <> 30)%nat) by lia.
  - split; [lia|]. split; [lia|]. split; [lia|]. done.
  - destruct fl; [apply phases_d|constructor].
  - destruct fl; [apply no_know_d|]. by intros ? ? ? _ ?%elem_of_nil.
  - intros kd x y Hkd. rewrite !occ_app, Hrd, Hw. change (rtok 5 _) with (@nil (qtok T)). unfold d.
    destruct fl; [rewrite Hpark by done; change (dtok (Park j) k) with (@nil (qtok T))|]; cbn [occ]; lia.
  - specialize (HQ (state_of G (item k j))). rewrite E in HQ. by destruct fl.
Qed.

(** ** The thread that destroys a block *)

Lemma dest_run k i w fl G : dest_ok k G -> dest G k = Run i -> (i < 30)%nat ->
  let r := rd G (item k i) in
  (fl = true \/ fl = flag G (item k i)) ->
  dest_ok k (upd k i w r fl (if decide (r = 5%nat) then Run (S i) else if fl then Park i else Run i) G).
Proof.
  intros Hd Ed Hi r Hfl. set (d := if decide _ then _ else _).
  assert (Hr : forall j', rd (upd k i w r fl d G) (item k j') = rd G (item k j')).
  { intros j'. rewrite upd_rd. case_decide as E; [|done]. unfold r. by rewrite E. }
  assert (Hf : forall j', j' <> i -> flag (upd k i w r fl d G) (item k j') = flag G (item k j')).
  { intros j' Hne. rewrite upd_flag, decide_False; [done|]. apply item_ne. lia. }
  assert (Hfi : flag (upd k i w r fl d G) (item k i) = fl) by (by rewrite upd_flag, decide_True).
  unfold dest_ok in *. rewrite Ed in Hd. rewrite upd_dest, decide_True by done. unfold d.
  destruct Hd as (Hi' & H30 & Hlt & Hge). case_decide as E.
  - split; [lia|]. split; [by rewrite Hr|]. split.
    + intros j' Hj'. rewrite Hr. destruct (decide (j' = i)) as [->|]; [done|]. apply Hlt. lia.
    + intros j' Hj'. rewrite Hf by lia. apply Hge. lia.
  - destruct fl.
    + split; [done|]. split; [by rewrite Hr|]. split; [intros; rewrite Hr; auto|]. split; [by rewrite Hr|]. split; [done|].
      intros j' Hj'. rewrite Hf by lia. apply Hge. lia.
    + split; [lia|]. split; [by rewrite Hr|]. split; [intros; rewrite Hr; auto|].
      intros j' Hj'. destruct (decide (j' = i)) as [->|]; [done|]. rewrite Hf by done. apply Hge. lia.
Qed.

(** A look at, or a mark on, the slot where the destruction is. *)
Lemma ok_destroyer k i p (fl : bool) f K K' (Q : gmultiset (qtok T) -> Z -> Prop) :
  (i < 30)%nat -> Tk 12 (Z.of_nat k) (Z.of_nat p) ∈ K -> drops K K' ->
  (forall w r d v, f (mkSlot (bits w r d) v) = Some (bits w r d, mkSlot (bits w r (d || fl)) v)) ->
  (forall x, Q (toks (if has x READ then dtok (Run (S i)) k ++ K else if fl then K' else dtok (Run i) k ++ K)) x) ->
  ok uinv (toks (Tk 2 (Z.of_nat i) (Z.of_nat k) :: K)) (on_slot p (Z.of_nat i) f) Q.
Proof.
  intros Hi Hk Hdr Hf HQ. change (Tk 2 (Z.of_nat i) (Z.of_nat k) :: K) with (dtok (Run i) k ++ K).
  apply (ok_u_slot k i p); [lia|done|apply phases_d|].
  intros σ G Hsee. pose proof (s_inv _ _ _ Hsee) as HG. pose proof (g_dest _ _ HG k) as Hd.
  assert (Ed : dest G k = Run i) by (eapply sees_dest; [exact Hsee|by left]).
  assert (Hfl : flag G (item k i) = false).
  { unfold dest_ok in Hd. rewrite Ed in Hd. apply Hd. lia. }
  destruct (g_items _ _ HG (item k i)) as (_ & _ & Hw4 & Hr5 & Hwr).
  split; [by rewrite Ed|]. set (d := if decide (rd G (item k i) = 5%nat) then Run (S i) else if fl then Park i else Run i).
  exists (state_of G (item k i)), (wr G (item k i)), (rd G (item k i)), fl, d, (dtok d k), (match d with Park _ => K' | _ => K end).
  split; [destruct d; by try apply drops_refl|].
  split; [unfold d; case_decide; [done|by destruct fl]|]. cbv zeta.
  split; [|split; [|split; [apply phases_d|split; [apply no_know_d|split]]]].
  - unfold slot_of. rewrite upd_state, upd_cell, here_state by lia. rewrite Hf. do 2 f_equal.
    unfold cell_of. rewrite Hfl. cbn [orb]. done.
  - split; [done|]. split; [done|]. split; [lia|]. apply dest_run; [done|done|done|]. destruct fl; [by left|by right].
  - intros kd x y Hkd. rewrite !occ_app, Ed. lia.
  - specialize (HQ (state_of G (item k i))).
    assert (E : has (state_of G (item k i)) READ = bool_decide (rd G (item k i) = 5%nat /\ i <> 30%nat)) by (rewrite here_state by lia; apply has_bits).
    rewrite E in HQ. unfold d. destruct (decide (rd G (item k i) = 5%nat)).
    + by rewrite bool_decide_eq_true_2 in HQ by lia.
    + rewrite bool_decide_eq_false_2 in HQ by lia. by destruct fl.
Qed.

(** ** Blocks come and go *)

(** An action that leaves the history and the words alone. *)
Lemma later_heap σ G G' h : chain G' = chain G -> later σ G (with_heap h σ) G'.
Proof. intros E. split; cbn [with_heap tail_index tail_block head_index head_block ulog]; try done. by rewrite E. Qed.

Lemma set_priv_same G : set_priv (priv G) G = G.
Proof. by destruct G. Qed.

(** The fields that depend neither on the heap nor on the boxes. *)
Lemma ginv_heap σ G h s :
  ginv σ G ->
  (forall k p, chain G !! k = Some p -> h !! p = Some (if decide (dest G k = Freed) then None else Some (block_of (ulog σ) G k))) ->
  (forall p, p ∈ s -> h !! p = Some (Some block_new) /\ p ∉ chain G) ->
  (forall p b, h !! p = Some (Some b) -> p ∈ chain G \/ p ∈ s) ->
  ginv (with_heap h σ) (set_priv s G).
Proof.
  intros [] H1 H2 H3. split; cbn [with_heap tail_index tail_block head_index head_block ulog heap]; try done.
Qed.

Lemma ok_new_block K (Q : gmultiset (qtok T) -> nat -> Prop) :
  (forall p, Q (toks (ptok p ++ K)) p) -> ok uinv (toks K) new_block Q.
Proof.
  intros HQ. apply ok_action. intros σ G Hsee. pose proof (s_inv _ _ _ Hsee) as HG.
  set (p := length (heap σ)).
  assert (Hnew : forall q b, heap σ !! q = Some b -> q <> p) by (intros q b Hq%lookup_lt_Some; unfold p; lia).
  assert (Hpriv : p ∉ priv G) by (intros Hin; by destruct (g_priv _ _ HG p Hin) as [?%Hnew _]).
  eexists _, p, (set_priv ({[p]} ∪ priv G) G), (ptok p ++ K). split; [reflexivity|].
  split; [|split; [by apply later_heap|split; [done|split; [|split; [|split; [|done]]]]]].
  - apply ginv_heap; [done|..].
    + intros k q Hk. apply lookup_app_l_Some. by apply HG.
    + intros q [->%elem_of_singleton|Hq]%elem_of_union.
      * split; [unfold p; by rewrite lookup_app_r, Nat.sub_diag|].
        intros (k & Hk)%list_elem_of_lookup. by apply (g_heap _ _ HG), Hnew in Hk.
      * destruct (g_priv _ _ HG q Hq). split; [by apply lookup_app_l_Some|done].
    + intros q b [Hq|[Hlen Hq]]%lookup_app_Some.
      * destruct (g_leak _ _ HG q b Hq); [by left|right; set_solver].
      * right. apply list_lookup_singleton_Some in Hq as [Hq _]. apply elem_of_union_l, elem_of_singleton. unfold p. lia.
  - apply (exchange_phases _ [] (ptok p)); [constructor|by repeat constructor].
  - intros kd x y Hkd. rewrite own_box, set_priv_same, occ_app by done. lia.
  - intros kd x y Hkd [Hin|Hin]%elem_of_app; [|by left]. apply list_elem_of_singleton in Hin. injection Hin. lia.
Qed.

Lemma ok_drop_box p K K' (Q : gmultiset (qtok T) -> unit -> Prop) :
  drops K K' -> Q (toks K') () -> ok uinv (toks (ptok p ++ K)) (free_block p) Q.
Proof.
  intros Hdr HQ. apply ok_action. intros σ G Hsee. pose proof (s_inv _ _ _ Hsee) as HG.
  assert (Hp : p ∈ priv G) by (apply own_priv, (s_own _ _ _ Hsee); [lia|by left]).
  destruct (g_priv _ _ HG p Hp) as [Hh Hc]. rewrite Hh. pose proof (lookup_lt_Some _ _ _ Hh) as Hlt.
  eexists _, (), (set_priv (priv G ∖ {[p]}) G), K'. split; [reflexivity|].
  split; [|split; [by apply later_heap|split; [done|split; [|split; [|split; [intros; left; apply elem_of_app; right; by eapply drops_in|done]]]]]].
  - apply ginv_heap; [done|..].
    + intros k q Hk. rewrite list_lookup_insert_ne; [by apply HG|]. intros ->. by apply Hc, list_elem_of_lookup_2 with k.
    + intros q [Hq Hne%not_elem_of_singleton]%elem_of_difference. rewrite list_lookup_insert_ne by done. by apply HG.
    + intros q b Hq. destruct (decide (p = q)) as [<-|Hne]; [by rewrite list_lookup_insert_eq in Hq|].
      rewrite list_lookup_insert_ne in Hq by done. destruct (g_leak _ _ HG q b Hq); [by left|right; set_solver].
  - apply (exchange_drops _ (ptok p) []); [by repeat constructor|constructor|done].
  - intros kd x y Hkd. pose proof (own_box p (priv G ∖ {[p]}) G kd x y ltac:(set_solver)) as E.
    rewrite <- union_difference_singleton_L, set_priv_same in E by done. rewrite occ_app, (drops_occ K K') by done. lia.
Qed.

(** The last block of the destruction's path. *)
Lemma ok_destroy_free k p K K' (Q : gmultiset (qtok T) -> unit -> Prop) :
  Tk 12 (Z.of_nat k) (Z.of_nat p) ∈ K -> drops K K' -> Q (toks K') () ->
  ok uinv (toks (dtok (Run 30) k ++ K)) (free_block p) Q.
Proof.
  intros Hk Hdr HQ. apply ok_action. intros σ G Hsee. pose proof (s_inv _ _ _ Hsee) as HG.
  assert (Ed : dest G k = Run 30) by (eapply (sees_dest _ _ _ 30); [exact Hsee|by left]).
  destruct (s_know _ _ _ Hsee 12%nat _ _ ltac:(lia) ltac:(apply elem_of_app; right; exact Hk)) as (_ & _ & Hc).
  rewrite !Nat2Z.id in Hc. rewrite (block_alive _ _ _ _ HG Hc) by by rewrite Ed.
  set (G' := set_dest k Freed G).
  assert (Hdk : forall k', k' <> k -> dest G' k' = dest G k') by (intros k' Hne; by apply fn_lookup_insert_ne).
  assert (Hdk' : dest G' k = Freed) by apply fn_lookup_insert.
  destruct (heap_block σ G G' k p block_new None) as (H1 & H2 & H3); [done..| | |].
  { by rewrite Hdk', decide_True. }
  { intros k' Hne. split; [by apply Hdk|done]. }
  eexists _, (), G', K'. split; [reflexivity|].
  split; [|split; [by apply later_heap|split; [done|split; [|split; [|split; [intros; left; apply elem_of_app; right; by eapply drops_in|done]]]]]].
  - destruct HG. split; cbn [with_heap tail_index tail_block head_index head_block ulog heap]; try done.
    intros k'. destruct (decide (k' = k)) as [->|Hne].
    + unfold dest_ok. rewrite Hdk'. specialize (g_dest0 k). unfold dest_ok in g_dest0. rewrite Ed in g_dest0.
      destruct g_dest0 as (_ & H30 & Hlt & _). intros j Hj.
      destruct (decide (j = 30%nat)) as [->|]; [done|]. apply Hlt. lia.
    + eapply dest_ok_ext; [by apply Hdk|done|apply g_dest0].
  - apply (exchange_drops _ (dtok (Run 30) k) []); [by repeat constructor|constructor|done].
  - intros kd x y Hkd. rewrite occ_app, (drops_occ K K') by done. unfold own, G'. cbn [wr rd dest link priv hphase inst set_dest].
    destruct (decide (kd = 2%nat)) as [->|Hne].
    + pose proof (own_update (dest G) dtok 2 k Freed 2 x y dtok_item eq_refl) as E. rewrite Ed in E. change (dtok Freed k) with (@nil (qtok T)) in E. cbn [occ] in E. lia.
    + rewrite (other_kind (dtok (Run 30) k) 2) by (try done; intros ? [? ->]%dtok_item; by do 2 eexists).
      by destruct kd as [|[|[|kd]]].
Qed.

Lemma ok_destroy_loop k p K K' (Q : gmultiset (qtok T) -> unit -> Prop) :
  Tk 12 (Z.of_nat k) (Z.of_nat p) ∈ K -> drops K K' -> Q (toks K') () ->
  forall n i, (n + i = 30)%nat -> ok uinv (toks (dtok (Run i) k ++ K)) (destroy_loop n p (Z.of_nat i)) Q.
Proof.
  intros Hk Hdr HQ. induction n as [|n IH]; intros i Hi; cbn [destroy_loop].
  { replace i with 30%nat by lia. by eapply ok_destroy_free. }
  specialize (IH (S i) ltac:(lia)). replace (Z.of_nat i + 1) with (Z.of_nat (S i)) by lia.
  apply ok_bind, (ok_destroyer k i p false _ K K); [lia|done|apply drops_refl|intros; by rewrite orb_false_r|].
  intros s. destruct (has s READ); [done|].
  apply ok_bind, (ok_destroyer k i p true _ K K'); [lia|done|done|intros; cbn [state value]; by rewrite lor_destroy, orb_true_r|].
  intros s'. by destruct (has s' READ).
Qed.

Lemma ok_destroy k p K K' i (Q : gmultiset (qtok T) -> unit -> Prop) :
  Tk 12 (Z.of_nat k) (Z.of_nat p) ∈ K -> (i <= 30)%nat -> drops K K' -> Q (toks K') () ->
  ok uinv (toks (dtok (Run i) k ++ K)) (destroy p (Z.of_nat i)) Q.
Proof.
  intros Hk Hi Hdr HQ. unfold destroy. eapply ok_destroy_loop; [done|done|done|]. unfold BLOCK_CAP, LAP. lia.
Qed.
End inv.
