(* ===== verification/UnboundedWords.v ===== *)
(** The unbounded queue: what a thread learns from the head and the tail, and
    the installation of the first block. *)

From stdpp Require Import gmap functions.
From S2P Require Import Prelude Conc QueueSpec Unbounded UnboundedInv.
From S2P Require Single.

Section proof.
Context {T : Type} `{Countable T}.
Context {limit : nat} (Hlimit : 4 * Z.of_nat limit + 8 <= usize_MAX).
Local Abbreviation toks := (list_to_set_disj (A:=qtok T) (C:=gmultiset (qtok T))).
Local Abbreviation returned := (done_tokens (T:=T) None crossing).
Local Abbreviation uinv := (@UnboundedInv.uinv T _ _ limit).
Local Abbreviation sees := (@UnboundedInv.sees T _ limit).
Local Abbreviation N σ := (length (pushed (ulog σ))).
Local Abbreviation M σ := (popped (ulog σ)).

(** ** What the words say *)

Section words.
Context {σ : Unbounded T} {G : ghost} {L : list (qtok T)} (Hsee : sees σ G L).

Lemma sees_counts : (M σ <= N σ <= limit)%nat.
Proof.
  destruct (s_queue _ _ _ Hsee) as [qa Hq]. apply state_at_counts in Hq as (_ & ? & _).
  pose proof (s_limit _ _ _ Hsee). lia.
Qed.

Lemma transit_pos : in_transit (N σ) G -> tail_pos (N σ) G = pos (N σ) - 1 /\ tail_pos (N σ) G mod 32 = 31.
Proof.
  intros Ht. unfold tail_pos. rewrite decide_True by done. split; [done|].
  destruct Ht as (H0 & Hp & _). by apply pos_cross.
Qed.

Lemma settled_pos : ~ in_transit (N σ) G -> tail_pos (N σ) G = pos (N σ) /\ tail_pos (N σ) G mod 32 <> 31.
Proof.
  intros Ht. unfold tail_pos. rewrite decide_False by done. split; [lia|]. rewrite Z.sub_0_r.
  destruct (pos_lap (N σ)) as [_ ->]. pose proof (split31 (N σ)). lia.
Qed.

Lemma tail_range : 0 <= tail_index σ <= usize_MAX /\ 0 <= tail_pos (N σ) G <= 2 * Z.of_nat limit.
Proof.
  pose proof sees_counts. rewrite (g_tail _ _ (s_inv _ _ _ Hsee)).
  assert (0 <= tail_pos (N σ) G <= 2 * Z.of_nat limit).
  { pose proof (pos_le (N σ)). pose proof (pos_nonneg (N σ)). unfold tail_pos. case_decide as Ht; [|lia].
    destruct Ht as (_ & Hp & _). pose proof (pos_lt 0 (N σ) Hp) as Hl. change (pos 0) with 0 in Hl. lia. }
  split; [|done]. unfold word. destruct (closed_in (ulog σ)); cbn; lia.
Qed.

Lemma tail_offset : offset_of (tail_index σ) = BLOCK_CAP <-> in_transit (N σ) G.
Proof.
  rewrite (g_tail _ _ (s_inv _ _ _ Hsee)), word_offset. change BLOCK_CAP with 31. split.
  - intros E. destruct (decide (in_transit (N σ) G)) as [|Ht]; [done|]. by apply settled_pos in Ht as [_ ?].
  - intros Ht. by apply transit_pos.
Qed.

Lemma tail_settled : offset_of (tail_index σ) <> BLOCK_CAP -> tail_index σ = word (pos (N σ)) (closed_in (ulog σ)).
Proof.
  rewrite tail_offset. intros Ht. rewrite (g_tail _ _ (s_inv _ _ _ Hsee)). by destruct (settled_pos Ht) as [-> _].
Qed.

(** The block of the tail's lap. *)
Lemma tail_lap p : ~ in_transit (N σ) G -> tail_block σ = Some p ->
  chain G !! (N σ / 31)%nat = Some p /\ length (chain G) = S (N σ / 31).
Proof.
  intros Ht Hb. pose proof (s_inv _ _ _ Hsee) as HG. rewrite (g_tblock _ _ HG) in Hb.
  assert (Hne : chain G <> []) by (intros E; by rewrite E in Hb).
  pose proof (g_chain _ _ HG Hne) as Hlen. cbv zeta in Hlen.
  rewrite decide_False in Hlen by (intros (? & ? & ?); apply Ht; split_and!; [done..|lia]).
  split; [|done]. rewrite last_lookup, Hlen in Hb. done.
Qed.

(** The head has left the blocks whose next one is not linked. *)
Lemma head_before_transit : in_transit (N σ) G -> hphase G = None -> (M σ < N σ)%nat /\ (M σ / 31 < N σ / 31)%nat.
Proof.
  intros (H0 & Hp & Hl) Hh. pose proof sees_counts. pose proof (g_hphase _ _ (s_inv _ _ _ Hsee)) as Hph. rewrite Hh in Hph.
  pose proof (split31 (N σ)). pose proof (split31 (M σ)).
  assert (M σ / 31 < N σ / 31)%nat; [|lia].
  destruct (decide (M σ / 31 < N σ / 31)%nat); [done|]. specialize (Hph (N σ / 31 - 1)%nat ltac:(lia)). lia.
Qed.

Lemma head_pos_le_tail : head_pos (M σ) G <= tail_pos (N σ) G.
Proof.
  pose proof sees_counts. unfold head_pos, tail_pos. case_decide as Ht.
  - destruct (hphase G) as [[k ph]|] eqn:Hh; [pose proof (pos_mono (M σ) (N σ)); lia|].
    destruct (head_before_transit Ht Hh). pose proof (pos_lt (M σ) (N σ)). lia.
  - pose proof (pos_mono (M σ) (N σ)). destruct (hphase G); lia.
Qed.
End words.

(** ** Loads *)

Ltac facts_side := repeat first [apply facts_lb|apply facts_tk; [lia|]|apply facts_nil].
(** A list of phases, and no history in a list of facts. *)
Ltac phases_side := first [apply phases_w|apply phases_r|apply phases_d|by repeat constructor].
Ltac no_lb := let Hx := fresh in intros ? Hx; repeat (apply elem_of_cons in Hx as [?|Hx]; [done|]); by apply elem_of_nil in Hx.

Lemma exchange_gen l (A B X K : list (qtok T)) : phases A -> phases B -> facts X ->
  (forall x, Lb x ∈ X -> x `prefix_of` l) -> UnboundedInv.exchange l (A ++ K) (B ++ X ++ K).
Proof.
  intros HA HB HX Hl. split_and!.
  - by rewrite !occ_app, (phases_occ A), (phases_occ B), facts_occ.
  - intros x [Hx|[Hx|Hx]%elem_of_app]%elem_of_app; [|right; by apply Hl|left; apply elem_of_app; by right].
    unfold phases in HB. rewrite Forall_forall in HB. by specialize (HB _ Hx).
  - intros n. by rewrite !occ_app, (phases_occ A), (phases_occ B), facts_occ.
  - by rewrite !occ_app, (phases_occ A), (phases_occ B), facts_occ.
Qed.

(** A load adds facts to the tokens, and may drop some. *)
Lemma ok_learn {A} (f : Unbounded T -> A) K (Q : gmultiset (qtok T) -> A -> Prop) :
  (forall σ G, sees σ G K -> exists X K', facts X /\ drops K K' /\
     (forall l, Lb l ∈ X -> l `prefix_of` ulog σ) /\ (forall kd a b, Tk kd a b ∈ X -> know σ G kd a b) /\
     Q (toks (X ++ K')) (f σ)) ->
  ok uinv (toks K) (atomic (fun σ => (f σ, σ))) Q.
Proof.
  intros HQ. apply ok_action. intros σ G Hsee. destruct (HQ σ G Hsee) as (X & K' & HX & Hdr & Hl & Hk & HQ').
  eexists σ, (f σ), G, (X ++ K'). split; [done|]. split; [apply Hsee|]. split; [apply later_refl|]. split; [done|].
  split; [|split; [|split; [|done]]].
  - split_and!.
    + by rewrite occ_app, facts_occ, (drops_occ K K').
    + intros l [Hin|Hin]%elem_of_app; [right; by apply Hl|left; by eapply drops_in].
    + intros n. by rewrite occ_app, facts_occ, (drops_occ K K').
    + rewrite occ_app, facts_occ by done. by apply drops_budget.
  - intros kd x y Hkd. by rewrite occ_app, facts_occ, (drops_occ K K').
  - intros kd x y Hkd [Hin|Hin]%elem_of_app; [right; by apply Hk|left; by eapply drops_in].
Qed.

(** What a thread learns from the tail, and from the head. *)
Definition tail_value (t : Z) (l : list (entry T)) : Prop :=
  (exists qa, state_at None l = Some qa) /\ has t MARK_BIT = closed_in l /\
  (length (pushed l) <= limit)%nat /\
  (offset_of t <> BLOCK_CAP -> t = word (pos (length (pushed l))) (closed_in l)).
Definition head_value (h : Z) (l : list (entry T)) : Prop :=
  (exists qa, state_at None l = Some qa) /\ (popped l <= limit)%nat /\
  (offset_of h <> BLOCK_CAP -> exists mark, h = word (pos (popped l)) mark).

Lemma tail_value_at σ G L : sees σ G L -> tail_value (tail_index σ) (ulog σ).
Proof.
  intros Hsee. split; [apply Hsee|]. split; [|split; [apply (sees_counts Hsee)|apply (tail_settled Hsee)]].
  by rewrite (g_tail _ _ (s_inv _ _ _ Hsee)), word_mark.
Qed.

Lemma head_settled σ G L : sees σ G L -> exists mark, head_index σ = word (head_pos (M σ) G) mark /\
  (mark = true -> hphase G = None -> (M σ / 31 < N σ / 31)%nat) /\
  (offset_of (head_index σ) <> BLOCK_CAP <-> hphase G = None).
Proof.
  intros Hsee. pose proof (s_inv _ _ _ Hsee) as HG. destruct (g_head _ _ HG) as (mark & E & Hm).
  exists mark. split; [done|]. split; [done|]. rewrite E, word_offset. unfold head_pos. change BLOCK_CAP with 31.
  pose proof (g_hphase _ _ HG) as Hph. destruct (hphase G) as [[k ph]|].
  - destruct Hph as (_ & HM & _). destruct (div31 (k + 1) 0 (M σ)) as [_ H0]; [lia..|].
    destruct (pos_cross (M σ) H0 ltac:(lia)) as (_ & -> & _). done.
  - rewrite Z.sub_0_r. destruct (pos_lap (M σ)) as [_ ->]. pose proof (split31 (M σ)). split; [done|]. lia.
Qed.

Lemma head_value_at σ G L : sees σ G L -> head_value (head_index σ) (ulog σ).
Proof.
  intros Hsee. split; [apply Hsee|]. split; [pose proof (sees_counts Hsee); lia|].
  destruct (head_settled _ _ _ Hsee) as (mark & E & _ & Hn). intros Ho%Hn. exists mark.
  rewrite E. unfold head_pos. by rewrite Ho, Z.sub_0_r.
Qed.

Lemma ok_u_load_tail K (Q : gmultiset (qtok T) -> Z * list (entry T) -> Prop) :
  (forall t l, tail_value t l -> (forall x, Lb x ∈ K -> x `prefix_of` l) -> Q (toks ([Lb l; Tk 8 t 0] ++ K)) (t, l)) ->
  ok uinv (toks K) load_tail Q.
Proof.
  intros HQ. apply (ok_learn (fun σ => (tail_index σ, ulog σ))). intros σ G Hsee.
  exists [Lb (ulog σ); Tk 8 (tail_index σ) 0], K. split; [by repeat constructor; lia|]. split; [apply drops_refl|]. split; [|split].
  - intros l Hin. apply elem_of_cons in Hin as [[= ->]|Hin]; [done|]. by apply list_elem_of_singleton in Hin.
  - intros kd a b Hin. apply elem_of_cons in Hin as [?|Hin]; [done|]. apply list_elem_of_singleton in Hin.
    injection Hin as -> -> ->. cbn. lia.
  - apply HQ; [by eapply tail_value_at|apply Hsee].
Qed.

Lemma ok_u_load_head K (Q : gmultiset (qtok T) -> Z * list (entry T) -> Prop) :
  (forall h l, head_value h l -> (forall x, Lb x ∈ K -> x `prefix_of` l) -> Q (toks ([Lb l; Tk 10 h 0] ++ K)) (h, l)) ->
  ok uinv (toks K) load_head Q.
Proof.
  intros HQ. apply (ok_learn (fun σ => (head_index σ, ulog σ))). intros σ G Hsee.
  exists [Lb (ulog σ); Tk 10 (head_index σ) 0], K. split; [by repeat constructor; lia|]. split; [apply drops_refl|]. split; [|split].
  - intros l Hin. apply elem_of_cons in Hin as [[= ->]|Hin]; [done|]. by apply list_elem_of_singleton in Hin.
  - intros kd a b Hin. apply elem_of_cons in Hin as [?|Hin]; [done|]. apply list_elem_of_singleton in Hin.
    injection Hin as -> -> ->. cbn. lia.
  - apply HQ; [by eapply head_value_at|apply Hsee].
Qed.

(** A block that is loaded belongs to the index that was loaded before, if
    that is still there. *)
Definition block_fact (kd : nat) (a : Z) (b : option nat) : list (qtok T) :=
  match b with Some p => [Tk kd a (Z.of_nat p)] | None => [] end.

Lemma block_fact_ok kd a b : (7 <= kd)%nat -> facts (block_fact kd a b).
Proof. intros Hkd. destruct b as [p|]; [by apply Forall_singleton|by apply Forall_nil]. Qed.

Lemma block_fact_in kd a b t : t ∈ block_fact kd a b -> exists p, b = Some p /\ t = Tk kd a (Z.of_nat p).
Proof. destruct b as [p|]; cbn; intros Hin; [apply list_elem_of_singleton in Hin as ->; by exists p|by apply elem_of_nil in Hin]. Qed.

Lemma ok_load_tail_block t K (Q : gmultiset (qtok T) -> option nat -> Prop) :
  Tk 8 t 0 ∈ K ->
  (forall b, Q (toks (block_fact 7 t b ++ K)) b) \/ (exists K', drops K K' /\ forall b, Q (toks K') b) ->
  ok uinv (toks K) load_tail_block Q.
Proof.
  intros Ht [HQ|(K' & Hdr & HQ)]; apply ok_learn; intros σ G Hsee.
  2:{ exists [], K'. split; [apply facts_nil|]. split; [done|]. split; [by intros ? ?%elem_of_nil|]. split; [by intros ? ? ? ?%elem_of_nil|apply HQ]. }
  exists (block_fact 7 t (tail_block σ)), K.
  pose proof (s_know _ _ _ Hsee 8%nat _ _ ltac:(lia) Ht) as Hle. cbn in Hle.
  split; [by apply block_fact_ok; lia|]. split; [apply drops_refl|]. split; [by intros l (p & _ & ?)%block_fact_in|]. split; [|apply HQ].
  intros kd a b (p & Eb & [= -> -> ->])%block_fact_in. cbn. by rewrite Nat2Z.id.
Qed.

Lemma ok_load_head_block h K (Q : gmultiset (qtok T) -> option nat -> Prop) :
  Tk 10 h 0 ∈ K -> (forall b, Q (toks (block_fact 9 h b ++ K)) b) -> ok uinv (toks K) load_head_block Q.
Proof.
  intros Ht HQ. apply ok_learn. intros σ G Hsee. exists (block_fact 9 h (head_block σ)), K.
  pose proof (s_know _ _ _ Hsee 10%nat _ _ ltac:(lia) Ht) as Hle. cbn in Hle.
  split; [by apply block_fact_ok; lia|]. split; [apply drops_refl|]. split; [by intros l (p & _ & ?)%block_fact_in|]. split; [|apply HQ].
  intros kd a b (p & Eb & [= -> -> ->])%block_fact_in. cbn. by rewrite Nat2Z.id.
Qed.

(** ** The first block *)

Ltac unpack HG :=
  destruct HG as [g_tail0 g_tblock0 g_empty0 g_chain0 g_nodup0 g_link0 g_head0 g_hphase0 g_hblock0 g_inst0 g_items0
    g_dest0 g_heap0 g_priv0 g_leak0].

Lemma ptok_phases p : phases (ptok (T:=T) p).
Proof. by repeat constructor. Qed.

Lemma sees_priv {σ G L p} : sees σ G L -> Tk 4 0 (Z.of_nat p) ∈ L -> p ∈ priv G.
Proof. intros Hs Hin. apply (own_priv (T:=T)), (s_own _ _ _ Hs); [lia|done]. Qed.

Lemma sees_chain {σ G L k p} : sees σ G L -> Tk 12 (Z.of_nat k) (Z.of_nat p) ∈ L -> chain G !! k = Some p.
Proof.
  intros Hs Hin. destruct (s_know _ _ _ Hs 12%nat _ _ ltac:(lia) Hin) as (_ & _ & Hc). by rewrite !Nat2Z.id in Hc.
Qed.

(** A block none of whose slots is in use is as it was made. *)
Lemma fresh_block (l : list (entry T)) G k : link G k <> 4%nat ->
  (forall j, (j < 31)%nat -> wr G (item k j) = 0%nat /\ rd G (item k j) = 0%nat /\ flag G (item k j) = false) ->
  block_of l G k = block_new.
Proof.
  intros Hl Hi. unfold block_of, block_new, next_of. rewrite decide_False by done. f_equal.
  change (Z.to_nat BLOCK_CAP) with 31%nat. apply list_eq. intros j. rewrite list_lookup_fmap.
  destruct (decide (j < 31)%nat) as [Hj|Hj].
  - rewrite lookup_seq_lt, lookup_replicate_2 by done. cbn [fmap option_fmap option_map]. f_equal.
    destruct (Hi j Hj) as (Hw & Hr & Hf). unfold slot_of, state_of, cell_of. rewrite Nat.add_0_l, Hw, Hr, Hf. done.
  - rewrite !lookup_ge_None_2; [done|..]; rewrite ?length_replicate, ?length_seq; lia.
Qed.

(** No block beyond the pushed items is in use. *)
Lemma unused σ G L k : sees σ G L -> (N σ <= 31 * k)%nat ->
  dest G k = DNone /\ block_of (ulog σ) G k = block_new.
Proof.
  intros Hsee Hk. pose proof (s_inv _ _ _ Hsee) as HG. pose proof (sees_counts Hsee) as Hc.
  assert (Hi : forall j, wr G (item k j) = 0%nat /\ rd G (item k j) = 0%nat).
  { intros j. destruct (g_items _ _ HG (item k j)) as (Hw & Hr & _). unfold item in *. lia. }
  pose proof (g_dest _ _ HG k) as Hd. unfold dest_ok in Hd. destruct (Hi 30%nat) as [_ H30].
  assert (Ed : dest G k = DNone).
  { destruct (dest G k) as [|i|i|]; [done|destruct Hd as (_ & Hd & _); lia..|]. specialize (Hd 30%nat ltac:(lia)). lia. }
  rewrite Ed in Hd. split; [done|]. apply fresh_block.
  - destruct (g_link _ _ HG k) as (Hl & _). lia.
  - intros j Hj. destruct (Hi j) as [-> ->]. split_and!; [done..|]. by apply Hd.
Qed.

Lemma ok_cas_tail_block t p K (Q : gmultiset (qtok T) -> bool -> Prop) :
  Tk 8 t 0 ∈ K -> Q (toks ([Tk 6 0 0; Tk 7 t (Z.of_nat p); Tk 12 0 (Z.of_nat p)] ++ K)) true ->
  Q (toks (ptok p ++ K)) false -> ok uinv (toks (ptok p ++ K)) (cas_tail_block p) Q.
Proof.
  intros Ht Htrue Hfalse. apply ok_action. intros σ G Hsee. pose proof (s_inv _ _ _ Hsee) as HG.
  destruct (tail_block σ) as [b|] eqn:Etb.
  { eexists σ, false, G, (ptok p ++ K). split; [done|]. split; [done|]. split; [apply later_refl|]. split; [done|].
    split; [by split_and!; [|left| |]|]. split; [done|]. split; [by left|done]. }
  assert (Hc : chain G = []).
  { rewrite (g_tblock _ _ HG) in Etb. by apply last_None in Etb. }
  destruct (g_empty _ _ HG Hc) as [HN Hinst]. pose proof (sees_counts Hsee) as HM.
  pose proof (sees_priv Hsee ltac:(by left)) as Hp. destruct (g_priv _ _ HG p Hp) as [Hh _].
  pose proof (unused _ _ _ 0 Hsee ltac:(lia)) as [Ed Eb].
  assert (HM0 : M σ = 0%nat) by lia.
  eexists _, true, (set_inst true (set_chain [p] (set_priv (priv G ∖ {[p]}) G))), _.
  split; [reflexivity|]. split; [|split; [|split; [done|split; [|split; [|split; [|exact Htrue]]]]]].
  - unpack HG. split; cbn [with_tail tail_index tail_block head_index head_block ulog heap chain inst priv set_inst set_chain set_priv hphase link wr rd flag dest]; try done.
    + intros _. cbv zeta. rewrite decide_False; [|intros (_ & ? & _); lia]. by rewrite HN.
    + apply NoDup_singleton.
    + rewrite g_hblock0, Hinst, Hc. done.
    + intros k q Hk. destruct k as [|k]; [|done]. injection Hk as <-.
      change (dest _ 0) with (dest G 0). rewrite Ed, decide_False by done. rewrite Hh.
      do 2 f_equal. rewrite <- Eb. symmetry. apply block_same; [|done]. unfold next_of.
      destruct (g_link0 0%nat) as (Hl & _). cbn [link set_inst set_chain set_priv].
      rewrite !decide_False by lia. done.
    + intros q [Hq Hne%not_elem_of_singleton]%elem_of_difference. split; [by apply g_priv0|].
      by intros ?%list_elem_of_singleton.
    + intros q b Hq. destruct (g_leak0 q b Hq) as [Hin|Hin]; [rewrite Hc in Hin; by apply elem_of_nil in Hin|].
      destruct (decide (q = p)) as [->|]; [left; by left|right; set_solver].
  - split; cbn [with_tail tail_index tail_block head_index head_block ulog]; try done.
    + intros q _ _ Hq. by rewrite Etb in Hq.
    + cbn [chain set_inst set_chain]. rewrite Hc. apply prefix_nil.
  - apply (exchange_gen _ (ptok p) [Tk 6 0 0] [Tk 7 t (Z.of_nat p); Tk 12 0 (Z.of_nat p)]); [phases_side|phases_side|facts_side|no_lb].
  - intros kd x y Hkd.
    pose proof (own_inst (T:=T) true (set_chain [p] (set_priv (priv G ∖ {[p]}) G)) kd x y) as E1.
    pose proof (own_box (T:=T) p (priv G ∖ {[p]}) G kd x y ltac:(set_solver)) as E2.
    rewrite <- union_difference_singleton_L, set_priv_same in E2 by done.
    change (own (set_chain [p] ?g)) with (own (T:=T) g) in E1.
    cbn [inst set_chain set_priv] in E1. rewrite Hinst in E1. cbn [itok] in E1.
    change ([Tk 6 0 0; Tk 7 t (Z.of_nat p); Tk 12 0 (Z.of_nat p)] ++ K) with ([Tk 6 0 0] ++ [Tk 7 t (Z.of_nat p); Tk 12 0 (Z.of_nat p)] ++ K).
    rewrite !occ_app. rewrite (facts_occ [Tk 7 t (Z.of_nat p); Tk 12 0 (Z.of_nat p)]) by first [done|facts_side].
    cbn [itok occ] in E1 |- *. lia.
  - intros kd x y Hkd Hin. apply elem_of_cons in Hin as [[= -> _ _]|Hin]; [lia|].
    apply elem_of_cons in Hin as [[= -> -> ->]|Hin].
    { right. cbn. rewrite Nat2Z.id. split; [|done]. apply (s_know _ _ _ Hsee 8%nat t 0); [lia|]. by right. }
    apply elem_of_cons in Hin as [[= -> -> ->]|Hin]; [right; cbn; rewrite Nat2Z.id; split_and!; [done|lia|done]|].
    left. by right.
Qed.

Lemma ok_store_first p K (Q : gmultiset (qtok T) -> unit -> Prop) :
  Tk 12 0 (Z.of_nat p) ∈ K -> Q (toks K) () -> ok uinv (toks (Tk 6 0 0 :: K)) (store_head_block p) Q.
Proof.
  intros Hk HQ. apply ok_action. intros σ G Hsee. pose proof (s_inv _ _ _ Hsee) as HG.
  assert (Hi : inst G = true) by (apply (own_i (T:=T)), (s_own _ _ _ Hsee); [lia|by left]).
  pose proof (sees_chain (k := 0) Hsee ltac:(right; exact Hk)) as Hc.
  pose proof (g_inst _ _ HG Hi) as HM.
  eexists _, (), (set_inst false G), K. split; [reflexivity|].
  split; [|split; [|split; [done|split; [|split; [|split; [intros; left; by right|done]]]]]].
  - unpack HG. split; cbn [with_head tail_index tail_block head_index head_block ulog heap chain inst priv set_inst hphase link wr rd flag dest]; try done.
    + intros E. by rewrite E in Hc.
    + unfold head_lap. cbn [hphase set_inst]. destruct (hphase G) as [[k ph]|] eqn:Eh; [|by rewrite HM].
      destruct g_hphase0 as (_ & HM' & _). lia.
  - split; cbn [with_head tail_index tail_block head_index head_block ulog]; try done.
    intros q _ _ Hq. rewrite (g_hblock _ _ HG), Hi in Hq. done.
  - apply (exchange_phases _ [Tk 6 0 0] []); [by repeat constructor|constructor].
  - intros kd x y Hkd. pose proof (own_inst (T:=T) false G kd x y) as E. rewrite Hi in E. cbn [itok occ] in E |- *. lia.
Qed.
End proof.
