(* ===== verification/UnboundedPush.v ===== *)
(** The unbounded queue: push.  The compare-exchange of the tail, the three
    stores with which the thread that took the last slot of a block links the
    next one, and the loop. *)

From stdpp Require Import gmap functions.
From S2P Require Import Prelude Conc QueueSpec Unbounded UnboundedInv UnboundedWords.
From S2P Require Single.

Section proof.
Context {T : Type} `{Countable T}.
Context {limit : nat} (Hlimit : 4 * Z.of_nat limit + 8 <= usize_MAX).
Local Abbreviation toks := (list_to_set_disj (A:=qtok T) (C:=gmultiset (qtok T))).
Local Abbreviation returned := (done_tokens (T:=T) None crossing).
Local Abbreviation uinv := (@UnboundedInv.uinv T _ _ limit).
Local Abbreviation sees := (@UnboundedInv.sees T _ limit).
Local Abbreviation tail_value := (@UnboundedWords.tail_value T _ limit).
Local Abbreviation N σ := (length (pushed (ulog σ))).
Local Abbreviation M σ := (popped (ulog σ)).

Ltac unpack HG :=
  destruct HG as [g_tail0 g_tblock0 g_empty0 g_chain0 g_nodup0 g_link0 g_head0 g_hphase0 g_hblock0 g_inst0 g_items0
    g_dest0 g_heap0 g_priv0 g_leak0].

(** ** The tail moves by one *)

Definition last_slot (n : nat) : nat := if decide (n mod 31 = 30)%nat then 1 else 0.

Section push.
Context {σ : Unbounded T} {G : ghost} {L : list (qtok T)} (Hsee : sees σ G L).
Context (v : T) (p : nat) (Hset : offset_of (tail_index σ) <> BLOCK_CAP) (Hopen : closed_in (ulog σ) = false).
Context (Hp : tail_block σ = Some p).
Local Abbreviation n := (length (pushed (ulog σ))).
Local Abbreviation k := (n / 31)%nat.
Local Abbreviation j := (n mod 31)%nat.

Definition pushed_ghost : ghost := set_link k (last_slot n) (upd k j 1 0 (flag G n) (dest G k) G).

Lemma push_fresh : wr G n = 0%nat /\ rd G n = 0%nat /\ link G k = 0%nat.
Proof using Hsee.
  pose proof (s_inv _ _ _ Hsee) as HG. pose proof (sees_counts Hsee) as Hc. destruct (g_items _ _ HG n) as (Hw & Hr & _).
  destruct (g_link _ _ HG k) as (Hl & _). pose proof (split31 n). split_and!; [by apply Hw|apply Hr; lia|apply Hl; lia].
Qed.

Lemma pushed_log : pushed (ulog σ ++ [EPush v]) = pushed (ulog σ) ++ [v].
Proof. by rewrite pushed_app. Qed.

Lemma pushed_link k' : link pushed_ghost k' = if decide (k = k') then last_slot n else link G k'.
Proof. apply fn_at. Qed.

Lemma push_slot m : slot_of (ulog σ ++ [EPush v]) pushed_ghost m = slot_of (ulog σ) G m.
Proof using Hsee.
  destruct push_fresh as (Hw & Hr & _). pose proof (s_inv _ _ _ Hsee) as HG.
  change (slot_of ?l pushed_ghost m) with (slot_of l (upd k j 1 0 (flag G n) (dest G k) G) m).
  destruct (decide (m = n)) as [->|Hne].
  - pose proof (upd_state k j 1 0 (flag G n) (dest G k) G (proj2 (split31 n))) as E1.
    pose proof (upd_cell (ulog σ ++ [EPush v]) k j 1 0 (flag G n) (dest G k) G) as E2.
    rewrite <- item_split in E1, E2. unfold slot_of. rewrite E1, E2. unfold state_of, cell_of. by rewrite Hw, Hr.
  - rewrite upd_slot by by rewrite <- item_split. unfold slot_of. f_equal. unfold cell_of. rewrite pushed_log.
    destruct (g_items _ _ HG m) as (Hwm & _). destruct (decide (m < n)%nat) as [Hlt|Hge].
    + by rewrite lookup_app_l.
    + by rewrite (proj2 Hwm) by lia.
Qed.

Lemma push_block k' : block_of (ulog σ ++ [EPush v]) pushed_ghost k' = block_of (ulog σ) G k'.
Proof using Hsee.
  destruct push_fresh as (_ & _ & Hl). apply block_same; [|intros; apply push_slot].
  unfold next_of. rewrite pushed_link. unfold last_slot. destruct (decide (k = k')) as [<-|]; [|done].
  rewrite Hl. by destruct (decide (n mod 31 = 30)%nat).
Qed.

Lemma push_tail_pos : tail_pos (S n) pushed_ghost = pos n + 1.
Proof.
  unfold tail_pos. rewrite pos_succ. pose proof (split31 n) as [E Hr]. destruct (decide (n mod 31 = 30)%nat) as [E30|E30].
  - destruct (div31 (S k) 0 (S n)) as [E1 E2]; [lia..|]. rewrite decide_True; [lia|]. unfold in_transit.
    rewrite E1, E2, pushed_link. cbn [Nat.sub]. rewrite Nat.sub_0_r, decide_True by done. unfold last_slot. rewrite decide_True by done. lia.
  - destruct (div31 k (S j) (S n)) as [E1 E2]; [lia..|]. rewrite decide_False; [lia|]. intros (Hz & _). lia.
Qed.

Lemma push_to_link : (if decide (to_link (S n) pushed_ghost) then (S n / 31)%nat else S (S n / 31)) = S k.
Proof.
  pose proof (split31 n) as [E Hr]. destruct (decide (n mod 31 = 30)%nat) as [E30|E30].
  - destruct (div31 (S k) 0 (S n)) as [E1 E2]; [lia..|]. rewrite decide_True; [lia|]. unfold to_link.
    rewrite E1, E2, pushed_link. cbn [Nat.sub]. rewrite Nat.sub_0_r, decide_True by done. unfold last_slot. rewrite decide_True by done. lia.
  - destruct (div31 k (S j) (S n)) as [E1 E2]; [lia..|]. rewrite decide_False; [lia|]. intros (Hz & _). lia.
Qed.

Lemma push_ginv : ginv (with_tail (word (pos n + 1) false) (tail_block σ) (ulog σ ++ [EPush v]) σ) pushed_ghost.
Proof using Hsee Hset Hopen Hp Hlimit.
  destruct push_fresh as (Hw & Hr & Hl). pose proof (s_inv _ _ _ Hsee) as HG. pose proof (sees_counts Hsee) as Hc.
  rewrite (tail_offset Hsee) in Hset. destruct (tail_lap Hsee p Hset Hp) as [Hck Hlen].
  pose proof (split31 n) as [En Hj].
  assert (Hlast : (last_slot n <= 1)%nat) by (unfold last_slot; case_decide; lia).
  assert (Hlk : forall k', (k' < k)%nat -> link pushed_ghost k' = link G k') by (intros k' Hk'; rewrite pushed_link, decide_False by lia; done).
  assert (HM : popped (ulog σ ++ [EPush v]) = M σ) by (rewrite popped_app; change (popped [EPush v]) with 0%nat; lia).
  unpack HG. split; cbn [with_tail tail_index tail_block head_index head_block ulog heap chain inst priv hphase]; try rewrite HM; try rewrite pushed_log, length_app, Nat.add_1_r.
  - rewrite push_tail_pos, closed_app, Hopen. done.
  - done.
  - intros E. change (chain G = []) in E. by rewrite E in Hck.
  - intros _. cbv zeta. change (chain pushed_ghost) with (chain G). by rewrite Hlen, push_to_link.
  - done.
  - intros k'. cbv zeta. specialize (g_link0 k'). rewrite pushed_link. destruct (decide (k = k')) as [<-|Hne].
    + unfold last_slot. destruct (decide _); lia.
    + destruct g_link0 as (L1 & L2 & L3). split; [lia|]. split; [done|]. intros E. specialize (L3 E).
      exfalso. apply Hset. unfold in_transit. destruct (div31 (k' + 1) 0 n) as [E1 E2]; [lia..|].
      rewrite E1, E2. replace (k' + 1 - 1)%nat with k' by lia. lia.
  - destruct g_head0 as (mark & E & Hm). exists mark. split; [done|]. intros H1 H2. specialize (Hm H1 H2).
    pose proof (Nat.Div0.div_le_mono n (S n) 31 ltac:(lia)). lia.
  - change (hphase pushed_ghost) with (hphase G). pose proof (split31 (M σ)). destruct (hphase G) as [[k0 ph]|].
    + destruct g_hphase0 as (H1 & H2 & H3 & H4). split; [done|]. split; [done|]. split.
      * intros k' Hk'. rewrite Hlk by lia. by apply H3.
      * intros Hph. rewrite Hlk by lia. by apply H4.
    + intros k' Hk'. pose proof (Nat.Div0.div_le_mono (M σ) n 31 ltac:(lia)). rewrite Hlk by lia. by apply g_hphase0.
  - done.
  - done.
  - intros m. change (wr pushed_ghost) with (wr (upd k j 1 0 (flag G n) (dest G k) G)).
    change (rd pushed_ghost) with (rd (upd k j 1 0 (flag G n) (dest G k) G)). rewrite upd_wr, upd_rd, <- item_split.
    specialize (g_items0 m). destruct (decide (n = m)) as [<-|Hne]; lia.
  - intros k'. eapply (dest_ok_ext k' G); [| |apply g_dest0].
    + change (dest pushed_ghost) with (dest (upd k j 1 0 (flag G n) (dest G k) G)). rewrite upd_dest. by destruct (decide (k = k')) as [<-|].
    + intros j' Hj'. change (rd pushed_ghost) with (rd (upd k j 1 0 (flag G n) (dest G k) G)).
      change (flag pushed_ghost) with (flag (upd k j 1 0 (flag G n) (dest G k) G)). rewrite upd_rd, upd_flag, <- item_split.
      case_decide as E; [|done]. rewrite <- E, Hr. done.
  - intros k' q Hk'. change (chain pushed_ghost) with (chain G) in Hk'. rewrite push_block, (g_heap0 _ _ Hk').
    change (dest pushed_ghost) with (dest (upd k j 1 0 (flag G n) (dest G k) G)). rewrite upd_dest. by destruct (decide (k = k')) as [<-|].
  - done.
  - done.
Qed.

Lemma push_own kd x y :
  (own (T:=T) pushed_ghost kd x y = own (T:=T) G kd x y + occ (Tk kd x y) (wtok (T:=T) 1 n ++ ltok (last_slot n) k))%nat.
Proof using Hsee.
  destruct push_fresh as (Hw & Hr & Hl).
  pose proof (own_link (T:=T) k (last_slot n) (upd k j 1 0 (flag G n) (dest G k) G) kd x y) as E1.
  pose proof (own_upd (T:=T) k j 1 0 (flag G n) (dest G k) G kd x y) as E2. cbv zeta in E2. rewrite <- item_split in E2.
  change (link (upd _ _ _ _ _ _ _)) with (link G) in E1. rewrite Hl in E1. rewrite Hw, Hr in E2.
  rewrite !occ_app in *. change (ltok 0 k) with (@nil (qtok T)) in E1. change (wtok 0 n) with (@nil (qtok T)) in E2.
  change (rtok 0 n) with (@nil (qtok T)) in E2. cbn [occ] in *. unfold pushed_ghost. lia.
Qed.
End push.

Lemma word_bounds n b : (n <= limit)%nat -> 0 <= word (pos n) b /\ word (pos n) b + 6 <= usize_MAX.
Proof using Hlimit.
  intros Hn. pose proof (pos_le n). pose proof (pos_nonneg n). unfold word. destruct b; cbn; lia.
Qed.

(** What the thread that took the slot of the item [n] in the block [p] has. *)
Definition push_tokens (n p : nat) (l : list (entry T)) : list (qtok T) :=
  wtok 1 n ++ ltok (last_slot n) (n / 31) ++ [Did (length l); Lb l; Tk 12 (Z.of_nat (n / 31)) (Z.of_nat p)].

Lemma push_tokens_in n p l t : t ∈ push_tokens n p l -> (exists c, t = Tk 0 c (Z.of_nat n)) \/
  (exists c, t = Tk 3 c (Z.of_nat (n / 31))) \/ t = Did (length l) \/ t = Lb l \/ t = Tk 12 (Z.of_nat (n / 31)) (Z.of_nat p).
Proof.
  unfold push_tokens. intros [Hin%wtok_item|[Hin%ltok_item|Hin]%elem_of_app]%elem_of_app; [by left|by right; left|].
  right. right. rewrite !elem_of_cons, elem_of_nil in Hin. naive_solver.
Qed.

Lemma occ_push_tokens n p l t : occ t (push_tokens n p l) =
  (occ t (wtok (T:=T) 1 n ++ ltok (last_slot n) (n / 31)) + occ t [Did (length l); Lb l; Tk 12 (Z.of_nat (n / 31)) (Z.of_nat p)])%nat.
Proof. unfold push_tokens. rewrite !occ_app. lia. Qed.

Lemma occ_phase n p l t : match t with Tk kd _ _ => kd = 12%nat | _ => True end ->
  occ t (push_tokens n p l) = occ t [Did (length l); Lb l; Tk 12 (Z.of_nat (n / 31)) (Z.of_nat p)].
Proof.
  intros Ht. rewrite occ_push_tokens. enough (occ t (wtok (T:=T) 1 n ++ ltok (last_slot n) (n / 31)) = 0%nat) by lia.
  destruct (decide (occ t (wtok (T:=T) 1 n ++ ltok (last_slot n) (n / 31)) = 0%nat)) as [|E]; [done|].
  apply occ_elem in E as [[c ->]%wtok_item|[c ->]%ltok_item]%elem_of_app; by cbn in Ht.
Qed.

Lemma ok_u_cas_tail t l0 v p K (Q : gmultiset (qtok T) -> Z * list (entry T) -> Prop) :
  let n := length (pushed l0) in
  tail_value t l0 -> has t MARK_BIT = false -> offset_of t <> BLOCK_CAP -> Tk 7 t (Z.of_nat p) ∈ K ->
  (forall l, length (pushed l) = n -> (forall x, Lb x ∈ K -> x `prefix_of` l) ->
     (exists q, state_at None (l ++ [EPush v]) = Some q) ->
     Q (toks (push_tokens n p (l ++ [EPush v]) ++ K)) (t, l)) ->
  (forall t' l, t' <> t -> tail_value t' l -> (forall x, Lb x ∈ K -> x `prefix_of` l) -> Q (toks (Budget :: [Lb l; Tk 8 t' 0] ++ K)) (t', l)) ->
  ok uinv (toks (Budget :: K)) (cas_tail t (t + Z.shiftl 1 SHIFT) v) Q.
Proof using Hlimit.
  intros n Htv Hm Ho Hp Hyes Hno. apply ok_step. intros σ G Hsee. pose proof (s_inv _ _ _ Hsee) as HG.
  destruct (Z.eqb_spec (tail_index σ) t) as [Et|Et].
  2:{ eexists σ, _, G, (Budget :: [Lb (ulog σ); Tk 8 (tail_index σ) 0] ++ K). split; [reflexivity|].
    split; [done|]. split; [apply later_refl|]. split; [apply Hsee|]. split; [|split; [|split; [|apply Hno; [done|by eapply tail_value_at|intros x Hx; apply (s_lb _ _ _ Hsee); by right]]]].
    - cbn [app occ]. split; [|split; [|split]].
      + repeat case_decide; done.
      + intros x. rewrite !elem_of_cons. naive_solver.
      + intros m. rewrite (decide_False (P := (_ < _ <= _)%nat)) by lia. repeat case_decide; try done; lia.
      + repeat case_decide; try done; lia.
    - intros kd x y Hkd. cbn [app occ]. rewrite !(decide_False (P := Tk kd x y = _)) by (intros [=]; lia). lia.
    - intros kd x y Hkd. cbn [app]. rewrite !elem_of_cons. intros [?|[?|[[= -> -> ->]|?]]]; [done|done|right; cbn; lia|left; by right]. }
  subst t. destruct Htv as (_ & Hcl & Hlim & Hword). specialize (Hword Ho).
  assert (Hcl' : closed_in (ulog σ) = false).
  { rewrite (g_tail _ _ HG), word_mark in Hm. done. }
  assert (Hl0 : closed_in l0 = false) by congruence.
  assert (En : n = N σ).
  { pose proof (tail_settled Hsee Ho) as E. rewrite Hword in E. apply word_inj in E as [E%pos_inj _]. done. }
  destruct (s_know _ _ _ Hsee 7%nat _ _ ltac:(lia) ltac:(right; exact Hp)) as [_ Htb]. rewrite Nat2Z.id in Htb. specialize (Htb eq_refl Ho).
  destruct (s_queue _ _ _ Hsee) as [qa Hqa].
  assert (Hstate : exists q, state_at None (ulog σ ++ [EPush v]) = Some q).
  { rewrite state_at_snoc, Hqa. cbn. apply state_at_counts in Hqa as (_ & _ & -> & _). rewrite Hcl'. by eexists. }
  eexists (with_tail (word (pos (N σ) + 1) false) (tail_block σ) (ulog σ ++ [EPush v]) σ), _, pushed_ghost, (push_tokens n p (ulog σ ++ [EPush v]) ++ K).
  split.
  { change (Z.shiftl 1 SHIFT) with 2. rewrite Hl0 in Hword. fold n in Hword. rewrite En in Hword.
    replace (tail_index σ + 2) with (word (pos (N σ) + 1) false) by (rewrite Hword; unfold word; cbn; lia). reflexivity. }
  split; [by apply (push_ginv Hsee v p)|]. split; [|split; [done|split; [|split; [|split]]]].
  - split; cbn [with_tail tail_index tail_block head_index head_block ulog]; try done.
    + rewrite Hword, Hl0. fold n. rewrite En. unfold word. cbn. lia.
    + rewrite popped_app. change (popped [EPush v]) with 0%nat. lia.
    + by apply prefix_app_r.
  - cbn [with_tail ulog]. rewrite pushed_log, !length_app. cbn [length]. split; [|split; [|split]].
    + rewrite occ_app, occ_phase by done. cbn [occ]. done.
    + intros x [Hin|Hin]%elem_of_app; [|left; by right]. apply push_tokens_in in Hin as [[? ?]|[[? ?]|[?|[[= ->]|?]]]]; try done. by right.
    + intros m. rewrite occ_app, occ_phase by done. rewrite length_app. cbn [occ length]. destruct (decide (m = length (ulog σ) + 1)%nat) as [->|Hne].
      * repeat case_decide; simplify_eq; try done; lia.
      * rewrite (decide_False (P := Did m = _)), (decide_False (P := (_ < _ <= _)%nat)) by (lia || (intros [=]; lia)). repeat case_decide; try done; lia.
    + rewrite occ_app, occ_phase by done. cbn [occ]. repeat case_decide; try done; lia.
  - intros kd x y Hkd. rewrite (push_own Hsee), occ_app, occ_push_tokens, En.
    cbn [occ]. rewrite !(decide_False (P := Tk kd x y = _)) by (intros [=]; lia). lia.
  - intros kd x y Hkd [Hin|Hin]%elem_of_app; [|left; by right]. right.
    apply push_tokens_in in Hin as [[? [= -> _ _]]|[[? [= -> _ _]]|[?|[?|[= -> -> ->]]]]]; try done; try lia.
    cbn. rewrite !Nat2Z.id. split; [lia|]. split; [lia|]. rewrite En.
    apply (tail_lap Hsee p); [by rewrite <- (tail_offset Hsee)|done].
  - apply Hyes; [done| |done]. intros x Hx. apply (s_lb _ _ _ Hsee). by right.
Qed.

(** ** The next block is linked *)

Lemma sees_ln {σ G L ph k} : sees σ G L -> Tk 3 (Z.of_nat ph) (Z.of_nat k) ∈ L -> link G k = ph.
Proof. intros Hs Hin. apply (own_ln (T:=T)). apply (s_own _ _ _ Hs); [lia|done]. Qed.

(** While the block [k] is being linked, all its slots are taken and nothing
    beyond. *)
Lemma linking_pushed {σ G L k} : sees σ G L -> (link G k = 1 \/ link G k = 2)%nat ->
  N σ = (31 * (k + 1))%nat /\ (N σ / 31)%nat = S k /\ in_transit (N σ) G /\
  (to_link (N σ) G <-> link G k = 1%nat).
Proof.
  intros Hs Hl. destruct (g_link _ _ (s_inv _ _ _ Hs) k) as (_ & _ & HN). specialize (HN Hl).
  destruct (div31 (k + 1) 0 (N σ)) as [E1 E2]; [lia..|]. rewrite Nat.add_1_r in E1.
  unfold in_transit, to_link. rewrite E1, E2. cbn [Nat.sub]. rewrite Nat.sub_0_r. split; [done|]. split; [done|]. lia.
Qed.

(** The head has not left a block that is not linked. *)
Lemma head_lap_le {σ G L k} : sees σ G L -> N σ = (31 * (k + 1))%nat -> link G k <> 4%nat -> (head_lap (M σ) G <= k)%nat.
Proof.
  intros Hs HN Hl. pose proof (sees_counts Hs) as Hc. pose proof (g_hphase _ _ (s_inv _ _ _ Hs)) as Hph. unfold head_lap.
  destruct (hphase G) as [[k' ph]|].
  - destruct Hph as (Hle & HM & _ & H4). assert (k' <= k)%nat by lia.
    destruct ph as [|[|ph]]; [done|done|]. destruct (decide (k' = k)) as [->|]; [|lia]. specialize (H4 ltac:(lia)). lia.
  - destruct (decide (M σ / 31 <= k)%nat) as [|Hgt]; [done|]. specialize (Hph k ltac:(lia)). lia.
Qed.

(** A change of the link of [k] and of the chain. *)
Lemma ginv_link (σ : Unbounded T) G k x c s hp tl tb :
  let G' := set_link k x (set_chain c (set_priv s G)) in
  let σ' := mkUnbounded (head_index σ) (head_block σ) tl tb hp (ulog σ) in
  ginv σ G -> chain G `prefix_of` c -> NoDup c -> (link G k <> 0 /\ link G k <> 4 /\ 1 <= x <= 4)%nat ->
  N σ = (31 * (k + 1))%nat \/ (3 <= x)%nat ->
  tl = word (tail_pos (N σ) G') (closed_in (ulog σ)) -> tb = last c -> c <> [] ->
  (length c = if decide (to_link (N σ) G') then (N σ / 31)%nat else S (N σ / 31)) ->
  (inst G = false -> c !! head_lap (M σ) G = chain G !! head_lap (M σ) G) ->
  (forall k p, c !! k = Some p ->
     hp !! p = Some (if decide (dest G k = Freed) then None else Some (block_of (ulog σ) G' k))) ->
  (forall p, p ∈ s -> hp !! p = Some (Some block_new) /\ p ∉ c) ->
  (forall p b, hp !! p = Some (Some b) -> p ∈ c \/ p ∈ s) ->
  ginv σ' G'.
Proof.
  intros G' σ' HG Hpre Hnd (Hl0 & Hl4 & Hx) HN Htl Htb Hne Hlen Hhb Hheap Hpriv Hleak.
  assert (Hlink : forall k', link G' k' = if decide (k = k') then x else link G k') by (intros; apply fn_at).
  unpack HG. subst σ'. split; cbn [tail_index tail_block head_index head_block ulog heap]; try done.
  - intros k'. specialize (g_link0 k'). cbv zeta in *. rewrite Hlink. destruct (decide (k = k')) as [<-|]; [lia|done].
  - change (hphase G') with (hphase G). destruct (hphase G) as [[k0 ph]|].
    + destruct g_hphase0 as (H1 & H2 & H3 & H4). split; [done|]. split; [done|]. split.
      * intros k' Hk'. specialize (H3 k' Hk'). rewrite Hlink. destruct (decide (k = k')) as [E|]; [by rewrite E in Hl4|done].
      * intros Hp. specialize (H4 Hp). rewrite Hlink. destruct (decide (k = k0)) as [E|]; [by rewrite E in Hl4|done].
    + intros k' Hk'. specialize (g_hphase0 k' Hk'). rewrite Hlink. destruct (decide (k = k')) as [E|]; [by rewrite E in Hl4|done].
  - change (inst G') with (inst G). change (head_lap _ G') with (head_lap (M σ) G). rewrite g_hblock0.
    destruct (inst G); [done|]. change (chain G') with c. by rewrite Hhb.
Qed.

(** A step of the link of the block [k] from [a] to [b] that also turns the
    phases [A] into [B] and adds the facts [X]. *)
Lemma ok_link_step {A} (f : Unbounded T -> option (Unbounded T * prog (Unbounded T) A)) k a b s c (B X K : list (qtok T)) (Q : gmultiset (qtok T) -> A -> Prop) :
  (1 <= a <= 3)%nat -> phases B -> facts X ->
  (forall σ G, sees σ G (ltok a k ++ B ++ K) -> link G k = a -> exists σ' r,
    let G' := set_link k b (set_chain (c G) (set_priv (s G) G)) in
    f σ = Some (σ', Ret r) /\ ginv σ' G' /\ later σ G σ' G' /\ ulog σ' = ulog σ /\
    (forall kd x y, own (T:=T) (set_priv (s G) G) kd x y + occ (Tk kd x y) B = own (T:=T) G kd x y)%nat /\
    (forall l, Lb l ∉ X) /\ (forall kd x y, Tk kd x y ∈ X -> know σ' G' kd x y) /\
    Q (toks (ltok b k ++ X ++ K)) r) ->
  ok uinv (toks (ltok a k ++ B ++ K)) (Act f) Q.
Proof.
  intros Ha HB HX Hf. apply ok_action. intros σ G Hsee.
  assert (Hl : link G k = a).
  { eapply sees_ln; [exact Hsee|]. unfold ltok. rewrite decide_True by done. by left. }
  destruct (Hf σ G Hsee Hl) as (σ' & r & Hf' & HG' & Hlat & Hlog & Hown & Hlb & Hk & HQ). cbv zeta in *.
  eexists σ', r, _, (ltok b k ++ X ++ K). split; [done|]. split; [exact HG'|]. split; [done|]. split; [done|].
  assert (Hph : forall x n, phases (ltok (T:=T) x n)) by (intros; unfold ltok; case_decide; by repeat constructor).
  split; [|split; [|split; [|done]]].
  - rewrite (app_assoc (ltok a k)). apply (exchange_gen _ (ltok a k ++ B) (ltok b k) X K); [apply Forall_app; split; [apply Hph|done]|apply Hph|done|].
    intros l Hin. by destruct (Hlb l).
  - intros kd x y Hkd. specialize (Hown kd x y).
    pose proof (own_link (T:=T) k b (set_chain (c G) (set_priv (s G) G)) kd x y) as E.
    change (own (set_chain _ ?g)) with (own (T:=T) g) in E. cbn [link set_chain set_priv] in E. rewrite Hl in E.
    rewrite !occ_app, (facts_occ X) by done. lia.
  - intros kd x y Hkd [Hin|[Hin|Hin]%elem_of_app]%elem_of_app.
    + apply ltok_item in Hin as [? [= -> _ _]]. lia.
    + right. by apply Hk.
    + left. rewrite !elem_of_app. auto.
Qed.

Lemma own_none (G : ghost) kd x y : (own (T:=T) (set_priv (priv G) G) kd x y + occ (Tk kd x y) (@nil (qtok T)) = own (T:=T) G kd x y)%nat.
Proof. rewrite set_priv_same. cbn [occ]. lia. Qed.

Lemma ok_store_next_tail k nb K (Q : gmultiset (qtok T) -> unit -> Prop) :
  Q (toks (Tk 3 2 (Z.of_nat k) :: Tk 12 (Z.of_nat (S k)) (Z.of_nat nb) :: K)) () ->
  ok uinv (toks (Tk 3 1 (Z.of_nat k) :: ptok nb ++ K)) (store_tail_block nb) Q.
Proof.
  intros HQ. apply (ok_link_step _ k 1 2 (fun G => priv G ∖ {[nb]}) (fun G => chain G ++ [nb]) (ptok nb) [Tk 12 (Z.of_nat (S k)) (Z.of_nat nb)]);
    [lia|apply ptok_phases|by repeat constructor; lia|].
  intros σ G Hsee Hl. pose proof (s_inv _ _ _ Hsee) as HG.
  destruct (linking_pushed Hsee (or_introl Hl)) as (HN & Hdiv & Htr & Hto).
  pose proof (head_lap_le Hsee HN ltac:(lia)) as Hlap.
  assert (Hne : chain G <> []).
  { intros E. destruct (g_empty _ _ HG E). lia. }
  pose proof (g_chain _ _ HG Hne) as Hlen. cbv zeta in Hlen. rewrite decide_True, Hdiv in Hlen by by apply Hto.
  assert (Hp : nb ∈ priv G) by (eapply sees_priv; [exact Hsee|right; left; done]).
  destruct (g_priv _ _ HG nb Hp) as [Hh Hnc].
  destruct (unused _ _ _ (S k) Hsee ltac:(lia)) as [Hd Hb].
  set (G' := set_link k 2 (set_chain (chain G ++ [nb]) (set_priv (priv G ∖ {[nb]}) G))).
  assert (Hlink : forall k', link G' k' = if decide (k = k') then 2%nat else link G k') by (intros; apply fn_at).
  assert (Hsame : forall k', (k' <= S k)%nat -> block_of (ulog σ) G' k' = block_of (ulog σ) G k').
  { intros k' Hk'. apply block_same; [|done]. unfold next_of. rewrite Hlink.
    destruct (decide (k = k')) as [<-|Hne']; [by rewrite Hl|]. destruct (decide (link G k' = 4%nat)); [|done].
    change (chain G') with (chain G ++ [nb]). destruct (decide (k' = S k)) as [->|].
    - destruct (g_link _ _ HG (S k)) as (HS & _). lia.
    - rewrite lookup_app_l; [done|lia]. }
  eexists _, (). cbv zeta. fold G'. split; [reflexivity|]. split; [|split; [|split; [done|split; [|split; [|split; [|exact HQ]]]]]].
  - apply (ginv_link σ G k 2 (chain G ++ [nb]) (priv G ∖ {[nb]})); [done|by apply prefix_app_r| |lia|by left| | | | | | | |].
    + apply NoDup_app. split; [apply HG|]. split; [|apply NoDup_singleton]. by intros q Hq ->%list_elem_of_singleton.
    + rewrite (g_tail _ _ HG). f_equal. unfold tail_pos. rewrite !decide_True; [done| |done].
      unfold in_transit. rewrite Hdiv. cbn [Nat.sub]. fold G'. rewrite Hlink, decide_True by lia. unfold in_transit in Htr. lia.
    + by rewrite last_snoc.
    + by destruct (chain G).
    + fold G'. rewrite decide_False, length_app, Hlen, Hdiv; [cbn; lia|]. unfold to_link. rewrite Hdiv. cbn [Nat.sub].
      rewrite Hlink, decide_True by lia. lia.
    + intros _. rewrite lookup_app_l; [done|lia].
    + intros k' q [Hq|[Hge Hq]]%lookup_app_Some.
      * rewrite (g_heap _ _ HG k' q Hq). fold G'. rewrite Hsame by (apply lookup_lt_Some in Hq; lia). done.
      * apply list_lookup_singleton_Some in Hq as [Hk' <-]. replace k' with (S k) by lia. fold G'.
        rewrite Hd, decide_False, Hsame, Hb by (done || lia). done.
    + intros q [Hq Hne'%not_elem_of_singleton]%elem_of_difference. destruct (g_priv _ _ HG q Hq) as [H1 H2].
      split; [done|]. intros [?|Hin%list_elem_of_singleton]%elem_of_app; done.
    + intros q bl Hq. destruct (g_leak _ _ HG q bl Hq) as [?|?]; [left; apply elem_of_app; by left|].
      destruct (decide (q = nb)) as [->|]; [left; apply elem_of_app; right; by left|right; set_solver].
  - split; cbn [with_tail tail_index tail_block head_index head_block ulog]; try done.
    + intros q _ Ho _. exfalso. apply Ho. by apply (tail_offset Hsee).
    + by apply prefix_app_r.
  - intros kd x y. pose proof (own_box (T:=T) nb (priv G ∖ {[nb]}) G kd x y ltac:(set_solver)) as E.
    rewrite <- union_difference_singleton_L, set_priv_same in E by done. lia.
  - by intros l Hin%list_elem_of_singleton.
  - intros kd x y [= -> -> ->]%list_elem_of_singleton. cbn. rewrite !Nat2Z.id. split; [lia|]. split; [lia|].
    rewrite lookup_app_r by lia. by replace (S k - length (chain G))%nat with 0%nat by lia.
Qed.

Lemma set_link_only k x G : set_link k x G = set_link k x (set_chain (chain G) (set_priv (priv G) G)).
Proof. by destruct G. Qed.

Lemma same_next (l : list (entry T)) G G' k : (link G' k = 4 <-> link G k = 4)%nat -> chain G' = chain G ->
  wr G' = wr G -> rd G' = rd G -> flag G' = flag G -> block_of l G' k = block_of l G k.
Proof.
  intros Hl Hc Hw Hr Hf. apply block_same.
  - unfold next_of. rewrite Hc. destruct (decide (link G k = 4%nat)); [by rewrite decide_True by by apply Hl|].
    by rewrite decide_False by by rewrite Hl.
  - intros j Hj. unfold slot_of, state_of, cell_of. by rewrite Hw, Hr, Hf.
Qed.

Lemma ok_add_tail k K (Q : gmultiset (qtok T) -> unit -> Prop) :
  Q (toks (Tk 3 3 (Z.of_nat k) :: K)) () ->
  ok uinv (toks (Tk 3 2 (Z.of_nat k) :: K)) (fetch_add_tail (Z.shiftl 1 SHIFT)) Q.
Proof using Hlimit.
  intros HQ. apply (ok_link_step _ k 2 3 priv chain [] []); [lia|constructor|constructor|].
  intros σ G Hsee Hl. pose proof (s_inv _ _ _ Hsee) as HG. pose proof (sees_counts Hsee) as Hc.
  destruct (linking_pushed Hsee (or_intror Hl)) as (HN & Hdiv & Htr & Hto).
  assert (Hne : chain G <> []).
  { intros E. destruct (g_empty _ _ HG E). lia. }
  pose proof (g_chain _ _ HG Hne) as Hlen. cbv zeta in Hlen. rewrite decide_False in Hlen by (rewrite Hto; lia).
  set (G' := set_link k 3 (set_chain (chain G) (set_priv (priv G) G))).
  assert (Hlink : forall k', link G' k' = if decide (k = k') then 3%nat else link G k') by (intros; apply fn_at).
  assert (Hpos : tail_pos (N σ) G' = pos (N σ)).
  { unfold tail_pos. rewrite decide_False; [lia|]. unfold in_transit. rewrite Hdiv. cbn [Nat.sub]. rewrite Hlink, decide_True by lia. lia. }
  destruct (transit_pos Htr) as [Ht _]. pose proof (word_bounds (N σ) true ltac:(lia)) as Hw. unfold word in Hw. cbn [Z.b2z] in Hw.
  assert (Hadd : wrapping_add (tail_index σ) (Z.shiftl 1 SHIFT) = word (pos (N σ)) (closed_in (ulog σ))).
  { rewrite (g_tail _ _ HG), Ht. change (Z.shiftl 1 SHIFT) with 2. pose proof (pos_lt 0 (N σ) ltac:(lia)) as Hp. change (pos 0) with 0 in Hp.
    unfold wrapping_add, word. rewrite wrap_small; [lia|]. unfold usize_MAX in Hw. destruct (closed_in (ulog σ)); cbn [Z.b2z]; lia. }
  eexists _, (). cbv zeta. fold G'. split; [reflexivity|]. split; [|split; [|split; [done|split; [apply own_none|split; [|split; [|exact HQ]]]]]].
  - apply (ginv_link σ G k 3 (chain G) (priv G)); [done|done|apply HG|lia|by left| |apply HG|done| |done| | |].
    + fold G'. by rewrite Hpos.
    + fold G'. rewrite decide_False; [done|]. unfold to_link. rewrite Hdiv. cbn [Nat.sub]. rewrite Hlink, decide_True by lia. lia.
    + intros k' q Hq. rewrite (g_heap _ _ HG k' q Hq). fold G'. rewrite (same_next _ G G'); try done.
      rewrite Hlink. destruct (decide (k = k')) as [<-|]; [lia|done].
    + apply HG.
    + apply HG.
  - split; cbn [with_tail tail_index tail_block head_index head_block ulog]; try done.
    rewrite Hadd, (g_tail _ _ HG), Ht. unfold word. lia.
  - by intros l ?%elem_of_nil.
  - by intros kd x y ?%elem_of_nil.
Qed.

Lemma ok_store_next k p nb K (Q : gmultiset (qtok T) -> unit -> Prop) :
  Tk 12 (Z.of_nat k) (Z.of_nat p) ∈ K -> Tk 12 (Z.of_nat (S k)) (Z.of_nat nb) ∈ K ->
  Tk 0 1 (Z.of_nat (item k 30)) ∈ K -> Q (toks K) () ->
  ok uinv (toks (Tk 3 3 (Z.of_nat k) :: K)) (store_next p nb) Q.
Proof.
  intros Hk Hnb Hwr HQ. apply (ok_link_step _ k 3 4 priv chain [] []); [lia|constructor|constructor|].
  intros σ G Hsee Hl. pose proof (s_inv _ _ _ Hsee) as HG.
  assert (Hin : forall t, t ∈ K -> t ∈ ltok 3 k ++ [] ++ K) by (intros; by right).
  pose proof (sees_chain Hsee (Hin _ Hk)) as Hck. pose proof (sees_chain Hsee (Hin _ Hnb)) as Hcn.
  destruct (sees_wr _ _ _ 1 _ Hsee (Hin _ Hwr)) as [Hw _]. pose proof (unread _ _ _ HG ltac:(rewrite Hw; lia)) as Hr.
  assert (Hal : dest G k <> Freed) by (eapply (not_freed σ G k 30); [exact HG|lia|lia]).
  set (G' := set_link k 4 (set_chain (chain G) (set_priv (priv G) G))).
  assert (Hlink : forall k', link G' k' = if decide (k = k') then 4%nat else link G k') by (intros; apply fn_at).
  assert (Hbk : block_of (ulog σ) G' k = mkBlock (Some nb) (slots (block_of (ulog σ) G k))).
  { unfold block_of. cbn [slots]. f_equal. unfold next_of. rewrite Hlink. destruct (decide (k = k)); [|done]. by rewrite decide_True. }
  assert (Htr : in_transit (N σ) G' <-> in_transit (N σ) G).
  { unfold in_transit. rewrite Hlink. destruct (decide (k = N σ / 31 - 1)%nat) as [E|]; [|done]. rewrite <- E, Hl. lia. }
  assert (Hto : to_link (N σ) G' <-> to_link (N σ) G).
  { unfold to_link. rewrite Hlink. destruct (decide (k = N σ / 31 - 1)%nat) as [E|]; [|done]. rewrite <- E, Hl. lia. }
  destruct (heap_block σ G G' k p (block_of (ulog σ) G' k) (Some (block_of (ulog σ) G' k))) as (H1 & H2 & H3); [done..| | |].
  { change (dest G') with (dest G). by rewrite decide_False. }
  { intros k' Hne. split; [done|]. apply same_next; try done. rewrite Hlink. by destruct (decide (k = k')) as [->|]. }
  eexists (with_heap (<[p := Some (block_of (ulog σ) G' k)]> (heap σ)) σ), (). cbv zeta. fold G'. split.
  { unfold store_next, on_block. rewrite (block_alive _ _ _ _ HG Hck Hal). cbn [mjoin option_join mbind option_bind]. by rewrite Hbk. }
  split; [|split; [by apply later_heap|split; [done|split; [apply own_none|split; [|split; [|exact HQ]]]]]].
  - apply (ginv_link σ G k 4 (chain G) (priv G)); [done|done|apply HG|lia|by right; lia| |apply HG| | |done|done|done|done].
    + rewrite (g_tail _ _ HG). fold G'. f_equal. unfold tail_pos. destruct (decide (in_transit (N σ) G)) as [E|E].
      * by rewrite decide_True by by apply Htr.
      * by rewrite decide_False by by rewrite Htr.
    + intros E. by rewrite E in Hck.
    + fold G'. rewrite (g_chain _ _ HG) by (intros E; by rewrite E in Hck). destruct (decide (to_link (N σ) G)) as [E|E].
      * by rewrite (decide_True (P := to_link _ G')) by by apply Hto.
      * by rewrite (decide_False (P := to_link _ G')) by by rewrite Hto.
  - by intros l ?%elem_of_nil.
  - by intros kd x y ?%elem_of_nil.
Qed.

(** ** After the compare-exchange *)

Definition boxes (next_block : option nat) : list (qtok T) :=
  match next_block with Some p => ptok p | None => [] end.

Lemma ok_toks {A} L L' (p : prog (Unbounded T) A) (Q : gmultiset (qtok T) -> A -> Prop) :
  L ≡ₚ L' -> ok uinv (toks L') p Q -> ok uinv (toks L) p Q.
Proof. by intros ->. Qed.

Lemma drops_to (Y K : list (qtok T)) L : facts Y -> L ≡ₚ Y ++ K -> drops L K.
Proof. intros HY HL. exists Y, 0%nat. split; [done|]. by rewrite HL. Qed.

Lemma ok_push_write n p l v next Y (Q : gmultiset (qtok T) -> unit -> Prop) :
  facts Y -> pushed l !! n = Some v -> Tk 12 (Z.of_nat (n / 31)) (Z.of_nat p) ∈ Y ->
  Q (toks [Lb l; Did (length l)]) () ->
  ok uinv (toks (Tk 0 1 (Z.of_nat n) :: boxes next ++ [Lb l; Did (length l)] ++ Y))
    (write_value p (Z.of_nat (n mod 31)) v ;; fetch_or_state p (Z.of_nat (n mod 31)) WRITE ;; drop_box next) Q.
Proof.
  intros HY Hv Hk HQ. pose proof (proj2 (split31 n)) as Hj. rewrite (item_split n) in Hv |- * at 1.
  set (K := boxes next ++ [Lb l; Did (length l)] ++ Y).
  assert (Hk' : Tk 12 (Z.of_nat (n / 31)) (Z.of_nat p) ∈ K) by (unfold K; rewrite !elem_of_app; auto).
  apply ok_bind, (ok_u_write_value (n / 31) (n mod 31) p v l K); [done|done| |done|].
  { unfold K. rewrite elem_of_app. right. by left. }
  apply ok_bind. destruct next as [nb|].
  - apply (ok_set_write (n / 31) (n mod 31) p K K); [done|done|apply drops_refl|]. intros _.
    apply (ok_drop_box nb _ [Lb l; Did (length l)]); [|done]. apply (drops_to Y); [done|]. solve_Permutation.
  - apply (ok_set_write (n / 31) (n mod 31) p K [Lb l; Did (length l)]); [done|done| |by intros _].
    apply (drops_to Y); [done|]. unfold K. cbn [boxes app]. solve_Permutation.
Qed.

Lemma ok_push_into n p l v next K (Q : gmultiset (qtok T) -> unit -> Prop) :
  facts K -> pushed l !! n = Some v -> ((n mod 31 = 30)%nat -> is_Some next) ->
  Q (toks [Lb l; Did (length l)]) () ->
  ok uinv (toks (push_tokens n p l ++ boxes next ++ K)) (push_into p (Z.of_nat (n mod 31)) next v) Q.
Proof using Hlimit.
  intros HK Hv Hnext HQ. unfold push_into, push_tokens. change BLOCK_CAP with 31.
  destruct (Z.eqb_spec (Z.of_nat (n mod 31) + 1) 31) as [E|E].
  - assert (E30 : (n mod 31 = 30)%nat) by lia. destruct (Hnext E30) as [nb ->].
    unfold last_slot. rewrite decide_True by done. cbn [boxes]. change (wtok 1 n) with [Tk (T:=T) 0 1 (Z.of_nat n)].
    change (ltok 1 (n / 31)) with [Tk (T:=T) 3 1 (Z.of_nat (n / 31))].
    set (Y := Tk 12 (Z.of_nat (n / 31)) (Z.of_nat p) :: K).
    set (R := Tk 0 1 (Z.of_nat n) :: [Lb l; Did (length l)] ++ Y).
    eapply ok_toks with (Tk 3 1 (Z.of_nat (n / 31)) :: ptok nb ++ R); [unfold R, Y; cbn [app]; solve_Permutation|].
    apply ok_bind, ok_bind, ok_store_next_tail, ok_bind, ok_add_tail, ok_bind.
    assert (H1 : Tk 12 (Z.of_nat (n / 31)) (Z.of_nat p) ∈ R) by (unfold R, Y; right; right; right; by left).
    assert (H2 : Tk 0 1 (Z.of_nat (item (n / 31) 30)) ∈ R).
    { replace (item (n / 31) 30) with n by (rewrite (item_split n) at 1; unfold item; lia). by left. }
    apply (ok_store_next (n / 31) p nb); [by right|by left|by right|].
    change (ok uinv (toks (Tk 12 (Z.of_nat (S (n / 31))) (Z.of_nat nb) :: R)) (mret None ≫= fun next_block : option nat =>
      write_value p (Z.of_nat (n mod 31)) v ;; fetch_or_state p (Z.of_nat (n mod 31)) WRITE ;; drop_box next_block) Q).
    cbn [mret prog_mret mbind prog_mbind prog_bind].
    eapply ok_toks; [|apply (ok_push_write n p l v None (Tk 12 (Z.of_nat (S (n / 31))) (Z.of_nat nb) :: Y))].
    + unfold R. cbn [boxes app]. solve_Permutation.
    + unfold Y. repeat (apply facts_tk; [lia|]). done.
    + done.
    + right. by left.
    + done.
  - unfold last_slot. rewrite decide_False by lia.
    change (wtok 1 n) with [Tk (T:=T) 0 1 (Z.of_nat n)]. change (ltok 0 (n / 31)) with (@nil (qtok T)).
    cbn [mret prog_mret mbind prog_mbind prog_bind].
    eapply ok_toks; [|apply (ok_push_write n p l v next (Tk 12 (Z.of_nat (n / 31)) (Z.of_nat p) :: K))].
    + cbn [app]. solve_Permutation.
    + by apply facts_tk; [lia|].
    + done.
    + by left.
    + done.
Qed.

(** ** The loop *)

Lemma ok_find_block t b next K (Q : gmultiset (qtok T) -> option nat * option nat -> Prop) :
  facts K -> Tk 8 t 0 ∈ K -> (forall p, b = Some p -> Tk 7 t (Z.of_nat p) ∈ K) ->
  (forall p K', facts K' -> (forall x, x ∈ K -> x ∈ K') -> Tk 7 t (Z.of_nat p) ∈ K' ->
     Q (toks (Budget :: boxes next ++ K')) (Some p, next)) ->
  (forall p, Q (toks (Budget :: boxes (Some p) ++ K)) (None, Some p)) ->
  ok uinv (toks (Budget :: boxes next ++ K)) (find_block b next) Q.
Proof.
  intros HK Ht Hb Hyes Hno. destruct b as [p|]; cbn [find_block].
  { apply Hyes; auto. }
  apply ok_bind, ok_new_block. intros new. apply ok_bind, (ok_cas_tail_block Hlimit t).
  { right. apply elem_of_app. by right. }
  - cbn match. set (K' := Tk 7 t (Z.of_nat new) :: Tk 12 0 (Z.of_nat new) :: K).
    eapply ok_toks with (Tk 6 0 0 :: Budget :: boxes next ++ K'); [unfold K'; cbn [app]; solve_Permutation|].
    apply ok_bind, (ok_store_first new).
    { right. apply elem_of_app. right. right. by left. }
    apply Hyes; [unfold K'; repeat (apply facts_tk; [lia|]); done|by right; right|by left].
  - apply ok_bind. destruct next as [nb|]; cbn [drop_box boxes].
    + eapply ok_toks with (ptok nb ++ Budget :: ptok new ++ K); [cbn [app]; solve_Permutation|].
      eapply ok_drop_box; [apply drops_refl|]. apply Hno.
    + eapply ok_toks; [|apply Hno]. cbn [app boxes]. solve_Permutation.
Qed.

(** What a thread has at the head of the loop: once it has seen that the
    queue is closed only what its answer needs. *)
Definition loop_tokens (t : Z) (next : option nat) (l : list (entry T)) K : list (qtok T) :=
  if has t MARK_BIT then boxes next ++ [Lb l] else Budget :: boxes next ++ K.

Record loop_facts (t : Z) (b : option nat) (from l : list (entry T)) (K : list (qtok T)) : Prop := {
  lf_facts : facts K;
  lf_tail : tail_value t l;
  lf_from : from `prefix_of` l;
  lf_lb : Lb from ∈ K;
  lf_bound : Tk 8 t 0 ∈ K;
  lf_block p : b = Some p -> Tk 7 t (Z.of_nat p) ∈ K }.

Lemma drops_but (K : list (qtok T)) b l next : facts K -> Lb l ∈ K ->
  drops (replicate b Budget ++ boxes next ++ K) (boxes next ++ [Lb l]).
Proof.
  intros HK (K1 & K2 & ->)%list_elem_of_split. exists (K1 ++ K2), b. split.
  - unfold facts in *. rewrite Forall_app, Forall_cons in HK. rewrite Forall_app. naive_solver.
  - solve_Permutation.
Qed.

Section loop.
Context (v : T) (fuel : nat).
Context (IH : forall t b next from l K, loop_facts t b from l K ->
  ok uinv (toks (loop_tokens t next l K)) (push_loop fuel v t b next from l) (returned (OPush v))).

Lemma ok_u_look t next from l K :
  facts K -> tail_value t l -> from `prefix_of` l -> Lb from ∈ K -> Tk 8 t 0 ∈ K -> Lb l ∈ K ->
  ok uinv (toks (Budget :: boxes next ++ K))
    (b ← load_tail_block; push_loop fuel v t b next from l) (returned (OPush v)).
Proof.
  intros HK Htv Hp Hf Ht Hl. apply ok_bind, (ok_load_tail_block t); [right; apply elem_of_app; by right|].
  unfold loop_tokens in IH. destruct (has t MARK_BIT) eqn:Hm; [right|left].
  - exists (boxes next ++ [Lb l]). split; [by apply (drops_but K 1 l next)|]. intros b.
    specialize (IH t b next from l (block_fact 7 t b ++ K)). rewrite Hm in IH. apply IH.
    split; [apply Forall_app; split; [by apply block_fact_ok; lia|done]|done|done|apply elem_of_app; by right..|].
    intros p ->. by left.
  - intros b. eapply ok_toks with (Budget :: boxes next ++ block_fact 7 t b ++ K); [solve_Permutation|].
    specialize (IH t b next from l (block_fact 7 t b ++ K)). rewrite Hm in IH. apply IH.
    split; [apply Forall_app; split; [by apply block_fact_ok; lia|done]|done|done|apply elem_of_app; by right..|].
    intros p ->. by left.
Qed.

Lemma ok_reload next from K :
  facts K -> Lb from ∈ K ->
  ok uinv (toks (Budget :: boxes next ++ K))
    ('(t, l) ← load_tail; b ← load_tail_block; push_loop fuel v t b next from l) (returned (OPush v)).
Proof.
  intros HK Hf. apply ok_bind, ok_u_load_tail. intros t l Htv Hl.
  eapply ok_toks with (Budget :: boxes next ++ [Lb l; Tk 8 t 0] ++ K); [solve_Permutation|].
  apply ok_u_look; [by apply facts_lb, facts_tk; [lia|]|done| |by right; right|right; by left|by left].
  apply Hl. right. apply elem_of_app. by right.
Qed.

Lemma ok_push_cas t from l K p next :
  loop_facts t (Some p) from l K -> has t MARK_BIT = false -> offset_of t <> BLOCK_CAP ->
  (offset_of t + 1 = BLOCK_CAP -> is_Some next) ->
  ok uinv (toks (Budget :: boxes next ++ K))
    ('(t', l) ← cas_tail t (t + Z.shiftl 1 SHIFT) v;
     if t' =? t then
       push_into p (offset_of t) next v ;; mret (RPush (Ok ()), from, l ++ [EPush v])
     else b ← load_tail_block; push_loop fuel v t' b next from l) (returned (OPush v)).
Proof using Hlimit IH.
  intros [HK Htv Hp Hlb Hb Hblk] Hm Ho Hn. pose proof Htv as (_ & Hcl & Hlim & Hw). specialize (Hw Ho).
  set (n := length (pushed l)) in *.
  assert (Hoff : offset_of t = Z.of_nat (n mod 31)) by (rewrite Hw, word_offset; apply pos_lap).
  apply ok_bind, (ok_u_cas_tail t l v p); [done|done|done|apply elem_of_app; right; by apply Hblk| |].
  - intros l1 Hlen Hl1 (q & Hq). rewrite Z.eqb_refl. fold n.
    eapply ok_toks with (push_tokens n p (l1 ++ [EPush v]) ++ boxes next ++ K); [solve_Permutation|].
    apply ok_bind. rewrite Hoff. apply ok_push_into; [done| | |].
    + rewrite pushed_app. apply list_lookup_middle. by rewrite Hlen.
    + intros E. apply Hn. rewrite Hoff, E. done.
    + rewrite length_app, Nat.add_1_r. apply done_change; [|by explain Hq; rewrite last_snoc, bool_decide_eq_true_2|done].
      apply Hl1. apply elem_of_app. by right.
  - intros t' l1 Hne Htv' Hl1. destruct (Z.eqb_spec t' t) as [E|_]; [done|].
    eapply ok_toks with (Budget :: boxes next ++ [Lb l1; Tk 8 t' 0] ++ K); [solve_Permutation|].
    apply ok_u_look; [by apply facts_lb, facts_tk; [lia|]|done| |by right; right|right; by left|by left].
    apply Hl1. apply elem_of_app. by right.
Qed.
End loop.

(** The queue is closed. *)
Lemma ok_push_closed t next from l K v :
  loop_facts t None from l K -> has t MARK_BIT = true ->
  ok uinv (toks (boxes next ++ [Lb l]))
    (drop_box next ;; mret (RPush (Err (PushClosed v)), from, l)) (returned (OPush v)).
Proof.
  intros [_ Htv Hp _ _ _] Hm. destruct Htv as ((q & Hq) & Hcl & _).
  pose proof (state_at_counts _ _ _ Hq) as (_ & _ & Hc & _).
  assert (Hd : returned (OPush v) (toks [Lb l]) (RPush (Err (PushClosed v)), from, l)).
  { apply done_at; [done| |done]. explain Hq. by rewrite Hc, <- Hcl. }
  apply ok_bind. destruct next as [nb|]; cbn [drop_box boxes]; [|exact Hd].
  by apply (ok_drop_box nb _ [Lb l]); [apply drops_refl|].
Qed.

Lemma lf_weaken t b b' from l K K' : loop_facts t b from l K -> facts K' -> (forall x, x ∈ K -> x ∈ K') ->
  (forall p, b' = Some p -> Tk 7 t (Z.of_nat p) ∈ K') -> loop_facts t b' from l K'.
Proof. intros [] ? ? ?. split; auto. Qed.

Lemma ok_u_push_loop v fuel : forall t b next from l K, loop_facts t b from l K ->
  ok uinv (toks (loop_tokens t next l K)) (push_loop fuel v t b next from l) (returned (OPush v)).
Proof using Hlimit.
  induction fuel as [|fuel IH]; [done|]. intros t b next from l K HK. cbn [push_loop]. unfold loop_tokens.
  destruct (has t MARK_BIT) eqn:Hm.
  { eapply ok_push_closed; [by eapply (lf_weaken _ b None); [done|apply HK|auto|]|done]. }
  cbv zeta. destruct (Z.eqb_spec (offset_of t) BLOCK_CAP) as [Ho|Ho].
  { apply (ok_reload v fuel IH); apply HK. }
  apply ok_bind.
  match goal with |- ok _ _ _ (fun m next_block => ok _ m (@?k next_block) _) => set (body := k) end.
  assert (Hbody : forall next, (offset_of t + 1 = BLOCK_CAP -> is_Some next) ->
    ok uinv (toks (Budget :: boxes next ++ K)) (body next) (returned (OPush v))).
  { clear next. intros next Hn. unfold body. apply ok_bind, (ok_find_block t); [apply HK|apply HK|apply HK| |].
    - intros p K' HK' Hsub Hp. rewrite (proj2 (Z.ltb_ge _ _)).
      2:{ pose proof (lf_tail _ _ _ _ _ HK) as (_ & _ & Hlim & Hw). rewrite (Hw Ho).
          pose proof (word_bounds _ (closed_in l) Hlim). change (Z.shiftl 1 SHIFT) with 2. lia. }
      apply ok_bind, ok_pick. intros spurious. cbn [ok]. destruct spurious.
      + apply (ok_reload v fuel IH); [done|]. apply Hsub, HK.
      + apply (ok_push_cas v fuel IH t from l); [|done..]. by eapply lf_weaken; [exact HK|done|done|intros ? [= <-]].
    - intros p. apply (ok_reload v fuel IH); apply HK. }
  destruct next as [nb|].
  - apply Hbody. by eexists.
  - destruct (Z.eqb_spec (offset_of t + 1) BLOCK_CAP) as [E|E].
    + apply ok_bind, ok_new_block. intros nb. cbn [ok mret prog_mret].
      eapply ok_toks; [|apply (Hbody (Some nb)); by eexists]. cbn [boxes app]. solve_Permutation.
    + apply (Hbody None). done.
Qed.

Lemma ok_u_push v fuel : ok uinv (start_tokens (OPush v)) (push fuel v) (returned (OPush v)).
Proof using Hlimit.
  unfold push, start_tokens. apply ok_bind, ok_u_load_tail. intros t l Htv _.
  eapply ok_toks with (Budget :: boxes None ++ [Lb l; Tk 8 t 0]); [cbn [boxes app]; solve_Permutation|].
  apply (ok_u_look v fuel); [apply ok_u_push_loop|by apply facts_lb, facts_tk, facts_nil; lia|done|done|by left|right; by left|by left].
Qed.
End proof.
