(* ===== verification/UnboundedPop.v ===== *)
(** The unbounded queue: pop.  The comparison with the tail, the
    compare-exchange of the head, the stores with which the thread that took
    the last item of a block moves the head to the next one, and the loop. *)

From stdpp Require Import gmap functions.
From S2P Require Import Prelude Conc QueueSpec Unbounded UnboundedInv UnboundedWords UnboundedPush.
From S2P Require Single.

Section proof.
Context {T : Type} `{Countable T}.
Context {limit : nat} (Hlimit : 4 * Z.of_nat limit + 8 <= usize_MAX).
Local Abbreviation toks := (list_to_set_disj (A:=qtok T) (C:=gmultiset (qtok T))).
Local Abbreviation returned := (done_tokens (T:=T) None crossing).
Local Abbreviation uinv := (@UnboundedInv.uinv T _ _ limit).
Local Abbreviation sees := (@UnboundedInv.sees T _ limit).
Local Abbreviation tail_value := (@UnboundedWords.tail_value T _ limit).
Local Abbreviation head_value := (@UnboundedWords.head_value T _ limit).
Local Abbreviation N σ := (length (pushed (ulog σ))).
Local Abbreviation M σ := (popped (ulog σ)).

Ltac unpack HG :=
  destruct HG as [g_tail0 g_tblock0 g_empty0 g_chain0 g_nodup0 g_link0 g_head0 g_hphase0 g_hblock0 g_inst0 g_items0
    g_dest0 g_heap0 g_priv0 g_leak0].

(** ** The head moves by one *)

Definition to_cross (n : nat) : option (nat * nat) := if decide (n mod 31 = 30)%nat then Some ((n / 31)%nat, 0%nat) else None.

Section pop.
Context {σ : Unbounded T} {G : ghost} {L : list (qtok T)} (Hsee : sees σ G L).
Context (p : nat) (mark : bool) (Hh : hphase G = None) (Hlt : (M σ < N σ)%nat).
Context (Hp : head_block σ = Some p) (Hmark : mark = true -> (M σ / 31 < N σ / 31)%nat).
Local Abbreviation n := (popped (ulog σ)).
Local Abbreviation k := (n / 31)%nat.
Local Abbreviation j := (n mod 31)%nat.

Definition popped_ghost : ghost := set_hphase (to_cross n) (upd k j (wr G n) 1 (flag G n) (dest G k) G).

Lemma pop_front : exists x, pushed (ulog σ) !! n = Some x /\ log_pop None (ulog σ) = ulog σ ++ [EPop x] /\
  (exists q, state_at None (ulog σ ++ [EPop x]) = Some q).
Proof using Hsee Hlt.
  destruct (s_queue _ _ _ Hsee) as [q Hq]. pose proof (state_at_counts _ _ _ Hq) as (Hi & _).
  destruct (lookup_lt_is_Some_2 _ _ Hlt) as [x Hx]. exists x. rewrite (drop_S _ _ _ Hx) in Hi. split; [done|]. split.
  - unfold log_pop, front. rewrite Hq. cbn. by rewrite Hi.
  - rewrite state_at_snoc, Hq. cbn. rewrite Hi, decide_True by done. by eexists.
Qed.

Lemma pop_fresh : rd G n = 0%nat.
Proof using Hsee. destruct (g_items _ _ (s_inv _ _ _ Hsee) n) as (_ & Hr & _). by apply Hr. Qed.

(** The head's block, and that it stays. *)
Lemma pop_chain : inst G = false /\ chain G !! k = Some p.
Proof using Hsee Hh Hp.
  pose proof (g_hblock _ _ (s_inv _ _ _ Hsee)) as Hb. rewrite Hp in Hb. destruct (inst G); [done|]. split; [done|].
  unfold head_lap in Hb. by rewrite Hh in Hb.
Qed.

Lemma pop_slot x m : slot_of (ulog σ ++ [EPop x]) popped_ghost m = slot_of (ulog σ) G m.
Proof using Hsee.
  change (slot_of ?l popped_ghost m) with (slot_of l (upd k j (wr G n) 1 (flag G n) (dest G k) G) m).
  assert (Hpush : pushed (ulog σ ++ [EPop x]) = pushed (ulog σ)) by (rewrite pushed_app; apply app_nil_r).
  destruct (decide (m = n)) as [->|Hne].
  - pose proof (upd_state k j (wr G n) 1 (flag G n) (dest G k) G (proj2 (split31 n))) as E1.
    pose proof (upd_cell (ulog σ ++ [EPop x]) k j (wr G n) 1 (flag G n) (dest G k) G) as E2.
    rewrite <- item_split in E1, E2. unfold slot_of. rewrite E1, E2, Hpush. unfold state_of, cell_of. by rewrite pop_fresh.
  - rewrite upd_slot by by rewrite <- item_split. unfold slot_of, cell_of. by rewrite Hpush.
Qed.

Lemma pop_head_pos : head_pos (S n) popped_ghost = pos n + 1.
Proof.
  unfold head_pos, popped_ghost, to_cross. cbn [hphase set_hphase]. rewrite pos_succ. destruct (decide (n mod 31 = 30)%nat); lia.
Qed.

Lemma pop_ginv x : ginv (with_head (word (pos n + 1) mark) (head_block σ) (ulog σ ++ [EPop x]) σ) popped_ghost.
Proof using Hsee Hh Hlt Hp Hmark.
  pose proof pop_fresh as Hr. pose proof pop_chain as [Hin Hck]. pose proof (s_inv _ _ _ Hsee) as HG.
  pose proof (split31 n) as [En Hj].
  assert (HM : popped (ulog σ ++ [EPop x]) = S n) by (rewrite popped_app; change (popped [EPop x]) with 1%nat; lia).
  assert (HN : pushed (ulog σ ++ [EPop x]) = pushed (ulog σ)) by (rewrite pushed_app; apply app_nil_r).
  assert (Hcl : closed_in (ulog σ ++ [EPop x]) = closed_in (ulog σ)) by (rewrite closed_app; apply orb_false_r).
  assert (HS : ((S n) / 31 = if decide (n mod 31 = 30) then S k else k)%nat).
  { destruct (decide (n mod 31 = 30)%nat) as [E30|E30].
    - by destruct (div31 (S k) 0 (S n)) as [E1 E2]; [lia..|].
    - by destruct (div31 k (S j) (S n)) as [E1 E2]; [lia..|]. }
  unpack HG. rewrite Hh in g_hphase0.
  split; cbn [with_head tail_index tail_block head_index head_block ulog heap]; try rewrite HM; try rewrite HN; try rewrite Hcl; try done.
  - exists mark. split; [by rewrite pop_head_pos|]. intros Hm Hc. rewrite HS. unfold popped_ghost, to_cross in Hc. cbn [hphase set_hphase] in Hc.
    destruct (decide (n mod 31 = 30)%nat); [done|]. by apply Hmark.
  - unfold popped_ghost, to_cross. cbn [hphase set_hphase]. rewrite HS. destruct (decide (n mod 31 = 30)%nat) as [E30|E30].
    + split; [lia|]. split; [lia|]. split; [by apply g_hphase0|lia].
    + by apply g_hphase0.
  - rewrite g_hblock0. change (inst popped_ghost) with (inst G). change (chain popped_ghost) with (chain G). rewrite Hin. f_equal.
    unfold head_lap. rewrite Hh. unfold popped_ghost, to_cross. cbn [hphase set_hphase]. rewrite HS. by destruct (decide (n mod 31 = 30)%nat).
  - change (inst popped_ghost) with (inst G). by rewrite Hin.
  - intros m. change (wr popped_ghost) with (wr (upd k j (wr G n) 1 (flag G n) (dest G k) G)).
    change (rd popped_ghost) with (rd (upd k j (wr G n) 1 (flag G n) (dest G k) G)). rewrite upd_wr, upd_rd, <- item_split.
    specialize (g_items0 m). destruct (decide (n = m)) as [<-|Hne]; lia.
  - intros k'. eapply (dest_ok_ext k' G); [| |apply g_dest0].
    + change (dest popped_ghost) with (dest (upd k j (wr G n) 1 (flag G n) (dest G k) G)). rewrite upd_dest. by destruct (decide (k = k')) as [<-|].
    + intros j' Hj'. change (rd popped_ghost) with (rd (upd k j (wr G n) 1 (flag G n) (dest G k) G)).
      change (flag popped_ghost) with (flag (upd k j (wr G n) 1 (flag G n) (dest G k) G)). rewrite upd_rd, upd_flag, <- item_split.
      destruct (decide (n = item k' j')) as [E|]; [|done]. rewrite <- E, Hr. split; [lia|done].
  - intros k' q Hk'. change (chain popped_ghost) with (chain G) in Hk'.
    rewrite (block_same (ulog σ) (ulog σ ++ [EPop x]) G popped_ghost k'), (g_heap0 _ _ Hk') by (done || intros; apply pop_slot).
    change (dest popped_ghost) with (dest (upd k j (wr G n) 1 (flag G n) (dest G k) G)). rewrite upd_dest. by destruct (decide (k = k')) as [<-|].
Qed.

Lemma pop_own kd x y :
  (own (T:=T) popped_ghost kd x y = own (T:=T) G kd x y + occ (Tk kd x y) (rtok (T:=T) 1 n ++ htok (to_cross n)))%nat.
Proof using Hsee Hh.
  clear Hmark Hlt mark. pose proof (own_hphase (T:=T) (to_cross n) (upd k j (wr G n) 1 (flag G n) (dest G k) G) kd x y) as E1.
  pose proof (own_upd (T:=T) k j (wr G n) 1 (flag G n) (dest G k) G kd x y) as E2. cbv zeta in E2. rewrite <- item_split in E2.
  change (hphase (upd _ _ _ _ _ _ _)) with (hphase G) in E1. rewrite Hh in E1. rewrite pop_fresh in E2.
  rewrite !occ_app in *. change (htok None) with (@nil (qtok T)) in E1.
  change (rtok 0 n) with (@nil (qtok T)) in E2. cbn [occ] in *. unfold popped_ghost. lia.
Qed.
End pop.

(** What the thread that takes the item [n] from the block [p] has. *)
Definition pop_tokens (n p : nat) (l : list (entry T)) : list (qtok T) :=
  rtok 1 n ++ htok (to_cross n) ++ [Did (length l); Lb l; Tk 12 (Z.of_nat (n / 31)) (Z.of_nat p)].

Lemma pop_tokens_in n p l t : t ∈ pop_tokens n p l -> (exists c, t = Tk 1 c (Z.of_nat n)) \/
  (exists c d, t = Tk 5 c d) \/ t = Did (length l) \/ t = Lb l \/ t = Tk 12 (Z.of_nat (n / 31)) (Z.of_nat p).
Proof.
  unfold pop_tokens. intros [Hin%rtok_item|[Hin|Hin]%elem_of_app]%elem_of_app; [by left| |].
  - right. left. unfold htok, to_cross in Hin. destruct (decide _); [|by apply elem_of_nil in Hin].
    apply list_elem_of_singleton in Hin as ->. by do 2 eexists.
  - right. right. rewrite !elem_of_cons, elem_of_nil in Hin. naive_solver.
Qed.

Lemma occ_pop_tokens n p l t : occ t (pop_tokens n p l) =
  (occ t (rtok (T:=T) 1 n ++ htok (to_cross n)) + occ t [Did (length l); Lb l; Tk 12 (Z.of_nat (n / 31)) (Z.of_nat p)])%nat.
Proof. unfold pop_tokens. rewrite !occ_app. lia. Qed.

Lemma occ_pop_phase n p l t : match t with Tk kd _ _ => kd = 12%nat | _ => True end ->
  occ t (pop_tokens n p l) = occ t [Did (length l); Lb l; Tk 12 (Z.of_nat (n / 31)) (Z.of_nat p)].
Proof.
  intros Ht. rewrite occ_pop_tokens. enough (occ t (rtok (T:=T) 1 n ++ htok (to_cross n)) = 0%nat) by lia.
  destruct (decide (occ t (rtok (T:=T) 1 n ++ htok (to_cross n)) = 0%nat)) as [|E]; [done|].
  apply occ_elem in E as [[c ->]%rtok_item|Hin]%elem_of_app; [by cbn in Ht|].
  unfold htok, to_cross in Hin. destruct (decide (n mod 31 = 30)%nat); [|by apply elem_of_nil in Hin].
  apply list_elem_of_singleton in Hin as ->. by cbn in Ht.
Qed.

(** What makes the new head right: it is marked when the tail is known to be
    on a later block, and otherwise the queue was not empty. *)
Definition pop_ready (h : Z) (mark : bool) (K : list (qtok T)) : Prop :=
  (has h MARK_BIT = true /\ mark = true) \/ Tk 11 h (Z.b2z mark) ∈ K.

Lemma pop_ready_at σ G L h mark : sees σ G L -> head_index σ = h -> hphase G = None -> pop_ready h mark L ->
  (M σ < N σ)%nat /\ (mark = true -> (M σ / 31 < N σ / 31)%nat).
Proof.
  intros Hsee Eh Hh [[Hm Hmark]|Hin].
  - destruct (head_settled _ _ _ Hsee) as (mk & E & Hlap & _). rewrite <- Eh, E, word_mark in Hm. specialize (Hlap Hm Hh).
    split; [|done]. destruct (decide (M σ < N σ)%nat) as [|Hge]; [done|].
    pose proof (Nat.Div0.div_le_mono (N σ) (M σ) 31 ltac:(lia)). lia.
  - destruct (s_know _ _ _ Hsee 11%nat _ _ ltac:(lia) Hin) as [_ Hk]. specialize (Hk Eh).
    split; [apply Hk|]. intros ->. by apply Hk.
Qed.

Lemma ok_u_cas_head h l0 mark p K (Q : gmultiset (qtok T) -> Z * list (entry T) -> Prop) :
  let n := popped l0 in
  head_value h l0 -> offset_of h <> BLOCK_CAP -> Tk 9 h (Z.of_nat p) ∈ K -> pop_ready h mark K ->
  (forall l x, popped l = n -> pushed l !! n = Some x -> (forall x, Lb x ∈ K -> x `prefix_of` l) ->
     (exists q, state_at None (l ++ [EPop x]) = Some q) ->
     Q (toks (pop_tokens n p (l ++ [EPop x]) ++ K)) (h, l)) ->
  (forall h' l, h' <> h -> head_value h' l -> (forall x, Lb x ∈ K -> x `prefix_of` l) -> Q (toks ([Lb l; Tk 10 h' 0] ++ K)) (h', l)) ->
  ok uinv (toks K) (cas_head h (word (pos n + 1) mark)) Q.
Proof using Hlimit.
  intros n Hhv Ho Hp Hready Hyes Hno. apply ok_step. intros σ G Hsee. pose proof (s_inv _ _ _ Hsee) as HG.
  destruct (Z.eqb_spec (head_index σ) h) as [Et|Et].
  2:{ eexists σ, _, G, ([Lb (ulog σ); Tk 10 (head_index σ) 0] ++ K). split; [reflexivity|].
    split; [done|]. split; [apply later_refl|]. split; [apply Hsee|]. split; [|split; [|split; [|apply Hno; [done|by eapply head_value_at|apply Hsee]]]].
    - cbn [app occ]. split; [|split; [|split]].
      + repeat case_decide; done.
      + intros x. rewrite !elem_of_cons. naive_solver.
      + intros m. rewrite (decide_False (P := (_ < _ <= _)%nat)) by lia. repeat case_decide; try done; lia.
      + repeat case_decide; try done; lia.
    - intros kd x y Hkd. cbn [app occ]. rewrite !(decide_False (P := Tk kd x y = _)) by (intros [=]; lia). lia.
    - intros kd x y Hkd. cbn [app]. rewrite !elem_of_cons. intros [?|[[= -> -> ->]|?]]; [done|right; cbn; lia|by left]. }
  destruct (head_settled _ _ _ Hsee) as (mk & Emk & _ & Hset). rewrite Et in Hset. apply Hset in Ho as Hh.
  destruct (pop_ready_at _ _ _ _ _ Hsee Et Hh Hready) as [Hlt Hmark].
  destruct Hhv as (_ & Hlim & Hword). destruct (Hword Ho) as [mk0 Hw0].
  assert (En : n = M σ).
  { rewrite <- Et, Emk in Hw0. unfold head_pos in Hw0. rewrite Hh, Z.sub_0_r in Hw0. apply word_inj in Hw0 as [E%pos_inj _]. done. }
  destruct (s_know _ _ _ Hsee 9%nat _ _ ltac:(lia) Hp) as [_ Hhb]. rewrite Nat2Z.id in Hhb. specialize (Hhb Et Ho).
  destruct (pop_front Hsee Hlt) as (x & Hx & Hlog & Hstate).
  eexists (with_head (word (pos (M σ) + 1) mark) (head_block σ) (ulog σ ++ [EPop x]) σ), _, popped_ghost, (pop_tokens n p (ulog σ ++ [EPop x]) ++ K).
  split; [by rewrite Hlog, En|].
  split; [by eapply (pop_ginv Hsee p mark)|]. split; [|split; [done|split; [|split; [|split]]]].
  - split; cbn [with_head tail_index tail_block head_index head_block ulog]; try done.
    + rewrite Emk. unfold head_pos. rewrite Hh. unfold word. destruct mk, mark; cbn; lia.
    + intros E. rewrite Et, Hw0 in E. fold n in E. rewrite En in E. apply word_inj in E as [E _]. lia.
    + by apply prefix_app_r.
  - assert (HN : pushed (ulog σ ++ [EPop x]) = pushed (ulog σ)) by (rewrite pushed_app; apply app_nil_r).
    cbn [with_head ulog]. rewrite HN, !length_app. cbn [length]. split; [|split; [|split]].
    + rewrite occ_app, occ_pop_phase by done. cbn [occ]. done.
    + intros y [Hin|Hin]%elem_of_app; [|by left]. apply pop_tokens_in in Hin as [[? ?]|[[? [? ?]]|[?|[[= ->]|?]]]]; try done. by right.
    + intros m. rewrite occ_app, occ_pop_phase by done. rewrite length_app. cbn [occ length]. destruct (decide (m = length (ulog σ) + 1)%nat) as [->|Hne].
      * repeat case_decide; simplify_eq; try done; lia.
      * rewrite (decide_False (P := Did m = _)), (decide_False (P := (_ < _ <= _)%nat)) by (lia || (intros [=]; lia)). repeat case_decide; try done; lia.
    + rewrite occ_app, occ_pop_phase by done. cbn [occ]. repeat case_decide; try done; lia.
  - intros kd a b Hkd. rewrite (pop_own Hsee Hh), occ_app, occ_pop_tokens, En.
    cbn [occ]. rewrite !(decide_False (P := Tk kd a b = _)) by (intros [=]; lia). lia.
  - intros kd a b Hkd [Hin|Hin]%elem_of_app; [|by left]. right.
    apply pop_tokens_in in Hin as [[? [= -> _ _]]|[[? [? [= -> _ _]]]|[?|[?|[= -> -> ->]]]]]; try done; try lia.
    cbn. rewrite !Nat2Z.id. split; [lia|]. split; [lia|]. rewrite En.
    by apply (pop_chain Hsee p Hh Hhb).
  - rewrite Et. apply Hyes; [done|by rewrite En|apply Hsee|done].
Qed.

(** ** The comparison with the tail *)

Section check.
Context {σ : Unbounded T} {G : ghost} {L : list (qtok T)} (Hsee : sees σ G L).
Context (n : nat) (Hle : word (pos n) false <= head_index σ).

Lemma head_reached : pos n <= head_pos (M σ) G.
Proof using Hsee Hle.
  destruct (head_settled _ _ _ Hsee) as (mk & E & _). rewrite E in Hle. unfold word in Hle. destruct mk; cbn in Hle; lia.
Qed.

(** The head is still there: what it says of the history. *)
Lemma head_same mk : head_index σ = word (pos n) mk -> M σ = n /\ hphase G = None.
Proof using Hsee.
  clear Hle. intros E. destruct (head_settled _ _ _ Hsee) as (mk' & E' & _ & Hs).
  assert (Ho : offset_of (head_index σ) <> BLOCK_CAP).
  { rewrite E, word_offset. destruct (pos_lap n) as [_ ->]. pose proof (split31 n). change BLOCK_CAP with 31. lia. }
  apply Hs in Ho. split; [|done]. rewrite E in E'. unfold head_pos in E'. rewrite Ho, Z.sub_0_r in E'.
  apply word_inj in E' as [E'%pos_inj _]. done.
Qed.

(** The tail is where the head was: nothing is left. *)
Lemma tail_at_head : pos n = tail_pos (N σ) G -> M σ = n /\ N σ = n.
Proof using Hsee Hle.
  intros E. pose proof (head_reached) as H1. pose proof (head_pos_le_tail Hsee) as H2.
  destruct (pos_lap n) as [_ Hn]. pose proof (split31 n) as [_ Hj].
  destruct (decide (in_transit (N σ) G)) as [Ht|Ht]; [apply transit_pos in Ht as [_ Ht]; rewrite <- E, Hn in Ht; lia|].
  apply (settled_pos (limit := limit)) in Ht as [Ht _]. rewrite Ht in E. apply pos_inj in E.
  unfold head_pos in *. pose proof (sees_counts Hsee) as Hc. pose proof (pos_mono (M σ) (N σ) ltac:(lia)) as Hmono.
  destruct (hphase G) as [hp|] eqn:Eh; [rewrite <- E in *; lia|]. rewrite Z.sub_0_r in *. split; [|done].
  apply pos_inj. rewrite <- E in *. lia.
Qed.

(** The tail is elsewhere: there was something. *)
Lemma tail_beyond_head : pos n <> tail_pos (N σ) G -> M σ = n -> hphase G = None ->
  (M σ < N σ)%nat /\ (pos n / 32 <> tail_pos (N σ) G / 32 -> (M σ / 31 < N σ / 31)%nat).
Proof using Hsee.
  clear Hle. intros Hne E Hh. destruct (decide (in_transit (N σ) G)) as [Ht|Ht].
  - by destruct (head_before_transit Hsee Ht Hh).
  - apply (settled_pos (limit := limit)) in Ht as [Ht _]. rewrite Ht in *. pose proof (sees_counts Hsee) as Hc. rewrite <- E in *.
    assert (M σ <> N σ) by (intros E'; by rewrite E' in Hne). split; [lia|]. intros Hd.
    destruct (pos_lap (M σ)) as [E1 _], (pos_lap (N σ)) as [E2 _]. rewrite E1, E2 in Hd.
    pose proof (Nat.Div0.div_le_mono (M σ) (N σ) 31 ltac:(lia)). lia.
Qed.
End check.

Lemma drops_all (K : list (qtok T)) : facts K -> drops K [].
Proof. intros HK. exists K, 0%nat. split; [done|]. by rewrite app_nil_r. Qed.

Lemma ok_pop_check h l0 from K (Q : gmultiset (qtok T) -> res T * list (entry T) * list (entry T) + Z -> Prop) :
  let n := popped l0 in
  facts K -> head_value h l0 -> offset_of h <> BLOCK_CAP -> Tk 10 h 0 ∈ K -> Lb from ∈ K ->
  (forall r l, returned OPop (toks [Lb l]) (r, from, l) -> Q (toks [Lb l]) (inl (r, from, l))) ->
  (forall mark K', facts K' -> (forall x, x ∈ K -> x ∈ K') -> pop_ready h mark K' -> Q (toks K') (inr (word (pos n + 1) mark))) ->
  ok uinv (toks K) (pop_check h from) Q.
Proof using Hlimit.
  intros n HK Hhv Ho Hb Hf Hret Hgo. destruct Hhv as (_ & Hlim & Hw). destruct (Hw Ho) as [mk E]. fold n in E, Hlim.
  unfold pop_check. change (Z.shiftl 1 SHIFT) with 2.
  assert (Hadd : h + 2 = word (pos n + 1) mk) by (rewrite E; unfold word; lia). rewrite Hadd.
  pose proof (word_bounds Hlimit n mk ltac:(lia)) as Hwb. rewrite (proj2 (Z.ltb_ge _ _)) by (rewrite <- Hadd, E; lia).
  cbv zeta. rewrite word_mark. destruct mk.
  { apply Hgo; [done|auto|]. left. by rewrite E, word_mark. }
  apply ok_bind, (ok_learn (fun σ => (tail_index σ, ulog σ))). intros σ G Hsee. pose proof (s_inv _ _ _ Hsee) as HG.
  assert (Hle : word (pos n) false <= head_index σ) by (rewrite <- E; apply (s_know _ _ _ Hsee 10%nat h 0); [lia|done]).
  rewrite E, (g_tail _ _ HG), !word_shift, word_mark. change LAP with 32.
  destruct (Z.eqb_spec (pos n) (tail_pos (N σ) G)) as [Et|Et].
  - exists [Lb (ulog σ)], []. split; [by repeat constructor|]. split; [by apply drops_all|].
    split; [by intros l [= ->]%list_elem_of_singleton|]. split; [by intros ? ? ? ?%list_elem_of_singleton|].
    apply Hret. destruct (tail_at_head Hsee n Hle Et) as [EM EN]. destruct (s_queue _ _ _ Hsee) as [q Hq].
    apply done_at; [by apply (s_lb _ _ _ Hsee)| |by destruct (closed_in _)].
    destruct (state_at_counts _ _ _ Hq) as (Hi & _ & Hc & _). rewrite EM, <- EN, drop_all in Hi.
    unfold explains. rewrite Hq, Hi. rewrite <- Hc. by destruct (closed q).
  - set (mark := negb (pos n / 32 =? tail_pos (N σ) G / 32)).
    exists [Tk 11 h (Z.b2z mark)], K. split; [by repeat constructor; lia|]. split; [apply drops_refl|].
    split; [by intros l ?%list_elem_of_singleton|]. split.
    + intros kd a b [= -> -> ->]%list_elem_of_singleton. cbn. split; [by rewrite E|]. intros Eh. rewrite E in Eh.
      destruct (head_same Hsee n _ Eh) as [EM Hh].
      destruct (tail_beyond_head Hsee n Et EM Hh) as [H1 H2]. split; [done|]. intros Hm. apply H2. unfold mark in Hm.
      destruct (Z.eqb_spec (pos n / 32) (tail_pos (N σ) G / 32)); [done|done].
    + assert (Hnew : (if pos n / 32 =? tail_pos (N σ) G / 32 then mret (inr (word (pos n + 1) false))
        else mret (inr (Z.lor (word (pos n + 1) false) MARK_BIT)) : prog (Unbounded T) (res T * list (entry T) * list (entry T) + Z)) =
        mret (inr (word (pos n + 1) mark))).
      { unfold mark. destruct (pos n / 32 =? _); [done|]. by rewrite word_lor. }
      rewrite Hnew. apply Hgo; [by apply facts_tk; [lia|]|by right|]. right. by left.
Qed.

(** ** The head crosses to the next block *)

Lemma sees_h {σ G L ph k} : sees σ G L -> Tk 5 (Z.of_nat ph) (Z.of_nat k) ∈ L -> hphase G = Some (k, ph).
Proof. intros Hs Hin. apply (own_h (T:=T)). apply (s_own _ _ _ Hs); [lia|done]. Qed.

Lemma ginv_hphase (σ : Unbounded T) G hi hb hp :
  let G' := set_hphase hp G in
  ginv σ G ->
  (exists mark, hi = word (head_pos (M σ) G') mark /\ (mark = true -> hp = None -> (M σ / 31 < N σ / 31)%nat)) ->
  match hp with
  | None => forall k, (k < M σ / 31)%nat -> link G k = 4%nat
  | Some (k, ph) => (ph <= 2)%nat /\ M σ = (31 * (k + 1))%nat /\ (forall k', (k' < k)%nat -> link G k' = 4%nat) /\ ((1 <= ph)%nat -> link G k = 4%nat)
  end ->
  (hb = if inst G then None else chain G !! head_lap (M σ) G') ->
  ginv (mkUnbounded hi hb (tail_index σ) (tail_block σ) (heap σ) (ulog σ)) G'.
Proof.
  intros G' HG Hhi Hhp Hhb. unpack HG. split; cbn [tail_index tail_block head_index head_block ulog heap]; try done.
Qed.

(** The same when the thread only learns something. *)
Lemma ginv_cross (σ : Unbounded T) G k a b : ginv σ G -> hphase G = Some (k, a) -> (a <= b <= 1)%nat ->
  ((1 <= b)%nat -> link G k = 4%nat) -> ginv σ (set_hphase (Some (k, b)) G).
Proof.
  intros HG Hh Hb Hl. pose proof (ginv_hphase σ G (head_index σ) (head_block σ) (Some (k, b)) HG) as HG'.
  destruct (g_head _ _ HG) as (mark & Emk & _). pose proof (g_hphase _ _ HG) as Hph. rewrite Hh in Hph.
  destruct Hph as (_ & HM & Hlt & _).
  assert (HG'' : ginv (mkUnbounded (head_index σ) (head_block σ) (tail_index σ) (tail_block σ) (heap σ) (ulog σ)) (set_hphase (Some (k, b)) G)).
  { apply HG'.
    - exists mark. split; [|done]. rewrite Emk. unfold head_pos. by rewrite Hh.
    - split; [lia|]. by split.
    - rewrite (g_hblock _ _ HG). unfold head_lap. rewrite Hh. cbn [hphase set_hphase]. by destruct a as [|[|?]], b as [|[|?]]; try lia. }
  by destruct σ.
Qed.

Lemma load_next_at (σ : Unbounded T) p b : heap σ !! p = Some (Some b) ->
  (b0 ← mjoin (heap σ !! p); Some (next b0, b0)) = Some (next b, b) /\ with_heap (<[p := Some b]> (heap σ)) σ = σ.
Proof. intros E. split; [by rewrite E|]. rewrite list_insert_id by done. by destruct σ. Qed.

(** A step of the thread that moves the head. *)
Lemma ok_cross_step {A} (f : Unbounded T -> option (Unbounded T * prog (Unbounded T) A)) k a K (Q : gmultiset (qtok T) -> A -> Prop) :
  (forall σ G, sees σ G (Tk 5 (Z.of_nat a) (Z.of_nat k) :: K) -> hphase G = Some (k, a) -> exists σ' r hp X K',
    f σ = Some (σ', Ret r) /\ ginv σ' (set_hphase hp G) /\ later σ G σ' (set_hphase hp G) /\ ulog σ' = ulog σ /\
    facts X /\ drops K K' /\ (forall l, Lb l ∈ X -> l `prefix_of` ulog σ) /\ (forall kd x y, Tk kd x y ∈ X -> know σ' (set_hphase hp G) kd x y) /\
    Q (toks (htok hp ++ X ++ K')) r) ->
  ok uinv (toks (Tk 5 (Z.of_nat a) (Z.of_nat k) :: K)) (Act f) Q.
Proof.
  intros Hf. apply ok_action. intros σ G Hsee. pose proof (sees_h (ph := a) Hsee ltac:(by left)) as Hh.
  destruct (Hf σ G Hsee Hh) as (σ' & r & hp & X & K' & Hf' & HG' & Hlat & Hlog & HX & Hdr & Hlb & Hk & HQ).
  eexists σ', r, _, (htok hp ++ X ++ K'). split; [done|]. split; [exact HG'|]. split; [done|]. split; [done|].
  assert (Hph : phases (htok (T:=T) hp)) by (destruct hp as [[? ?]|]; by repeat constructor).
  split; [|split; [|split; [|done]]].
  - split_and!.
    + rewrite !occ_app, phases_occ, (facts_occ X), (drops_occ K K') by done. cbn [occ]. by case_decide.
    + intros l [Hin|[Hin|Hin]%elem_of_app]%elem_of_app; [|right; by apply Hlb|left; right; by eapply drops_in].
      unfold phases in Hph. rewrite Forall_forall in Hph. by specialize (Hph _ Hin).
    + intros n. rewrite !occ_app, phases_occ, (facts_occ X), (drops_occ K K') by done. cbn [occ]. by case_decide.
    + rewrite !occ_app, phases_occ, (facts_occ X) by done. cbn [occ]. pose proof (drops_budget _ _ Hdr). case_decide; lia.
  - intros kd x y Hkd. pose proof (own_hphase (T:=T) hp G kd x y) as E. rewrite Hh in E.
    change (htok (Some (k, a))) with [Tk (T:=T) 5 (Z.of_nat a) (Z.of_nat k)] in E.
    rewrite !occ_app, (facts_occ X), (drops_occ K K') by done. cbn [occ] in *. lia.
  - intros kd x y Hkd [Hin|[Hin|Hin]%elem_of_app]%elem_of_app.
    + destruct hp as [[? ?]|]; [apply list_elem_of_singleton in Hin as [= -> _ _]; lia|by apply elem_of_nil in Hin].
    + right. by apply Hk.
    + left. right. by eapply drops_in.
Qed.

Lemma ok_wait_next fuel k p K (Q : gmultiset (qtok T) -> nat -> Prop) :
  Tk 12 (Z.of_nat k) (Z.of_nat p) ∈ K -> Tk 1 1 (Z.of_nat (item k 30)) ∈ K ->
  (forall q, Q (toks (Tk 5 1 (Z.of_nat k) :: Tk 12 (Z.of_nat (S k)) (Z.of_nat q) :: K)) q) ->
  ok uinv (toks (Tk 5 0 (Z.of_nat k) :: K)) (wait_next fuel p) Q.
Proof.
  intros Hk Hrd HQ. induction fuel as [|fuel IH]; [done|]. cbn [wait_next]. apply ok_bind. unfold load_next, on_block.
  apply (ok_cross_step _ k 0). intros σ G Hsee Hh. pose proof (s_inv _ _ _ Hsee) as HG.
  pose proof (sees_chain Hsee ltac:(right; exact Hk)) as Hc.
  destruct (sees_rd _ _ _ 1 _ Hsee ltac:(right; exact Hrd)) as [Hr _].
  pose proof (block_alive _ _ _ _ HG Hc (not_freed _ _ k 30 HG ltac:(lia) ltac:(lia))) as Hb.
  destruct (load_next_at σ p _ Hb) as [E1 E2]. rewrite E1, E2.
  cbn [block_of next]. unfold next_of. destruct (decide (link G k = 4%nat)) as [E4|E4].
  - destruct (chain G !! S k) as [q|] eqn:Eq.
    + eexists σ, _, (Some (k, 1%nat)), [Tk 12 (Z.of_nat (S k)) (Z.of_nat q)], K. split; [reflexivity|].
      split; [|split; [by split|split; [done|split; [by repeat constructor; lia|split; [apply drops_refl|split; [by intros l ?%list_elem_of_singleton|split]]]]]].
      * by apply (ginv_cross σ G k 0 1); [..|lia|].
      * intros kd x y [= -> -> ->]%list_elem_of_singleton. cbn. rewrite !Nat2Z.id. split; [lia|]. split; [lia|done].
      * cbn match. exact (HQ q).
    + exfalso. destruct (g_link _ _ HG k) as (HL & _). assert (HN : (31 * (k + 1) <= N σ)%nat) by (cbv zeta in HL; lia).
      apply lookup_ge_None in Eq. pose proof (g_chain _ _ HG ltac:(intros E; by rewrite E in Hc)) as Hlen. cbv zeta in Hlen.
      pose proof (split31 (N σ)). destruct (decide (to_link (N σ) G)) as [(Hz & Hp0 & Hl1)|_]; [|lia].
      destruct (decide (N σ / 31 = S k)%nat) as [E|]; [|lia]. rewrite E in Hl1. cbn [Nat.sub] in Hl1. rewrite Nat.sub_0_r in Hl1. lia.
  - eexists σ, _, (Some (k, 0%nat)), [], K. split; [reflexivity|].
    split; [|split; [by split|split; [done|split; [constructor|split; [apply drops_refl|split; [by intros l ?%elem_of_nil|split; [by intros ? ? ? ?%elem_of_nil|]]]]]]].
    + apply (ginv_cross σ G k 0 0); [done|done|lia|lia].
    + cbn match. exact IH.
Qed.

(** Whether the block after the next one is known: then the tail is beyond
    the next one. *)
Lemma ok_load_next_next k q K (Q : gmultiset (qtok T) -> option nat -> Prop) :
  Tk 12 (Z.of_nat (S k)) (Z.of_nat q) ∈ K ->
  (forall l nn, (nn = None \/ 31 * (k + 2) <= length (pushed l))%nat -> Q (toks (Tk 5 1 (Z.of_nat k) :: Lb l :: K)) nn) ->
  ok uinv (toks (Tk 5 1 (Z.of_nat k) :: K)) (load_next q) Q.
Proof.
  intros Hk HQ. unfold load_next, on_block. apply (ok_cross_step _ k 1). intros σ G Hsee Hh. pose proof (s_inv _ _ _ Hsee) as HG.
  pose proof (sees_chain Hsee ltac:(right; exact Hk)) as Hc. pose proof (g_hphase _ _ HG) as Hph. rewrite Hh in Hph.
  destruct Hph as (_ & HM & _ & H4). specialize (H4 ltac:(lia)).
  assert (Hr : rd G (item (S k) 0) = 0%nat) by (apply (g_items _ _ HG); unfold item; lia).
  pose proof (block_alive _ _ _ _ HG Hc (not_freed _ _ (S k) 0 HG ltac:(lia) ltac:(lia))) as Hb.
  destruct (load_next_at σ q _ Hb) as [E1 E2]. rewrite E1, E2.
  eexists σ, _, (Some (k, 1%nat)), [Lb (ulog σ)], K. split; [reflexivity|].
  split; [by apply (ginv_cross σ G k 1 1); [..|lia|]|].
  split; [by split|]. split; [done|]. split; [by repeat constructor|]. split; [apply drops_refl|].
  split; [by intros l [= ->]%list_elem_of_singleton|]. split; [by intros ? ? ? ?%list_elem_of_singleton|].
  apply HQ. unfold block_of. cbn [next]. unfold next_of. destruct (decide (link G (S k) = 4%nat)) as [E|]; [right|by left].
  destruct (g_link _ _ HG (S k)) as (HL & _). cbv zeta in HL. lia.
Qed.

Lemma ok_store_head_block k q K (Q : gmultiset (qtok T) -> unit -> Prop) :
  Tk 12 (Z.of_nat (S k)) (Z.of_nat q) ∈ K -> Q (toks (Tk 5 2 (Z.of_nat k) :: K)) () ->
  ok uinv (toks (Tk 5 1 (Z.of_nat k) :: K)) (store_head_block q) Q.
Proof.
  intros Hk HQ. apply (ok_cross_step _ k 1). intros σ G Hsee Hh. pose proof (s_inv _ _ _ Hsee) as HG.
  pose proof (sees_chain Hsee ltac:(right; exact Hk)) as Hc. pose proof (g_hphase _ _ HG) as Hph. rewrite Hh in Hph.
  destruct Hph as (_ & HM & Hlt & H4). destruct (g_head _ _ HG) as (mark & Emk & _).
  assert (Hi : inst G = false) by (destruct (inst G) eqn:Ei; [pose proof (g_inst _ _ HG Ei); lia|done]).
  eexists _, (), (Some (k, 2%nat)), [], K. split; [reflexivity|]. split; [|split; [|split; [done|split; [constructor|split; [apply drops_refl|
    split; [by intros l ?%elem_of_nil|split; [by intros ? ? ? ?%elem_of_nil|done]]]]]]].
  - apply (ginv_hphase σ G); [done| | |].
    + exists mark. split; [|done]. rewrite Emk. unfold head_pos. by rewrite Hh.
    + split; [lia|]. split; [done|]. split; [done|]. intros _. apply H4. lia.
    + by rewrite Hi.
  - split; cbn [with_head tail_index tail_block head_index head_block ulog]; try done.
    intros r _ Ho. exfalso. destruct (head_settled _ _ _ Hsee) as (_ & _ & _ & Hs). apply Hs in Ho. by rewrite Hh in Ho.
Qed.

Lemma ok_store_head k mark l K K' (Q : gmultiset (qtok T) -> unit -> Prop) :
  Lb l ∈ K -> drops K K' -> (mark = true -> 31 * (k + 2) <= length (pushed l))%nat -> Q (toks K') () ->
  ok uinv (toks (Tk 5 2 (Z.of_nat k) :: K)) (store_head (word (pos (31 * (k + 1))) mark)) Q.
Proof.
  intros Hl Hdr Hmark HQ. apply (ok_cross_step _ k 2). intros σ G Hsee Hh. pose proof (s_inv _ _ _ Hsee) as HG.
  pose proof (g_hphase _ _ HG) as Hph. rewrite Hh in Hph. destruct Hph as (_ & HM & Hlt & H4). specialize (H4 ltac:(lia)).
  pose proof (s_lb _ _ _ Hsee l ltac:(by right)) as Hp%pushed_mono.
  destruct (g_head _ _ HG) as (mk & Emk & _). unfold head_pos in Emk. rewrite Hh in Emk.
  destruct (div31 (k + 1) 0 (M σ)) as [HM1 _]; [lia..|].
  eexists _, (), None, [], K'. split; [reflexivity|]. split; [|split; [|split; [done|split; [constructor|split; [done|
    split; [by intros ? ?%elem_of_nil|split; [by intros ? ? ? ?%elem_of_nil|done]]]]]]].
  - apply (ginv_hphase σ G); [done| | |].
    + exists mark. split; [unfold head_pos; cbn [hphase set_hphase]; rewrite HM; f_equal; lia|]. intros Hm _. specialize (Hmark Hm).
      pose proof (Nat.Div0.div_le_mono (31 * (k + 2)) (N σ) 31 ltac:(lia)) as Hd.
      destruct (div31 (k + 2) 0 (31 * (k + 2))) as [Hd2 _]; [lia..|]. lia.
    + rewrite HM1. intros k' Hk'. destruct (decide (k' = k)) as [->|]; [done|]. apply Hlt. lia.
    + rewrite (g_hblock _ _ HG). unfold head_lap. rewrite Hh. cbn [hphase set_hphase]. rewrite HM1. by rewrite Nat.add_1_r.
  - split; cbn [with_head tail_index tail_block head_index head_block ulog]; try done.
    + rewrite Emk, <- HM. unfold word. destruct mk, mark; cbn; lia.
Qed.

(** ** After the compare-exchange *)

Lemma ok_pop_read n p l v Y (Q : gmultiset (qtok T) -> T -> Prop) fuel :
  facts Y -> pushed l !! n = Some v -> Tk 12 (Z.of_nat (n / 31)) (Z.of_nat p) ∈ Y ->
  Q (toks [Lb l; Did (length l)]) v ->
  ok uinv (toks (Tk 1 1 (Z.of_nat n) :: [Lb l; Did (length l)] ++ Y))
    (wait_write fuel p (Z.of_nat (n mod 31)) ;;
     v ← read_value p (Z.of_nat (n mod 31));
     (if Z.of_nat (n mod 31) + 1 =? BLOCK_CAP then destroy p 0
      else
        s ← fetch_or_state p (Z.of_nat (n mod 31)) READ;
        if has s DESTROY then destroy p (Z.of_nat (n mod 31) + 1) else mret ()) ;;
     mret v) Q.
Proof.
  intros HY Hv Hk HQ. pose proof (proj2 (split31 n)) as Hj. rewrite (item_split n) in Hv |- * at 1.
  set (K := [Lb l; Did (length l)] ++ Y). change BLOCK_CAP with 31.
  assert (Hk' : Tk 12 (Z.of_nat (n / 31)) (Z.of_nat p) ∈ K) by (by right; right).
  assert (Hdr : drops K [Lb l; Did (length l)]) by (apply (drops_to Y); [done|unfold K; solve_Permutation]).
  apply ok_bind, ok_wait_write; [done|done|].
  apply ok_bind, (ok_u_read_value (n / 31) (n mod 31) p v l); [done|done|by left|done|].
  apply ok_bind. unfold read_end. destruct (decide (n mod 31 = 30)%nat) as [E|E].
  - rewrite (proj2 (Z.eqb_eq _ _)) by lia. apply (ok_destroy (n / 31) p K [Lb l; Did (length l)] 0); [done|lia|done|done].
  - rewrite (proj2 (Z.eqb_neq _ _)) by lia. change (rtok 4 (item (n / 31) (n mod 31)) ++ K) with (Tk 1 4 (Z.of_nat (item (n / 31) (n mod 31))) :: K).
    apply ok_bind, (ok_set_read (n / 31) (n mod 31) p K [Lb l; Did (length l)]); [lia|done|done|].
    intros s. destruct (has s DESTROY); [|done]. replace (Z.of_nat (n mod 31) + 1) with (Z.of_nat (S (n mod 31))) by lia.
    apply (ok_destroy (n / 31) p K [Lb l; Did (length l)] (S (n mod 31))); [done|lia|done|done].
Qed.

Lemma ok_pop_from n p l v mark K (Q : gmultiset (qtok T) -> T -> Prop) fuel :
  facts K -> pushed l !! n = Some v -> (n <= limit)%nat -> Q (toks [Lb l; Did (length l)]) v ->
  ok uinv (toks (pop_tokens n p l ++ K)) (pop_from fuel p (Z.of_nat (n mod 31)) (word (pos n + 1) mark)) Q.
Proof using Hlimit.
  intros HK Hv Hlim HQ. unfold pop_from, pop_tokens. apply ok_bind.
  match goal with |- ok _ _ _ (fun m _ => ok _ m ?r _) => set (rest := r) end.
  assert (Hrest : forall Y, facts Y -> Tk 12 (Z.of_nat (n / 31)) (Z.of_nat p) ∈ Y ->
    ok uinv (toks (Tk 1 1 (Z.of_nat n) :: [Lb l; Did (length l)] ++ Y)) rest Q) by (intros; by apply (ok_pop_read n p l v)).
  clearbody rest. change (rtok 1 n) with [Tk (T:=T) 1 1 (Z.of_nat n)].
  set (Y := Tk 12 (Z.of_nat (n / 31)) (Z.of_nat p) :: K).
  assert (HY : facts Y) by (by apply facts_tk; [lia|]).
  destruct (Z.eqb_spec (Z.of_nat (n mod 31) + 1) BLOCK_CAP) as [E|E]; change BLOCK_CAP with 31 in E.
  - assert (E30 : (n mod 31 = 30)%nat) by lia. unfold to_cross. rewrite decide_True by done. set (k := (n / 31)%nat) in *.
    assert (En : n = (31 * k + 30)%nat) by (pose proof (split31 n); unfold k; lia).
    set (R := Tk 1 1 (Z.of_nat n) :: [Lb l; Did (length l)] ++ Y).
    assert (H1 : Tk 12 (Z.of_nat k) (Z.of_nat p) ∈ R) by (unfold R, Y; right; right; right; by left).
    assert (H2 : Tk 1 1 (Z.of_nat (item k 30)) ∈ R) by (replace (item k 30) with n by (unfold item; lia); by left).
    eapply ok_toks with (Tk 5 0 (Z.of_nat k) :: R); [unfold R, Y; cbn [app htok]; solve_Permutation|].
    apply ok_bind, (ok_wait_next fuel k p); [done|done|]. intros q.
    apply ok_bind, (ok_load_next_next k q); [by left|]. intros l2 nn Hnn.
    apply ok_bind, (ok_store_head_block k q); [by right; left|].
    assert (Hword : match nn with Some _ => Z.lor (wrapping_add (Z.land (word (pos n + 1) mark) (wnot MARK_BIT)) (Z.shiftl 1 SHIFT)) MARK_BIT
        | None => wrapping_add (Z.land (word (pos n + 1) mark) (wnot MARK_BIT)) (Z.shiftl 1 SHIFT) end =
      word (pos (31 * (k + 1))) (match nn with Some _ => true | None => false end)).
    { pose proof (pos_succ n) as Hs. rewrite decide_True in Hs by done. replace (31 * (k + 1))%nat with (S n) by lia. rewrite Hs.
      pose proof (word_bounds Hlimit n mark Hlim) as Hb. unfold word in Hb. unfold usize_MAX in Hb.
      rewrite pos_word_clear by (unfold word, usize_MAX; destruct mark; cbn [Z.b2z] in *; lia).
      assert (Hw : wrapping_add (word (pos n + 1) false) (Z.shiftl 1 SHIFT) = word (pos n + 2) false).
      { change (Z.shiftl 1 SHIFT) with 2. unfold wrapping_add, word. pose proof (pos_nonneg n).
        rewrite wrap_small; [cbn; lia|]. destruct mark; cbn [Z.b2z] in *; lia. }
      rewrite Hw. destruct nn; [by rewrite word_lor|done]. }
    cbv zeta. rewrite Hword.
    eapply (ok_store_head k _ l2); [by left|apply drops_refl| |].
    { intros Hm. destruct Hnn as [->|Hnn]; [done|lia]. }
    eapply ok_toks; [|apply (Hrest (Lb l2 :: Tk 12 (Z.of_nat (S k)) (Z.of_nat q) :: Y))].
    + unfold R. cbn [app]. solve_Permutation.
    + apply facts_lb, facts_tk; [lia|done].
    + right. right. by left.
  - unfold to_cross. rewrite decide_False by lia. cbn [htok app].
    eapply ok_toks; [|apply (Hrest Y)]; [unfold Y; cbn [app]; solve_Permutation|done|by left].
Qed.

(** ** The loop *)

Record pop_facts (h : Z) (b : option nat) (from : list (entry T)) (K : list (qtok T)) : Prop := {
  pf_facts : facts K;
  pf_head : exists l, head_value h l;
  pf_lb : Lb from ∈ K;
  pf_bound : Tk 10 h 0 ∈ K;
  pf_block p : b = Some p -> Tk 9 h (Z.of_nat p) ∈ K }.

Section loop.
Context (fuel : nat).
Context (IH : forall h b from K, pop_facts h b from K ->
  ok uinv (toks K) (pop_loop fuel h b from) (returned OPop)).

Lemma ok_pop_look h from l K : facts K -> head_value h l -> Tk 10 h 0 ∈ K -> Lb from ∈ K ->
  ok uinv (toks K) (b ← load_head_block; pop_loop fuel h b from) (returned OPop).
Proof using IH.
  intros HK Hhv Hb Hf. apply ok_bind, (ok_load_head_block h); [done|]. intros b. apply IH.
  split; [apply Forall_app; split; [by apply block_fact_ok; lia|done]|by exists l|apply elem_of_app; by right..|].
  intros p ->. by left.
Qed.

Lemma ok_pop_reload from K : facts K -> Lb from ∈ K ->
  ok uinv (toks K) ('(h, _) ← load_head; b ← load_head_block; pop_loop fuel h b from) (returned OPop).
Proof using IH.
  intros HK Hf. apply ok_bind, ok_u_load_head. intros h l Hhv _.
  eapply (ok_pop_look h from l); [by apply facts_lb, facts_tk; [lia|]|done|right; by left|by right; right].
Qed.

Lemma ok_pop_cas h p from l0 mark K :
  pop_facts h (Some p) from K -> head_value h l0 -> offset_of h <> BLOCK_CAP -> pop_ready h mark K ->
  ok uinv (toks K)
    ('(h', l) ← cas_head h (word (pos (popped l0) + 1) mark);
     if h' =? h then
       v ← pop_from fuel p (offset_of h) (word (pos (popped l0) + 1) mark);
       mret (RPop (Ok v), from, l ++ [EPop v])
     else b ← load_head_block; pop_loop fuel h' b from) (returned OPop).
Proof using Hlimit IH.
  intros [HK _ Hlb Hb Hblk] Hhv Ho Hready. pose proof Hhv as (_ & Hlim & Hw). destruct (Hw Ho) as [mk E].
  assert (Hoff : offset_of h = Z.of_nat (popped l0 mod 31)) by (rewrite E, word_offset; apply pos_lap).
  apply ok_bind, (ok_u_cas_head h l0 mark p); [done|done|by apply Hblk|done| |].
  - intros l x Hn Hx Hl (q & Hq). rewrite Z.eqb_refl, Hoff. apply ok_bind.
    assert (HN : pushed (l ++ [EPop x]) = pushed l) by (rewrite pushed_app; apply app_nil_r).
    apply (ok_pop_from _ p _ x); [done|by rewrite HN|lia|]. rewrite length_app, Nat.add_1_r.
    apply done_change; [by apply Hl| |done]. explain Hq. by rewrite last_snoc, bool_decide_eq_true_2.
  - intros h' l Hne Hhv' Hl. destruct (Z.eqb_spec h' h) as [|_]; [done|].
    eapply (ok_pop_look h' from l); [by apply facts_lb, facts_tk; [lia|]|done|right; by left|by right; right].
Qed.
End loop.

Lemma pf_weaken h b b' from K K' : pop_facts h b from K -> facts K' -> (forall x, x ∈ K -> x ∈ K') ->
  (forall p, b' = Some p -> Tk 9 h (Z.of_nat p) ∈ K') -> pop_facts h b' from K'.
Proof. intros [] ? ? ?. split; auto. Qed.

Lemma ok_u_pop_loop fuel : forall h b from K, pop_facts h b from K ->
  ok uinv (toks K) (pop_loop fuel h b from) (returned OPop).
Proof using Hlimit.
  induction fuel as [|fuel IH]; [done|]. intros h b from K HK. cbn [pop_loop]. cbv zeta.
  destruct (Z.eqb_spec (offset_of h) BLOCK_CAP) as [Ho|Ho]; [apply (ok_pop_reload fuel IH); apply HK|].
  destruct (pf_head _ _ _ _ HK) as [l0 Hhv].
  apply ok_bind, (ok_pop_check h l0 from); [apply HK|done|done|apply HK|apply HK| |].
  { intros r l Hd. exact Hd. }
  intros mark K' HK' Hsub Hready. destruct b as [p|].
  - apply ok_bind, ok_pick. intros spurious. cbn [ok]. destruct spurious; [apply (ok_pop_reload fuel IH); [done|apply Hsub, HK]|].
    apply (ok_pop_cas fuel IH); [|done..]. eapply pf_weaken; [exact HK|done|done|]. intros p' Ep'. apply Hsub. by eapply HK.
  - apply (ok_pop_reload fuel IH); [done|apply Hsub, HK].
Qed.

Lemma ok_pop fuel : ok uinv (start_tokens (T:=T) OPop) (pop fuel) (returned OPop).
Proof using Hlimit.
  unfold pop, start_tokens. apply ok_bind, ok_u_load_head. intros h l Hhv _.
  eapply (ok_pop_look fuel (ok_u_pop_loop fuel) h l l); [by apply facts_lb, facts_tk, facts_nil; lia|done|right; by left|by left].
Qed.
End proof.
