(* ===== verification/UnboundedProof.v ===== *)
(** The unbounded queue: [len], [is_empty], [close]; the queue is
    linearizable, and a queue that is dropped leaks nothing. *)

From stdpp Require Import gmap functions.
From S2P Require Import Prelude Conc QueueSpec Unbounded UnboundedInv UnboundedWords UnboundedPush UnboundedPop.
From S2P Require Single.

Section proof.
Context {T : Type} `{Countable T}.
Context {limit : nat} (Hlimit : 4 * Z.of_nat limit + 8 <= usize_MAX).
Local Abbreviation toks := (list_to_set_disj (A:=qtok T) (C:=gmultiset (qtok T))).
Local Abbreviation returned := (done_tokens (T:=T) None crossing).
Local Abbreviation uinv := (@UnboundedInv.uinv T _ _ limit).
Local Abbreviation sees := (@UnboundedInv.sees T _ limit).
Local Abbreviation tail_value := (@UnboundedWords.tail_value T _ limit).
Local Abbreviation head_value := (@UnboundedWords.head_value T _ limit).
Local Abbreviation N σ := (length (pushed (ulog σ))).
Local Abbreviation M σ := (popped (ulog σ)).

Ltac unpack HG :=
  destruct HG as [g_tail0 g_tblock0 g_empty0 g_chain0 g_nodup0 g_link0 g_head0 g_hphase0 g_hblock0 g_inst0 g_items0
    g_dest0 g_heap0 g_priv0 g_leak0].

(** ** One load *)

Lemma ok_answer_tail (f : Z -> list (entry T) -> res T) o :
  start_tokens o = (∅ : gmultiset (qtok T)) ->
  (forall t l, tail_value t l -> explains None crossing o (f t l) l = true /\ changes (f t l) o = false) ->
  ok uinv (start_tokens o) ('(t, l) ← load_tail; mret (f t l, l, l)) (returned o).
Proof.
  intros Hs Hf. rewrite Hs. change (∅ : gmultiset (qtok T)) with (toks []). apply ok_bind.
  apply (ok_learn (fun σ => (tail_index σ, ulog σ))). intros σ G Hsee. exists [Lb (ulog σ)], [].
  split; [by repeat constructor|]. split; [apply drops_refl|]. split; [by intros l [= ->]%list_elem_of_singleton|].
  split; [by intros ? ? ? ?%list_elem_of_singleton|].
  destruct (Hf _ _ (tail_value_at _ _ _ Hsee)). by apply done_at.
Qed.

(** ** Closing *)

Lemma ok_u_close : ok uinv (start_tokens (T:=T) OClose) close (returned OClose).
Proof using Hlimit.
  unfold start_tokens. apply ok_bind, ok_step. intros σ G Hsee. pose proof (s_inv _ _ _ Hsee) as HG.
  destruct (s_queue _ _ _ Hsee) as [q Hq]. pose proof (state_at_counts _ _ _ Hq) as (_ & _ & Hc & _).
  assert (Hm : has (tail_index σ) MARK_BIT = closed_in (ulog σ)) by by rewrite (g_tail _ _ HG), word_mark.
  destruct (closed_in (ulog σ)) eqn:Ecl.
  - eexists σ, _, G, [Lb (ulog σ)]. split.
    { rewrite Hm. replace (Z.lor (tail_index σ) MARK_BIT) with (tail_index σ); [by destruct σ|].
      by rewrite (g_tail _ _ HG), word_lor, Ecl. }
    split; [done|]. split; [apply later_refl|]. split; [by exists q|]. split; [|split; [|split]].
    + split; [done|]. split; [by intros x [= ->]%list_elem_of_singleton; right|]. split; [|cbn [occ]; case_decide; [done|lia]].
      intros n. rewrite (decide_False (P := (_ < _ <= _)%nat)) by lia. done.
    + done.
    + by intros kd x y _ ?%list_elem_of_singleton.
    + cbv beta iota. rewrite Hm. apply done_at; [done| |done]. explain Hq.
  - eexists (with_tail (word (tail_pos (N σ) G) true) (tail_block σ) (ulog σ ++ [EClose]) σ), _, G, [Lb (ulog σ ++ [EClose]); Did (S (length (ulog σ)))].
    assert (HN : pushed (ulog σ ++ [EClose]) = pushed (ulog σ)) by (rewrite pushed_app; apply app_nil_r).
    assert (HM : popped (ulog σ ++ [EClose]) = M σ) by (rewrite popped_app; change (popped [EClose]) with 0%nat; lia).
    assert (Hq' : state_at None (ulog σ ++ [EClose]) = Some (mkAq (items q) true)) by (rewrite state_at_snoc, Hq; cbn; by rewrite Hc).
    split; [rewrite Hm; replace (Z.lor (tail_index σ) MARK_BIT) with (word (tail_pos (N σ) G) true) by (by rewrite (g_tail _ _ HG), word_lor); reflexivity|]. split; [|split; [|split; [by eexists|split; [|split; [|split]]]]].
    + unpack HG. split; cbn [with_tail tail_index tail_block head_index head_block ulog heap]; try rewrite HN; try rewrite HM; try done.
      * rewrite closed_app. cbn. by rewrite orb_true_r.
      * intros k p Hk. rewrite (g_heap0 k p Hk). do 2 f_equal. destruct (decide _); [done|]. f_equal.
        apply block_same; [done|]. intros. unfold slot_of, cell_of. by rewrite HN.
    + split; cbn [with_tail tail_index tail_block head_index head_block ulog]; try done.
      * rewrite (g_tail _ _ HG), Ecl. unfold word. cbn. lia.
      * by apply prefix_app_r.
    + cbn [with_tail ulog]. rewrite HN, length_app. cbn [length]. split; [done|]. split; [|split; [|cbn [occ]; repeat case_decide; try done; lia]].
      * intros x Hx. right. apply elem_of_cons in Hx as [[= ->]|Hx]; [done|]. by apply list_elem_of_singleton in Hx.
      * intros n. cbn [occ]. destruct (decide (n = S (length (ulog σ)))) as [->|Hne].
        -- repeat case_decide; simplify_eq; try done; lia.
        -- rewrite (decide_False (P := (_ < _ <= _)%nat)) by lia. repeat case_decide; simplify_eq; try done; lia.
    + done.
    + intros kd x y _ Hx. apply elem_of_cons in Hx as [?|Hx]; [done|]. by apply list_elem_of_singleton in Hx.
    + cbv beta iota. rewrite Hm. apply done_change; [done| |done]. explain Hq'. by rewrite last_snoc, bool_decide_eq_true_2.
Qed.

(** ** The length *)

Definition Zof (b : bool) : Z := if b then 1 else 0.

Lemma land_mask p : Z.land p (LAP - 1) = p mod 32.
Proof. change (LAP - 1) with (Z.ones 5). by rewrite Z.land_ones. Qed.

(** The two ends without the flags, and not between two blocks. *)
Lemma count_end n (b c : bool) : (n <= limit)%nat -> (b = true -> n mod 31 = 0 /\ 0 < n)%nat ->
  let x := Z.land (word (pos n - Zof b) c) (wnot (Z.shiftl 1 SHIFT - 1)) in
  (if Z.land (Z.shiftr x SHIFT) (LAP - 1) =? LAP - 1 then wrapping_add x (Z.shiftl 1 SHIFT) else x) = word (pos n) false.
Proof using Hlimit.
  intros Hn Hb. change (Z.shiftl 1 SHIFT - 1) with MARK_BIT. change (Z.shiftl 1 SHIFT) with 2.
  pose proof (word_bounds Hlimit n c Hn) as Hw. pose proof (pos_nonneg n) as Hp. unfold usize_MAX in Hw.
  assert (Hpos : 0 <= pos n - Zof b <= pos n).
  { destruct b; cbn [Zof]; [|lia]. destruct (Hb eq_refl) as [_ H0]. pose proof (pos_lt 0 n H0) as Hl. change (pos 0) with 0 in Hl. lia. }
  unfold word in Hw. rewrite pos_word_clear by (unfold word, usize_MAX; destruct c; cbn [Z.b2z] in *; lia). cbv zeta.
  rewrite word_shift, land_mask. change (LAP - 1) with 31. destruct b; cbn [Zof] in *.
  - destruct (Hb eq_refl) as [H0 H1]. destruct (pos_cross n H0 H1) as (_ & -> & _). rewrite Z.eqb_refl.
    unfold wrapping_add, word. rewrite wrap_small; [cbn; lia|]. destruct c; cbn [Z.b2z] in *; lia.
  - rewrite Z.sub_0_r. destruct (pos_lap n) as [_ ->]. pose proof (split31 n). by rewrite (proj2 (Z.eqb_neq _ _)) by lia.
Qed.

Lemma count_words n m (bn bm cn cm : bool) : (m <= n <= limit)%nat ->
  (bn = true -> n mod 31 = 0 /\ 0 < n)%nat -> (bm = true -> m mod 31 = 0 /\ 0 < m)%nat ->
  count (word (pos n - Zof bn) cn) (word (pos m - Zof bm) cm) = Some (Z.of_nat (n - m)).
Proof using Hlimit.
  intros Hnm Hn Hm. unfold count. cbv zeta.
  rewrite (count_end n bn cn) by (done || lia). rewrite (count_end m bm cm) by (done || lia).
  rewrite word_shift. change LAP with 32. destruct (pos_lap m) as [-> _]. rewrite Z.shiftl_mul_pow2 by done. change (2 ^ SHIFT) with 2.
  pose proof (split31 n) as [En Hjn]. pose proof (split31 m) as [Em Hjm].
  pose proof (Nat.Div0.div_le_mono m n 31 ltac:(lia)) as Hdiv.
  pose proof (word_bounds Hlimit n false ltac:(lia)) as Hwn. pose proof (word_bounds Hlimit m false ltac:(lia)) as Hwm.
  unfold word, usize_MAX in *. cbn [Z.b2z] in *. unfold pos in *.
  set (kn := (n / 31)%nat) in *. set (km := (m / 31)%nat) in *. set (jn := (n mod 31)%nat) in *. set (jm := (m mod 31)%nat) in *.
  assert (Hsub : forall k j, (km <= k)%nat -> 0 <= 2 * (32 * Z.of_nat k + Z.of_nat j) < 2 ^ 64 ->
    Z.shiftr (wrapping_sub (2 * (32 * Z.of_nat k + Z.of_nat j) + 0) (Z.of_nat km * 32 * 2)) SHIFT = 32 * Z.of_nat (k - km) + Z.of_nat j).
  { intros k j Hk Hb. unfold wrapping_sub. rewrite wrap_small by lia.
    replace (2 * (32 * Z.of_nat k + Z.of_nat j) + 0 - Z.of_nat km * 32 * 2) with (word (32 * Z.of_nat (k - km) + Z.of_nat j) false) by (unfold word; cbn [Z.b2z]; lia).
    apply word_shift. }
  rewrite !Hsub by lia. rewrite (Z.add_comm (32 * _)), (Z.mul_comm 32), Z.div_add, (Z.div_small (Z.of_nat jn)) by lia.
  rewrite (proj2 (Z.ltb_ge _ _)) by lia. f_equal. lia.
Qed.

Lemma tail_word σ G L : sees σ G L -> exists b, tail_index σ = word (pos (N σ) - Zof b) (closed_in (ulog σ)) /\
  (b = true -> N σ mod 31 = 0 /\ 0 < N σ)%nat /\ tail_pos (N σ) G = pos (N σ) - Zof b.
Proof.
  intros Hsee. rewrite (g_tail _ _ (s_inv _ _ _ Hsee)). unfold tail_pos. destruct (decide (in_transit (N σ) G)) as [Ht|Ht].
  - exists true. split; [done|]. split; [|done]. intros _. unfold in_transit in Ht. lia.
  - by exists false.
Qed.

Lemma head_word σ G L : sees σ G L -> exists b mark, head_index σ = word (pos (M σ) - Zof b) mark /\
  (b = true -> M σ mod 31 = 0 /\ 0 < M σ)%nat /\ head_pos (M σ) G = pos (M σ) - Zof b.
Proof.
  intros Hsee. destruct (g_head _ _ (s_inv _ _ _ Hsee)) as (mark & E & _). pose proof (g_hphase _ _ (s_inv _ _ _ Hsee)) as Hph.
  rewrite E. unfold head_pos. destruct (hphase G) as [[k ph]|].
  - exists true, mark. split; [done|]. split; [|done]. intros _. destruct Hph as (_ & -> & _).
    destruct (div31 (k + 1) 0 (31 * (k + 1))) as [_ ->]; lia.
  - by exists false, mark.
Qed.

Lemma drops_one (K : list (qtok T)) l : facts K -> Lb l ∈ K -> drops K [Lb l].
Proof. apply (drops_but K 0 l None). Qed.

Lemma ok_u_len_loop fuel : forall from K, facts K -> (forall l, from = Some l -> Lb l ∈ K) ->
  ok uinv (toks K) (len_loop fuel from) (fun m x => returned OLen m (RNum (fst (fst x)), snd (fst x), snd x)).
Proof using Hlimit.
  induction fuel as [|fuel IH]; [done|]. intros from K HK Hf. cbn [len_loop].
  apply ok_bind, ok_u_load_tail. intros t l1 _ _. set (K1 := [Lb l1; Tk 8 t 0] ++ K).
  assert (HK1 : facts K1) by (by apply facts_lb, facts_tk; [lia|]).
  assert (Hfrom : Lb (default l1 from) ∈ K1) by (destruct from as [l|]; [right; right; by apply Hf|by left]).
  apply ok_bind, (ok_learn (fun σ => (head_index σ, ulog σ))). intros σ G Hsee.
  exists [Lb (ulog σ); Tk 8 (tail_index σ) 0], K1. split; [by repeat constructor; lia|]. split; [apply drops_refl|]. split.
  { intros l [[= ->]|?%list_elem_of_singleton]%elem_of_cons; done. }
  split. { intros kd a b [?|[= -> -> ->]%list_elem_of_singleton]%elem_of_cons; [done|]. cbn. lia. }
  assert (Ht : t <= tail_index σ) by (apply (s_know _ _ _ Hsee 8%nat t 0); [lia|right; by left]).
  pose proof (s_lb _ _ _ Hsee _ Hfrom) as Hpre. destruct (s_queue _ _ _ Hsee) as [q Hq].
  pose proof (sees_counts Hsee) as Hc. destruct (tail_word _ _ _ Hsee) as (bt & Et & Hbt & _). destruct (head_word _ _ _ Hsee) as (bh & mk & Eh & Hbh & _).
  pose proof (count_words (N σ) (M σ) bt bh (closed_in (ulog σ)) mk ltac:(lia) Hbt Hbh) as Hcount. rewrite <- Et, <- Eh in Hcount.
  set (K2 := [Lb (ulog σ); Tk 8 (tail_index σ) 0] ++ K1). assert (HK2 : facts K2) by (by apply facts_lb, facts_tk; [lia|]).
  apply ok_bind, (ok_learn (fun σ => (tail_index σ, ulog σ))). intros σ2 G2 Hsee2.
  assert (Ht2 : tail_index σ <= tail_index σ2) by (apply (s_know _ _ _ Hsee2 8%nat (tail_index σ) 0); [lia|right; by left]).
  destruct (Z.eqb_spec (tail_index σ2) t) as [E|E].
  - exists [], [Lb (ulog σ)]. split; [constructor|]. split; [apply drops_one; [done|by left]|].
    split; [by intros ? ?%elem_of_nil|]. split; [by intros ? ? ? ?%elem_of_nil|]. cbv zeta.
    replace t with (tail_index σ) by lia. rewrite Hcount. cbn [ok mret prog_mret fst snd app].
    apply done_at; [done| |done]. destruct (state_at_counts _ _ _ Hq) as (Hi & _).
    unfold explains. rewrite Hq, Hi, length_drop. apply Z.eqb_refl.
  - exists [], K2. split; [constructor|]. split; [apply drops_refl|].
    split; [by intros ? ?%elem_of_nil|]. split; [by intros ? ? ? ?%elem_of_nil|]. cbv zeta.
    apply IH; [done|]. intros l [= <-]. right. by right.
Qed.

Lemma ok_len fuel : ok uinv (start_tokens (T:=T) OLen) ('(n, from, l) ← len_loop fuel None; mret (RNum n, from, l)) (returned OLen).
Proof using Hlimit.
  apply ok_bind. change (start_tokens OLen) with (toks []). eapply ok_mono; [by apply ok_u_len_loop; [constructor|]|].
  by intros m [[n from] l] Hd.
Qed.

(** ** Emptiness *)

Lemma empty_items (l : list (entry T)) q : state_at None l = Some q -> bool_decide (items q = []) = (popped l =? length (pushed l))%nat.
Proof.
  intros Hq. destruct (state_at_counts _ _ _ Hq) as (Hi & Hle & _). rewrite Hi. pose proof (length_drop (pushed l) (popped l)) as Hlen.
  destruct (Nat.eqb_spec (popped l) (length (pushed l))) as [E|E].
  - apply bool_decide_eq_true_2. apply nil_length_inv. lia.
  - apply bool_decide_eq_false_2. intros Hnil. rewrite Hnil in Hlen. cbn in Hlen. lia.
Qed.

(** The answer of [is_empty], from the two ends. *)
Lemma empty_settled (l1 l2 : list (entry T)) q1 q2 (b1 b2 : bool) :
  state_at None l1 = Some q1 -> state_at None l2 = Some q2 -> l1 `prefix_of` l2 ->
  (b1 = true -> popped l1 mod 31 = 0 /\ 0 < popped l1)%nat ->
  (b2 = true -> length (pushed l2) mod 31 = 0 /\ 0 < length (pushed l2))%nat ->
  (pos (popped l1) - Zof b1 = pos (length (pushed l2)) - Zof b2 -> popped l2 = length (pushed l2)) ->
  let r := RBool (pos (popped l1) - Zof b1 =? pos (length (pushed l2)) - Zof b2) in
  exists l, l1 `prefix_of` l /\ l `prefix_of` l2 /\ explains None crossing OIsEmpty r l = true.
Proof.
  intros Hq1 Hq2 Hp H1 H2 Heq r. subst r. destruct (Z.eqb_spec (pos (popped l1) - Zof b1) (pos (length (pushed l2)) - Zof b2)) as [E|E].
  { exists l2. split; [done|]. split; [done|]. unfold explains. rewrite Hq2, (empty_items _ _ Hq2), (Heq E). by rewrite Nat.eqb_refl. }
  assert (Hne : forall (l : list (entry T)) q, state_at None l = Some q -> popped l <> length (pushed l) -> explains None crossing OIsEmpty (RBool false) l = true).
  { intros l q Hq Hn. unfold explains. rewrite Hq, (empty_items _ _ Hq). by rewrite (proj2 (Nat.eqb_neq _ _) Hn). }
  destruct (decide (popped l1 = length (pushed l1))) as [E1|E1]; [|exists l1; split; [done|]; split; [done|by eapply Hne]].
  pose proof (pushed_mono _ _ Hp) as Hpm.
  destruct (decide (popped l1 = length (pushed l2))) as [E2|E2].
  - exists l1. split; [done|]. split; [done|]. unfold explains. rewrite Hq1. apply orb_true_iff. right. unfold crossing.
    assert (Hz : (popped l1 mod 31 = 0 /\ 0 < popped l1)%nat).
    { destruct b1; [by apply H1|]. destruct b2; [rewrite E2; by apply H2|]. rewrite E2 in E. by cbn in E. }
    change BLOCK_CAP with (Z.of_nat 31). rewrite <- Nat2Z.inj_mod. destruct Hz as [-> Hz].
    by rewrite (proj2 (Z.ltb_lt _ _)) by lia.
  - pose proof Hp as [s ->]. destruct (becomes_nonempty None s l1 q1 q2 Hq1) as (l & q & Ha & Hb & Hq & Hi); [|done|lia|].
    { pose proof (empty_items _ _ Hq1) as Hb. rewrite E1, Nat.eqb_refl in Hb. by apply bool_decide_eq_true_1 in Hb. }
    exists l. split; [done|]. split; [done|]. eapply Hne; [done|]. intros El. pose proof (empty_items _ _ Hq) as Hb'.
    rewrite El, Nat.eqb_refl in Hb'. by apply bool_decide_eq_true_1 in Hb'.
Qed.

Lemma ok_u_is_empty : ok uinv (start_tokens (T:=T) OIsEmpty) ('(b, from, l) ← is_empty; mret (RBool b, from, l)) (returned OIsEmpty).
Proof using Hlimit.
  apply ok_bind. change (start_tokens OIsEmpty) with (toks []). apply ok_bind, (ok_learn (fun σ => (head_index σ, ulog σ))).
  intros σ1 G1 Hsee1. exists [Lb (ulog σ1); Tk 10 (head_index σ1) 0], []. split; [by repeat constructor; lia|]. split; [apply drops_refl|]. split.
  { intros l [[= ->]|?%list_elem_of_singleton]%elem_of_cons; done. }
  split. { intros kd a b [?|[= -> -> ->]%list_elem_of_singleton]%elem_of_cons; [done|]. cbn. lia. }
  destruct (head_word _ _ _ Hsee1) as (b1 & mk1 & E1 & Hb1 & _). destruct (s_queue _ _ _ Hsee1) as [q1 Hq1].
  apply ok_bind, (ok_learn (fun σ => (tail_index σ, ulog σ))). intros σ2 G2 Hsee2.
  destruct (tail_word _ _ _ Hsee2) as (b2 & E2 & Hb2 & Et2). destruct (s_queue _ _ _ Hsee2) as [q2 Hq2].
  pose proof (s_lb _ _ _ Hsee2 (ulog σ1) ltac:(by left)) as Hpre.
  destruct (head_word _ _ _ Hsee2) as (b3 & mk3 & E3 & Hb3 & Eh3).
  assert (Hle : head_index σ1 <= head_index σ2) by (apply (s_know _ _ _ Hsee2 10%nat (head_index σ1) 0); [lia|right; by left]).
  assert (Hsame : pos (M σ1) - Zof b1 = pos (N σ2) - Zof b2 -> M σ2 = N σ2).
  { intros E. pose proof (head_pos_le_tail Hsee2) as Hht. rewrite Eh3, Et2 in Hht. rewrite E1, E3 in Hle. unfold word in Hle.
    assert (E' : pos (M σ2) - Zof b3 = pos (N σ2) - Zof b2) by (destruct mk1, mk3; cbn in Hle; lia).
    pose proof (f_equal (fun x => x mod 32) E') as Em. cbv beta in Em.
    assert (Hmod : forall (b : bool) n, (b = true -> n mod 31 = 0 /\ 0 < n)%nat -> ((pos n - Zof b) mod 32 =? 31) = b).
    { intros b n Hb. destruct b; cbn [Zof].
      - destruct (Hb eq_refl) as [H0 Hp]. by destruct (pos_cross n H0 Hp) as (_ & -> & _).
      - rewrite Z.sub_0_r. destruct (pos_lap n) as [_ ->]. pose proof (split31 n). by rewrite (proj2 (Z.eqb_neq _ _)) by lia. }
    assert (b3 = b2) as -> by (rewrite <- (Hmod b3 (M σ2) Hb3), Em; by apply Hmod). apply pos_inj. lia. }
  pose proof (empty_settled (ulog σ1) (ulog σ2) q1 q2 b1 b2 Hq1 Hq2 Hpre Hb1 Hb2 Hsame) as Hset.
  apply settle_ok in Hset as (Hs1 & Hs2 & Hs3).
  rewrite E1, E2, !word_shift. eexists [Lb (settle None crossing OIsEmpty _ (ulog σ1) (ulog σ2))], [].
  split; [by repeat constructor|]. split; [by apply drops_all; repeat constructor; lia|].
  split; [intros l [= ->]%list_elem_of_singleton; exact Hs2|]. split; [by intros ? ? ? ?%list_elem_of_singleton|].
  cbn [ok mret prog_mret app]. apply done_at; [exact Hs1|exact Hs3|done].
Qed.

(** ** The new queue *)

Lemma uinv_new n : (n <= limit)%nat -> uinv unbounded_new (toks (replicate n Budget)).
Proof.
  intros Hn. assert (Hocc : forall t : qtok T, t <> Budget -> multiplicity t (toks (replicate n Budget)) = 0%nat)
    by (intros; rewrite multiplicity_list; by apply occ_replicate_ne).
  split; [|split].
  - apply hist_inv_init.
  - rewrite multiplicity_list. cbn [unbounded_new ulog pushed omap length]. clear Hocc.
    enough (occ (Budget (T:=T)) (replicate n Budget) = n) as -> by done. clear Hn.
    induction n as [|n IH]; [done|]. cbn [replicate occ]. rewrite decide_True, IH by done. done.
  - exists ghost_new. split; [|split].
    + split; cbn; try done.
      * constructor.
      * intros k. lia.
      * by exists false.
      * intros k Hk. lia.
      * intros m. lia.
    + intros kd a b Hkd. rewrite Hocc by done. unfold own. cbn.
      destruct kd as [|[|[|[|[|[|[|kd]]]]]]]; try done.
    + intros kd a b _ Hin. rewrite elem_of_multiplicity, Hocc in Hin by done. lia.
Qed.

Lemma unbounded_ok fuel o : ok uinv (start_tokens o) (unbounded_code fuel o) (returned o).
Proof using Hlimit.
  destruct o as [v| | | | | | |]; cbn [unbounded_code].
  - by apply ok_u_push.
  - by apply ok_pop.
  - apply ok_len.
  - apply ok_u_is_empty.
  - apply (ok_answer_tail (fun _ _ => RBool false)); [done|]. intros t l ((q & Hq) & _). split; [|done]. unfold explains. by rewrite Hq.
  - apply (ok_answer_tail (fun _ _ => RCap None)); [done|]. intros t l ((q & Hq) & _). split; [|done]. unfold explains. by rewrite Hq.
  - apply ok_u_close.
  - unfold is_closed. apply (ok_answer_tail (fun t _ => RBool (has t MARK_BIT))); [done|]. intros t l ((q & Hq) & Hc & _). split; [|done].
    unfold explains. rewrite Hq. destruct (state_at_counts _ _ _ Hq) as (_ & _ & -> & _). rewrite Hc. apply eqb_reflx.
Qed.

(** ** A queue at rest *)

Record at_rest (G : ghost) : Prop := {
  r_wr n : wr G n = 0%nat \/ (4 <= wr G n)%nat;
  r_rd n : rd G n = 0%nat \/ (5 <= rd G n)%nat;
  r_dest k i : dest G k <> Run i;
  r_link k : link G k = 0%nat \/ (4 <= link G k)%nat;
  r_priv p : p ∉ priv G;
  r_hphase : hphase G = None;
  r_inst : inst G = false }.

Lemma rest_ghost (G : ghost) : (forall kd a b, (kd < 7)%nat -> own (T:=T) G kd a b = 0%nat) -> at_rest G.
Proof.
  intros Ho. split.
  - intros n. specialize (Ho 0%nat (Z.of_nat (wr G n)) (Z.of_nat n) ltac:(lia)). unfold own in Ho. rewrite Nat2Z.id in Ho.
    unfold wtok in Ho. destruct (decide (1 <= wr G n <= 3)%nat); [|lia]. cbn [occ] in Ho. by rewrite decide_True in Ho.
  - intros n. specialize (Ho 1%nat (Z.of_nat (rd G n)) (Z.of_nat n) ltac:(lia)). unfold own in Ho. rewrite Nat2Z.id in Ho.
    unfold rtok in Ho. destruct (decide (1 <= rd G n <= 4)%nat); [|lia]. cbn [occ] in Ho. by rewrite decide_True in Ho.
  - intros k i E. specialize (Ho 2%nat (Z.of_nat i) (Z.of_nat k) ltac:(lia)). unfold own in Ho. rewrite Nat2Z.id in Ho.
    rewrite E in Ho. cbn [dtok occ] in Ho. by rewrite decide_True in Ho.
  - intros k. specialize (Ho 3%nat (Z.of_nat (link G k)) (Z.of_nat k) ltac:(lia)). unfold own in Ho. rewrite Nat2Z.id in Ho.
    unfold ltok in Ho. destruct (decide (1 <= link G k <= 3)%nat); [|lia]. cbn [occ] in Ho. by rewrite decide_True in Ho.
  - intros p Hp. specialize (Ho 4%nat 0 (Z.of_nat p) ltac:(lia)). unfold own in Ho. rewrite Nat2Z.id in Ho.
    rewrite decide_True in Ho by done. cbn [ptok occ] in Ho. by rewrite decide_True in Ho.
  - destruct (hphase G) as [[k ph]|] eqn:E; [|done]. specialize (Ho 5%nat (Z.of_nat ph) (Z.of_nat k) ltac:(lia)).
    unfold own in Ho. rewrite E in Ho. cbn [htok occ] in Ho. by rewrite decide_True in Ho.
  - destruct (inst G) eqn:E; [|done]. specialize (Ho 6%nat 0 0 ltac:(lia)). unfold own in Ho. by rewrite E in Ho.
Qed.

Section rest.
Context {σ : Unbounded T} {G : ghost} {L : list (qtok T)} (Hsee : sees σ G L) (Hr : at_rest G).

Lemma rest_transit : ~ in_transit (N σ) G /\ ~ to_link (N σ) G.
Proof.
  assert (Hno : (N σ mod 31 = 0)%nat -> (0 < N σ)%nat -> (4 <= link G (N σ / 31 - 1))%nat).
  { intros H0 Hp. destruct (r_link _ Hr (N σ / 31 - 1)) as [El|]; [|done].
    destruct (g_link _ _ (s_inv _ _ _ Hsee) (N σ / 31 - 1)%nat) as (HL & _). cbv zeta in HL. pose proof (split31 (N σ)). lia. }
  unfold in_transit, to_link. split; intros (H0 & Hp & Hl); specialize (Hno H0 Hp); lia.
Qed.

(** The blocks before the head's are gone, the others are as they were. *)
Lemma rest_dest k : (dest G k = Freed <-> (k < M σ / 31)%nat) /\ forall n, (M σ <= n)%nat -> rd G n = 0%nat.
Proof.
  pose proof (s_inv _ _ _ Hsee) as HG. pose proof (split31 (M σ)) as [EM HM].
  assert (Hrd : forall n, (rd G n = 0%nat <-> (M σ <= n)%nat)) by (intros; apply (g_items _ _ HG)).
  split; [|intros; by apply Hrd]. pose proof (g_dest _ _ HG k) as Hd. unfold dest_ok in Hd. split.
  - intros E. rewrite E in Hd. specialize (Hd 30%nat ltac:(lia)). pose proof (Hrd (item k 30)) as H30. unfold item in *. lia.
  - intros Hk. pose proof (Hrd (item k 30)) as H30. assert (Hi : (item k 30 < M σ)%nat) by (unfold item; lia).
    destruct (dest G k) as [|i|i|] eqn:Ed; [..|done].
    + destruct Hd as [Hd _]. destruct (r_rd _ Hr (item k 30)) as [E|E]; [lia|]. pose proof (g_items _ _ HG (item k 30)). lia.
    + by destruct (r_dest _ Hr k i).
    + destruct Hd as (Hi30 & _ & _ & Hne & _). destruct (r_rd _ Hr (item k i)) as [E|E].
      * apply Hrd in E. unfold item in *. lia.
      * pose proof (g_items _ _ HG (item k i)). lia.
Qed.

(** The blocks from lap [k] on are alive in [h], and no other. *)
Definition alive_from (k : nat) (h : list (option (Block T))) : Prop :=
  (forall k' p, (k <= k')%nat -> chain G !! k' = Some p -> h !! p = Some (Some (block_of (ulog σ) G k'))) /\
  (forall p b, h !! p = Some (Some b) -> exists k', (k <= k')%nat /\ chain G !! k' = Some p).

Lemma rest_alive : alive_from (M σ / 31) (heap σ).
Proof.
  pose proof (s_inv _ _ _ Hsee) as HG. split.
  - intros k p Hk Hc. rewrite (g_heap _ _ HG k p Hc). rewrite decide_False; [done|].
    destruct (rest_dest k) as [Hd _]. rewrite Hd. lia.
  - intros p b Hb. destruct (g_leak _ _ HG p b Hb) as [Hin|Hin]; [|by apply (r_priv _ Hr) in Hin].
    apply list_elem_of_lookup in Hin as [k Hk]. exists k. split; [|done].
    pose proof (g_heap _ _ HG k p Hk) as Hh. rewrite Hb in Hh. destruct (decide (dest G k = Freed)) as [|Hd]; [done|].
    destruct (rest_dest k) as [Hd' _]. rewrite Hd' in Hd. lia.
Qed.

Lemma alive_free k p h : alive_from k h -> chain G !! k = Some p -> alive_from (S k) (<[p := None]> h).
Proof.
  intros [H1 H2] Hc. split.
  - intros k' q Hk' Hq. rewrite list_lookup_insert_ne; [apply H1; [lia|done]|]. intros ->.
    pose proof (chain_inj _ _ _ _ _ (s_inv _ _ _ Hsee) Hc Hq). lia.
  - intros q b Hb. assert (Hne : p <> q).
    { intros ->. destruct (decide (q < length h)%nat).
      - by rewrite list_lookup_insert_eq in Hb.
      - rewrite list_insert_ge in Hb by lia. apply lookup_lt_Some in Hb. lia. }
    rewrite list_lookup_insert_ne in Hb by done. destruct (H2 _ _ Hb) as (k' & Hk' & Hq). exists k'. split; [|done].
    destruct (decide (k' = k)) as [->|]; [|lia]. rewrite Hc in Hq. by injection Hq.
Qed.

Lemma rest_chain : chain G <> [] -> length (chain G) = S (N σ / 31).
Proof.
  intros Hne. pose proof (g_chain _ _ (s_inv _ _ _ Hsee) Hne) as Hlen. cbv zeta in Hlen.
  by rewrite decide_False in Hlen by apply rest_transit.
Qed.

(** From the item [m] on. *)
Lemma drop_loop_from fuel : forall d m h,
  (d + m = N σ)%nat -> (M σ <= m)%nat -> (2 * d <= fuel)%nat -> alive_from (m / 31) h ->
  exists h', alive_from (N σ / 31) h' /\
    drop_loop fuel (word (pos m) false) (word (pos (N σ)) false) (chain G !! (m / 31)%nat) h =
    Some (drop m (pushed (ulog σ)), chain G !! (N σ / 31)%nat, h').
Proof using Hlimit Hsee Hr.
  induction fuel as [fuel IH] using lt_wf_ind. intros d m h Hd HM Hf Ha.
  pose proof (s_inv _ _ _ Hsee) as HG. pose proof (sees_counts Hsee) as Hc.
  destruct (decide (m = N σ)) as [->|Hm].
  { exists h. split; [done|]. rewrite drop_all. destruct fuel; cbn [drop_loop]; by rewrite Z.eqb_refl. }
  assert (Hlt : (m < N σ)%nat) by lia. destruct fuel as [|fuel]; [lia|]. cbn [drop_loop].
  assert (Hadd : forall p, 0 <= p -> p <= pos (N σ) -> wrapping_add (word p false) (Z.shiftl 1 SHIFT) = word (p + 1) false).
  { intros p H0 Hp. change (Z.shiftl 1 SHIFT) with 2. pose proof (word_bounds Hlimit (N σ) false ltac:(lia)) as Hw.
    unfold wrapping_add, word, usize_MAX in *. cbn [Z.b2z] in *. rewrite wrap_small; lia. }
  rewrite (proj2 (Z.eqb_neq _ _)) by (intros E; apply word_inj in E as [E%pos_inj _]; lia).
  assert (Hne : chain G <> []) by (intros E; destruct (g_empty _ _ HG E); lia).
  pose proof (rest_chain Hne) as Hlen. pose proof (Nat.Div0.div_le_mono m (N σ) 31 ltac:(lia)) as Hdiv.
  destruct (lookup_lt_is_Some_2 (chain G) (m / 31) ltac:(lia)) as [p Hp]. rewrite Hp. cbn [mbind option_bind].
  destruct Ha as [Ha1 Ha2]. rewrite (Ha1 (m / 31)%nat _ ltac:(lia) Hp). cbn [mjoin option_join mbind option_bind].
  rewrite word_offset. destruct (pos_lap m) as [_ ->]. pose proof (split31 m) as [Em Hj].
  rewrite (proj2 (Z.ltb_lt _ _)) by (change BLOCK_CAP with 31; lia). rewrite Nat2Z.id, block_slots_lookup by done.
  cbn [mbind option_bind slot_of value]. rewrite <- (item_split m).
  assert (Hcell : cell_of (ulog σ) G m = match pushed (ulog σ) !! m with Some v => Init v | None => Uninit end).
  { unfold cell_of. destruct (rest_dest 0) as [_ Hrd]. rewrite (Hrd m HM).
    destruct (g_items _ _ HG m) as (Hw & _ & Hw4 & _). destruct (r_wr _ Hr m) as [E|E]; [lia|].
    by destruct (wr G m) as [|[|[|?]]]; [lia..|]. }
  rewrite Hcell. destruct (lookup_lt_is_Some_2 _ _ Hlt) as [v Hv]. rewrite Hv, (drop_S _ _ _ Hv).
  pose proof (pos_nonneg m) as Hp0. pose proof (pos_lt m (N σ) Hlt) as Hpn. pose proof (pos_succ m) as Hs.
  rewrite Hadd by lia. destruct (decide (m mod 31 = 30)%nat) as [E30|E30].
  - destruct (div31 (S (m / 31)) 0 (S m)) as [HS _]; [lia..|].
    destruct fuel as [|fuel]; [lia|]. pose proof (pos_mono (S m) (N σ) ltac:(lia)) as Hsn.
    destruct (IH fuel ltac:(lia) (d - 1)%nat (S m) (<[p := None]> h)) as (h' & Ha' & E'); [lia|lia|lia| |].
    { rewrite HS. apply alive_free; [by split|done]. }
    exists h'. split; [done|]. cbn [drop_loop].
    rewrite (proj2 (Z.eqb_neq _ _)) by (intros E; apply word_inj in E as [E _]; lia). cbn [mbind option_bind].
    rewrite (Ha1 (m / 31)%nat _ ltac:(lia) Hp). cbn [mjoin option_join mbind option_bind]. rewrite word_offset.
    assert (Hm31 : (pos m + 1) mod 32 = 31).
    { symmetry. apply (Z.mod_unique_pos _ _ (Z.of_nat (m / 31))); [lia|]. unfold pos. rewrite E30. lia. }
    rewrite Hm31. rewrite (proj2 (Z.ltb_ge _ _)) by (change BLOCK_CAP with 31; lia).
    rewrite Hadd by lia. replace (pos m + 1 + 1) with (pos (S m)) by lia.
    assert (Hnext : next (block_of (ulog σ) G (m / 31)) = chain G !! (S m / 31)%nat).
    { unfold block_of. cbn [next]. unfold next_of. destruct (g_link _ _ HG (m / 31)%nat) as (HL & HL4 & _). cbv zeta in HL.
      destruct (r_link _ Hr (m / 31)%nat) as [El|El]; [lia|]. rewrite decide_True by lia. by rewrite HS. }
    rewrite Hnext, E'. done.
  - destruct (div31 (m / 31) (S (m mod 31)) (S m)) as [HS _]; [lia..|].
    destruct (IH fuel ltac:(lia) (d - 1)%nat (S m) h) as (h' & Ha' & E'); [lia|lia|lia|by rewrite HS|].
    exists h'. split; [done|]. rewrite HS, Hp, Hs in E'. by rewrite E'.
Qed.

Lemma drop_unbounded_ok fuel : (2 * (N σ - M σ) <= fuel)%nat ->
  exists h, drop_unbounded fuel σ = Some (drop (M σ) (pushed (ulog σ)), h) /\ Forall (fun b => b = None) h.
Proof using Hlimit Hsee Hr.
  intros Hf. pose proof (s_inv _ _ _ Hsee) as HG. pose proof (sees_counts Hsee) as Hc.
  destruct (drop_loop_from fuel (N σ - M σ) (M σ) (heap σ)) as (h & Ha & E); [lia|lia|done|apply rest_alive|].
  assert (Hclear : forall n c, (n <= limit)%nat -> Z.land (word (pos n) c) (wnot (Z.shiftl 1 SHIFT - 1)) = word (pos n) false).
  { intros n c Hn. pose proof (word_bounds Hlimit n c Hn) as Hw. change (Z.shiftl 1 SHIFT - 1) with MARK_BIT.
    apply pos_word_clear. lia. }
  unfold drop_unbounded. destruct (g_head _ _ HG) as (mark & -> & _). rewrite (g_tail _ _ HG).
  unfold head_pos, tail_pos. rewrite (r_hphase _ Hr), decide_False, !Z.sub_0_r by apply rest_transit. rewrite !Hclear by lia.
  assert (Hhb : head_block σ = chain G !! (M σ / 31)%nat).
  { rewrite (g_hblock _ _ HG), (r_inst _ Hr). unfold head_lap. by rewrite (r_hphase _ Hr). }
  rewrite Hhb, E. cbn [mbind option_bind].
  assert (Hlast : forall k h', alive_from k h' -> (forall k', (k <= k')%nat -> chain G !! k' = None) -> Forall (fun b => b = None) h').
  { intros k h' [_ H2] Hnone. apply Forall_lookup. intros i b Hb. destruct b as [b|]; [|done].
    destruct (H2 _ _ Hb) as (k' & Hk' & Hck). by rewrite Hnone in Hck. }
  destruct (chain G !! (N σ / 31)%nat) as [p|] eqn:Ep.
  - rewrite (proj1 Ha (N σ / 31)%nat _ ltac:(done) Ep). cbn [mjoin option_join mbind option_bind].
    eexists. split; [done|]. eapply (Hlast (S (N σ / 31))); [by apply alive_free|].
    intros k' Hk'. apply lookup_ge_None_2. rewrite rest_chain; [lia|]. intros En. by rewrite En in Ep.
  - exists h. split; [done|]. eapply Hlast; [exact Ha|]. intros k' Hk'.
    destruct (decide (chain G = [])) as [->|Hne]; [done|]. apply lookup_ge_None_2. rewrite rest_chain by done.
    apply lookup_ge_None in Ep. rewrite rest_chain in Ep by done. lia.
Qed.
End rest.
End proof.

Lemma unbounded_keeps T `{Countable T} (fuel : nat) (budgets : list nat) :
  4 * Z.of_nat (sum_list budgets) + 8 <= usize_MAX ->
  linearizable None crossing (unbounded_code (T:=T) fuel) ulog unbounded_new budgets.
Proof.
  intros Hb. apply (linearizable_by_tokens _ _ ulog (@uinv T _ _ (sum_list budgets)));
    [by intros σ m [? _]|by apply unbounded_ok|by apply uinv_new].
Qed.

(** C4: The unbounded queue keeps its promise in every interleaving, up to
    [is_empty] while a position moves to the next block, as long as the
    positions do not wrap around.  At rest, dropping it drops its items in
    order and frees every block that is left. *)
Theorem unbounded_linearizable T `{Countable T} (fuel : nat) (budgets : list nat) :
  4 * Z.of_nat (sum_list budgets) + 8 <= usize_MAX ->
  linearizable None crossing (unbounded_code (T:=T) fuel) ulog unbounded_new budgets /\
  forall c, reachable (unbounded_code (T:=T) fuel) qstart qfinish (qpool unbounded_new budgets) c ->
    existsb thread_aborted (threads c) = false -> Forall (fun t => running t = None) (threads c) ->
    exists (qa : aqueue T) h, state_at None (ulog (shared c)) = Some qa /\
      drop_unbounded (2 * length (items qa)) (shared c) = Some (items qa, h) /\ Forall (fun b => b = None) h.
Proof.
  intros Hb. split; [by apply unbounded_keeps|]. set (limit := sum_list budgets) in *. intros c Hr Ha Hidle.
  assert (Hhist : forall σ m, @uinv T _ _ limit σ m -> hist_inv None (ulog σ) m) by by intros σ m [? _].
  pose proof (uinv_new (T:=T) (limit := limit) limit ltac:(done)) as Hnew.
    destruct (idle_at _ _ ulog (@uinv T _ _ limit) _ Hhist (unbounded_ok (T:=T) Hb fuel) _ _ _ Hnew Hr Ha Hidle) as (m & HI & Hno).
    rewrite <- (left_id_L ∅ (⊎) m) in HI. change (∅ : gmultiset (qtok T)) with (list_to_set_disj ([] : list (qtok T)) : gmultiset (qtok T)) in HI.
    destruct (uinv_sees _ _ _ HI) as (G & Hsee & Hown & _).
    assert (Hrest : at_rest G).
    { apply (rest_ghost (T:=T) (limit := limit)). intros kd a b Hkd. rewrite <- Hown by done.
      rewrite multiplicity_disj_union, multiplicity_list, Hno. done. }
    destruct (s_queue _ _ _ Hsee) as [qa Hqa]. pose proof (state_at_counts _ _ _ Hqa) as (Hi & _).
    destruct (drop_unbounded_ok Hb Hsee Hrest (2 * length (items qa))) as (h & Hd & Hall).
    { rewrite Hi, length_drop. done. }
    exists qa, h. split; [done|]. by rewrite Hi at 2.
Qed.

(** ** Two threads: the first fills a block and takes it out again; while it
    moves the head to the next block the second one finds a queue of length 0
    that is not empty. *)
Definition block_run : list (event (op Z)) :=
  [EStart 0%nat (OPush 1)] ++ replicate 11 (EStep 0%nat false) ++
  (seq 2 29 ≫= fun n => EStart 0%nat (OPush (Z.of_nat n)) :: replicate 8 (EStep 0%nat false)) ++
  [EStart 0%nat (OPush 31)] ++ replicate 12 (EStep 0%nat false) ++
  [EStart 0%nat OPop] ++ replicate 10 (EStep 0%nat false) ++
  (seq 2 29 ≫= fun _ => EStart 0%nat OPop :: replicate 9 (EStep 0%nat false)) ++
  [EStart 0%nat OPop] ++ replicate 6 (EStep 0%nat false) ++
  [EStart 1%nat OIsEmpty] ++ replicate 3 (EStep 1%nat false) ++ [EStart 1%nat OLen] ++ replicate 4 (EStep 1%nat false) ++
  replicate 37 (EStep 0%nat false) ++ [EStart 0%nat (OPush 32)] ++ replicate 8 (EStep 0%nat false).
Definition block_final : config (Unbounded Z) (op Z) (res Z * list (entry Z) * list (entry Z)) (client Z) :=
  after (unbounded_code 3) qstart qfinish block_run (qpool unbounded_new [32%nat; 0%nat]).

Lemma unbounded_linearizable_witness :
  reachable (unbounded_code 3) qstart qfinish (qpool unbounded_new [32%nat; 0%nat]) block_final /\
  (answer <$> all_calls block_final) =
    RPush (Ok ()) :: reverse ((fun n => RPop (Ok (Z.of_nat n))) <$> seq 1 31) ++ replicate 31 (RPush (Ok ())) ++ [RNum 0; RBool false] /\
  exists qa h, state_at None (ulog (shared block_final)) = Some qa /\ items qa = [32] /\
    drop_unbounded (2 * length (items qa)) (shared block_final) = Some (items qa, h) /\ Forall (fun b => b = None) h.
Proof.
  assert (Hr : reachable (unbounded_code 3) qstart qfinish (qpool unbounded_new [32%nat; 0%nat]) block_final)
    by (apply after_reachable; vm_compute; reflexivity).
  split; [exact Hr|]. split; [vm_compute; reflexivity|].
  destruct (unbounded_linearizable Z 3 [32%nat; 0%nat]) as [_ Hdrop]; [vm_compute; discriminate|].
  destruct (Hdrop _ Hr) as (qa & h & Hq & Hd & Hall).
  - vm_compute. reflexivity.
  - apply all_idle. vm_compute. reflexivity.
  - exists qa, h. split; [exact Hq|]. split; [|by split].
    assert (E : state_at None (ulog (shared block_final)) = Some (mkAq [32] false)) by (vm_compute; reflexivity).
    rewrite E in Hq. injection Hq as <-. reflexivity.
Defined.
