(* ===== verification/Queue.v ===== *)
(** [platform/queue/mod.rs]: [ConcurrentQueue], which is one of the three
    queues, chosen when it is made.

    The choice never changes, so that the shared state has the type of the
    queue that was chosen ([Shared]) and an operation is the one of that
    queue. *)

From S2P Require Import Prelude Conc QueueSpec.
From S2P Require Single Bounded BoundedProof Unbounded UnboundedInv UnboundedProof.

(** The errors. *)
Definition PopError_is_empty (e : PopError) : bool := match e with Empty => true | PopClosed => false end.
Definition PopError_is_closed (e : PopError) : bool := match e with Empty => false | PopClosed => true end.
Definition PushError_into_inner {T} (e : PushError (T:=T)) : T := match e with Full v => v | PushClosed v => v end.
Definition PushError_is_full {T} (e : PushError (T:=T)) : bool := match e with Full _ => true | PushClosed _ => false end.
Definition PushError_is_closed {T} (e : PushError (T:=T)) : bool := match e with Full _ => false | PushClosed _ => true end.

(** [Inner], with the constants of the bounded queue. *)
Inductive Inner := QSingle | QBounded (q : Bounded.Consts) | QUnbounded.

Section code.
Context {T : Type} `{Countable T}.

Definition Shared (q : Inner) : Type :=
  match q with QSingle => Single.Single T | QBounded _ => Bounded.Bounded T | QUnbounded => Unbounded.Unbounded T end.

(** [ConcurrentQueue::bounded]: [None] is the assertion of [Bounded::new]. *)
Definition bounded (cap : nat) : option {q : Inner & Shared q} :=
  if (cap =? 1)%nat then Some (existT QSingle Single.single_new)
  else match Bounded.bounded_new cap with Some (q, σ) => Some (existT (QBounded q) σ) | None => None end.
Definition unbounded : {q : Inner & Shared q} := existT QUnbounded Unbounded.unbounded_new.

(** An operation is the operation of the queue that was chosen. *)
Definition queue_code (fuel : nat) (q : Inner) (o : op T) : prog (Shared q) (res T * list (entry T) * list (entry T)) :=
  match q with
  | QSingle => Single.single_code fuel o
  | QBounded q => Bounded.bounded_code q fuel o
  | QUnbounded => Unbounded.unbounded_code fuel o
  end.

(** The history, the capacity, and where the answers are weaker. *)
Definition queue_log (q : Inner) : Shared q -> list (entry T) :=
  match q with QSingle => Single.log | QBounded _ => Bounded.blog | QUnbounded => Unbounded.ulog end.
Definition capacity (q : Inner) : option Z :=
  match q with QSingle => Some 1 | QBounded q => Some (Z.of_nat (Bounded.buffer_len q)) | QUnbounded => None end.
Definition weaker (q : Inner) : op T -> list (entry T) -> bool :=
  match q with QSingle => Single.push_after_pop | QBounded _ => fun _ _ => false | QUnbounded => Unbounded.crossing end.
(** The positions do not wrap around while [n] items are pushed. *)
Definition in_range (q : Inner) (n : nat) : Prop :=
  match q with
  | QSingle => True
  | QBounded q => Z.of_nat (n / Bounded.buffer_len q + 3) * Bounded.one_lap q <= usize_MAX
  | QUnbounded => 4 * Z.of_nat n + 8 <= usize_MAX
  end.
End code.
Arguments Shared T q : clear implicits.

(** Every [ConcurrentQueue] keeps the promise of a queue of its capacity. *)
Theorem queue_linearizable T `{Countable T} (fuel : nat) (budgets : list nat) :
  (forall cap, match bounded cap with
     | None => cap = 0%nat
     | Some (existT q σ) => capacity q = Some (Z.of_nat cap) /\ (in_range q (sum_list budgets) ->
         linearizable (capacity q) (weaker q) (queue_code (T:=T) fuel q) (queue_log q) σ budgets)
     end) /\
  (in_range QUnbounded (sum_list budgets) ->
   linearizable None (weaker QUnbounded) (queue_code (T:=T) fuel QUnbounded) (queue_log QUnbounded) (projT2 unbounded) budgets).
Proof.
  split; [|by apply UnboundedProof.unbounded_keeps]. intros cap. unfold bounded.
  destruct (Nat.eqb_spec cap 1) as [->|Hc]; [split; [done|intros _; by apply Single.single_keeps]|].
  pose proof (BoundedProof.bounded_keeps T fuel cap budgets) as Hb.
  destruct (Bounded.bounded_new cap) as [[q σ]|] eqn:E; [|done].
  apply BoundedProof.bounded_new_inv in E as (_ & k & _ & _ & -> & _). by split.
Qed.
