(* ===== verification/Parking.v ===== *)
(** [platform/parking/parking.rs]: the parker of a thread.

    A word, a mutex and a condition variable.  Only the thread that owns the
    [Parker] parks; any number of threads may unpark.  The mutex and the
    condition variable are those of the standard library: a waiting thread
    wakes when it was signalled, spuriously, or because time is up.

    [parking_safe]: the assertions hold, every notification is consumed by at
    most one park, and no notification is missed by a thread that sleeps. *)

From S2P Require Import Prelude Conc.

Definition EMPTY : Z := 0.
Definition PARKED : Z := 1.
Definition NOTIFIED : Z := 2.

(** [asleep]: how many threads wait on [cvar]; [signals]: how many of them
    have been signalled. *)
Record Inner := mkInner { state : Z; lock : bool; asleep : nat; signals : nat }.

Definition inner_new : Inner := mkInner EMPTY false 0 0.

Definition put_state (s : Z) (σ : Inner) : Inner := mkInner s (lock σ) (asleep σ) (signals σ).
Definition cas_state (a b : Z) : prog Inner (result Z Z) := cas state put_state a b.
Definition swap_state (s : Z) : prog Inner Z := swap state put_state s.

(** ** The mutex and the condition variable *)

Definition mutex_lock : prog Inner unit :=
  await (fun σ => if lock σ then None else Some ((), mkInner (state σ) true (asleep σ) (signals σ))).
Definition mutex_unlock : prog Inner unit :=
  atomic (fun σ => ((), mkInner (state σ) false (asleep σ) (signals σ))).

(** [cvar.wait] and [cvar.wait_timeout]: release the mutex and sleep in one
    step; wake; take the mutex. *)
Definition cvar_wait : prog Inner unit :=
  atomic (fun σ => ((), mkInner (state σ) false (S (asleep σ)) (signals σ))) ;;
  Pick (fun spurious =>
    if spurious : bool then
      atomic (fun σ => ((), mkInner (state σ) (lock σ) (pred (asleep σ)) (Nat.min (signals σ) (pred (asleep σ)))))
    else
      await (fun σ => match signals σ with
                      | O => None
                      | S n => Some ((), mkInner (state σ) (lock σ) (pred (asleep σ)) n)
                      end)) ;;
  mutex_lock.

Definition cvar_notify_one : prog Inner unit :=
  atomic (fun σ => ((), if (signals σ <? asleep σ)%nat then mkInner (state σ) (lock σ) (asleep σ) (S (signals σ)) else σ)).

(** ** The operations of [Inner] *)

Fixpoint wait_loop (fuel : nat) : prog Inner bool :=
  match fuel with
  | O => OutOfFuel
  | S fuel =>
      cvar_wait ;;
      r ← cas_state NOTIFIED EMPTY;
      match r with Ok _ => mutex_unlock ;; mret true | Err _ => wait_loop fuel end
  end.

(** A duration is a number of nanoseconds. *)
Definition park (fuel : nat) (timeout : option Z) : prog Inner bool :=
  r ← cas_state NOTIFIED EMPTY;
  match r with
  | Ok _ => mret true
  | Err _ =>
      if match timeout with Some dur => dur =? 0 | None => false end then mret false
      else
        mutex_lock ;;
        r ← cas_state EMPTY PARKED;
        match r with
        | Ok _ =>
            match timeout with
            | None => wait_loop fuel
            | Some _ =>
                cvar_wait ;;
                old ← swap_state EMPTY;
                if old =? NOTIFIED then mutex_unlock ;; mret true
                else if old =? PARKED then mutex_unlock ;; mret false
                else Crash
            end
        | Err s =>
            if s =? NOTIFIED then
              old ← swap_state EMPTY;
              if old =? NOTIFIED then mutex_unlock ;; mret true else Crash
            else Crash
        end
  end.

Definition unpark : prog Inner bool :=
  old ← swap_state NOTIFIED;
  if old =? EMPTY then mret true
  else if old =? NOTIFIED then mret false
  else if old =? PARKED then
    mutex_lock ;; mutex_unlock ;;
    cvar_notify_one ;;
    mret true
  else Crash.

(** ** Parkers and unparkers *)

Inductive op := Park (fuel : nat) | ParkTimeout (fuel : nat) (duration : Z) | Unpark.

Definition park_code (o : op) : prog Inner bool :=
  match o with
  | Park fuel => park fuel None
  | ParkTimeout fuel d => park fuel (Some d)
  | Unpark => unpark
  end.

(** [park_deadline], at the time [now]. *)
Definition ParkDeadline (fuel : nat) (instant now : Z) : op := ParkTimeout fuel (Z.max 0 (instant - now)).

(** What a thread owns: the parker or not, unparkers, and how many of its
    parks and unparks answered [true]. *)
Record client := mkClient { parker : bool; unparkers : nat; parks : nat; unparks : nat }.

Definition park_start (c : client) (o : op) : option client :=
  match o with
  | Unpark => match unparkers c with O => None | S n => Some (mkClient (parker c) n (parks c) (unparks c)) end
  | _ => if parker c then Some (mkClient false (unparkers c) (parks c) (unparks c)) else None
  end.
Definition park_finish (c : client) (o : op) (r : bool) : client :=
  match o with
  | Unpark => mkClient (parker c) (S (unparkers c)) (parks c) (if r then S (unparks c) else unparks c)
  | _ => mkClient true (unparkers c) (if r then S (parks c) else parks c) (unparks c)
  end.

(** [pair()], its parker with the first thread, and clones of its unparker. *)
Definition park_pool (n : nat) (handles : list nat) : config Inner op bool client :=
  Config inner_new (Thread (mkClient true n 0 0) None :: ((fun n => Thread (mkClient false n 0 0) None) <$> handles)).

(** * The invariant

    The parker is a token that changes: it is idle; holds the mutex, and may
    have seen the word [NOTIFIED]; has set [PARKED] and goes to sleep; sleeps;
    is awake without the mutex; or looks whether it was notified.  So is every
    unparker: idle, before it took the mutex, with the mutex, or about to
    signal.  Every [true] of an unpark is a notification that was given, every
    [true] of a park one that was got. *)

Inductive ptok :=
| KIdle | KHolding | KSeen | KParking | KAsleep | KAwake | KLooking
| KHandle | KUnparking | KUnlocking | KSignalling | KGave | KGot.
#[export] Instance ptok_eq : EqDecision ptok.
Proof. solve_decision. Defined.
Definition ptok_code (t : ptok) : nat :=
  match t with
  | KIdle => 0 | KHolding => 1 | KSeen => 2 | KParking => 3 | KAsleep => 4 | KAwake => 5 | KLooking => 6
  | KHandle => 7 | KUnparking => 8 | KUnlocking => 9 | KSignalling => 10 | KGave => 11 | KGot => 12
  end.
Definition ptok_list : list ptok :=
  [KIdle; KHolding; KSeen; KParking; KAsleep; KAwake; KLooking; KHandle; KUnparking; KUnlocking; KSignalling; KGave; KGot].
#[export] Instance ptok_countable : Countable ptok.
Proof. refine (inj_countable' ptok_code (fun n => default KIdle (ptok_list !! n)) _). by intros []. Defined.

Section spec.
Context (total : nat).
Local Abbreviation toks := (list_to_set_disj (A:=ptok) (C:=gmultiset ptok)).

Definition tally (σ : Inner) (c : ptok -> nat) : Prop :=
  (c KIdle + c KHolding + c KSeen + c KParking + c KAsleep + c KAwake + c KLooking = 1 /\
   c KHandle + c KUnparking + c KUnlocking + c KSignalling = total /\
   c KHolding + c KSeen + c KParking + c KLooking + c KUnlocking = (if lock σ then 1 else 0) /\
   asleep σ = c KAsleep /\ signals σ <= asleep σ)%nat /\
  ((state σ = EMPTY /\ c KIdle + c KHolding = 1 /\ c KGave = c KGot) \/
   (state σ = PARKED /\ c KIdle + c KHolding + c KSeen = 0 /\ c KGave = c KGot) \/
   (state σ = NOTIFIED /\ c KGave = S (c KGot) /\
    (c KParking = 0 \/ 0 < c KUnparking) /\
    (c KAsleep = 0 \/ 0 < c KUnparking + c KUnlocking + c KSignalling + signals σ)))%nat.

Definition parker_inv (σ : Inner) (m : gmultiset ptok) : Prop := tally σ (fun t => multiplicity t m).

(** An action that exchanges the tokens [L] for [L']. *)
Lemma ok_swap {A} (f : Inner -> option (Inner * prog Inner A)) L (Q : gmultiset ptok -> A -> Prop) :
  (forall σ (c : ptok -> nat), tally σ (fun t => occ t L + c t)%nat ->
     match f σ with
     | None => True
     | Some (σ', p) => exists a L', p = Ret a /\ tally σ' (fun t => occ t L' + c t)%nat /\ Q (toks L') a
     end) ->
  ok parker_inv (toks L) (Act f) Q.
Proof.
  intros Hf σ fr HI. unfold parker_inv in HI. specialize (Hf σ (fun t => multiplicity t fr)). cbn beta in Hf.
  assert (Ht : tally σ (fun t => occ t L + multiplicity t fr)%nat)
    by (unfold tally in *; rewrite !multiplicity_disj_union, !multiplicity_list in HI; exact HI).
  specialize (Hf Ht). destruct (f σ) as [[σ' p']|]; [|done]. destruct Hf as (a & L' & -> & Ht' & HQ).
  right. exists (toks L'). split; [|done]. unfold parker_inv, tally in *.
  rewrite !multiplicity_disj_union, !multiplicity_list. exact Ht'.
Qed.

Ltac counts := unfold tally in *; repeat
  match goal with
  | |- context [occ ?t ?L] => let n := eval vm_compute in (occ t L) in change (occ t L) with n
  | H : context [occ ?t ?L] |- _ => let n := eval vm_compute in (occ t L) in change (occ t L) with n in H
  end; unfold EMPTY, PARKED, NOTIFIED in *; cbn [state lock asleep signals put_state] in *;
  repeat match goal with l : bool |- _ => destruct l end.

Ltac decided := repeat match goal with
  | |- context [bool_decide (?a = ?b :> ptok)] =>
      let v := eval vm_compute in (bool_decide (a = b)) in change (bool_decide (a = b)) with v
  end; cbv match.

(** [exchange L']: the action answers and leaves the tokens [L']. *)
Ltac exchange L' := eexists _, L'; split; [reflexivity|split; [counts; lia|]].

Ltac become L' := exists L'; split; [counts; lia|].

Lemma ok_p_lock t t' L (Q : gmultiset ptok -> unit -> Prop) :
  (t, t', L) = (KIdle, KHolding, []) \/ (t, t', L) = (KAwake, KLooking, []) \/
  (t, t', L) = (KUnparking, KUnlocking, [KGave]) ->
  Q (toks (t' :: L)) () -> ok parker_inv (toks (t :: L)) mutex_lock Q.
Proof.
  intros Ht HQ. apply ok_swap. intros [s l a g] c Hc. cbn [lock]. destruct l; [done|].
  destruct Ht as [[= -> -> ->]|[[= -> -> ->]|[= -> -> ->]]];
    [exchange [KHolding]|exchange [KLooking]|exchange [KUnlocking; KGave]]; done.
Qed.

Lemma ok_p_unlock t t' L (Q : gmultiset ptok -> unit -> Prop) :
  (t, t', L) = (KHolding, KIdle, []) \/ (t, t', L) = (KHolding, KIdle, [KGot]) \/
  (t, t', L) = (KUnlocking, KSignalling, [KGave]) ->
  Q (toks (t' :: L)) () -> ok parker_inv (toks (t :: L)) mutex_unlock Q.
Proof.
  intros Ht HQ. apply ok_swap. intros [s l a g] c Hc.
  destruct Ht as [[= -> -> ->]|[[= -> -> ->]|[= -> -> ->]]];
    [exchange [KIdle]|exchange [KIdle; KGot]|exchange [KSignalling; KGave]]; done.
Qed.

Lemma ok_cvar_wait (Q : gmultiset ptok -> unit -> Prop) :
  Q (toks [KLooking]) () -> ok parker_inv (toks [KParking]) cvar_wait Q.
Proof.
  intros HQ. apply ok_bind, ok_swap. intros [s l a g] c Hc. exchange [KAsleep].
  apply ok_bind, ok_pick. intros [|]; apply ok_swap; clear -HQ; intros [s l a g] c Hc.
  - exchange [KAwake]. apply ok_p_lock with KLooking; [by auto|done].
  - destruct g as [|g]; [done|]. exchange [KAwake]. apply ok_p_lock with KLooking; [by auto|done].
Qed.

Lemma ok_cvar_notify_one (Q : gmultiset ptok -> unit -> Prop) :
  Q (toks [KHandle; KGave]) () -> ok parker_inv (toks [KSignalling; KGave]) cvar_notify_one Q.
Proof.
  intros HQ. apply ok_swap. intros [s l a g] c Hc. cbn [signals asleep].
  destruct (Nat.ltb_spec g a); exchange [KHandle; KGave]; done.
Qed.

Lemma ok_cas_state x y L (Q : gmultiset ptok -> result Z Z -> Prop) :
  (forall σ (c : ptok -> nat), tally σ (fun t => occ t L + c t)%nat ->
     exists L', tally (if state σ =? x then put_state y σ else σ) (fun t => occ t L' + c t)%nat /\
       Q (toks L') (if state σ =? x then Ok (state σ) else Err (state σ))) ->
  ok parker_inv (toks L) (cas_state x y) Q.
Proof.
  intros Hf. apply ok_bind, ok_swap. intros σ c Hc. destruct (Hf σ c Hc) as (L' & Ht & HQ).
  exists (state σ), L'. split; [done|split; [|done]]. unfold put_state in *. by destruct (state σ =? x), σ.
Qed.

Definition parked (m : gmultiset ptok) (r : bool) : Prop := m = toks (KIdle :: if r then [KGot] else []).
Definition unparked (m : gmultiset ptok) (r : bool) : Prop := m = toks (KHandle :: if r then [KGave] else []).

(** The end of a park that got its notification, or that timed out. *)
Lemma ok_leave (r : bool) : ok parker_inv (toks (KHolding :: if r then [KGot] else [])) (mutex_unlock ;; mret r) parked.
Proof. apply ok_bind. apply ok_p_unlock with KIdle; [destruct r; auto|]. by destruct r. Qed.

Lemma ok_p_wait_loop fuel : ok parker_inv (toks [KParking]) (wait_loop fuel) parked.
Proof.
  induction fuel as [|fuel IH]; [done|]. cbn [wait_loop].
  apply ok_bind, ok_cvar_wait, ok_bind, ok_cas_state. intros [s l a g] c Hc. cbn [state].
  destruct (Z.eqb_spec s NOTIFIED) as [-> |].
  - become [KHolding; KGot]. apply (ok_leave true).
  - become [KParking]. apply IH.
Qed.

Lemma ok_park fuel timeout : ok parker_inv (toks [KIdle]) (park fuel timeout) parked.
Proof.
  apply ok_bind, ok_cas_state. intros [s l a g] c Hc. cbn [state].
  destruct (Z.eqb_spec s NOTIFIED) as [-> |]; [by become [KIdle; KGot]|].
  become [KIdle]. destruct (match timeout with Some dur => dur =? 0 | None => false end); [done|].
  apply ok_bind. apply ok_p_lock with KHolding; [auto|].
  apply ok_bind, ok_cas_state. clear. intros [s l a g] c Hc. cbn [state].
  destruct (Z.eqb_spec s EMPTY) as [-> |].
  - become [KParking]. destruct timeout as [dur|]; [|apply ok_p_wait_loop].
    apply ok_bind, ok_cvar_wait, ok_bind, ok_swap. clear. intros [s l a g] c Hc. cbn [state].
    destruct (Z.eqb_spec s NOTIFIED) as [-> |].
    + exchange [KHolding; KGot]. apply (ok_leave true).
    + exchange [KHolding]. cbv beta. destruct (Z.eqb_spec s NOTIFIED); [done|].
      destruct (Z.eqb_spec s PARKED); [apply (ok_leave false)|]. counts; lia.
  - destruct (Z.eqb_spec s NOTIFIED) as [-> |].
    + become [KSeen]. apply ok_bind, ok_swap. clear. intros [s l a g] c Hc. cbn [state].
      exchange [KHolding; KGot]. cbv beta. destruct (Z.eqb_spec s NOTIFIED); [apply (ok_leave true)|].
      counts; lia.
    + exfalso. counts; lia.
Qed.

Lemma ok_unpark : ok parker_inv (toks [KHandle]) unpark unparked.
Proof.
  apply ok_bind, ok_swap. intros [s l a g] c Hc. cbn [state].
  destruct (Z.eqb_spec s EMPTY) as [-> |]; [by exchange [KHandle; KGave]|].
  destruct (Z.eqb_spec s NOTIFIED) as [-> |]; [by exchange [KHandle]|].
  destruct (Z.eqb_spec s PARKED) as [-> |]; [|exfalso; counts; lia].
  exchange [KUnparking; KGave]. cbv beta.
  change (PARKED =? EMPTY) with false. change (PARKED =? NOTIFIED) with false. change (PARKED =? PARKED) with true.
  apply ok_bind. apply ok_p_lock with KUnlocking; [auto|].
  apply ok_bind. apply ok_p_unlock with KSignalling; [auto|]. by apply ok_bind, ok_cvar_notify_one.
Qed.

(** What a thread owns, as tokens. *)
Definition ptoks_of (c : client) : list ptok :=
  (if parker c then [KIdle] else []) ++ replicate (unparkers c) KHandle ++
  replicate (parks c) KGot ++ replicate (unparks c) KGave.
Definition ptokens (c : client) : gmultiset ptok := toks (ptoks_of c).

Lemma park_ops_ok : ops_ok park_code park_start park_finish parker_inv ptokens.
Proof.
  assert (Htok : forall L L', L ≡ₚ L' -> toks L = toks L').
  { intros L L' HL. apply gmultiset_eq. intros x. rewrite !multiplicity_list. by apply occ_perm. }
  assert (Happ : forall L L', toks L ⊎ toks L' = toks (L ++ L')) by (intros; by rewrite list_to_set_disj_app).
  intros [p u a g] o c'. unfold park_start, ptokens. cbn [parker unparkers parks unparks].
  destruct o as [fuel|fuel d|]; [destruct p; [|done]|destruct p; [|done]|destruct u as [|u]; [done|]]; intros [= <-];
    [exists (toks [KIdle])|exists (toks [KIdle])|exists (toks [KHandle])];
    (split; [rewrite Happ; apply Htok; unfold ptoks_of; cbn; solve_Permutation|]);
    (eapply ok_mono; [first [apply ok_park|apply ok_unpark]|]);
    intros m [|] ->; rewrite Happ; apply Htok; unfold ptoks_of; cbn; solve_Permutation.
Qed.

Lemma ptokens_count c :
  multiplicity KHandle (ptokens c) = unparkers c /\ multiplicity KGot (ptokens c) = parks c /\
  multiplicity KGave (ptokens c) = unparks c /\ multiplicity KAsleep (ptokens c) = 0%nat.
Proof.
  unfold ptokens, ptoks_of. rewrite !multiplicity_list, !occ_app, !occ_replicate.
  destruct (parker c); counts; decided; lia.
Qed.

Definition pool_toks (handles : list nat) : list (gmultiset ptok) :=
  (fun n => toks (replicate n KHandle)) <$> handles.

Lemma pool_toks_handles handles t :
  multiplicity t (⋃+ pool_toks handles) = if bool_decide (t = KHandle) then sum_list handles else 0%nat.
Proof.
  induction handles as [|n hs IH]; [cbn; rewrite multiplicity_empty; by case_bool_decide|].
  change (⋃+ pool_toks (n :: hs)) with (toks (replicate n KHandle) ⊎ ⋃+ pool_toks hs).
  rewrite multiplicity_disj_union, multiplicity_list, IH, occ_replicate. case_bool_decide; cbn; lia.
Qed.

Lemma park_pool_inv n handles : (n + sum_list handles = total)%nat -> pool_inv park_finish parker_inv ptokens (park_pool n handles).
Proof.
  intros Htotal. right. exists (toks (KIdle :: replicate n KHandle) :: pool_toks handles). split.
  - constructor; [unfold thread_ok, ptokens, ptoks_of; cbn; by rewrite app_nil_r|].
    apply Forall2_fmap, Forall_Forall2_diag, Forall_forall. intros k _.
    unfold thread_ok, ptokens, ptoks_of; cbn; by rewrite app_nil_r.
  - change (⋃+ (?x :: ?l)) with (x ⊎ ⋃+ l). unfold parker_inv, tally.
    rewrite !multiplicity_disj_union, !multiplicity_list, !pool_toks_handles.
    change (KIdle :: replicate n KHandle) with ([KIdle] ++ replicate n KHandle).
    rewrite !occ_app, !occ_replicate. counts. decided. unfold park_pool, inner_new. cbn [shared state lock asleep signals]. unfold EMPTY. cbv match. lia.
Qed.
End spec.

(** C20: in every interleaving of parks, with or without a timeout, of the
    one parker with unparks of any number of unparkers, waking up spuriously
    as it may: no assertion fails; at rest the notifications given (unparks
    that answered [true]) are those consumed (parks that answered [true]),
    and one more exactly if the word is [NOTIFIED]; no wake-up is lost: when
    no unpark is under way and the word is [NOTIFIED], a thread that sleeps
    has been signalled. *)
Theorem parking_safe (n : nat) (handles : list nat) (c : config Inner op bool client) :
  reachable park_code park_start park_finish (park_pool n handles) c ->
  existsb thread_aborted (threads c) = false ->
  existsb thread_crashed (threads c) = false /\
  (state (shared c) = EMPTY \/ state (shared c) = PARKED \/ state (shared c) = NOTIFIED) /\
  (Forall (fun t => running t = None) (threads c) ->
   asleep (shared c) = 0%nat /\
   sum_list ((fun t => unparks (owns t)) <$> threads c)
   = (sum_list ((fun t => parks (owns t)) <$> threads c) + if (state (shared c) =? NOTIFIED)%Z then 1 else 0)%nat) /\
  (sum_list ((fun t => unparkers (owns t)) <$> threads c) = (n + sum_list handles)%nat ->
   state (shared c) = NOTIFIED -> (0 < asleep (shared c))%nat -> (0 < signals (shared c))%nat).
Proof.
  intros [es Hr] Ha. set (total := (n + sum_list handles)%nat).
  assert (Hinv : pool_inv park_finish (parker_inv total) ptokens c).
  { eapply run_inv; [by apply park_ops_ok| |exact Hr]. by apply park_pool_inv. }
  destruct (pool_inv_elim _ _ _ c Hinv Ha) as (ms & HF & Hms).
  pose proof HF as Hsub. apply (owned_tokens park_code) in Hsub.
  assert (Hsum : forall k f, (forall c, multiplicity k (ptokens c) = f c) ->
            multiplicity k (⋃+ ((fun t => ptokens (owns t)) <$> threads c)) = sum_list ((fun t => f (owns t)) <$> threads c))
    by (intros; by apply owned_count).
  pose proof (Hsum KHandle unparkers (fun c => proj1 (ptokens_count c))) as Hu.
  pose proof (Hsum KGot parks (fun c => proj1 (proj2 (ptokens_count c)))) as Hgot.
  pose proof (Hsum KGave unparks (fun c => proj1 (proj2 (proj2 (ptokens_count c))))) as Hgave.
  unfold parker_inv, tally in Hms. split_and!.
  - by eapply pool_inv_no_crash.
  - tauto.
  - intros Hidle. rewrite (idle_tokens _ _ ptokens _ _ HF Hidle) in Hms.
    pose proof (Hsum KAsleep (fun _ => 0%nat) (fun c => proj2 (proj2 (proj2 (ptokens_count c))))) as Hasleep.
    assert (Hzero : forall ts : list (thread Inner op bool client), sum_list ((fun _ => 0%nat) <$> ts) = 0%nat)
      by (induction ts; done).
    rewrite Hzero in Hasleep. rewrite <- Hgot, <- Hgave. unfold EMPTY, PARKED, NOTIFIED in *.
    destruct (Z.eqb_spec (state (shared c)) 2); lia.
  - intros Hall. specialize (Hsub KHandle). unfold EMPTY, PARKED, NOTIFIED in *. lia.
Qed.

(** The parker sleeps, another thread unparks it twice (the second time
    nothing is left to do), it wakes; it then parks with a timeout, in vain,
    and is unparked again: of three notifications that were given two were
    consumed and one is left in the word. *)
Definition park_run : list (event op) :=
  [EStart 0 (Park 9)] ++ replicate 4 (EStep 0 false) ++
  [EStart 1 Unpark] ++ replicate 4 (EStep 1 false).
Definition park_run2 : list (event op) :=
  [EStep 1 false; EStart 1 Unpark] ++ replicate 2 (EStep 1 false) ++ replicate 6 (EStep 0 false) ++
  [EStart 1 Unpark] ++ replicate 2 (EStep 1 false) ++ [EStart 0 (Park 9)] ++ replicate 2 (EStep 0 false) ++
  [EStart 0 (ParkDeadline 9 30 10)] ++ replicate 4 (EStep 0 false) ++ [EStep 0 true] ++ replicate 5 (EStep 0 false) ++
  [EStart 1 Unpark] ++ replicate 2 (EStep 1 false).

Definition park_at (es : list (event op)) : config Inner op bool client :=
  after park_code park_start park_finish es (park_pool 1 [1%nat]).
Definition park_woken : list (event op) := park_run ++ [EStep 1 false].
Definition park_all : list (event op) := park_run ++ park_run2.

Lemma parking_safe_witness :
  reachable park_code park_start park_finish (park_pool 1 [1%nat]) (park_at park_woken) /\
  reachable park_code park_start park_finish (park_pool 1 [1%nat]) (park_at park_all) /\
  (0 < signals (shared (park_at park_woken)))%nat /\
  owns <$> threads (park_at park_all) = [mkClient true 1 2 0; mkClient false 1 0 3] /\
  sum_list ((fun t => unparks (owns t)) <$> threads (park_at park_all))
  = (sum_list ((fun t => parks (owns t)) <$> threads (park_at park_all)) + 1)%nat.
Proof.
  assert (Hw : reachable park_code park_start park_finish (park_pool 1 [1%nat]) (park_at park_woken))
    by (apply after_reachable; vm_compute; reflexivity).
  assert (Hr : reachable park_code park_start park_finish (park_pool 1 [1%nat]) (park_at park_all))
    by (apply after_reachable; vm_compute; reflexivity).
  split; [exact Hw|split; [exact Hr|split; [|split; [vm_compute; reflexivity|]]]].
  - apply (parking_safe 1 [1%nat] _ Hw); vm_compute; first [reflexivity|lia].
  - apply (parking_safe 1 [1%nat] _ Hr); [vm_compute; reflexivity|]. apply all_idle. vm_compute. reflexivity.
Defined.
