(* ===== verification/AtomicWaker.v ===== *)
(** [platform/atomic_waker/waker.rs]: a cell for the waker of a task.

    A word of two flags guards the cell.  The cell is [Busy] while a thread
    reads or writes it, so that two accesses at once are a [Crash], as are a
    failed debug assertion and the [unwrap] of an empty cell.  Wakers are
    names; waking one is recorded in [woken].  [log] is the history of the
    accesses to the word, an auxiliary variable.

    [atomic_waker_accounts]: in every interleaving of registrations, takes
    and wakes, every waker that was registered and then taken has been woken,
    or belongs to a caller of [take]. *)

From S2P Require Import Prelude Conc.

Abbreviation name := nat (only parsing).

Definition WAITING : Z := 0.
Definition REGISTERING : Z := 1.
Definition WAKING : Z := 2.

Inductive slot := Stored (o : option name) | Busy.

(** A registration that set [REGISTERING], that found [WAKING], or that found
    another registration; and a [fetch_or]. *)
Inductive entry := ERegister (w : name) | ERefused (w : name) | EIgnored (w : name) | ETake.

Record AtomicWaker := mkAW { state : Z; waker : slot; log : list entry; woken : list name }.

Definition aw_new : AtomicWaker := mkAW WAITING (Stored None) [] [].

Definition entry_of (w : name) (s : Z) : entry :=
  if s =? WAITING then ERegister w else if s =? WAKING then ERefused w else EIgnored w.

(** * The operations, on an [AtomicWaker] that is part of a larger state *)

Section code.
Context {Σ : Type} (get : Σ -> AtomicWaker) (put : AtomicWaker -> Σ -> Σ).

Definition on_aw {A} (f : AtomicWaker -> option (AtomicWaker * prog Σ A)) : prog Σ A :=
  Act (fun σ => match f (get σ) with Some (a, p) => Some (put a σ, p) | None => None end).

(** [waker.wake()] and [waker.wake_by_ref()] *)
Definition wake_waker (w : name) : prog Σ unit :=
  on_aw (fun a => Some (mkAW (state a) (waker a) (log a) (woken a ++ [w]), Ret ())).

(** [compare_exchange(WAITING, REGISTERING).unwrap_or_else(|x| x)] *)
Definition register_cas (w : name) : prog Σ Z :=
  on_aw (fun a => Some (mkAW (if state a =? WAITING then REGISTERING else state a) (waker a)
                             (log a ++ [entry_of w (state a)]) (woken a), Ret (state a))).

(** The accesses to the cell. *)
Definition slot_write (w : name) : prog Σ unit :=
  on_aw (fun a => match waker a with
                  | Busy => Some (a, Crash)
                  | Stored _ => Some (mkAW (state a) Busy (log a) (woken a), Ret ())
                  end) ;;
  on_aw (fun a => Some (mkAW (state a) (Stored (Some w)) (log a) (woken a), Ret ())).
Definition slot_take : prog Σ (option name) :=
  o ← on_aw (fun a => match waker a with
                      | Busy => Some (a, Crash)
                      | Stored o => Some (mkAW (state a) Busy (log a) (woken a), Ret o)
                      end);
  on_aw (fun a => Some (mkAW (state a) (Stored None) (log a) (woken a), Ret o)).

(** The other accesses to the word; each returns the previous value. *)
Definition set_state (f : Z -> Z) : prog Σ Z :=
  on_aw (fun a => Some (mkAW (f (state a)) (waker a) (log a) (woken a), Ret (state a))).
Definition fetch_or_waking : prog Σ Z :=
  on_aw (fun a => Some (mkAW (Z.lor (state a) WAKING) (waker a) (log a ++ [ETake]) (woken a), Ret (state a))).

Definition register (w : name) : prog Σ unit :=
  s ← register_cas w;
  if s =? WAITING then
    slot_write w ;;
    actual ← set_state (fun s => if s =? REGISTERING then WAITING else s);
    if actual =? REGISTERING then mret ()
    else if actual =? Z.lor REGISTERING WAKING then
      o ← slot_take;
      match o with
      | None => Crash
      | Some w => set_state (fun _ => WAITING) ;; wake_waker w
      end
    else Crash
  else if s =? WAKING then wake_waker w
  else if (s =? REGISTERING) || (s =? Z.lor REGISTERING WAKING) then mret ()
  else Crash.

Definition take : prog Σ (option name) :=
  s ← fetch_or_waking;
  if s =? WAITING then
    o ← slot_take;
    set_state (fun s => Z.land s (wnot WAKING)) ;;
    mret o
  else if (s =? REGISTERING) || (s =? Z.lor REGISTERING WAKING) || (s =? WAKING) then mret None
  else Crash.

Definition wake : prog Σ unit :=
  o ← take;
  match o with Some w => wake_waker w | None => mret () end.
End code.

(** * What the history says

    The waker that is stored, and those that must be woken or handed to the
    caller of [take]: a stored waker that is taken, and a waker whose
    registration was refused. *)

Definition note (s : option name * list name) (e : entry) : option name * list name :=
  match e with
  | ERegister w => (Some w, snd s)
  | ERefused w => (fst s, snd s ++ [w])
  | EIgnored _ => s
  | ETake => (None, snd s ++ option_list (fst s))
  end.
Definition history (l : list entry) : option name * list name := foldl note (None, []) l.
Definition stored (l : list entry) : option name := fst (history l).
Definition owed (l : list entry) : list name := snd (history l).

Lemma history_snoc l e : history (l ++ [e]) = note (history l) e.
Proof. apply foldl_snoc. Qed.

Definition is_ignored (e : entry) : bool := match e with EIgnored _ => true | _ => false end.

(** * The invariant

    Tokens: the right to register; a registration that has written nothing,
    is writing, has written, has seen [WAKING], is reading or has read
    ([j] = 0 .. 5); a take of
    [o] that has not read, is reading or has read; a waker that its holder
    must wake. *)

Inductive awtok := TIdle | TReg (w : name) (j : nat) | TTake (o : option name) (j : nat) | Hold (w : name).
#[export] Instance awtok_eq : EqDecision awtok.
Proof. solve_decision. Defined.
#[export] Instance awtok_countable : Countable awtok.
Proof.
  refine (inj_countable'
    (fun t => match t with TIdle => inl (inl ()) | TReg w j => inl (inr (w, j))
              | TTake o j => inr (inl (o, j)) | Hold w => inr (inr w) end)
    (fun x => match x with inl (inl _) => TIdle | inl (inr (w, j)) => TReg w j
              | inr (inl (o, j)) => TTake o j | inr (inr w) => Hold w end) _).
  by intros [].
Defined.

Inductive phase :=
| Waiting (o : option name)
| Registering (w : name) (j : nat) (o : option name) (flag : bool)
| Taking (o : option name) (j : nat).

Definition word (ph : phase) : Z :=
  match ph with
  | Waiting _ => 0 | Registering _ _ _ flag => if flag then 3 else 1 | Taking _ _ => 2
  end.
Definition cell_of (ph : phase) : slot :=
  match ph with
  | Waiting o | Registering _ 0 o _ | Taking o 0 => Stored o
  | Registering w 2 _ _ | Registering w 3 _ _ => Stored (Some w)
  | Registering _ 5 _ _ | Taking _ 2 => Stored None
  | _ => Busy
  end.
Definition held (ph : phase) : option name :=
  match ph with
  | Waiting o => o | Registering w _ _ flag => if flag then None else Some w | Taking _ _ => None
  end.
Definition debt (ph : phase) : list name :=
  match ph with
  | Waiting _ => [] | Registering w _ _ flag => if flag then [w] else [] | Taking o _ => option_list o
  end.
Definition owner (ph : phase) : option awtok :=
  match ph with Waiting _ => None | Registering w j _ _ => Some (TReg w j) | Taking o j => Some (TTake o j) end.
Definition well_formed (ph : phase) : Prop :=
  match ph with
  | Waiting _ => True | Registering _ j _ flag => (j <= 5)%nat /\ ((3 <= j)%nat -> flag = true)
  | Taking _ j => (j <= 2)%nat
  end.
Definition is_busy (t : awtok) : bool := match t with TReg _ _ | TTake _ _ => true | _ => false end.
Definition registering (ph : phase) : nat := match ph with Registering _ _ _ _ => 1 | _ => 0 end.

(** [registrars]: how many registrations may run at once. *)
Definition aw_tally (registrars : nat) (a : AtomicWaker) (c : awtok -> nat) : Prop :=
  exists ph, state a = word ph /\ waker a = cell_of ph /\ stored (log a) = held ph /\ well_formed ph /\
    (c TIdle + registering ph = registrars)%nat /\
    (forall t, is_busy t = true -> c t = if decide (owner ph = Some t) then 1 else 0)%nat /\
    (forall w, occ w (woken a) + c (Hold w) + occ w (debt ph) = occ w (owed (log a)))%nat /\
    ((registrars <= 1)%nat -> existsb is_ignored (log a) = false).

(** Changing the phase, the tokens [L] for [L'], with the same history. *)
Lemma tally_move r a a' c ph ph' L L' :
  state a = word ph -> waker a = cell_of ph -> stored (log a) = held ph ->
  (occ TIdle L + c TIdle + registering ph = r)%nat ->
  (forall t, is_busy t = true -> occ t L + c t = if decide (owner ph = Some t) then 1 else 0)%nat ->
  (forall w, occ w (woken a) + (occ (Hold w) L + c (Hold w)) + occ w (debt ph) = occ w (owed (log a)))%nat ->
  ((r <= 1)%nat -> existsb is_ignored (log a) = false) ->
  state a' = word ph' -> waker a' = cell_of ph' -> log a' = log a -> held ph' = held ph -> well_formed ph' ->
  (occ TIdle L' + registering ph' = occ TIdle L + registering ph)%nat ->
  (forall t, is_busy t = true -> occ t L' + (if decide (owner ph = Some t) then 1 else 0)
     = occ t L + if decide (owner ph' = Some t) then 1 else 0)%nat ->
  (forall w, occ w (woken a') + occ (Hold w) L' + occ w (debt ph') = occ w (woken a) + occ (Hold w) L + occ w (debt ph))%nat ->
  aw_tally r a' (fun t => occ t L' + c t)%nat.
Proof.
  intros Hs Hc Hh Hi Hb Hd Hn Hs' Hc' Hl Hh' Hw Hi' Hb' Hd'. exists ph'. rewrite Hl, Hh'. split_and!; try done.
  - lia.
  - intros t Ht. specialize (Hb t Ht). specialize (Hb' t Ht). repeat case_decide; lia.
  - intros w. specialize (Hd w). specialize (Hd' w). lia.
Qed.

Ltac busy_side := intros ? ?; cbn [occ owner] in *; repeat case_decide; simplify_eq; try done; lia.
Ltac debt_side := intros ?; cbn [occ debt app option_list option_rect woken] in *; rewrite ?occ_app; cbn [occ];
  repeat case_decide; simplify_eq; try done; lia.

(** [phase_of H t]: the phase of the holder of [t]. *)
Ltac phase_of H t :=
  destruct H as (ph & Hs & Hc & Hh & Hw & Hi & Hb & Hd & Hn);
  let Ho := fresh "Ho" in
  assert (owner ph = Some t) as Ho
    by (pose proof (Hb t eq_refl) as Ho; cbn [occ] in Ho; rewrite decide_True in Ho by done;
        destruct (decide (owner ph = Some t)); [done|lia]);
  cbn beta in Hi, Hb, Hd; destruct ph; cbn [owner] in Ho; revert Hi; simplify_eq; intros Hi.
Ltac move_to p :=
  lazymatch goal with Hb : forall t, is_busy t = true -> (occ t ?L0 + ?c0 t)%nat = _ |- _ =>
  eapply tally_move with (c := c0) (L := L0) (ph' := p); [eassumption|eassumption|eassumption|eassumption|exact Hb|eassumption|eassumption| | | | | | | |] end;
  cbn [state waker log woken]; try done;
  lazymatch goal with
  | |- forall t : awtok, _ => busy_side
  | |- forall w : name, _ => debt_side
  | |- _ => cbn [occ registering well_formed] in *; first [lia|(naive_solver lia)]
  end.

(** The same phase at another stage. *)
Definition at_stage (j : nat) (ph : phase) : phase :=
  match ph with
  | Waiting o => Waiting o | Registering w _ o flag => Registering w j o flag | Taking o _ => Taking o j
  end.
Ltac stage j := lazymatch goal with H : state _ = word ?p |- _ =>
  let q := eval cbn [at_stage] in (at_stage j p) in move_to q end.

Section moves.
Context (r : nat) (a : AtomicWaker) (c : awtok -> nat).
Local Abbreviation tally a L := (aw_tally r a (fun t => occ t L + c t)%nat).

Lemma tally_write_start w : tally a [TReg w 0] ->
  waker a <> Busy /\ tally (mkAW (state a) Busy (log a) (woken a)) [TReg w 1].
Proof.
  intros Ht. phase_of Ht (TReg w 0). rewrite Hc. split; [done|]. stage 1%nat.
Qed.

Lemma tally_write_end w : tally a [TReg w 1] -> tally (mkAW (state a) (Stored (Some w)) (log a) (woken a)) [TReg w 2].
Proof. intros Ht. phase_of Ht (TReg w 1). stage 2%nat. Qed.

Lemma tally_register_end w : tally a [TReg w 2] ->
  let a' := mkAW (if state a =? REGISTERING then WAITING else state a) (waker a) (log a) (woken a) in
  state a = REGISTERING /\ tally a' [TIdle] \/ state a = Z.lor REGISTERING WAKING /\ tally a' [TReg w 3].
Proof.
  intros Ht. phase_of Ht (TReg w 2). rewrite Hs. destruct flag; cbn [word]; [right|left]; (split; [done|]).
  - move_to (Registering w 3 o true).
  - move_to (Waiting (Some w)).
Qed.

Lemma tally_take_own w : tally a [TReg w 3] ->
  waker a = Stored (Some w) /\ tally (mkAW (state a) Busy (log a) (woken a)) [TReg w 4].
Proof.
  intros Ht. phase_of Ht (TReg w 3). rewrite Hc. split; [done|]. stage 4%nat.
Qed.

Lemma tally_taken_own w : tally a [TReg w 4] -> tally (mkAW (state a) (Stored None) (log a) (woken a)) [TReg w 5].
Proof. intros Ht. phase_of Ht (TReg w 4). stage 5%nat. Qed.

Lemma tally_release_own w : tally a [TReg w 5] ->
  tally (mkAW WAITING (waker a) (log a) (woken a)) [TIdle; Hold w].
Proof.
  intros Ht. phase_of Ht (TReg w 5). assert (flag = true) as -> by (apply Hw; lia).
  move_to (Waiting None).
Qed.

Lemma tally_take o : tally a [TTake o 0] ->
  waker a = Stored o /\ tally (mkAW (state a) Busy (log a) (woken a)) [TTake o 1].
Proof. intros Ht. phase_of Ht (TTake o 0). rewrite Hc. split; [done|]. stage 1%nat. Qed.

Lemma tally_taken o : tally a [TTake o 1] -> tally (mkAW (state a) (Stored None) (log a) (woken a)) [TTake o 2].
Proof. intros Ht. phase_of Ht (TTake o 1). stage 2%nat. Qed.

Lemma tally_release o : tally a [TTake o 2] ->
  tally (mkAW (Z.land (state a) (wnot WAKING)) (waker a) (log a) (woken a)) (match o with Some w => [Hold w] | None => [] end).
Proof. intros Ht. phase_of Ht (TTake o 2). rewrite Hs. match goal with |- context [match ?x with Some _ => _ | None => [] end] => destruct x end; move_to (Waiting None). Qed.

Lemma tally_wake w : tally a [Hold w] -> tally (mkAW (state a) (waker a) (log a) (woken a ++ [w])) [].
Proof.
  intros (ph & Hs & Hc & Hh & Hw & Hi & Hb & Hd & Hn). cbn beta in Hi, Hb, Hd.
  destruct ph as [o|w' j o flag|o j]; [move_to (Waiting o)|move_to (Registering w' j o flag)
    |move_to (Taking o j)].
Qed.

(** After an entry was added to the history. *)
Ltac after_note Hh Hb Hd Hn :=
  unfold stored, owed; cbn [log state waker woken word held] in *; rewrite history_snoc, existsb_app;
  cbn in *; rewrite ?Hh in *; cbn; split_and!; try done; try lia; try (naive_solver lia);
  lazymatch goal with
  | |- forall t : awtok, _ => let t := fresh in let Ht := fresh in intros t Ht; specialize (Hb t Ht); cbn in Hb;
      repeat case_decide; simplify_eq; try done; lia
  | |- forall x : name, _ => let x := fresh "x" in intros x; specialize (Hd x); rewrite ?app_nil_r, ?occ_app; cbn; repeat case_decide; simplify_eq; try done; lia
  | |- _ => intros; by rewrite Hn by lia
  end.

Lemma tally_register w : tally a [TIdle] ->
  let s := state a in
  (s = WAITING \/ s = REGISTERING \/ s = WAKING \/ s = Z.lor REGISTERING WAKING) /\
  tally (mkAW (if s =? WAITING then REGISTERING else s) (waker a) (log a ++ [entry_of w s]) (woken a))
    (if s =? WAITING then [TReg w 0] else if s =? WAKING then [TIdle; Hold w] else [TIdle])%Z.
Proof.
  intros (ph & Hs & Hc & Hh & Hw & Hi & Hb & Hd & Hn). cbn beta in Hi, Hb, Hd. cbv zeta.
  rewrite Hs. unfold stored, owed in *. destruct ph as [o|w' j o flag|o j].
  - split; [by left|]. exists (Registering w 0 o false). after_note Hh Hb Hd Hn.
  - split; [by destruct flag; auto|]. exists (Registering w' j o flag). destruct flag; after_note Hh Hb Hd Hn.
  - split; [by auto|]. exists (Taking o j). after_note Hh Hb Hd Hn.
Qed.

Lemma tally_fetch_or : tally a [] ->
  let s := state a in
  (s = WAITING \/ s = REGISTERING \/ s = WAKING \/ s = Z.lor REGISTERING WAKING) /\
  tally (mkAW (Z.lor s WAKING) (waker a) (log a ++ [ETake]) (woken a))
    (if s =? WAITING then [TTake (stored (log a)) 0] else [])%Z.
Proof.
  intros (ph & Hs & Hc & Hh & Hw & Hi & Hb & Hd & Hn). cbn beta in Hi, Hb, Hd. cbv zeta.
  rewrite Hs, Hh. unfold stored, owed in *. destruct ph as [o|w' j o flag|o j].
  - split; [by left|]. exists (Taking o 0). after_note Hh Hb Hd Hn.
  - split; [by destruct flag; auto|]. exists (Registering w' j o true). destruct flag; after_note Hh Hb Hd Hn.
  - split; [by auto|]. exists (Taking o j). after_note Hh Hb Hd Hn.
Qed.
End moves.

(** * The operations, in a larger state

    [tk] are the tokens of this [AtomicWaker] among those of the whole, whose
    invariant [I] depends on it through its history only. *)

Section tokens.
Context {Σ : Type} (get : Σ -> AtomicWaker) (put : AtomicWaker -> Σ -> Σ).
Context {K} `{Countable K} (tk : awtok -> K) (I : Σ -> gmultiset K -> Prop) (registrars : nat).

Definition aw_toks (L : list awtok) : gmultiset K := list_to_set_disj (tk <$> L).
Local Abbreviation toks L := (aw_toks L).

Lemma aw_toks_nil m : toks [] ⊎ m = m.
Proof. apply (left_id_L ∅ (⊎)). Qed.
Lemma aw_toks_app L L' m : toks (L ++ L') ⊎ m = toks L' ⊎ (toks L ⊎ m).
Proof. unfold aw_toks. rewrite fmap_app, list_to_set_disj_app. multiset_solver. Qed.

Class AwPart := {
  aw_of σ L m : I σ (toks L ⊎ m) -> aw_tally registrars (get σ) (fun t => occ t L + multiplicity (tk t) m)%nat;
  aw_put σ a L L' m : I σ (toks L ⊎ m) -> log a = log (get σ) ->
    aw_tally registrars a (fun t => occ t L' + multiplicity (tk t) m)%nat -> I (put a σ) (toks L' ⊎ m) }.

(** The invariant after an access to the word that adds [e] to the history;
    [m' n] are the caller's other tokens once it knows the entry's number. *)
Definition notes (P : entry -> Prop) (m : gmultiset K) (m' : nat -> gmultiset K) : Prop :=
  forall σ a e L L' fr, P e -> I σ (toks L ⊎ (m ⊎ fr)) -> log a = log (get σ) ++ [e] ->
    aw_tally registrars a (fun t => occ t L' + multiplicity (tk t) (m ⊎ fr))%nat ->
    I (put a σ) (toks L' ⊎ (m' (length (log (get σ))) ⊎ fr)).

Context {HP : AwPart}.

Lemma ok_on_aw {A} (f : AtomicWaker -> option (AtomicWaker * prog Σ A)) L m (Q : gmultiset K -> A -> Prop) :
  (forall a c, aw_tally registrars a (fun t => occ t L + c t)%nat ->
     match f a with
     | None => True
     | Some (a', p) => exists x L', p = Ret x /\ log a' = log a /\
         aw_tally registrars a' (fun t => occ t L' + c t)%nat /\ Q (toks L' ⊎ m) x
     end) ->
  ok I (toks L ⊎ m) (on_aw get put f) Q.
Proof.
  intros Hf σ fr HI. rewrite <- (assoc_L (⊎)) in HI. pose proof (aw_of _ _ _ HI) as Ht.
  specialize (Hf _ (fun t => multiplicity (tk t) (m ⊎ fr)) Ht).
  destruct (f (get σ)) as [[a' p]|]; [|done]. destruct Hf as (x & L' & -> & Hl & Ht' & HQ).
  right. exists (toks L' ⊎ m). split; [|done]. rewrite <- (assoc_L (⊎)). by eapply aw_put.
Qed.

Lemma ok_wake_waker w m (Q : gmultiset K -> unit -> Prop) :
  Q m () -> ok I (toks [Hold w] ⊎ m) (wake_waker get put w) Q.
Proof.
  intros HQ. apply ok_on_aw. intros a c Ht. exists (), []. split_and!; [done..|by apply tally_wake|].
  by rewrite aw_toks_nil.
Qed.

(** [register]: one entry, of one of three kinds; a single registrar is never
    ignored. *)
Lemma ok_register w m m' (Q : gmultiset K -> unit -> Prop) :
  notes (fun e => e = ERegister w \/ e = ERefused w \/ e = EIgnored w) m m' ->
  (forall n, Q (toks [TIdle] ⊎ m' n) ()) ->
  ok I (toks [TIdle] ⊎ m) (register get put w) Q.
Proof.
  intros Hm HQ. apply ok_bind. intros σ fr HI. rewrite <- (assoc_L (⊎)) in HI.
  pose proof (aw_of _ _ _ HI) as Ht. apply (tally_register _ _ _ w) in Ht as [Hs Ht]. set (n := length (log (get σ))).
  assert (He : entry_of w (state (get σ)) = ERegister w \/ entry_of w (state (get σ)) = ERefused w \/
               entry_of w (state (get σ)) = EIgnored w) by (unfold entry_of; repeat case_match; auto).
  right. exists (toks (if state (get σ) =? WAITING then [TReg w 0] else if state (get σ) =? WAKING then [TIdle; Hold w] else [TIdle]) ⊎ m' n).
  split; [rewrite <- (assoc_L (⊎)); by apply (Hm _ _ _ _ _ _ He HI)|].
  specialize (HQ n). clearbody n. clear Ht HI He. cbn [ok].
  destruct (Z.eqb_spec (state (get σ)) WAITING) as [E|].
  - apply ok_bind, ok_bind, ok_on_aw. clear -HP HQ. intros a c Ht. destruct (tally_write_start _ _ _ _ Ht) as [Hb Ht'].
    destruct (waker a) as [o|] eqn:Ew; [|done]. eexists (), _. split_and!; [done..|exact Ht'|].
    apply ok_on_aw. clear -HP HQ. intros a c Ht. eexists (), _. split_and!; [done..|by apply tally_write_end|].
    apply ok_bind, ok_on_aw. clear -HP HQ. intros a c Ht. cbn beta iota.
    apply tally_register_end in Ht as [[Hs Ht]|[Hs Ht]]; rewrite Hs in *; (eexists _, _; split_and!; [done..|exact Ht|]);
      [done|]. cbn -[aw_toks register set_state wake_waker slot_take].
    apply ok_bind, ok_bind, ok_on_aw. clear -HP HQ. intros a c Ht. destruct (tally_take_own _ _ _ _ Ht) as [-> Ht'].
    eexists _, _. split_and!; [done..|exact Ht'|].
    apply ok_on_aw. clear -HP HQ. intros a c Ht. eexists _, _. split_and!; [done..|by apply tally_taken_own|].
    apply ok_bind, ok_on_aw. clear -HP HQ. intros a c Ht. eexists _, _. split_and!; [done..|by apply tally_release_own|].
    rewrite (aw_toks_app [TIdle] [Hold w]).
    by apply ok_wake_waker.
  - destruct (Z.eqb_spec (state (get σ)) WAKING).
    + rewrite (aw_toks_app [TIdle] [Hold w]).
      by apply ok_wake_waker.
    + destruct Hs as [? | [-> | [? | ->]]]; [done|exact HQ|done|exact HQ].
Qed.

Definition held_by (o : option name) : list awtok := match o with Some w => [Hold w] | None => [] end.

Lemma ok_take m m' (Q : gmultiset K -> option name -> Prop) :
  notes (fun e => e = ETake) m m' -> (forall n o, Q (toks (held_by o) ⊎ m' n) o) -> ok I m (take get put) Q.
Proof.
  intros Hm HQ. rewrite <- (aw_toks_nil m). apply ok_bind. intros σ fr HI. rewrite <- (assoc_L (⊎)) in HI.
  pose proof (aw_of _ _ _ HI) as Ht. apply tally_fetch_or in Ht as [Hs Ht]. set (n := length (log (get σ))).
  right. exists (toks (if state (get σ) =? WAITING then [TTake (stored (log (get σ))) 0] else []) ⊎ m' n).
  split; [rewrite <- (assoc_L (⊎)); by apply (Hm _ _ _ _ _ _ eq_refl HI)|].
  specialize (HQ n). clearbody n. clear Ht HI. cbn [ok].
  destruct (Z.eqb_spec (state (get σ)) WAITING) as [E|].
  - generalize (stored (log (get σ))) as o. intros o.
    apply ok_bind, ok_bind, ok_on_aw. clear -HP HQ. intros a c Ht. destruct (tally_take _ _ _ _ Ht) as [-> Ht'].
    eexists _, _. split_and!; [done..|exact Ht'|].
    apply ok_on_aw. clear -HP HQ. intros a c Ht. eexists _, _. split_and!; [done..|by apply tally_taken|].
    apply ok_bind, ok_on_aw. clear -HP HQ. intros a c Ht. eexists _, _. split_and!; [done..|by apply tally_release|].
    apply HQ.
  - destruct Hs as [? | [-> | [-> | ->]]]; [done|apply (HQ None)..].
Qed.

Lemma ok_wake m m' (Q : gmultiset K -> unit -> Prop) :
  notes (fun e => e = ETake) m m' -> (forall n, Q (m' n) ()) -> ok I m (wake get put) Q.
Proof.
  intros Hm HQ. apply ok_bind. eapply ok_take; [done|]. intros n [w|]; cbn [held_by].
  - apply ok_wake_waker, HQ.
  - rewrite aw_toks_nil. apply HQ.
Qed.
End tokens.

(** * An [AtomicWaker] of its own

    A thread owns rights to register and the wakers that [take] gave it. *)

Inductive op := Register (w : name) | Take | Wake.
Record client := mkClient { rights : nat; taken : list name }.

Definition aw_code (o : op) : prog AtomicWaker (option name) :=
  match o with
  | Register w => register id (fun a _ => a) w ;; mret None
  | Take => take id (fun a _ => a)
  | Wake => wake id (fun a _ => a) ;; mret None
  end.
Definition aw_start (c : client) (o : op) : option client :=
  match o with
  | Register _ => match rights c with O => None | S n => Some (mkClient n (taken c)) end
  | _ => Some c
  end.
Definition aw_finish (c : client) (o : op) (r : option name) : client :=
  match o with
  | Register _ => mkClient (S (rights c)) (taken c)
  | Take => mkClient (rights c) (option_list r ++ taken c)
  | Wake => c
  end.
Definition aw_pool (rs : list nat) : config AtomicWaker op (option name) client :=
  Config aw_new ((fun n => Thread (mkClient n []) None) <$> rs).

Section spec.
Context (registrars : nat).
Local Abbreviation toks := (list_to_set_disj (A:=awtok) (C:=gmultiset awtok)).

Definition aw_inv (a : AtomicWaker) (m : gmultiset awtok) : Prop := aw_tally registrars a (fun t => multiplicity t m).

Lemma aw_tally_ext a c c' : (forall t, c t = c' t) -> aw_tally registrars a c -> aw_tally registrars a c'.
Proof.
  intros Hc (ph & ? & ? & ? & ? & ? & Hb & Hd & ?). exists ph. split_and!; try done.
  - by rewrite <- Hc.
  - intros t Ht. rewrite <- Hc. by apply Hb.
  - intros w. rewrite <- Hc. apply Hd.
Qed.

Lemma aw_inv_toks a L m : aw_inv a (toks L ⊎ m) <-> aw_tally registrars a (fun t => occ t L + multiplicity t m)%nat.
Proof. split; apply aw_tally_ext; intros t; by rewrite multiplicity_disj_union, multiplicity_list. Qed.

Lemma aw_toks_id L : aw_toks id L = toks L.
Proof. unfold aw_toks. by rewrite list_fmap_id. Qed.

#[local] Instance aw_alone : AwPart id (fun a _ => a) id aw_inv registrars.
Proof.
  split.
  - intros σ L m. rewrite aw_toks_id. apply aw_inv_toks.
  - intros σ a L L' m _ _. rewrite aw_toks_id. apply aw_inv_toks.
Qed.

Lemma aw_notes P : notes id (fun a _ => a) id aw_inv registrars P ∅ (fun _ => ∅).
Proof. intros σ a e L L' fr _ _ _ Ht. rewrite aw_toks_id. by apply aw_inv_toks. Qed.

Definition awtokens (c : client) : gmultiset awtok := toks (replicate (rights c) TIdle ++ (Hold <$> taken c)).

Lemma aw_ops_ok : ops_ok aw_code aw_start aw_finish aw_inv awtokens.
Proof.
  intros [n l] o c'. unfold aw_start, awtokens. cbn [rights taken]. destruct o as [w| |].
  - destruct n as [|n]; [done|]. intros [= <-]. exists (toks [TIdle]). cbn [rights taken]. split; [multiset_solver|].
    apply ok_bind. rewrite <- (aw_toks_id [TIdle]), <- (right_id_L ∅ (⊎) (aw_toks id _)).
    eapply (ok_register id (fun a _ => a) id aw_inv registrars); [apply aw_notes|]. intros k. rewrite aw_toks_id.
    cbn [ok mret prog_mret aw_finish rights taken]. cbn beta. multiset_solver.
  - intros [= <-]. exists ∅. split; [by rewrite (right_id_L ∅ (⊎))|].
    eapply (ok_take id (fun a _ => a) id aw_inv registrars); [apply aw_notes|]. intros k o. rewrite aw_toks_id.
    destruct o; cbn [aw_finish rights taken held_by option_list option_rect app]; cbn beta;
      rewrite ?fmap_cons, ?list_to_set_disj_app, ?list_to_set_disj_cons, ?list_to_set_disj_nil; multiset_solver.
  - intros [= <-]. exists ∅. split; [by rewrite (right_id_L ∅ (⊎))|].
    apply ok_bind. eapply (ok_wake id (fun a _ => a) id aw_inv registrars); [apply aw_notes|]. intros k.
    cbn [ok mret prog_mret aw_finish rights taken]. cbn beta. multiset_solver.
Qed.

Lemma aw_pool_inv rs : sum_list rs = registrars -> pool_inv aw_finish aw_inv awtokens (aw_pool rs).
Proof.
  intros Hrs. right. exists ((fun n => awtokens (mkClient n [])) <$> rs). split.
  - apply Forall2_fmap, Forall_Forall2_diag, Forall_forall. done.
  - assert (Hm : forall t, multiplicity t (⋃+ ((fun n => awtokens (mkClient n [])) <$> rs)) = if bool_decide (t = TIdle) then sum_list rs else 0%nat).
    { intros t. clear Hrs. induction rs as [|n rs IH]; [cbn; rewrite multiplicity_empty; by case_bool_decide|].
      rewrite fmap_cons. change (⋃+ (?x :: ?l)) with (x ⊎ ⋃+ l). rewrite multiplicity_disj_union, IH.
      unfold awtokens. cbn [rights taken]. rewrite app_nil_r, multiplicity_list, occ_replicate. by case_bool_decide. }
    exists (Waiting None). split_and!; try done.
    + rewrite Hm, bool_decide_eq_true_2 by done. cbn [registering]. lia.
    + intros t Ht. rewrite Hm. by destruct t.
    + intros w. by rewrite Hm.
Qed.

Lemma occ_hold t l : occ t (Hold <$> l) = match t with Hold w => occ w l | _ => 0%nat end.
Proof.
  induction l as [|x l IH]; [by destruct t|]. rewrite fmap_cons. cbn [occ]. rewrite IH.
  destruct t; repeat case_decide; simplify_eq; done.
Qed.

Lemma awtokens_count c t : multiplicity t (awtokens c)
  = match t with TIdle => rights c | Hold w => occ w (taken c) | _ => 0%nat end.
Proof.
  unfold awtokens. rewrite multiplicity_list, occ_app, occ_replicate, occ_hold.
  destruct t; case_bool_decide; try done; lia.
Qed.
End spec.

(** C8: in every interleaving of registrations, takes and wakes by any
    number of threads: the cell is accessed by one thread at a time and no
    debug assertion fails; while at most one registration runs at a time,
    none is ignored; and at rest the word is [WAITING], the cell holds the
    waker registered last unless a take came after it, and the wakers that
    were woken or handed to a caller of [take] are exactly those that were
    taken from the cell or refused because of a wake under way: no wake-up
    is lost and none is invented. *)
Theorem atomic_waker_accounts (rs : list nat) (c : config AtomicWaker op (option name) client) :
  reachable aw_code aw_start aw_finish (aw_pool rs) c ->
  existsb thread_aborted (threads c) = false ->
  existsb thread_crashed (threads c) = false /\
  ((sum_list rs <= 1)%nat -> existsb is_ignored (log (shared c)) = false) /\
  (Forall (fun t => running t = None) (threads c) ->
   state (shared c) = WAITING /\ waker (shared c) = Stored (stored (log (shared c))) /\
   woken (shared c) ++ (threads c ≫= fun t => taken (owns t)) ≡ₚ owed (log (shared c))).
Proof.
  intros [es Hr] Ha.
  assert (Hinv : pool_inv aw_finish (aw_inv (sum_list rs)) awtokens c).
  { eapply run_inv; [by apply aw_ops_ok| |exact Hr]. by apply aw_pool_inv. }
  split; [by eapply pool_inv_no_crash|].
  destruct (pool_inv_elim _ _ _ c Hinv Ha) as (ms & HF & ph & Hs & Hc & Hh & Hw & Hi & Hb & Hd & Hn).
  split; [exact Hn|]. intros Hidle.
  rewrite (idle_tokens _ _ awtokens _ _ HF Hidle) in Hb, Hd.
  assert (Hno : forall t, is_busy t = true -> multiplicity t (⋃+ ((fun t => awtokens (owns t)) <$> threads c)) = 0%nat).
  { intros t Ht. apply owned_none. intros x. rewrite awtokens_count. by destruct t. }
  assert (exists o, ph = Waiting o) as [o ->].
  { destruct ph as [o|w j o flag|o j]; [by eexists|..];
      [specialize (Hb (TReg w j) eq_refl)|specialize (Hb (TTake o j) eq_refl)];
      cbn beta in Hb; rewrite Hno, decide_True in Hb by done; done. }
  split; [done|split; [by rewrite Hc, Hh|]]. apply Permutation_occ. intros w. specialize (Hd w). cbn [debt occ] in Hd.
  rewrite occ_app, occ_bind, <- Hd, (owned_count awtokens (Hold w) (fun c => occ w (taken c))); [lia|].
  intros x. by rewrite awtokens_count.
Qed.

(** A registration is interrupted by a wake: the registering thread wakes its
    own waker.  A waker registered at rest is woken by the next wake; a
    second one is taken. *)
Definition aw_run : list (Conc.event op) :=
  [EStart 0%nat (Register 5); EStep 0%nat false; EStep 0%nat false;
   EStart 1%nat Wake; EStep 1%nat false; EStep 1%nat false] ++ replicate 7 (EStep 0%nat false) ++
  [EStart 0%nat (Register 6)] ++ replicate 5 (EStep 0%nat false) ++
  [EStart 1%nat Wake] ++ replicate 6 (EStep 1%nat false) ++
  [EStart 0%nat (Register 7)] ++ replicate 5 (EStep 0%nat false) ++
  [EStart 1%nat Take] ++ replicate 5 (EStep 1%nat false).
Definition aw_final : config AtomicWaker op (option name) client :=
  after aw_code aw_start aw_finish aw_run (aw_pool [1; 0]%nat).

Lemma atomic_waker_accounts_witness :
  reachable aw_code aw_start aw_finish (aw_pool [1; 0]%nat) aw_final /\
  owns <$> threads aw_final = [mkClient 1 []; mkClient 0 [7%nat]] /\ woken (shared aw_final) = [5; 6]%nat /\
  existsb is_ignored (log (shared aw_final)) = false /\
  woken (shared aw_final) ++ (threads aw_final ≫= fun t => taken (owns t)) ≡ₚ owed (log (shared aw_final)).
Proof.
  assert (Hr : reachable aw_code aw_start aw_finish (aw_pool [1; 0]%nat) aw_final)
    by (apply after_reachable; vm_compute; reflexivity).
  destruct (atomic_waker_accounts [1; 0]%nat aw_final Hr ltac:(vm_compute; reflexivity)) as (_ & Hi & Hidle).
  split; [exact Hr|split; [vm_compute; reflexivity|split; [vm_compute; reflexivity|split]]].
  - apply Hi. cbn. lia.
  - apply Hidle. apply all_idle. vm_compute. reflexivity.
Defined.
