(* ===== verification/Pipe.v ===== *)
(** [runtime/blocking/blocking.rs]: the pipe of bytes between the blocking
    thread and the asynchronous task.

    A ring of [cap] bytes with one [Reader] and one [Writer]; the positions
    run over two laps, so that a full ring differs from an empty one.  Each
    side keeps a copy of the other's position, and an [AtomicWaker].  A byte
    of the ring that was never written is [None]; the slices the two sides
    hold are part of the state, so that overlapping slices, or a slice of
    uninitialised bytes, are a [Crash].

    The two ends of the transfer are scripts: what [dest.write] answers
    ([Ok k]: it takes at most [k] bytes), what [src.read] answers.  A script
    that is over means a full destination, or the end of the source. *)

From S2P Require Import Prelude Conc AtomicWaker.

Record Pipe := mkPipe {
  head : Z; tail : Z; reader : AtomicWaker; writer : AtomicWaker; closed : bool;
  buffer : list (option Z);
  read_slice : option (Z * Z); write_slice : option (Z * Z) }.

Record Reader := mkReader { r_head : Z; r_tail : Z }.
Record Writer := mkWriter { w_head : Z; w_tail : Z; zeroed_until : Z }.

(** [pipe(cap)]; [None] panics. *)
Definition pipe (cap : Z) : option (Pipe * Reader * Writer) :=
  if negb (0 <? cap) then None
  else if negb (cap * 2 <=? usize_MAX) then None
  else Some (mkPipe 0 0 aw_new aw_new false (replicate (Z.to_nat cap) None) None None, mkReader 0 0, mkWriter 0 0 0).

Definition put_reader (a : AtomicWaker) (σ : Pipe) : Pipe :=
  mkPipe (head σ) (tail σ) a (writer σ) (closed σ) (buffer σ) (read_slice σ) (write_slice σ).
Definition put_writer (a : AtomicWaker) (σ : Pipe) : Pipe :=
  mkPipe (head σ) (tail σ) (reader σ) a (closed σ) (buffer σ) (read_slice σ) (write_slice σ).

(** ** Atomic accesses *)

Definition load_head : prog Pipe Z := atomic (fun σ => (head σ, σ)).
Definition load_tail : prog Pipe Z := atomic (fun σ => (tail σ, σ)).
Definition load_closed : prog Pipe bool := atomic (fun σ => (closed σ, σ)).
Definition store_head (h : Z) : prog Pipe unit := atomic (fun σ => ((),
  mkPipe h (tail σ) (reader σ) (writer σ) (closed σ) (buffer σ) (read_slice σ) (write_slice σ))).
Definition store_tail (t : Z) : prog Pipe unit := atomic (fun σ => ((),
  mkPipe (head σ) t (reader σ) (writer σ) (closed σ) (buffer σ) (read_slice σ) (write_slice σ))).
Definition store_closed : prog Pipe unit := atomic (fun σ => ((),
  mkPipe (head σ) (tail σ) (reader σ) (writer σ) true (buffer σ) (read_slice σ) (write_slice σ))).

(** ** Accesses to the ring *)

Definition overlaps (a b : option (Z * Z)) : bool :=
  match a, b with
  | Some (i, n), Some (j, m) => Z.max i j <? Z.min (i + n) (j + m)
  | _, _ => false
  end.

Definition slice (from n : Z) (l : list (option Z)) : list (option Z) :=
  firstn (Z.to_nat n) (skipn (Z.to_nat from) l).
Definition initialised (from n : Z) (l : list (option Z)) : bool :=
  (length (slice from n l) =? Z.to_nat n)%nat && forallb (fun c => match c with Some _ => true | None => false end) (slice from n l).
Definition bytes_of (l : list (option Z)) : list Z := omap id l.

Definition claim_read (from n : Z) : prog Pipe unit :=
  Act (fun σ => if overlaps (Some (from, n)) (write_slice σ) || negb (initialised from n (buffer σ)) then Some (σ, Crash)
                else Some (mkPipe (head σ) (tail σ) (reader σ) (writer σ) (closed σ) (buffer σ) (Some (from, n)) (write_slice σ), Ret ())).
(** The destination has looked at the slice. *)
Definition release_read (from n : Z) : prog Pipe (list Z) :=
  atomic (fun σ => (bytes_of (slice from n (buffer σ)),
    mkPipe (head σ) (tail σ) (reader σ) (writer σ) (closed σ) (buffer σ) None (write_slice σ))).

(** [write_bytes(0, n)] *)
Definition zero (from n : Z) : prog Pipe unit :=
  Act (fun σ => if overlaps (Some (from, n)) (read_slice σ) then Some (σ, Crash)
                else Some (mkPipe (head σ) (tail σ) (reader σ) (writer σ) (closed σ)
                             (list_inserts (Z.to_nat from) (replicate (Z.to_nat n) (Some 0)) (buffer σ))
                             (read_slice σ) (write_slice σ), Ret ())).
Definition claim_write (from n : Z) : prog Pipe unit :=
  Act (fun σ => if overlaps (Some (from, n)) (read_slice σ) || negb (initialised from n (buffer σ)) then Some (σ, Crash)
                else Some (mkPipe (head σ) (tail σ) (reader σ) (writer σ) (closed σ) (buffer σ) (read_slice σ) (Some (from, n)), Ret ())).
(** The source has written [bs] into the slice. *)
Definition release_write (from : Z) (bs : list Z) : prog Pipe unit :=
  atomic (fun σ => ((),
    mkPipe (head σ) (tail σ) (reader σ) (writer σ) (closed σ)
      (list_inserts (Z.to_nat from) (Some <$> bs) (buffer σ)) (read_slice σ) None)).

Section code.
Context (cap : Z).

Definition distance (a b : Z) : Z := if a <=? b then b - a else 2 * cap - (a - b).
Definition real_index (i : Z) : Z := if i <? cap then i else i - cap.

(** [maybe_yield]: one time in a hundred the task wakes itself and answers
    [Pending]. *)
Definition maybe_yield : prog Pipe (poll unit) := Pick (fun b => mret (if b : bool then Pending else Ready ())).

(** What a call returns: the reader, the answer, the bytes the destination
    accepted, whether the reader sleeps until it is woken, and the waker it
    took back and dropped. *)
Record drained := mkDrained {
  the_reader : Reader; d_answer : poll (result Z unit); accepted : list Z; r_sleeps : bool; r_dropped : option name }.

Fixpoint drain_loop (dest : list (result nat unit)) (r : Reader) (count : Z) (acc : list Z) (o : option name)
    : prog Pipe drained :=
  let n := Z.min (128 * 1024) (Z.min (distance (r_head r) (r_tail r)) (cap - real_index (r_head r))) in
  claim_read (real_index (r_head r)) n ;;
  bs ← release_read (real_index (r_head r)) n;
  match dest with
  | [] => mret (mkDrained r (Ready (Ok count)) acc false o)
  | Err e :: _ => mret (mkDrained r (Ready (Err e)) acc false o)
  | Ok k :: dest =>
      let n := Z.min (Z.of_nat k) n in
      let count := count + n in
      if n =? 0 then mret (mkDrained r (Ready (Ok count)) acc false o)
      else
        let h := if r_head r + n <? 2 * cap then r_head r + n else 0 in
        store_head h ;;
        wake writer put_writer ;;
        drain_loop dest (mkReader h (r_tail r)) count (acc ++ firstn (Z.to_nat n) bs) o
  end.

Definition drain_ready (dest : list (result nat unit)) (r : Reader) : prog Pipe drained :=
  o ← take reader put_reader;
  y ← maybe_yield;
  match y with
  | Pending => mret (mkDrained r Pending [] false o)
  | Ready _ => drain_loop dest r 0 [] o
  end.

Definition drain (w : name) (dest : list (result nat unit)) (r : Reader) : prog Pipe drained :=
  if distance (r_head r) (r_tail r) =? 0 then
    t ← load_tail;
    let r := mkReader (r_head r) t in
    if distance (r_head r) (r_tail r) =? 0 then
      register reader put_reader w ;;
      t ← load_tail;
      let r := mkReader (r_head r) t in
      if distance (r_head r) (r_tail r) =? 0 then
        c ← load_closed;
        if c : bool then mret (mkDrained r (Ready (Ok 0)) [] false None)
        else mret (mkDrained r Pending [] true None)
      else drain_ready dest r
    else drain_ready dest r
  else drain_ready dest r.

(** [entered]: the bytes that entered the ring; the source may have given
    more, which are lost when the reader has gone. *)
Record filled := mkFilled {
  the_writer : Writer; f_answer : poll (result Z unit); entered : list Z; w_sleeps : bool; w_dropped : option name }.

Fixpoint fill_loop (src : list (result (list Z) unit)) (w : Writer) (count : Z) (acc : list Z) (o : option name)
    : prog Pipe filled :=
  let n := Z.min (128 * 1024) (Z.min (zeroed_until w * 2 + 4096)
             (Z.min (cap - distance (w_head w) (w_tail w)) (cap - real_index (w_tail w)))) in
  let from := real_index (w_tail w) in
  let to := from + n in
  z ← (if zeroed_until w <? to then zero (zeroed_until w) (to - zeroed_until w) ;; mret to else mret (zeroed_until w));
  let w := mkWriter (w_head w) (w_tail w) z in
  claim_write from n ;;
  match src with
  | [] => release_write from [] ;; mret (mkFilled w (Ready (Ok count)) acc false o)
  | Err e :: _ => release_write from [] ;; mret (mkFilled w (Ready (Err e)) acc false o)
  | Ok bs :: src =>
      let bs := firstn (Z.to_nat n) bs in
      release_write from bs ;;
      let n := Z.of_nat (length bs) in
      let count := count + n in
      if n =? 0 then mret (mkFilled w (Ready (Ok count)) acc false o)
      else
        c ← load_closed;
        if c : bool then mret (mkFilled w (Ready (Ok count)) acc false o)
        else
          let t := if w_tail w + n <? 2 * cap then w_tail w + n else 0 in
          store_tail t ;;
          wake reader put_reader ;;
          fill_loop src (mkWriter (w_head w) t (zeroed_until w)) count (acc ++ bs) o
  end.

Definition fill_ready (src : list (result (list Z) unit)) (w : Writer) : prog Pipe filled :=
  o ← take writer put_writer;
  y ← maybe_yield;
  match y with
  | Pending => mret (mkFilled w Pending [] false o)
  | Ready _ => fill_loop src w 0 [] o
  end.

Definition fill (cx : name) (src : list (result (list Z) unit)) (w : Writer) : prog Pipe filled :=
  c ← load_closed;
  if c : bool then mret (mkFilled w (Ready (Ok 0)) [] false None)
  else if distance (w_head w) (w_tail w) =? cap then
    h ← load_head;
    let w := mkWriter h (w_tail w) (zeroed_until w) in
    if distance (w_head w) (w_tail w) =? cap then
      register writer put_writer cx ;;
      h ← load_head;
      let w := mkWriter h (w_tail w) (zeroed_until w) in
      if distance (w_head w) (w_tail w) =? cap then
        c ← load_closed;
        if c : bool then mret (mkFilled w (Ready (Ok 0)) [] false None)
        else mret (mkFilled w Pending [] true None)
      else fill_ready src w
    else fill_ready src w
  else fill_ready src w.

Definition drop_reader : prog Pipe unit := store_closed ;; wake writer put_writer.
Definition drop_writer : prog Pipe unit := store_closed ;; wake reader put_reader.
End code.

(** ** The two sides and their calls

    The reader and the writer belong to one thread each.  [CAway] is a thread
    whose call is under way.  [got] and [sent] are the bytes of its finished
    calls, [dropped] the wakers it took back. *)

Inductive client :=
| CReader (alive : bool) (r : Reader) (got : list Z) (sleeps : bool) (dropped : list name)
| CWriter (alive : bool) (w : Writer) (sent : list Z) (sleeps : bool) (dropped : list name)
| CAway (reading : bool) (bytes : list Z) (dropped : list name).

#[export] Instance Reader_eq : EqDecision Reader.
Proof. solve_decision. Defined.
#[export] Instance Writer_eq : EqDecision Writer.
Proof. solve_decision. Defined.

Inductive op :=
| Drain (cx : name) (dest : list (result nat unit)) (r : Reader)
| Fill (cx : name) (src : list (result (list Z) unit)) (w : Writer)
| DropReader (r : Reader)
| DropWriter (w : Writer).
Inductive res := RDrain (d : drained) | RFill (f : filled) | RDropped.

Definition pipe_code (cap : Z) (o : op) : prog Pipe res :=
  match o with
  | Drain cx dest r => d ← drain cap cx dest r; mret (RDrain d)
  | Fill cx src w => f ← fill cap cx src w; mret (RFill f)
  | DropReader _ => drop_reader ;; mret RDropped
  | DropWriter _ => drop_writer ;; mret RDropped
  end.

Definition pipe_start (c : client) (o : op) : option client :=
  match c, o with
  | CReader true r got _ dropped, Drain _ _ r' | CReader true r got _ dropped, DropReader r' =>
      if decide (r = r') then Some (CAway true got dropped) else None
  | CWriter true w sent _ dropped, Fill _ _ w' | CWriter true w sent _ dropped, DropWriter w' =>
      if decide (w = w') then Some (CAway false sent dropped) else None
  | _, _ => None
  end.

Definition pipe_finish (c : client) (o : op) (x : res) : client :=
  match c, o, x with
  | CAway _ got dropped, Drain _ _ _, RDrain d =>
      CReader true (the_reader d) (got ++ accepted d) (r_sleeps d) (option_list (r_dropped d) ++ dropped)
  | CAway _ sent dropped, Fill _ _ _, RFill f =>
      CWriter true (the_writer f) (sent ++ entered f) (w_sleeps f) (option_list (w_dropped f) ++ dropped)
  | CAway _ got dropped, DropReader r, _ => CReader false r got false dropped
  | CAway _ sent dropped, DropWriter w, _ => CWriter false w sent false dropped
  | _, _, _ => c
  end.

Definition pipe_pool (cap : Z) : option (config Pipe op res client) :=
  '(σ, r, w) ← pipe cap;
  Some (Config σ [Thread (CReader true r [] false []) None; Thread (CWriter true w [] false []) None]).

(** The cells between the two positions, and the wakers each side took
    back. *)
Definition contents (cap : Z) (σ : Pipe) : list (option Z) :=
  (fun i => nth (Z.to_nat ((head σ + Z.of_nat i) mod cap)) (buffer σ) None) <$>
  seq 0 (Z.to_nat (distance cap (head σ) (tail σ))).
Definition back_r (c : client) : list name :=
  match c with CReader _ _ _ _ d | CAway true _ d => d | _ => [] end.
Definition back_w (c : client) : list name :=
  match c with CWriter _ _ _ _ d | CAway false _ d => d | _ => [] end.
