(* ===== verification/PipeProof.v ===== *)
(** [runtime/blocking/blocking.rs]: the pipe delivers the bytes in order.

    The invariant relates the ring to the bytes that entered and left it; the
    theorem [pipe_in_order] is for every interleaving of the reader's and the
    writer's calls.  [pipe_lost_tail] is a run in which the reader is told
    that the pipe has ended although bytes are left in it. *)

From S2P Require Import Prelude Conc AtomicWaker Pipe.

(** * Positions *)

Section positions.
Context (cap : Z) (Hcap : 0 < cap).

Lemma distance_mod H T : 0 <= T - H < 2 * cap -> distance cap (H mod (2 * cap)) (T mod (2 * cap)) = T - H.
Proof.
  intros Hd. unfold distance. pose proof (Z.mod_pos_bound H (2 * cap) ltac:(lia)).
  pose proof (Z.div_mod H (2 * cap) ltac:(lia)). destruct (Z.lt_ge_cases (H mod (2 * cap) + (T - H)) (2 * cap)).
  - rewrite <- (Z.mod_unique T (2 * cap) (H / (2 * cap)) (H mod (2 * cap) + (T - H))) by lia.
    destruct (Z.leb_spec (H mod (2 * cap)) (H mod (2 * cap) + (T - H))); lia.
  - rewrite <- (Z.mod_unique T (2 * cap) (H / (2 * cap) + 1) (H mod (2 * cap) + (T - H) - 2 * cap)) by lia.
    destruct (Z.leb_spec (H mod (2 * cap)) (H mod (2 * cap) + (T - H) - 2 * cap)); lia.
Qed.

Lemma mod_twice H : H mod cap = if H mod (2 * cap) <? cap then H mod (2 * cap) else H mod (2 * cap) - cap.
Proof.
  pose proof (Z.mod_pos_bound H (2 * cap) ltac:(lia)). pose proof (Z.div_mod H (2 * cap) ltac:(lia)).
  destruct (Z.ltb_spec (H mod (2 * cap)) cap).
  - symmetry. apply (Z.mod_unique _ _ (2 * (H / (2 * cap)))); lia.
  - symmetry. apply (Z.mod_unique _ _ (2 * (H / (2 * cap)) + 1)); lia.
Qed.

Lemma real_index_mod H : real_index cap (H mod (2 * cap)) = H mod cap.
Proof. unfold real_index. by rewrite mod_twice. Qed.

(** A step that does not leave the lap. *)
Lemma step_mod H n : 0 <= n -> H mod cap + n <= cap ->
  (if H mod (2 * cap) + n <? 2 * cap then H mod (2 * cap) + n else 0) = (H + n) mod (2 * cap).
Proof.
  intros Hn Hlap. rewrite mod_twice in Hlap. pose proof (Z.mod_pos_bound H (2 * cap) ltac:(lia)).
  pose proof (Z.div_mod H (2 * cap) ltac:(lia)).
  destruct (Z.ltb_spec (H mod (2 * cap)) cap); destruct (Z.ltb_spec (H mod (2 * cap) + n) (2 * cap));
    first [apply (Z.mod_unique _ _ (H / (2 * cap))); lia|apply (Z.mod_unique _ _ (H / (2 * cap) + 1)); lia].
Qed.

(** Within one lap, positions are indices. *)
Lemma index_mod H j : 0 <= j -> H mod cap + j < cap -> (H + j) mod cap = H mod cap + j.
Proof.
  intros Hj Hlt. pose proof (Z.mod_pos_bound H cap Hcap). pose proof (Z.div_mod H cap ltac:(lia)).
  symmetry. apply (Z.mod_unique _ _ (H / cap)); lia.
Qed.

(** Positions less than a lap apart have different indices. *)
Lemma index_apart i j : 0 <= j - i < cap -> i mod cap = j mod cap -> i = j.
Proof.
  intros Hd He. pose proof (Z.div_mod i cap ltac:(lia)). pose proof (Z.div_mod j cap ltac:(lia)).
  assert (j / cap = i / cap) as Hq by nia. nia.
Qed.
End positions.

(** * The bytes of the ring *)

Section ring.
Context (cap : Z) (Hcap : 0 < cap).

(** The bytes [bs] are in the ring from the position [p] on. *)
Definition holds (l : list (option Z)) (p : Z) (bs : list Z) : Prop :=
  forall j b, bs !! j = Some b -> l !! Z.to_nat ((p + Z.of_nat j) mod cap) = Some (Some b).

Lemma holds_nil l p : holds l p [].
Proof. by intros j b. Qed.

Lemma holds_app l p bs bs' : holds l p (bs ++ bs') <-> holds l p bs /\ holds l (p + Z.of_nat (length bs)) bs'.
Proof.
  split.
  - intros Hh. split; intros j b Hj.
    + apply Hh. by apply lookup_app_l_Some.
    + specialize (Hh (length bs + j)%nat b). rewrite lookup_app_r, Nat.add_sub' in Hh by lia.
      replace (p + Z.of_nat (length bs) + Z.of_nat j) with (p + Z.of_nat (length bs + j)) by lia. by apply Hh.
  - intros [H1 H2] j b [Hj|[Hlen Hj]]%lookup_app_Some; [by apply H1|].
    specialize (H2 _ _ Hj). by replace (p + Z.of_nat j) with (p + Z.of_nat (length bs) + Z.of_nat (j - length bs)) by lia.
Qed.

(** A write into one lap. *)
Lemma lookup_written (l : list (option Z)) p bs q :
  Z.of_nat (length l) = cap -> p mod cap + Z.of_nat (length bs) <= cap ->
  (forall j, (j < length bs)%nat -> (p + Z.of_nat j) mod cap <> q mod cap) ->
  list_inserts (Z.to_nat (p mod cap)) (Some <$> bs) l !! Z.to_nat (q mod cap) = l !! Z.to_nat (q mod cap).
Proof.
  intros Hlen Hlap Hq. pose proof (Z.mod_pos_bound q cap Hcap). pose proof (Z.mod_pos_bound p cap Hcap).
  destruct (decide (Z.to_nat (q mod cap) < Z.to_nat (p mod cap))%nat); [by apply list_lookup_inserts_lt|].
  destruct (decide (Z.to_nat (p mod cap) + length bs <= Z.to_nat (q mod cap))%nat).
  { apply list_lookup_inserts_ge. by rewrite length_fmap. }
  exfalso. apply (Hq (Z.to_nat (q mod cap) - Z.to_nat (p mod cap))%nat); [lia|]. rewrite index_mod; lia.
Qed.

Lemma holds_written (l : list (option Z)) p bs :
  Z.of_nat (length l) = cap -> p mod cap + Z.of_nat (length bs) <= cap ->
  holds (list_inserts (Z.to_nat (p mod cap)) (Some <$> bs) l) p bs.
Proof.
  intros Hlen Hlap j b Hj. pose proof (Z.mod_pos_bound p cap Hcap). pose proof (lookup_lt_Some _ _ _ Hj).
  rewrite index_mod by lia. rewrite list_lookup_inserts by (rewrite ?length_fmap; lia).
  replace (Z.to_nat (p mod cap + Z.of_nat j) - Z.to_nat (p mod cap))%nat with j by lia.
  by rewrite list_lookup_fmap, Hj.
Qed.

(** What is in the ring less than a lap before the written bytes stays. *)
Lemma holds_kept (l : list (option Z)) p bs q bs' :
  Z.of_nat (length l) = cap -> p mod cap + Z.of_nat (length bs) <= cap ->
  q + Z.of_nat (length bs') <= p -> p + Z.of_nat (length bs) <= q + cap ->
  holds l q bs' -> holds (list_inserts (Z.to_nat (p mod cap)) (Some <$> bs) l) q bs'.
Proof.
  intros Hlen Hlap H1 H2 Hh j b Hj. pose proof (lookup_lt_Some _ _ _ Hj). rewrite lookup_written; [by apply Hh|done..|].
  intros i Hi He. symmetry in He. apply index_apart in He; lia.
Qed.

(** A slice of bytes that are there. *)
Lemma slice_holds l p bs n :
  holds l p bs -> 0 <= n <= Z.of_nat (length bs) -> p mod cap + n <= cap ->
  slice (p mod cap) n l = Some <$> firstn (Z.to_nat n) bs.
Proof.
  intros Hh Hn Hlap. pose proof (Z.mod_pos_bound p cap Hcap). unfold slice. apply list_eq. intros j.
  rewrite list_lookup_fmap, !lookup_take. destruct (decide (j < Z.to_nat n)%nat) as [Hj|Hj].
  - destruct (lookup_lt_is_Some_2 bs j ltac:(lia)) as [b Hb]. specialize (Hh _ _ Hb).
    rewrite index_mod in Hh by lia.
    rewrite lookup_drop, Hb. replace (Z.to_nat (p mod cap) + j)%nat with (Z.to_nat (p mod cap + Z.of_nat j)) by lia. done.
  - done.
Qed.

Lemma initialised_bytes from n l (bs : list Z) : 0 <= n -> slice from n l = Some <$> bs -> Z.of_nat (length bs) = n ->
  initialised from n l = true /\ bytes_of (slice from n l) = bs.
Proof.
  intros Hn Hs Hl. unfold initialised, bytes_of. rewrite Hs, length_fmap. split.
  - apply andb_true_intro. split; [apply Nat.eqb_eq; lia|]. clear. by induction bs.
  - clear. induction bs as [|b bs IH]; [done|]. cbn. by rewrite IH.
Qed.

Lemma no_overlap p n q m : 0 <= n -> 0 <= m -> p mod cap + n <= cap -> q mod cap + m <= cap ->
  p + n <= q -> q + m <= p + cap ->
  overlaps (Some (p mod cap, n)) (Some (q mod cap, m)) = false /\
  overlaps (Some (q mod cap, m)) (Some (p mod cap, n)) = false.
Proof.
  intros Hn Hm Hp Hq H1 H2. pose proof (Z.mod_pos_bound p cap Hcap). pose proof (Z.mod_pos_bound q cap Hcap).
  assert (Z.min (p mod cap + n) (q mod cap + m) <= Z.max (p mod cap) (q mod cap)) as Ho.
  { apply Z.nlt_ge. intros Ho. set (k := Z.max (p mod cap) (q mod cap)) in *.
    assert (p + (k - p mod cap) = q + (k - q mod cap)); [|lia]. apply (index_apart cap Hcap); [lia|].
    rewrite !index_mod by lia. lia. }
  unfold overlaps. split; apply Z.ltb_ge; lia.
Qed.
End ring.

(** * The invariant

    Where the reader is: at rest, asleep or not; just after it looked at
    [tail] again; with a slice; with
    bytes it has looked at but not yet given back; between its store and its wake; dropping
    itself; gone.  The writer in the same way, and with bytes in the ring
    that it has not published. *)

Inductive rstage := RIdle (sleeps : bool) | RLook | RRead (n : Z) | RTaken (bs : list Z) | RWake | RClosing | RGone.
Inductive wstage := WIdle (sleeps : bool) | WLook | WWrite (n : Z) | WFilled (bs : list Z) | WWake | WClosing | WGone.

#[export] Instance rstage_eq : EqDecision rstage.
Proof. solve_decision. Defined.
#[export] Instance wstage_eq : EqDecision wstage.
Proof. solve_decision. Defined.

Definition r_gone (s : rstage) : bool := match s with RClosing | RGone => true | _ => false end.
Definition w_gone (s : wstage) : bool := match s with WClosing | WGone => true | _ => false end.

Definition r_home (rs : rstage) : bool := match rs with RIdle _ | RLook => true | _ => false end.
Definition w_home (ws : wstage) : bool := match ws with WIdle _ | WLook => true | _ => false end.

Section core.
Context (cap : Z).

(** The reader has no waker left in its cell, or the writer is about to look
    for one. *)
Definition calm_r (σ : Pipe) (ws : wstage) : Prop := stored (log (reader σ)) = None \/ ws = WWake \/ ws = WClosing.
Definition calm_w (σ : Pipe) (rs : rstage) : Prop := stored (log (writer σ)) = None \/ rs = RWake \/ rs = RClosing.

(** [Tr]: the writer's position the reader knows of; [Hw]: the reader's
    position the writer knows of. *)
Record pcore (σ : Pipe) (rs : rstage) (r : Reader) (got : list Z) (ws : wstage) (w : Writer) (sent : list Z) (Tr Hw : Z) : Prop := {
  p_len : Z.of_nat (length (buffer σ)) = cap;
  p_pre : got `prefix_of` sent;
  p_head : head σ = Z.of_nat (length got) mod (2 * cap);
  p_tail : tail σ = Z.of_nat (length sent) mod (2 * cap);
  p_rhead : r_head r = head σ;
  p_rtail : r_tail r = Tr mod (2 * cap);
  p_Tr : Z.of_nat (length got) <= Tr <= Z.of_nat (length sent);
  p_wtail : w_tail w = tail σ;
  p_whead : w_head w = Hw mod (2 * cap);
  p_Hw : Hw <= Z.of_nat (length got) /\ Z.of_nat (length sent) <= Hw + cap;
  p_zero : Z.min (Z.of_nat (length sent)) cap <= zeroed_until w <= cap;
  p_init : forall i, (i < Z.to_nat (zeroed_until w))%nat -> exists b, buffer σ !! i = Some (Some b);
  p_ring : holds cap (buffer σ) (Z.of_nat (length got)) (skipn (length got) sent);
  p_rslice : match rs with
    | RRead n => read_slice σ = Some (Z.of_nat (length got) mod cap, n) /\ 0 <= n <= Tr - Z.of_nat (length got) /\
                 Z.of_nat (length got) mod cap + n <= cap
    | RTaken bs => read_slice σ = None /\ got ++ bs `prefix_of` sent /\
                 Z.of_nat (length bs) <= Tr - Z.of_nat (length got) /\
                 Z.of_nat (length got) mod cap + Z.of_nat (length bs) <= cap
    | _ => read_slice σ = None
    end;
  p_wslice : match ws with
    | WWrite n => write_slice σ = Some (Z.of_nat (length sent) mod cap, n) /\
                  0 <= n <= Hw + cap - Z.of_nat (length sent) /\ Z.of_nat (length sent) mod cap + n <= zeroed_until w
    | WFilled bs => write_slice σ = None /\ holds cap (buffer σ) (Z.of_nat (length sent)) bs /\
                  Z.of_nat (length bs) <= Hw + cap - Z.of_nat (length sent) /\
                  Z.of_nat (length sent) mod cap + Z.of_nat (length bs) <= zeroed_until w
    | _ => write_slice σ = None
    end;
  p_closed : closed σ = r_gone rs || w_gone ws;
  p_rwake : match rs with
    | RLook => tail σ = r_tail r \/ calm_r σ ws
    | RIdle true => tail σ = r_tail r /\ closed σ = false \/ calm_r σ ws
    | _ => True
    end;
  p_wwake : match ws with
    | WLook => head σ = w_head w \/ calm_w σ rs
    | WIdle true => head σ = w_head w /\ closed σ = false \/ calm_w σ rs
    | _ => True
    end;
  p_rempty : match rs with RLook | RIdle true => distance cap (r_head r) (r_tail r) = 0 | _ => True end;
  p_wfull : match ws with WLook | WIdle true => distance cap (w_head w) (w_tail w) = cap | _ => True end }.
End core.

(** ** Tokens *)

Inductive ptok :=
| KR (t : awtok) | KW (t : awtok)
| TR (s : rstage) (r : Reader) (got : list Z)
| TW (s : wstage) (w : Writer) (sent : list Z).

#[export] Instance pipetok_eq : EqDecision ptok.
Proof. solve_decision. Defined.

Definition rstage_code (s : rstage) : nat * Z * bool * list Z :=
  match s with RIdle b => (0%nat, 0, b, []) | RLook => (1%nat, 0, false, []) | RRead n => (2%nat, n, false, [])
  | RWake => (3%nat, 0, false, []) | RClosing => (4%nat, 0, false, []) | RGone => (5%nat, 0, false, [])
  | RTaken bs => (6%nat, 0, false, bs) end.
Definition rstage_of (x : nat * Z * bool * list Z) : rstage :=
  match x with (0%nat, _, b, _) => RIdle b | (1%nat, _, _, _) => RLook | (2%nat, n, _, _) => RRead n
  | (3%nat, _, _, _) => RWake | (4%nat, _, _, _) => RClosing | (6%nat, _, _, bs) => RTaken bs | _ => RGone end.
Definition wstage_code (s : wstage) : nat * Z * bool * list Z :=
  match s with WIdle b => (0%nat, 0, b, []) | WLook => (1%nat, 0, false, []) | WWrite n => (2%nat, n, false, [])
  | WWake => (3%nat, 0, false, []) | WClosing => (4%nat, 0, false, []) | WGone => (5%nat, 0, false, [])
  | WFilled bs => (6%nat, 0, false, bs) end.
Definition wstage_of (x : nat * Z * bool * list Z) : wstage :=
  match x with (0%nat, _, b, _) => WIdle b | (1%nat, _, _, _) => WLook | (2%nat, n, _, _) => WWrite n
  | (3%nat, _, _, _) => WWake | (4%nat, _, _, _) => WClosing | (6%nat, _, _, bs) => WFilled bs | _ => WGone end.

#[export] Instance pipetok_countable : Countable ptok.
Proof.
  refine (inj_countable'
    (fun t => match t with
              | KR t => inl (inl t) | KW t => inl (inr t)
              | TR s r l => inr (inl (rstage_code s, (r_head r, r_tail r), l))
              | TW s w l => inr (inr (wstage_code s, (w_head w, w_tail w, zeroed_until w), l)) end)
    (fun x => match x with
              | inl (inl t) => KR t | inl (inr t) => KW t
              | inr (inl (s, (h, t), l)) => TR (rstage_of s) (mkReader h t) l
              | inr (inr (s, (h, t, z), l)) => TW (wstage_of s) (mkWriter h t z) l end) _).
  intros [t|t|s r l|s w l]; [done|done|destruct s, r; done|destruct s, w; done].
Defined.

Section proof.
Context (cap : Z) (Hcap : 0 < cap).
Local Abbreviation toks := (list_to_set_disj (A:=ptok) (C:=gmultiset ptok)).

(** One token of each side, and the tokens of the two [AtomicWaker]s, each
    with one registrar. *)
Definition pipe_tally (σ : Pipe) (c : ptok -> nat) : Prop :=
  (exists rs r got ws w sent Tr Hw, pcore cap σ rs r got ws w sent Tr Hw /\
     (forall s' r' l', c (TR s' r' l') = if decide (TR rs r got = TR s' r' l') then 1 else 0)%nat /\
     (forall s' w' l', c (TW s' w' l') = if decide (TW ws w sent = TW s' w' l') then 1 else 0)%nat) /\
  aw_tally 1 (reader σ) (fun t => c (KR t)) /\ aw_tally 1 (writer σ) (fun t => c (KW t)).
Definition pipe_inv (σ : Pipe) (m : gmultiset ptok) : Prop := pipe_tally σ (fun t => multiplicity t m).

Lemma pipe_tally_ext σ c c' : (forall t, c t = c' t) -> pipe_tally σ c -> pipe_tally σ c'.
Proof.
  intros He ((rs & r & got & ws & w & sent & Tr & Hw & Hp & HR & HW) & Ha & Hb). split_and!.
  - exists rs, r, got, ws, w, sent, Tr, Hw. split_and!; [done|..]; intros; rewrite <- He; auto.
  - eapply aw_tally_ext; [|exact Ha]. intros t. apply He.
  - eapply aw_tally_ext; [|exact Hb]. intros t. apply He.
Qed.

(** The one token of a side is exchanged. *)
Lemma count_swap_r s r l s' r' l' s1 r1 l1 n :
  ((if decide (TR s1 r1 l1 = TR s r l) then 1 else 0) + n = if decide (TR s r l = TR s1 r1 l1) then 1 else 0)%nat ->
  ((if decide (TR s1 r1 l1 = TR s' r' l') then 1 else 0) + n = if decide (TR s' r' l' = TR s1 r1 l1) then 1 else 0)%nat.
Proof.
  rewrite (decide_ext (TR s r l = TR s1 r1 l1) (TR s1 r1 l1 = TR s r l)) by (split; congruence).
  rewrite (decide_ext (TR s' r' l' = TR s1 r1 l1) (TR s1 r1 l1 = TR s' r' l')) by (split; congruence).
  repeat case_decide; lia.
Qed.
Lemma count_swap_w s w l s' w' l' s1 w1 l1 n :
  ((if decide (TW s1 w1 l1 = TW s w l) then 1 else 0) + n = if decide (TW s w l = TW s1 w1 l1) then 1 else 0)%nat ->
  ((if decide (TW s1 w1 l1 = TW s' w' l') then 1 else 0) + n = if decide (TW s' w' l' = TW s1 w1 l1) then 1 else 0)%nat.
Proof.
  rewrite (decide_ext (TW s w l = TW s1 w1 l1) (TW s1 w1 l1 = TW s w l)) by (split; congruence).
  rewrite (decide_ext (TW s' w' l' = TW s1 w1 l1) (TW s1 w1 l1 = TW s' w' l')) by (split; congruence).
  repeat case_decide; lia.
Qed.

(** An action of the reader, of the writer, that leaves the [AtomicWaker]s
    alone. *)
Lemma ok_pipe_reader {A} (f : Pipe -> option (Pipe * prog Pipe A)) rs r got K (Q : gmultiset ptok -> A -> Prop) :
  (forall σ ws w sent Tr Hw, pcore cap σ rs r got ws w sent Tr Hw -> match f σ with
     | None => True
     | Some (σ', p) => exists a rs' r' got' Tr', p = Ret a /\ reader σ' = reader σ /\ writer σ' = writer σ /\
         pcore cap σ' rs' r' got' ws w sent Tr' Hw /\ Q (toks (TR rs' r' got' :: K)) a
     end) ->
  ok pipe_inv (toks (TR rs r got :: K)) (Act f) Q.
Proof.
  intros Hf. apply (ok_exchange _ pipe_tally); [by apply pipe_tally_ext|done|].
  intros σ c ((rs0 & r0 & got0 & ws & w & sent & Tr & Hw & Hp & HR & HW) & Ha & Hb).
  assert (TR rs0 r0 got0 = TR rs r got) as [= -> -> ->].
  { specialize (HR rs r got). cbn [occ] in HR. rewrite decide_True in HR by done. case_decide; [done|lia]. }
  specialize (Hf _ _ _ _ _ _ Hp). destruct (f σ) as [[σ' p]|]; [|done].
  destruct Hf as (a & rs' & r' & got' & Tr' & -> & Hr & Hwr & Hp' & HQ). right.
  exists a, (TR rs' r' got' :: K). split; [done|split; [|done]]. rewrite <- Hr in Ha. rewrite <- Hwr in Hb. split_and!.
  - exists rs', r', got', ws, w, sent, Tr', Hw. split; [done|]. split.
    + intros s1 r1 l1. specialize (HR s1 r1 l1). cbn [occ] in *.
      rewrite <- Nat.add_assoc in HR |- *. eapply count_swap_r, HR.
    + intros s1 w1 l1. specialize (HW s1 w1 l1). cbn [occ] in *. exact HW.
  - eapply aw_tally_ext; [|exact Ha]. done.
  - eapply aw_tally_ext; [|exact Hb]. done.
Qed.

Lemma ok_pipe_writer {A} (f : Pipe -> option (Pipe * prog Pipe A)) ws w sent K (Q : gmultiset ptok -> A -> Prop) :
  (forall σ rs r got Tr Hw, pcore cap σ rs r got ws w sent Tr Hw -> match f σ with
     | None => True
     | Some (σ', p) => exists a ws' w' sent' Hw', p = Ret a /\ reader σ' = reader σ /\ writer σ' = writer σ /\
         pcore cap σ' rs r got ws' w' sent' Tr Hw' /\ Q (toks (TW ws' w' sent' :: K)) a
     end) ->
  ok pipe_inv (toks (TW ws w sent :: K)) (Act f) Q.
Proof.
  intros Hf. apply (ok_exchange _ pipe_tally); [by apply pipe_tally_ext|done|].
  intros σ c ((rs & r & got & ws0 & w0 & sent0 & Tr & Hw & Hp & HR & HW) & Ha & Hb).
  assert (TW ws0 w0 sent0 = TW ws w sent) as [= -> -> ->].
  { specialize (HW ws w sent). cbn [occ] in HW. rewrite decide_True in HW by done. case_decide; [done|lia]. }
  specialize (Hf _ _ _ _ _ _ Hp). destruct (f σ) as [[σ' p]|]; [|done].
  destruct Hf as (a & ws' & w' & sent' & Hw' & -> & Hr & Hwr & Hp' & HQ). right.
  exists a, (TW ws' w' sent' :: K). split; [done|split; [|done]]. rewrite <- Hr in Ha. rewrite <- Hwr in Hb. split_and!.
  - exists rs, r, got, ws', w', sent', Tr, Hw'. split; [done|]. split.
    + intros s1 r1 l1. specialize (HR s1 r1 l1). cbn [occ] in *. exact HR.
    + intros s1 w1 l1. specialize (HW s1 w1 l1). cbn [occ] in *.

      rewrite <- Nat.add_assoc in HW |- *. eapply count_swap_w, HW.
  - eapply aw_tally_ext; [|exact Ha]. done.
  - eapply aw_tally_ext; [|exact Hb]. done.
Qed.

(** ** The two [AtomicWaker]s *)

Lemma occ_aw_toks (tk : awtok -> ptok) `{!Inj (=) (=) tk} L t : multiplicity (tk t) (aw_toks tk L) = occ t L.
Proof.
  unfold aw_toks. rewrite multiplicity_list. induction L as [|x L IH]; [done|]. rewrite fmap_cons. cbn [occ].
  rewrite IH. by rewrite (decide_ext (tk t = tk x) (t = x)) by (split; [apply (inj tk)|congruence]).
Qed.

Lemma occ_aw_toks_other (tk : awtok -> ptok) L t : (forall x, tk x <> t) -> multiplicity t (aw_toks tk L) = 0%nat.
Proof.
  intros Hne. unfold aw_toks. rewrite multiplicity_list. induction L as [|x L IH]; [done|]. rewrite fmap_cons. cbn [occ].
  rewrite IH, decide_False; [done|]. intros He. by eapply Hne.
Qed.

#[local] Instance KR_inj : Inj (=) (=) KR.
Proof. by intros ?? [=]. Qed.
#[local] Instance KW_inj : Inj (=) (=) KW.
Proof. by intros ?? [=]. Qed.

Lemma count_kr L m t : multiplicity (KR t) (aw_toks KR L ⊎ m) = (occ t L + multiplicity (KR t) m)%nat.
Proof. by rewrite multiplicity_disj_union, occ_aw_toks by apply _. Qed.
Lemma count_kw L m t : multiplicity (KW t) (aw_toks KW L ⊎ m) = (occ t L + multiplicity (KW t) m)%nat.
Proof. by rewrite multiplicity_disj_union, occ_aw_toks by apply _. Qed.
Lemma count_kr_other L m t : (forall x, KR x <> t) -> multiplicity t (aw_toks KR L ⊎ m) = multiplicity t m.
Proof. intros Ht. by rewrite multiplicity_disj_union, occ_aw_toks_other. Qed.
Lemma count_kw_other L m t : (forall x, KW x <> t) -> multiplicity t (aw_toks KW L ⊎ m) = multiplicity t m.
Proof. intros Ht. by rewrite multiplicity_disj_union, occ_aw_toks_other. Qed.

(** What the ring sees of the reader's [AtomicWaker] is its history. *)
Lemma pcore_log_r σ a rs rs' r got ws ws' w sent Tr Hw :
  pcore cap σ rs r got ws w sent Tr Hw ->
  rs = RIdle false \/ stored (log a) = None \/ log a = log (reader σ) ->
  rs' = rs \/ r_home rs = true /\ rs' = RIdle false ->
  ws' = ws \/ stored (log a) = None /\ (ws = WWake /\ ws' = WIdle false \/ ws = WClosing /\ ws' = WGone) ->
  pcore cap (put_reader a σ) rs' r got ws' w sent Tr Hw.
Proof.
  intros Hp Hl Hrs Hws. assert (Hp' : pcore cap (put_reader a σ) rs r got ws' w sent Tr Hw).
  { destruct Hp. constructor; try done.
    - destruct Hws as [->|[_ [[-> ->]|[-> ->]]]]; done.
    - destruct Hws as [->|[_ [[-> ->]|[-> ->]]]]; done.
    - cbn [tail closed put_reader]. destruct Hl as [->|Hl]; [done|]. unfold calm_r in *. cbn [reader put_reader].
      destruct Hl as [Hl|Hl]; [rewrite Hl; destruct rs as [[|]| | | | | |]; tauto|].
      destruct Hws as [->|[Hs _]]; [by rewrite Hl|]. rewrite Hs. destruct rs as [[|]| | | | | |]; tauto.
    - destruct Hws as [->|[_ [[-> ->]|[-> ->]]]]; done.
    - destruct Hws as [->|[_ [[-> ->]|[-> ->]]]]; done. }
  destruct Hrs as [->|[Hh ->]]; [done|]. destruct Hp'. constructor; try done; [by destruct rs..|].
  unfold calm_w in *. destruct rs; try done; destruct ws' as [[|]| | | | | |]; naive_solver.
Qed.

Lemma pcore_log_w σ a rs rs' r got ws ws' w sent Tr Hw :
  pcore cap σ rs r got ws w sent Tr Hw ->
  ws = WIdle false \/ stored (log a) = None \/ log a = log (writer σ) ->
  ws' = ws \/ w_home ws = true /\ ws' = WIdle false ->
  rs' = rs \/ stored (log a) = None /\ (rs = RWake /\ rs' = RIdle false \/ rs = RClosing /\ rs' = RGone) ->
  pcore cap (put_writer a σ) rs' r got ws' w sent Tr Hw.
Proof.
  intros Hp Hl Hws Hrs. assert (Hp' : pcore cap (put_writer a σ) rs' r got ws w sent Tr Hw).
  { destruct Hp. constructor; try done.
    - destruct Hrs as [->|[_ [[-> ->]|[-> ->]]]]; done.
    - destruct Hrs as [->|[_ [[-> ->]|[-> ->]]]]; done.
    - destruct Hrs as [->|[_ [[-> ->]|[-> ->]]]]; done.
    - cbn [head closed put_writer]. destruct Hl as [->|Hl]; [done|]. unfold calm_w in *. cbn [writer put_writer].
      destruct Hl as [Hl|Hl]; [rewrite Hl; destruct ws as [[|]| | | | | |]; tauto|].
      destruct Hrs as [->|[Hs _]]; [by rewrite Hl|]. rewrite Hs. destruct ws as [[|]| | | | | |]; tauto.
    - destruct Hrs as [->|[_ [[-> ->]|[-> ->]]]]; done. }
  destruct Hws as [->|[Hh ->]]; [done|]. destruct Hp'. constructor; try done; [by destruct ws| |].
  - by destruct ws.
  - unfold calm_r in *. destruct ws; try done; destruct rs' as [[|]| | | | | |]; naive_solver.
Qed.

#[local] Instance reader_part : AwPart reader put_reader KR pipe_inv 1.
Proof.
  split.
  - intros σ L m (_ & Ha & _). eapply aw_tally_ext; [|exact Ha]. intros t. apply count_kr.
  - intros σ a L L' m ((rs & r & got & ws & w & sent & Tr & Hw & Hp & HR & HW) & Ha & Hb) Hl Ha'. split_and!.
    + exists rs, r, got, ws, w, sent, Tr, Hw. split_and!; [by eapply pcore_log_r; auto|..]; intros.
      * rewrite count_kr_other by done. rewrite <- HR. by rewrite count_kr_other.
      * rewrite count_kr_other by done. rewrite <- HW. by rewrite count_kr_other.
    + eapply aw_tally_ext; [|exact Ha']. intros t. by rewrite count_kr.
    + eapply aw_tally_ext; [|exact Hb]. intros t. by rewrite !count_kr_other.
Qed.

#[local] Instance writer_part : AwPart writer put_writer KW pipe_inv 1.
Proof.
  split.
  - intros σ L m (_ & _ & Ha). eapply aw_tally_ext; [|exact Ha]. intros t. apply count_kw.
  - intros σ a L L' m ((rs & r & got & ws & w & sent & Tr & Hw & Hp & HR & HW) & Ha & Hb) Hl Ha'. split_and!.
    + exists rs, r, got, ws, w, sent, Tr, Hw. split_and!; [by eapply pcore_log_w; auto|..]; intros.
      * rewrite count_kw_other by done. rewrite <- HR. by rewrite count_kw_other.
      * rewrite count_kw_other by done. rewrite <- HW. by rewrite count_kw_other.
    + eapply aw_tally_ext; [|exact Ha]. intros t. by rewrite !count_kw_other.
    + eapply aw_tally_ext; [|exact Ha']. intros t. by rewrite count_kw.
Qed.

Lemma stored_take l : stored (l ++ [ETake]) = None.
Proof. unfold stored. by rewrite history_snoc. Qed.

Lemma count_cons t t' K fr : multiplicity t' (toks (t :: K) ⊎ fr) = ((if decide (t' = t) then 1 else 0) + multiplicity t' (toks K ⊎ fr))%nat.
Proof. rewrite !multiplicity_disj_union, !multiplicity_list. cbn [occ]. lia. Qed.

(** The reader registers, or takes its waker back. *)
Lemma notes_own_r P rs rs' r got K : (forall e, P e -> e = ETake \/ rs = RIdle false) ->
  rs' = rs \/ r_home rs = true /\ rs' = RIdle false ->
  notes reader put_reader KR pipe_inv 1 P (toks (TR rs r got :: K)) (fun _ => toks (TR rs' r got :: K)).
Proof.
  intros HP Hrs σ a e L L' fr He ((rs0 & r0 & got0 & ws & w & sent & Tr & Hw & Hp & HR & HW) & Ha & Hb) Hl Ha'.
  assert (TR rs0 r0 got0 = TR rs r got) as [= -> -> ->].
  { specialize (HR rs r got). rewrite count_kr_other, count_cons, decide_True in HR by done. case_decide; [done|lia]. }
  split_and!.
  - exists rs', r, got, ws, w, sent, Tr, Hw. split_and!.
    + eapply pcore_log_r; [done| |done|by left]. rewrite Hl. destruct (HP e He) as [->|]; [|by left]. rewrite stored_take. auto.
    + intros s1 r1 l1. specialize (HR s1 r1 l1). rewrite count_kr_other, count_cons in HR |- * by done. eapply count_swap_r, HR.
    + intros s1 w1 l1. rewrite count_kr_other, count_cons, decide_False by done. rewrite <- HW.
      by rewrite count_kr_other, count_cons, decide_False.
  - eapply aw_tally_ext; [|exact Ha']. intros t. by rewrite count_kr, !count_cons, !decide_False by done.
  - eapply aw_tally_ext; [|exact Hb]. intros t. by rewrite !count_kr_other, !count_cons, !decide_False by done.
Qed.

Lemma notes_own_w P ws ws' w sent K : (forall e, P e -> e = ETake \/ ws = WIdle false) ->
  ws' = ws \/ w_home ws = true /\ ws' = WIdle false ->
  notes writer put_writer KW pipe_inv 1 P (toks (TW ws w sent :: K)) (fun _ => toks (TW ws' w sent :: K)).
Proof.
  intros HP Hws σ a e L L' fr He ((rs & r & got & ws0 & w0 & sent0 & Tr & Hw & Hp & HR & HW) & Ha & Hb) Hl Ha'.
  assert (TW ws0 w0 sent0 = TW ws w sent) as [= -> -> ->].
  { specialize (HW ws w sent). rewrite count_kw_other, count_cons, decide_True in HW by done. case_decide; [done|lia]. }
  split_and!.
  - exists rs, r, got, ws', w, sent, Tr, Hw. split_and!.
    + eapply pcore_log_w; [done| |done|by left]. rewrite Hl. destruct (HP e He) as [->|]; [|by left]. rewrite stored_take. auto.
    + intros s1 r1 l1. rewrite count_kw_other, count_cons, decide_False by done. rewrite <- HR.
      by rewrite count_kw_other, count_cons, decide_False.
    + intros s1 w1 l1. specialize (HW s1 w1 l1). rewrite count_kw_other, count_cons in HW |- * by done. eapply count_swap_w, HW.
  - eapply aw_tally_ext; [|exact Ha]. intros t. by rewrite !count_kw_other, !count_cons, !decide_False by done.
  - eapply aw_tally_ext; [|exact Ha']. intros t. by rewrite count_kw, !count_cons, !decide_False by done.
Qed.

(** The writer wakes the reader. *)
Lemma notes_wake_r ws ws' w sent K : ws = WWake /\ ws' = WIdle false \/ ws = WClosing /\ ws' = WGone ->
  notes reader put_reader KR pipe_inv 1 (fun e => e = ETake) (toks (TW ws w sent :: K)) (fun _ => toks (TW ws' w sent :: K)).
Proof.
  intros Hws σ a e L L' fr -> ((rs & r & got & ws0 & w0 & sent0 & Tr & Hw & Hp & HR & HW) & Ha & Hb) Hl Ha'.
  assert (TW ws0 w0 sent0 = TW ws w sent) as [= -> -> ->].
  { specialize (HW ws w sent). rewrite count_kr_other, count_cons, decide_True in HW by done. case_decide; [done|lia]. }
  split_and!.
  - exists rs, r, got, ws', w, sent, Tr, Hw. split_and!.
    + eapply pcore_log_r; [done|rewrite Hl, stored_take; auto|by left|rewrite Hl, stored_take; auto].
    + intros s1 r1 l1. rewrite count_kr_other, count_cons, decide_False by done. rewrite <- HR.
      by rewrite count_kr_other, count_cons, decide_False.
    + intros s1 w1 l1. specialize (HW s1 w1 l1). rewrite count_kr_other, count_cons in HW |- * by done.

      eapply count_swap_w, HW.
  - eapply aw_tally_ext; [|exact Ha']. intros t. by rewrite count_kr, !count_cons, !decide_False by done.
  - eapply aw_tally_ext; [|exact Hb]. intros t. by rewrite !count_kr_other, !count_cons, !decide_False by done.
Qed.

(** The reader wakes the writer. *)
Lemma notes_wake_w rs rs' r got K : rs = RWake /\ rs' = RIdle false \/ rs = RClosing /\ rs' = RGone ->
  notes writer put_writer KW pipe_inv 1 (fun e => e = ETake) (toks (TR rs r got :: K)) (fun _ => toks (TR rs' r got :: K)).
Proof.
  intros Hrs σ a e L L' fr -> ((rs0 & r0 & got0 & ws & w & sent & Tr & Hw & Hp & HR & HW) & Ha & Hb) Hl Ha'.
  assert (TR rs0 r0 got0 = TR rs r got) as [= -> -> ->].
  { specialize (HR rs r got). rewrite count_kw_other, count_cons, decide_True in HR by done. case_decide; [done|lia]. }
  split_and!.
  - exists rs', r, got, ws, w, sent, Tr, Hw. split_and!.
    + eapply pcore_log_w; [done|rewrite Hl, stored_take; auto|by left|rewrite Hl, stored_take; auto].
    + intros s1 r1 l1. specialize (HR s1 r1 l1). rewrite count_kw_other, count_cons in HR |- * by done.
      eapply count_swap_r, HR.
    + intros s1 w1 l1. rewrite count_kw_other, count_cons, decide_False by done. rewrite <- HW.
      by rewrite count_kw_other, count_cons, decide_False.
  - eapply aw_tally_ext; [|exact Ha]. intros t. by rewrite !count_kw_other, !count_cons, !decide_False by done.
  - eapply aw_tally_ext; [|exact Ha']. intros t. by rewrite count_kw, !count_cons, !decide_False by done.
Qed.

(** ** The reader *)

Definition hold_r (o : option name) : list ptok := match o with Some w => [KR (Hold w)] | None => [] end.
Definition hold_w (o : option name) : list ptok := match o with Some w => [KW (Hold w)] | None => [] end.

(** What a call of the reader that had delivered [got] leaves. *)
Definition drained_ok (got : list Z) (m : gmultiset ptok) (d : drained) : Prop :=
  m = toks (TR (RIdle (r_sleeps d)) (the_reader d) (got ++ accepted d) :: KR TIdle :: hold_r (r_dropped d)).

Lemma toks_perm L L' : L ≡ₚ L' -> toks L = toks L'.
Proof. intros HL. apply gmultiset_eq. intros x. rewrite !multiplicity_list. by apply occ_perm. Qed.

Lemma ok_claim rs r got n K (Q : gmultiset ptok -> unit -> Prop) :
  r_home rs = true ->
  n = Z.min (128 * 1024) (Z.min (distance cap (r_head r) (r_tail r)) (cap - real_index cap (r_head r))) ->
  Q (toks (TR (RRead n) r got :: K)) () ->
  ok pipe_inv (toks (TR rs r got :: K)) (claim_read (real_index cap (r_head r)) n) Q.
Proof.
  intros Hrs Hn HQ. apply ok_pipe_reader. intros σ ws w sent Tr Hw Hp. pose proof Hp as []. 
  pose proof (Z.mod_pos_bound (Z.of_nat (length got)) cap Hcap).
  assert (Hri : real_index cap (r_head r) = Z.of_nat (length got) mod cap) by (rewrite p_rhead0, p_head0; by apply real_index_mod).
  assert (Hd : distance cap (r_head r) (r_tail r) = Tr - Z.of_nat (length got))
    by (rewrite p_rhead0, p_head0, p_rtail0; apply distance_mod; lia).
  rewrite Hri, Hd in Hn. rewrite Hri.
  assert (Hlen : Z.of_nat (length (skipn (length got) sent)) = Z.of_nat (length sent) - Z.of_nat (length got))
    by (rewrite length_skipn; lia).
  assert (overlaps (Some (Z.of_nat (length got) mod cap, n)) (write_slice σ) = false) as ->.
  { destruct ws; try (rewrite p_wslice0; done); destruct p_wslice0 as [-> ?]; [|done]. apply (no_overlap cap Hcap (Z.of_nat (length got)) n (Z.of_nat (length sent))); lia. }
  destruct (initialised_bytes (Z.of_nat (length got) mod cap) n (buffer σ) (firstn (Z.to_nat n) (skipn (length got) sent))) as [-> _].
  { lia. }
  { apply slice_holds; [done|done|lia|lia]. }
  { rewrite length_firstn. lia. }
  cbn [orb negb]. exists (), (RRead n), r, got, Tr. split_and!; [done..| |exact HQ].
  constructor; cbn [head tail reader writer closed buffer read_slice write_slice]; try done.
  - split_and!; [done|lia..].
  - by destruct rs.
  - unfold calm_w in *. destruct rs; try done; destruct ws as [[|]| | | | | |]; naive_solver.
Qed.

Lemma ok_pipe_release n r got K (Q : gmultiset ptok -> list Z -> Prop) :

  (forall bs, Z.of_nat (length bs) = n -> exists st, (st = RIdle false \/ st = RTaken bs) /\ Q (toks (TR st r got :: K)) bs) ->
  ok pipe_inv (toks (TR (RRead n) r got :: K)) (release_read (real_index cap (r_head r)) n) Q.
Proof.
  intros HQ. apply ok_pipe_reader. intros σ ws w sent Tr Hw Hp. pose proof Hp as [].
  assert (Hri : real_index cap (r_head r) = Z.of_nat (length got) mod cap) by (rewrite p_rhead0, p_head0; by apply real_index_mod).
  destruct p_rslice0 as (Hs & Hn & Hlap). rewrite Hri.
  set (bs := firstn (Z.to_nat n) (skipn (length got) sent)).
  assert (Hlen : Z.of_nat (length bs) = n) by (unfold bs; rewrite length_firstn, length_skipn; lia).
  destruct (initialised_bytes (Z.of_nat (length got) mod cap) n (buffer σ) bs) as [_ ->]; [lia| |done|].
  { apply slice_holds; [done|done| |lia]. rewrite length_skipn. lia. }
  destruct (HQ bs Hlen) as (st & Hst & HQ'). exists bs, st, r, got, Tr. split_and!; [done..| |exact HQ'].
  constructor; cbn [head tail reader writer closed buffer read_slice write_slice]; try done.
  - destruct Hst as [-> | ->]; [done|]. split_and!; [done| |lia|lia].
    destruct p_pre0 as [l ->]. unfold bs. rewrite drop_app_length. apply prefix_app, prefix_take.
  - by destruct Hst as [-> | ->].
  - by destruct Hst as [-> | ->].
  - unfold calm_w in *. destruct ws as [[|]| | | | | |]; try done; destruct Hst as [-> | ->]; naive_solver.
  - by destruct Hst as [-> | ->].
Qed.

Lemma ok_pipe_store_head r got bs n K (Q : gmultiset ptok -> unit -> Prop) :
  0 <= n <= Z.of_nat (length bs) ->
  let h := if r_head r + n <? 2 * cap then r_head r + n else 0 in
  Q (toks (TR RWake (mkReader h (r_tail r)) (got ++ firstn (Z.to_nat n) bs) :: K)) () ->
  ok pipe_inv (toks (TR (RTaken bs) r got :: K)) (store_head h) Q.
Proof.
  intros Hn h HQ. apply ok_pipe_reader. intros σ ws w sent Tr Hw Hp. destruct Hp. destruct p_rslice0 as (Hs & Hpre & Htr & Hlap).
  assert (Hlen : Z.of_nat (length (got ++ firstn (Z.to_nat n) bs)) = Z.of_nat (length got) + n)
    by (rewrite length_app, length_firstn; lia).
  assert (Hh : h = (Z.of_nat (length got) + n) mod (2 * cap)) by (unfold h; rewrite p_rhead0, p_head0; apply step_mod; lia).
  eexists (), RWake, _, _, Tr. split_and!; [done..| |exact HQ].
  constructor; cbn [head tail reader writer closed buffer read_slice write_slice r_head r_tail]; rewrite ?Hlen; try done; try lia.
  - etrans; [|exact Hpre]. apply prefix_app, prefix_take.
  - destruct Hpre as [l ->].
    replace ((got ++ bs) ++ l) with ((got ++ firstn (Z.to_nat n) bs) ++ skipn (Z.to_nat n) bs ++ l) in *
      by (rewrite <- (app_assoc got), (app_assoc (firstn _ _)), firstn_skipn; by rewrite app_assoc).
    rewrite drop_app_length. rewrite <- (app_assoc got), drop_app_length in p_ring0.
    apply holds_app in p_ring0 as [_ Hr]. rewrite length_firstn in Hr.
    by replace (Z.of_nat (length got) + n) with (Z.of_nat (length got) + Z.of_nat (Nat.min (Z.to_nat n) (length bs))) by lia.
  - unfold calm_w in *. destruct ws as [[|]| | | | | |]; naive_solver.
Qed.

Lemma ok_pipe_load_tail (st : Z -> rstage) r got K (Q : gmultiset ptok -> Z -> Prop) :
  (forall t, st t = RIdle false \/ st t = RLook /\ distance cap (r_head r) t = 0) ->
  (forall t, Q (toks (TR (st t) (mkReader (r_head r) t) got :: K)) t) ->
  forall b, ok pipe_inv (toks (TR (RIdle b) r got :: K)) load_tail Q.
Proof.
  intros Hst HQ b. apply ok_pipe_reader. intros σ ws w sent Tr Hw Hp. destruct Hp.
  specialize (Hst (tail σ)). specialize (HQ (tail σ)).
  eexists _, (st (tail σ)), _, got, (Z.of_nat (length sent)).
  split_and!; [done..| |apply HQ]. constructor; try done; cbn [r_head r_tail]; try lia; try done.
  - by destruct Hst as [-> | [-> ?]].
  - by destruct Hst as [-> | [-> ?]].
  - destruct Hst as [-> | [-> ?]]; [done|]. by left.
  - unfold calm_w in *. destruct Hst as [-> | [-> ?]]; destruct ws as [[|]| | | | | |]; naive_solver.
  - by destruct Hst as [-> | [-> ?]].
Qed.

(** The reader finds the pipe empty and closed, or goes to sleep. *)
Lemma ok_load_closed_r r got K (Q : gmultiset ptok -> bool -> Prop) :
  (forall c : bool, Q (toks (TR (RIdle (negb c)) r got :: K)) c) ->
  ok pipe_inv (toks (TR RLook r got :: K)) load_closed Q.
Proof.
  intros HQ. apply ok_pipe_reader. intros σ ws w sent Tr Hw Hp. destruct Hp. eexists _, _, _, got, Tr.
  split_and!; [done..| |apply HQ]. constructor; try done.
  - destruct (closed σ) eqn:Ec; cbn [negb]; [done|]. destruct p_rwake0; auto.
  - unfold calm_w in *. destruct ws as [[|]| | | | | |]; naive_solver.
  - by destruct (closed σ).
Qed.

(** A delivered part, and the reader with a part still to deliver. *)
Lemma ok_drain_loop dest : forall r got0 acc rs o count,
  r_home rs = true ->
  ok pipe_inv (toks (TR rs r (got0 ++ acc) :: KR TIdle :: hold_r o)) (drain_loop cap dest r count acc o) (drained_ok got0).
Proof.
  induction dest as [|x dest IH]; intros r got0 acc rs o count Hrs; cbn [drain_loop];
    (apply ok_bind; apply ok_claim; [done|done|]; apply ok_bind; apply ok_pipe_release; intros bs Hbs; cbn zeta).
  - exists (RIdle false). split; [by left|done].
  - destruct x as [k|e].
    + destruct (Z.eqb_spec (Z.min (Z.of_nat k) (Z.min (128 * 1024) (Z.min (distance cap (r_head r) (r_tail r)) (cap - real_index cap (r_head r))))) 0) as [|Hk].
      * exists (RIdle false). split; [by left|done].
      * exists (RTaken bs). split; [by right|]. apply ok_bind. apply ok_pipe_store_head; [lia|].
        apply ok_bind. eapply (ok_wake writer put_writer KW pipe_inv 1); [by apply notes_wake_w; left|]. intros k'. cbv beta.
        rewrite <- app_assoc. by apply IH.
    + exists (RIdle false). split; [by left|done].
Qed.

Lemma ok_drain_ready dest r got rs : r_home rs = true ->
  ok pipe_inv (toks (TR rs r got :: [KR TIdle])) (drain_ready cap dest r) (drained_ok got).
Proof.
  intros Hrs. apply ok_bind. eapply (ok_take reader put_reader KR pipe_inv 1); [by apply notes_own_r; auto|].
  intros k o. cbv beta. replace (aw_toks KR (held_by o) ⊎ _) with (toks (TR (RIdle false) r got :: KR TIdle :: hold_r o))
    by (destruct o; unfold aw_toks; cbn [held_by hold_r fmap list_fmap]; multiset_solver).
  apply ok_bind, ok_pick. intros [|]; cbn [ok mret prog_mret].
  - unfold drained_ok. cbn [the_reader accepted r_sleeps r_dropped]. by rewrite app_nil_r.
  - rewrite <- (app_nil_r got) at 1. by apply ok_drain_loop.
Qed.

Lemma ok_pipe_drain cx dest r got b :
  ok pipe_inv (toks (TR (RIdle b) r got :: [KR TIdle])) (drain cap cx dest r) (drained_ok got).
Proof.
  unfold drain. destruct (distance cap (r_head r) (r_tail r) =? 0); [|by apply ok_drain_ready].
  apply ok_bind. apply (ok_pipe_load_tail (fun _ => RIdle false)); [auto|]. intros t. cbn zeta. cbn [r_head r_tail].
  destruct (distance cap (r_head r) t =? 0); [|by apply ok_drain_ready].
  apply ok_bind. rewrite (toks_perm _ [KR TIdle; TR (RIdle false) (mkReader (r_head r) t) got]) by solve_Permutation.
  replace (toks [KR TIdle; TR (RIdle false) (mkReader (r_head r) t) got])
    with (aw_toks KR [TIdle] ⊎ toks [TR (RIdle false) (mkReader (r_head r) t) got]) by (unfold aw_toks; cbn [fmap list_fmap]; multiset_solver).
  eapply (ok_register reader put_reader KR pipe_inv 1); [apply notes_own_r; auto|]. intros k. cbv beta.
  replace (aw_toks KR [TIdle] ⊎ toks [TR (RIdle false) (mkReader (r_head r) t) got])
    with (toks (TR (RIdle false) (mkReader (r_head r) t) got :: [KR TIdle])) by (unfold aw_toks; cbn [fmap list_fmap]; multiset_solver).
  apply ok_bind. apply (ok_pipe_load_tail (fun t => if distance cap (r_head r) t =? 0 then RLook else RIdle false)).
  { intros t'. destruct (Z.eqb_spec (distance cap (r_head r) t') 0); auto. }
  intros t'. cbn [r_head r_tail]. destruct (distance cap (r_head r) t' =? 0) eqn:E; cbn zeta; cbn [r_head r_tail];
    [|by apply ok_drain_ready].
  apply ok_bind, ok_load_closed_r. intros [|]; cbn [ok mret prog_mret negb]; unfold drained_ok;
    cbn [the_reader accepted r_sleeps r_dropped hold_r]; by rewrite app_nil_r.
Qed.

Lemma ok_drop_reader r got b K :
  ok pipe_inv (toks (TR (RIdle b) r got :: K)) drop_reader (fun m _ => m = toks (TR RGone r got :: K)).
Proof.
  apply ok_bind. apply ok_pipe_reader. intros σ ws w sent Tr Hw Hp. destruct Hp. exists (), RClosing, r, got, Tr.
  split_and!; [done..| |].
  - constructor; try done. unfold calm_w in *. cbn [head closed]. destruct ws as [[|]| | | | | |]; naive_solver.
  - eapply (ok_wake writer put_writer KW pipe_inv 1); [by apply notes_wake_w; right|]. done.
Qed.

(** ** The writer *)

Definition filled_ok (sent : list Z) (m : gmultiset ptok) (f : filled) : Prop :=
  m = toks (TW (WIdle (w_sleeps f)) (the_writer f) (sent ++ entered f) :: KW TIdle :: hold_w (w_dropped f)).

Lemma mod_below T : 0 <= T < cap -> T mod cap = T.
Proof. apply Z.mod_small. Qed.

(** Initialised bytes stay so. *)
Lemma init_written (l : list (option Z)) i bs k :
  (exists b, l !! k = Some (Some b)) -> exists b, list_inserts i (Some <$> bs) l !! k = Some (Some b).
Proof.
  intros [b Hb]. destruct (decide (k < i)%nat); [rewrite list_lookup_inserts_lt by done; eauto|].
  destruct (decide (i + length bs <= k)%nat); [rewrite list_lookup_inserts_ge by (by rewrite length_fmap); eauto|].
  rewrite list_lookup_inserts; [|by rewrite length_fmap; lia|by eapply lookup_lt_Some].
  rewrite list_lookup_fmap. destruct (lookup_lt_is_Some_2 bs (k - i)%nat ltac:(lia)) as [c ->]. by exists c.
Qed.

Lemma initialised_init (l : list (option Z)) from n z :
  0 <= from -> 0 <= n -> from + n <= z -> z <= Z.of_nat (length l) ->
  (forall i, (i < Z.to_nat z)%nat -> exists b, l !! i = Some (Some b)) -> initialised from n l = true.
Proof.
  intros H1 H2 H3 Hz Hl. unfold initialised, slice. apply andb_true_intro. split.
  - apply Nat.eqb_eq. rewrite length_firstn, length_skipn. lia.
  - apply forallb_forall. intros c Hc%list_elem_of_In%list_elem_of_lookup. destruct Hc as [j Hj].
    apply lookup_take_Some in Hj as [Hj Hlt]. rewrite lookup_drop in Hj.
    destruct (Hl (Z.to_nat from + j)%nat ltac:(lia)) as [b Hb]. rewrite Hb in Hj. by injection Hj as <-.
Qed.

(** How far the writer may write, and what of it was never written. *)
Definition room (w : Writer) : Z :=
  Z.min (128 * 1024) (Z.min (zeroed_until w * 2 + 4096)
    (Z.min (cap - distance cap (w_head w) (w_tail w)) (cap - real_index cap (w_tail w)))).

Lemma room_of σ rs r got ws w sent Tr Hw w0 : pcore cap σ rs r got ws w sent Tr Hw ->
  w_head w0 = w_head w -> w_tail w0 = w_tail w -> 0 <= zeroed_until w0 ->
  real_index cap (w_tail w) = Z.of_nat (length sent) mod cap /\
  0 <= room w0 <= Hw + cap - Z.of_nat (length sent) /\ Z.of_nat (length sent) mod cap + room w0 <= cap.
Proof.
  intros [] Eh Et Hz. pose proof (Z.mod_pos_bound (Z.of_nat (length sent)) cap Hcap).
  assert (Hri : real_index cap (w_tail w) = Z.of_nat (length sent) mod cap) by (rewrite p_wtail0, p_tail0; by apply real_index_mod).
  assert (Hd : distance cap (w_head w) (w_tail w) = Z.of_nat (length sent) - Hw)
    by (rewrite p_wtail0, p_tail0, p_whead0; apply distance_mod; lia).
  unfold room. rewrite Eh, Et, Hri, Hd. split_and!; lia.
Qed.

Lemma zeroed_nonneg σ rs r got ws w sent Tr Hw : pcore cap σ rs r got ws w sent Tr Hw -> 0 <= zeroed_until w.
Proof. intros []. lia. Qed.

Lemma room_spec σ rs r got ws w sent Tr Hw : pcore cap σ rs r got ws w sent Tr Hw ->
  real_index cap (w_tail w) = Z.of_nat (length sent) mod cap /\
  0 <= room w <= Hw + cap - Z.of_nat (length sent) /\ Z.of_nat (length sent) mod cap + room w <= cap.
Proof. intros Hp. eapply room_of; [exact Hp|done|done|by eapply zeroed_nonneg]. Qed.

Lemma w_home_slice (ws : wstage) (P : Z -> Prop) (R : list Z -> Prop) (S0 : Prop) : w_home ws = true ->
  match ws with WWrite n => P n | WFilled bs => R bs | _ => S0 end = S0.
Proof. by destruct ws. Qed.

Lemma ok_zero ws w sent K to (Q : gmultiset ptok -> unit -> Prop) :
  w_home ws = true -> zeroed_until w < to -> to = real_index cap (w_tail w) + room w ->
  (0 <= zeroed_until w -> Q (toks (TW (WIdle false) (mkWriter (w_head w) (w_tail w) to) sent :: K)) ()) ->
  ok pipe_inv (toks (TW ws w sent :: K)) (zero (zeroed_until w) (to - zeroed_until w)) Q.
Proof.
  intros Hws Hz Hto HQ. apply ok_pipe_writer. intros σ rs r got Tr Hw Hp. pose proof (room_spec _ _ _ _ _ _ _ _ _ Hp) as (Hri & Hr & Hlap).
  pose proof Hp as []. rewrite w_home_slice in p_wslice0 by done. rewrite Hri in Hto.
  assert (HT : Z.of_nat (length sent) mod cap = Z.of_nat (length sent)) by (apply mod_below; lia).
  assert (HZ : zeroed_until w mod cap = zeroed_until w) by (apply mod_below; lia).
  assert (overlaps (Some (zeroed_until w, to - zeroed_until w)) (read_slice σ) = false) as ->.
  { destruct rs; try (rewrite p_rslice0; done); destruct p_rslice0 as [-> ?]; [|done]. rewrite <- HZ at 1.
    apply (no_overlap cap Hcap (Z.of_nat (length got)) n (zeroed_until w)); lia. }
  exists (), (WIdle false), (mkWriter (w_head w) (w_tail w) to), sent, Hw. split_and!; [done..| |by apply HQ; lia].
  assert (Hrep : replicate (Z.to_nat (to - zeroed_until w)) (Some 0) = Some <$> replicate (Z.to_nat (to - zeroed_until w)) 0)
    by (by rewrite fmap_replicate).
  constructor; cbn [head tail reader writer closed buffer read_slice write_slice zeroed_until w_head w_tail]; rewrite ?Hrep; try done.
  - by rewrite length_inserts.
  - lia.
  - intros i Hi. destruct (decide (i < Z.to_nat (zeroed_until w))%nat) as [Hlt|Hge]; [by apply init_written, p_init0|].
    rewrite list_lookup_inserts by (rewrite ?length_fmap, ?length_replicate; lia). rewrite list_lookup_fmap, lookup_replicate_2 by lia.
    by eexists.
  - rewrite <- HZ at 1. apply holds_kept; rewrite ?length_replicate, ?length_skipn; try lia; done.
  - by destruct ws.
  - unfold calm_r in *. destruct rs as [[|]| | | | | |]; try done; destruct ws; naive_solver.
Qed.

Lemma ok_claim_write ws w sent K n (Q : gmultiset ptok -> unit -> Prop) :
  w_home ws = true ->
  (forall σ rs r got Tr Hw, pcore cap σ rs r got ws w sent Tr Hw ->
     0 <= n <= Hw + cap - Z.of_nat (length sent) /\ real_index cap (w_tail w) + n <= zeroed_until w) ->
  Q (toks (TW (WWrite n) w sent :: K)) () ->
  ok pipe_inv (toks (TW ws w sent :: K)) (claim_write (real_index cap (w_tail w)) n) Q.
Proof.
  intros Hws Hn HQ. apply ok_pipe_writer. intros σ rs r got Tr Hw Hp. pose proof (room_spec _ _ _ _ _ _ _ _ _ Hp) as (Hri & Hr & Hlap).
  specialize (Hn _ _ _ _ _ _ Hp) as [Hn Hnz]. rewrite Hri in *. pose proof Hp as []. rewrite w_home_slice in p_wslice0 by done.
  pose proof (Z.mod_pos_bound (Z.of_nat (length sent)) cap Hcap).
  assert (overlaps (Some (Z.of_nat (length sent) mod cap, n)) (read_slice σ) = false) as ->.
  { destruct rs; try (rewrite p_rslice0; done); destruct p_rslice0 as [-> ?]; [|done].
    apply (no_overlap cap Hcap (Z.of_nat (length got)) n0 (Z.of_nat (length sent))); lia. }
  rewrite (initialised_init _ _ _ (zeroed_until w)) by (done || lia). cbn [orb negb].
  exists (), (WWrite n), w, sent, Hw. split_and!; [done..| |exact HQ].
  constructor; cbn [head tail reader writer closed buffer read_slice write_slice]; try done.
  - by destruct ws.
  - unfold calm_r in *. destruct rs as [[|]| | | | | |]; try done; destruct ws; naive_solver.
Qed.

(** The source has written [bs], which the writer publishes later or, when it
    is empty, never. *)
Lemma ok_release_write n w sent K bs st (Q : gmultiset ptok -> unit -> Prop) :
  Z.of_nat (length bs) <= Z.max 0 n -> st = WFilled bs \/ st = WIdle false ->
  Q (toks (TW st w sent :: K)) () ->
  ok pipe_inv (toks (TW (WWrite n) w sent :: K)) (release_write (real_index cap (w_tail w)) bs) Q.
Proof.
  intros Hbs Hst HQ. apply ok_pipe_writer. intros σ rs r got Tr Hw Hp. pose proof (room_spec _ _ _ _ _ _ _ _ _ Hp) as (Hri & Hr & Hlap).
  pose proof Hp as []. destruct p_wslice0 as (Hs & Hn & Hz). rewrite Hri.
  exists (), st, w, sent, Hw. split_and!; [done..| |exact HQ].
  constructor; cbn [head tail reader writer closed buffer read_slice write_slice]; try done.
  - by rewrite length_inserts.
  - intros i Hi. by apply init_written, p_init0.
  - apply holds_kept; rewrite ?length_skipn; try lia; done.
  - destruct Hst as [-> | ->]; [|done]. split_and!; [done| |lia|lia]. apply holds_written; [done|done|lia].
  - by destruct Hst as [-> | ->].
  - unfold calm_r in *. destruct rs as [[|]| | | | | |]; destruct Hst as [-> | ->]; naive_solver.
  - by destruct Hst as [-> | ->].
  - by destruct Hst as [-> | ->].
Qed.

Lemma ok_load_closed_w w sent bs K (Q : gmultiset ptok -> bool -> Prop) :
  (forall c : bool, Q (toks (TW (if c then WIdle false else WFilled bs) w sent :: K)) c) ->
  ok pipe_inv (toks (TW (WFilled bs) w sent :: K)) load_closed Q.
Proof.
  intros HQ. apply ok_pipe_writer. intros σ rs r got Tr Hw Hp. pose proof Hp as []. eexists _, _, w, sent, Hw.
  split_and!; [done..| |apply HQ]. destruct (closed σ) eqn:Ec; [|done]. constructor; try done.
  - apply p_wslice0.
  - by rewrite Ec.
  - unfold calm_r in *. destruct rs as [[|]| | | | | |]; naive_solver.
Qed.

Lemma ok_store_tail w sent bs K (Q : gmultiset ptok -> unit -> Prop) :
  let t := if w_tail w + Z.of_nat (length bs) <? 2 * cap then w_tail w + Z.of_nat (length bs) else 0 in
  Q (toks (TW WWake (mkWriter (w_head w) t (zeroed_until w)) (sent ++ bs) :: K)) () ->
  ok pipe_inv (toks (TW (WFilled bs) w sent :: K)) (store_tail t) Q.
Proof.
  intros t HQ. apply ok_pipe_writer. intros σ rs r got Tr Hw Hp. destruct Hp. destruct p_wslice0 as (Hs & Hh & Hroom & Hlap).
  assert (Hlen : Z.of_nat (length (sent ++ bs)) = Z.of_nat (length sent) + Z.of_nat (length bs)) by (rewrite length_app; lia).
  assert (Ht : t = (Z.of_nat (length sent) + Z.of_nat (length bs)) mod (2 * cap))
    by (unfold t; rewrite p_wtail0, p_tail0; apply step_mod; lia).
  eexists (), WWake, _, _, Hw. split_and!; [done..| |exact HQ].
  constructor; cbn [head tail reader writer closed buffer read_slice write_slice w_head w_tail zeroed_until]; rewrite ?Hlen; try done; try lia.
  - by apply prefix_app_r.
  - destruct (Z.lt_ge_cases (Z.of_nat (length sent)) cap); [rewrite mod_below in Hlap by lia|]; lia.
  - destruct p_pre0 as [l ->]. rewrite <- app_assoc, drop_app_length. rewrite drop_app_length in p_ring0.
    apply holds_app. split; [done|]. rewrite length_app in Hh. by replace (Z.of_nat (length got) + Z.of_nat (length l)) with (Z.of_nat (length got + length l)) by lia.
  - destruct rs; try done. destruct p_rslice0 as (? & ? & ?). split_and!; [done| |lia|lia]. by apply prefix_app_r.
  - unfold calm_r in *. destruct rs as [[|]| | | | | |]; auto.
Qed.

(** The room is zeroed and claimed. *)
Lemma ok_zeroed ws w sent K (Q : gmultiset ptok -> Z -> Prop) :
  let to := real_index cap (w_tail w) + room w in
  w_home ws = true ->
  (forall ws' z, w_home ws' = true -> to <= z -> zeroed_until w = z \/ 0 <= zeroed_until w ->
     Q (toks (TW ws' (mkWriter (w_head w) (w_tail w) z) sent :: K)) z) ->
  ok pipe_inv (toks (TW ws w sent :: K))
    (if zeroed_until w <? to then zero (zeroed_until w) (to - zeroed_until w) ;; mret to else mret (zeroed_until w)) Q.
Proof.
  intros to Hws HQ. destruct (Z.ltb_spec (zeroed_until w) to).
  - apply ok_bind. eapply ok_zero; [done|done|done|]. intros Hz. apply HQ; [done|lia|auto].
  - replace w with (mkWriter (w_head w) (w_tail w) (zeroed_until w)) at 1 by (by destruct w). apply HQ; auto.
Qed.

Lemma ok_claim_room ws w z sent K (Q : gmultiset ptok -> unit -> Prop) :
  w_home ws = true -> real_index cap (w_tail w) + room w <= z -> zeroed_until w = z \/ 0 <= zeroed_until w ->
  Q (toks (TW (WWrite (room w)) (mkWriter (w_head w) (w_tail w) z) sent :: K)) () ->
  ok pipe_inv (toks (TW ws (mkWriter (w_head w) (w_tail w) z) sent :: K)) (claim_write (real_index cap (w_tail w)) (room w)) Q.
Proof.
  intros Hws Hto Hz HQ. apply (ok_claim_write ws (mkWriter (w_head w) (w_tail w) z)); [done| |done]. intros σ rs r got Tr Hw Hp.
  assert (0 <= zeroed_until w) by (destruct Hz as [->|]; [by apply zeroed_nonneg in Hp|done]).
  destruct (room_of _ _ _ _ _ _ _ _ _ w Hp) as (Hri & Hr & Hlap); [done..|]. split; [done|exact Hto].
Qed.

Lemma ok_fill_loop src : forall w sent0 acc ws o count,
  w_home ws = true ->
  ok pipe_inv (toks (TW ws w (sent0 ++ acc) :: KW TIdle :: hold_w o)) (fill_loop cap src w count acc o) (filled_ok sent0).
Proof.
  induction src as [|x src IH]; intros w sent0 acc ws o count Hws; cbn [fill_loop]; fold (room w);
    apply ok_bind, ok_zeroed; try done; intros ws' z Hws' Hz Hz0; cbn zeta; cbn [w_head w_tail zeroed_until];
    apply ok_bind, ok_claim_room; try done.
  - apply ok_bind. apply (ok_release_write _ (mkWriter _ _ z) _ _ [] (WIdle false)); [cbn; lia|by right|done].
  - destruct x as [bs|e].
    + set (bs' := firstn (Z.to_nat (room w)) bs). assert (Z.of_nat (length bs') <= Z.max 0 (room w)) by (unfold bs'; rewrite length_firstn; lia).
      apply ok_bind. destruct (Z.eqb_spec (Z.of_nat (length bs')) 0) as [|Hk].
      * by apply (ok_release_write _ (mkWriter _ _ z) _ _ bs' (WIdle false)); [|right|].
      * apply (ok_release_write _ (mkWriter _ _ z) _ _ bs' (WFilled bs')); [done|by left|].
        apply ok_bind, ok_load_closed_w. intros [|]; [done|].
        apply ok_bind. apply (ok_store_tail (mkWriter (w_head w) (w_tail w) z)). apply ok_bind.
        eapply (ok_wake reader put_reader KR pipe_inv 1); [by apply notes_wake_r; left|]. intros k'. cbv beta.
        cbn [w_head w_tail zeroed_until]. rewrite <- app_assoc. by apply IH.
    + apply ok_bind. apply (ok_release_write _ (mkWriter _ _ z) _ _ [] (WIdle false)); [cbn; lia|by right|done].
Qed.

Lemma ok_fill_ready src w sent ws : w_home ws = true ->
  ok pipe_inv (toks (TW ws w sent :: [KW TIdle])) (fill_ready cap src w) (filled_ok sent).
Proof.
  intros Hws. apply ok_bind. eapply (ok_take writer put_writer KW pipe_inv 1); [by apply notes_own_w; auto|].
  intros k o. cbv beta. replace (aw_toks KW (held_by o) ⊎ _) with (toks (TW (WIdle false) w sent :: KW TIdle :: hold_w o))
    by (destruct o; unfold aw_toks; cbn [held_by hold_w fmap list_fmap]; multiset_solver).
  apply ok_bind, ok_pick. intros [|]; cbn [ok mret prog_mret].
  - unfold filled_ok. cbn [the_writer entered w_sleeps w_dropped]. by rewrite app_nil_r.
  - rewrite <- (app_nil_r sent) at 1. by apply ok_fill_loop.
Qed.

(** The writer looks at [head]. *)
Lemma ok_pipe_load_head (st : Z -> wstage) w sent K (Q : gmultiset ptok -> Z -> Prop) :
  (forall h, st h = WIdle false \/ st h = WLook /\ distance cap h (w_tail w) = cap) ->
  (forall h, Q (toks (TW (st h) (mkWriter h (w_tail w) (zeroed_until w)) sent :: K)) h) ->
  forall b, ok pipe_inv (toks (TW (WIdle b) w sent :: K)) load_head Q.
Proof.
  intros Hst HQ b. apply ok_pipe_writer. intros σ rs r got Tr Hw Hp. destruct Hp.
  specialize (Hst (head σ)). specialize (HQ (head σ)).
  eexists _, (st (head σ)), _, sent, (Z.of_nat (length got)).
  split_and!; [done..| |apply HQ]. constructor; try done; cbn [w_head w_tail zeroed_until]; try lia; try done.
  - by destruct Hst as [-> | [-> ?]].
  - by destruct Hst as [-> | [-> ?]].
  - unfold calm_r in *. destruct Hst as [-> | [-> ?]]; destruct rs as [[|]| | | | | |]; naive_solver.
  - destruct Hst as [-> | [-> ?]]; [done|]. by left.
  - by destruct Hst as [-> | [-> ?]].
Qed.

(** At home the writer sees whether the reader has gone. *)
Lemma ok_load_closed_home w sent b K (Q : gmultiset ptok -> bool -> Prop) :
  (forall c : bool, Q (toks (TW (WIdle false) w sent :: K)) c) ->
  ok pipe_inv (toks (TW (WIdle b) w sent :: K)) load_closed Q.
Proof.
  intros HQ. apply ok_pipe_writer. intros σ rs r got Tr Hw Hp. destruct Hp. eexists _, _, w, sent, Hw.
  split_and!; [done..| |apply HQ]. constructor; try done.
  unfold calm_r in *. destruct rs as [[|]| | | | | |]; naive_solver.
Qed.

Lemma ok_load_closed_look w sent K (Q : gmultiset ptok -> bool -> Prop) :
  (forall c : bool, Q (toks (TW (WIdle (negb c)) w sent :: K)) c) ->
  ok pipe_inv (toks (TW WLook w sent :: K)) load_closed Q.
Proof.
  intros HQ. apply ok_pipe_writer. intros σ rs r got Tr Hw Hp. destruct Hp. eexists _, _, w, sent, Hw.
  split_and!; [done..| |apply HQ]. constructor; try done.
  - unfold calm_r in *. destruct rs as [[|]| | | | | |]; naive_solver.
  - destruct (closed σ) eqn:Ec; cbn [negb]; [done|]. destruct p_wwake0; auto.
  - by destruct (closed σ).
Qed.

Lemma ok_fill cx src w sent b :
  ok pipe_inv (toks (TW (WIdle b) w sent :: [KW TIdle])) (fill cap cx src w) (filled_ok sent).
Proof.
  assert (Hnil : forall w s, toks (TW (WIdle s) w sent :: [KW TIdle]) = toks (TW (WIdle s) w (sent ++ []) :: [KW TIdle]))
    by (intros; by rewrite app_nil_r).
  apply ok_bind. apply ok_load_closed_home. intros [|]; [apply Hnil|].
  destruct (distance cap (w_head w) (w_tail w) =? cap); [|by apply ok_fill_ready].
  apply ok_bind. apply (ok_pipe_load_head (fun _ => WIdle false)); [auto|]. intros h. cbn zeta. cbn [w_head w_tail zeroed_until].
  set (w1 := mkWriter h (w_tail w) (zeroed_until w)).
  destruct (distance cap h (w_tail w) =? cap); [|by apply ok_fill_ready].
  apply ok_bind. replace (toks (TW (WIdle false) w1 sent :: [KW TIdle]))
    with (aw_toks KW [TIdle] ⊎ toks [TW (WIdle false) w1 sent]) by (unfold aw_toks; cbn [fmap list_fmap]; multiset_solver).
  eapply (ok_register writer put_writer KW pipe_inv 1); [apply notes_own_w; auto|]. intros k. cbv beta.
  replace (aw_toks KW [TIdle] ⊎ toks [TW (WIdle false) w1 sent])
    with (toks (TW (WIdle false) w1 sent :: [KW TIdle])) by (unfold aw_toks; cbn [fmap list_fmap]; multiset_solver).
  apply ok_bind. apply (ok_pipe_load_head (fun h => if distance cap h (w_tail w) =? cap then WLook else WIdle false)).
  { intros h'. destruct (Z.eqb_spec (distance cap h' (w_tail w)) cap); auto. }
  intros h'. unfold w1. cbn [w_head w_tail zeroed_until]. destruct (distance cap h' (w_tail w) =? cap) eqn:E;
    cbn zeta; cbn [w_head w_tail]; [|by apply ok_fill_ready].
  apply ok_bind, ok_load_closed_look. intros [|]; apply Hnil.
Qed.

Lemma ok_drop_writer w sent b K :
  ok pipe_inv (toks (TW (WIdle b) w sent :: K)) drop_writer (fun m _ => m = toks (TW WGone w sent :: K)).
Proof.
  apply ok_bind. apply ok_pipe_writer. intros σ rs r got Tr Hw Hp. destruct Hp. exists (), WClosing, w, sent, Hw.
  split_and!; [done..| |].
  - constructor; try done; cbn [closed]; [by rewrite orb_true_r|].
    unfold calm_r in *. cbn [tail closed]. destruct rs as [[|]| | | | | |]; naive_solver.
  - eapply (ok_wake reader put_reader KR pipe_inv 1); [by apply notes_wake_r; right|]. done.
Qed.

(** ** The pool *)

Definition ptoks_of (c : client) : list ptok :=
  match c with
  | CReader alive r got sleeps dropped =>
      TR (if alive then RIdle sleeps else RGone) r got :: KR TIdle :: ((fun w => KR (Hold w)) <$> dropped)
  | CWriter alive w sent sleeps dropped =>
      TW (if alive then WIdle sleeps else WGone) w sent :: KW TIdle :: ((fun w => KW (Hold w)) <$> dropped)
  | CAway reading _ dropped => (fun w => (if reading : bool then KR else KW) (Hold w)) <$> dropped
  end.
Definition ptokens (c : client) : gmultiset ptok := toks (ptoks_of c).

Lemma pipe_ops_ok : ops_ok (pipe_code cap) pipe_start pipe_finish pipe_inv ptokens.
Proof.
  assert (Happ : forall L L', toks L ⊎ toks L' = toks (L ++ L')) by (intros; by rewrite list_to_set_disj_app).
  intros c o c'. unfold ptokens.
  destruct c as [[|] r got b dropped|[|] w sent b dropped|]; [|done| |done|done];
    destruct o as [cx dest r'|cx src w'|r'|w']; cbn [pipe_start]; try done; case_decide; subst; try done; intros [= <-].
  - exists (toks (TR (RIdle b) r' got :: [KR TIdle])). split; [rewrite Happ; apply toks_perm; cbn; solve_Permutation|].
    apply ok_bind. eapply ok_mono; [apply ok_pipe_drain|]. intros m d ->. cbn [ok mret prog_mret pipe_finish]. rewrite Happ.
    apply toks_perm. destruct (r_dropped d); cbn; solve_Permutation.
  - exists (toks (TR (RIdle b) r' got :: [KR TIdle])). split; [rewrite Happ; apply toks_perm; cbn; solve_Permutation|].
    apply ok_bind. eapply ok_mono; [apply ok_drop_reader|]. intros m [] ->. cbn [ok mret prog_mret pipe_finish]. rewrite Happ.
    apply toks_perm. cbn. solve_Permutation.
  - exists (toks (TW (WIdle b) w' sent :: [KW TIdle])). split; [rewrite Happ; apply toks_perm; cbn; solve_Permutation|].
    apply ok_bind. eapply ok_mono; [apply ok_fill|]. intros m d ->. cbn [ok mret prog_mret pipe_finish]. rewrite Happ.
    apply toks_perm. destruct (w_dropped d); cbn; solve_Permutation.
  - exists (toks (TW (WIdle b) w' sent :: [KW TIdle])). split; [rewrite Happ; apply toks_perm; cbn; solve_Permutation|].
    apply ok_bind. eapply ok_mono; [apply ok_drop_writer|]. intros m [] ->. cbn [ok mret prog_mret pipe_finish]. rewrite Happ.
    apply toks_perm. cbn. solve_Permutation.
Qed.

Lemma aw_tally_new c : c TIdle = 1%nat -> (forall t, t <> TIdle -> c t = 0%nat) -> aw_tally 1 aw_new c.
Proof.
  intros H1 H0. exists (Waiting None). split_and!; try done.
  - cbn. lia.
  - intros t Ht. rewrite H0 by (by intros ->). by destruct t.
  - intros w. by rewrite H0.
Qed.

Lemma pipe_pool_inv c : pipe_pool cap = Some c -> pool_inv pipe_finish pipe_inv ptokens c.
Proof.
  unfold pipe_pool, pipe. destruct (Z.ltb_spec 0 cap); [|lia]. destruct (cap * 2 <=? usize_MAX); [|done]. intros [= <-].
  right. exists [ptokens (CReader true (mkReader 0 0) [] false []); ptokens (CWriter true (mkWriter 0 0 0) [] false [])].
  split; [by repeat constructor|].
  assert (Hm : forall t, multiplicity t (⋃+ [ptokens (CReader true (mkReader 0 0) [] false []); ptokens (CWriter true (mkWriter 0 0 0) [] false [])])
    = occ t [TR (RIdle false) (mkReader 0 0) []; KR TIdle; TW (WIdle false) (mkWriter 0 0 0) []; KW TIdle]).
  { intros t. change (⋃+ [?x; ?y]) with (x ⊎ (y ⊎ ∅)). rewrite (right_id_L ∅ (⊎)), multiplicity_disj_union. unfold ptokens.
    rewrite !multiplicity_list. cbn [ptoks_of fmap list_fmap occ]. lia. }
  split_and!.
  - exists (RIdle false), (mkReader 0 0), [], (WIdle false), (mkWriter 0 0 0), [], 0, 0. split_and!.
    + constructor; try done; cbn [shared buffer length zeroed_until]; try lia; rewrite ?length_replicate; lia.
    + intros s r l. rewrite Hm. cbn [occ].
      rewrite (decide_ext (TR (RIdle false) (mkReader 0 0) [] = TR s r l) (TR s r l = TR (RIdle false) (mkReader 0 0) [])) by (split; congruence).
      repeat case_decide; done.
    + intros s w l. rewrite Hm. cbn [occ].
      rewrite (decide_ext (TW (WIdle false) (mkWriter 0 0 0) [] = TW s w l) (TW s w l = TW (WIdle false) (mkWriter 0 0 0) [])) by (split; congruence).
      repeat case_decide; done.
  - apply aw_tally_new; [by rewrite Hm|]. intros t Ht. rewrite Hm. cbn [occ]. repeat case_decide; simplify_eq; done.
  - apply aw_tally_new; [by rewrite Hm|]. intros t Ht. rewrite Hm. cbn [occ]. repeat case_decide; simplify_eq; done.
Qed.

Lemma contents_core σ rs r got ws w sent Tr Hw : pcore cap σ rs r got ws w sent Tr Hw ->
  contents cap σ = Some <$> skipn (length got) sent /\
  distance cap (head σ) (tail σ) = Z.of_nat (length sent) - Z.of_nat (length got).
Proof.
  intros []. assert (Hd : distance cap (head σ) (tail σ) = Z.of_nat (length sent) - Z.of_nat (length got))
    by (rewrite p_head0, p_tail0; apply distance_mod; lia).
  split; [|done]. unfold contents. rewrite Hd. apply list_eq. intros j. rewrite !list_lookup_fmap.
  destruct (decide (j < length sent - length got)%nat) as [Hj|Hj].
  - rewrite lookup_seq_lt by lia. cbn [fmap option_fmap option_map].
    destruct (lookup_lt_is_Some_2 (skipn (length got) sent) j) as [b Hb]; [rewrite length_skipn; lia|].
    specialize (p_ring0 _ _ Hb). rewrite Hb. cbn [fmap option_fmap option_map]. f_equal.
    replace ((head σ + Z.of_nat (0 + j)) mod cap) with ((Z.of_nat (length got) + Z.of_nat j) mod cap).
    + apply nth_lookup_Some with (d := None) in p_ring0. by rewrite p_ring0.
    + rewrite p_head0. pose proof (Z.div_mod (Z.of_nat (length got)) (2 * cap) ltac:(lia)) as Hdm.
      replace (Z.of_nat (length got) + Z.of_nat j)
        with (Z.of_nat (length got) mod (2 * cap) + Z.of_nat (0 + j) + (2 * (Z.of_nat (length got) / (2 * cap))) * cap) by lia.
      apply Z_mod_plus_full.
  - rewrite lookup_seq_ge by lia. rewrite lookup_ge_None_2; [done|]. rewrite length_skipn. lia.
Qed.

Lemma ptokens_tr t c : multiplicity t (ptokens c) = occ t (ptoks_of c).
Proof. apply multiplicity_list. Qed.

Lemma occ_fmap_inj {A B} `{EqDecision A} `{EqDecision B} (f : A -> B) `{!Inj (=) (=) f} x l : occ (f x) (f <$> l) = occ x l.
Proof.
  induction l as [|y l IH]; [done|]. rewrite fmap_cons. cbn [occ]. rewrite IH.
  by rewrite (decide_ext (f x = f y) (x = y)) by (split; [apply (inj f)|congruence]).
Qed.

Lemma occ_fmap_other {A B} `{EqDecision B} (f : A -> B) x l : (forall y, f y <> x) -> occ x (f <$> l) = 0%nat.
Proof. intros Hf. induction l as [|y l IH]; [done|]. rewrite fmap_cons. cbn [occ]. rewrite IH, decide_False; [done|]. intros He. by eapply Hf. Qed.

Lemma ptokens_hold w c : multiplicity (KR (Hold w)) (ptokens c) = occ w (back_r c) /\ multiplicity (KW (Hold w)) (ptokens c) = occ w (back_w c).
Proof.
  assert (Inj (=) (=) (fun w => KR (Hold w))) by (by intros ?? [=]).
  assert (Inj (=) (=) (fun w => KW (Hold w))) by (by intros ?? [=]).
  rewrite !ptokens_tr. destruct c as [a r l b d|a x l b d|[|] l d]; cbn [ptoks_of back_r back_w occ];
    rewrite ?decide_False by done; cbn [Nat.add];
    rewrite ?(occ_fmap_inj (fun w => KR (Hold w))), ?(occ_fmap_inj (fun w => KW (Hold w))); try done;
    rewrite ?occ_fmap_other by done; done.
Qed.

Lemma ptokens_rest t c : is_busy t = true ->
  multiplicity (KR t) (ptokens c) = 0%nat /\ multiplicity (KW t) (ptokens c) = 0%nat.
Proof.
  intros Ht. rewrite !ptokens_tr. destruct c as [a r l b d|a x l b d|[|] l d]; cbn [ptoks_of occ];
    rewrite ?occ_fmap_other by (intros ? [= <-]; done); rewrite ?decide_False by (by (done || intros [= ->])); done.
Qed.

(** At rest an [AtomicWaker] has woken or given back what it owes. *)
Lemma aw_tally_rest a c : aw_tally 1 a c -> (forall t, is_busy t = true -> c t = 0%nat) ->
  forall l, (forall w, c (Hold w) = occ w l) -> woken a ++ l ≡ₚ owed (log a).
Proof.
  intros (ph & _ & _ & _ & _ & _ & Hb & Hd & _) H0 l Hl. apply Permutation_occ. intros w. rewrite <- Hd, occ_app, Hl.
  destruct ph as [o|w' j o flag|o j]; [cbn; lia|exfalso..].
  - specialize (Hb (TReg w' j) eq_refl). rewrite H0, decide_True in Hb by done. done.
  - specialize (Hb (TTake o j) eq_refl). rewrite H0, decide_True in Hb by done. done.
Qed.
End proof.

(** C5: in every interleaving of the reader's drains, the writer's fills and
    the drops of the two sides, for every behaviour of the source and of the
    destination: the slices of the ring that the two sides hold never
    overlap and never contain an uninitialised byte, and no debug assertion
    fails.  At rest the bytes that entered the pipe are those delivered, in
    order, followed by what the ring holds, at most [cap] bytes; the pipe is
    closed once a side has gone; and no wake-up is lost: as long as a side
    that sleeps has its waker stored, there is nothing for it to do (nothing
    to read, or no room) and the pipe is open, and all the wakers taken from
    the two cells were woken, or given back to their side. *)
Theorem pipe_in_order (cap : Z) (c0 c : config Pipe op res client) alive r got sleeps dr alive' w sent sleeps' dw :
  pipe_pool cap = Some c0 ->
  reachable (pipe_code cap) pipe_start pipe_finish c0 c ->
  existsb thread_aborted (threads c) = false ->
  existsb thread_crashed (threads c) = false /\
  (Forall (fun t => running t = None) (threads c) ->
   CReader alive r got sleeps dr ∈ (fun t => owns t) <$> threads c ->
   CWriter alive' w sent sleeps' dw ∈ (fun t => owns t) <$> threads c ->
   (exists rest, sent = got ++ rest /\ contents cap (shared c) = Some <$> rest /\ Z.of_nat (length rest) <= cap) /\
   closed (shared c) = negb alive || negb alive' /\
   (alive = true -> sleeps = true -> stored (log (reader (shared c))) <> None ->
      sent = got /\ closed (shared c) = false) /\
   (alive' = true -> sleeps' = true -> stored (log (writer (shared c))) <> None ->
      Z.of_nat (length sent) = Z.of_nat (length got) + cap /\ closed (shared c) = false) /\
   woken (reader (shared c)) ++ (threads c ≫= fun t => back_r (owns t)) ≡ₚ owed (log (reader (shared c))) /\
   woken (writer (shared c)) ++ (threads c ≫= fun t => back_w (owns t)) ≡ₚ owed (log (writer (shared c)))).
Proof.
  intros Hpool [es Hr] Ha.
  assert (Hcap : 0 < cap) by (unfold pipe_pool, pipe in Hpool; destruct (Z.ltb_spec 0 cap); [done|by vm_compute in Hpool]).
  assert (Hinv : pool_inv pipe_finish (pipe_inv cap) ptokens c).
  { eapply run_inv; [by apply pipe_ops_ok| |exact Hr]. by apply pipe_pool_inv. }
  split; [by eapply pool_inv_no_crash|]. intros Hidle Hrd Hwr.
  destruct (pool_inv_elim _ _ _ c Hinv Ha) as (ms & HF & (rs & r0 & got0 & ws & w0 & sent0 & Tr & Hw & Hp & HR & HW) & HA & HB).
  rewrite (idle_tokens _ _ ptokens _ _ HF Hidle) in HR, HW, HA, HB.
  assert (Hown : forall t x, x ∈ (fun t => owns t) <$> threads c -> t ∈ ptoks_of x ->
            (0 < multiplicity t (⋃+ ((fun t => ptokens (owns t)) <$> threads c)))%nat).
  { intros t x Hx Ht. rewrite multiplicity_owned. apply list_elem_of_fmap in Hx as (th & -> & Hth).
    apply occ_elem in Ht. clear -Hth Ht. induction Hth as [th l|th y l Hth IH]; rewrite fmap_cons; cbn [sum_list_with];
      unfold id in *; rewrite ?ptokens_tr; lia. }
  assert (TR rs r0 got0 = TR (if alive then RIdle sleeps else RGone) r got) as [= -> -> ->].
  { specialize (HR (if alive then RIdle sleeps else RGone) r got). case_decide; [done|].
    specialize (Hown (TR (if alive then RIdle sleeps else RGone) r got) _ Hrd). rewrite HR in Hown.
    exfalso. assert (0 < 0)%nat; [apply Hown; by left|lia]. }
  assert (TW ws w0 sent0 = TW (if alive' then WIdle sleeps' else WGone) w sent) as [= -> -> ->].
  { specialize (HW (if alive' then WIdle sleeps' else WGone) w sent). case_decide; [done|].
    specialize (Hown (TW (if alive' then WIdle sleeps' else WGone) w sent) _ Hwr). rewrite HW in Hown.
    exfalso. assert (0 < 0)%nat; [apply Hown; by left|lia]. }
  destruct (contents_core cap Hcap _ _ _ _ _ _ _ _ _ Hp) as [Hcont Hdist]. pose proof Hp as []. split_and!.
  - exists (skipn (length got) sent). split_and!; [|done|rewrite length_skipn; lia].
    destruct p_pre0 as [l ->]. by rewrite drop_app_length.
  - rewrite p_closed0. by destruct alive, alive'.
  - intros -> -> Hs. cbn match in p_rwake0, p_rempty0. unfold calm_r in p_rwake0.
    assert (tail (shared c) = r_tail r /\ closed (shared c) = false) as [Ht Hcl]
      by (destruct p_rwake0 as [?|[?|[Hx|Hx]]]; [done|done|by destruct alive'..]).
    split; [|done]. rewrite p_rhead0, <- Ht, Hdist in p_rempty0. destruct p_pre0 as [l ->]. rewrite length_app in *.
    destruct l; [by rewrite app_nil_r|]. cbn [length] in *. lia.
  - intros -> -> Hs. cbn match in p_wwake0, p_wfull0. unfold calm_w in p_wwake0.
    assert (head (shared c) = w_head w /\ closed (shared c) = false) as [Ht Hcl]
      by (destruct p_wwake0 as [?|[?|[Hx|Hx]]]; [done|done|by destruct alive..]).
    split; [|done]. rewrite p_wtail0, <- Ht, Hdist in p_wfull0. lia.
  - eapply aw_tally_rest; [exact HA| |].
    + intros t Ht. apply (owned_none ptokens). intros x. by apply ptokens_rest.
    + intros x. rewrite occ_bind. apply (owned_count ptokens (KR (Hold x)) (fun c => occ x (back_r c))). intros y. apply ptokens_hold.
  - eapply aw_tally_rest; [exact HB| |].
    + intros t Ht. apply (owned_none ptokens). intros x. by apply ptokens_rest.
    + intros x. rewrite occ_bind. apply (owned_count ptokens (KW (Hold x)) (fun c => occ x (back_w c))). intros y. apply ptokens_hold.
Qed.

(** A pipe of two bytes: the reader finds it empty and sleeps, the writer
    fills it and wakes the reader, finds it full and sleeps; the reader takes
    one byte and wakes the writer, which writes the third. *)
Definition pipe_start2 : config Pipe op res client :=
  default (Config (mkPipe 0 0 aw_new aw_new false [] None None) []) (pipe_pool 2).
Definition pipe_run (es : list (Conc.event op)) : config Pipe op res client :=
  after (pipe_code 2) pipe_start pipe_finish es pipe_start2.
Definition pipe_run1 : list (Conc.event op) :=
  [EStart 0%nat (Drain 5 [Ok 9%nat] (mkReader 0 0))] ++ replicate 8 (EStep 0%nat false) ++
  [EStart 1%nat (Fill 6 [Ok [7; 8; 9]; Ok [10]] (mkWriter 0 0 0))] ++ replicate 19 (EStep 1%nat false) ++
  [EStart 1%nat (Fill 6 [Ok [9]; Ok [10]] (mkWriter 0 2 2))] ++ replicate 9 (EStep 1%nat false).
Definition pipe_run2 : list (Conc.event op) :=
  pipe_run1 ++ [EStart 0%nat (Drain 5 [Ok 1%nat; Ok 0%nat] (mkReader 0 0))] ++ replicate 17 (EStep 0%nat false) ++
  [EStart 1%nat (Fill 6 [Ok [9]; Ok [10]] (mkWriter 0 2 2))] ++ replicate 18 (EStep 1%nat false).

Lemma pipe_in_order_witness :
  pipe_pool 2 = Some pipe_start2 /\
  reachable (pipe_code 2) pipe_start pipe_finish pipe_start2 (pipe_run pipe_run1) /\
  reachable (pipe_code 2) pipe_start pipe_finish pipe_start2 (pipe_run pipe_run2) /\
  (fun t => owns t) <$> threads (pipe_run pipe_run1)
    = [CReader true (mkReader 0 0) [] true []; CWriter true (mkWriter 0 2 2) [7; 8] true []] /\
  (fun t => owns t) <$> threads (pipe_run pipe_run2)
    = [CReader true (mkReader 1 2) [7] false []; CWriter true (mkWriter 1 3 2) [7; 8; 9] false []] /\
  closed (shared (pipe_run pipe_run1)) = false /\
  (exists rest, [7; 8; 9] = [7] ++ rest /\ contents 2 (shared (pipe_run pipe_run2)) = Some <$> rest /\ Z.of_nat (length rest) <= 2).
Proof.
  assert (Hp : pipe_pool 2 = Some pipe_start2) by (vm_compute; reflexivity).
  assert (H1 : reachable (pipe_code 2) pipe_start pipe_finish pipe_start2 (pipe_run pipe_run1))
    by (apply after_reachable; vm_compute; reflexivity).
  assert (H2 : reachable (pipe_code 2) pipe_start pipe_finish pipe_start2 (pipe_run pipe_run2))
    by (apply after_reachable; vm_compute; reflexivity).
  assert (E1 : (fun t => owns t) <$> threads (pipe_run pipe_run1)
    = [CReader true (mkReader 0 0) [] true []; CWriter true (mkWriter 0 2 2) [7; 8] true []]) by (vm_compute; reflexivity).
  assert (E2 : (fun t => owns t) <$> threads (pipe_run pipe_run2)
    = [CReader true (mkReader 1 2) [7] false []; CWriter true (mkWriter 1 3 2) [7; 8; 9] false []]) by (vm_compute; reflexivity).
  split; [exact Hp|split; [exact H1|split; [exact H2|split; [exact E1|split; [exact E2|split]]]]].
  - eapply (pipe_in_order 2 _ _ true (mkReader 0 0) [] true [] true (mkWriter 0 2 2) [7; 8] true [] Hp H1);
      [vm_compute; reflexivity|apply all_idle; vm_compute; reflexivity|rewrite E1; by left|rewrite E1; by right; left|..];
      vm_compute; congruence.
  - eapply (pipe_in_order 2 _ _ true (mkReader 1 2) [7] false [] true (mkWriter 1 3 2) [7; 8; 9] false [] Hp H2);
      [vm_compute; reflexivity|apply all_idle; vm_compute; reflexivity|rewrite E2; by left|rewrite E2; by right; left].
Defined.

(** C26: the reader looks at [closed] after its last look at [tail].  A
    writer that stores a byte and then drops itself in between makes it
    answer [Ok(0)], the end of the stream, with the byte still in the ring. *)
Definition lost_run : list (Conc.event op) :=
  [EStart 0%nat (Drain 5 [Ok 9%nat] (mkReader 0 0))] ++ replicate 6 (EStep 0%nat false) ++
  [EStart 1%nat (Fill 6 [Ok [7]] (mkWriter 0 0 0))] ++ replicate 19 (EStep 1%nat false) ++
  [EStart 1%nat (DropWriter (mkWriter 0 1 2))] ++ replicate 6 (EStep 1%nat false) ++ [EStep 0%nat false].

Theorem pipe_lost_tail :
  reachable (pipe_code 2) pipe_start pipe_finish pipe_start2 (pipe_run lost_run) /\
  (threads (pipe_run lost_run) !! 0%nat) ≫= running
    = Some (Drain 5 [Ok 9%nat] (mkReader 0 0), Ret (RDrain (mkDrained (mkReader 0 0) (Ready (Ok 0)) [] false None))) /\
  contents 2 (shared (pipe_run lost_run)) = [Some 7].
Proof.
  split; [apply after_reachable; vm_compute; reflexivity|split; vm_compute; reflexivity].
Qed.
