(* ===== verification/Tokens.v ===== *)
(** Proofs over lists of tokens.

    [okl I L p Q]: the tokens [L] justify [p], which returns with tokens [L']
    and a result that satisfy [Q].  A call takes some of the tokens and keeps
    the others ([okl_call]).  For an invariant that counts tokens, one action
    exchanges some for others ([okl_act]).  [entries] ties one family of
    tokens to a finite map; [held] says that somebody has one of some
    tokens. *)

From stdpp Require Import gmap.
From S2P Require Import Prelude Conc.

Section okl.
Context {Σ K : Type} `{Countable K} (I : Σ -> gmultiset K -> Prop).
Local Abbreviation toks := (list_to_set_disj (A:=K) (C:=gmultiset K)).

Definition okl {A} (L : list K) (p : prog Σ A) (Q : list K -> A -> Prop) : Prop :=
  ok I (toks L) p (fun m a => exists L', m = toks L' /\ Q L' a).

Lemma okl_ret {A} L (a : A) (Q : list K -> A -> Prop) : Q L a -> okl L (mret a) Q.
Proof. intros HQ. by exists L. Qed.

Lemma okl_mono {A} L (p : prog Σ A) (Q Q' : list K -> A -> Prop) :
  okl L p Q -> (forall L a, Q L a -> Q' L a) -> okl L p Q'.
Proof. intros Hp HQ. eapply ok_mono; [exact Hp|]. intros m a (L' & -> & ?). exists L'. auto. Qed.

Lemma okl_perm {A} L L' (p : prog Σ A) Q : L ≡ₚ L' -> okl L' p Q -> okl L p Q.
Proof. intros HL. unfold okl. by rewrite (list_to_set_disj_perm L L' HL). Qed.

Lemma okl_ret_perm {A} L L' (a : A) (Q : list K -> A -> Prop) : L ≡ₚ L' -> Q L' a -> okl L (mret a) Q.
Proof. intros HL HQ. eapply okl_perm; [exact HL|]. by apply okl_ret. Qed.

Lemma okl_pick {A} L (k : bool -> prog Σ A) Q : (forall b, okl L (k b) Q) -> okl L (Pick k) Q.
Proof. done. Qed.

Lemma okl_bind {A B} L (p : prog Σ A) (k : A -> prog Σ B) Q :
  okl L p (fun L' a => okl L' (k a) Q) -> okl L (p ≫= k) Q.
Proof. intros Hp. apply ok_bind. eapply ok_mono; [exact Hp|]. intros m a (L' & -> & HQ). exact HQ. Qed.

Lemma okl_frame {A} L F (p : prog Σ A) Q :
  okl L p (fun L' a => Q (L' ++ F) a) -> okl (L ++ F) p Q.
Proof.
  intros Hp. unfold okl. rewrite list_to_set_disj_app. eapply ok_mono; [apply ok_frame, Hp|].
  intros m a (m1 & -> & L' & -> & HQ). exists (L' ++ F). by rewrite list_to_set_disj_app.
Qed.

(** A call with some of the tokens; the others are kept. *)
Lemma okl_call {A B} L L1 F (p : prog Σ A) (k : A -> prog Σ B) P Q :
  okl L1 p P -> L ≡ₚ L1 ++ F -> (forall L' a, P L' a -> okl (L' ++ F) (k a) Q) -> okl L (p ≫= k) Q.
Proof.
  intros Hp HL Hk. eapply okl_perm; [exact HL|]. apply okl_bind, okl_frame. eapply okl_mono; [exact Hp|]. auto.
Qed.

(** ** Invariants that count *)

Context (tally : Σ -> (K -> nat) -> Prop).
Context (tally_ext : forall σ c c', (forall t, c t = c' t) -> tally σ c -> tally σ c').
Context (tally_inv : forall σ m, I σ m <-> tally σ (fun t => multiplicity t m)).

Lemma okl_act {A} (f : Σ -> option (Σ * prog Σ A)) L Q :
  (forall σ c, tally σ (fun t => occ t L + c t)%nat ->
     match f σ with
     | None => True
     | Some (σ', p) => is_abort p = true \/ exists a L', p = Ret a /\ tally σ' (fun t => occ t L' + c t)%nat /\ Q L' a
     end) ->
  okl L (Act f) Q.
Proof.
  intros Hf. apply (ok_exchange _ tally); [exact tally_ext|exact tally_inv|]. intros σ c Hσ. specialize (Hf σ c Hσ).
  destruct (f σ) as [[σ' p]|]; [|done]. destruct Hf as [?|(a & L' & -> & Ht & HQ)]; [by left|right]. exists a, L'. eauto.
Qed.

Lemma okl_atomic {A} (f : Σ -> A * Σ) L Q :
  (forall σ c, tally σ (fun t => occ t L + c t)%nat ->
     exists L', tally (f σ).2 (fun t => occ t L' + c t)%nat /\ Q L' (f σ).1) ->
  okl L (atomic f) Q.
Proof.
  intros Hf. apply okl_act. intros σ c Hσ. destruct (Hf σ c Hσ) as (L' & Ht & HQ). destruct (f σ) as [a σ']. right. by exists a, L'.
Qed.

Lemma okl_await {A} (f : Σ -> option (A * Σ)) L Q :
  (forall σ c a σ', tally σ (fun t => occ t L + c t)%nat -> f σ = Some (a, σ') ->
     exists L', tally σ' (fun t => occ t L' + c t)%nat /\ Q L' a) ->
  okl L (await f) Q.
Proof.
  intros Hf. apply okl_act. intros σ c Hσ. destruct (f σ) as [[a σ']|] eqn:E; [|done].
  destruct (Hf σ c a σ' Hσ E) as (L' & Ht & HQ). right. by exists a, L'.
Qed.

(** After the action, tokens are exchanged without another one. *)
Lemma okl_after {A} (f : Σ -> A * Σ) L (Q Q' : list K -> A -> Prop) : okl L (atomic f) Q ->
  (forall L' a, Q L' a -> exists L2, Q' L2 a /\
     forall σ c, tally σ (fun t => occ t L' + c t)%nat -> tally σ (fun t => occ t L2 + c t)%nat) ->
  okl L (atomic f) Q'.
Proof.
  intros Hp HQ σ fr HI. specialize (Hp σ fr HI). simpl in *. destruct (f σ) as [a σ'].
  destruct Hp as [?|(m & HI' & L' & -> & HL)]; [by left|right]. destruct (HQ _ _ HL) as (L2 & ? & Ht).
  exists (toks L2). split; [|by exists L2]. apply tally_inv. apply tally_inv in HI'.
  eapply tally_ext; [|apply (Ht _ (fun t => multiplicity t fr)); eapply tally_ext; [|exact HI']];
    intros t; cbn beta; by rewrite multiplicity_disj_union, multiplicity_list.
Qed.

(** ** Operations *)

Context {Op R C : Type} (finish : C -> Op -> R -> C) (client_toks : C -> list K).

(** One operation of a client whose tokens are a list. *)
Lemma okl_op c c' L (p : prog Σ R) o : client_toks c ≡ₚ client_toks c' ++ L ->
  okl L p (fun L' x => client_toks (finish c' o x) ≡ₚ client_toks c' ++ L') ->
  exists m, toks (client_toks c) = toks (client_toks c') ⊎ m /\
    ok I m p (fun m' x => toks (client_toks (finish c' o x)) = toks (client_toks c') ⊎ m').
Proof.
  intros Hc Hp. exists (toks L).
  split; [by rewrite (list_to_set_disj_perm _ _ Hc), list_to_set_disj_app|].
  eapply ok_mono; [exact Hp|]. intros m x (L' & -> & HL). by rewrite (list_to_set_disj_perm _ _ HL), list_to_set_disj_app.
Qed.
End okl.

Arguments okl_frame {Σ K _ _ I A} L F p Q.
Arguments okl_call {Σ K _ _ I A B} L L1 F p k P Q.
Arguments okl_op {Σ K _ _ I Op R C finish client_toks} c c' L p o.

(** A token of a pool at rest is the token of a thread. *)
Lemma owned_by {Σ Op R C K} `{Countable K} (tok : C -> gmultiset K) (t : K) (ts : list (thread Σ Op R C)) :
  (0 < multiplicity t (⋃+ ((fun t => tok (owns t)) <$> ts)))%nat <->
  exists th, th ∈ ts /\ (0 < multiplicity t (tok (owns th)))%nat.
Proof.
  rewrite multiplicity_owned. induction ts as [|th ts IH]; cbn.
  - split; [lia|]. intros (? & Hx & _). by apply elem_of_nil in Hx.
  - unfold id in *. split.
    + intros Hp. destruct (decide (0 < multiplicity t (tok (owns th)))%nat); [exists th; split; [by left|done]|].
      destruct IH as [IH _]. destruct IH as (th' & ? & ?); [lia|]. exists th'. split; [by right|done].
    + intros (th' & [->|Hin]%elem_of_cons & Hp); [lia|].
      assert (0 < sum_list_with (fun x => x) ((fun t0 => multiplicity t (tok (owns t0))) <$> ts))%nat; [|lia].
      apply IH. by exists th'.
Qed.

(** * Somebody holds one of some tokens *)

Section held.
Context {T : Type} `{EqDecision T}.

Definition held (c : T -> nat) (X : list T) : Prop := exists t, t ∈ X /\ (0 < c t)%nat.

Lemma held_ext c c' X : (forall t, c t = c' t) -> held c X -> held c' X.
Proof. intros E (t & ? & ?). exists t. by rewrite <- E. Qed.

(** The tokens that survive an exchange. *)
Lemma held_keep L L' c X :
  Forall (fun t => (occ t L <= occ t L')%nat) X -> held (fun t => occ t L + c t)%nat X -> held (fun t => occ t L' + c t)%nat X.
Proof. intros HX (t & Ht & Hc). exists t. split; [done|]. rewrite Forall_forall in HX. specialize (HX t Ht). lia. Qed.

Lemma held_have t L c X : t ∈ L -> t ∈ X -> held (fun t => occ t L + c t)%nat X.
Proof. intros HL HX. exists t. split; [done|]. apply occ_elem in HL. lia. Qed.

Lemma held_weaken X X' c : X ⊆ X' -> held c X -> held c X'.
Proof. intros HX (t & Ht & Hc). exists t. auto. Qed.
End held.

Ltac promise t := intros; right; apply (held_have t); rewrite !elem_of_cons; tauto.

(** * A token for every entry of a map *)

Section entries.
Context {K V T : Type} `{Countable K, EqDecision V, EqDecision T} (f : K -> V -> T).

Definition entries (c : T -> nat) (M : gmap K V) : Prop :=
  forall k v, c (f k v) = if bool_decide (M !! k = Some v) then 1%nat else 0%nat.

Lemma entries_held c M k v : entries c M -> (0 < c (f k v))%nat -> M !! k = Some v.
Proof. intros HM. rewrite HM. case_bool_decide; [done|lia]. Qed.

Context `{!Inj2 (=) (=) (=) f}.

Lemma occ_entry k v k' v' L :
  occ (f k' v') (f k v :: L) = ((if bool_decide (k = k' /\ v = v') then 1 else 0) + occ (f k' v') L)%nat.
Proof.
  cbn [occ]. f_equal. case_bool_decide as Hk; [by destruct Hk as [-> ->]; rewrite decide_True|].
  rewrite decide_False; [done|]. intros E. apply Hk. by apply (inj2 f) in E as [-> ->].
Qed.

Lemma entries_ext c c' M : (forall k v, c (f k v) = c' (f k v)) -> entries c M -> entries c' M.
Proof. intros E HM k v. by rewrite <- E. Qed.

Lemma entries_add c M k v L :
  entries c M -> M !! k = None -> (forall k v, occ (f k v) L = 0%nat) ->
  entries (fun t => occ t (f k v :: L) + c t)%nat (<[k := v]> M).
Proof.
  intros HM Hk HL k' v'. cbv beta. rewrite occ_entry, HL, HM. destruct (decide (k = k')) as [<-|Hne].
  - rewrite lookup_insert_eq, Hk. repeat case_bool_decide; naive_solver.
  - rewrite lookup_insert_ne by done. rewrite (bool_decide_eq_false_2 (k = k' /\ _)) by tauto. lia.
Qed.

Lemma entries_del c M k v L :
  entries (fun t => occ t (f k v :: L) + c t)%nat M -> (forall k v, occ (f k v) L = 0%nat) ->
  M !! k = Some v /\ entries c (delete k M).
Proof.
  intros HM HL. assert (Hk : M !! k = Some v).
  { eapply entries_held; [exact HM|]. cbv beta. rewrite occ_entry, bool_decide_eq_true_2 by done. lia. }
  split; [done|]. intros k' v'. specialize (HM k' v'). cbv beta in HM. rewrite occ_entry, HL in HM.
  destruct (decide (k = k')) as [<-|Hne].
  - rewrite lookup_delete_eq. rewrite Hk in HM. rewrite (bool_decide_eq_false_2 (None = _)) by done.
    repeat case_bool_decide; naive_solver lia.
  - rewrite lookup_delete_ne by done. rewrite (bool_decide_eq_false_2 (k = k' /\ _)) in HM by tauto. lia.
Qed.
End entries.
