(* ===== verification/Channel.v ===== *)
(** [platform/channel/channel.rs]: the asynchronous channel.

    A concurrent queue and three events: [send_ops] for senders that wait for
    room, [recv_ops] for receivers that wait for a message, [stream_ops] for
    receivers polled as streams.  The queue is used through its specification
    (QueueSpec, which Queue discharges): each of its operations takes effect
    in one action; a push into a queue of capacity one may say that it is
    full while a pop is finishing, and the unbounded queue may say that it is
    not empty.  The events are used through their interface.  Messages are
    names.  [hist], the changes of the queue, and [asked], whether [close] was
    called by name, are auxiliary. *)

From stdpp Require Import gmap.
From S2P Require Import Prelude Conc Tokens EventApi QueueSpec.
From S2P Require Event.

Inductive evk := SendOps | RecvOps | StreamOps.
Inductive side := Senders | Receivers.
#[export] Instance evk_eq : EqDecision evk.
Proof. solve_decision. Defined.
#[export] Instance side_eq : EqDecision side.
Proof. solve_decision. Defined.

Inductive TrySendError := SendFull (m : nat) | SendClosed (m : nat).
Inductive TryRecvError := RecvEmpty | RecvClosed.

Record Channel (E : Type) := mkChannel {
  queue : aqueue nat; hist : list (entry nat); asked : bool;
  send_ops : E; recv_ops : E; stream_ops : E;
  sender_count : Z; receiver_count : Z }.
Arguments mkChannel {E}.
Arguments queue {E}.
Arguments hist {E}.
Arguments asked {E}.
Arguments send_ops {E}.
Arguments recv_ops {E}.
Arguments stream_ops {E}.
Arguments sender_count {E}.
Arguments receiver_count {E}.

Section code.
Context {E} `{EventOps E} (cap : option Z).

Definition get_ev (k : evk) (σ : Channel E) : E :=
  match k with SendOps => send_ops σ | RecvOps => recv_ops σ | StreamOps => stream_ops σ end.
Definition put_ev (k : evk) (e : E) (σ : Channel E) : Channel E :=
  mkChannel (queue σ) (hist σ) (asked σ)
    (match k with SendOps => e | _ => send_ops σ end) (match k with RecvOps => e | _ => recv_ops σ end)
    (match k with StreamOps => e | _ => stream_ops σ end) (sender_count σ) (receiver_count σ).
Definition put_queue (q : aqueue nat) (e : entry nat) (a : bool) (σ : Channel E) : Channel E :=
  mkChannel q (hist σ ++ [e]) a (send_ops σ) (recv_ops σ) (stream_ops σ) (sender_count σ) (receiver_count σ).
Definition get_count (s : side) (σ : Channel E) : Z :=
  match s with Senders => sender_count σ | Receivers => receiver_count σ end.
Definition put_count (s : side) (n : Z) (σ : Channel E) : Channel E :=
  mkChannel (queue σ) (hist σ) (asked σ) (send_ops σ) (recv_ops σ) (stream_ops σ)
    (match s with Senders => n | Receivers => sender_count σ end) (match s with Senders => receiver_count σ | Receivers => n end).

(** ** The queue *)

Definition queue_push (m : nat) : prog (Channel E) (result unit (@PushError nat)) :=
  Pick (fun lax => atomic (fun σ =>
    if closed (queue σ) then (Err (PushClosed m), σ)
    else if full cap (queue σ) || lax && bool_decide (cap = Some 1) then (Err (Full m), σ)
    else (Ok (), put_queue (mkAq (items (queue σ) ++ [m]) false) (EPush m) (asked σ) σ))).
Definition queue_pop : prog (Channel E) (result nat PopError) :=
  atomic (fun σ =>
    match items (queue σ) with
    | m :: l => (Ok m, put_queue (mkAq l (closed (queue σ))) (EPop m) (asked σ) σ)
    | [] => (Err (if closed (queue σ) then PopClosed else Empty), σ)
    end).
Definition queue_close (ask : bool) : prog (Channel E) bool :=
  atomic (fun σ =>
    if closed (queue σ) then (false, σ)
    else (true, put_queue (mkAq (items (queue σ)) true) EClose (asked σ || ask) σ)).

(** ** [Channel::close] *)

Definition notify_ev (k : evk) (n : Z) : prog (Channel E) unit := notify_p (get_ev k) (put_ev k) n.

Definition close (ask : bool) : prog (Channel E) bool :=
  b ← queue_close ask;
  if b : bool then
    notify_ev SendOps usize_MAX ;; notify_ev RecvOps usize_MAX ;; notify_ev StreamOps usize_MAX ;; mret true
  else mret false.

(** ** [Sender] *)

Definition try_send (m : nat) : prog (Channel E) (result unit TrySendError) :=
  r ← queue_push m;
  match r with
  | Ok _ => notify_ev RecvOps 1 ;; notify_ev StreamOps usize_MAX ;; mret (Ok ())
  | Err (Full m) => mret (Err (SendFull m))
  | Err (PushClosed m) => mret (Err (SendClosed m))
  end.

(** A local variable that holds a listener goes out of scope. *)
Definition drop_opt (k : evk) (l : option ptr) : prog (Channel E) unit :=
  match l with Some p => drop_p (get_ev k) (put_ev k) p | None => mret () end.

(** [notify(1)] unless the capacity is one. *)
Definition notify_next (k : evk) : prog (Channel E) unit :=
  match cap with Some 1 => mret () | _ => notify_ev k 1 end.

(** [None]: the future was dropped at its [await], with the message. *)
Fixpoint send_from (fuel w : nat) (m : nat) (listener : option ptr) : prog (Channel E) (option (result unit nat)) :=
  match fuel with
  | O => OutOfFuel
  | S fuel =>
      r ← try_send m;
      match r with
      | Ok _ => notify_next SendOps ;; drop_opt SendOps listener ;; mret (Some (Ok ()))
      | Err (SendClosed m) => drop_opt SendOps listener ;; mret (Some (Err m))
      | Err (SendFull m) =>
          match listener with
          | None => l ← listen_p (get_ev SendOps) (put_ev SendOps); send_from fuel w m (Some l)
          | Some l =>
              b ← await_p (get_ev SendOps) (put_ev SendOps) l w;
              if b : bool then send_from fuel w m None else mret None
          end
      end
  end.
Definition send (fuel w : nat) (m : nat) := send_from fuel w m None.

(** [Drop] and [Clone] of the handles of a side. *)
Definition drop_handle (s : side) : prog (Channel E) unit :=
  n ← fetch_sub (get_count s) (put_count s) 1;
  if n =? 1 then close false ;; mret () else mret ().
Definition clone_handle (s : side) : prog (Channel E) unit :=
  n ← fetch_add (get_count s) (put_count s) 1;
  if usize_MAX / 2 <? n then ProcAbort else mret ().

(** ** [Receiver] *)

Definition try_recv : prog (Channel E) (result nat TryRecvError) :=
  r ← queue_pop;
  match r with
  | Ok m => notify_ev SendOps 1 ;; mret (Ok m)
  | Err Empty => mret (Err RecvEmpty)
  | Err PopClosed => mret (Err RecvClosed)
  end.

Fixpoint recv_from (fuel w : nat) (listener : option ptr) : prog (Channel E) (option (result nat unit)) :=
  match fuel with
  | O => OutOfFuel
  | S fuel =>
      r ← try_recv;
      match r with
      | Ok m => notify_next RecvOps ;; drop_opt RecvOps listener ;; mret (Some (Ok m))
      | Err RecvClosed => drop_opt RecvOps listener ;; mret (Some (Err ()))
      | Err RecvEmpty =>
          match listener with
          | None => l ← listen_p (get_ev RecvOps) (put_ev RecvOps); recv_from fuel w (Some l)
          | Some l =>
              b ← await_p (get_ev RecvOps) (put_ev RecvOps) l w;
              if b : bool then recv_from fuel w None else mret None
          end
      end
  end.
Definition recv (fuel w : nat) := recv_from fuel w None.

(** [Receiver::drop], then the drop of its listener. *)
Definition drop_receiver (listener : option ptr) : prog (Channel E) unit :=
  drop_handle Receivers ;; drop_opt StreamOps listener.

(** One poll of the receiver as a stream: the answer and its listener.
    [outer]: at the head of the outer loop. *)
Fixpoint poll_next (fuel w : nat) (outer : bool) (listener : option ptr)
    : prog (Channel E) (poll (option nat) * option ptr) :=
  match fuel with
  | O => OutOfFuel
  | S fuel =>
      match outer, listener with
      | true, Some l =>
          r ← on_event (get_ev StreamOps) (put_ev StreamOps) (ev_poll l w);
          match r with
          | Pending => mret (Pending, Some l)
          | Ready _ => poll_next fuel w false None
          end
      | _, _ =>
          r ← try_recv;
          match r with
          | Ok m => drop_opt StreamOps listener ;; mret (Ready (Some m), None)
          | Err RecvClosed => drop_opt StreamOps listener ;; mret (Ready None, None)
          | Err RecvEmpty =>
              match listener with
              | None => l ← listen_p (get_ev StreamOps) (put_ev StreamOps); poll_next fuel w false (Some l)
              | Some l => poll_next fuel w true (Some l)
              end
          end
      end
  end.

(** ** What both sides can ask *)

Definition is_closed : prog (Channel E) bool := atomic (fun σ => (closed (queue σ), σ)).
Definition is_empty : prog (Channel E) bool :=
  Pick (fun lax => atomic (fun σ => (bool_decide (items (queue σ) = []) && negb (lax && bool_decide (cap = None)), σ))).
Definition is_full : prog (Channel E) bool := atomic (fun σ => (full cap (queue σ), σ)).
Definition len : prog (Channel E) Z := atomic (fun σ => (Z.of_nat (length (items (queue σ))), σ)).
Definition capacity : prog (Channel E) (option Z) := mret cap.
Definition handle_count (s : side) : prog (Channel E) Z := load (get_count s).

(** ** Tasks *)

Inductive look := LClosed | LEmpty | LFull | LLen | LCapacity | LCount (s : side).
Inductive chan_op :=
| TrySend (m : nat) | Send (fuel w m : nat)
| TryRecv | Recv (fuel w : nat)
| PollNext (fuel w : nat) (listener : option ptr)
| Close (s : side)
| CloneSender | CloneReceiver (listener : option ptr)
| DropSender | DropReceiver (listener : option ptr)
| Look (l : look).
Inductive chan_res :=
| RTrySend (r : result unit TrySendError) | RSend (r : option (result unit nat))
| RTryRecv (r : result nat TryRecvError) | RRecv (r : option (result nat unit))
| RNext (r : poll (option nat)) (listener : option ptr)
| RUnit | RLook (b : bool) (n : Z) (c : option Z).

Definition chan_code (o : chan_op) : prog (Channel E) chan_res :=
  match o with
  | TrySend m => r ← try_send m; mret (RTrySend r)
  | Send fuel w m => r ← send fuel w m; mret (RSend r)
  | TryRecv => r ← try_recv; mret (RTryRecv r)
  | Recv fuel w => r ← recv fuel w; mret (RRecv r)
  | PollNext fuel w l => '(r, l) ← poll_next fuel w true l; mret (RNext r l)
  | Close _ => b ← close true; mret (RLook b 0 None)
  | CloneSender => clone_handle Senders ;; mret RUnit
  | CloneReceiver _ => clone_handle Receivers ;; mret RUnit
  | DropSender => drop_handle Senders ;; mret RUnit
  | DropReceiver l => drop_receiver l ;; mret RUnit
  | Look LClosed => b ← is_closed; mret (RLook b 0 None)
  | Look LEmpty => b ← is_empty; mret (RLook b 0 None)
  | Look LFull => b ← is_full; mret (RLook b 0 None)
  | Look LLen => n ← len; mret (RLook false n None)
  | Look LCapacity => c ← capacity; mret (RLook false 0 c)
  | Look (LCount s) => n ← handle_count s; mret (RLook false n None)
  end.
End code.

(** A task: the messages in its hand, those lost with a dropped future, its
    senders, and the listeners of its receivers.  A handle that is polled,
    cloned or dropped is moved into the call. *)
Record task := mkTask { hand : list nat; dropped : list nat; senders : nat; receivers : list (option ptr) }.

Definition take_out {A} `{EqDecision A} (x : A) (l : list A) : option (list A) :=
  match list_find (fun y => y = x) l with Some (i, _) => Some (delete i l) | None => None end.

Definition chan_start (c : task) (o : chan_op) : option task :=
  match o with
  | TrySend m | Send _ _ m =>
      if decide (senders c = 0%nat) then None
      else l ← take_out m (hand c); Some (mkTask l (dropped c) (senders c) (receivers c))
  | TryRecv | Recv _ _ | Close Receivers => if decide (receivers c = []) then None else Some c
  | Close Senders => if decide (senders c = 0%nat) then None else Some c
  | PollNext _ _ l | CloneReceiver l | DropReceiver l => rs ← take_out l (receivers c); Some (mkTask (hand c) (dropped c) (senders c) rs)
  | CloneSender | DropSender => match senders c with O => None | S n => Some (mkTask (hand c) (dropped c) n (receivers c)) end
  | Look _ => if decide (senders c = 0%nat /\ receivers c = []) then None else Some c
  end.

Definition give (ms : list nat) (c : task) : task := mkTask (ms ++ hand c) (dropped c) (senders c) (receivers c).
Definition chan_finish (c : task) (o : chan_op) (r : chan_res) : task :=
  match o, r with
  | _, RTrySend (Err (SendFull m)) | _, RTrySend (Err (SendClosed m)) => give [m] c
  | _, RSend (Some (Err m)) => give [m] c
  | Send _ _ m, RSend None => mkTask (hand c) (m :: dropped c) (senders c) (receivers c)
  | _, RTryRecv (Ok m) | _, RRecv (Some (Ok m)) => give [m] c
  | _, RNext p l =>
      mkTask (match p with Ready (Some m) => [m] | _ => [] end ++ hand c) (dropped c) (senders c) (l :: receivers c)
  | CloneSender, _ => mkTask (hand c) (dropped c) (S (S (senders c))) (receivers c)
  | CloneReceiver l, _ => mkTask (hand c) (dropped c) (senders c) (None :: l :: receivers c)
  | _, _ => c
  end.

(** [bounded(cap)] and [unbounded()], once the handles have been cloned and
    shared out: each task has some messages, senders and receivers. *)
Definition chan_new {E} `{EventOps E} (ns nr : nat) : Channel E :=
  mkChannel (mkAq [] false) [] false ev_new ev_new ev_new (Z.of_nat ns) (Z.of_nat nr).
Definition chan_pool {E} `{EventOps E} (ts : list (list nat * nat * nat)) : config (Channel E) chan_op chan_res task :=
  Config (chan_new (sum_list (snd <$> (fst <$> ts))) (sum_list (snd <$> ts)))
    ((fun '(h, s, r) => Thread (mkTask h [] s (replicate r None)) None) <$> ts).
