(* ===== verification/ChannelProof.v ===== *)
(** The channel in every interleaving: messages arrive once, in the order in
    which they were accepted, the handles are counted, and the channel is
    closed when it must be.

    Tokens: a message in hand, a sender, a receiver, a listener of one of the
    three events, and the duty of the last handle of a side to close. *)

From stdpp Require Import gmap.
From S2P Require Import Prelude Conc Tokens EventApi QueueSpec Channel.
From S2P Require Event.

Inductive ctok :=
| TMsg (m : nat)
| THandle (s : side)
| TClosing (s : side)
| TL (k : evk) (x : bool * ptr).

#[export] Instance ctok_eq : EqDecision ctok.
Proof. solve_decision. Defined.
#[export] Instance ctok_countable : Countable ctok.
Proof.
  refine (inj_countable'
    (fun t => match t with
              | TMsg m => inl m
              | THandle s => inr (inl (true, if s is Senders then true else false))
              | TClosing s => inr (inl (false, if s is Senders then true else false))
              | TL k x => inr (inr (match k with SendOps => 0 | RecvOps => 1 | StreamOps => 2 end%nat, x)) end)
    (fun y => match y with
              | inl m => TMsg m
              | inr (inl (true, b)) => THandle (if b : bool then Senders else Receivers)
              | inr (inl (false, b)) => TClosing (if b : bool then Senders else Receivers)
              | inr (inr (n, x)) => TL (match n with 0%nat => SendOps | 1%nat => RecvOps | _ => StreamOps end) x end) _).
  by intros [| [] | [] | [] ?].
Defined.

#[local] Instance TL_inj k : Inj (=) (=) (TL k).
Proof. by intros ?? [=]. Qed.

(** The messages accepted, and those taken, in a history. *)
Definition pushed (l : list (entry nat)) : list nat := omap (fun e => match e with EPush m => Some m | _ => None end) l.
Definition popped (l : list (entry nat)) : list nat := omap (fun e => match e with EPop m => Some m | _ => None end) l.

Lemma state_at_fifo cap l q : state_at cap l = Some q -> pushed l = popped l ++ items q.
Proof.
  revert q. induction l as [|e l IH] using rev_ind; intros q; [by intros [= <-]|].
  rewrite state_at_snoc. destruct (state_at cap l) as [q0|]; [|done]. specialize (IH _ eq_refl). intros Hs.
  unfold pushed, popped in *. rewrite !omap_app, IH. cbn [mbind option_bind] in Hs. unfold astep in Hs.
  destruct e as [v|v|]; cbn.
  - destruct (_ || _); simplify_eq. by rewrite app_nil_r, <- app_assoc.
  - destruct (items q0) as [|x l'] eqn:Ei; [done|]. case_decide; simplify_eq. by rewrite app_nil_r, <- app_assoc.
  - destruct (closed q0); simplify_eq. by rewrite !app_nil_r.
Qed.

Lemma state_at_room k (l : list (entry nat)) q : 0 <= k -> state_at (Some k) l = Some q -> Z.of_nat (length (items q)) <= k.
Proof.
  intros Hk. revert q. induction l as [|e l IH] using rev_ind; intros q; [by intros [= <-]|].
  rewrite state_at_snoc. destruct (state_at (Some k) l) as [q0|]; [|done]. specialize (IH _ eq_refl).
  cbn [mbind option_bind]. unfold astep, full. destruct e as [v|v|].
  - destruct (closed q0); cbn; [done|]. destruct (Z.leb_spec k (Z.of_nat (length (items q0)))); intros Hs; simplify_eq.
    cbn [items]. rewrite length_app. cbn [length]. lia.
  - destruct (items q0) as [|x l']; [done|]. case_decide; intros Hs; simplify_eq. cbn [items length] in *. lia.
  - destruct (closed q0); intros Hs; simplify_eq. done.
Qed.

Section proof.
Context {E} `{EventLaws E} (cap : option Z) (total : nat -> nat).

(** ** The invariant *)

Record core (σ : Channel E) (c : ctok -> nat) : Prop := {
  c_hist : state_at cap (hist σ) = Some (queue σ);
  c_msgs : forall m, (occ m (items (queue σ)) + c (TMsg m))%nat = total m;
  c_count : forall s, get_count s σ = Z.of_nat (c (THandle s)) /\ get_count s σ <= usize_MAX / 2 + 1;
  c_closing : forall s, (0 < c (TClosing s))%nat -> get_count s σ = 0;
  c_last : forall s, get_count s σ = 0 -> closed (queue σ) = true \/ (0 < c (TClosing s))%nat;
  c_closed : closed (queue σ) = true -> asked σ = true \/ exists s, get_count s σ = 0;
  c_asked : asked σ = true -> closed (queue σ) = true }.

Definition chan_inv (σ : Channel E) (m : gmultiset ctok) : Prop :=
  (forall k, ev_tokens (TL k) (get_ev k σ) m) /\ core σ (fun t => multiplicity t m).

Lemma chan_core_ext σ c c' : (forall t, (forall k x, t <> TL k x) -> c t = c' t) -> core σ c -> core σ c'.
Proof.
  intros Ec []. constructor; try done.
  - intros m. by rewrite <- Ec.
  - intros s. by rewrite <- Ec.
  - intros s. rewrite <- Ec by done. auto.
  - intros s. rewrite <- Ec by done. auto.
Qed.

Lemma ev_tokens_agree (lis : bool * ptr -> ctok) (e : E) m m' :
  (forall x, multiplicity (lis x) m = multiplicity (lis x) m') -> ev_tokens lis e m -> ev_tokens lis e m'.
Proof. intros Hm (L & HL & Hx). exists L. split; [done|]. intros x. by rewrite <- Hm. Qed.

#[local] Instance chan_event k : Sub (get_ev k) (put_ev k) (is_lis (TL k)) (ev_tokens (TL k)) chan_inv.
Proof.
  refine {| rest σ m := (forall k', k' <> k -> ev_tokens (TL k') (get_ev k' σ) m) /\ core σ (fun t => multiplicity t m) |}.
  - intros σ m. unfold chan_inv. split; [naive_solver|]. intros (He & Hr & Hc). split; [|done].
    intros k'. destruct (decide (k' = k)) as [->|]; auto.
  - intros e σ m [Hr Hc]. split.
    + intros k' Hk. specialize (Hr k' Hk). by destruct k, k'.
    + destruct Hc. by constructor.
  - intros σ m m' Ho [Hr Hc].
    assert (Ho' : forall t, (forall x, t <> TL k x) -> multiplicity t m = multiplicity t m')
      by (intros t Ht; apply Ho; intros [x ->]; by apply (Ht x)).
    split.
    + intros k' Hk. eapply ev_tokens_agree; [|by apply Hr]. intros x. apply Ho'. congruence.
    + eapply chan_core_ext; [|exact Hc]. intros t Ht. apply Ho'. auto.
  - intros e σ. by destruct k.
Qed.

(** ** Actions *)

Local Abbreviation toks := (list_to_set_disj (A:=ctok) (C:=gmultiset ctok)).
Local Abbreviation okl := (okl chan_inv).

Definition no_lis (L : list ctok) : bool := forallb (fun t => match t with TL _ _ => false | _ => true end) L.

Lemma no_lis_occ L k x : no_lis L = true -> occ (TL k x) L = 0%nat.
Proof.
  induction L as [|t L IH]; [done|]. unfold no_lis in *. cbn [forallb occ]. intros [Ht HL]%andb_prop.
  rewrite IH, decide_False by (done || by intros <-). done.
Qed.

(** An action that leaves the events alone. *)
Lemma okl_core {A} (f : Channel E -> option (Channel E * prog (Channel E) A)) L Q :
  no_lis L = true ->
  (forall σ c, core σ (fun t => occ t L + c t)%nat ->
     match f σ with
     | None => True
     | Some (σ', p) => is_abort p = true \/ exists a L', p = Ret a /\ no_lis L' = true /\
         (send_ops σ', recv_ops σ', stream_ops σ') = (send_ops σ, recv_ops σ, stream_ops σ) /\
         core σ' (fun t => occ t L' + c t)%nat /\ Q L' a
     end) ->
  okl L (Act f) Q.
Proof.
  intros HL Hf σ fr [He Hc]. specialize (Hf σ (fun t => multiplicity t fr)).
  assert (Hm : forall L t, multiplicity t (toks L ⊎ fr) = (occ t L + multiplicity t fr)%nat)
    by (intros; by rewrite multiplicity_disj_union, multiplicity_list).
  assert (core σ (fun t => occ t L + multiplicity t fr)%nat) as Hc'.
  { eapply chan_core_ext; [|exact Hc]. intros t _. apply Hm. }
  specialize (Hf Hc'). destruct (f σ) as [[σ' p]|]; [|done].
  destruct Hf as [?|(a & L' & -> & HL' & [= E1 E2 E3] & Ht & HQ)]; [by left|right].
  exists (toks L'). split; [|by exists L']. split.
  - intros k. replace (get_ev k σ') with (get_ev k σ) by (by destruct k). eapply ev_tokens_agree; [|apply He].
    intros x. by rewrite !Hm, !no_lis_occ.
  - eapply chan_core_ext; [|exact Ht]. intros t _. by rewrite Hm.
Qed.

Lemma okl_core_atomic {A} (f : Channel E -> A * Channel E) L Q :
  no_lis L = true ->
  (forall σ c, core σ (fun t => occ t L + c t)%nat -> exists L', no_lis L' = true /\
     (send_ops (f σ).2, recv_ops (f σ).2, stream_ops (f σ).2) = (send_ops σ, recv_ops σ, stream_ops σ) /\
     core (f σ).2 (fun t => occ t L' + c t)%nat /\ Q L' (f σ).1) ->
  okl L (atomic f) Q.
Proof.
  intros HL Hf. apply okl_core; [done|]. intros σ c Hσ. destruct (Hf σ c Hσ) as (L' & ? & ? & ? & ?).
  destruct (f σ) as [a σ']. right. by exists a, L'.
Qed.

Lemma okl_read {A} (f : Channel E -> A) L : okl L (atomic (fun σ => (f σ, σ))) (fun L' _ => L' = L).
Proof. unfold Tokens.okl. apply ok_read. intros σ fr _. by exists L. Qed.

(** The events. *)
Lemma okl_notify_ev k n : is_usize n -> okl [] (notify_ev k n) (fun L' _ => L' = []).
Proof. intros Hn. apply (ok_notify_p (get_ev k) (put_ev k) (TL k) chan_inv); [done|]. by exists []. Qed.

Lemma okl_listen k : okl [] (listen_p (get_ev k) (put_ev k)) (fun L' p => L' = [TL k (false, p)]).
Proof.
  apply (ok_listen_p (get_ev k) (put_ev k) (TL k) chan_inv). intros p. exists [TL k (false, p)]. split; [|done].
  cbn. multiset_solver.
Qed.

Lemma toks_lis k p : toks [TL k (false, p)] = ∅ ⊎ {[+ TL k (false, p) +]}.
Proof. cbn. multiset_solver. Qed.

Lemma okl_drop_p k p : okl [TL k (false, p)] (drop_p (get_ev k) (put_ev k) p) (fun L' _ => L' = []).
Proof.
  unfold Tokens.okl. rewrite toks_lis. apply (ok_drop_p (get_ev k) (put_ev k) (TL k) chan_inv). by exists [].
Qed.

Lemma okl_await_ev k p w : okl [TL k (false, p)] (await_p (get_ev k) (put_ev k) p w) (fun L' _ => L' = []).
Proof.
  unfold Tokens.okl. rewrite toks_lis. apply (ok_await_p (get_ev k) (put_ev k) (TL k) chan_inv). intros _. by exists [].
Qed.

Lemma okl_poll k p w : okl [TL k (false, p)] (on_event (get_ev k) (put_ev k) (ev_poll p w))
  (fun L' r => L' = match r with Ready _ => [] | Pending => [TL k (false, p)] end).
Proof.
  unfold Tokens.okl. rewrite toks_lis. intros σ fr HI.
  destruct (I_event (get_ev k) (put_ev k) (TL k) chan_inv _ _ _ HI) as (L & HL & Hm).
  destruct (ev_inv_poll _ _ p w HL (client_in (TL k) _ _ _ _ Hm)) as (r & e' & -> & HL').
  right. destruct r as [[]|].
  - exists ∅. split; [by eapply (client_del (get_ev k) (put_ev k) (TL k) chan_inv)|]. by exists [].
  - exists (∅ ⊎ {[+ TL k (false, p) +]}). split; [by eapply (client_same (get_ev k) (put_ev k) (TL k) chan_inv)|]. exists [TL k (false, p)]. by rewrite toks_lis.
Qed.

(** The queue. *)
Ltac counts := intros; cbv beta in *; cbn [occ] in *; repeat (case_decide; simplify_eq); lia.

(** Handles and duties do not change. *)
Lemma core_queue σ c c' q e a : core σ c -> astep cap (queue σ) e = Some q ->
  (forall s, c' (THandle s) = c (THandle s)) -> (forall s, c' (TClosing s) = c (TClosing s) \/ closed q = true /\ (c' (TClosing s) <= c (TClosing s))%nat) ->
  (forall m, occ m (items q) + c' (TMsg m) = total m)%nat ->
  (closed q = true -> a = true \/ asked σ = a /\ (closed (queue σ) = true \/ exists s, get_count s σ = 0)) ->
  (closed (queue σ) = true -> closed q = true) -> (a = true -> closed q = true) ->
  core (put_queue q e a σ) c'.
Proof.
  intros [] Hstep Hh Hcl Hm Ha Hmono Hask.
  constructor; cbn [put_queue hist queue asked].
  - rewrite state_at_snoc, c_hist0. exact Hstep.
  - done.
  - intros s. rewrite Hh. by apply (c_count0 s).
  - intros s Hs. apply c_closing0. destruct (Hcl s) as [<-|[_ E0]]; [done|lia].
  - intros s Hs. destruct (c_last0 s Hs) as [?|Hp]; [auto|]. destruct (Hcl s) as [->|[? _]]; auto.
  - intros Hq. destruct (Ha Hq) as [?|[E1 [Hc|Hc]]]; [by left| |by right].
    destruct (c_closed0 Hc) as [?|?]; [left; congruence|by right].
  - done.
Qed.

Lemma okl_queue_push m : okl [TMsg m] (queue_push cap m) (fun L' r => match r with
  | Ok _ => L' = [] | Err (Full m') | Err (PushClosed m') => m' = m /\ L' = [TMsg m] end).
Proof.
  intros lax. apply okl_core_atomic; [done|]. intros σ c Hσ.
  destruct (closed (queue σ)) eqn:Ec; [exists [TMsg m]; split_and!; [done|done|exact Hσ|done]|].
  destruct (full cap (queue σ) || _) eqn:Ef; [exists [TMsg m]; split_and!; [done|done|exact Hσ|done]|].
  apply orb_false_iff in Ef as [Ef _]. exists []. split_and!; [done|done| |done]. cbn [fst snd].
  eapply core_queue; [exact Hσ| |..].
  - unfold astep. by rewrite Ec, Ef.
  - counts.
  - left; counts.
  - intros x. pose proof (c_msgs _ _ Hσ x). cbn [items]. rewrite occ_app. counts.
  - done.
  - congruence.
  - intros Hq. apply (c_asked _ _ Hσ) in Hq. congruence.
Qed.

Lemma okl_queue_pop : okl [] queue_pop (fun L' r => L' = match r with Ok m => [TMsg m] | Err _ => [] end).
Proof.
  apply okl_core_atomic; [done|]. intros σ c Hσ.
  destruct (items (queue σ)) as [|m l] eqn:Ei; [exists []; split_and!; [done|done|exact Hσ|done]|]. cbn [fst snd].
  exists [TMsg m]. split_and!; [done|done| |done].
  eapply core_queue; [exact Hσ| |..].
  - unfold astep. rewrite Ei. by rewrite decide_True.
  - counts.
  - left; counts.
  - intros x. pose proof (c_msgs _ _ Hσ x) as Hx. rewrite Ei in Hx. cbn [items]. counts.
  - right. split; [done|]. by left.
  - done.
  - apply (c_asked _ _ Hσ).
Qed.

Lemma okl_close_p ask L : L = [] /\ ask = true \/ (exists s, L = [TClosing s]) ->
  okl L (close ask) (fun L' _ => L' = []).
Proof.
  intros HL. unfold close. apply okl_bind. apply okl_core_atomic.
  { destruct HL as [[-> _]|[s ->]]; done. }
  intros σ c Hσ. assert (Hlast : ask = true \/ exists s, get_count s σ = 0).
  { destruct HL as [[-> ->]|[s ->]]; [by left|right]. exists s. apply (c_closing _ _ Hσ). cbn [occ]. rewrite decide_True by done. lia. }
  exists []. destruct (closed (queue σ)) eqn:Ec; cbn [fst snd].
  - split_and!; [done|done| |by apply okl_ret]. destruct HL as [[-> _]|[s ->]]; [exact Hσ|]. destruct Hσ.
    constructor; [done|done|done| |by left|done|done]. intros s' Hs. apply c_closing0. counts.
  - split_and!; [done|done| |].
    + eapply core_queue; [exact Hσ| |..].
      * unfold astep. by rewrite Ec.
      * intros s'. destruct HL as [[-> _]|[s ->]]; counts.
      * intros s'. destruct HL as [[-> _]|[s ->]]; [by left|].
        right. split; [done|]. counts.
      * intros x. pose proof (c_msgs _ _ Hσ x) as Hx. cbn [items]. destruct HL as [[-> _]|[s ->]]; counts.
      * intros _. destruct Hlast as [->|?]; [left; by rewrite orb_true_r|]. destruct ask; [left; by rewrite orb_true_r|].
        right. rewrite orb_false_r. auto.
      * done.
      * done.
    + eapply (okl_call _ [] []); [by apply okl_notify_ev|done|]. intros _ _ ->.
      eapply (okl_call _ [] []); [by apply okl_notify_ev|done|]. intros _ _ ->.
      eapply (okl_call _ [] []); [by apply okl_notify_ev|done|]. intros _ _ ->. by apply okl_ret.
Qed.

(** Handles. *)
Lemma half_usize : usize_MAX / 2 + 1 < 2 ^ 64 - 1.
Proof. reflexivity. Qed.

Lemma handle_pos σ c s L : core σ (fun t => occ t (THandle s :: L) + c t)%nat -> 1 <= get_count s σ <= usize_MAX / 2 + 1.
Proof. intros []. destruct (c_count0 s) as [-> Hle]. split; [|done]. cbn [occ]. rewrite decide_True by done. lia. Qed.

Lemma get_put_count s s' n (σ : Channel E) : get_count s' (put_count s n σ) = if decide (s' = s) then n else get_count s' σ.
Proof. by destruct s, s'. Qed.

Lemma okl_drop_handle s : okl [THandle s] (drop_handle s) (fun L' _ => L' = []).
Proof.
  unfold drop_handle. apply okl_bind, okl_core_atomic; [done|]. intros σ c Hσ. cbn [fst snd].
  pose proof (handle_pos _ _ _ _ Hσ) as Hpos. pose proof half_usize as Hh.
  assert (Hn : wrapping_sub (get_count s σ) 1 = get_count s σ - 1) by (apply wrap_small; lia). rewrite Hn.
  exists (if get_count s σ =? 1 then [TClosing s] else []). destruct Hσ. split_and!; [by case_match|by destruct s| |].
  - constructor; cbn [put_count queue hist asked]; [done| | | | | |done].
    + intros m. rewrite <- (c_msgs0 m). destruct (_ =? 1); counts.
    + intros s'. rewrite get_put_count. destruct (c_count0 s') as [E1 ?]. rewrite E1 in *.
      case_decide; [subst s'|]; (split; [|lia]); destruct (Z.eqb_spec (get_count s σ) 1); counts.
    + intros s' Hs'. rewrite get_put_count. destruct (decide (s' = s)) as [->|Hne].
      * destruct (Z.eqb_spec (get_count s σ) 1); [lia|]. specialize (c_closing0 s). counts.
      * apply c_closing0. destruct (_ =? 1); counts.
    + intros s'. rewrite get_put_count. destruct (decide (s' = s)) as [->|Hne]; intros Hs'.
      * right. rewrite (proj2 (Z.eqb_eq _ _)) by lia. counts.
      * destruct (c_last0 s' Hs') as [?|?]; [by left|right]. destruct (_ =? 1); counts.
    + intros Hc. destruct (c_closed0 Hc) as [?|[s' Hs']]; [by left|right]. exists s'. rewrite get_put_count. case_decide; [subst; lia|done].
  - destruct (_ =? 1); [|by apply okl_ret].
    eapply (okl_call _ [TClosing s] []); [apply okl_close_p; right; by exists s|done|]. intros _ _ ->. by apply okl_ret.
Qed.

Lemma okl_clone_handle s : okl [THandle s] (clone_handle s) (fun L' _ => L' = [THandle s; THandle s]).
Proof.
  unfold clone_handle, fetch_add, rmw, atomic, mbind, prog_mbind. cbn [prog_bind]. apply okl_core; [done|]. intros σ c Hσ.
  cbn [prog_bind]. pose proof (handle_pos _ _ _ _ Hσ) as Hpos. pose proof half_usize as Hh.
  destruct (Z.ltb_spec (usize_MAX / 2) (get_count s σ)); [by left|right].
  assert (Hn : wrapping_add (get_count s σ) 1 = get_count s σ + 1) by (apply wrap_small; lia). rewrite Hn.
  exists (), [THandle s; THandle s]. destruct Hσ. split_and!; [done|done|by destruct s| |done].
  constructor; cbn [put_count queue hist asked]; [done| | | | | |done].
  - intros m. rewrite <- (c_msgs0 m). counts.
  - intros s'. rewrite get_put_count. destruct (c_count0 s') as [E1 ?]. case_decide; [subst s'|]; (split; [|lia]); counts.
  - intros s' Hs'. rewrite get_put_count. assert (get_count s' σ = 0) by (apply c_closing0; counts). case_decide; [subst; lia|done].
  - intros s'. rewrite get_put_count. case_decide; intros Hs'; [lia|]. destruct (c_last0 s' Hs') as [?|?]; [by left|right]. counts.
  - intros Hc. destruct (c_closed0 Hc) as [?|[s' Hs']]; [by left|right]. exists s'. rewrite get_put_count. case_decide; [subst; lia|done].
Qed.

(** ** The operations *)

Lemma usize_one : is_usize 1.
Proof. by split. Qed.
Lemma usize_all : is_usize usize_MAX.
Proof. by split. Qed.

Definition lis (k : evk) (l : option ptr) : list ctok := match l with Some p => [TL k (false, p)] | None => [] end.

Lemma okl_drop_opt k l : okl (lis k l) (drop_opt k l) (fun L' _ => L' = []).
Proof. destruct l as [p|]; [apply okl_drop_p|by apply okl_ret]. Qed.

Lemma okl_notify_next k : okl [] (notify_next cap k) (fun L' _ => L' = []).
Proof. unfold notify_next. repeat case_match; try (by apply okl_ret); apply okl_notify_ev, usize_one. Qed.

Lemma okl_try_send m : okl [TMsg m] (try_send cap m) (fun L' r => match r with
  | Ok _ => L' = [] | Err (SendFull m') | Err (SendClosed m') => m' = m /\ L' = [TMsg m] end).
Proof.
  unfold try_send. eapply (okl_call _ _ []); [apply okl_queue_push|by rewrite app_nil_r|].
  intros L' [[]|[m'|m']]; [intros ->|intros [-> ->]; by apply okl_ret..].
  eapply (okl_call _ [] []); [apply okl_notify_ev, usize_one|done|]. intros _ _ ->.
  eapply (okl_call _ [] []); [apply okl_notify_ev, usize_all|done|]. intros _ _ ->. by apply okl_ret.
Qed.

Lemma okl_send_from fuel w m l : okl (TMsg m :: lis SendOps l) (send_from cap fuel w m l) (fun L' r =>
  match r with Some (Ok _) => L' = [] | Some (Err m') => L' = [TMsg m'] | None => L' = [TMsg m] end).
Proof.
  revert l. induction fuel as [|fuel IH]; intros l; [done|]. cbn [send_from].
  eapply (okl_call _ [TMsg m] (lis SendOps l)); [apply okl_try_send|done|].
  intros L' [[]|[m'|m']]; [intros ->|intros [-> ->]..].
  - eapply (okl_call _ [] (lis SendOps l)); [apply okl_notify_next|done|]. intros _ _ ->.
    eapply (okl_call _ (lis SendOps l) []); [apply okl_drop_opt|by rewrite app_nil_r|]. intros _ _ ->. by apply okl_ret.
  - destruct l as [p|]; cbn [lis app].
    + eapply (okl_call _ [TL SendOps (false, p)] [TMsg m]); [apply okl_await_ev|apply Permutation_swap|]. intros _ [|] ->; [apply (IH None)|by apply okl_ret].
    + eapply (okl_call _ [] [TMsg m]); [apply okl_listen|done|]. intros _ p ->.
      eapply okl_perm; [|apply (IH (Some p))]. apply Permutation_swap.
  - eapply (okl_call _ (lis SendOps l) [TMsg m]); [apply okl_drop_opt|apply (Permutation_app_comm [_])|]. intros _ _ ->. by apply okl_ret.
Qed.

Lemma okl_try_recv : okl [] try_recv (fun L' r => L' = match r with Ok m => [TMsg m] | Err _ => [] end).
Proof.
  unfold try_recv. eapply (okl_call _ [] []); [apply okl_queue_pop|done|]. intros L' [m|[|]] ->; [|by apply okl_ret..].
  eapply (okl_call _ [] [TMsg m]); [apply okl_notify_ev, usize_one|done|]. intros _ _ ->. by apply okl_ret.
Qed.

Lemma okl_recv_from fuel w l : okl (lis RecvOps l) (recv_from cap fuel w l) (fun L' r =>
  L' = match r with Some (Ok m) => [TMsg m] | _ => [] end).
Proof.
  revert l. induction fuel as [|fuel IH]; intros l; [done|]. cbn [recv_from].
  eapply (okl_call _ [] (lis RecvOps l)); [apply okl_try_recv|done|]. intros L' [m|[|]] ->.
  - eapply (okl_call _ [] (TMsg m :: lis RecvOps l)); [apply okl_notify_next|done|]. intros _ _ ->.
    eapply (okl_call _ (lis RecvOps l) [TMsg m]); [apply okl_drop_opt|apply (Permutation_app_comm [_])|].
    intros _ _ ->. by apply okl_ret.
  - destruct l as [p|]; cbn [lis app].
    + eapply (okl_call _ [TL RecvOps (false, p)] []); [apply okl_await_ev|done|]. intros _ [|] ->; [apply (IH None)|by apply okl_ret].
    + eapply (okl_call _ [] []); [apply okl_listen|done|]. intros _ p ->. apply (IH (Some p)).
  - eapply (okl_call _ (lis RecvOps l) []); [apply okl_drop_opt|by rewrite app_nil_r|]. intros _ _ ->. by apply okl_ret.
Qed.

Lemma okl_poll_next fuel w outer l : okl (lis StreamOps l) (poll_next fuel w outer l) (fun L' r =>
  L' = match r.1 with Ready (Some m) => [TMsg m] | _ => [] end ++ lis StreamOps r.2).
Proof.
  revert outer l. induction fuel as [|fuel IH]; intros outer l; [done|]. cbn [poll_next].
  assert (Hinner : okl (lis StreamOps l)
    (r ← try_recv; match r with
     | Ok m => drop_opt StreamOps l ;; mret (Ready (Some m), None)
     | Err RecvClosed => drop_opt StreamOps l ;; mret (Ready None, None)
     | Err RecvEmpty => match l with
         | None => l ← listen_p (get_ev StreamOps) (put_ev StreamOps); poll_next fuel w false (Some l)
         | Some l => poll_next fuel w true (Some l) end
     end) (fun L' r => L' = match r.1 with Ready (Some m) => [TMsg m] | _ => [] end ++ lis StreamOps r.2)).
  { eapply (okl_call _ [] (lis StreamOps l)); [apply okl_try_recv|done|]. intros L' [m|[|]] ->.
    - eapply (okl_call _ (lis StreamOps l) [TMsg m]); [apply okl_drop_opt|apply (Permutation_app_comm [_])|].
      intros _ _ ->. by apply okl_ret.
    - destruct l as [p|]; [apply IH|]. eapply (okl_call _ [] []); [apply okl_listen|done|]. intros _ p ->. apply (IH _ (Some p)).
    - eapply (okl_call _ (lis StreamOps l) []); [apply okl_drop_opt|by rewrite app_nil_r|]. intros _ _ ->. by apply okl_ret. }
  destruct outer, l as [p|]; [|exact Hinner..].
  eapply (okl_call _ [TL StreamOps (false, p)] []); [apply okl_poll|done|]. intros L' [[]|] ->; [apply (IH _ None)|by apply okl_ret].
Qed.

Lemma okl_drop_receiver l : okl (THandle Receivers :: lis StreamOps l) (drop_receiver l) (fun L' _ => L' = []).
Proof.
  unfold drop_receiver. eapply (okl_call _ [THandle Receivers] (lis StreamOps l)); [apply okl_drop_handle|done|].
  intros _ _ ->. apply okl_drop_opt.
Qed.

(** ** Tasks *)

Definition receiver_toks (l : option ptr) : list ctok := THandle Receivers :: lis StreamOps l.
Definition task_toks (c : task) : list ctok :=
  (TMsg <$> hand c) ++ (TMsg <$> dropped c) ++ replicate (senders c) (THandle Senders) ++ (receivers c ≫= receiver_toks).

Lemma take_out_perm {A} `{EqDecision A} (x : A) l l' : take_out x l = Some l' -> l ≡ₚ x :: l'.
Proof.
  unfold take_out. destruct (list_find _ l) as [[i y]|] eqn:Ef; [|done]. intros [= <-].
  apply list_find_Some in Ef as (Hi & -> & _). by apply delete_Permutation.
Qed.

Definition chan_tok (c : task) : gmultiset ctok := list_to_set_disj (task_toks c).

Lemma task_start h d s rs m h' : take_out m h = Some h' ->
  task_toks (mkTask h d s rs) ≡ₚ task_toks (mkTask h' d s rs) ++ [TMsg m].
Proof.
  intros Hh%take_out_perm. unfold task_toks. cbn [hand dropped senders receivers]. rewrite Hh, fmap_cons. solve_Permutation.
Qed.

Lemma task_receiver h d s rs l rs' : take_out l rs = Some rs' ->
  task_toks (mkTask h d s rs) ≡ₚ task_toks (mkTask h d s rs') ++ receiver_toks l.
Proof.
  intros Hr%take_out_perm. unfold task_toks. cbn [hand dropped senders receivers]. rewrite Hr, bind_cons. solve_Permutation.
Qed.

Lemma task_give ms c : task_toks (give ms c) ≡ₚ task_toks c ++ (TMsg <$> ms).
Proof. unfold task_toks, give. cbn [hand dropped senders receivers]. rewrite fmap_app. solve_Permutation. Qed.

Lemma chan_ops_ok : ops_ok (chan_code cap) chan_start chan_finish chan_inv chan_tok.
Proof.
  intros [h d s rs] o c' Hs. destruct o as [m|fuel w m| |fuel w|fuel w l|sd| |l| |l|l]; cbn [chan_start hand dropped senders receivers] in Hs.
  - case_decide; [done|]. destruct (take_out m h) as [h'|] eqn:Eh; cbn in Hs; simplify_eq.
    apply (okl_op _ _ [TMsg m]); [by apply task_start|]. cbn [chan_code].
    eapply (okl_call _ [TMsg m] []); [apply okl_try_send|done|].
    intros L' [[]|[m'|m']]; [intros ->|intros [-> ->]..]; apply okl_ret; cbn [chan_finish]; rewrite ?app_nil_r; [done|apply task_give..].
  - case_decide; [done|]. destruct (take_out m h) as [h'|] eqn:Eh; cbn in Hs; simplify_eq.
    apply (okl_op _ _ [TMsg m]); [by apply task_start|]. cbn [chan_code]. unfold send.
    eapply (okl_call _ [TMsg m] []); [apply (okl_send_from _ _ _ None)|done|].
    intros L' [[[]|m']|] ->; apply okl_ret; cbn [chan_finish app]; rewrite ?app_nil_r; [done|apply task_give|].
    unfold task_toks. cbn [hand dropped senders receivers]. rewrite fmap_cons. solve_Permutation.
  - case_decide; simplify_eq. apply (okl_op _ _ []); [by rewrite app_nil_r|]. cbn [chan_code].
    eapply (okl_call _ [] []); [apply okl_try_recv|done|]. intros L' [m|e] ->; apply okl_ret; cbn [chan_finish app]; [apply task_give|by rewrite app_nil_r].
  - case_decide; simplify_eq. apply (okl_op _ _ []); [by rewrite app_nil_r|]. cbn [chan_code]. unfold recv.
    eapply (okl_call _ [] []); [apply (okl_recv_from _ _ None)|done|].
    intros L' [[m|[]]|] ->; apply okl_ret; cbn [chan_finish app]; [apply task_give|by rewrite app_nil_r..].
  - destruct (take_out l rs) as [rs'|] eqn:El; cbn in Hs; simplify_eq.
    apply (okl_op _ _ (receiver_toks l)); [by apply task_receiver|]. cbn [chan_code].
    eapply (okl_call _ (lis StreamOps l) [THandle Receivers]); [apply okl_poll_next|apply (Permutation_app_comm [_])|].
    intros L' [r l'] ->. apply okl_ret. cbn [chan_finish fst snd]. unfold task_toks. cbn [hand dropped senders receivers].
    rewrite bind_cons, fmap_app. unfold receiver_toks at 1.
    destruct r as [[m|]|]; cbn [app fmap list_fmap]; solve_Permutation.
  - assert (c' = mkTask h d s rs) as -> by (destruct sd; case_decide; by simplify_eq).
    apply (okl_op _ _ []); [by rewrite app_nil_r|]. cbn [chan_code].
    eapply (okl_call _ [] []); [apply okl_close_p; by left|done|]. intros _ b ->. apply okl_ret. cbn [chan_finish]. by rewrite app_nil_r.
  - destruct s as [|s]; simplify_eq. apply (okl_op _ _ [THandle Senders]).
    { unfold task_toks. cbn [hand dropped senders receivers replicate]. solve_Permutation. }
    cbn [chan_code]. eapply (okl_call _ [THandle Senders] []); [apply okl_clone_handle|done|]. intros _ _ ->. apply okl_ret.
    unfold task_toks. cbn [chan_finish hand dropped senders receivers replicate app]. solve_Permutation.
  - destruct (take_out l rs) as [rs'|] eqn:El; cbn in Hs; simplify_eq.
    apply (okl_op _ _ (receiver_toks l)); [by apply task_receiver|]. cbn [chan_code].
    eapply (okl_call _ [THandle Receivers] (lis StreamOps l)); [apply okl_clone_handle|done|]. intros _ _ ->. apply okl_ret.
    unfold task_toks. cbn [chan_finish hand dropped senders receivers]. rewrite !bind_cons. unfold receiver_toks at 1 2. cbn [lis app].
    solve_Permutation.
  - destruct s as [|s]; simplify_eq. apply (okl_op _ _ [THandle Senders]).
    { unfold task_toks. cbn [hand dropped senders receivers replicate]. solve_Permutation. }
    cbn [chan_code]. eapply (okl_call _ [THandle Senders] []); [apply okl_drop_handle|done|]. intros _ _ ->. apply okl_ret.
    cbn [chan_finish]. by rewrite app_nil_r.
  - destruct (take_out l rs) as [rs'|] eqn:El; cbn in Hs; simplify_eq.
    apply (okl_op _ _ (receiver_toks l)); [by apply task_receiver|]. cbn [chan_code].
    eapply (okl_call _ (receiver_toks l) []); [apply okl_drop_receiver|by rewrite app_nil_r|]. intros _ _ ->. apply okl_ret.
    cbn [chan_finish]. by rewrite app_nil_r.
  - case_decide; simplify_eq. apply (okl_op _ _ []); [by rewrite app_nil_r|].
    destruct l; cbn [chan_code]; unfold is_closed, is_full, len, capacity, handle_count, load, is_empty;
      try (eapply (okl_call _ [] []); [apply okl_read|done|]; intros _ x ->; apply okl_ret; cbn [chan_finish]; by rewrite app_nil_r).
    + intros lax. apply (okl_bind _ [] (atomic _)). eapply okl_mono; [apply okl_read|]. intros _ b ->. apply okl_ret. cbn [chan_finish]. by rewrite app_nil_r.
    + apply okl_ret. cbn [chan_finish]. by rewrite app_nil_r.
Qed.
End proof.

(** * The pool *)

Definition hands (ts : list (list nat * nat * nat)) : list nat := ts ≫= (fun t => t.1.1).

Lemma occ_msgs m l : occ (TMsg m) (TMsg <$> l) = occ m l.
Proof. induction l as [|y l IH]; [done|]. rewrite fmap_cons. cbn [occ]. rewrite IH. repeat case_decide; congruence. Qed.

Lemma occ_msgs_other t l : (forall m, t <> TMsg m) -> occ t (TMsg <$> l) = 0%nat.
Proof. intros Ht. induction l as [|y l IH]; [done|]. rewrite fmap_cons. cbn [occ]. by rewrite IH, decide_False. Qed.

(** How many tokens of each kind a task has. *)
Lemma tok_msg m c : multiplicity (TMsg m) (chan_tok c) = occ m (hand c ++ dropped c).
Proof.
  unfold chan_tok, task_toks. rewrite multiplicity_list, !occ_app, !occ_msgs, occ_replicate_ne by done.
  enough (occ (TMsg m) (receivers c ≫= receiver_toks) = 0%nat) by lia.
  induction (receivers c) as [|[p|] rs IH]; [done|..]; rewrite bind_cons, occ_app, IH; done.
Qed.

Lemma tok_senders c : multiplicity (THandle Senders) (chan_tok c) = senders c.
Proof.
  unfold chan_tok, task_toks. rewrite multiplicity_list, !occ_app, !occ_msgs_other, occ_replicate by done.
  rewrite bool_decide_eq_true_2 by done. enough (occ (THandle Senders) (receivers c ≫= receiver_toks) = 0%nat) by lia.
  induction (receivers c) as [|[p|] rs IH]; [done|..]; rewrite bind_cons, occ_app, IH; done.
Qed.

Lemma tok_receivers c : multiplicity (THandle Receivers) (chan_tok c) = length (receivers c).
Proof.
  unfold chan_tok, task_toks. rewrite multiplicity_list, !occ_app, !occ_msgs_other, occ_replicate by done.
  rewrite bool_decide_eq_false_2 by done. cbn [Nat.add].
  induction (receivers c) as [|[p|] rs IH]; [done|..]; rewrite bind_cons, occ_app, IH; done.
Qed.

Lemma tok_closing s c : multiplicity (TClosing s) (chan_tok c) = 0%nat.
Proof.
  unfold chan_tok, task_toks. rewrite multiplicity_list, !occ_app, !occ_msgs_other, occ_replicate_ne by done. cbn [Nat.add].
  induction (receivers c) as [|[p|] rs IH]; [done|..]; rewrite bind_cons, occ_app, IH; done.
Qed.

Lemma tok_no_lis k x h d s r : multiplicity (TL k x) (chan_tok (mkTask h d s (replicate r None))) = 0%nat.
Proof.
  unfold chan_tok, task_toks. cbn [hand dropped senders receivers].
  rewrite multiplicity_list, !occ_app, !occ_msgs_other, occ_replicate_ne by done. cbn [Nat.add].
  induction r as [|r IH]; [done|]. cbn [replicate]. rewrite bind_cons, occ_app, IH. done.
Qed.

Lemma sum_list_zero {A} (l : list A) : sum_list ((fun _ => 0%nat) <$> l) = 0%nat.
Proof. induction l as [|x l IH]; [done|exact IH]. Qed.

Lemma chan_pool_inv {E} `{EventLaws E} cap ts :
  let ns := sum_list (snd <$> (fst <$> ts)) in let nr := sum_list (snd <$> ts) in
  1 <= Z.of_nat ns <= usize_MAX / 2 + 1 -> 1 <= Z.of_nat nr <= usize_MAX / 2 + 1 ->
  pool_inv chan_finish (chan_inv cap (fun m => occ m (hands ts))) chan_tok (chan_pool (E:=E) ts).
Proof.
  cbv zeta. intros Hns Hnr. right. exists ((fun t => chan_tok (owns t)) <$> threads (chan_pool (E:=E) ts)).
  assert (Hsum : forall t f, (forall h s r, multiplicity t (chan_tok (mkTask h [] s (replicate r None))) = f (h, s, r)) ->
    multiplicity t (⋃+ ((fun t => chan_tok (owns t)) <$> threads (chan_pool (E:=E) ts))) = sum_list (f <$> ts)).
  { intros t f Hf. rewrite multiplicity_owned. unfold chan_pool. cbn [threads]. clear Hns Hnr.
    induction ts as [|[[h s] r] ts IH]; [done|]. rewrite !fmap_cons. cbn [sum_list_with]. unfold id in *. f_equal; [apply Hf|exact IH]. }
  split.
  - unfold chan_pool. cbn [threads]. generalize (chan_inv (E:=E) cap (fun m => occ m (hands ts))). intros I0. clear.
    induction ts as [|[[h s] r] ts IH]; [by apply Forall2_nil_2|]. rewrite !fmap_cons. by constructor.
  - split.
    + intros k. exists ∅. split; [destruct k; apply ev_inv_new|]. intros x. rewrite decide_False by set_solver.
      rewrite (Hsum _ (fun _ => 0%nat)) by (intros; apply tok_no_lis). apply sum_list_zero.
    + assert (Hs : multiplicity (THandle Senders) (⋃+ ((fun t => chan_tok (owns t)) <$> threads (chan_pool (E:=E) ts)))
        = sum_list (snd <$> (fst <$> ts))).
      { rewrite <- list_fmap_compose. apply Hsum. intros. by rewrite tok_senders. }
      assert (Hr : multiplicity (THandle Receivers) (⋃+ ((fun t => chan_tok (owns t)) <$> threads (chan_pool (E:=E) ts)))
        = sum_list (snd <$> ts)).
      { apply Hsum. intros. rewrite tok_receivers. cbn [receivers]. apply length_replicate. }
      constructor; cbn [shared chan_pool chan_new queue hist asked]; [done| | | | |done|done].
      * intros m. rewrite (Hsum _ (fun t => occ m t.1.1)) by (intros; rewrite tok_msg; cbn [hand dropped]; by rewrite app_nil_r).
        cbn [items occ]. unfold hands. by rewrite occ_bind.
      * intros [|]; cbn [get_count chan_new sender_count receiver_count]; [rewrite Hs|rewrite Hr]; lia.
      * intros s. rewrite (Hsum _ (fun _ => 0%nat)), sum_list_zero by (intros; apply tok_closing). lia.
      * intros [|]; cbn [get_count chan_new sender_count receiver_count]; lia.
Qed.

(** C7: the channel, in every interleaving of tasks that send, receive, poll
    the receiver as a stream, close, clone and drop handles and drop pending
    futures.  No event or queue is misused.  The messages received are those
    accepted, in that order, and the rest is in the queue, never more than the
    capacity.  When no operation is under way, the messages in hand, lost with
    a dropped future and in the queue are those there were: none is lost or
    delivered twice; the counts are those of the handles; and the channel is
    closed exactly if it was closed by name or a side has no handle left. *)
Theorem channel_delivers {E} `{EventLaws E} (cap : option Z) ts c :
  let ns := sum_list (snd <$> (fst <$> ts)) in let nr := sum_list (snd <$> ts) in
  1 <= Z.of_nat ns <= usize_MAX / 2 + 1 -> 1 <= Z.of_nat nr <= usize_MAX / 2 + 1 ->
  match cap with Some k => 0 < k | None => True end ->
  reachable (chan_code cap) chan_start chan_finish (chan_pool (E:=E) ts) c ->
  existsb thread_aborted (threads c) = false ->
  existsb thread_crashed (threads c) = false /\
  pushed (hist (shared c)) = popped (hist (shared c)) ++ items (queue (shared c)) /\
  match cap with Some k => Z.of_nat (length (items (queue (shared c)))) <= k | None => True end /\
  (Forall (fun t => running t = None) (threads c) ->
   let ns := sum_list ((fun t => senders (owns t)) <$> threads c) in
   let nr := sum_list ((fun t => length (receivers (owns t))) <$> threads c) in
   (threads c ≫= fun t => hand (owns t) ++ dropped (owns t)) ++ items (queue (shared c)) ≡ₚ hands ts /\
   sender_count (shared c) = Z.of_nat ns /\ receiver_count (shared c) = Z.of_nat nr /\
   (closed (queue (shared c)) = true <-> asked (shared c) = true \/ ns = 0%nat \/ nr = 0%nat)).
Proof.
  cbv zeta. intros Hns Hnr Hcap [es Hrun] Ha.
  assert (Hinv : pool_inv chan_finish (chan_inv cap (fun m => occ m (hands ts))) chan_tok c).
  { eapply run_inv; [by apply chan_ops_ok|by apply chan_pool_inv|exact Hrun]. }
  split; [by eapply pool_inv_no_crash|].
  destruct (pool_inv_elim _ _ _ c Hinv Ha) as (ms & HF & [_ HI]). pose proof (c_hist _ _ _ _ HI) as Hq.
  split; [by eapply state_at_fifo|split; [destruct cap; [|done]; eapply state_at_room; [lia|done]|]]. intros Hidle.
  rewrite (idle_tokens _ _ chan_tok _ _ HF Hidle) in HI. destruct HI.
  pose proof (c_count0 Senders) as [Es _]. pose proof (c_count0 Receivers) as [Er _].
  rewrite (owned_count chan_tok (THandle Senders) senders) in Es by apply tok_senders.
  rewrite (owned_count chan_tok (THandle Receivers) (fun c => length (receivers c))) in Er by apply tok_receivers.
  cbn [get_count] in Es, Er. split_and!; [|done|done|].
  - apply Permutation_occ. intros m. specialize (c_msgs0 m).
    rewrite (owned_count chan_tok (TMsg m) (fun c => occ m (hand c ++ dropped c))) in c_msgs0 by apply tok_msg.
    rewrite !occ_app, occ_bind. lia.
  - assert (Hlast : forall s, get_count s (shared c) = 0 -> closed (queue (shared c)) = true).
    { intros s Hs. destruct (c_last0 s Hs) as [?|Hx]; [done|]. rewrite (owned_none chan_tok) in Hx by apply tok_closing. lia. }
    split.
    + intros Hc. destruct (c_closed0 Hc) as [?|[[|] Hs]]; [by left|right; left|right; right]; cbn [get_count] in Hs; lia.
    + intros [?|[Hs|Hr]]; [auto|apply (Hlast Senders)|apply (Hlast Receivers)]; cbn [get_count]; lia.
Qed.

(** A channel of two: the first task sends to a stream that waits and drops
    its sender, which closes the channel; the second receives what was sent,
    in order, and then the end. *)
Definition chan_start2 : config (Channel Event.Inner) chan_op chan_res task :=
  chan_pool (H:=Event.event_ops) [([7; 8; 9]%nat, 1%nat, 0%nat); ([], 0%nat, 1%nat)].
Definition chan_run (es : list (Conc.event chan_op)) : config (Channel Event.Inner) chan_op chan_res task :=
  after (chan_code (H:=Event.event_ops) (Some 2)) chan_start chan_finish es chan_start2.
Definition chan_run1 : list (Conc.event chan_op) :=
  [EStart 1%nat (PollNext 9 5 None)] ++ replicate 6 (EStep 1%nat false) ++
  [EStart 0%nat (TrySend 7)] ++ replicate 6 (EStep 0%nat false) ++
  [EStart 0%nat (Send 9 4 8)] ++ replicate 6 (EStep 0%nat false) ++
  [EStart 0%nat DropSender] ++ replicate 6 (EStep 0%nat false) ++
  [EStart 1%nat (PollNext 9 5 (Some 1%positive))] ++ replicate 4 (EStep 1%nat false) ++
  [EStart 1%nat (Recv 9 6)] ++ replicate 4 (EStep 1%nat false) ++
  [EStart 1%nat (Recv 9 6)] ++ replicate 2 (EStep 1%nat false).

Lemma channel_delivers_witness :
  reachable (chan_code (H:=Event.event_ops) (Some 2)) chan_start chan_finish chan_start2 (chan_run chan_run1) /\
  (fun t => (hand (owns t), senders (owns t), length (receivers (owns t)))) <$> threads (chan_run chan_run1)
    = [([9], 0, 0); ([8; 7], 0, 1)]%nat /\
  pushed (hist (shared (chan_run chan_run1))) =
    popped (hist (shared (chan_run chan_run1))) ++ items (queue (shared (chan_run chan_run1))) /\
  (threads (chan_run chan_run1) ≫= fun t => hand (owns t) ++ dropped (owns t)) ++ items (queue (shared (chan_run chan_run1)))
    ≡ₚ hands [([7; 8; 9]%nat, 1%nat, 0%nat); ([], 0%nat, 1%nat)].
Proof.
  assert (Hr : reachable (chan_code (H:=Event.event_ops) (Some 2)) chan_start chan_finish chan_start2 (chan_run chan_run1))
    by (apply after_reachable; vm_compute; reflexivity).
  split; [exact Hr|split; [vm_compute; reflexivity|]].
  split; apply (channel_delivers (H0:=Event.event_laws) (Some 2) [([7; 8; 9]%nat, 1%nat, 0%nat); ([], 0%nat, 1%nat)] _
    ltac:(split; vm_compute; congruence) ltac:(split; vm_compute; congruence) ltac:(vm_compute; reflexivity) Hr);
    first [vm_compute; reflexivity | apply all_idle; vm_compute; reflexivity].
Defined.
