(* ===== verification/Executor.v ===== *)
(** [platform/waker/sleeper.rs] and [runtime/executor.rs]: the scheduling of
    runnable tasks.

    A runnable is a name; so is a waker.  The concurrent queues are used
    through their specification (Queue): each push, pop and length is one
    action on a list; the global queue is unbounded and never closed, a local
    queue holds 512 runnables.  The critical sections of the mutex around the
    sleepers keep their steps, because [notified] is accessed outside it too.
    Where the code draws a random number the operation carries it.  Fuel
    bounds only the retry loop of [runnable_with]. *)

From S2P Require Import Prelude Conc.

Abbreviation name := nat (only parsing).

(** * Sleeper *)

Record Sleeper := mkSleeper { count : nat; wakers : list (nat * name); free_ids : list nat }.

Definition sl_new : Sleeper := mkSleeper 0 [] [].

(** [insert]: a free id, or the next one. *)
Definition sl_insert (w : name) (s : Sleeper) : nat * Sleeper :=
  let '(id, free) := match last (free_ids s) with
                     | Some id => (id, firstn (length (free_ids s) - 1) (free_ids s))
                     | None => (S (count s), free_ids s)
                     end in
  (id, mkSleeper (S (count s)) (wakers s ++ [(id, w)]) free).

Fixpoint set_waker (id : nat) (w : name) (l : list (nat * name)) : option (list (nat * name)) :=
  match l with
  | [] => None
  | (i, v) :: l => if (i =? id)%nat then Some ((i, w) :: l) else (cons (i, v)) <$> set_waker id w l
  end.

(** [update]: [true] if the sleeper had been notified. *)
Definition sl_update (id : nat) (w : name) (s : Sleeper) : bool * Sleeper :=
  match set_waker id w (wakers s) with
  | Some l => (false, mkSleeper (count s) l (free_ids s))
  | None => (true, mkSleeper (count s) (wakers s ++ [(id, w)]) (free_ids s))
  end.

(** The last waker of [id] is removed. *)
Fixpoint remove_waker (id : nat) (l : list (nat * name)) : option (list (nat * name)) :=
  match l with
  | [] => None
  | (i, v) :: l => match remove_waker id l with
                   | Some l' => Some ((i, v) :: l')
                   | None => if (i =? id)%nat then Some l else None
                   end
  end.

(** [remove]: [true] if the sleeper had been notified; [None] is the
    underflow of [count]. *)
Definition sl_remove (id : nat) (s : Sleeper) : option (bool * Sleeper) :=
  match count s with
  | O => None
  | S n => Some (match remove_waker id (wakers s) with
                 | Some l => (false, mkSleeper n l (free_ids s ++ [id]))
                 | None => (true, mkSleeper n (wakers s) (free_ids s ++ [id]))
                 end)
  end.

Definition sl_is_notified (s : Sleeper) : bool := (count s =? 0)%nat || (length (wakers s) <? count s)%nat.

(** [notify]: the last waker, unless a sleeper is notified already. *)
Definition sl_notify (s : Sleeper) : option name * Sleeper :=
  if (length (wakers s) =? count s)%nat then
    match last (wakers s) with
    | Some (_, w) => (Some w, mkSleeper (count s) (firstn (length (wakers s) - 1) (wakers s)) (free_ids s))
    | None => (None, s)
    end
  else (None, s).

(** * State *)

(** [store]: the local queues ever made, in order of creation;
    [local_queues]: those of the runners that are alive; [readers]: how many
    threads read [local_queues]; [slock]: whether the mutex of [sleepers] is
    held.  [woken]: the wakers that were woken; [popped], an auxiliary
    variable: those that [Sleeper::notify] returned. *)
Record State := mkState {
  queue : list nat; store : list (list nat); local_queues : list nat; readers : nat;
  notified : bool; slock : bool; sleepers : Sleeper; woken : list name; popped : list name }.

Definition state_new : State := mkState [] [] [] 0 true false sl_new [] [].

Definition put_queue (q : list nat) (σ : State) : State :=
  mkState q (store σ) (local_queues σ) (readers σ) (notified σ) (slock σ) (sleepers σ) (woken σ) (popped σ).
Definition put_store (q : list (list nat)) (σ : State) : State :=
  mkState (queue σ) q (local_queues σ) (readers σ) (notified σ) (slock σ) (sleepers σ) (woken σ) (popped σ).
Definition put_locals (l : list nat) (n : nat) (σ : State) : State :=
  mkState (queue σ) (store σ) l n (notified σ) (slock σ) (sleepers σ) (woken σ) (popped σ).
Definition put_sleep (b k : bool) (s : Sleeper) (σ : State) : State :=
  mkState (queue σ) (store σ) (local_queues σ) (readers σ) b k s (woken σ) (popped σ).
Definition put_woken (w p : list name) (σ : State) : State :=
  mkState (queue σ) (store σ) (local_queues σ) (readers σ) (notified σ) (slock σ) (sleepers σ) w p.

(** ** Queues *)

(** The global queue, or a local one. *)
Inductive qref := Global | Local (lid : nat).
Definition contents (σ : State) (q : qref) : list nat :=
  match q with Global => queue σ | Local lid => default [] (store σ !! lid) end.
Definition put_contents (q : qref) (l : list nat) (σ : State) : State :=
  match q with Global => put_queue l σ | Local lid => put_store (<[lid := l]> (store σ)) σ end.
Definition qlen (q : qref) : prog State nat := atomic (fun σ => (length (contents σ q), σ)).
Definition qpop (q : qref) : prog State (option nat) :=
  atomic (fun σ => match contents σ q with [] => (None, σ) | r :: l => (Some r, put_contents q l σ) end).
(** The global queue takes every runnable. *)
Definition qpush_global (r : nat) : prog State unit := atomic (fun σ => ((), put_queue (queue σ ++ [r]) σ)).
Definition local_cap : nat := 512.
(** [false]: the local queue is full, and the runnable is dropped. *)
Definition qpush_local (lid r : nat) : prog State bool :=
  atomic (fun σ => if (length (contents σ (Local lid)) <? local_cap)%nat
                   then (true, put_contents (Local lid) (contents σ (Local lid) ++ [r]) σ) else (false, σ)).

(** ** [State::notify] *)

Definition wake_waker (w : name) : prog State unit := atomic (fun σ => ((), put_woken (woken σ ++ [w]) (popped σ) σ)).

Definition notify : prog State unit :=
  ok ← atomic (fun σ => (negb (notified σ), put_sleep true (slock σ) (sleepers σ) σ));
  if ok : bool then
    w ← await (fun σ => if slock σ then None else
          let '(w, s) := sl_notify (sleepers σ) in
          Some (w, put_woken (woken σ) (popped σ ++ option_list w) (put_sleep (notified σ) false s σ)));
    match w with Some w => wake_waker w | None => mret () end
  else mret ().

(** ** [Ticker] *)

(** The mutex of the sleepers is taken, and the sleepers change. *)
Definition sleepers_lock {A} (f : Sleeper -> option (A * Sleeper)) : prog State A :=
  Act (fun σ => if slock σ then None else
                match f (sleepers σ) with
                | Some (a, s) => Some (put_sleep (notified σ) true s σ, Ret a)
                | None => Some (σ, Crash)
                end).
(** [notified.swap(sleepers.is_notified())] *)
Definition swap_notified : prog State unit :=
  atomic (fun σ => ((), put_sleep (sl_is_notified (sleepers σ)) (slock σ) (sleepers σ) σ)).
Definition sleepers_unlock : prog State unit :=
  atomic (fun σ => ((), put_sleep (notified σ) false (sleepers σ) σ)).

(** [sleep]: whether to search again, and the id under which it sleeps. *)
Definition sleep (w : name) (sleeping : nat) : prog State (bool * nat) :=
  match sleeping with
  | O =>
      id ← sleepers_lock (fun s => Some (sl_insert w s));
      swap_notified ;; sleepers_unlock ;; mret (true, id)
  | id =>
      again ← sleepers_lock (fun s => Some (sl_update id w s));
      if again : bool then swap_notified ;; sleepers_unlock ;; mret (true, id)
      else sleepers_unlock ;; mret (false, id)
  end.

Definition wake (sleeping : nat) : prog State unit :=
  match sleeping with
  | O => mret ()
  | id => sleepers_lock (sl_remove id) ;; swap_notified ;; sleepers_unlock
  end.

Definition drop_ticker (sleeping : nat) : prog State unit :=
  match sleeping with
  | O => mret ()
  | id =>
      n ← sleepers_lock (sl_remove id);
      swap_notified ;; sleepers_unlock ;;
      if n : bool then notify else mret ()
  end.

(** The answer of a poll and the id under which the ticker sleeps. *)
Fixpoint runnable_with (fuel : nat) (search : nat -> prog State (option nat)) (w : name) (sleeping : nat)
    : prog State (poll nat * nat) :=
  match fuel with
  | O => OutOfFuel
  | S fuel =>
      o ← search fuel;
      match o with
      | None =>
          '(again, id) ← sleep w sleeping;
          if again : bool then runnable_with fuel search w id else mret (Pending, id)
      | Some r => wake sleeping ;; notify ;; mret (Ready r, 0%nat)
      end
  end.

(** [Ticker::runnable] *)
Definition ticker_search (_ : nat) : prog State (option nat) := qpop Global.
Definition ticker_runnable (fuel : nat) (w : name) (sleeping : nat) : prog State (poll nat * nat) :=
  runnable_with fuel ticker_search w sleeping.

(** ** [steal] *)

Fixpoint steal_loop (n : nat) (src : qref) (dest : nat) : prog State unit :=
  match n with
  | O => mret ()
  | S n =>
      o ← qpop src;
      match o with
      | Some t => ok ← qpush_local dest t; if ok : bool then steal_loop n src dest else Crash
      | None => mret ()
      end
  end.

(** [cap - dest.len()] would wrap if the queue were longer than its
    capacity. *)
Definition steal (src : qref) (dest : nat) : prog State unit :=
  n ← qlen src;
  let count := ((n + 1) / 2)%nat in
  if (0 <? count)%nat then
    d ← qlen (Local dest);
    if (local_cap <? d)%nat then Crash else steal_loop (Nat.min count (local_cap - d)) src dest
  else mret ().

(** ** [Runner] *)

(** Runnables made by [Runner::new]: its local queue. *)
Definition runner_new : prog State nat :=
  lid ← atomic (fun σ => (length (store σ), put_store (store σ ++ [[]]) σ));
  await (fun σ => match readers σ with
                  | O => Some ((), put_locals (local_queues σ ++ [lid]) 0 σ)
                  | S _ => None
                  end) ;;
  mret lid.

Fixpoint steal_from (victims : list nat) (lid : nat) : prog State (option nat) :=
  match victims with
  | [] => mret None
  | v :: victims =>
      steal (Local v) lid ;;
      o ← qpop (Local lid);
      match o with Some r => mret (Some r) | None => steal_from victims lid end
  end.

(** [start] is the random number. *)
Definition runner_search (lid : nat) (start : nat -> nat) (i : nat) : prog State (option nat) :=
  o ← qpop (Local lid);
  match o with
  | Some r => mret (Some r)
  | None =>
      o ← qpop Global;
      match o with
      | Some r => steal Global lid ;; mret (Some r)
      | None =>
          ls ← atomic (fun σ => (local_queues σ, put_locals (local_queues σ) (S (readers σ)) σ));
          match length ls with
          | O => Crash
          | n =>
              let victims := filter (fun v => v <> lid) (firstn n (skipn (start i mod n) (ls ++ ls))) in
              o ← steal_from victims lid;
              atomic (fun σ => ((), put_locals (local_queues σ) (pred (readers σ)) σ)) ;;
              mret o
          end
      end
  end.

(** The runner: its local queue, the id under which its ticker sleeps, its
    ticks. *)
Record Runner := mkRunner { local : nat; r_sleeping : nat; ticks : Z }.

Definition runner_runnable (fuel : nat) (start : nat -> nat) (w : name) (r : Runner) : prog State (poll nat * Runner) :=
  '(o, id) ← runnable_with fuel (runner_search (local r) start) w (r_sleeping r);
  match o with
  | Pending => mret (Pending, mkRunner (local r) id (ticks r))
  | Ready x =>
      (if ticks r mod 64 =? 0 then steal Global (local r) else mret ()) ;;
      mret (Ready x, mkRunner (local r) id (wrapping_add (ticks r) 1))
  end.

(** [Executor::schedule] *)
Definition schedule (r : nat) : prog State unit := qpush_global r ;; notify.

Fixpoint reschedule (fuel : nat) (lid : nat) : prog State unit :=
  match fuel with
  | O => Crash
  | S fuel =>
      o ← qpop (Local lid);
      match o with Some r => schedule r ;; reschedule fuel lid | None => mret () end
  end.

(** [Runner::drop], then the drop of its ticker.  Nobody pushes into the
    local queue any more: it is empty after [local_cap] steps. *)
Definition drop_runner (r : Runner) : prog State unit :=
  await (fun σ => match readers σ with
                  | O => Some ((), put_locals (filter (fun v => v <> local r) (local_queues σ)) 0 σ)
                  | S _ => None
                  end) ;;
  reschedule (S local_cap) (local r) ;;
  drop_ticker (r_sleeping r).

(** [Executor::try_tick], up to running the task. *)
Definition try_tick : prog State (option nat) :=
  o ← qpop Global;
  match o with None => mret None | Some r => notify ;; mret (Some r) end.

(** ** Threads

    A thread holds runnables (tasks it has run or that were woken), and
    polls one ticker or one runner, last with the waker [w]. *)

Inductive worker := NoWorker | Ticking (sleeping : nat) (w : name) | Running (r : Runner) (w : name).
Record client := mkClient { hand : list nat; work : worker }.

#[export] Instance Runner_eq : EqDecision Runner.
Proof. solve_decision. Defined.
#[export] Instance worker_eq : EqDecision worker.
Proof. solve_decision. Defined.

Inductive op :=
| Schedule (r : nat)
| TryTick
| PollTick (fuel : nat) (w : name) (x : worker)
| DropTick (x : worker)
| NewRunner
| PollRunner (fuel : nat) (start : nat -> nat) (w : name) (x : worker)
| DropRunner (x : worker).
Record res := mkRes { found : option nat; worker_after : worker }.

Definition exec_code (o : op) : prog State res :=
  match o with
  | Schedule r => schedule r ;; mret (mkRes None NoWorker)
  | TryTick => o ← try_tick; mret (mkRes o NoWorker)
  | PollTick fuel w x =>
      let id := match x with Ticking id _ => id | _ => 0%nat end in
      '(o, id) ← ticker_runnable fuel w id;
      mret (match o with Ready r => mkRes (Some r) NoWorker | Pending => mkRes None (Ticking id w) end)
  | DropTick x => match x with Ticking id _ => drop_ticker id | _ => mret () end ;; mret (mkRes None NoWorker)
  | NewRunner => lid ← runner_new; mret (mkRes None (Running (mkRunner lid 0 0) 0))
  | PollRunner fuel start w x =>
      match x with
      | Running r _ =>
          '(o, r) ← runner_runnable fuel start w r;
          mret (mkRes (match o with Ready r => Some r | Pending => None end) (Running r w))
      | _ => mret (mkRes None x)
      end
  | DropRunner x => match x with Running r _ => drop_runner r | _ => mret () end ;; mret (mkRes None NoWorker)
  end.

Definition exec_start (c : client) (o : op) : option client :=
  match o with
  | Schedule r =>
      match list_find (fun x => x = r) (hand c) with
      | Some (i, _) => Some (mkClient (delete i (hand c)) (work c))
      | None => None
      end
  | TryTick => Some c
  | PollTick _ _ x =>
      if decide (work c = x) then match x with Running _ _ => None | _ => Some (mkClient (hand c) NoWorker) end else None
  | DropTick x =>
      if decide (work c = x) then match x with Ticking _ _ => Some (mkClient (hand c) NoWorker) | _ => None end else None
  | NewRunner => match work c with NoWorker => Some c | _ => None end
  | PollRunner _ _ _ x | DropRunner x =>
      if decide (work c = x) then match x with Running _ _ => Some (mkClient (hand c) NoWorker) | _ => None end else None
  end.
Definition exec_finish (c : client) (o : op) (x : res) : client :=
  mkClient (option_list (found x) ++ hand c)
    (match o with Schedule _ | TryTick => work c | _ => worker_after x end).

Definition exec_pool (hands : list (list nat)) : config State op res client :=
  Config state_new ((fun h => Thread (mkClient h NoWorker) None) <$> hands).
