(* ===== verification/SleeperProof.v ===== *)
(** [Sleeper] keeps the sleeping tickers apart: every id is given to one of
    them, and [wakers] lacks exactly those that were notified. *)

From stdpp Require Import gmap.
From S2P Require Import Prelude Conc Executor.

Ltac no_elem := match goal with H : _ ∈ [] |- _ => by apply elem_of_nil in H end.

(** * The sleepers *)

(** [R]: the sleeping tickers, with the waker each last slept with. *)
Record sleeper_ok (R : gmap nat name) (s : Sleeper) (popped : list name) : Prop := {
  s_count : size R = count s;
  s_nodup : NoDup (wakers s).*1;
  s_wakers : forall id w, (id, w) ∈ wakers s -> R !! id = Some w;
  s_asleep : forall id w, R !! id = Some w -> (id, w) ∈ wakers s \/ w ∈ popped;
  s_free : NoDup (free_ids s);
  s_gone : forall id, id ∈ free_ids s -> R !! id = None;
  s_range : forall id, is_Some (R !! id) \/ id ∈ free_ids s -> (1 <= id <= count s + length (free_ids s))%nat }.

Lemma set_waker_spec id w l : match set_waker id w l with
  | None => id ∉ l.*1
  | Some l' => l'.*1 = l.*1 /\ length l' = length l /\ id ∈ l.*1 /\
      (NoDup l.*1 -> forall i v, (i, v) ∈ l' <-> i = id /\ v = w \/ i <> id /\ (i, v) ∈ l)
  end.
Proof.
  induction l as [|[i v] l IH]; [by apply not_elem_of_nil|]. cbn [set_waker].
  destruct (Nat.eqb_spec i id) as [->|Hne].
  - split_and!; [done|done|by left|]. rewrite fmap_cons. intros [Hni _]%NoDup_cons i' v'. rewrite !elem_of_cons.
    assert ((id, v') ∉ l) by (intros Hin; apply Hni; apply list_elem_of_fmap; by exists (id, v')).
    destruct (decide (i' = id)) as [->|]; naive_solver.
  - destruct (set_waker id w l) as [l'|]; cbn [fmap option_fmap option_map].
    + destruct IH as (E1 & E2 & Hin & Hl). rewrite !fmap_cons. cbn. rewrite E1, E2.
      split_and!; [done|done|by right|]. intros [_ Hnd]%NoDup_cons i' v'. rewrite !elem_of_cons, Hl by done. naive_solver.
    + rewrite fmap_cons, not_elem_of_cons. done.
Qed.

Lemma remove_waker_spec id l : NoDup l.*1 -> match remove_waker id l with
  | None => id ∉ l.*1
  | Some l' => S (length l') = length l /\ id ∈ l.*1 /\ l' `sublist_of` l /\ forall i v, (i, v) ∈ l' <-> i <> id /\ (i, v) ∈ l
  end.
Proof.
  induction l as [|[i v] l IH]; [by intros; apply not_elem_of_nil|].
  rewrite fmap_cons. intros [Hni Hnd]%NoDup_cons. specialize (IH Hnd). cbn [remove_waker].
  destruct (remove_waker id l) as [l'|].
  - destruct IH as (El & Hin & Hsub & Hl). split_and!; [cbn; lia|by right|by constructor|]. intros i' v'.
    rewrite !elem_of_cons, Hl. naive_solver.
  - destruct (Nat.eqb_spec i id) as [->|Hne].
    + split_and!; [done|by left|by constructor|]. intros i' v'. rewrite elem_of_cons.
      assert (forall x, (id, x) ∈ l -> False) by (intros x Hx; apply Hni, list_elem_of_fmap; by exists (id, x)).
      naive_solver.
    + rewrite not_elem_of_cons. done.
Qed.

Lemma sl_new_ok : sleeper_ok ∅ sl_new [].
Proof.
  constructor; [done|apply NoDup_nil_2|intros ?? Hi; cbn in Hi; no_elem|done|apply NoDup_nil_2|done|].
  intros id [[? [=]]|Hi]. cbn in Hi. no_elem.
Qed.

Lemma asleep_mono R s p p' : p ⊆ p' -> sleeper_ok R s p -> sleeper_ok R s p'.
Proof. intros Hp []. constructor; try done. intros id w Hw. destruct (s_asleep0 id w Hw); auto. Qed.

Lemma in_wakers (id : nat) (l : list (nat * name)) : id ∈ l.*1 <-> exists w : name, (id, w) ∈ l.
Proof. rewrite list_elem_of_fmap. split; [intros ([? w] & -> & ?); by exists w|intros [w ?]; by exists (id, w)]. Qed.

(** A new sleeper, under an id that is not in use. *)
Lemma sleeper_added R s p id w free : sleeper_ok R s p -> R !! id = None ->
  NoDup free -> (forall i, i ∈ free -> i <> id /\ i ∈ free_ids s) ->
  (1 <= id <= S (count s) + length free)%nat -> (length (free_ids s) <= S (length free))%nat ->
  sleeper_ok (<[id := w]> R) (mkSleeper (S (count s)) (wakers s ++ [(id, w)]) free) p.
Proof.
  intros [] Hn Hfree Hin Hid Hlen. constructor; cbn [count wakers free_ids]; [..|done| |].
  - rewrite map_size_insert_None by done. lia.
  - rewrite fmap_app. apply NoDup_app. split_and!; [done| |apply NoDup_singleton].
    intros i (v & Hi)%in_wakers ->%list_elem_of_singleton. apply s_wakers0 in Hi. cbn in Hi. congruence.
  - intros i v [Hi|[= -> ->]%list_elem_of_singleton]%elem_of_app; [|by rewrite lookup_insert_eq].
    apply s_wakers0 in Hi. rewrite lookup_insert_ne by congruence. done.
  - intros i v. destruct (decide (i = id)) as [->|].
    + rewrite lookup_insert_eq. intros [= ->]. left. apply elem_of_app. right. by apply list_elem_of_singleton.
    + rewrite lookup_insert_ne by done. intros Hi. destruct (s_asleep0 _ _ Hi); [left; apply elem_of_app|]; auto.
  - intros i [Hne Hi]%Hin. rewrite lookup_insert_ne by done. auto.
  - intros i Hi. destruct (decide (i = id)) as [->|]; [done|]. rewrite lookup_insert_ne in Hi by done.
    enough (is_Some (R !! i) \/ i ∈ free_ids s) as ?%s_range0 by lia. naive_solver.
Qed.

Lemma sl_insert_ok R s p w : sleeper_ok R s p ->
  let '(id, s') := sl_insert w s in
  R !! id = None /\ id <> 0%nat /\ count s' <> 0%nat /\ sleeper_ok (<[id := w]> R) s' p.
Proof.
  intros Hs. pose proof Hs as []. unfold sl_insert. destruct (free_ids s) as [|x l _] eqn:Ef using rev_ind.
  - cbn [last]. assert (Hn : R !! S (count s) = None).
    { apply eq_None_not_Some. intros Hx. specialize (s_range0 (S (count s)) (or_introl Hx)). cbn [length] in *. lia. }
    split_and!; [done|done|done|]. apply sleeper_added; rewrite ?Ef; try done; cbn [length]; try lia. intros i Hi. no_elem.
  - rewrite last_snoc, length_app, Nat.add_sub, take_app_length. cbn [length].
    assert (Hx : x ∈ l ++ [x]) by (apply elem_of_app; right; by left).
    apply NoDup_app in s_free0 as (Hl & Hlx & _). specialize (s_range0 x (or_intror Hx)). rewrite length_app in s_range0.
    cbn [length] in s_range0. split_and!; [auto|lia|done|]. apply sleeper_added; rewrite ?Ef; try done; [auto| |lia|].
    + intros i Hi. split; [|apply elem_of_app; by left]. intros ->. apply (Hlx x Hi). by left.
    + rewrite length_app. cbn [length]. lia.
Qed.

Lemma sl_update_ok R s p id w w0 : sleeper_ok R s p -> R !! id = Some w0 ->
  let '(again, s') := sl_update id w s in
  sleeper_ok (<[id := w]> R) s' p /\ count s' = count s /\ (again = false -> length (wakers s') = length (wakers s)).
Proof.
  intros [] Hid. unfold sl_update. pose proof (set_waker_spec id w (wakers s)) as Hw.
  assert (Hsz : size (<[id := w]> R) = count s) by (by rewrite map_size_insert_Some).
  assert (Hdom : forall i, is_Some (<[id := w]> R !! i) -> is_Some (R !! i)).
  { intros i. rewrite lookup_insert_is_Some. intros [<-|[_ ?]]; [by eexists|done]. }
  assert (Hgone : forall i, i ∈ free_ids s -> <[id := w]> R !! i = None).
  { intros i Hi. specialize (s_gone0 i Hi). rewrite lookup_insert_ne; [done|congruence]. }
  destruct (set_waker id w (wakers s)) as [l|].
  - destruct Hw as (E1 & E2 & _ & Hl). specialize (Hl s_nodup0). split_and!; [|done|done].
    constructor; cbn [count wakers free_ids]; try done; [by rewrite E1| | |naive_solver].
    + intros i v [[-> ->]|[Hne Hi]]%Hl; [by rewrite lookup_insert_eq|]. rewrite lookup_insert_ne by done. auto.
    + intros i v. destruct (decide (i = id)) as [->|]; [rewrite lookup_insert_eq; intros [= ->]; left; apply Hl; auto|].
      rewrite lookup_insert_ne by done. intros Hi. rewrite Hl. destruct (s_asleep0 _ _ Hi); auto.
  - split_and!; [|done|done]. constructor; cbn [count wakers free_ids]; try done; [| | |naive_solver].
    + rewrite fmap_app. apply NoDup_app. split_and!; [done| |apply NoDup_singleton].
      intros i Hi ->%list_elem_of_singleton. done.
    + intros i v [Hi|[= -> ->]%list_elem_of_singleton]%elem_of_app; [|by rewrite lookup_insert_eq].
      rewrite lookup_insert_ne; [auto|]. intros ->. apply Hw, in_wakers. by exists v.
    + intros i v. destruct (decide (i = id)) as [->|].
      * rewrite lookup_insert_eq. intros [= ->]. left. apply elem_of_app. right. by apply list_elem_of_singleton.
      * rewrite lookup_insert_ne by done. intros Hi. destruct (s_asleep0 _ _ Hi); [left; apply elem_of_app|]; auto.
Qed.

Lemma sl_remove_ok R s p id w0 : sleeper_ok R s p -> R !! id = Some w0 ->
  exists n s', sl_remove id s = Some (n, s') /\ sleeper_ok (delete id R) s' p /\ count s = S (count s') /\
    (n = false -> length (wakers s) = S (length (wakers s'))).
Proof.
  intros [] Hid. unfold sl_remove. pose proof (remove_waker_spec id (wakers s) s_nodup0) as Hw.
  assert (Hsz : size R = S (size (delete id R))).
  { rewrite map_size_delete_Some by done. assert (size R <> 0%nat) by (intros ->%map_size_empty_inv; done). lia. }
  destruct (count s) as [|n]; [lia|].
  assert (Hlow : sleeper_ok (delete id R) (mkSleeper n (default (wakers s) (remove_waker id (wakers s))) (free_ids s ++ [id])) p).
  { assert (Hsome : forall i, is_Some (R !! i) \/ i ∈ free_ids s -> (1 <= i <= n + length (free_ids s ++ [id]))%nat).
    { intros i Hi. specialize (s_range0 i Hi). rewrite length_app. cbn [length]. lia. }
    constructor; cbn [count wakers free_ids].
    - lia.
    - destruct (remove_waker id (wakers s)) as [l|]; [|done]. destruct Hw as (_ & _ & Hsub & _). cbn [default].
      eapply sublist_NoDup; [exact s_nodup0|by apply fmap_sublist].
    - intros i v Hi. assert (i <> id /\ (i, v) ∈ wakers s) as [??].
      { destruct (remove_waker id (wakers s)) as [l|]; [by apply Hw|]. split; [|done]. intros ->.
        apply Hw, in_wakers. by exists v. }
      rewrite lookup_delete_ne; auto.
    - intros i v [Hne Hi]%lookup_delete_Some. destruct (s_asleep0 _ _ Hi) as [Hx|]; [left|by right].
      destruct (remove_waker id (wakers s)) as [l|]; [by apply Hw|done].
    - apply NoDup_app. split_and!; [done| |apply NoDup_singleton]. intros i Hi ->%list_elem_of_singleton.
      apply s_gone0 in Hi. congruence.
    - intros i [Hi| ->%list_elem_of_singleton]%elem_of_app; [|by rewrite lookup_delete_eq].
      specialize (s_gone0 i Hi). rewrite lookup_delete_None. auto.
    - intros i Hi. apply Hsome. destruct Hi as [[v Hi]|Hi].
      + apply lookup_delete_Some in Hi as [_ Hi]. eauto.
      + apply elem_of_app in Hi as [Hi| ->%list_elem_of_singleton]; eauto. }
  destruct (remove_waker id (wakers s)) as [l|]; cbn [default] in Hlow; eexists _, _;
    (split; [done|split; [exact Hlow|split; [done|]]]); [|done].
  destruct Hw as [E _]. by intros _.
Qed.

(** [count] is at least the number of wakers; a sleeper is missing among them
    if it is larger. *)
Lemma wakers_le R s p : sleeper_ok R s p -> (length (wakers s) <= count s)%nat.
Proof.
  intros []. rewrite <- s_count0, <- length_map_to_list, <- (length_fmap fst (wakers s)), <- (length_fmap fst (map_to_list R)).
  apply submseteq_length, NoDup_submseteq; [done|]. intros i (v & Hi)%in_wakers. apply list_elem_of_fmap. exists (i, v).
  split; [done|]. apply elem_of_map_to_list. auto.
Qed.

Lemma notified_sleeper R s p : sleeper_ok R s p -> (length (wakers s) < count s)%nat ->
  exists id w, R !! id = Some w /\ id ∉ (wakers s).*1 /\ w ∈ p.
Proof.
  intros [] Hlt. destruct (decide (Forall (fun x => x.1 ∈ (wakers s).*1) (map_to_list R))) as [HF|HF].
  - assert (length (map_to_list R).*1 <= length (wakers s).*1)%nat; [|rewrite !length_fmap, length_map_to_list in *; lia].
    apply submseteq_length, NoDup_submseteq; [apply NoDup_fst_map_to_list|]. intros i ([? v] & -> & Hi)%list_elem_of_fmap.
    rewrite Forall_forall in HF. by apply (HF _ Hi).
  - apply not_Forall_Exists, Exists_exists in HF as ([id w] & Hi%elem_of_map_to_list & Hn); [|apply _].
    exists id, w. split_and!; [done|done|]. destruct (s_asleep0 _ _ Hi) as [Hx|]; [|done]. destruct Hn. apply in_wakers. by exists w.
Qed.

Lemma sl_notify_ok R s p : sleeper_ok R s p ->
  let '(o, s') := sl_notify s in
  sleeper_ok R s' (p ++ option_list o) /\ count s' = count s /\ (count s <> 0 -> length (wakers s') < count s')%nat.
Proof.
  intros Hs. pose proof (wakers_le _ _ _ Hs) as Hle. pose proof Hs as []. unfold sl_notify.
  destruct (Nat.eqb_spec (length (wakers s)) (count s)) as [Heq|Hne].
  2: { cbn. rewrite app_nil_r. split_and!; [done|done|lia]. }
  destruct (wakers s) as [|[id w] l _] eqn:Ew using rev_ind.
  - cbn. rewrite app_nil_r. split_and!; [done|done|cbn in Heq; lia].
  - rewrite last_snoc, length_app, Nat.add_sub, take_app_length. rewrite length_app in Heq. cbn [length] in Heq.
    split_and!; [|done|cbn; lia]. rewrite fmap_app in s_nodup0. apply NoDup_app in s_nodup0 as (Hl & Hlx & _).
    constructor; cbn [count wakers free_ids]; try done.
    + intros i v Hi. apply s_wakers0, elem_of_app. by left.
    + intros i v Hi. destruct (s_asleep0 i v Hi) as [[Hx|[= -> ->]%list_elem_of_singleton]%elem_of_app|Hx];
        [by left|right|right]; apply elem_of_app; cbn; [right; by left|by left].
Qed.
