(* ===== verification/ExecutorProof.v ===== *)
(** The executor in every interleaving: no runnable is lost or run twice, and
    none waits in the global queue while every sleeper is asleep.

    Tokens: a runnable in hand; the local queue of a runner, with a bound on
    its length; the id of a sleeping ticker, with its waker; the mutex and the
    read locks; and four promises, one of which covers every runnable in the
    global queue: the thread holds the mutex and has not yet written
    [notified] ([TSwap]), it will look at the queue ([TLook]), it will try to
    set [notified] ([TDuty]), it has set it and will notify ([TNotif]). *)

From stdpp Require Import gmap.
From S2P Require Import Prelude Conc Tokens Executor SleeperProof.

(** * Tokens and invariant *)

Inductive etok :=
| TRun (r : nat)
| TOwn (lid : nat) (x : bool * nat)
| TId (id : nat) (w : name)
| TLock | TRead | TSwap | TLook | TDuty | TNotif
| TWake (w : name).

#[export] Instance etok_eq : EqDecision etok.
Proof. solve_decision. Defined.
#[export] Instance etok_countable : Countable etok.
Proof.
  refine (inj_countable'
    (fun t => match t with
              | TRun r => inl (inl r) | TOwn l x => inl (inr (l, x)) | TId i w => inr (inl (i, w))
              | TLock => inr (inr (0, 0)%nat) | TRead => inr (inr (1, 0)%nat) | TSwap => inr (inr (2, 0)%nat)
              | TLook => inr (inr (3, 0)%nat) | TDuty => inr (inr (4, 0)%nat) | TNotif => inr (inr (5, 0)%nat)
              | TWake w => inr (inr (6, w)%nat) end)
    (fun x => match x with
              | inl (inl r) => TRun r | inl (inr (l, x)) => TOwn l x | inr (inl (i, w)) => TId i w
              | inr (inr (0, _)%nat) => TLock | inr (inr (1, _)%nat) => TRead | inr (inr (2, _)%nat) => TSwap
              | inr (inr (3, _)%nat) => TLook | inr (inr (4, _)%nat) => TDuty | inr (inr (5, _)%nat) => TNotif
              | inr (inr (_, w)) => TWake w end) _).
  by intros [].
Defined.

#[local] Instance TOwn_inj : Inj2 (=) (=) (=) TOwn.
Proof. by intros ???? [=]. Qed.
#[local] Instance TId_inj : Inj2 (=) (=) (=) TId.
Proof. by intros ???? [=]. Qed.

(** The local queues: those with an owner, who knows a bound on the length
    and is the only one to push, and empty ones. *)
Definition queue_ok (locals : list nat) (lid : nat) (q : list nat) (x : option (bool * nat)) : Prop :=
  match x with
  | Some (live, n) => (length q <= n <= local_cap)%nat /\ (live = true -> lid ∈ locals)
  | None => q = []
  end.
Definition own_ok (O : gmap nat (bool * nat)) (st : list (list nat)) (locals : list nat) : Prop :=
  (forall lid q, st !! lid = Some q -> queue_ok locals lid q (O !! lid)) /\
  (forall lid, is_Some (O !! lid) -> (lid < length st)%nat).

(** The last two say who sees to the runnables of the global queue. *)
Record tally (total : nat -> nat) (σ : State) (c : etok -> nat) : Prop := {
  e_lock : c TLock = if slock σ then 1%nat else 0%nat;
  e_read : c TRead = readers σ;
  e_sleepers : exists R, sleeper_ok R (sleepers σ) (popped σ) /\ entries TId c R;
  e_own : exists O, own_ok O (store σ) (local_queues σ) /\ entries TOwn c O;
  e_run : forall r, (occ r (queue σ) + (occ r (concat (store σ)) + c (TRun r)))%nat = total r;
  e_wake : forall w, (occ w (woken σ) + c (TWake w))%nat = occ w (popped σ);
  e_notified : notified σ = true -> count (sleepers σ) <> 0%nat ->
    (length (wakers (sleepers σ)) < count (sleepers σ))%nat \/ held c [TNotif; TSwap];
  e_cover : queue σ <> [] -> count (sleepers σ) <> 0%nat ->
    (length (wakers (sleepers σ)) < count (sleepers σ))%nat \/ held c [TNotif; TSwap; TLook; TDuty] }.

Lemma tally_ext total σ c c' : (forall t, c t = c' t) -> tally total σ c -> tally total σ c'.
Proof.
  intros E []. pose proof (fun L => held_ext c c' L E) as Hh.
  constructor; [by rewrite <- E|by rewrite <- E| | |intros; rewrite <- E; auto|intros; rewrite <- E; auto|..].
  - destruct e_sleepers0 as (R & ? & HR). exists R. split; [done|]. eapply entries_ext; [|exact HR]. auto.
  - destruct e_own0 as (O & ? & HO). exists O. split; [done|]. eapply entries_ext; [|exact HO]. auto.
  - intros Hn Hc. destruct (e_notified0 Hn Hc); auto.
  - intros Hq Hc. destruct (e_cover0 Hq Hc); auto.
Qed.

Definition looks (b : bool) : list etok := if b then [TLook] else [].

Ltac counts := intros; cbv beta in *; cbn [occ looks] in *; repeat (case_decide; simplify_eq); lia.

(** What an exchange leaves alone. *)
Ltac keep_sleepers := match goal with H : exists R : gmap nat name, _ |- _ =>
  let R := fresh "R" in let HR := fresh "HR" in destruct H as (R & ? & HR); exists R; split; [done|eapply entries_ext; [|exact HR]; counts] end.
Ltac keep_own := match goal with H : exists O : gmap nat (bool * nat), _ |- _ =>
  let O := fresh "O" in let HO := fresh "HO" in destruct H as (O & ? & HO); exists O; split; [done|eapply entries_ext; [|exact HO]; counts] end.
Ltac keep_runs := match goal with H : forall r, (_ + (_ + _))%nat = _ |- forall r, _ => let r := fresh in intros r; specialize (H r); counts end.
Ltac keep_wakes := match goal with H : forall w, (_ + _)%nat = occ w _ |- forall w, _ => let w := fresh in intros w; specialize (H w); counts end.
Ltac keep_held H := let Ha := fresh in let Hb := fresh in intros Ha Hb; destruct (H Ha Hb) as [?|?];
  [left; done|right; eapply held_keep; [|eassumption]; repeat constructor; counts].
Ltac keep := cbn [queue store local_queues readers notified slock sleepers woken popped
    put_queue put_store put_locals put_sleep put_woken put_contents contents fst snd];
  first [keep_sleepers | keep_own | keep_runs | keep_wakes
    | match goal with H : notified _ = true -> _ |- _ => keep_held H end
    | match goal with H : queue _ <> [] -> _ |- _ => keep_held H end | counts | idtac].

Lemma occ_concat_insert r lid q q' (st : list (list nat)) : st !! lid = Some q ->
  (occ r (concat (<[lid := q']> st)) + occ r q = occ r (concat st) + occ r q')%nat.
Proof.
  revert lid. induction st as [|a st IH]; intros [|lid] Hl; simplify_eq/=; rewrite !occ_app; [lia|].
  specialize (IH _ Hl). lia.
Qed.

(** One local queue changes. *)
Lemma own_change O O' st ls lid q q' : own_ok O st ls -> st !! lid = Some q ->
  (forall lid', lid' <> lid -> O' !! lid' = O !! lid') -> queue_ok ls lid q' (O' !! lid) -> own_ok O' (<[lid := q']> st) ls.
Proof.
  intros [Hq Hb] Hl HO Hok. pose proof (lookup_lt_Some _ _ _ Hl) as Hlt. split.
  - intros lid' q1. destruct (decide (lid' = lid)) as [->|Hne].
    + rewrite list_lookup_insert_eq by done. by intros [= <-].
    + rewrite list_lookup_insert_ne, HO by done. auto.
  - intros lid' Hs. rewrite length_insert. destruct (decide (lid' = lid)) as [->|Hne]; [done|]. rewrite HO in Hs by done. auto.
Qed.

Section proof.
Context (total : nat -> nat).

Definition exec_inv (σ : State) (m : gmultiset etok) : Prop := tally total σ (fun t => multiplicity t m).

Lemma exec_inv_tally σ m : exec_inv σ m <-> tally total σ (fun t => multiplicity t m).
Proof. done. Qed.

Local Abbreviation okl := (okl exec_inv).
Local Abbreviation okl_act := (okl_act exec_inv (tally total) (tally_ext total) exec_inv_tally).
Local Abbreviation okl_atomic := (okl_atomic exec_inv (tally total) (tally_ext total) exec_inv_tally).
Local Abbreviation okl_await := (okl_await exec_inv (tally total) (tally_ext total) exec_inv_tally).
Local Abbreviation okl_after := (okl_after exec_inv (tally total) (tally_ext total) exec_inv_tally).

(** ** The actions *)

Lemma okl_len q L : okl L (qlen q) (fun L' _ => L' = L).
Proof. apply okl_atomic. intros σ c Hσ. by exists L. Qed.

Lemma okl_wake_waker w : okl [TWake w] (wake_waker w) (fun L' _ => L' = []).
Proof.
  apply okl_atomic. intros σ c []. exists []. split; [|done]. constructor; keep.
  intros x. specialize (e_wake0 x). rewrite occ_app. counts.
Qed.

Lemma okl_push_global r : okl [TRun r] (qpush_global r) (fun L' _ => L' = [TDuty]).
Proof.
  apply okl_atomic. intros σ c []. exists [TDuty]. split; [|done]. constructor; keep.
  - intros x. specialize (e_run0 x). rewrite occ_app. counts.
  - intros _ _. right. apply (held_have TDuty); [by left|by do 3 right; left].
Qed.

Lemma okl_unlock : okl [TLock] sleepers_unlock (fun L' _ => L' = []).
Proof. apply okl_atomic. intros σ c []. exists []. split; [|done]. constructor; keep. destruct (slock σ); counts. Qed.

(** [notified] is written from the sleepers. *)
Lemma okl_swap L L' : (L, L') ∈ [([TLock; TSwap], [TLock; TLook]); ([TLock; TSwap], [TLock; TDuty]); ([TLock], [TLock])] ->
  okl L swap_notified (fun L1 _ => L1 = L').
Proof.
  intros HL. apply okl_atomic. intros σ c []. exists L'. split; [|done].
  assert (Hn : sl_is_notified (sleepers σ) = true -> count (sleepers σ) <> 0%nat ->
    (length (wakers (sleepers σ)) < count (sleepers σ))%nat).
  { unfold sl_is_notified. intros [?%Nat.eqb_eq|?%Nat.ltb_lt]%orb_prop ?; lia. }
  rewrite !elem_of_cons in HL. destruct HL as [[= -> ->]|[[= -> ->]|[[= -> ->]|HL]]]; [..|by apply elem_of_nil in HL].
  all: constructor; keep; first [intros; left; by auto|promise TLook|promise TDuty].
Qed.

(** *** Queues *)

Lemma okl_pop_global b : okl (looks b) (qpop Global) (fun L' o => match o with
  | None => L' = [] | Some r => L' = [TDuty; TRun r] end).
Proof.
  apply okl_atomic. intros σ c []. cbn [contents]. destruct (queue σ) as [|r l] eqn:Eq; cbn [fst snd].
  - exists []. split; [|done]. unfold looks in *. destruct b; constructor; keep; by rewrite Eq.
  - exists [TDuty; TRun r]. split; [|done].
    unfold looks in *. destruct b; constructor; keep; promise TDuty.
Qed.

(** A runnable is taken from any queue. *)
Lemma okl_pop q : okl [] (qpop q) (fun L' o => L' = match o with None => [] | Some r => [TRun r] end).
Proof.
  apply okl_atomic. intros σ c [].
  destruct (contents σ q) as [|r l] eqn:Eq; cbn [fst snd]; [exists []; split; [by constructor|done]|].
  exists [TRun r]. split; [|done]. destruct q as [|lid].
  - cbn [contents] in Eq. rewrite Eq in e_run0, e_cover0. constructor; keep.
    intros _ Hc. destruct e_cover0 as [?|?]; [done|done|by left|right]. eapply held_keep; [|eassumption]. repeat constructor; counts.
  - cbn [contents] in Eq. destruct (store σ !! lid) as [q|] eqn:El; [|done]. cbn in Eq. subst q.
    constructor; keep.
    + destruct e_own0 as (O & Hown & HO). exists O. split; [|eapply entries_ext; [|exact HO]; counts].
      eapply own_change; [done|done|done|]. destruct Hown as [Hq _]. specialize (Hq _ _ El).
      destruct (O !! lid) as [[b n]|]; [|done]. destruct Hq as [Hq ?]. split; [|done]. cbn [length] in Hq. lia.
    + intros x. specialize (e_run0 x). pose proof (occ_concat_insert x lid _ l _ El). counts.
Qed.

(** The token of a local queue is exchanged. *)
Lemma own_exchange O st ls lid x q q' (c : etok -> nat) L : own_ok O st ls -> st !! lid = Some q ->
  entries TOwn c (delete lid O) -> queue_ok ls lid q' (Some x) -> (forall k v, occ (TOwn k v) L = 0%nat) ->
  exists O', own_ok O' (<[lid := q']> st) ls /\ entries TOwn (fun t => occ t (TOwn lid x :: L) + c t)%nat O'.
Proof.
  intros Hown Hl HO Hq HL. exists (<[lid := x]> (delete lid O)).
  split; [|apply entries_add; [apply _|done|apply lookup_delete_eq|done]].
  eapply own_change; [done|done| |by rewrite lookup_insert_eq].
  intros lid' Hne. by rewrite lookup_insert_ne, lookup_delete_ne.
Qed.

(** The owner of a local queue. *)
Lemma own_held σ c lid x L : tally total σ (fun t => occ t (TOwn lid x :: L) + c t)%nat -> (forall k v, occ (TOwn k v) L = 0%nat) ->
  exists q O, store σ !! lid = Some q /\ queue_ok (local_queues σ) lid q (Some x) /\
    own_ok O (store σ) (local_queues σ) /\ entries TOwn c (delete lid O).
Proof.
  intros [] HL. destruct e_own0 as (O & Hown & HO). pose proof Hown as [Hq Hlt]. apply entries_del in HO as [HlO HO]; [|apply _|done].
  destruct (lookup_lt_is_Some_2 (store σ) lid) as [q El]; [apply Hlt; rewrite HlO; by eexists|]. exists q, O.
  specialize (Hq _ _ El). rewrite HlO in Hq. by split_and!.
Qed.

Lemma okl_pop_own lid b n lk : okl (TOwn lid (b, n) :: looks lk) (qpop (Local lid)) (fun L' o => match o with
  | None => L' = TOwn lid (b, 0%nat) :: looks lk | Some r => L' = [TOwn lid (b, local_cap); TDuty; TRun r] end).
Proof.
  apply okl_atomic. intros σ c Hσ. cbn [contents].
  destruct (own_held _ _ _ _ _ Hσ) as (q & O & El & [Hq Hlive] & Hown & HO); [by destruct lk|]. destruct Hσ.
  rewrite El. change (default [] (Some q)) with q. destruct q as [|r l]; cbn [fst snd length] in *.
  - exists (TOwn lid (b, 0%nat) :: looks lk). split; [|done]. constructor; keep.
    rewrite <- (list_insert_id (store σ) lid []) by done.
    eapply own_exchange; [done..| |by destruct lk]. split; [cbn; lia|done].
  - exists [TOwn lid (b, local_cap); TDuty; TRun r]. split; [|done]. destruct lk; constructor; keep; try promise TDuty.
    all: first [eapply own_exchange; [done..| |done]; split; [lia|done]
               |intros x; specialize (e_run0 x); pose proof (occ_concat_insert x lid _ l _ El); counts].
Qed.

(** The owner that gives its runnables back. *)
Lemma okl_pop_last lid n : okl [TOwn lid (false, n)] (qpop (Local lid)) (fun L' o => match o with
  | None => L' = [] | Some r => exists n', n = S n' /\ L' = [TOwn lid (false, n'); TRun r] end).
Proof.
  apply okl_atomic. intros σ c Hσ. cbn [contents].
  destruct (own_held _ _ _ _ _ Hσ) as (q & O & El & [Hq Hlive] & Hown & HO); [done|]. destruct Hσ.
  rewrite El. change (default [] (Some q)) with q. destruct q as [|r l]; cbn [fst snd length] in *.
  - exists []. split; [|done]. constructor; keep. exists (delete lid O). split; [|done].
    rewrite <- (list_insert_id (store σ) lid []) by done. eapply own_change; [done|done| |by rewrite lookup_delete_eq].
    intros lid' Hne. by rewrite lookup_delete_ne.
  - destruct n as [|n]; [lia|]. exists [TOwn lid (false, n); TRun r]. split; [|by exists n]. constructor; keep.
    + eapply own_exchange; [done..| |done]. split; [lia|done].
    + intros x; specialize (e_run0 x); pose proof (occ_concat_insert x lid _ l _ El); counts.
Qed.

Lemma okl_len_own lid b n g : (forall d, (d <= local_cap -> d <= g d <= local_cap)%nat) ->
  okl [TOwn lid (b, n)] (qlen (Local lid)) (fun L' d => (d <= local_cap)%nat /\ L' = [TOwn lid (b, g d)]).
Proof.
  intros Hg. apply okl_atomic. intros σ c Hσ. cbn [contents].
  destruct (own_held _ _ _ _ _ Hσ) as (q & O & El & [Hq Hlive] & Hown & HO); [done|]. destruct Hσ.
  rewrite El. change (default [] (Some q)) with q. cbn [fst snd]. specialize (Hg (length q) ltac:(lia)).
  exists [TOwn lid (b, g (length q))]. split; [|split; [lia|done]]. constructor; keep.
  rewrite <- (list_insert_id (store σ) lid q) by done. eapply own_exchange; [done..| |done]. split; [lia|done].
Qed.

Lemma okl_push_local lid b n r : (n < local_cap)%nat ->
  okl [TOwn lid (b, n); TRun r] (qpush_local lid r) (fun L' ok => ok = true /\ L' = [TOwn lid (b, S n)]).
Proof.
  intros Hn. apply okl_atomic. intros σ c Hσ. cbn [contents].
  destruct (own_held _ _ _ _ _ Hσ) as (q & O & El & [Hq Hlive] & Hown & HO); [done|]. destruct Hσ.
  rewrite El. change (default [] (Some q)) with q. rewrite (proj2 (Nat.ltb_lt _ _)) by lia. cbn [fst snd].
  exists [TOwn lid (b, S n)]. split; [|done]. constructor; keep.
  - eapply own_exchange; [done..| |done]. cbn [queue_ok]. rewrite length_app. cbn [length]. split; [lia|done].
  - intros x; specialize (e_run0 x); pose proof (occ_concat_insert x lid _ (q ++ [r]) _ El). rewrite occ_app in *. counts.
Qed.

(** *** The list of local queues *)

Lemma okl_new_local : okl [] (atomic (fun σ => (length (store σ), put_store (store σ ++ [[]]) σ)))
  (fun L' lid => L' = [TOwn lid (false, 0%nat)]).
Proof.
  apply okl_atomic. intros σ c []. exists [TOwn (length (store σ)) (false, 0%nat)]. split; [|done]. constructor; keep.
  - destruct e_own0 as (O & [Hq Hlt] & HO).
    assert (Hn : O !! length (store σ) = None) by (apply eq_None_not_Some; intros Hs; specialize (Hlt _ Hs); lia).
    exists (<[length (store σ) := (false, 0%nat)]> O). split.
    + split.
      * intros lid q. destruct (decide (lid = length (store σ))) as [->|Hne].
        -- rewrite lookup_insert_eq, lookup_app_r, Nat.sub_diag by lia. cbn. intros [= <-]. split; [cbn; lia|done].
        -- rewrite lookup_insert_ne by done. intros [Hl|[Hge [Hl _]%list_lookup_singleton_Some]]%lookup_app_Some; [auto|lia].
      * intros lid. rewrite length_app. cbn [length]. intros [<-|[_ Hs]]%lookup_insert_is_Some; [lia|].
        specialize (Hlt _ Hs). lia.
    + apply entries_add; [apply _|exact HO|done|done].
  - intros x. specialize (e_run0 x). rewrite concat_app. cbn [concat]. rewrite !app_nil_r. counts.
Qed.

Lemma queue_ok_mono ls ls' lid q x : (lid ∈ ls -> lid ∈ ls') -> queue_ok ls lid q x -> queue_ok ls' lid q x.
Proof. destruct x as [[live n]|]; [|done]. intros Hl [? Hlive]. split; auto. Qed.

Lemma okl_add_local lid b n : okl [TOwn lid (b, n)] (await (fun σ => match readers σ with
    | O => Some ((), put_locals (local_queues σ ++ [lid]) 0 σ) | S _ => None end))
  (fun L' _ => L' = [TOwn lid (true, local_cap)]).
Proof.
  apply okl_await. intros σ c a σ' Hσ Hf. destruct (readers σ) eqn:Er; [|done]. simplify_eq.
  destruct (own_held _ _ _ _ _ Hσ) as (q & O & El & [Hq Hlive] & Hown & HO); [done|]. destruct Hσ.
  exists [TOwn lid (true, local_cap)]. split; [|done]. constructor; keep.
  rewrite <- (list_insert_id (store σ) lid q) by done. eapply own_exchange; [|done|done| |done].
  - destruct Hown as [Hq' ?]. split; [|done]. intros lid' q' Hl. eapply queue_ok_mono; [|by apply Hq'].
    rewrite elem_of_app. auto.
  - split; [lia|]. intros _. apply elem_of_app. right. by left.
Qed.

Lemma okl_retain lid b n : okl [TOwn lid (b, n)] (await (fun σ => match readers σ with
    | O => Some ((), put_locals (filter (fun v => v <> lid) (local_queues σ)) 0 σ) | S _ => None end))
  (fun L' _ => L' = [TOwn lid (false, local_cap)]).
Proof.
  apply okl_await. intros σ c a σ' Hσ Hf. destruct (readers σ) eqn:Er; [|done]. simplify_eq.
  destruct (own_held _ _ _ _ _ Hσ) as (q & O & El & [Hq Hlive] & Hown & HO); [done|]. destruct Hσ.
  exists [TOwn lid (false, local_cap)]. split; [|done]. constructor; keep.
  exists (<[lid := (false, local_cap)]> (delete lid O)). split; [|apply entries_add; [apply _|done|apply lookup_delete_eq|done]].
  destruct Hown as [Hq' Hlt]. split.
  - intros lid' q' Hl. destruct (decide (lid' = lid)) as [->|Hne].
    + rewrite lookup_insert_eq. split; [|done]. rewrite El in Hl. injection Hl as <-. lia.
    + rewrite lookup_insert_ne, lookup_delete_ne by done. eapply queue_ok_mono; [|by apply Hq'].
      rewrite list_elem_of_filter. auto.
  - intros lid' Hs. destruct (decide (lid' = lid)) as [->|Hne]; [by eapply lookup_lt_Some|].
    rewrite lookup_insert_ne, lookup_delete_ne in Hs by done. auto.
Qed.

Lemma okl_read_lock lid n : okl [TOwn lid (true, n)]
  (atomic (fun σ => (local_queues σ, put_locals (local_queues σ) (S (readers σ)) σ)))
  (fun L' ls => ls <> [] /\ L' = [TRead; TOwn lid (true, n)]).
Proof.
  apply okl_atomic. intros σ c Hσ.
  destruct (own_held _ _ _ _ _ Hσ) as (q & O & El & [Hq Hlive] & Hown & HO); [done|]. destruct Hσ.
  exists [TRead; TOwn lid (true, n)]. split; [constructor; keep|split; [|done]].
  intros E. specialize (Hlive eq_refl). cbn [fst] in E. rewrite E in Hlive. by apply elem_of_nil in Hlive.
Qed.

Lemma okl_read_unlock : okl [TRead] (atomic (fun σ => ((), put_locals (local_queues σ) (pred (readers σ)) σ)))
  (fun L' _ => L' = []).
Proof. apply okl_atomic. intros σ c []. exists []. split; [|done]. constructor; keep. Qed.

(** *** The mutex of the sleepers *)

Lemma okl_lock_insert w : okl [] (sleepers_lock (fun s => Some (sl_insert w s)))
  (fun L' id => id <> 0%nat /\ L' = [TId id w; TLock; TSwap]).
Proof.
  apply okl_act. intros σ c []. destruct (slock σ) eqn:Ek; [done|].
  destruct e_sleepers0 as (R & Hs & HR). pose proof (sl_insert_ok _ _ _ w Hs) as Hi.
  destruct (sl_insert w (sleepers σ)) as [id s']. destruct Hi as (Hn & Hid & Hc & Hs').
  right. exists id, [TId id w; TLock; TSwap]. split; [done|split; [|done]]. constructor; keep; try promise TSwap.
  exists (<[id := w]> R). split; [done|]. apply entries_add; [apply _|exact HR|done|done].
Qed.

(** The token of a sleeper. *)
Lemma id_held σ c id w L : tally total σ (fun t => occ t (TId id w :: L) + c t)%nat -> (forall k v, occ (TId k v) L = 0%nat) ->
  exists R, R !! id = Some w /\ sleeper_ok R (sleepers σ) (popped σ) /\ entries TId c (delete id R).
Proof.
  intros [] HL. destruct e_sleepers0 as (R & Hs & HR). apply entries_del in HR as [Hid HR]; [|apply _|done]. by exists R.
Qed.

Lemma okl_lock_update id w0 w : okl [TId id w0] (sleepers_lock (fun s => Some (sl_update id w s)))
  (fun L' again => L' = if again : bool then [TId id w; TLock; TSwap] else [TLock; TId id w]).
Proof.
  apply okl_act. intros σ c Hσ. destruct (slock σ) eqn:Ek; [done|].
  destruct (id_held _ _ _ _ _ Hσ) as (R & Hid & Hs & HR); [done|]. destruct Hσ. rewrite Ek in e_lock0.
  pose proof (sl_update_ok _ _ _ id w w0 Hs Hid) as Hu.
  destruct (sl_update id w (sleepers σ)) as [again s']. destruct Hu as (Hs' & Ec & Ew).
  assert (HR' : forall L, (forall k v, occ (TId k v) L = 0%nat) ->
    exists R, sleeper_ok R s' (popped σ) /\ entries TId (fun t => occ t (TId id w :: L) + c t)%nat R).
  { intros L HL. exists (<[id := w]> R). split; [done|]. rewrite <- insert_delete_eq.
    apply entries_add; [apply _|done|apply lookup_delete_eq|done]. }
  right. exists again, (if again then [TId id w; TLock; TSwap] else [TLock; TId id w]). split; [done|split; [|done]].
  destruct again; constructor; keep; try promise TSwap; try (by apply HR').
  - rewrite Ec, Ew by done. keep_held e_notified0.
  - rewrite Ec, Ew by done. keep_held e_cover0.
Qed.

(** After its removal the thread will notify, unless the sleeper was asleep
    and it need not. *)
Lemma okl_lock_remove b id w : okl (TId id w :: (if b : bool then [TDuty] else [])) (sleepers_lock (sl_remove id))
  (fun L' n => L' = if b || n : bool then [TLock; TSwap] else [TLock]).
Proof.
  apply okl_act. intros σ c Hσ. destruct (slock σ) eqn:Ek; [done|].
  destruct (id_held _ _ _ _ _ Hσ) as (R & Hid & Hs & HR); [by destruct b|]. destruct Hσ. rewrite Ek in e_lock0.
  destruct (sl_remove_ok _ _ _ id w Hs Hid) as (n & s' & -> & Hs' & Ec & Ew).
  right. exists n, (if b || n then [TLock; TSwap] else [TLock]). split; [done|split; [|done]].
  assert (HR' : exists R, sleeper_ok R s' (popped σ) /\ entries TId c R) by (by exists (delete id R)).
  destruct b; [cbn [orb]|destruct n; cbn [orb]]; constructor; keep; try promise TSwap.
  - rewrite Ew, Ec in e_notified0 by done. intros Hn Hc. destruct e_notified0 as [?|?]; [done|done|left; lia|right].
    eapply held_keep; [|eassumption]. repeat constructor; counts.
  - rewrite Ew, Ec in e_cover0 by done. intros Hn Hc. destruct e_cover0 as [?|?]; [done|done|left; lia|right].
    eapply held_keep; [|eassumption]. repeat constructor; counts.
Qed.

(** ** [notify] *)

Lemma okl_notify : okl [TDuty] notify (fun L' _ => L' = []).
Proof.
  unfold notify. apply okl_bind. apply okl_atomic. intros σ c []. cbn [fst snd].
  destruct (notified σ) eqn:En; cbn [negb].
  - exists []. split; [|by apply okl_ret]. constructor; keep; intros _ Hc; (destruct (e_notified0 eq_refl Hc) as [?|Hh]; [by left|right]).
    + eapply held_keep; [|exact Hh]. repeat constructor; counts.
    + apply (held_weaken [TNotif; TSwap]); [set_solver|]. eapply held_keep; [|exact Hh]. repeat constructor; counts.
  - exists [TNotif]. split; [constructor; keep; promise TNotif|].
    apply okl_bind, okl_await. clear. intros σ c o σ' Hσ Hf. destruct (slock σ) eqn:Ek; [done|].
    destruct Hσ. destruct e_sleepers0 as (R & Hs & HR). pose proof (sl_notify_ok _ _ _ Hs) as Hn.
    destruct (sl_notify (sleepers σ)) as [w s']. destruct Hn as (Hs' & Ec & Hlt). simplify_eq.
    assert (HR' : exists R, sleeper_ok R s' (popped σ ++ option_list o) /\ entries TId (fun t => occ t [TNotif] + c t)%nat R)
      by (by exists R). clear Hs HR.
    exists match o with Some w => [TWake w] | None => [] end. split.
    + rewrite Ek in e_lock0. destruct o as [w|]; constructor; keep; rewrite ?Ec; try (by intros; left; auto).
      all: intros x; specialize (e_wake0 x); rewrite occ_app; unfold option_list, option_rect; counts.
    + destruct o as [w|]; [apply okl_wake_waker|by apply okl_ret].
Qed.

(** ** The ticker *)

(** The id under which a ticker sleeps, if it does. *)
Definition sids (id : nat) (w : name) : list etok := match id with O => [] | id => [TId id w] end.

Lemma okl_sleep id w0 w : okl (sids id w0) (sleep w id) (fun L' x => x.2 <> 0%nat /\ L' = looks x.1 ++ sids x.2 w).
Proof.
  destruct id as [|id]; cbn [sids sleep].
  - eapply (okl_call _ _ []); [apply okl_lock_insert|by rewrite app_nil_r|]. intros L' id [Hid ->].
    eapply (okl_call _ [TLock; TSwap] [TId id w]); [apply (okl_swap _ [TLock; TLook]); by left|solve_Permutation|]. intros _ _ ->.
    eapply (okl_call _ [TLock] [TLook; TId id w]); [apply okl_unlock|solve_Permutation|]. intros _ _ ->.
    apply okl_ret. split; [done|]. by destruct id.
  - eapply (okl_call _ _ []); [apply okl_lock_update|by rewrite app_nil_r|]. intros L' again ->. destruct again.
    + eapply (okl_call _ [TLock; TSwap] [TId (S id) w]); [apply (okl_swap _ [TLock; TLook]); by left|solve_Permutation|]. intros _ _ ->.
      eapply (okl_call _ [TLock] [TLook; TId (S id) w]); [apply okl_unlock|solve_Permutation|]. intros _ _ ->. by apply okl_ret.
    + eapply (okl_call _ [TLock] [TId (S id) w]); [apply okl_unlock|solve_Permutation|]. intros _ _ ->. by apply okl_ret.
Qed.

Lemma okl_wake id w : okl (TDuty :: sids id w) (wake id) (fun L' _ => L' = [TDuty]).
Proof.
  destruct id as [|id]; cbn [sids wake]; [by apply okl_ret|].
  eapply (okl_call _ [TId (S id) w; TDuty] []); [apply (okl_lock_remove true)|solve_Permutation|]. intros _ n ->. cbn [orb app].
  eapply (okl_call _ [TLock; TSwap] []); [apply (okl_swap _ [TLock; TDuty]); right; by left|solve_Permutation|]. intros _ _ ->.
  eapply okl_perm; [|apply (okl_frame [TLock] [TDuty])]; [solve_Permutation|].
  eapply okl_mono; [apply okl_unlock|]. by intros _ _ ->.
Qed.

Lemma okl_drop_ticker id w : okl (sids id w) (drop_ticker id) (fun L' _ => L' = []).
Proof.
  destruct id as [|id]; cbn [sids drop_ticker]; [by apply okl_ret|].
  eapply (okl_call _ _ []); [apply (okl_lock_remove false)|by rewrite app_nil_r|]. intros _ n ->. cbn [orb]. destruct n.
  - eapply (okl_call _ [TLock; TSwap] []); [apply (okl_swap _ [TLock; TDuty]); right; by left|solve_Permutation|]. intros _ _ ->.
    eapply (okl_call _ [TLock] [TDuty]); [apply okl_unlock|solve_Permutation|]. intros _ _ ->. apply okl_notify.
  - eapply (okl_call _ [TLock] []); [apply (okl_swap _ [TLock]); do 2 right; by left|solve_Permutation|]. intros _ _ ->.
    eapply (okl_call _ [TLock] []); [apply okl_unlock|solve_Permutation|]. intros _ _ ->. by apply okl_ret.
Qed.

Section runnable_with.
(** [K n]: the tokens of the search, when its local queue holds at most [n]
    runnables. *)
Context (K : nat -> list etok) (search : nat -> prog State (option nat)).
Context (Hsearch : forall b n i, okl (looks b ++ K n) (search i) (fun L' o =>
  match o with None => L' = K 0%nat | Some r => L' = TDuty :: TRun r :: K local_cap end)).

Lemma okl_runnable_with w fuel b id w0 n : okl (looks b ++ sids id w0 ++ K n) (runnable_with fuel search w id)
  (fun L' x => match x.1 with
    | Pending => x.2 <> 0%nat /\ L' = sids x.2 w ++ K 0%nat
    | Ready r => x.2 = 0%nat /\ L' = TRun r :: K local_cap end).
Proof.
  revert b id w0 n. induction fuel as [|fuel IH]; intros b id w0 n; [done|]. cbn [runnable_with].
  eapply (okl_call _ (looks b ++ K n) (sids id w0)); [apply Hsearch|by rewrite (Permutation_app_comm (sids id w0)), app_assoc|].
  intros _ [r|] ->; cbn beta iota.
  - eapply (okl_call _ (TDuty :: sids id w0) (TRun r :: K local_cap)); [apply okl_wake| |].
    + cbn. rewrite <- (Permutation_app_comm (sids id w0)). by rewrite Permutation_middle.
    + intros _ _ ->. eapply (okl_call _ [TDuty] (TRun r :: K local_cap)); [apply okl_notify|done|]. intros _ _ ->. by apply okl_ret.
  - eapply (okl_call _ (sids id w0) (K 0%nat)); [apply okl_sleep|by rewrite (Permutation_app_comm (K 0%nat))|].
    intros L' [[|] id'] [Hid ->]; cbn [fst snd] in *; cbn beta iota.
    + rewrite <- app_assoc. apply (IH true).
    + by apply okl_ret.
Qed.
End runnable_with.

(** ** The runner *)

(** The bound on a local queue can be forgotten. *)
Lemma own_relax σ lid b n L c : (forall k v, occ (TOwn k v) L = 0%nat) ->
  tally total σ (fun t => occ t (TOwn lid (b, n) :: L) + c t)%nat ->
  tally total σ (fun t => occ t (TOwn lid (b, local_cap) :: L) + c t)%nat.
Proof.
  intros HL Hσ. destruct (own_held _ _ _ _ _ Hσ) as (q & O & El & [Hq Hlive] & Hown & HO); [done|]. destruct Hσ.
  constructor; keep. rewrite <- (list_insert_id (store σ) lid q) by done. eapply own_exchange; [done..| |done].
  split; [lia|done].
Qed.

Lemma okl_steal_loop lid b src k : (k <= local_cap)%nat ->
  okl [TOwn lid (b, (local_cap - k)%nat)] (steal_loop k src lid) (fun L' _ => L' = [TOwn lid (b, local_cap)]).
Proof.
  induction k as [|k IH]; intros Hk; cbn [steal_loop]; [apply okl_ret; by rewrite Nat.sub_0_r|].
  apply okl_bind. eapply (okl_after _ _ (fun L' o => L' = match o with None => [] | Some r => [TRun r] end ++ [TOwn lid (b, (local_cap - S k)%nat)])).
  { apply (okl_frame [] [TOwn lid _]). eapply okl_mono; [apply okl_pop|]. by intros L' o ->. }
  intros L' [r|] ->; cbn [app].
  - exists [TOwn lid (b, (local_cap - S k)%nat); TRun r]. split.
    + eapply (okl_call _ [TOwn lid (b, (local_cap - S k)%nat); TRun r] []); [apply okl_push_local; lia|by rewrite app_nil_r|]. intros _ _ [-> ->].
      replace (S (local_cap - S k)) with (local_cap - k)%nat by lia. apply IH. lia.
    + intros σ c. apply tally_ext. intros t. f_equal. apply occ_perm. solve_Permutation.
  - exists [TOwn lid (b, local_cap)]. split; [by apply okl_ret|]. intros σ c. by apply own_relax.
Qed.

Lemma okl_steal lid b n src : okl [TOwn lid (b, n)] (steal src lid) (fun L' _ => L' = [TOwn lid (b, local_cap)]).
Proof.
  unfold steal. apply okl_bind. eapply okl_after; [apply okl_len|]. intros L' len ->. cbn beta.
  exists [TOwn lid (b, local_cap)]. split; [|intros σ c; by apply own_relax].
  set (count := ((len + 1) / 2)%nat). destruct (0 <? count)%nat; [|by apply okl_ret].
  eapply (okl_call _ [TOwn lid (b, local_cap)] []); [apply (okl_len_own lid b _ (fun d => local_cap - Nat.min count (local_cap - d))%nat); lia|by rewrite app_nil_r|].
  intros L' d [Hd ->]. rewrite (proj2 (Nat.ltb_ge _ _)) by done. apply okl_steal_loop. lia.
Qed.

Lemma okl_steal_from lid n victims : okl [TOwn lid (true, n)] (steal_from victims lid) (fun L' o => match o with
  | None => L' = [TOwn lid (true, if victims is [] then n else 0%nat)] | Some r => L' = [TOwn lid (true, local_cap); TDuty; TRun r] end).
Proof.
  revert n. induction victims as [|v victims IH]; intros n; cbn [steal_from]; [by apply okl_ret|].
  eapply (okl_call _ [TOwn lid (true, n)] []); [apply okl_steal|by rewrite app_nil_r|]. intros _ _ ->.
  eapply (okl_call _ [TOwn lid (true, local_cap)] []); [apply (okl_pop_own _ _ _ false)|by rewrite app_nil_r|]. intros L' [r|] ->; [by apply okl_ret|].
  eapply okl_mono; [apply IH|]. intros L' [r|] ->; [done|]. by destruct victims.
Qed.

Lemma okl_runner_search lid start b n i : okl (looks b ++ [TOwn lid (true, n)]) (runner_search lid start i)
  (fun L' o => match o with
   | None => L' = [TOwn lid (true, 0%nat)] | Some r => L' = [TDuty; TRun r; TOwn lid (true, local_cap)] end).
Proof.
  unfold runner_search.
  eapply (okl_call _ _ []); [apply (okl_pop_own lid true n b)|rewrite app_nil_r; apply Permutation_app_comm|].
  intros L' [r|] ->; [eapply okl_ret_perm; [|done]; solve_Permutation|].
  eapply (okl_call _ (looks b) [TOwn lid (true, 0%nat)]); [apply okl_pop_global|rewrite app_nil_r; apply (Permutation_app_comm [_])|].
  intros L' [r|] ->.
  - eapply (okl_call _ [TOwn lid (true, 0%nat)] [TDuty; TRun r]); [apply okl_steal|solve_Permutation|]. intros _ _ ->.
    eapply okl_ret_perm; [|done]. solve_Permutation.
  - eapply (okl_call _ _ []); [apply okl_read_lock|solve_Permutation|]. intros L' ls [Hls ->].
    destruct (length ls) eqn:El; [by destruct ls|]. cbv zeta.
    eapply (okl_call _ [TOwn lid (true, 0%nat)] [TRead]); [apply okl_steal_from|solve_Permutation|].
    intros L' o Ho.
    eapply (okl_call _ [TRead] (match o with None => [TOwn lid (true, 0%nat)] | Some r => [TOwn lid (true, local_cap); TDuty; TRun r] end));
      [apply okl_read_unlock| |].
    + destruct o as [r|]; [subst; solve_Permutation|]. rewrite Ho. destruct (filter _ _); solve_Permutation.
    + intros _ _ ->. destruct o as [r|]; [eapply okl_ret_perm; [|done]; solve_Permutation|by apply okl_ret].
Qed.

Definition runner_toks (r : Runner) (w : name) : list etok :=
  sids (r_sleeping r) w ++ [TOwn (local r) (true, match r_sleeping r with O => local_cap | S _ => 0%nat end)].

Lemma okl_runner_runnable fuel start w w0 r : okl (runner_toks r w0) (runner_runnable fuel start w r)
  (fun L' x => L' = (match x.1 with Ready q => [TRun q] | Pending => [] end) ++ runner_toks x.2 w).
Proof.
  unfold runner_runnable, runner_toks. set (n := match r_sleeping r with O => _ | S _ => _ end).
  eapply (okl_call _ _ []); [|by rewrite app_nil_r|].
  { apply (okl_runnable_with (fun n => [TOwn (local r) (true, n)]) _ (okl_runner_search (local r) start) w fuel false). }
  intros L' [[q|] id]; cbn [fst snd]; intros [Hid ->].
  - subst id. eapply (okl_call _ [TOwn (local r) (true, local_cap)] [TRun q] _ _ (fun L' _ => L' = [TOwn (local r) (true, local_cap)])).
    + destruct (_ =? _); [apply okl_steal|by apply okl_ret].
    + solve_Permutation.
    + intros _ _ ->. eapply okl_ret_perm; [|done]. cbn. solve_Permutation.
  - apply okl_ret. cbn [r_sleeping local fst snd app]. destruct id; [done|]. by rewrite app_nil_r.
Qed.

Lemma okl_schedule r : okl [TRun r] (schedule r) (fun L' _ => L' = []).
Proof.
  unfold schedule. eapply (okl_call _ _ []); [apply okl_push_global|by rewrite app_nil_r|]. intros _ _ ->. apply okl_notify.
Qed.

Lemma okl_reschedule lid fuel n : (n < fuel)%nat -> okl [TOwn lid (false, n)] (reschedule fuel lid) (fun L' _ => L' = []).
Proof.
  revert n. induction fuel as [|fuel IH]; intros n Hn; [lia|]. cbn [reschedule].
  eapply (okl_call _ _ []); [apply okl_pop_last|by rewrite app_nil_r|]. intros L' [r|].
  - intros (n' & -> & ->). eapply (okl_call _ [TRun r] [TOwn lid (false, n')]); [apply okl_schedule|solve_Permutation|].
    intros _ _ ->. apply IH. lia.
  - intros ->. by apply okl_ret.
Qed.

Lemma okl_drop_runner r w : okl (runner_toks r w) (drop_runner r) (fun L' _ => L' = []).
Proof.
  unfold drop_runner, runner_toks.
  eapply (okl_call _ [_] (sids (r_sleeping r) w)); [apply okl_retain|apply Permutation_app_comm|]. intros _ _ ->.
  eapply (okl_call _ [TOwn (local r) (false, local_cap)] (sids (r_sleeping r) w)); [apply okl_reschedule; lia|done|]. intros _ _ ->. apply okl_drop_ticker.
Qed.
End proof.

(** * Threads *)

Definition worker_toks (x : worker) : list etok :=
  match x with NoWorker => [] | Ticking id w => sids id w | Running r w => runner_toks r w end.
Definition client_toks (c : client) : list etok := (TRun <$> hand c) ++ worker_toks (work c).
Definition exec_tok (c : client) : gmultiset etok := list_to_set_disj (client_toks c).

(** The operation gets the tokens of the worker. *)
Lemma okl_op_worker total h x L p o : L ≡ₚ worker_toks x ->
  okl (exec_inv total) L p (fun L' y => client_toks (exec_finish (mkClient h NoWorker) o y) ≡ₚ (TRun <$> h) ++ L') ->
  exists m, exec_tok (mkClient h x) = exec_tok (mkClient h NoWorker) ⊎ m /\
    ok (exec_inv total) m p (fun m' y => exec_tok (exec_finish (mkClient h NoWorker) o y) = exec_tok (mkClient h NoWorker) ⊎ m').
Proof.
  intros HL Hp. apply (okl_op _ _ L); [unfold client_toks; cbn [hand work worker_toks]; by rewrite HL, app_nil_r|].
  eapply okl_mono; [exact Hp|]. intros L' y ->. unfold client_toks. cbn [hand work worker_toks]. by rewrite app_nil_r.
Qed.

Lemma ok_schedule_op total h x r c' : exec_start (mkClient h x) (Schedule r) = Some c' ->
  exists m, exec_tok (mkClient h x) = exec_tok c' ⊎ m /\
    ok (exec_inv total) m (exec_code (Schedule r)) (fun m' y => exec_tok (exec_finish c' (Schedule r) y) = exec_tok c' ⊎ m').
Proof.
  cbn [exec_start hand work]. destruct (list_find _ h) as [[i r']|] eqn:Ef; [|done]. intros Hs. simplify_eq.
  apply list_find_Some in Ef as (Hi & -> & _). apply (okl_op _ _ [TRun r]).
  - unfold client_toks. cbn [hand work]. rewrite (delete_Permutation h i r) at 1 by done. rewrite fmap_cons. solve_Permutation.
  - cbn [exec_code]. eapply (okl_call _ _ []); [apply okl_schedule|by rewrite app_nil_r|]. intros _ _ ->.
    apply okl_ret. unfold client_toks. cbn. by rewrite app_nil_r.
Qed.

Lemma okl_try_tick total : okl (exec_inv total) [] try_tick (fun L' o => L' = TRun <$> option_list o).
Proof.
  unfold try_tick. eapply (okl_call _ (looks false) []); [apply (okl_pop_global _ false)|done|]. intros L' [r|] ->; [|by apply okl_ret].
  eapply (okl_call _ [TDuty] [TRun r]); [apply okl_notify|done|]. intros _ _ ->. by apply okl_ret.
Qed.

Lemma okl_ticker_runnable total fuel w w0 id : okl (exec_inv total) (sids id w0) (ticker_runnable fuel w id)
  (fun L' x => L' = match x.1 with Ready r => [TRun r] | Pending => sids x.2 w end).
Proof.
  eapply okl_perm; [|eapply okl_mono; [apply (okl_runnable_with _ (fun _ => []) ticker_search) with (b := false) (n := 0%nat) (w0 := w0)|]].
  - cbn [looks app]. by rewrite app_nil_r.
  - intros b n i. unfold ticker_search. rewrite app_nil_r. eapply okl_mono; [apply okl_pop_global|]. by intros L' [r|] ->.
  - intros L' [[r|] id'] [_ ->]; [done|]. cbn. by rewrite app_nil_r.
Qed.

Lemma okl_runner_new total : okl (exec_inv total) [] runner_new (fun L' lid => L' = [TOwn lid (true, local_cap)]).
Proof.
  unfold runner_new. eapply (okl_call _ _ []); [apply okl_new_local|done|]. intros _ lid ->.
  eapply (okl_call _ [TOwn lid (false, 0%nat)] []); [apply okl_add_local|by rewrite app_nil_r|]. intros _ _ ->. by apply okl_ret.
Qed.

Lemma exec_ops_ok total : ops_ok exec_code exec_start exec_finish (exec_inv total) exec_tok.
Proof.
  intros [h x] o c' Hs. destruct o as [r| |fuel w y|y| |fuel start w y|y]; [by eapply ok_schedule_op|..];
    cbn [exec_start hand work exec_code] in *; try (destruct (decide (x = y)) as [<-|]; [|done]).
  - simplify_eq. apply (okl_op _ _ []); [by rewrite app_nil_r|].
    eapply (okl_call _ _ []); [apply okl_try_tick|done|]. intros _ o ->. apply okl_ret. rewrite app_nil_r.
    unfold client_toks. cbn. rewrite fmap_app, <- (assoc (++)). apply Permutation_app_comm.
  - assert (Hx : exists id w0, worker_toks x = sids id w0 /\ match x with Ticking id _ => id | _ => 0%nat end = id /\ c' = mkClient h NoWorker)
      by (destruct x as [|id w0|]; simplify_eq; [by exists 0%nat, 0%nat|by exists id, w0]).
    destruct Hx as (id & w0 & Hx & -> & ->). eapply okl_op_worker; [by rewrite Hx|].
    eapply (okl_call _ _ []); [apply okl_ticker_runnable|by rewrite app_nil_r|].
    intros _ [[r|] id'] ->; apply okl_ret; unfold client_toks; cbn; rewrite ?app_nil_r; [solve_Permutation|done].
  - destruct x as [|id w0|]; simplify_eq. eapply okl_op_worker; [done|]. cbn [worker_toks].
    eapply (okl_call _ _ []); [apply okl_drop_ticker|by rewrite app_nil_r|].
    intros _ _ ->. apply okl_ret. done.
  - destruct x; simplify_eq. apply (okl_op_worker _ _ _ []); [done|].
    eapply (okl_call _ _ []); [apply okl_runner_new|done|]. intros _ lid ->. by apply okl_ret.
  - destruct x as [| |r w0]; simplify_eq. eapply okl_op_worker; [done|]. cbn [worker_toks].
    eapply (okl_call _ _ []); [apply okl_runner_runnable|by rewrite app_nil_r|].
    intros _ [[q|] r'] ->; apply okl_ret; unfold client_toks; cbn; rewrite ?app_nil_r; [solve_Permutation|done].
  - destruct x as [| |r w0]; simplify_eq. eapply okl_op_worker; [done|]. cbn [worker_toks].
    eapply (okl_call _ _ []); [apply okl_drop_runner|by rewrite app_nil_r|]. intros _ _ ->. by apply okl_ret.
Qed.

(** * The pool *)

Lemma occ_run r l : occ (TRun r) (TRun <$> l) = occ r l.
Proof. induction l as [|y l IH]; [done|]. rewrite fmap_cons. cbn [occ]. rewrite IH. repeat case_decide; congruence. Qed.

Lemma occ_run_other t l : (forall r, t <> TRun r) -> occ t (TRun <$> l) = 0%nat.
Proof. intros Ht. induction l as [|y l IH]; [done|]. rewrite fmap_cons. cbn [occ]. by rewrite IH, decide_False. Qed.

Lemma exec_pool_inv hands :
  pool_inv exec_finish (exec_inv (fun r => occ r (concat hands))) exec_tok (exec_pool hands).
Proof.
  right. exists ((fun t => exec_tok (owns t)) <$> threads (exec_pool hands)). split.
  - unfold exec_pool. cbn [threads]. generalize (fun r => occ r (concat hands)). intros total.
    induction hands as [|h hs IH]; [by apply Forall2_nil_2|]. rewrite !fmap_cons. by constructor.
  - assert (Hm : forall t, multiplicity t (⋃+ ((fun t => exec_tok (owns t)) <$> threads (exec_pool hands)))
                 = occ t (TRun <$> concat hands)).
    { intros t. rewrite multiplicity_owned. unfold exec_pool. cbn [threads].
      induction hands as [|h hs IH]; [done|]. rewrite !fmap_cons. cbn [concat]. rewrite fmap_app, occ_app, <- IH.
      cbn [sum_list_with]. f_equal. unfold exec_tok, client_toks. cbn [owns hand work worker_toks].
      unfold id. by rewrite multiplicity_list, app_nil_r. }
    unfold exec_inv. constructor; cbn [shared exec_pool]; intros; rewrite ?Hm.
    + by rewrite occ_run_other.
    + by rewrite occ_run_other.
    + exists ∅. split; [apply sl_new_ok|]. intros id w. rewrite Hm, occ_run_other by done. by rewrite lookup_empty.
    + exists ∅. split; [|intros lid x; rewrite Hm, occ_run_other by done; by rewrite lookup_empty].
      split; [done|]. intros lid [? [=]].
    + cbn. apply occ_run.
    + by rewrite occ_run_other.
    + by cbn in *.
    + done.
Qed.

(** Workers that sleep. *)
Definition asleep (x : worker) : option (nat * name) :=
  match x with
  | Ticking (S id) w | Running (mkRunner _ (S id) _) w => Some (S id, w)
  | _ => None
  end.

Lemma asleep_some x id w : asleep x = Some (id, w) <->
  id <> 0%nat /\ match x with NoWorker => False | Ticking id' w' => (id', w') = (id, w) | Running r w' => (r_sleeping r, w') = (id, w) end.
Proof. destruct x as [|[|]|[? [|] ?]]; cbn; naive_solver. Qed.

(** The tokens of a client. *)
Lemma tok_run r c : multiplicity (TRun r) (exec_tok c) = occ r (hand c).
Proof.
  unfold exec_tok, client_toks. rewrite multiplicity_list, occ_app, occ_run.
  destruct c as [h [|[|id] w|[lid [|id] t] w]]; cbn; try done; repeat case_decide; simplify_eq; lia.
Qed.

Lemma tok_id id w c : (0 < multiplicity (TId id w) (exec_tok c))%nat <-> asleep (work c) = Some (id, w).
Proof.
  unfold exec_tok, client_toks. rewrite multiplicity_list, occ_app, occ_run_other by done. rewrite asleep_some.
  destruct c as [h [|[|id'] w'|[lid [|id'] t] w']]; cbn; repeat case_decide; naive_solver lia.
Qed.

Lemma tok_own c r w : work c = Running r w -> r_sleeping r <> 0%nat ->
  (0 < multiplicity (TOwn (local r) (true, 0%nat)) (exec_tok c))%nat.
Proof.
  destruct c as [h x], r as [lid [|id] t]; cbn; [done|]. intros -> _. unfold exec_tok, client_toks.
  rewrite multiplicity_list, occ_app. cbn. rewrite decide_False, decide_True by done. lia.
Qed.

Lemma tok_work t c : match t with TRun _ | TId _ _ | TOwn _ _ => False | _ => True end -> multiplicity t (exec_tok c) = 0%nat.
Proof.
  intros Ht. unfold exec_tok, client_toks. rewrite multiplicity_list, occ_app, occ_run_other by (by intros r ->).
  destruct c as [h [|[|?] ?|[? [|?] ?] ?]], t; done.
Qed.

(** C6: the executor, in every interleaving of threads that schedule, tick,
    poll tickers and runners, steal and drop them.  No assertion fails.  When
    no operation is under way, the runnables in hand, in the global queue and
    in the local queues are those there were: none is lost or run twice; every
    waker that [Sleeper::notify] gave was woken; the local queue of a runner
    that sleeps is empty; and a runnable never waits in the global queue while
    every worker sleeps: one of those asleep has been notified, and its waker
    woken. *)
Theorem executor_safe hands c :
  reachable exec_code exec_start exec_finish (exec_pool hands) c ->
  existsb thread_aborted (threads c) = false ->
  existsb thread_crashed (threads c) = false /\
  (Forall (fun t => running t = None) (threads c) ->
   (threads c ≫= fun t => hand (owns t)) ++ queue (shared c) ++ concat (store (shared c)) ≡ₚ concat hands /\
   woken (shared c) ≡ₚ popped (shared c) /\
   (forall t r w, t ∈ threads c -> work (owns t) = Running r w -> r_sleeping r <> 0%nat ->
      store (shared c) !! local r = Some []) /\
   (queue (shared c) <> [] -> (exists t, t ∈ threads c /\ asleep (work (owns t)) <> None) ->
      exists t id w, t ∈ threads c /\ asleep (work (owns t)) = Some (id, w) /\
        id ∉ (wakers (sleepers (shared c))).*1 /\ w ∈ woken (shared c))).
Proof.
  intros [es Hr] Ha.
  assert (Hinv : pool_inv exec_finish (exec_inv (fun r => occ r (concat hands))) exec_tok c).
  { eapply run_inv; [by apply exec_ops_ok|by apply exec_pool_inv|exact Hr]. }
  split; [by eapply pool_inv_no_crash|]. intros Hidle.
  destruct (pool_inv_elim _ _ _ c Hinv Ha) as (ms & HF & HI). rewrite (idle_tokens _ _ exec_tok _ _ HF Hidle) in HI.
  destruct HI.
  assert (Hnone : forall t, match t with TRun _ | TId _ _ | TOwn _ _ => False | _ => True end ->
            multiplicity t (⋃+ ((fun t => exec_tok (owns t)) <$> threads c)) = 0%nat).
  { intros t Ht. apply (owned_none exec_tok). intros x. by apply tok_work. }
  assert (Hw : woken (shared c) ≡ₚ popped (shared c)).
  { apply Permutation_occ. intros w. specialize (e_wake0 w). rewrite Hnone in e_wake0 by done. lia. }
  split_and!; [|done| |].
  - apply Permutation_occ. intros r. specialize (e_run0 r).
    rewrite (owned_count exec_tok (TRun r) (fun c => occ r (hand c))) in e_run0 by (intros; apply tok_run).
    rewrite !occ_app, occ_bind. lia.
  - intros t r w Ht Hwk Hs. destruct e_own0 as (O & [Hq Hlt] & HO).
    assert (HlO : O !! local r = Some (true, 0%nat)).
    { eapply entries_held; [exact HO|]. apply owned_by. exists t. split; [done|]. by eapply tok_own. }
    destruct (lookup_lt_is_Some_2 (store (shared c)) (local r)) as [q El]; [apply Hlt; rewrite HlO; by eexists|].
    specialize (Hq _ _ El). rewrite HlO in Hq. destruct Hq as [[Hq _] _]. destruct q; [done|cbn in Hq; lia].
  - intros Hq (t & Ht & Hsl). destruct (asleep (work (owns t))) as [[id w]|] eqn:Es; [|done].
    destruct e_sleepers0 as (R & Hs & HR). apply tok_id in Es.
    assert (Hid : R !! id = Some w) by (eapply entries_held; [exact HR|]; apply owned_by; by exists t).
    assert (Hc : count (sleepers (shared c)) <> 0%nat).
    { rewrite <- (s_count _ _ _ Hs). intros E%map_size_empty_inv. by rewrite E in Hid. }
    destruct (e_cover0 Hq Hc) as [Hlt|(t' & Ht' & Hx)].
    + destruct (notified_sleeper _ _ _ Hs Hlt) as (id' & w' & Hid' & Hn & Hp).
      assert (Hpos : (0 < multiplicity (TId id' w') (⋃+ ((fun t => exec_tok (owns t)) <$> threads c)))%nat).
      { rewrite HR, Hid', bool_decide_true by done. lia. }
      apply owned_by in Hpos as (th & Hth & Hpos). apply tok_id in Hpos. exists th, id', w'. by rewrite Hw.
    + exfalso. rewrite Hnone in Hx; [lia|].
      rewrite !elem_of_cons in Ht'. destruct Ht' as [->|[->|[->|[->|Hn]]]]; [done..|by apply elem_of_nil in Hn].
Qed.

(** The first thread schedules what it holds while the ticker of the second
    sleeps; the ticker is woken, and takes it; the runner of the third sleeps
    with an empty local queue. *)
Definition exec_run (es : list (Conc.event op)) : config State op res client :=
  after exec_code exec_start exec_finish es (exec_pool [[7; 8]; []; []]%nat).
Definition exec_run1 : list (Conc.event op) :=
  [EStart 1%nat (PollTick 9 5%nat NoWorker)] ++ replicate 8 (EStep 1%nat false) ++
  [EStart 0%nat (Schedule 7%nat)] ++ replicate 5 (EStep 0%nat false) ++
  [EStart 2%nat NewRunner] ++ replicate 3 (EStep 2%nat false).
Definition exec_run2 : list (Conc.event op) :=
  exec_run1 ++ [EStart 1%nat (PollTick 9 6%nat (Ticking 1 5))] ++ replicate 6 (EStep 1%nat false) ++
  [EStart 2%nat (PollRunner 9 (fun _ => 3%nat) 4%nat (Running (mkRunner 0 0 0) 0))] ++ replicate 14 (EStep 2%nat false).

Lemma executor_safe_witness :
  reachable exec_code exec_start exec_finish (exec_pool [[7; 8]; []; []]%nat) (exec_run exec_run1) /\
  reachable exec_code exec_start exec_finish (exec_pool [[7; 8]; []; []]%nat) (exec_run exec_run2) /\
  queue (shared (exec_run exec_run1)) = [7%nat] /\
  (exists t id w, t ∈ threads (exec_run exec_run1) /\ asleep (work (owns t)) = Some (id, w) /\
     id ∉ (wakers (sleepers (shared (exec_run exec_run1)))).*1 /\ w ∈ woken (shared (exec_run exec_run1))) /\
  (threads (exec_run exec_run2) ≫= fun t => hand (owns t)) ++ queue (shared (exec_run exec_run2)) ++
    concat (store (shared (exec_run exec_run2))) ≡ₚ concat [[7; 8]; []; []]%nat.
Proof.
  assert (H1 : reachable exec_code exec_start exec_finish (exec_pool [[7; 8]; []; []]%nat) (exec_run exec_run1))
    by (apply after_reachable; vm_compute; reflexivity).
  assert (H2 : reachable exec_code exec_start exec_finish (exec_pool [[7; 8]; []; []]%nat) (exec_run exec_run2))
    by (apply after_reachable; vm_compute; reflexivity).
  split; [exact H1|split; [exact H2|split; [vm_compute; reflexivity|split]]].
  - apply (executor_safe [[7; 8]; []; []]%nat _ H1); [vm_compute; reflexivity|apply all_idle; vm_compute; reflexivity|..].
    + vm_compute. congruence.
    + exists (Thread (mkClient [] (Ticking 1 5)) None). split; [|done].
      assert (E : threads (exec_run exec_run1) !! 1%nat = Some (Thread (mkClient [] (Ticking 1 5)) None)) by (vm_compute; reflexivity).
      by eapply list_elem_of_lookup_2.
  - apply (executor_safe [[7; 8]; []; []]%nat _ H2); [vm_compute; reflexivity|apply all_idle; vm_compute; reflexivity].
Defined.

(** * [steal] alone *)

Lemma contents_put q l σ : (forall lid, q = Local lid -> (lid < length (store σ))%nat) ->
  contents (put_contents q l σ) q = l.
Proof.
  destruct q as [|lid]; intros Hv; [done|]. cbn. by rewrite list_lookup_insert_eq by auto.
Qed.

Lemma contents_put_ne q q' l σ : q' <> q -> contents (put_contents q l σ) q' = contents σ q'.
Proof. destruct q, q'; try done. intros Hne. cbn. rewrite list_lookup_insert_ne; [done|]. intros ->. done. Qed.

Lemma length_store_put q l σ : length (store (put_contents q l σ)) = length (store σ).
Proof. destruct q; [done|]. apply length_insert. Qed.

Lemma contents_valid σ q x l : contents σ q = x :: l -> forall lid, q = Local lid -> (lid < length (store σ))%nat.
Proof. intros Hc lid ->. cbn in Hc. destruct (store σ !! lid) eqn:E; [by eapply lookup_lt_Some|done]. Qed.

(** From [σ] to [σ'], the first [n] runnables of [src] are appended to
    [dest], and nothing else. *)
Definition moved (n : nat) (src dest : qref) (σ σ' : State) : Prop :=
  contents σ' src = skipn n (contents σ src) /\ contents σ' dest = contents σ dest ++ firstn n (contents σ src) /\
  length (store σ') = length (store σ) /\ (forall q, q <> src -> q <> dest -> contents σ' q = contents σ q).

Lemma steal_loop_solo src lid n cs σ : src <> Local lid -> (lid < length (store σ))%nat ->
  (n + length (contents σ (Local lid)) <= local_cap)%nat ->
  exists σ', solo (steal_loop n src lid) cs σ = Done () σ' /\ moved n src (Local lid) σ σ'.
Proof.
  intros Hne. revert σ. induction n as [|n IH]; intros σ Hlid Hn.
  { exists σ. split; [done|]. split_and!; [by rewrite skipn_O|by rewrite firstn_O, app_nil_r|done|done]. }
  cbn [steal_loop]. change (solo (?p ≫= ?k) cs σ) with (solo (prog_bind k p) cs σ).
  unfold qpop, atomic. cbn [prog_bind solo]. destruct (contents σ src) as [|r l] eqn:Es.
  - cbn. exists σ. split; [done|]. unfold moved. rewrite Es. split_and!; [done|by rewrite app_nil_r|done|done].
  - cbn [prog_bind solo]. set (σ1 := put_contents src l σ).
    assert (Hd : contents σ1 (Local lid) = contents σ (Local lid)) by (by apply contents_put_ne).
    assert (Hs : contents σ1 src = l) by (apply contents_put; by eapply contents_valid).
    unfold mbind, prog_mbind, qpush_local, atomic. cbn [prog_bind solo]. rewrite Hd.
    rewrite (proj2 (Nat.ltb_lt _ _)) by lia. cbn [prog_bind solo].
    set (σ2 := put_contents (Local lid) (contents σ (Local lid) ++ [r]) σ1).
    assert (Hl2 : length (store σ2) = length (store σ)) by (by unfold σ2, σ1; rewrite !length_store_put).
    assert (Hd2 : contents σ2 (Local lid) = contents σ (Local lid) ++ [r]).
    { apply contents_put. intros ? [= <-]. unfold σ1. by rewrite length_store_put. }
    assert (Hs2 : contents σ2 src = l) by (rewrite <- Hs; by apply contents_put_ne).
    destruct (IH σ2) as (σ' & Hrun & Hsrc & Hdest & Hlen & Hrest); [lia|rewrite Hd2, length_app; cbn [length]; lia|].
    exists σ'. split; [exact Hrun|]. split_and!.
    + by rewrite Hsrc, Hs2, Es.
    + rewrite Hdest, Hd2, Hs2, <- app_assoc. by rewrite Es.
    + lia.
    + intros q Hq1 Hq2. rewrite Hrest by done. unfold σ2, σ1. by rewrite !contents_put_ne.
Qed.

(** Half of the runnables of [src], rounded up, but no more than fit, move in
    their order; the destination never overflows. *)
Lemma steal_solo src lid cs σ : src <> Local lid -> (lid < length (store σ))%nat ->
  (length (contents σ (Local lid)) <= local_cap)%nat ->
  exists σ', solo (steal src lid) cs σ = Done () σ' /\
    moved (Nat.min ((length (contents σ src) + 1) / 2) (local_cap - length (contents σ (Local lid)))) src (Local lid) σ σ' /\
    (length (contents σ' (Local lid)) <= local_cap)%nat.
Proof.
  intros Hne Hlid Hd. unfold steal, qlen, atomic, mbind, prog_mbind. cbn [prog_bind solo].
  set (count := ((length (contents σ src) + 1) / 2)%nat).
  assert (Hfit : forall n σ', (n + length (contents σ (Local lid)) <= local_cap)%nat -> moved n src (Local lid) σ σ' ->
    (length (contents σ' (Local lid)) <= local_cap)%nat).
  { intros n σ' Hn (_ & -> & _). rewrite length_app, length_firstn. lia. }
  destruct (Nat.ltb_spec 0 count) as [Hc|Hc]; cbn [prog_bind solo].
  - rewrite (proj2 (Nat.ltb_ge _ _)) by lia.
    destruct (steal_loop_solo src lid (Nat.min count (local_cap - length (contents σ (Local lid)))) cs σ) as (σ' & Hrun & Hm);
      [done|done|lia|]. exists σ'. split; [exact Hrun|]. split; [done|]. eapply Hfit; [|exact Hm]. lia.
  - replace count with 0%nat by lia. exists σ. split_and!; [done| |done].
    split_and!; [by rewrite skipn_O|by rewrite firstn_O, app_nil_r|done|done].
Qed.
