(* ===== verification/Reactor.v ===== *)
(** [io/reactor.rs]: the sources of I/O events, the timers, and the loop that
    drives both.

    [vacant] is the key under which a slab stores a new object (Colo): one
    that is not in use.  The poller is used as it is documented: it reports
    events for the descriptors added to it, one-shot, so that a descriptor it
    has reported is disarmed until the next [modify]; which events there are,
    whether a call fails and what time it is are chosen from outside.
    Counters are kept as unbounded numbers, and compared modulo 2^64 where the
    code compares words; timer ids do not wrap.  A critical section takes two
    steps where the poller or another lock is used inside it, and one
    otherwise.  Wakers are names.

    Auxiliary: [deliveries] (the events handed to sources), [drained] (the
    wakers taken from sources and timers), [lost] (those that were dropped
    unwoken), [broken] (the sources whose [modify] failed), [added], [fired]
    (with the time that was read) and [removed] (timers). *)

From stdpp Require Import gmap sorting.
From S2P Require Import Prelude Conc.

Abbreviation name := nat (only parsing).

Inductive dir := Read | Write.
#[export] Instance dir_eq : EqDecision dir.
Proof. solve_decision. Defined.

(** Two counters that are the same word. *)
Definition same_word (a b : Z) : bool := wrap 64 a =? wrap 64 b.

(** ** [Private] and [Source] *)

Record Private := mkPrivate { tick : Z; ticks : option (Z * Z); waker : option name; wakers : gmap nat (option name) }.
Definition private_new : Private := mkPrivate 0 None None ∅.

(** The entries of a slab in the order of their keys. *)
Definition index_le {A} (x y : nat * A) : Prop := (x.1 <= y.1)%nat.
#[export] Instance index_le_dec {A} : RelDecision (index_le (A:=A)).
Proof. intros x y. unfold index_le. apply _. Defined.
Definition in_order {A} (m : gmap nat A) : list (nat * A) := merge_sort index_le (map_to_list m).

Definition is_empty (p : Private) : bool :=
  match waker p with Some _ => false | None => forallb (fun x => match x.2 with None => true | Some _ => false end) (in_order (wakers p)) end.
Definition drain_into (p : Private) : list name * Private :=
  (option_list (waker p) ++ omap snd (in_order (wakers p)),
   mkPrivate (tick p) (ticks p) None ((fun _ => None) <$> wakers p)).

(** [locked]: a task is about to call [modify] with the state locked. *)
Record Source := mkSource { key : nat; locked : bool; reading : Private; writing : Private }.
Definition side (d : dir) (s : Source) : Private := match d with Read => reading s | Write => writing s end.
Definition put_side (d : dir) (p : Private) (s : Source) : Source :=
  match d with Read => mkSource (key s) (locked s) p (writing s) | Write => mkSource (key s) (locked s) (reading s) p end.
Definition put_locked (b : bool) (s : Source) : Source := mkSource (key s) b (reading s) (writing s).

(** ** [Reactor] *)

Definition timer : Type := Z * nat.
Inductive TimerOp := Insert (k : timer) (w : name) | Remove (k : timer).

(** [store]: the sources ever made; [interest]: what the poller watches of
    each, once it was added. *)
Record Reactor := mkReactor {
  ticker : Z; store : list Source; sources : gmap nat nat; interest : gmap nat (bool * bool);
  sources_lock : bool; events_lock : bool; timers_lock : bool;
  timers : gmap timer name; timer_ops : list TimerOp; timer_id : nat;
  woken : list name; drained : list name; lost : list name; broken : list nat;
  deliveries : list (nat * dir * Z); added : list (timer * name); fired : list (timer * name * Z); removed : list (timer * name) }.

Definition reactor_new : Reactor :=
  mkReactor 0 [] ∅ ∅ false false false ∅ [] 1 [] [] [] [] [] [] [] [].

Definition put_ticker (t : Z) (σ : Reactor) : Reactor :=
  mkReactor t (store σ) (sources σ) (interest σ) (sources_lock σ) (events_lock σ) (timers_lock σ) (timers σ) (timer_ops σ)
    (timer_id σ) (woken σ) (drained σ) (lost σ) (broken σ) (deliveries σ) (added σ) (fired σ) (removed σ).
Definition put_store (l : list Source) (σ : Reactor) : Reactor :=
  mkReactor (ticker σ) l (sources σ) (interest σ) (sources_lock σ) (events_lock σ) (timers_lock σ) (timers σ) (timer_ops σ)
    (timer_id σ) (woken σ) (drained σ) (lost σ) (broken σ) (deliveries σ) (added σ) (fired σ) (removed σ).
Definition put_source (sid : nat) (s : Source) (σ : Reactor) : Reactor := put_store (<[sid := s]> (store σ)) σ.
Definition put_sources (m : gmap nat nat) (σ : Reactor) : Reactor :=
  mkReactor (ticker σ) (store σ) m (interest σ) (sources_lock σ) (events_lock σ) (timers_lock σ) (timers σ) (timer_ops σ)
    (timer_id σ) (woken σ) (drained σ) (lost σ) (broken σ) (deliveries σ) (added σ) (fired σ) (removed σ).
Definition put_interest (m : gmap nat (bool * bool)) (br : list nat) (σ : Reactor) : Reactor :=
  mkReactor (ticker σ) (store σ) (sources σ) m (sources_lock σ) (events_lock σ) (timers_lock σ) (timers σ) (timer_ops σ)
    (timer_id σ) (woken σ) (drained σ) (lost σ) br (deliveries σ) (added σ) (fired σ) (removed σ).
Definition put_locks (a b c : bool) (σ : Reactor) : Reactor :=
  mkReactor (ticker σ) (store σ) (sources σ) (interest σ) a b c (timers σ) (timer_ops σ)
    (timer_id σ) (woken σ) (drained σ) (lost σ) (broken σ) (deliveries σ) (added σ) (fired σ) (removed σ).
Definition put_timers (m : gmap timer name) (ops : list TimerOp) (id : nat) (σ : Reactor) : Reactor :=
  mkReactor (ticker σ) (store σ) (sources σ) (interest σ) (sources_lock σ) (events_lock σ) (timers_lock σ) m ops
    id (woken σ) (drained σ) (lost σ) (broken σ) (deliveries σ) (added σ) (fired σ) (removed σ).
Definition put_wakes (w d l : list name) (σ : Reactor) : Reactor :=
  mkReactor (ticker σ) (store σ) (sources σ) (interest σ) (sources_lock σ) (events_lock σ) (timers_lock σ) (timers σ) (timer_ops σ)
    (timer_id σ) w d l (broken σ) (deliveries σ) (added σ) (fired σ) (removed σ).
Definition put_logs (dl : list (nat * dir * Z)) (a : list (timer * name)) (f : list (timer * name * Z)) (r : list (timer * name)) (σ : Reactor) : Reactor :=
  mkReactor (ticker σ) (store σ) (sources σ) (interest σ) (sources_lock σ) (events_lock σ) (timers_lock σ) (timers σ) (timer_ops σ)
    (timer_id σ) (woken σ) (drained σ) (lost σ) (broken σ) dl a f r.

Section code.
Context (vacant : forall A, gmap nat A -> nat).

(** ** The poller *)

(** [modify(raw, Event { key, readable: .., writable: .. })]: [fail] says
    whether it fails, as it does for a descriptor that is not there. *)
Definition modify (fail : bool) (sid : nat) (s : Source) (σ : Reactor) : bool * Reactor :=
  match fail, interest σ !! sid with
  | false, Some _ =>
      (true, put_interest (<[sid := (negb (is_empty (reading s)), negb (is_empty (writing s)))]> (interest σ)) (broken σ) σ)
  | _, _ => (false, put_interest (interest σ) (sid :: broken σ) σ)
  end.

(** [wait]: the events reported, by descriptor; those that are not in the
    poller cannot be.  A descriptor reported is disarmed. *)
Definition report (evs : list (nat * bool * bool)) (σ : Reactor) : list (nat * bool * bool) * Reactor :=
  foldr (fun ev r => let '(sid, rd, wr) := ev in
           match interest (r.2) !! sid, store (r.2) !! sid with
           | Some _, Some s => ((key s, rd, wr) :: r.1, put_interest (<[sid := (false, false)]> (interest r.2)) (broken r.2) r.2)
           | _, _ => r
           end) ([], σ) evs.

(** ** [Source] *)

(** The end of a critical section that found its direction empty: [modify],
    and the lock is given back; [false] if it failed. *)
Definition finish_modify (sid : nat) : prog Reactor bool :=
  Pick (fun fail => atomic (fun σ =>
    match store σ !! sid with
    | Some s => let '(ok, σ) := modify fail sid s σ in (ok, put_source sid (put_locked false s) σ)
    | None => (false, σ)
    end)).

(** What [poll_ready] decides with the state locked: ready; pending; pending
    after [modify]. *)
Inductive verdict := VReady (since : option (Z * Z)) (now : Z) | VPending | VModify.

Definition check_ready (sid : nat) (d : dir) (w : name) (s : Source) (σ : Reactor) : verdict * Reactor :=
  let p := side d s in
  let register σ :=
    let p' := mkPrivate (tick p) (Some (ticker σ, tick p)) (Some w) (wakers p) in
    if is_empty p then (VModify, put_source sid (put_locked true (put_side d p' s)) σ)
    else (VPending, put_source sid (put_side d p' s) σ) in
  match ticks p with
  | Some (a, b) =>
      if negb (same_word (tick p) a) && negb (same_word (tick p) b)
      then (VReady (Some (a, b)) (tick p), put_source sid (put_side d (mkPrivate (tick p) None (waker p) (wakers p)) s) σ)
      else match waker p with
           | Some v => if (v =? w)%nat then (VPending, σ) else register (put_wakes (woken σ ++ [v]) (drained σ ++ [v]) (lost σ) σ)
           | None => register σ
           end
  | None => match waker p with
            | Some v => if (v =? w)%nat then (VPending, σ) else register (put_wakes (woken σ ++ [v]) (drained σ ++ [v]) (lost σ) σ)
            | None => register σ
            end
  end.

(** With the state of the source locked; a source that does not exist yet
    cannot be polled. *)
Definition with_source {A} (sid : nat) (f : Source -> Reactor -> option (A * Reactor)) : prog Reactor A :=
  Act (fun σ => match store σ !! sid with
                | None => None
                | Some s => if locked s then None else
                            match f s σ with Some (a, σ) => Some (σ, Ret a) | None => Some (σ, Crash) end
                end).

(** The answer of a poll: an error, pending, or ready since the ticks. *)
Inductive answer := AError | APending | AReady (since : option (Z * Z)) (now : Z).

Definition poll_ready (sid : nat) (d : dir) (w : name) : prog Reactor answer :=
  v ← with_source sid (fun s σ => Some (check_ready sid d w s σ));
  match v with
  | VReady since now => mret (AReady since now)
  | VPending => mret APending
  | VModify => ok ← finish_modify sid; mret (if ok : bool then APending else AError)
  end.
Definition poll_readable (sid : nat) (w : name) := poll_ready sid Read w.
Definition poll_writable (sid : nat) (w : name) := poll_ready sid Write w.

(** The future of [ready]: the ticks and the index of its waker, after its
    first poll. *)
Definition future : Type := option (Z * Z * nat).

(** One poll with the state locked. *)
Definition check_future (sid : nat) (d : dir) (w : name) (f : future) (s : Source) (σ : Reactor)
    : option ((verdict * future) * Reactor) :=
  let p := side d s in
  let store_waker i since m :=
    match m !! i with
    | None => None
    | Some _ =>
        let s' := put_side d (mkPrivate (tick p) (ticks p) (waker p) (<[i := Some w]> m)) s in
        Some (if is_empty p then ((VModify, Some (since, i)), put_source sid (put_locked true s') σ)
              else ((VPending, Some (since, i)), put_source sid s' σ))
    end in
  match f with
  | Some (a, b, i) =>
      if negb (same_word (tick p) a) && negb (same_word (tick p) b) then Some ((VReady (Some (a, b)) (tick p), f), σ)
      else store_waker i (a, b) (wakers p)
  | None => let i := vacant _ (wakers p) in store_waker i (ticker σ, tick p) (<[i := None]> (wakers p))
  end.

(** The guard of the future removes its waker. *)
Definition drop_future (sid : nat) (d : dir) (f : future) : prog Reactor unit :=
  match f with
  | None => mret ()
  | Some (_, i) => with_source sid (fun s σ =>
      let p := side d s in
      Some ((), put_source sid (put_side d (mkPrivate (tick p) (ticks p) (waker p) (delete i (wakers p))) s) σ))
  end.

Definition poll_future (sid : nat) (d : dir) (w : name) (f : future) : prog Reactor (answer * future) :=
  '(v, f) ← with_source sid (check_future sid d w f);
  match v with
  | VReady since now => drop_future sid d f ;; mret (AReady since now, None)
  | VPending => mret (APending, f)
  | VModify => ok ← finish_modify sid;
      if ok : bool then mret (APending, f) else drop_future sid d f ;; mret (AError, None)
  end.
(** ** [Reactor::add_io] and [remove_io] *)

Definition add_io : prog Reactor (option nat) :=
  '(sid, k) ← await (fun σ => if sources_lock σ then None else
    let sid := length (store σ) in let k := vacant _ (sources σ) in
    Some ((sid, k), put_sources (<[k := sid]> (sources σ)) (put_store (store σ ++ [mkSource k false private_new private_new]) σ)));
  Pick (fun fail =>
    if fail : bool then
      await (fun σ => if sources_lock σ then None else Some (None, put_sources (delete k (sources σ)) σ))
    else atomic (fun σ => (Some sid, put_interest (<[sid := (false, false)]> (interest σ)) (broken σ) σ))).

Definition remove_io (sid : nat) : prog Reactor unit :=
  await (fun σ => if sources_lock σ then None else
    Some ((), match store σ !! sid with
              | Some s => put_sources (delete (key s) (sources σ)) (put_interest (delete sid (interest σ)) (broken σ) σ)
              | None => σ
              end)).

(** ** Timers *)

Definition timer_cap : nat := 1000.
Definition timers_mutex : prog Reactor unit :=
  await (fun σ => if timers_lock σ then None else Some ((), put_locks (sources_lock σ) (events_lock σ) true σ)).
Definition timers_unlock : prog Reactor unit := atomic (fun σ => ((), put_locks (sources_lock σ) (events_lock σ) false σ)).

(** One operation is applied; [false] if there is none. *)
Definition timer_op : prog Reactor bool :=
  atomic (fun σ => match timer_ops σ with
    | [] => (false, σ)
    | Insert k w :: ops => (true, put_timers (<[k := w]> (timers σ)) ops (timer_id σ) σ)
    | Remove k :: ops => (true, put_logs (deliveries σ) (added σ) (fired σ) (removed σ ++ ((fun w => (k, w)) <$> option_list (timers σ !! k)))
                                 (put_timers (delete k (timers σ)) ops (timer_id σ) σ))
    end).
Fixpoint process_timer_ops (n : nat) : prog Reactor unit :=
  match n with
  | O => mret ()
  | S n => b ← timer_op; if b : bool then process_timer_ops n else mret ()
  end.

Definition push_op (o : TimerOp) : prog Reactor bool :=
  atomic (fun σ => if (length (timer_ops σ) <? timer_cap)%nat
    then (true, put_logs (deliveries σ) (match o with Insert k w => added σ ++ [(k, w)] | Remove _ => added σ end) (fired σ) (removed σ)
                  (put_timers (timers σ) (timer_ops σ ++ [o]) (timer_id σ) σ))
    else (false, σ)).
Fixpoint push_loop (fuel : nat) (o : TimerOp) : prog Reactor unit :=
  match fuel with
  | O => OutOfFuel
  | S fuel =>
      ok ← push_op o;
      if ok : bool then mret () else
      timers_mutex ;; process_timer_ops timer_cap ;; timers_unlock ;; push_loop fuel o
  end.

(** [Reactor::notify] only makes a [wait] return, which it may do anyway. *)
Definition add_timer (fuel : nat) (when_ : Z) (w : name) : prog Reactor nat :=
  id ← atomic (fun σ => (timer_id σ, put_timers (timers σ) (timer_ops σ) (S (timer_id σ)) σ));
  push_loop fuel (Insert (when_, id) w) ;; mret id.
Definition remove_timer (fuel : nat) (when_ : Z) (id : nat) : prog Reactor unit :=
  push_loop fuel (Remove (when_, id)).

(** The order of the keys of the tree. *)
Definition timer_le (x y : timer * name) : Prop := x.1.1 < y.1.1 \/ x.1.1 = y.1.1 /\ (x.1.2 <= y.1.2)%nat.
#[export] Instance timer_le_dec : RelDecision timer_le.
Proof. intros x y. unfold timer_le. apply _. Defined.
Definition by_time (m : gmap timer name) : list (timer * name) := merge_sort timer_le (map_to_list m).

(** [split_off(&(now, 0))]: before [now], and the rest. *)
Definition due (now : Z) (m : gmap timer name) : gmap timer name := filter (fun x => x.1.1 < now) m.
Definition later (now : Z) (m : gmap timer name) : gmap timer name := filter (fun x => ~ x.1.1 < now) m.

(** With the mutex held: the wakers of the timers that are due, and how long
    to wait for the next. *)
Definition take_due (now : Z) : prog Reactor (list name * option Z) :=
  atomic (fun σ =>
    let ready := by_time (due now (timers σ)) in
    let pending := by_time (later now (timers σ)) in
    ((snd <$> ready,
      match ready with [] => (fun x => Z.max 0 (x.1.1 - now)) <$> head pending | _ => Some 0 end),
     put_wakes (woken σ) (drained σ ++ (snd <$> ready)) (lost σ)
       (put_logs (deliveries σ) (added σ) (fired σ ++ ((fun x => (x, now)) <$> ready)) (removed σ)
         (put_timers (later now (timers σ)) (timer_ops σ) (timer_id σ) σ)))).
Definition process_timers (now : Z) : prog Reactor (list name * option Z) :=
  timers_mutex ;; process_timer_ops timer_cap ;; r ← take_due now; timers_unlock ;; mret r.

(** ** [LockedReactor] *)

Definition lock_reactor : prog Reactor unit :=
  await (fun σ => if events_lock σ then None else Some ((), put_locks (sources_lock σ) true (timers_lock σ) σ)).
Definition try_lock_reactor : prog Reactor bool :=
  atomic (fun σ => if events_lock σ then (false, σ) else (true, put_locks (sources_lock σ) true (timers_lock σ) σ)).
Definition unlock_reactor : prog Reactor unit := atomic (fun σ => ((), put_locks (sources_lock σ) false (timers_lock σ) σ)).

Definition wake_one (w : name) : prog Reactor unit := atomic (fun σ => ((), put_wakes (woken σ ++ [w]) (drained σ) (lost σ) σ)).
Fixpoint wake_all (ws : list name) : prog Reactor unit :=
  match ws with [] => mret () | w :: ws => wake_one w ;; wake_all ws end.

(** An event is handed to its source, if the source is still there: the
    wakers, and whether [modify] went well. *)
Definition deliver (t : Z) (fail : bool) (rd wr : bool) (sid : nat) (s : Source) (σ : Reactor) : (list name * bool) * Reactor :=
  let hand (d : dir) (emitted : bool) (x : list name * list (nat * dir * Z) * Source) :=
    let '(ws, dl, s) := x in
    if emitted then
      let '(vs, p) := drain_into (side d s) in
      (ws ++ vs, dl ++ [(sid, d, t)], put_side d (mkPrivate t (ticks p) (waker p) (wakers p)) s)
    else x in
  let '(ws, dl, s) := hand Read rd (hand Write wr ([], deliveries σ, s)) in
  let σ := put_wakes (woken σ) (drained σ ++ ws) (lost σ)
             (put_logs dl (added σ) (fired σ) (removed σ) (put_source sid s σ)) in
  if negb (is_empty (reading s)) || negb (is_empty (writing s))
  then let '(ok, σ) := modify fail sid s σ in ((ws, ok), σ)
  else ((ws, true), σ).

Definition process_event (t : Z) (k : nat) (rd wr : bool) : prog Reactor (list name * bool) :=
  Pick (fun fail => Act (fun σ =>
    match sources σ !! k with
    | None => Some (σ, Ret ([], true))
    | Some sid =>
        match store σ !! sid with
        | None => Some (σ, Crash)
        | Some s => if locked s then None else let '(r, σ) := deliver t fail rd wr sid s σ in Some (σ, Ret r)
        end
    end)).
Fixpoint process_events (t : Z) (evs : list (nat * bool * bool)) (ws : list name) : prog Reactor (list name * bool) :=
  match evs with
  | [] => mret (ws, true)
  | (k, rd, wr) :: evs =>
      '(vs, ok) ← process_event t k rd wr;
      if ok : bool then process_events t evs (ws ++ vs) else mret (ws ++ vs, false)
  end.

(** What [wait] does. *)
Inductive outcome := Interrupted | WaitError | Events (evs : list (nat * bool * bool)).

(** [react(timeout)]: [now1] and [now2] are the times read; [false] is an
    error. *)
Definition react (timeout : option Z) (now1 now2 : Z) (o : outcome) : prog Reactor bool :=
  '(ws, next_timer) ← process_timers now1;
  let timeout := match next_timer, timeout with
                 | None, None => None | Some t, None | None, Some t => Some t | Some a, Some b => Some (Z.min a b) end in
  t ← atomic (fun σ => (ticker σ + 1, put_ticker (ticker σ + 1) σ));
  match o with
  | Interrupted => wake_all ws ;; mret true
  | WaitError => wake_all ws ;; mret false
  | Events evs =>
      evs ← atomic (report evs);
      match evs with
      | [] =>
          if bool_decide (timeout = Some 0) then wake_all ws ;; mret true
          else '(vs, _) ← process_timers now2; wake_all (ws ++ vs) ;; mret true
      | _ =>
          await (fun σ => if sources_lock σ then None else Some ((), put_locks true (events_lock σ) (timers_lock σ) σ)) ;;
          '(ws, ok) ← process_events t evs ws;
          if ok : bool then
            atomic (fun σ => ((), put_locks false (events_lock σ) (timers_lock σ) σ)) ;; wake_all ws ;; mret true
          else
            atomic (fun σ => ((), put_wakes (woken σ) (drained σ) (lost σ ++ ws) (put_locks false (events_lock σ) (timers_lock σ) σ))) ;;
            mret false
      end
  end.

(** ** Threads *)

Inductive rop :=
| PollReady (sid : nat) (d : dir) (w : name)
| PollFuture (sid : nat) (d : dir) (w : name) (f : future)
| DropFuture (sid : nat) (d : dir) (f : future)
| AddIo | RemoveIo (sid : nat)
| AddTimer (fuel : nat) (when_ : Z) (w : name) | RemoveTimer (fuel : nat) (when_ : Z) (id : nat)
| LockReactor | TryLockReactor | UnlockReactor
| React (timeout : option Z) (now1 now2 : Z) (o : outcome).
Inductive rres :=
| RPoll (a : answer) | RFuture (a : answer) (f : future) | RUnit | RBool (b : bool) | RIo (sid : option nat) | RId (id : nat).

Definition reactor_code (o : rop) : prog Reactor rres :=
  match o with
  | PollReady sid d w => a ← poll_ready sid d w; mret (RPoll a)
  | PollFuture sid d w f => '(a, f) ← poll_future sid d w f; mret (RFuture a f)
  | DropFuture sid d f => drop_future sid d f ;; mret RUnit
  | AddIo => r ← add_io; mret (RIo r)
  | RemoveIo sid => remove_io sid ;; mret RUnit
  | AddTimer fuel t w => id ← add_timer fuel t w; mret (RId id)
  | RemoveTimer fuel t id => remove_timer fuel t id ;; mret RUnit
  | LockReactor => lock_reactor ;; mret (RBool true)
  | TryLockReactor => b ← try_lock_reactor; mret (RBool b)
  | UnlockReactor => unlock_reactor ;; mret RUnit
  | React timeout now1 now2 o => b ← react timeout now1 now2 o; mret (RBool b)
  end.
End code.

(** A thread: the descriptors it added, its futures, whether it holds the reactor, and the polls that were ready:
    source, direction, the ticks since which it waited, and the tick it saw. *)
Record holder := mkHolder {
  ios : list nat; futures : list (nat * dir * future); holds : bool;
  readies : list (nat * dir * Z * Z) }.

Definition take_one {A} `{EqDecision A} (x : A) (l : list A) : option (list A) :=
  match list_find (fun y => y = x) l with Some (i, _) => Some (delete i l) | None => None end.

Definition reactor_start (c : holder) (o : rop) : option holder :=
  match o with
  | PollReady _ _ _ | PollFuture _ _ _ None => Some c
  | PollFuture sid d _ f | DropFuture sid d f =>
      fs ← take_one (sid, d, f) (futures c); Some (mkHolder (ios c) fs (holds c) (readies c))
  | RemoveIo sid => l ← take_one sid (ios c); Some (mkHolder l (futures c) (holds c) (readies c))
  | AddIo | AddTimer _ _ _ | RemoveTimer _ _ _ => Some c
  | LockReactor | TryLockReactor => if holds c then None else Some c
  | UnlockReactor | React _ _ _ _ => if holds c then Some (mkHolder (ios c) (futures c) false (readies c)) else None
  end.

Definition note_ready (sid : nat) (d : dir) (a : answer) : list (nat * dir * Z * Z) :=
  match a with AReady (Some (a, _)) now => [(sid, d, a, now)] | _ => [] end.
Definition reactor_finish (c : holder) (o : rop) (r : rres) : holder :=
  match o, r with
  | PollReady sid d _, RPoll a => mkHolder (ios c) (futures c) (holds c) (note_ready sid d a ++ readies c)
  | PollFuture sid d _ _, RFuture a f =>
      mkHolder (ios c) (match f with Some _ => [(sid, d, f)] | None => [] end ++ futures c) (holds c)
        (note_ready sid d a ++ readies c)
  | AddIo, RIo (Some sid) => mkHolder (sid :: ios c) (futures c) (holds c) (readies c)
  | LockReactor, RBool b | TryLockReactor, RBool b => mkHolder (ios c) (futures c) b (readies c)
  | React _ _ _ _, _ => mkHolder (ios c) (futures c) true (readies c)
  | _, _ => c
  end.
