(* ===== verification/ReadBuf.v ===== *)
(** [utils/read_buf.rs]: a buffer whose bytes may be uninitialised.

    A byte of the slice is [None] until something is written to it.  Viewing
    an uninitialised byte as a [u8] is [Undefined], the panics of the code are
    [Panics].  A mutable slice that is handed out is followed by the writes
    that the caller makes through it ([write]). *)

From S2P Require Import Prelude.

Inductive answer (A : Type) :=
| Gives (a : A)
| Panics
| Undefined.
Arguments Gives {A} a.
Arguments Panics {A}.
Arguments Undefined {A}.

#[export] Instance answer_mret : MRet answer := fun A => Gives.
#[export] Instance answer_mbind : MBind answer := fun A B f o =>
  match o with Gives a => f a | Panics => Panics | Undefined => Undefined end.

Record ReadBuf := mkReadBuf { buf : list (option Z); filled_len : Z; initialized_len : Z }.

Definition new (bytes : list Z) : ReadBuf := mkReadBuf (Some <$> bytes) 0 (Z.of_nat (length bytes)).
Definition uninit (bytes : list (option Z)) : ReadBuf := mkReadBuf bytes 0 0.

Definition capacity (b : ReadBuf) : Z := Z.of_nat (length (buf b)).

(** [&slice[i..j]]. *)
Definition sub_slice (i j : Z) (l : list (option Z)) : answer (list (option Z)) :=
  if (i <=? j) && (j <=? Z.of_nat (length l)) then Gives (take (Z.to_nat (j - i)) (drop (Z.to_nat i) l)) else Panics.

Fixpoint all_written (l : list (option Z)) : option (list Z) :=
  match l with
  | [] => Some []
  | None :: _ => None
  | Some x :: l => cons x <$> all_written l
  end.

(** [transmute::<&[MaybeUninit<u8>], &[u8]>]. *)
Definition transmute (l : list (option Z)) : answer (list Z) :=
  match all_written l with Some bytes => Gives bytes | None => Undefined end.

Definition filled (b : ReadBuf) : answer (list Z) := sub_slice 0 (filled_len b) (buf b) ≫= transmute.
Definition filled_mut (b : ReadBuf) : answer (list Z) := filled b.
Definition initialized (b : ReadBuf) : answer (list Z) := sub_slice 0 (initialized_len b) (buf b) ≫= transmute.
Definition initialized_mut (b : ReadBuf) : answer (list Z) := initialized b.

Definition unfilled_mut (b : ReadBuf) : answer (list (option Z)) := sub_slice (filled_len b) (capacity b) (buf b).

(** [+] and [-] on [usize] where an overflow panics. *)
Definition plus (x y : Z) : answer Z := if x + y <=? usize_MAX then Gives (x + y) else Panics.
Definition minus (x y : Z) : answer Z := if y <=? x then Gives (x - y) else Panics.

Definition remaining (b : ReadBuf) : answer Z := minus (capacity b) (filled_len b).

(** Bytes written from index [i] on. *)
Definition write (i : Z) (bytes : list Z) (b : ReadBuf) : ReadBuf :=
  mkReadBuf (list_inserts (Z.to_nat i) (Some <$> bytes) (buf b)) (filled_len b) (initialized_len b).

Definition set_initialized (n : Z) (b : ReadBuf) : ReadBuf := mkReadBuf (buf b) (filled_len b) n.
Definition store_filled (n : Z) (b : ReadBuf) : ReadBuf := mkReadBuf (buf b) n (initialized_len b).

Definition take_buf (n : Z) (b : ReadBuf) : answer ReadBuf :=
  r ← remaining b;
  let max := Z.min r n in
  l ← unfilled_mut b;
  l ← sub_slice 0 max l;
  Gives (uninit l).

(** What the borrow of [take] leaves in the buffer. *)
Definition give_back (t b : ReadBuf) : ReadBuf :=
  mkReadBuf (list_inserts (Z.to_nat (filled_len b)) (buf t) (buf b)) (filled_len b) (initialized_len b).

(** The buffer and the slice that is returned. *)
Definition initialize_unfilled_to (n : Z) (b : ReadBuf) : answer (ReadBuf * list Z) :=
  r ← remaining b;
  if r <? n then Panics
  else
    end_ ← plus (filled_len b) n;
    b ← (if initialized_len b <? end_ then
           _ ← sub_slice (initialized_len b) end_ (buf b);
           Gives (set_initialized end_
             (write (initialized_len b) (replicate (Z.to_nat (end_ - initialized_len b)) 0) b))
         else Gives b);
    l ← sub_slice (filled_len b) end_ (buf b);
    bytes ← transmute l;
    Gives (b, bytes).

Definition initialize_unfilled (b : ReadBuf) : answer (ReadBuf * list Z) :=
  r ← remaining b; initialize_unfilled_to r b.

Definition clear (b : ReadBuf) : ReadBuf := store_filled 0 b.

Definition set_filled (n : Z) (b : ReadBuf) : answer ReadBuf :=
  if n <=? initialized_len b then Gives (store_filled n b) else Panics.

Definition advance (n : Z) (b : ReadBuf) : answer ReadBuf := k ← plus (filled_len b) n; set_filled k b.

Definition assume_init (n : Z) (b : ReadBuf) : answer ReadBuf :=
  k ← plus (filled_len b) n;
  Gives (if initialized_len b <? k then set_initialized k b else b).

Definition put_slice (bytes : list Z) (b : ReadBuf) : answer ReadBuf :=
  r ← remaining b;
  let amt := Z.of_nat (length bytes) in
  if r <? amt then Panics
  else
    end_ ← plus (filled_len b) amt;
    _ ← sub_slice (filled_len b) end_ (buf b);
    let b := write (filled_len b) bytes b in
    let b := if initialized_len b <? end_ then set_initialized end_ b else b in
    Gives (store_filled end_ b).

(** * The buffer as three parts *)

(** The filled bytes [f], the initialised ones after them [x], and the rest. *)
Definition rep (b : ReadBuf) (f x : list Z) (u : list (option Z)) : Prop :=
  b = mkReadBuf ((Some <$> f) ++ (Some <$> x) ++ u) (Z.of_nat (length f)) (Z.of_nat (length (f ++ x))) /\
  Z.of_nat (length f + length x + length u) <= isize_MAX.

Lemma transmute_some (l : list Z) : transmute (Some <$> l) = Gives l.
Proof.
  unfold transmute. assert (all_written (Some <$> l) = Some l) as ->; [|done].
  induction l as [|x l IH]; [done|]. rewrite fmap_cons. cbn [all_written]. by rewrite IH.
Qed.

Lemma inserts_0 {A} (d l : list A) : (length d <= length l)%nat -> list_inserts 0 d l = d ++ drop (length d) l.
Proof.
  intros H. rewrite <- (take_drop (length d) l) at 1. apply list_inserts_0_r.
  rewrite length_take. lia.
Qed.

Lemma inserts_at {A} (d k l : list A) i : i = Z.of_nat (length k) -> (length d <= length l)%nat ->
  list_inserts (Z.to_nat i) d (k ++ l) = k ++ d ++ drop (length d) l.
Proof.
  intros -> H. rewrite Nat2Z.id, <- (Nat.add_0_r (length k)), list_inserts_app_r. by rewrite inserts_0.
Qed.

Lemma sub_slice_at k l m i j : i = Z.of_nat (length k) -> j = Z.of_nat (length k + length l) ->
  sub_slice i j (k ++ l ++ m) = Gives l.
Proof.
  intros -> ->. unfold sub_slice. rewrite !length_app, (proj2 (Z.leb_le _ _)), (proj2 (Z.leb_le _ _)) by lia. simpl.
  rewrite Nat2Z.id, drop_app_length. f_equal. apply take_app_length'. lia.
Qed.

Lemma sub_slice_0 l m j : j = Z.of_nat (length l) -> sub_slice 0 j (l ++ m) = Gives l.
Proof. intros ->. by apply (sub_slice_at []). Qed.

Section parts.
  Context {b : ReadBuf} {f x : list Z} {u : list (option Z)} (Hb : rep b f x u).

Lemma filled_parts : filled b = Gives f.
  Proof.
    destruct Hb as [-> _]. unfold filled. simpl.
    rewrite sub_slice_0 by (by rewrite length_fmap). apply transmute_some.
  Qed.

Lemma initialized_parts : initialized b = Gives (f ++ x).
  Proof.
    destruct Hb as [-> _]. unfold initialized. simpl. rewrite app_assoc, <- fmap_app.
    rewrite sub_slice_0 by (by rewrite length_fmap). apply transmute_some.
  Qed.

Lemma remaining_parts : remaining b = Gives (Z.of_nat (length x + length u)).
  Proof.
    destruct Hb as [-> _]. unfold remaining, minus, capacity. simpl. rewrite !length_app, !length_fmap.
    rewrite (proj2 (Z.leb_le _ _)) by lia. f_equal. lia.
  Qed.

Lemma plus_ok n : 0 <= n -> n <= Z.of_nat (length x + length u) ->
    plus (filled_len b) n = Gives (Z.of_nat (length f) + n).
  Proof.
    destruct Hb as [-> Hc]. intros. unfold plus. simpl.
    rewrite (proj2 (Z.leb_le _ _)); [done|]. unfold usize_MAX, isize_MAX in *. lia.
  Qed.

Lemma put_slice_parts d :
    if decide (length d <= length x + length u)%nat
    then exists b', put_slice d b = Gives b' /\ rep b' (f ++ d) (drop (length d) x) (drop (length d - length x) u)
    else put_slice d b = Panics.
  Proof.
    unfold put_slice. rewrite remaining_parts. cbn [mbind answer_mbind]. case_decide as Hd.
    - destruct (Z.ltb_spec (Z.of_nat (length x + length u)) (Z.of_nat (length d))); [lia|].
      rewrite plus_ok by lia. cbn [mbind answer_mbind].
      destruct Hb as [-> Hc]. simpl.
      assert (Hs : sub_slice (Z.of_nat (length f)) (Z.of_nat (length f) + Z.of_nat (length d))
        ((Some <$> f) ++ (Some <$> x) ++ u) = Gives (take (length d) ((Some <$> x) ++ u))).
      { rewrite <- (take_drop (length d) ((Some <$> x) ++ u)) at 1.
        apply sub_slice_at; rewrite ?length_take, ?length_app, !length_fmap; lia. }
      rewrite Hs. cbn [mbind answer_mbind]. eexists. split; [reflexivity|]. split.
      + unfold write, store_filled, set_initialized. simpl.
        rewrite inserts_at by (rewrite ?length_app, !length_fmap; lia).
        rewrite !length_app, !length_drop, !length_fmap, drop_app, fmap_app, length_fmap, fmap_drop, <- app_assoc.
        case_match eqn:E; simpl; f_equal; rewrite ?Z.ltb_lt, ?Z.ltb_ge in E; lia.
      + rewrite !length_app, !length_drop. lia.
    - by destruct (Z.ltb_spec (Z.of_nat (length x + length u)) (Z.of_nat (length d))); [|lia].
  Qed.

Lemma initialize_parts n : 0 <= n ->
    let k := Z.to_nat n in
    let x' := x ++ replicate (k - length x) 0 in
    if decide (k <= length x + length u)%nat
    then exists b', initialize_unfilled_to n b = Gives (b', take k x') /\ rep b' f x' (drop (k - length x) u)
    else initialize_unfilled_to n b = Panics.
  Proof.
    intros Hn k x'. unfold initialize_unfilled_to. rewrite remaining_parts. cbn [mbind answer_mbind]. case_decide as Hd.
    2:{ by destruct (Z.ltb_spec (Z.of_nat (length x + length u)) n); [|lia]. }
    destruct (Z.ltb_spec (Z.of_nat (length x + length u)) n); [lia|].
    rewrite plus_ok by lia. cbn [mbind answer_mbind].
    assert (exists b', rep b' f x' (drop (k - length x) u) /\
      (if initialized_len b <? Z.of_nat (length f) + n then
         _ ← sub_slice (initialized_len b) (Z.of_nat (length f) + n) (buf b);
         Gives (set_initialized (Z.of_nat (length f) + n)
           (write (initialized_len b) (replicate (Z.to_nat (Z.of_nat (length f) + n - initialized_len b)) 0) b))
       else Gives b) = Gives b') as (b' & Hb' & ->).
    { destruct Hb as [E Hc]. rewrite E. cbn [initialized_len buf]. rewrite length_app.
      destruct (Z.ltb_spec (Z.of_nat (length f + length x)) (Z.of_nat (length f) + n)).
      - assert (Hs : sub_slice (Z.of_nat (length f + length x)) (Z.of_nat (length f) + n)
          ((Some <$> f) ++ (Some <$> x) ++ u) = Gives (take (k - length x) u)).
        { rewrite <- (take_drop (k - length x) u) at 1. rewrite app_assoc.
          apply sub_slice_at; rewrite ?length_take, !length_app, !length_fmap; lia. }
        rewrite Hs. cbn [mbind answer_mbind].
        eexists. split; [|reflexivity]. split.
        + unfold set_initialized, write. cbn [buf filled_len initialized_len]. rewrite app_assoc.
          replace (Z.to_nat (Z.of_nat (length f) + n - Z.of_nat (length f + length x))) with (k - length x)%nat by lia.
          rewrite inserts_at by (rewrite ?length_app, !length_fmap, ?length_replicate; lia).
          rewrite length_fmap, length_replicate. unfold x'. rewrite fmap_app, <- !app_assoc.
          f_equal. rewrite !length_app, length_replicate. lia.
        + unfold x'. rewrite length_app, length_replicate, length_drop. lia.
      - exists (mkReadBuf ((Some <$> f) ++ (Some <$> x) ++ u) (Z.of_nat (length f)) (Z.of_nat (length f + length x))).
        split; [|done]. unfold rep, x'. replace (k - length x)%nat with 0%nat by lia.
        cbn [replicate drop]. by rewrite app_nil_r, length_app. }
    cbn [mbind answer_mbind]. clear b Hb. destruct Hb' as [-> Hc']. cbn [filled_len buf].
    assert (Hk : (k <= length x')%nat) by (unfold x'; rewrite length_app, length_replicate; lia).
    assert (Hs : sub_slice (Z.of_nat (length f)) (Z.of_nat (length f) + n)
        ((Some <$> f) ++ (Some <$> x') ++ drop (k - length x) u) = Gives (Some <$> take k x')).
    { rewrite <- (take_drop k x') at 1. rewrite fmap_app, <- app_assoc.
      apply sub_slice_at; rewrite ?length_fmap, ?length_take; lia. }
    rewrite Hs. cbn [mbind answer_mbind]. rewrite transmute_some. cbn [mbind answer_mbind].
    eexists. split; [reflexivity|]. done.
  Qed.

Lemma clear_parts : rep (clear b) [] (f ++ x) u.
  Proof.
    destruct Hb as [-> Hc]. split; [|rewrite length_app; simpl; lia].
    unfold clear, store_filled. simpl. by rewrite fmap_app, <- app_assoc.
  Qed.

Lemma set_filled_parts n : 0 <= n ->
    let k := Z.to_nat n in
    if decide (k <= length (f ++ x))%nat
    then exists b', set_filled n b = Gives b' /\ rep b' (take k (f ++ x)) (drop k (f ++ x)) u
    else set_filled n b = Panics.
  Proof.
    intros Hn k. destruct Hb as [-> Hc]. unfold set_filled. cbn [initialized_len].
    case_decide as Hd; [|by destruct (Z.leb_spec n (Z.of_nat (length (f ++ x)))); [lia|]].
    rewrite (proj2 (Z.leb_le _ _)) by lia. eexists. split; [reflexivity|]. split.
    - unfold store_filled. cbn [buf initialized_len]. rewrite take_drop, length_take, app_assoc, <- fmap_app.
      rewrite (app_assoc (_ <$> take _ _)), <- fmap_app, take_drop. f_equal. lia.
    - rewrite length_take, length_drop. rewrite length_app in *. lia.
  Qed.

Lemma advance_parts n : 0 <= n <= usize_MAX ->
    let k := Z.to_nat n in
    if decide (k <= length x)%nat
    then exists b', advance n b = Gives b' /\ rep b' (f ++ take k x) (drop k x) u
    else advance n b = Panics.
  Proof.
    intros Hn k. unfold advance. pose proof (set_filled_parts (Z.of_nat (length f) + n) ltac:(lia)) as Hs.
    cbv zeta in Hs. replace (Z.to_nat _) with (length f + k)%nat in Hs by lia.
    rewrite length_app, take_app_add, drop_app_add in Hs.
    case_decide as Hd; case_decide as Hd'; try lia.
    - rewrite plus_ok by lia. done.
    - destruct Hb as [E Hc]. unfold plus. rewrite E in *. cbn [filled_len]. by case_match.
  Qed.

Lemma take_parts n : 0 <= n ->
    exists t, take_buf n b = Gives t /\ rep t [] [] (take (Z.to_nat n) ((Some <$> x) ++ u)).
  Proof.
    intros Hn. unfold take_buf. rewrite remaining_parts. cbn [mbind answer_mbind].
    assert (Hu : unfilled_mut b = Gives ((Some <$> x) ++ u)).
    { destruct Hb as [-> _]. unfold unfilled_mut, capacity. cbn [buf filled_len].
      rewrite <- (app_nil_r ((Some <$> x) ++ u)) at 2. apply sub_slice_at; rewrite ?length_app, !length_fmap; lia. }
    rewrite Hu. cbn [mbind answer_mbind]. set (l := (Some <$> x) ++ u) in *.
    assert (Hl : length l = (length x + length u)%nat) by (unfold l; by rewrite length_app, length_fmap).
    assert (Hs : sub_slice 0 (Z.min (Z.of_nat (length x + length u)) n) l = Gives (take (Z.to_nat n) l)).
    { rewrite <- (take_drop (Z.to_nat n) l) at 1. apply sub_slice_0. rewrite length_take. lia. }
    rewrite Hs. cbn [mbind answer_mbind].
    eexists. split; [reflexivity|]. split; [done|].
    destruct Hb as [_ Hc]. rewrite length_take. simpl. lia.
  Qed.

  (** The contract of [assume_init]: the bytes are initialised. *)
Lemma assume_init_parts y u' n : u = (Some <$> y) ++ u' -> n = Z.of_nat (length x + length y) ->
    exists b', assume_init n b = Gives b' /\ rep b' f (x ++ y) u'.
  Proof.
    intros Hu ->. assert (Hlu : length u = (length y + length u')%nat) by (by rewrite Hu, length_app, length_fmap).
    unfold assume_init. rewrite plus_ok by lia. cbn [mbind answer_mbind].
    eexists. split; [reflexivity|]. destruct Hb as [-> Hc]. split.
    - cbn [initialized_len]. unfold set_initialized. cbn [buf filled_len]. rewrite Hu, fmap_app, <- app_assoc.
      case_match eqn:E; f_equal; rewrite ?Z.ltb_lt, ?Z.ltb_ge, !length_app in *; lia.
    - rewrite length_app. lia.
  Qed.
End parts.

Lemma inserts_fmap {A B} (g : A -> B) i d (l : list A) :
  list_inserts i (g <$> d) (g <$> l) = g <$> list_inserts i d l.
Proof. revert i. induction d as [|y d IH]; intros i; [done|]. simpl. by rewrite list_fmap_insert, IH. Qed.

Lemma inserts_prefix {A} i (d l m : list A) : (i + length d <= length l)%nat ->
  list_inserts i d (l ++ m) = list_inserts i d l ++ m.
Proof.
  revert i. induction d as [|y d IH]; intros i Hi; [done|]. simpl in *.
  rewrite IH by lia. apply insert_app_l. rewrite length_inserts. lia.
Qed.

(** What the caller writes through [filled_mut], [initialized_mut] or the
    slice of [initialize_unfilled_to]. *)
Lemma write_parts {b f x u} i d : rep b f x u -> (i + length d <= length (f ++ x))%nat ->
  let l := list_inserts i d (f ++ x) in
  rep (write (Z.of_nat i) d b) (take (length f) l) (drop (length f) l) u.
Proof.
  intros [-> Hc] Hi l. assert (Hl : length l = (length f + length x)%nat) by (unfold l; by rewrite length_inserts, length_app).
  split; [|rewrite length_take, length_drop; lia].
  unfold write. cbn [buf filled_len initialized_len].
  rewrite app_assoc, <- fmap_app, Nat2Z.id, inserts_prefix, inserts_fmap by (by rewrite !length_fmap).
  fold l. rewrite (app_assoc (_ <$> take _ _)), <- fmap_app, take_drop, length_take, length_app, Hl. f_equal. lia.
Qed.

Lemma app_drop_take {A} (l : list A) i n m : (i <= m)%nat -> m = Nat.min n (length l) ->
  drop i (take n l) ++ drop m l = drop i l.
Proof.
  intros Hi ->. rewrite <- (take_drop (Nat.min n (length l)) l) at 4.
  rewrite drop_app_le by (rewrite length_take; lia).
  destruct (decide (n <= length l)%nat).
  - by rewrite (Nat.min_l n) by lia.
  - by rewrite (Nat.min_r n), (take_ge l n), take_ge by lia.
Qed.

(** Filling a part of the buffer through [take], as a reader does. *)
Definition fill_taken (n : Z) (d : list Z) (b : ReadBuf) : answer ReadBuf :=
  t ← take_buf n b;
  t ← put_slice d t;
  b ← assume_init (Z.of_nat (length d)) (give_back t b);
  advance (Z.of_nat (length d)) b.

Lemma fill_taken_put {b f x u} n d : rep b f x u -> Z.of_nat (length d) <= n -> fill_taken n d b = put_slice d b.
Proof.
  intros Hb Hn. unfold fill_taken. destruct (take_parts Hb n) as (t & -> & Ht); [lia|]. cbn [mbind answer_mbind].
  pose proof (put_slice_parts Ht d) as Hp. pose proof (put_slice_parts Hb d) as Hq.
  cbn [length] in Hp. rewrite length_take, length_app, length_fmap in Hp.
  case_decide as H1; case_decide as H2; try lia; [|by rewrite Hp, Hq].
  destruct Hp as (t' & -> & [Et _]). destruct Hq as (b' & -> & [-> Hc]). cbn [mbind answer_mbind].
  apply (f_equal buf) in Et. cbn [buf fmap list_fmap app] in Et. rewrite drop_nil in Et. cbn [fmap list_fmap app length] in Et.
  rewrite Nat.sub_0_r in Et. set (l := (Some <$> x) ++ u) in *.
  assert (Hl : length l = (length x + length u)%nat) by (unfold l; by rewrite length_app, length_fmap).
  assert (Hg : give_back t' b = mkReadBuf ((Some <$> f) ++ (Some <$> d) ++ drop (length d) l)
    (Z.of_nat (length f)) (Z.of_nat (length (f ++ x)))).
  { destruct Hb as [-> _]. unfold give_back. cbn [buf filled_len initialized_len]. fold l. rewrite Et.
    rewrite inserts_at by (rewrite ?length_app, ?length_drop, ?length_take, !length_fmap; lia).
    rewrite <- app_assoc, app_drop_take; [done|..]; rewrite ?length_app, ?length_drop, ?length_take, ?length_fmap; lia. }
  destruct Hb as [_ Hcap]. rewrite Hg. unfold assume_init, plus, isize_MAX, usize_MAX in *. cbn [filled_len initialized_len].
  rewrite (proj2 (Z.leb_le _ _)) by lia. cbn [mbind answer_mbind].
  assert (Hbuf : (Some <$> f) ++ (Some <$> d) ++ drop (length d) l =
    (Some <$> f ++ d) ++ (Some <$> drop (length d) x) ++ drop (length d - length x) u).
  { unfold l. by rewrite drop_app, fmap_app, length_fmap, fmap_drop, <- app_assoc. }
  rewrite Hbuf. unfold advance, plus, set_filled, usize_MAX. rewrite length_app, length_app, length_app.
  case_match eqn:E; cbn [filled_len initialized_len set_initialized mbind answer_mbind];
    rewrite (proj2 (Z.leb_le _ _)) by lia; cbn [filled_len initialized_len set_initialized mbind answer_mbind];
    rewrite (proj2 (Z.leb_le _ _)) by (rewrite ?Z.ltb_ge in E; lia); unfold store_filled, set_initialized;
    cbn [buf initialized_len]; do 2 f_equal; rewrite ?length_app, ?length_drop, ?Z.ltb_lt, ?Z.ltb_ge in *; lia.
Qed.

Lemma new_parts l : Z.of_nat (length l) <= isize_MAX -> rep (new l) [] l [].
Proof. intros. split; [|simpl; lia]. unfold new. simpl. by rewrite app_nil_r. Qed.

Lemma uninit_parts l : Z.of_nat (length l) <= isize_MAX -> rep (uninit l) [] [] l.
Proof. intros. by split; [|simpl; lia]. Qed.

(** C39: a buffer is always filled bytes, then initialised bytes, then the
    rest, however it is used: no operation views an uninitialised byte, and
    each changes the three parts as documented, or panics exactly when its
    argument does not fit.  Filling through [take] and [assume_init] is
    [put_slice]. *)
Theorem read_buf_parts (b : ReadBuf) (f x : list Z) (u : list (option Z)) : rep b f x u ->
  (filled b = Gives f /\ initialized b = Gives (f ++ x) /\ remaining b = Gives (Z.of_nat (length x + length u))) /\
  rep (clear b) [] (f ++ x) u /\
  (forall n, 0 <= n -> let k := Z.to_nat n in
    if decide (k <= length (f ++ x))%nat
    then exists b', set_filled n b = Gives b' /\ rep b' (take k (f ++ x)) (drop k (f ++ x)) u
    else set_filled n b = Panics) /\
  (forall n, 0 <= n <= usize_MAX -> let k := Z.to_nat n in
    if decide (k <= length x)%nat
    then exists b', advance n b = Gives b' /\ rep b' (f ++ take k x) (drop k x) u
    else advance n b = Panics) /\
  (forall d, if decide (length d <= length x + length u)%nat
    then exists b', put_slice d b = Gives b' /\ rep b' (f ++ d) (drop (length d) x) (drop (length d - length x) u)
    else put_slice d b = Panics) /\
  (forall n, 0 <= n -> let k := Z.to_nat n in let x' := x ++ replicate (k - length x) 0 in
    if decide (k <= length x + length u)%nat
    then exists b', initialize_unfilled_to n b = Gives (b', take k x') /\ rep b' f x' (drop (k - length x) u)
    else initialize_unfilled_to n b = Panics) /\
  (exists b', initialize_unfilled b = Gives (b', x ++ replicate (length u) 0) /\ rep b' f (x ++ replicate (length u) 0) []) /\
  (forall n, 0 <= n -> exists t, take_buf n b = Gives t /\ rep t [] [] (take (Z.to_nat n) ((Some <$> x) ++ u))) /\
  (forall y u' n, u = (Some <$> y) ++ u' -> n = Z.of_nat (length x + length y) ->
    exists b', assume_init n b = Gives b' /\ rep b' f (x ++ y) u') /\
  (forall i d, (i + length d <= length (f ++ x))%nat ->
    let l := list_inserts i d (f ++ x) in
    rep (write (Z.of_nat i) d b) (take (length f) l) (drop (length f) l) u) /\
  (forall n d, Z.of_nat (length d) <= n -> fill_taken n d b = put_slice d b).
Proof.
  intros Hb.
  refine (conj (conj (filled_parts Hb) (conj (initialized_parts Hb) (remaining_parts Hb)))
    (conj (clear_parts Hb) (conj (set_filled_parts Hb) (conj (advance_parts Hb) (conj (put_slice_parts Hb)
    (conj (initialize_parts Hb) (conj _ (conj (take_parts Hb) (conj (assume_init_parts Hb)
    (conj (fun i d => write_parts i d Hb) (fun n d => fill_taken_put n d Hb))))))))))).
  unfold initialize_unfilled. rewrite (remaining_parts Hb). cbn [mbind answer_mbind].
  pose proof (initialize_parts Hb (Z.of_nat (length x + length u)) ltac:(lia)) as Hi. cbv zeta in Hi.
  rewrite Nat2Z.id, decide_True in Hi by lia. destruct Hi as (b' & -> & Hb').
  replace (length x + length u - length x)%nat with (length u) in * by lia.
  exists b'. rewrite take_ge by (rewrite length_app, length_replicate; lia). split; [done|].
  by rewrite drop_all in Hb'.
Qed.

Lemma read_buf_parts_witness :
  rep (uninit [None; None; None; None]) [] [] [None; None; None; None] /\
  (exists b, put_slice [7; 8] (uninit [None; None; None; None]) = Gives b /\ rep b [7; 8] [] [None; None]) /\
  (put_slice [1; 2; 3; 4; 5] (uninit [None; None; None; None]) = Panics).
Proof.
  assert (Hr : rep (uninit [None; None; None; None]) [] [] [None; None; None; None]) by (split; [done|by vm_compute]).
  destruct (read_buf_parts _ _ _ _ Hr) as (_ & _ & _ & _ & Hp & _).
  split; [done|]. split; [apply (Hp [7; 8])|apply (Hp [1; 2; 3; 4; 5])].
Defined.
