(* ===== verification/Layout.v ===== *)
(** The layout of a task's allocation: [runtime/task/utils.rs] ([extend],
    [padding_needed_for]) and [task_layout], [from_ptr] of
    [runtime/task/raw.rs].

    A layout is the size and the alignment of [std::alloc::Layout]; a panic is
    [None]. *)

From S2P Require Import Prelude.

Record Layout := mkLayout { size : Z; align : Z }.

(** A layout is one that [Layout::from_size_align] accepts: the alignment is a
    power of two, and the size rounded up to it does not overflow [isize]. *)
Definition is_pow2 (x : Z) : bool := (0 <? x) && (x =? 2 ^ Z.log2 x).
Definition from_size_align (sz al : Z) : option Layout :=
  if is_pow2 al && (sz <=? 2 ^ 63 - al) then Some (mkLayout sz al) else None.
Definition valid (l : Layout) : Prop := 0 <= size l /\ from_size_align (size l) (align l) = Some l.

Definition checked_add (x y : Z) : option Z := if x + y <=? usize_MAX then Some (x + y) else None.

Definition padding_needed_for (layout : Layout) (al : Z) : Z :=
  let len := size layout in
  let len_rounded_up := Z.land (wrapping_sub (wrapping_add len al) 1) (wnot (wrapping_sub al 1)) in
  wrapping_sub len_rounded_up len.

Definition extend (a b : Layout) : option (Layout * Z) :=
  let new_align := Z.max (align a) (align b) in
  let pad := padding_needed_for a (align b) in
  offset ← checked_add (size a) pad;
  new_size ← checked_add offset (size b);
  layout ← from_size_align new_size new_align;
  Some (layout, offset).

Record TaskLayout := mkTaskLayout { layout : Layout; offset_s : Z; offset_f : Z; offset_r : Z }.

(** [h], [s], [f] and [r] are the layouts of [Header], [S], [F] and [T]. *)
Definition task_layout (h s f r : Layout) : option TaskLayout :=
  let size_union := Z.max (size f) (size r) in
  let align_union := Z.max (align f) (align r) in
  let layout_union := mkLayout size_union align_union in
  '(l, offset_s) ← extend h s;
  '(l, offset_union) ← extend l layout_union;
  Some (mkTaskLayout l offset_s offset_union offset_union).

(** The addresses of the parts of the allocation at [ptr]. *)
Record RawTask := mkRaw { header : Z; schedule : Z; future : Z; output : Z }.
Definition from_ptr (tl : TaskLayout) (ptr : Z) : RawTask :=
  mkRaw ptr (ptr + offset_s tl) (ptr + offset_f tl) (ptr + offset_r tl).

(** * Powers of two *)

Lemma is_pow2_spec x : is_pow2 x = true <-> exists k, 0 <= k /\ x = 2 ^ k.
Proof.
  unfold is_pow2. rewrite andb_true_iff, Z.ltb_lt, Z.eqb_eq. split.
  - intros [_ E]. exists (Z.log2 x). split; [apply Z.log2_nonneg|done].
  - intros (k & Hk & ->). rewrite Z.log2_pow2 by done. split; [by apply Z.pow_pos_nonneg|done].
Qed.

Lemma valid_spec l : valid l <->
  0 <= size l /\ size l <= 2 ^ 63 - align l /\ exists k, 0 <= k <= 63 /\ align l = 2 ^ k.
Proof.
  destruct l as [sz al]. unfold valid, from_size_align. cbn [size align]. split.
  - intros [Hs Hv]. destruct (is_pow2 al) eqn:Hp; [|done]. cbn [andb] in Hv.
    destruct (Z.leb_spec sz (2 ^ 63 - al)); [|done]. apply is_pow2_spec in Hp as (k & Hk & ->).
    split_and!; [done|done|]. exists k. split; [|done]. split; [done|].
    apply (Z.pow_le_mono_r_iff 2); lia.
  - intros (Hs & Hle & k & Hk & E). split; [done|].
    rewrite (proj2 (is_pow2_spec al)) by (exists k; lia). by rewrite (proj2 (Z.leb_le _ _)).
Qed.

Lemma pow2_max x y : (exists k, 0 <= k <= 63 /\ x = 2 ^ k) -> (exists k, 0 <= k <= 63 /\ y = 2 ^ k) ->
  (exists k, 0 <= k <= 63 /\ Z.max x y = 2 ^ k) /\ (x | Z.max x y) /\ (y | Z.max x y).
Proof.
  intros (j & Hj & ->) (k & Hk & ->).
  assert (Hd : forall a b, 0 <= a <= b -> (2 ^ a | 2 ^ b)).
  { intros a b Hab. exists (2 ^ (b - a)). rewrite <- Z.pow_add_r by lia. f_equal. lia. }
  destruct (Z.le_ge_cases j k) as [H|H]; pose proof (Z.pow_le_mono_r 2 _ _ ltac:(lia) H).
  - rewrite Z.max_r by done. split; [by exists k|]. split; apply Hd; lia.
  - rewrite Z.max_l by done. split; [by exists j|]. split; apply Hd; lia.
Qed.

(** The padding is the distance to the next multiple of the alignment. *)
Lemma padding_spec l al : 0 <= size l < 2 ^ 63 -> (exists k, 0 <= k <= 63 /\ al = 2 ^ k) ->
  let pad := padding_needed_for l al in
  0 <= pad < al /\ (al | size l + pad).
Proof.
  intros Hs (k & Hk & ->). cbv zeta. set (len := size l) in *.
  pose proof (Z.pow_le_mono_r 2 k 63 ltac:(lia) ltac:(lia)). pose proof (Z.pow_pos_nonneg 2 k ltac:(lia) ltac:(lia)).
  pose proof (Z.div_mod (len + 2 ^ k - 1) (2 ^ k) ltac:(lia)). pose proof (Z.mod_pos_bound (len + 2 ^ k - 1) (2 ^ k) ltac:(lia)).
  assert (padding_needed_for l (2 ^ k) = (len + 2 ^ k - 1) / 2 ^ k * 2 ^ k - len) as ->.
  { unfold padding_needed_for. fold len. unfold wrapping_sub, wrapping_add.
    rewrite (wrap_small 64 (len + 2 ^ k)), (wrap_small 64 (len + 2 ^ k - 1)), (wrap_small 64 (2 ^ k - 1)) by lia.
    rewrite land_wnot by (unfold usize_MAX; lia).
    replace (2 ^ k - 1) with (Z.ones k) at 1 by (rewrite Z.ones_equiv; lia).
    rewrite Z.ldiff_ones_r, Z.shiftl_mul_pow2, Z.shiftr_div_pow2 by lia.
    apply wrap_small. lia. }
  split; [lia|]. exists ((len + 2 ^ k - 1) / 2 ^ k). lia.
Qed.

(** What [extend] needs of its second layout, which for the union of the
    future and the output is not checked by the code. *)
Definition part (l : Layout) : Prop := 0 <= size l /\ exists k, 0 <= k <= 63 /\ align l = 2 ^ k.

Lemma valid_part l : valid l -> part l.
Proof. rewrite valid_spec. unfold part. tauto. Qed.

Lemma extend_spec a b l off : valid a -> part b -> extend a b = Some (l, off) ->
  valid l /\ align l = Z.max (align a) (align b) /\ size l = off + size b /\
  size a <= off < size a + align b /\ (align b | off).
Proof.
  rewrite !valid_spec. intros (Ha & Ha' & ka & Hka & Ea) (Hb & kb & Hkb & Eb) He.
  pose proof (Z.pow_pos_nonneg 2 ka). pose proof (Z.pow_pos_nonneg 2 kb).
  destruct (padding_spec a (align b)) as [Hp Hd]; [lia|by exists kb|]. cbv zeta in *.
  unfold extend in He. set (pad := padding_needed_for a (align b)) in *. unfold checked_add in He.
  destruct (size a + pad <=? usize_MAX); [|done]. cbn [mbind option_bind] in He.
  destruct (size a + pad + size b <=? usize_MAX); [|done]. cbn [mbind option_bind] in He.
  destruct (from_size_align _ _) as [l'|] eqn:Hf; [|done]. injection He as -> <-.
  assert (Hl : l = mkLayout (size a + pad + size b) (Z.max (align a) (align b))).
  { unfold from_size_align in Hf. by case_match; simplify_eq. }
  split; [|rewrite Hl; split_and!; lia || done].
  rewrite <- valid_spec. split; [rewrite Hl; cbn [size]; lia|]. rewrite Hl in *. exact Hf.
Qed.

(** Some layout is given unless the parts do not fit in memory. *)
Lemma extend_some a b : valid a -> part b ->
  size a + align b + size b <= 2 ^ 63 - Z.max (align a) (align b) -> extend a b <> None.
Proof.
  rewrite valid_spec. intros (Ha & Ha' & Hka) (Hb & Hkb) Hle.
  destruct (pow2_max _ _ Hka Hkb) as [(k & Hk & Ek) _]. pose proof (Z.pow_pos_nonneg 2 k ltac:(lia) ltac:(lia)).
  destruct (padding_spec a (align b)) as [Hp _]; [destruct Hka as (j & Hj & ->) in Ha'; pose proof (Z.pow_pos_nonneg 2 j); lia|done|].
  cbv zeta in Hp. unfold extend, checked_add, usize_MAX, from_size_align.
  rewrite (proj2 (Z.leb_le _ _)) by lia. cbn [mbind option_bind].
  rewrite (proj2 (Z.leb_le _ _)) by lia. cbn [mbind option_bind].
  rewrite (proj2 (is_pow2_spec _)) by (exists k; lia).
  by rewrite (proj2 (Z.leb_le _ _)) by lia.
Qed.

Lemma part_align l : part l -> 0 < align l.
Proof. intros (_ & k & Hk & ->). apply Z.pow_pos_nonneg; lia. Qed.

(** C40: in the allocation of a task every part has its alignment and its own
    bytes: the header, the schedule function and then the future, which
    shares its place with the output; the padding before a part is less than
    its alignment; and the layout exists, so that nothing aborts, unless the
    sizes and alignments add up to more than the address space. *)
Theorem task_layout_fields (h s f r : Layout) : valid h -> valid s -> valid f -> valid r ->
  match task_layout h s f r with
  | Some tl =>
      valid (layout tl) /\
      forall ptr, (align (layout tl) | ptr) ->
        let raw := from_ptr tl ptr in
        ((align h | header raw) /\ (align s | schedule raw) /\ (align f | future raw) /\ (align r | output raw)) /\
        (header raw + size h <= schedule raw /\ schedule raw + size s <= future raw /\ output raw = future raw /\
         future raw + size f <= ptr + size (layout tl) /\ output raw + size r <= ptr + size (layout tl)) /\
        (schedule raw < header raw + size h + align s /\
         future raw < schedule raw + size s + Z.max (align f) (align r) /\
         (future raw + size f = ptr + size (layout tl) \/ output raw + size r = ptr + size (layout tl)))
  | None => 2 ^ 63 < size h + align h + (size s + 2 * align s) + (Z.max (size f) (size r) + 2 * Z.max (align f) (align r))
  end.
Proof.
  intros Hh Hs%valid_part Hf%valid_part Hr%valid_part.
  set (un := mkLayout (Z.max (size f) (size r)) (Z.max (align f) (align r))).
  destruct (pow2_max _ _ (proj2 Hf) (proj2 Hr)) as (Hku & Hdf & Hdr).
  destruct Hf as [Hf _], Hr as [Hr _].
  assert (Hun : part un) by (split; [cbn [size un]; lia|done]).
  pose proof (part_align h (valid_part _ Hh)). pose proof (part_align s Hs). pose proof (part_align un Hun).
  assert (Su : size un = Z.max (size f) (size r)) by done.
  assert (Au : align un = Z.max (align f) (align r)) by done.
  unfold task_layout. fold un. clearbody un. destruct (extend h s) as [[l os]|] eqn:E1; cbn [mbind option_bind].
  2:{ destruct (decide (size h + align s + size s <= 2 ^ 63 - Z.max (align h) (align s))) as [Hle|].
      - by apply (extend_some h s Hh Hs) in E1.
      - lia. }
  destruct (extend_spec _ _ _ _ Hh Hs E1) as (Hl & Al & Sl & Ho & Do).
  destruct (extend l un) as [[l' ou]|] eqn:E2; cbn [mbind option_bind].
  2:{ destruct (decide (size l + align un + size un <= 2 ^ 63 - Z.max (align l) (align un))) as [Hle|].
      - by apply (extend_some l un Hl Hun) in E2.
      - lia. }
  destruct (extend_spec _ _ _ _ Hl Hun E2) as (Hl' & Al' & Sl' & Ho' & Do'). cbn [layout].
  split; [done|]. intros ptr Hptr. cbn [from_ptr header schedule future output offset_s offset_f offset_r].
  destruct (pow2_max _ _ (proj2 (valid_part _ Hh)) (proj2 Hs)) as (_ & Hdh & Hds).
  destruct (pow2_max _ _ (proj2 (valid_part _ Hl)) (proj2 Hun)) as (_ & Hdl & Hdu).
  rewrite <- Al', Au in *. rewrite <- Al in *.
  split; [|lia]. split; [|split; [|split]].
  - by transitivity (align l); [|transitivity (align l')].
  - apply Z.divide_add_r; [by transitivity (align l); [|transitivity (align l')]|done].
  - transitivity (Z.max (align f) (align r)); [done|]. apply Z.divide_add_r; [|done]. by transitivity (align l').
  - transitivity (Z.max (align f) (align r)); [done|]. apply Z.divide_add_r; [|done]. by transitivity (align l').
Qed.

Lemma task_layout_fields_witness :
  valid (mkLayout 24 8) /\ valid (mkLayout 3 1) /\ valid (mkLayout 40 16) /\ valid (mkLayout 2 2) /\
  match task_layout (mkLayout 24 8) (mkLayout 3 1) (mkLayout 40 16) (mkLayout 2 2) with
  | Some tl => valid (layout tl) /\ tl = mkTaskLayout (mkLayout 72 16) 24 32 32
  | None => False
  end.
Proof.
  assert (V : forall l, (0 <=? size l) && is_pow2 (align l) && (size l <=? 2 ^ 63 - align l) = true -> valid l).
  { intros [sz al]. unfold valid, from_size_align. cbn [size align].
    rewrite !andb_true_iff, !Z.leb_le. intros [[? ->] ->%Z.leb_le]. done. }
  assert (Hh : valid (mkLayout 24 8)) by by apply V. assert (Hs : valid (mkLayout 3 1)) by by apply V.
  assert (Hf : valid (mkLayout 40 16)) by by apply V. assert (Hr : valid (mkLayout 2 2)) by by apply V.
  do 4 (split; [done|]). pose proof (task_layout_fields _ _ _ _ Hh Hs Hf Hr) as H.
  change (task_layout _ _ _ _) with (Some (mkTaskLayout (mkLayout 72 16) 24 32 32)) in *.
  split; [apply H|done].
Defined.
