(* ===== verification/Rander.v ===== *)
(** [utils/rander.rs]: the pseudo-random generator.

    A generator is one 64-bit word that a linear congruence steps; a draw is
    a permutation of its bits.  Every function takes the word and returns its
    value and the next word; it [Panics] where the code panics (debug
    assertions on: an overflow of [+] or [*] panics too), and [Spins] when
    the bound on the rejection loop was used up. *)

From S2P Require Import Prelude.
From Stdlib Require Import Strings.Ascii Strings.String.

Inductive outcome (A : Type) :=
| Returns (a : A)
| Panics
| Spins.
Arguments Returns {A} a.
Arguments Panics {A}.
Arguments Spins {A}.

#[export] Instance outcome_mret : MRet outcome := fun A => Returns.
#[export] Instance outcome_mbind : MBind outcome := fun A B f o =>
  match o with Returns a => f a | Panics => Panics | Spins => Spins end.

Definition MULTIPLIER : Z := 6364136223846793005.
Definition INCREMENT : Z := 1442695040888963407.

(** The next state of the generator. *)
Definition next (s : Z) : Z := wrapping_add (wrapping_mul s MULTIPLIER) INCREMENT.

(** [u32::rotate_right]. *)
Definition rotate_right (x k : Z) : Z :=
  Z.lor (Z.shiftr x (k mod 32)) (wrap 32 (Z.shiftl x ((32 - k mod 32) mod 32))).

Definition output (s : Z) : Z :=
  rotate_right (wrap 32 (Z.shiftr (Z.lxor s (Z.shiftr s 18)) 27)) (wrap 32 (Z.shiftr s 59)).

Definition gen_u32 (s : Z) : Z * Z := (output s, next s).
Definition gen_u64 (s : Z) : Z * Z :=
  let '(hi, s) := gen_u32 s in
  let '(lo, s) := gen_u32 s in
  (Z.lor (Z.shiftl hi 32) lo, s).
Definition gen_u128 (s : Z) : Z * Z :=
  let '(hi, s) := gen_u64 s in
  let '(lo, s) := gen_u64 s in
  (Z.lor (Z.shiftl hi 64) lo, s).

(** The high half of a product: in a word of twice the width, or, for
    128 bits, in four products of halves. *)
Definition mul_high_u32 (a b : Z) : outcome Z := Returns (wrap 32 (Z.shiftr (a * b) 32)).
Definition mul_high_u64 (a b : Z) : outcome Z := Returns (wrap 64 (Z.shiftr (a * b) 64)).

Definition checked_128 (x : Z) : outcome Z := if x <? 2 ^ 128 then Returns x else Panics.

Definition mul_high_u128 (a b : Z) : outcome Z :=
  let a_lo := wrap 64 a in
  let a_hi := wrap 64 (Z.shiftr a 64) in
  let b_lo := wrap 64 b in
  let b_hi := wrap 64 (Z.shiftr b 64) in
  ll ← checked_128 (a_lo * b_lo);
  let carry := Z.shiftr ll 64 in
  hl ← checked_128 (a_hi * b_lo);
  lh ← checked_128 (a_lo * b_hi);
  c ← checked_128 (wrap 64 hl + wrap 64 lh);
  c ← checked_128 (c + carry);
  let carry := Z.shiftr c 64 in
  hh ← checked_128 (a_hi * b_hi);
  r ← checked_128 (hh + Z.shiftr hl 64);
  r ← checked_128 (r + Z.shiftr lh 64);
  checked_128 (r + carry).

(** [gen_mod_u32], [gen_mod_u64] and [gen_mod_u128]: the loop that rejects. *)
Fixpoint gen_mod_loop (fuel : nat) (w : Z) (gen : Z -> Z * Z) (mul_high : Z -> Z -> outcome Z)
    (n t hi lo s : Z) : outcome (Z * Z) :=
  if lo <? t then
    match fuel with
    | O => Spins
    | S fuel =>
        let '(r, s) := gen s in
        hi ← mul_high r n;
        gen_mod_loop fuel w gen mul_high n t hi (wrap w (r * n)) s
    end
  else Returns (hi, s).

Definition gen_mod (fuel : nat) (w : Z) (gen : Z -> Z * Z) (mul_high : Z -> Z -> outcome Z) (n s : Z)
    : outcome (Z * Z) :=
  let '(r, s) := gen s in
  hi ← mul_high r n;
  let lo := wrap w (r * n) in
  if lo <? n then gen_mod_loop fuel w gen mul_high n (wrap w (- n) mod n) hi lo s
  else Returns (hi, s).

Definition gen_mod_u32 (fuel : nat) : Z -> Z -> outcome (Z * Z) := gen_mod fuel 32 gen_u32 mul_high_u32.
Definition gen_mod_u64 (fuel : nat) : Z -> Z -> outcome (Z * Z) := gen_mod fuel 64 gen_u64 mul_high_u64.
Definition gen_mod_u128 (fuel : nat) : Z -> Z -> outcome (Z * Z) := gen_mod fuel 128 gen_u128 mul_high_u128.

(** * Ranges of integers *)

Inductive Bound := Unbounded | Included (x : Z) | Excluded (x : Z).

(** An integer type, and the generator its instance of the macro uses. *)
Record int_type := mkInt { bits : Z; signed : bool;
  width : Z; gen : Z -> Z * Z; gen_below : nat -> Z -> Z -> outcome (Z * Z) }.

Definition small (bits : Z) (signed : bool) : int_type := mkInt bits signed 32 gen_u32 gen_mod_u32.
Definition u8_t := small 8 false.
Definition i8_t := small 8 true.
Definition u16_t := small 16 false.
Definition i16_t := small 16 true.
Definition u32_t := small 32 false.
Definition i32_t := small 32 true.
Definition u64_t := mkInt 64 false 64 gen_u64 gen_mod_u64.
Definition i64_t := mkInt 64 true 64 gen_u64 gen_mod_u64.
Definition u128_t := mkInt 128 false 128 gen_u128 gen_mod_u128.
Definition i128_t := mkInt 128 true 128 gen_u128 gen_mod_u128.
Definition usize_t := u64_t.
Definition isize_t := i64_t.

Definition type_MIN (ty : int_type) : Z := if signed ty then - 2 ^ (bits ty - 1) else 0.
Definition type_MAX (ty : int_type) : Z := if signed ty then 2 ^ (bits ty - 1) - 1 else 2 ^ bits ty - 1.

(** [x as $t], and the wrapping operations of [$t]. *)
Definition as_type (ty : int_type) (x : Z) : Z := (x - type_MIN ty) mod 2 ^ bits ty + type_MIN ty.

Definition rand_integer (fuel : nat) (ty : int_type) (start_bound end_bound : Bound) (s : Z) : outcome (Z * Z) :=
  low ← match start_bound with
        | Unbounded => Returns (type_MIN ty)
        | Included x => Returns x
        | Excluded x => if x + 1 <=? type_MAX ty then Returns (x + 1) else Panics
        end;
  high ← match end_bound with
         | Unbounded => Returns (type_MAX ty)
         | Included x => Returns x
         | Excluded x => if type_MIN ty <=? x - 1 then Returns (x - 1) else Panics
         end;
  if high <? low then Panics
  else if (low =? type_MIN ty) && (high =? type_MAX ty) then
    let '(r, s) := gen ty s in Returns (as_type ty r, s)
  else
    let len := as_type ty (as_type ty (high - low) + 1) in
    (* [len as _]: a signed length is sign-extended *)
    '(r, s) ← gen_below ty fuel (wrap (width ty) len) s;
    Returns (as_type ty (low + as_type ty r), s).

(** * What is built on them *)

Definition seed (x : Z) : Z := snd (gen_u32 (wrapping_add x INCREMENT)).
Definition with_seed (x : Z) : Z := seed x.
(** [Clone]: the clone, and the generator that was asked for its seed. *)
Definition clone (s : Z) : Z * Z := let '(x, s) := gen_u64 s in (with_seed x, s).
(** [Rander::new] draws its seed from the generator of the thread, whose
    first word comes from a hash. *)
Definition new (rh : Z) : Z * Z := let '(x, rh) := gen_u64 rh in (with_seed x, rh).
Definition thread_word (hash : Z) : Z := Z.lor (wrap 64 (Z.shiftl hash 1)) 1.

Definition bool_ (fuel : nat) (s : Z) : outcome (bool * Z) :=
  '(x, s) ← rand_integer fuel u8_t Unbounded Unbounded s; Returns (x mod 2 =? 0, s).

(** An index into a table of characters. *)
Definition pick (fuel : nat) (chars : list ascii) (s : Z) : outcome (ascii * Z) :=
  '(i, s) ← rand_integer fuel u8_t Unbounded (Excluded (as_type u8_t (Z.of_nat (List.length chars)))) s;
  match chars !! Z.to_nat i with Some c => Returns (c, s) | None => Panics end.

Definition UPPER : list ascii := list_ascii_of_string "ABCDEFGHIJKLMNOPQRSTUVWXYZ".
Definition LOWER : list ascii := list_ascii_of_string "abcdefghijklmnopqrstuvwxyz".
Definition DIGITS : list ascii := list_ascii_of_string "0123456789".

Definition alphabetic (fuel : nat) : Z -> outcome (ascii * Z) := pick fuel (UPPER ++ LOWER)%list.
Definition alphanumeric (fuel : nat) : Z -> outcome (ascii * Z) := pick fuel (UPPER ++ LOWER ++ DIGITS)%list.
Definition lowercase (fuel : nat) : Z -> outcome (ascii * Z) := pick fuel LOWER.
Definition uppercase (fuel : nat) : Z -> outcome (ascii * Z) := pick fuel UPPER.

Definition digit (fuel : nat) (base s : Z) : outcome (ascii * Z) :=
  if base =? 0 then Panics
  else if 36 <? base then Panics
  else
    '(num, s) ← rand_integer fuel u8_t Unbounded (Excluded (as_type u8_t base)) s;
    let code := if num <? 10 then 48 + num else 97 + num - 10 in
    Returns (ascii_of_N (Z.to_N code), s).

(** The bits that [f32] and [f64] take for a number in [1, 2). *)
Definition f32_bits (fuel : nat) (s : Z) : outcome (Z * Z) :=
  '(x, s) ← rand_integer fuel u32_t Unbounded Unbounded s;
  Returns (2 ^ 30 - 2 ^ 23 + Z.shiftr x (32 - 23), s).
Definition f64_bits (fuel : nat) (s : Z) : outcome (Z * Z) :=
  '(x, s) ← rand_integer fuel u64_t Unbounded Unbounded s;
  Returns (2 ^ 62 - 2 ^ 52 + Z.shiftr x (64 - 52), s).

(** [slice.swap(i, j)]. *)
Definition swap_at {A} (i j : nat) (l : list A) : outcome (list A) :=
  match l !! i, l !! j with Some x, Some y => Returns (<[i := y]> (<[j := x]> l)) | _, _ => Panics end.

Fixpoint shuffle_from {A} (fuel : nat) (k i : nat) (l : list A) (s : Z) : outcome (list A * Z) :=
  match k with
  | O => Returns (l, s)
  | S k =>
      '(j, s) ← rand_integer fuel usize_t Unbounded (Included (Z.of_nat i)) s;
      l ← swap_at i (Z.to_nat j) l;
      shuffle_from fuel k (S i) l s
  end.
Definition shuffle {A} (fuel : nat) (l : list A) (s : Z) : outcome (list A * Z) :=
  shuffle_from fuel (List.length l - 1) 1 l s.
