(* ===== verification/RanderProof.v ===== *)
(** The random numbers of [utils/rander.rs]: what the ranges, the draws and
    the tables promise.

    The state runs through all [2 ^ 64] words ([next_reach], the theorem of
    Hull and Dobell for this multiplier and increment), which is why the
    rejection loops end: a word that is accepted is reached from every
    word. *)

From S2P Require Import Prelude Rander.
From Stdlib Require Import Strings.Ascii Strings.String.

Notation word w x := (0 <= x < 2 ^ w).

Lemma lor_range w a b : 0 <= w -> word w a -> word w b -> word w (Z.lor a b).
Proof.
  intros Hw [Ha Ha'] [Hb Hb']. split; [by apply Z.lor_nonneg|].
  destruct (decide (Z.lor a b = 0)) as [->|Hn]; [by apply Z.pow_pos_nonneg|].
  apply Z.log2_lt_pow2; [pose proof (proj2 (Z.lor_nonneg a b) (conj Ha Hb)); lia|].
  rewrite Z.log2_lor by done.
  assert (0 < w) by (destruct (decide (w = 0)) as [->|]; [|lia]; assert (a = 0) by lia; assert (b = 0) by lia; by subst).
  apply Z.max_lub_lt; match goal with |- Z.log2 ?x < _ =>
    destruct (decide (x = 0)) as [->|]; [simpl; lia|apply Z.log2_lt_pow2; lia] end.
Qed.

Lemma lor_shiftl_range w v a b : 0 <= w -> 0 <= v -> word w a -> word v b -> word (w + v) (Z.lor (Z.shiftl a v) b).
Proof.
  intros Hw Hv Ha Hb. apply lor_range; [lia|..].
  - rewrite Z.shiftl_mul_pow2, Z.pow_add_r by lia.
    pose proof (Z.pow_pos_nonneg 2 v). nia.
  - pose proof (Z.pow_le_mono_r 2 v (w + v)). lia.
Qed.

Lemma output_range s : word 32 (output s).
Proof.
  unfold output, rotate_right. apply lor_range; [lia| |by apply wrap_range].
  set (x := wrap 32 _). assert (Hx : word 32 x) by by apply wrap_range.
  set (k := wrap 32 _ mod 32). assert (0 <= k) by (apply Z.mod_pos_bound; lia).
  rewrite Z.shiftr_div_pow2 by done. pose proof (Z.pow_pos_nonneg 2 k). split.
  - apply Z.div_pos; lia.
  - apply Z.div_lt_upper_bound; [lia|]. nia.
Qed.
Lemma next_range s : word 64 (next s).
Proof. by apply wrap_range. Qed.

(** A generator of [w]-bit words. *)
Record generator (w : Z) (gen : Z -> Z * Z) (mul_high : Z -> Z -> outcome Z) := {
  gen_word s : word w (fst (gen s));
  gen_state s : word 64 (snd (gen s));
  high_word a b : word w a -> word w b -> mul_high a b = Returns (a * b / 2 ^ w) }.

Lemma high_small w a b : 0 <= w -> word w a -> word w b -> word w (a * b / 2 ^ w).
Proof.
  intros Hw Ha Hb. pose proof (Z.pow_pos_nonneg 2 w). split; [apply Z.div_pos; nia|].
  apply Z.div_lt_upper_bound; nia.
Qed.

Lemma gen32 : generator 32 gen_u32 mul_high_u32.
Proof.
  split; [apply output_range|apply next_range|].
  intros a b Ha Hb. unfold mul_high_u32. rewrite Z.shiftr_div_pow2, wrap_small; [done|by apply high_small|lia].
Qed.
Lemma gen_u64_eq s :
  gen_u64 s = (Z.lor (Z.shiftl (output s) 32) (output (next s)), next (next s)).
Proof. reflexivity. Qed.
Lemma gen_u128_eq s :
  gen_u128 s = (Z.lor (Z.shiftl (fst (gen_u64 s)) 64) (fst (gen_u64 (next (next s)))), next (next (next (next s)))).
Proof. unfold gen_u128. rewrite gen_u64_eq. cbn [fst]. rewrite gen_u64_eq. cbn [fst]. reflexivity. Qed.

Lemma gen64_word s : word 64 (fst (gen_u64 s)).
Proof. apply (lor_shiftl_range 32 32); [lia|lia|apply output_range..]. Qed.
Lemma gen64 : generator 64 gen_u64 mul_high_u64.
Proof.
  split; [apply gen64_word|intros; apply next_range|].
  intros a b Ha Hb. unfold mul_high_u64. rewrite Z.shiftr_div_pow2, wrap_small; [done|by apply high_small|lia].
Qed.

Lemma checked_128_ok x : word 128 x -> checked_128 x = Returns x.
Proof. intros. unfold checked_128. by rewrite (proj2 (Z.ltb_lt _ _)) by lia. Qed.

(** The four products of [mul_high_u128] add up to the high half, and no
    addition overflows. *)
Lemma high_parts a b :
  word 128 a -> word 128 b ->
  mul_high_u128 a b = Returns (a * b / 2 ^ 128).
Proof.
  intros Ha Hb. unfold mul_high_u128, wrap.
  rewrite !Z.shiftr_div_pow2 by lia.
  rewrite (Z.mod_small (a / _)) by (split; [apply Z.div_pos; lia|apply Z.div_lt_upper_bound; lia]).
  rewrite (Z.mod_small (b / _)) by (split; [apply Z.div_pos; lia|apply Z.div_lt_upper_bound; lia]).
  set (al := a mod 2 ^ 64). set (ah := a / 2 ^ 64). set (bl := b mod 2 ^ 64). set (bh := b / 2 ^ 64).
  assert (Ea : a = 2 ^ 64 * ah + al) by (apply Z.div_mod; lia).
  assert (Eb : b = 2 ^ 64 * bh + bl) by (apply Z.div_mod; lia).
  assert (0 <= al < 2 ^ 64) by (apply Z.mod_pos_bound; lia).
  assert (0 <= bl < 2 ^ 64) by (apply Z.mod_pos_bound; lia).
  assert (0 <= ah < 2 ^ 64) by lia. assert (0 <= bh < 2 ^ 64) by lia.
  clearbody al ah bl bh. clear Ha Hb.
  assert (Hsq : forall x y, 0 <= x < 2 ^ 64 -> 0 <= y < 2 ^ 64 -> 0 <= x * y <= (2 ^ 64 - 1) * (2 ^ 64 - 1)) by (intros; nia).
  pose proof (Hsq al bl ltac:(lia) ltac:(lia)) as P1. pose proof (Hsq ah bl ltac:(lia) ltac:(lia)) as P2.
  pose proof (Hsq al bh ltac:(lia) ltac:(lia)) as P3. pose proof (Hsq ah bh ltac:(lia) ltac:(lia)) as P4.
  assert (E : a * b = 2 ^ 128 * (ah * bh) + 2 ^ 64 * (ah * bl + al * bh) + al * bl) by (subst a b; ring).
  rewrite E. clear E Ea Eb Hsq.
  set (p1 := al * bl) in *. set (p2 := ah * bl) in *. set (p3 := al * bh) in *. set (p4 := ah * bh) in *.
  clearbody p1 p2 p3 p4.
  rewrite (checked_128_ok p1) by lia. cbn [mbind outcome_mbind].
  rewrite (checked_128_ok p2) by lia. cbn [mbind outcome_mbind].
  rewrite (checked_128_ok p3) by lia. cbn [mbind outcome_mbind].
  rewrite (Z.shiftr_div_pow2 p1) by lia.
  pose proof (Z.div_mod p1 (2 ^ 64) ltac:(lia)). pose proof (Z.mod_pos_bound p1 (2 ^ 64) ltac:(lia)).
  pose proof (Z.div_mod p2 (2 ^ 64) ltac:(lia)). pose proof (Z.mod_pos_bound p2 (2 ^ 64) ltac:(lia)).
  pose proof (Z.div_mod p3 (2 ^ 64) ltac:(lia)). pose proof (Z.mod_pos_bound p3 (2 ^ 64) ltac:(lia)).
  set (q1 := p1 / 2 ^ 64) in *. set (q2 := p2 / 2 ^ 64) in *. set (q3 := p3 / 2 ^ 64) in *.
  set (r1 := p1 mod 2 ^ 64) in *. set (r2 := p2 mod 2 ^ 64) in *. set (r3 := p3 mod 2 ^ 64) in *.
  clearbody q1 q2 q3 r1 r2 r3. subst p1 p2 p3.
  rewrite (checked_128_ok (r2 + r3)) by lia. cbn [mbind outcome_mbind].
  rewrite (checked_128_ok (r2 + r3 + q1)) by lia. cbn [mbind outcome_mbind].
  rewrite (checked_128_ok p4) by lia. cbn [mbind outcome_mbind].
  rewrite !Z.shiftr_div_pow2 by lia.
  replace ((2 ^ 64 * q2 + r2) / 2 ^ 64) with q2 by (apply (Z.div_unique_pos _ _ _ r2); lia).
  replace ((2 ^ 64 * q3 + r3) / 2 ^ 64) with q3 by (apply (Z.div_unique_pos _ _ _ r3); lia).
  pose proof (Z.div_mod (r2 + r3 + q1) (2 ^ 64) ltac:(lia)).
  pose proof (Z.mod_pos_bound (r2 + r3 + q1) (2 ^ 64) ltac:(lia)).
  set (q := (r2 + r3 + q1) / 2 ^ 64) in *. set (r := (r2 + r3 + q1) mod 2 ^ 64) in *. clearbody q r.
  rewrite (checked_128_ok (p4 + q2)) by lia. cbn [mbind outcome_mbind].
  rewrite (checked_128_ok (p4 + q2 + q3)) by lia. cbn [mbind outcome_mbind].
  rewrite (checked_128_ok (p4 + q2 + q3 + q)) by lia.
  f_equal. apply (Z.div_unique_pos _ _ _ (2 ^ 64 * r + r1)); lia.
Qed.

Lemma gen128 : generator 128 gen_u128 mul_high_u128.
Proof.
  split; [|intros; rewrite gen_u128_eq; apply next_range|apply high_parts].
  intros s. rewrite gen_u128_eq. apply (lor_shiftl_range 64 64); [lia|lia|apply gen64_word..].
Qed.

(** * The rejection loop *)

Definition accepted (w n r : Z) : bool := (2 ^ w mod n) <=? wrap w (r * n).

(** The draws from [s], each rejected, until one is accepted. *)
Fixpoint first_accepted (fuel : nat) (w : Z) (gen : Z -> Z * Z) (n s : Z) : outcome (Z * Z) :=
  let '(r, s) := gen s in
  if accepted w n r then Returns (r * n / 2 ^ w, s)
  else match fuel with O => Spins | S fuel => first_accepted fuel w gen n s end.

Section loop.
  Context {w : Z} {gen : Z -> Z * Z} {mul_high : Z -> Z -> outcome Z}.
  Context (Hw : 0 < w) (Hgen : generator w gen mul_high).
  Context (n : Z) (Hn : 0 < n < 2 ^ w).

Lemma wrap_neg_mod : wrap w (- n) mod n = 2 ^ w mod n.
  Proof.
    unfold wrap. replace ((- n) mod 2 ^ w) with (2 ^ w + -1 * n).
    - by rewrite Z.mod_add by lia.
    - apply (Z.mod_unique_pos _ _ (-1)); lia.
  Qed.

Lemma gen_mod_loop_spec fuel r s :
    word w r ->
    gen_mod_loop fuel w gen mul_high n (2 ^ w mod n) (r * n / 2 ^ w) (wrap w (r * n)) s =
    if accepted w n r then Returns (r * n / 2 ^ w, s)
    else match fuel with O => Spins | S fuel => first_accepted fuel w gen n s end.
  Proof.
    revert r s. induction fuel as [|fuel IH]; intros r s Hr; cbn [gen_mod_loop]; unfold accepted at 1;
      rewrite Z.leb_antisym; destruct (wrap w (r * n) <? 2 ^ w mod n); try done; simpl.
    pose proof (gen_word _ _ _ Hgen s) as Hr'. destruct (gen s) as [r' s'] eqn:E. simpl in Hr'.
    rewrite (high_word _ _ _ Hgen) by (done || lia). cbn [mbind outcome_mbind].
    rewrite IH by done. destruct fuel; simpl; by rewrite E.
  Qed.

  (** The early exit on [lo >= n] changes nothing. *)
Lemma gen_mod_spec fuel s : gen_mod fuel w gen mul_high n s = first_accepted fuel w gen n s.
  Proof.
    unfold gen_mod. pose proof (gen_word _ _ _ Hgen s) as Hr. destruct (gen s) as [r s'] eqn:E. simpl in Hr.
    rewrite (high_word _ _ _ Hgen) by (done || lia). cbn [mbind outcome_mbind].
    rewrite wrap_neg_mod, gen_mod_loop_spec by done.
    destruct fuel; simpl; rewrite E; unfold accepted;
      (destruct (Z.ltb_spec (wrap w (r * n)) n); [done|]);
      rewrite (proj2 (Z.leb_le _ _)); try done; pose proof (Z.mod_pos_bound (2 ^ w) n); lia.
  Qed.

Lemma first_accepted_range fuel s :
    match first_accepted fuel w gen n s with
    | Returns (v, s') => 0 <= v < n /\ word 64 s'
    | Panics => False
    | Spins => True
    end.
  Proof.
    revert s. induction fuel as [|fuel IH]; intros s; simpl;
      pose proof (gen_word _ _ _ Hgen s) as Hr; pose proof (gen_state _ _ _ Hgen s) as Hs;
      destruct (gen s) as [r s']; simpl in *; destruct (accepted w n r); try done.
    1,2: split; [|done]; split; [apply Z.div_pos; [apply Z.mul_nonneg_nonneg|]; lia|
      apply Z.div_lt_upper_bound; [lia|]; apply Z.mul_lt_mono_pos_r; lia].
    apply IH.
  Qed.

Lemma first_accepted_mono k fuel s v : (k <= fuel)%nat ->
    first_accepted k w gen n s = Returns v -> first_accepted fuel w gen n s = Returns v.
  Proof.
    revert fuel s. induction k as [|k IH]; intros fuel s Hle; destruct fuel as [|fuel]; try lia; simpl;
      destruct (gen s) as [r s']; case_match; try done.
    apply IH. lia.
  Qed.

  (** Enough draws reach an accepted one. *)
Lemma first_accepted_reach k s :
    accepted w n (fst (gen (Nat.iter k (fun s => snd (gen s)) s))) = true ->
    exists v, first_accepted k w gen n s = Returns v.
  Proof.
    revert s. induction k as [|k IH]; intros s.
    - simpl. destruct (gen s) as [r s']. simpl. intros ->. eauto.
    - rewrite Nat.iter_succ_r. intros H%IH. cbn [first_accepted].
      destruct (gen s) as [r s']. simpl in *. case_match; eauto.
  Qed.
End loop.

(** Of the [2 ^ w] draws, exactly [2 ^ w / n] give the value [v]. *)
Lemma accepted_interval w n v : 0 < w -> 0 < n < 2 ^ w -> 0 <= v < n ->
  exists a, 0 <= a /\ a + 2 ^ w / n <= 2 ^ w /\
    forall r, word w r -> (accepted w n r = true /\ r * n / 2 ^ w = v) <-> a <= r < a + 2 ^ w / n.
Proof.
  intros Hw Hn Hv. pose proof (Z.div_mod (2 ^ w) n ltac:(lia)) as E.
  pose proof (Z.mod_pos_bound (2 ^ w) n ltac:(lia)) as Ht.
  assert (Hq : 0 <= 2 ^ w / n) by (apply Z.div_pos; lia).
  unfold accepted, wrap. set (q := 2 ^ w / n) in *. set (t := 2 ^ w mod n) in *. set (W := 2 ^ w) in *.
  assert (Hc : forall x, exists c, forall r, x <= r * n <-> c <= r).
  { intros x. exists (- (- x / n)). intros r. pose proof (Z.div_mod (- x) n ltac:(lia)).
    pose proof (Z.mod_pos_bound (- x) n ltac:(lia)). split; intros; nia. }
  destruct (Hc (v * W + t)) as [a Ha]. exists a.
  assert (Ha2 : forall r, (v + 1) * W <= r * n <-> a + q <= r).
  { intros r. pose proof (Ha (r - q)). assert ((r - q) * n = r * n - q * n) by ring. nia. }
  split; [|split].
  - destruct (decide (0 <= a)); [done|]. pose proof (proj2 (Ha (-1)) ltac:(lia)). nia.
  - apply Ha2. nia.
  - intros r Hr. rewrite Z.leb_le.
    pose proof (Z.div_mod (r * n) W ltac:(lia)). pose proof (Z.mod_pos_bound (r * n) W ltac:(lia)).
    pose proof (Ha r). pose proof (Ha2 r).
    set (d := r * n / W) in *. set (m := (r * n) mod W) in *. clearbody d m.
    split; [intros [? ->]; nia|]. intros. assert (d = v) as -> by nia. nia.
Qed.

(** * The period of the congruence *)

Definition affine (A C x : Z) : Z := A * x + C.

Lemma affine_iter_mod A C m k x y : 0 < m ->
  x mod m = y mod m -> Nat.iter k (affine A C) x mod m = Nat.iter k (affine A C) y mod m.
Proof.
  intros Hm E. induction k as [|k IH]; [done|]. simpl. unfold affine at 1 3.
  by rewrite Z.add_mod, Z.mul_mod, IH, <- Z.mul_mod, <- Z.add_mod by lia.
Qed.

Lemma iter_ext {A} (f g : A -> A) k x : (forall x, f x = g x) -> Nat.iter k f x = Nat.iter k g x.
Proof. intros E. induction k as [|k IH]; [done|]. simpl. by rewrite IH, E. Qed.

Lemma iter_iter {A} (f : A -> A) j k x : Nat.iter k (fun x => Nat.iter j f x) x = Nat.iter (k * j) f x.
Proof. induction k as [|k IH]; [done|]. simpl. by rewrite IH, <- Nat.iter_add. Qed.

(** Two steps of a full congruence, on the numbers of one parity, are a full
    congruence on their halves. *)
Lemma affine_halves A C e : A mod 4 = 1 -> C mod 2 = 1 ->
  exists A' C', A' mod 4 = 1 /\ C' mod 2 = 1 /\
    forall k u, Nat.iter (k * 2) (affine A C) (2 * u + e) = 2 * Nat.iter k (affine A' C') u + e.
Proof.
  intros HA HC. pose proof (Z.div_mod A 4). pose proof (Z.div_mod C 2).
  set (a := A / 4) in *. set (c := C / 2) in *.
  exists (A * A), ((8 * a * a + 4 * a) * e + (2 * a + 1) * C).
  split; [|split].
  - rewrite Z.mul_mod, HA; done.
  - replace (_ + _) with (1 + (c + a * C + (4 * a * a + 2 * a) * e) * 2) by lia.
    by rewrite Z.mod_add.
  - intros k u. rewrite <- iter_iter. induction k as [|k IH]; [done|].
    rewrite !Nat.iter_succ, IH. generalize (Nat.iter k (affine (A * A) ((8 * a * a + 4 * a) * e + (2 * a + 1) * C)) u).
    intros z. simpl. unfold affine. replace A with (4 * a + 1) by lia. ring.
Qed.

Lemma mod_double a b m : 0 < m -> (2 * a + b) mod (2 * m) = (2 * (a mod m) + b) mod (2 * m).
Proof.
  intros Hm. pose proof (Z.div_mod a m ltac:(lia)) as E.
  replace (2 * a + b) with (2 * (a mod m) + b + (a / m) * (2 * m)) by lia.
  by rewrite Z.mod_add by lia.
Qed.

Lemma affine_reach j i A C x y :
  A mod 4 = 1 -> C mod 2 = 1 -> x mod 2 ^ Z.of_nat i = y mod 2 ^ Z.of_nat i ->
  exists k, Nat.iter (k * 2 ^ i) (affine A C) x mod 2 ^ Z.of_nat j = y mod 2 ^ Z.of_nat j.
Proof.
  revert i A C x y. induction j as [|j IH]; intros i A C x y HA HC Hxy.
  { exists 0%nat. by rewrite !Z.mod_1_r. }
  assert (Hp : 0 < 2 ^ Z.of_nat j) by (apply Z.pow_pos_nonneg; lia).
  assert (Hhalf : forall i x, x mod 2 ^ Z.of_nat (S i) = y mod 2 ^ Z.of_nat (S i) ->
    exists k, Nat.iter (k * 2 ^ S i) (affine A C) x mod 2 ^ Z.of_nat (S j) = y mod 2 ^ Z.of_nat (S j)).
  { clear i x Hxy. intros i x. assert (0 < 2 ^ Z.of_nat i) by (apply Z.pow_pos_nonneg; lia).
    rewrite !Nat2Z.inj_succ, !Z.pow_succ_r by lia. intros Hxy.
    pose proof (Z.div_mod x 2 ltac:(lia)) as Ex. pose proof (Z.div_mod y 2 ltac:(lia)) as Ey.
    assert (He : x mod 2 = y mod 2).
    { rewrite <- (Z.mod_mod_divide x (2 * 2 ^ Z.of_nat i) 2), Hxy by apply Z.divide_factor_l.
      by apply Z.mod_mod_divide, Z.divide_factor_l. }
    pose proof (Z.mod_pos_bound y 2 ltac:(lia)).
    rewrite He in Ex. set (e := y mod 2) in *. set (u := x / 2) in *. set (v := y / 2) in *.
    destruct (affine_halves A C e HA HC) as (A' & C' & HA' & HC' & Hit).
    destruct (IH i A' C' u v) as [k Hk]; [done..| |].
    - rewrite Ex, Ey, (mod_double u), (mod_double v) in Hxy by lia.
      pose proof (Z.mod_pos_bound u _ H). pose proof (Z.mod_pos_bound v _ H).
      rewrite (Z.mod_small (_ + e) (2 * _)), (Z.mod_small (_ + e) (2 * _)) in Hxy by lia. lia.
    - exists k. rewrite Ex, Ey. replace (k * 2 ^ S i)%nat with (k * 2 ^ i * 2)%nat by (simpl; lia).
      rewrite Hit, mod_double, Hk, <- mod_double by done. done. }
  destruct i as [|i]; [|by apply Hhalf].
  destruct (decide (x mod 2 = y mod 2)) as [E|E].
  - destruct (Hhalf 0%nat x E) as [k Hk]. exists (k * 2)%nat. by rewrite Nat.mul_1_r.
  - destruct (Hhalf 0%nat (affine A C x)) as [k Hk].
    + change (2 ^ Z.of_nat 1) with 2. unfold affine.
      assert (HA2 : A mod 2 = 1) by (rewrite <- (Z.mod_mod_divide A 4 2), HA; [done|by exists 2]).
      rewrite Z.add_mod, Z.mul_mod, HA2, HC by done.
      pose proof (Z.mod_pos_bound x 2 ltac:(lia)). pose proof (Z.mod_pos_bound y 2 ltac:(lia)).
      assert (x mod 2 = 0 /\ y mod 2 = 1 \/ x mod 2 = 1 /\ y mod 2 = 0) as [[-> ->]|[-> ->]] by lia; done.
    + exists (S (k * 2)). by rewrite Nat.mul_1_r, Nat.iter_succ_r.
Qed.

Lemma next_iter k s : word 64 s ->
  Nat.iter k next s = Nat.iter k (affine MULTIPLIER INCREMENT) s mod 2 ^ 64.
Proof.
  intros Hs. induction k as [|k IH]; [by rewrite Z.mod_small|].
  rewrite !Nat.iter_succ, IH. unfold next, wrapping_add, wrapping_mul, wrap, affine at 2.
  by rewrite Zplus_mod_idemp_l, Zplus_mod, Zmult_mod_idemp_l, <- Zplus_mod, Z.mul_comm.
Qed.

(** Iterating [2 ^ i] steps at a time visits every state that agrees on the
    low [i] bits. *)
Lemma next_reach i x y : word 64 x -> word 64 y -> x mod 2 ^ Z.of_nat i = y mod 2 ^ Z.of_nat i ->
  exists k, Nat.iter k (fun s => Nat.iter (2 ^ i) next s) x = y.
Proof.
  intros Hx Hy E. destruct (affine_reach 64 i MULTIPLIER INCREMENT x y) as [k Hk]; [done..|].
  exists k. rewrite iter_iter, next_iter by done. change (2 ^ 64) with (2 ^ Z.of_nat 64).
  by rewrite Hk, Z.mod_small.
Qed.

Lemma first_accepted_ends i w gen n s y :
  (forall s, snd (gen s) = Nat.iter (2 ^ i) next s) ->
  word 64 s -> word 64 y -> s mod 2 ^ Z.of_nat i = y mod 2 ^ Z.of_nat i ->
  accepted w n (fst (gen y)) = true ->
  exists k v, forall fuel, (k <= fuel)%nat -> first_accepted fuel w gen n s = Returns v.
Proof.
  intros Hg Hs Hy E Hacc. destruct (next_reach i s y Hs Hy E) as [k Hk].
  destruct (first_accepted_reach (w := w) (gen := gen) n k s) as [v Hv].
  - by rewrite (iter_ext _ (fun s => Nat.iter (2 ^ i) next s) _ _ Hg), Hk.
  - exists k, v. intros fuel Hle. by eapply first_accepted_mono.
Qed.

Lemma accepted_small w n r : 0 < n -> 1 <= r -> r * n < 2 ^ w -> accepted w n r = true.
Proof.
  intros. unfold accepted. pose proof (Z.mod_pos_bound (2 ^ w) n ltac:(lia)).
  rewrite wrap_small by nia. apply Z.leb_le. nia.
Qed.

(** The draw after which an accepted one is certain. *)
Definition ends (gen_below : nat -> Z -> Z -> outcome (Z * Z)) (n s : Z) : Prop :=
  exists k v, forall fuel, (k <= fuel)%nat -> gen_below fuel n s = Returns v.

Lemma gen_mod_ends i w gen mul_high n s y : 0 < w -> generator w gen mul_high -> 0 < n < 2 ^ w ->
  (forall s, snd (gen s) = Nat.iter (2 ^ i) next s) ->
  word 64 s -> word 64 y -> s mod 2 ^ Z.of_nat i = y mod 2 ^ Z.of_nat i ->
  1 <= fst (gen y) -> fst (gen y) * n < 2 ^ w ->
  ends (fun fuel => gen_mod fuel w gen mul_high) n s.
Proof.
  intros Hw Hg Hn Hi Hs Hy E H1 H2.
  destruct (first_accepted_ends i w gen n s y) as (k & v & Hk); [done..| |].
  - apply accepted_small; [lia|done..].
  - exists k, v. intros fuel Hle. rewrite (gen_mod_spec Hw Hg) by done. by apply Hk.
Qed.

Lemma gen_mod_u32_ends n s : 0 < n < 2 ^ 32 -> word 64 s -> ends gen_mod_u32 n s.
Proof.
  intros Hn Hs. apply (gen_mod_ends 0 _ _ _ _ _ (2 ^ 27)); try done; [apply gen32|..].
  - by rewrite !Z.mod_1_r.
  - replace (fst (gen_u32 (2 ^ 27))) with 1 by by vm_compute. lia.
Qed.

Lemma gen_mod_u64_ends n s : 0 < n <= 2 ^ 32 -> word 64 s -> ends gen_mod_u64 n s.
Proof.
  intros Hn Hs. pose proof (Z.mod_pos_bound s 2 ltac:(lia)) as Hb.
  assert (forall y, y = 0 \/ y = 1 -> 1 <= fst (gen_u64 y) < 2 ^ 32) as Hy.
  { intros y [->| ->]; by vm_compute. }
  specialize (Hy (s mod 2) ltac:(lia)).
  apply (gen_mod_ends 1 _ _ _ _ _ (s mod 2)); try done; try lia; [apply gen64| |nia].
  symmetry. apply Z.mod_mod. lia.
Qed.

Lemma iter_4 {A} (f : A -> A) x : Nat.iter (2 ^ 2) f x = f (f (f (f x))).
Proof. reflexivity. Qed.

Lemma gen_mod_u128_ends n s : 0 < n <= 2 ^ 32 -> word 64 s -> ends gen_mod_u128 n s.
Proof.
  intros Hn Hs. pose proof (Z.mod_pos_bound s 4 ltac:(lia)) as Hb.
  assert (forall y, y = 0 \/ y = 1 \/ y = 2 \/ y = 3 -> 1 <= fst (gen_u128 y) < 2 ^ 96) as Hy.
  { intros y [->|[->|[->| ->]]]; by vm_compute. }
  specialize (Hy (s mod 4) ltac:(lia)).
  apply (gen_mod_ends 2 _ _ _ _ _ (s mod 4)); [lia|apply gen128|lia| |done|lia| |lia|nia].
  { intros s'. rewrite gen_u128_eq, iter_4. reflexivity. }
  symmetry. apply Z.mod_mod. lia.
Qed.

(** The draws that are accepted give every value in the same number of
    cases. *)
Definition uniform (w n : Z) : Prop :=
  forall v, 0 <= v < n -> exists a, 0 <= a /\ a + 2 ^ w / n <= 2 ^ w /\
    forall r, word w r -> (accepted w n r = true /\ r * n / 2 ^ w = v) <-> a <= r < a + 2 ^ w / n.

(** C36: the generator steps through all [2 ^ 64] states; [gen_mod_u32],
    [gen_mod_u64] and [gen_mod_u128] return the high half of [r * n] for the
    first draw [r] that their test accepts, without an overflow in the
    four-product [mul_high_u128]; the accepted draws give every value below
    [n] equally often, [2 ^ w / n] times each; and from every state a draw is
    accepted, for every 32-bit [n], and for [n] up to [2 ^ 32] in the wider
    generators. *)
Theorem rander_draws (s : Z) : word 64 s ->
  (forall y, word 64 y -> exists k, Nat.iter k next s = y) /\
  (forall n, 0 < n < 2 ^ 32 -> uniform 32 n /\
    (forall fuel, gen_mod_u32 fuel n s = first_accepted fuel 32 gen_u32 n s) /\ ends gen_mod_u32 n s) /\
  (forall n, 0 < n < 2 ^ 64 -> uniform 64 n /\
    (forall fuel, gen_mod_u64 fuel n s = first_accepted fuel 64 gen_u64 n s) /\
    (n <= 2 ^ 32 -> ends gen_mod_u64 n s)) /\
  (forall n, 0 < n < 2 ^ 128 -> uniform 128 n /\
    (forall fuel, gen_mod_u128 fuel n s = first_accepted fuel 128 gen_u128 n s) /\
    (n <= 2 ^ 32 -> ends gen_mod_u128 n s)).
Proof.
  intros Hs. split; [|split; [|split]].
  - intros y Hy. destruct (next_reach 0 s y Hs Hy) as [k Hk]; [by rewrite !Z.mod_1_r|]. by exists k.
  - intros n Hn. split; [intros v Hv; by apply accepted_interval|]. split; [|by apply gen_mod_u32_ends].
    intros fuel. exact (gen_mod_spec (w := 32) ltac:(lia) gen32 n Hn fuel s).
  - intros n Hn. split; [intros v Hv; by apply accepted_interval|]. split.
    + intros fuel. exact (gen_mod_spec (w := 64) ltac:(lia) gen64 n Hn fuel s).
    + intros. apply gen_mod_u64_ends; [lia|done].
  - intros n Hn. split; [intros v Hv; by apply accepted_interval|]. split.
    + intros fuel. exact (gen_mod_spec (w := 128) ltac:(lia) gen128 n Hn fuel s).
    + intros. apply gen_mod_u128_ends; [lia|done].
Qed.

Lemma rander_draws_witness :
  word 64 42 /\ gen_mod_u32 3 6 42 = first_accepted 3 32 gen_u32 6 42 /\
  gen_mod_u32 3 6 42 = Returns (2, 4159066171780167020) /\ (exists k, Nat.iter k next 42 = 7).
Proof.
  destruct (rander_draws 42 ltac:(lia)) as (Hp & H32 & _).
  split; [lia|]. split; [|split].
  - destruct (H32 6 ltac:(lia)) as (_ & Hf & _). exact (Hf 3%nat).
  - by vm_compute.
  - apply Hp. lia.
Defined.

(** * Ranges *)

Definition int_types : list int_type :=
  [u8_t; i8_t; u16_t; i16_t; u32_t; i32_t; u64_t; i64_t; u128_t; i128_t; usize_t; isize_t].

Definition of_type (ty : int_type) (x : Z) : Prop := type_MIN ty <= x <= type_MAX ty.

Record int_ok (ty : int_type) : Prop := {
  int_bits : 0 < bits ty <= width ty;
  int_32 : bits ty < width ty -> width ty = 32;
  int_gen : exists mul_high, generator (width ty) (gen ty) mul_high /\
    gen_below ty = fun fuel => gen_mod fuel (width ty) (gen ty) mul_high;
  int_ends n s : 0 < n <= 2 ^ 32 -> n < 2 ^ width ty -> word 64 s -> ends (gen_below ty) n s }.

Lemma int_types_ok ty : ty ∈ int_types -> int_ok ty.
Proof.
  assert (forall b sg, 0 < b <= 32 -> int_ok (small b sg)) as Hsmall.
  { intros b sg Hb. split; simpl; try lia.
    - exists mul_high_u32. split; [apply gen32|done].
    - intros. apply gen_mod_u32_ends; lia || done. }
  assert (forall sg, int_ok (mkInt 64 sg 64 gen_u64 gen_mod_u64)) as H64.
  { intros sg. split; simpl; try lia.
    - exists mul_high_u64. split; [apply gen64|done].
    - intros. apply gen_mod_u64_ends; lia || done. }
  assert (forall sg, int_ok (mkInt 128 sg 128 gen_u128 gen_mod_u128)) as H128.
  { intros sg. split; simpl; try lia.
    - exists mul_high_u128. split; [apply gen128|done].
    - intros. apply gen_mod_u128_ends; lia || done. }
  unfold int_types. rewrite !elem_of_cons, elem_of_nil.
  intros Hty. repeat destruct Hty as [->|Hty]; try apply H64; try apply H128; try (apply Hsmall; lia). done.
Qed.

Section range.
  Context {ty : int_type} (Hty : int_ok ty).

Lemma type_span : type_MAX ty - type_MIN ty = 2 ^ bits ty - 1 /\ type_MIN ty <= 0 <= type_MAX ty.
  Proof.
    pose proof (int_bits _ Hty). unfold type_MAX, type_MIN.
    replace (2 ^ bits ty) with (2 * 2 ^ (bits ty - 1)) by (rewrite <- Z.pow_succ_r by lia; f_equal; lia).
    pose proof (Z.pow_pos_nonneg 2 (bits ty - 1)). destruct (signed ty); lia.
  Qed.

Lemma as_type_of x : of_type ty (as_type ty x).
  Proof.
    pose proof type_span. pose proof (int_bits _ Hty). pose proof (Z.pow_pos_nonneg 2 (bits ty)).
    unfold of_type, as_type. pose proof (Z.mod_pos_bound (x - type_MIN ty) (2 ^ bits ty)). lia.
  Qed.
Lemma as_type_small x : of_type ty x -> as_type ty x = x.
  Proof. intros [? ?]. pose proof type_span. unfold as_type. rewrite Z.mod_small; lia. Qed.
Lemma as_type_mod x : as_type ty x mod 2 ^ bits ty = x mod 2 ^ bits ty.
  Proof. unfold as_type. rewrite Zplus_mod_idemp_l. f_equal. lia. Qed.
Lemma as_type_eq x y : x mod 2 ^ bits ty = y mod 2 ^ bits ty -> as_type ty x = as_type ty y.
  Proof. intros E. unfold as_type. by rewrite Zminus_mod, E, <- Zminus_mod. Qed.
Lemma as_type_add x y : as_type ty (x + as_type ty y) = as_type ty (x + y).
  Proof. apply as_type_eq. by rewrite <- Zplus_mod_idemp_r, as_type_mod, Zplus_mod_idemp_r. Qed.

  (** The least and the greatest number that satisfy a bound. *)
Definition lowest (b : Bound) : Z :=
    match b with Unbounded => type_MIN ty | Included x => x | Excluded x => x + 1 end.
Definition highest (b : Bound) : Z :=
    match b with Unbounded => type_MAX ty | Included x => x | Excluded x => x - 1 end.
Definition bound_of (b : Bound) : Prop :=
    match b with Unbounded => True | Included x | Excluded x => of_type ty x end.

Lemma rand_integer_eq fuel sb eb s : bound_of sb -> bound_of eb ->
    rand_integer fuel ty sb eb s =
    let low := lowest sb in let high := highest eb in
    if high <? low then Panics
    else if (low =? type_MIN ty) && (high =? type_MAX ty) then
      Returns (as_type ty (fst (gen ty s)), snd (gen ty s))
    else '(r, s) ← gen_below ty fuel (wrap (width ty) (as_type ty (high - low + 1))) s;
         Returns (as_type ty (low + r), s).
  Proof.
    intros Hs He. pose proof type_span.
    assert (E : rand_integer fuel ty sb eb s =
      if highest eb <? lowest sb then Panics
      else if (lowest sb =? type_MIN ty) && (highest eb =? type_MAX ty) then
        let '(r, s) := gen ty s in Returns (as_type ty r, s)
      else '(r, s) ← gen_below ty fuel (wrap (width ty)
             (as_type ty (as_type ty (highest eb - lowest sb) + 1))) s;
           Returns (as_type ty (lowest sb + as_type ty r), s)).
    { unfold rand_integer. destruct sb as [|l|l]; destruct eb as [|h|h]; simpl in *; unfold of_type in *;
        repeat (match goal with |- context [?a <=? ?b] => destruct (Z.leb_spec a b) end; simpl);
        try done; rewrite (proj2 (Z.ltb_lt _ _)); done || lia. }
    rewrite E. cbv zeta. case_match; [done|]. case_match; [by destruct (gen ty s)|].
    rewrite (Z.add_comm (as_type ty _)), as_type_add, (Z.add_comm 1).
    generalize (gen_below ty fuel (wrap (width ty) (as_type ty (highest eb - lowest sb + 1))) s).
    intros [[r s']| |]; simpl; [|done..]. by rewrite as_type_add.
  Qed.

  (** The length of the range survives its conversion to the word of the
      generator. *)
Definition length_fits (sb eb : Bound) : Prop :=
    signed ty = false \/ bits ty = width ty \/ highest eb - lowest sb + 1 <= type_MAX ty.

Lemma length_word sb eb :
    bound_of sb -> bound_of eb -> lowest sb <= highest eb ->
    ~ (lowest sb = type_MIN ty /\ highest eb = type_MAX ty) ->
    let n := wrap (width ty) (as_type ty (highest eb - lowest sb + 1)) in
    0 < n < 2 ^ width ty /\ (length_fits sb eb -> n = highest eb - lowest sb + 1).
  Proof.
    intros Hs He Hle Hfull n. pose proof type_span. pose proof (int_bits _ Hty).
    assert (Hl : type_MIN ty <= lowest sb) by (destruct sb; simpl in *; unfold of_type in *; lia).
    assert (Hh : highest eb <= type_MAX ty) by (destruct eb; simpl in *; unfold of_type in *; lia).
    set (L := highest eb - lowest sb + 1) in *. assert (0 < L < 2 ^ bits ty) by lia.
    pose proof (Z.pow_le_mono_r 2 (bits ty) (width ty) ltac:(lia) ltac:(lia)).
    assert (Hmod : n mod 2 ^ bits ty = L).
    { unfold n, wrap. rewrite Z.mod_mod_divide.
      - by rewrite as_type_mod, Z.mod_small by lia.
      - exists (2 ^ (width ty - bits ty)). rewrite <- Z.pow_add_r by lia. f_equal. lia. }
    pose proof (wrap_range (width ty) (as_type ty L) ltac:(lia)).
    split.
    - fold n in H3. destruct (decide (n = 0)) as [E|]; [|lia]. rewrite E, Z.mod_0_l in Hmod by lia. lia.
    - intros [Hu|[Hw|Hm]].
      + unfold n. rewrite as_type_small by (unfold of_type, type_MIN, type_MAX in *; rewrite Hu in *; lia).
        apply wrap_small. lia.
      + unfold n, wrap. rewrite <- Hw, as_type_mod. apply Z.mod_small. lia.
      + unfold n. rewrite as_type_small by (unfold of_type in *; lia). apply wrap_small. lia.
  Qed.
End range.

(** [RangeBounds::contains]. *)
Definition contains (sb eb : Bound) (x : Z) : Prop :=
  match sb with Unbounded => True | Included l => l <= x | Excluded l => l < x end /\
  match eb with Unbounded => True | Included h => x <= h | Excluded h => x < h end.

Lemma contains_iff ty sb eb x : of_type ty x ->
  contains sb eb x <-> lowest (ty := ty) sb <= x <= highest (ty := ty) eb.
Proof. unfold of_type, contains. destruct sb, eb; simpl; lia. Qed.

Section drawing.
  Context {ty : int_type} (Hty : int_ok ty) (sb eb : Bound) (Hsb : bound_of (ty := ty) sb) (Heb : bound_of (ty := ty) eb).
  Notation lo := (lowest (ty := ty) sb).
  Notation hi := (highest (ty := ty) eb).


Lemma bounds_of : type_MIN ty <= lo /\ hi <= type_MAX ty.
  Proof. destruct sb, eb; simpl in *; unfold of_type in *; lia. Qed.

Definition full : bool := (lo =? type_MIN ty) && (hi =? type_MAX ty).
Lemma not_full : full = false -> ~ (lo = type_MIN ty /\ hi = type_MAX ty).
  Proof. unfold full. intros Hf [E1 E2]. rewrite E1, E2, !Z.eqb_refl in Hf. done. Qed.

Lemma rand_integer_in fuel s : lo <= hi ->
    match rand_integer fuel ty sb eb s with
    | Returns (x, s') => of_type ty x /\ word 64 s' /\ (length_fits (ty := ty) sb eb -> lo <= x <= hi)
    | Panics => False
    | Spins => True
    end.
  Proof.
    intros Hle. rewrite (rand_integer_eq Hty) by done. cbv zeta.
    destruct (Z.ltb_spec hi lo); [lia|]. fold full. pose proof bounds_of.
    destruct (int_gen _ Hty) as (mul & Hg & Eg).
    destruct full eqn:Hf.
    - apply andb_true_iff in Hf as [?%Z.eqb_eq ?%Z.eqb_eq]. pose proof (as_type_of Hty (fst (gen ty s))) as [? ?].
      split; [done|]. split; [apply (gen_state _ _ _ Hg)|lia].
    - destruct (length_word Hty sb eb) as [Hn Hfit]; [done..|by apply not_full|].
      pose proof (int_bits _ Hty). rewrite Eg, (gen_mod_spec (w := width ty) ltac:(lia) Hg) by done.
      pose proof (first_accepted_range (w := width ty) ltac:(lia) Hg _ Hn fuel s) as Hr.
      destruct (first_accepted _ _ _ _ _) as [[r s']| |]; simpl; [|done..].
      destruct Hr as [Hr Hs']. split; [by apply as_type_of|]. split; [done|].
      intros Hfits. rewrite Hfit in Hr by done. rewrite as_type_small; [lia|done|]. unfold of_type. lia.
  Qed.

Lemma rand_integer_empty : hi < lo -> forall fuel s, rand_integer fuel ty sb eb s = Panics.
  Proof. intros Hlt fuel s. rewrite (rand_integer_eq Hty) by done. cbv zeta. by rewrite (proj2 (Z.ltb_lt _ _)). Qed.

Lemma rand_integer_ends s : word 64 s -> lo <= hi -> width ty = 32 \/ hi - lo < 2 ^ 32 \/ full = true ->
    exists k v, forall fuel, (k <= fuel)%nat -> rand_integer fuel ty sb eb s = Returns v.
  Proof.
    intros Hs Hle Hlen.
    assert (He : forall fuel, rand_integer fuel ty sb eb s = _) by (intros; by apply (rand_integer_eq Hty)).
    setoid_rewrite He. cbv zeta. destruct (Z.ltb_spec hi lo); [lia|]. fold full.
    destruct full eqn:Hf; [by exists 0%nat, (as_type ty (fst (gen ty s)), snd (gen ty s))|].
    destruct (length_word Hty sb eb) as [Hn Hfit]; [done..|by apply not_full|].
    pose proof (int_bits _ Hty).
    destruct (int_ends _ Hty (wrap (width ty) (as_type ty (hi - lo + 1))) s) as (k & [r s'] & Hk); [|by apply Hn|done|].
    - split; [apply Hn|]. destruct Hlen as [E|[Hlt|]]; [rewrite E in *; lia| |done].
      destruct (decide (bits ty = width ty)); [rewrite Hfit; [lia|by right; left]|].
      pose proof (int_32 _ Hty ltac:(lia)) as E. rewrite E in *. lia.
    - exists k, (as_type ty (lo + r), s'). intros fuel Hle'. by rewrite Hk.
  Qed.
End drawing.

(** C37: each integer method panics exactly on an empty range, returns only
    numbers of its type, and numbers of the range when the length of the
    range fits its type; it returns for every range of at most [2 ^ 32]
    numbers.  A signed length that does not fit is sign-extended to the word
    of the generator, and [i8(-100..=100)] may answer 112. *)
Theorem rander_ranges (ty : int_type) (sb eb : Bound) (s : Z) :
  ty ∈ int_types -> bound_of (ty := ty) sb -> bound_of (ty := ty) eb -> word 64 s ->
  (* an empty range panics, and nothing else does *)
  (forall fuel, rand_integer fuel ty sb eb s = Panics <-> forall x, of_type ty x -> ~ contains sb eb x) /\
  (* what is returned is of the type, and in the range when its length fits *)
  (forall fuel x s', rand_integer fuel ty sb eb s = Returns (x, s') ->
    of_type ty x /\ word 64 s' /\ (length_fits (ty := ty) sb eb -> contains sb eb x)) /\
  (* and a value is returned, for ranges of at most 2^32 numbers *)
  ((exists x, of_type ty x /\ contains sb eb x) ->
    width ty = 32 \/ highest (ty := ty) eb - lowest (ty := ty) sb < 2 ^ 32 \/
      (lowest (ty := ty) sb = type_MIN ty /\ highest (ty := ty) eb = type_MAX ty) ->
    exists k v, forall fuel, (k <= fuel)%nat -> rand_integer fuel ty sb eb s = Returns v) /\
  (* a signed length that does not fit leaves the range *)
  (exists s0 x s', word 64 s0 /\ rand_integer 10 i8_t (Included (-100)) (Included 100) s0 = Returns (x, s') /\ 100 < x).
Proof.
  intros Hty%int_types_ok Hsb Heb Hs. pose proof (bounds_of sb eb Hsb Heb).
  split; [|split; [|split]].
  - intros fuel. destruct (Z.ltb_spec (highest (ty := ty) eb) (lowest (ty := ty) sb)) as [Hlt|Hle].
    + split; [|by intros; apply rand_integer_empty].
      intros _ x Hx. rewrite contains_iff by done. lia.
    + pose proof (rand_integer_in Hty sb eb Hsb Heb fuel s Hle) as Hin. split.
      * intros E. by rewrite E in Hin.
      * intros Hno. exfalso. assert (Hx : of_type ty (lowest (ty := ty) sb)) by (unfold of_type; lia).
        apply (Hno _ Hx), (proj2 (contains_iff ty sb eb _ Hx)). lia.
  - intros fuel x s' E. destruct (Z.ltb_spec (highest (ty := ty) eb) (lowest (ty := ty) sb)) as [Hlt|Hle].
    + by rewrite rand_integer_empty in E.
    + pose proof (rand_integer_in Hty sb eb Hsb Heb fuel s Hle) as Hin. rewrite E in Hin.
      destruct Hin as (Hx & Hs' & Hin). do 2 (split; [done|]). intros Hf. by apply (proj2 (contains_iff ty sb eb _ Hx)), Hin.
  - intros (x & Hx & Hc) Hlen. rewrite (contains_iff ty) in Hc by done.
    apply (rand_integer_ends Hty); [done..|lia|]. destruct Hlen as [?|[?|[E1 E2]]]; [tauto..|].
    right; right. unfold full. by rewrite E1, E2, !Z.eqb_refl.
  - by eexists 3, 112, _.
Qed.

Lemma rander_ranges_witness :
  u8_t ∈ int_types /\ (forall fuel x s', rand_integer fuel u8_t (Included 10) (Excluded 20) 5 = Returns (x, s') -> 10 <= x < 20) /\
  (exists k v, forall fuel, (k <= fuel)%nat -> rand_integer fuel u8_t (Included 10) (Excluded 20) 5 = Returns v).
Proof.
  assert (Hin : u8_t ∈ int_types) by (unfold int_types; rewrite elem_of_cons; by left).
  assert (Hsb : bound_of (ty := u8_t) (Included 10)) by (split; by vm_compute).
  assert (Heb : bound_of (ty := u8_t) (Excluded 20)) by (split; by vm_compute).
  destruct (rander_ranges u8_t (Included 10) (Excluded 20) 5 Hin Hsb Heb ltac:(lia)) as (_ & H2 & H3 & _).
  split; [done|]. split.
  - intros fuel x s' E. destruct (H2 fuel x s' E) as (_ & _ & Hc). apply Hc. by left.
  - apply H3; [|by left]. exists 12. repeat split; by vm_compute.
Defined.

(** * What is built on the ranges *)

(** The draw of an index below [len]. *)
Lemma below_ends ty len s : int_ok ty -> signed ty = false -> 0 < len <= 2 ^ 32 -> len <= type_MAX ty -> word 64 s ->
  exists k i s', 0 <= i < len /\ word 64 s' /\
    forall fuel, (k <= fuel)%nat -> rand_integer fuel ty Unbounded (Excluded len) s = Returns (i, s').
Proof.
  intros Hty Hu Hlen Hmax Hs. assert (type_MIN ty = 0) as E0 by (unfold type_MIN; by rewrite Hu).
  assert (Hb : bound_of (ty := ty) (Excluded len)) by (simpl; unfold of_type; lia).
  destruct (rand_integer_ends Hty Unbounded (Excluded len) I Hb s) as (k & [i s'] & Hk); simpl; [done|lia|lia|].
  pose proof (rand_integer_in Hty Unbounded (Excluded len) I Hb k s ltac:(simpl; lia)) as Hin.
  rewrite Hk in Hin by done. destruct Hin as (_ & Hs' & Hin).
  specialize (Hin (or_introl Hu)). simpl in Hin. exists k, i, s'. split; [lia|]. done.
Qed.

Lemma pick_ends (chars : list ascii) s : (0 < List.length chars < 256)%nat -> word 64 s ->
  exists k c s', c ∈ chars /\ word 64 s' /\ forall fuel, (k <= fuel)%nat -> pick fuel chars s = Returns (c, s').
Proof.
  intros Hlen Hs. assert (Hty : int_ok u8_t) by (apply int_types_ok; unfold int_types; rewrite !elem_of_cons; tauto).
  destruct (below_ends u8_t (Z.of_nat (List.length chars)) s Hty) as (k & i & s' & Hi & Hs' & Hk);
    [done|lia|unfold type_MAX; simpl; lia|done|].
  destruct (lookup_lt_is_Some_2 chars (Z.to_nat i)) as [c Hc]; [lia|].
  exists k, c, s'. split; [by eapply list_elem_of_lookup_2|]. split; [done|].
  intros fuel Hle. unfold pick. rewrite (as_type_small Hty) by (unfold of_type, type_MIN, type_MAX; simpl; lia).
  rewrite Hk by done. simpl. by rewrite Hc.
Qed.

Definition ALNUM36 : list ascii := (DIGITS ++ LOWER)%list.

Lemma digit_char num : 0 <= num < 36 ->
  ALNUM36 !! Z.to_nat num = Some (ascii_of_N (Z.to_N (if num <? 10 then 48 + num else 97 + num - 10))).
Proof.
  intros Hn. assert (Forall (fun k => ALNUM36 !! Z.to_nat k =
    Some (ascii_of_N (Z.to_N (if k <? 10 then 48 + k else 97 + k - 10)))) (seqZ 0 36)) as Hall.
  { by repeat constructor. }
  rewrite Forall_forall in Hall. apply Hall. apply elem_of_seqZ. lia.
Qed.

Lemma swap_at_perm {A} i j (l : list A) : (i < List.length l)%nat -> (j < List.length l)%nat ->
  exists l', swap_at i j l = Returns l' /\ l ≡ₚ l'.
Proof.
  intros [x Hx]%lookup_lt_is_Some_2 [y Hy]%lookup_lt_is_Some_2. unfold swap_at. rewrite Hx, Hy.
  eexists. split; [done|]. symmetry. by apply Permutation_insert_swap.
Qed.

Lemma shuffle_from_ends {A} k i (l : list A) s :
  (i + k <= List.length l)%nat -> Z.of_nat (List.length l) <= 2 ^ 32 -> word 64 s ->
  exists f l' s', l ≡ₚ l' /\ word 64 s' /\ forall fuel, (f <= fuel)%nat -> shuffle_from fuel k i l s = Returns (l', s').
Proof.
  revert i l s. induction k as [|k IH]; intros i l s Hi Hlen Hs; [by exists 0%nat, l, s|].
  assert (Hty : int_ok usize_t) by (apply int_types_ok; unfold int_types; rewrite !elem_of_cons; tauto).
  assert (Hb : bound_of (ty := usize_t) (Included (Z.of_nat i))) by (simpl; unfold of_type, type_MIN, type_MAX; simpl; lia).
  destruct (rand_integer_ends Hty Unbounded (Included (Z.of_nat i)) I Hb s) as (f & [j s'] & Hf); simpl; [done| |right; left|].
  1,2: unfold type_MIN; simpl; lia.
  pose proof (rand_integer_in Hty Unbounded (Included (Z.of_nat i)) I Hb f s) as Hin.
  rewrite Hf in Hin by done. destruct Hin as (_ & Hs' & Hin); [simpl; unfold type_MIN; simpl; lia|].
  specialize (Hin (or_introl eq_refl)). simpl in Hin. unfold type_MIN in Hin. simpl in Hin.
  destruct (swap_at_perm i (Z.to_nat j) l) as (l1 & E1 & P1); [lia..|].
  rewrite (Permutation_length P1) in Hi, Hlen.
  destruct (IH (S i) l1 s') as (f' & l' & s'' & P' & Hs'' & Hf'); [lia|done..|].
  exists (Nat.max f f'), l', s''. split; [by rewrite P1|]. split; [done|].
  intros fuel Hle. simpl. rewrite Hf by lia. simpl. rewrite E1. simpl. apply Hf'. lia.
Qed.

Definition certainly {A} (draw : nat -> outcome (A * Z)) (P : A -> Prop) : Prop :=
  exists k a s', P a /\ word 64 s' /\ forall fuel, (k <= fuel)%nat -> draw fuel = Returns (a, s').

Lemma as_word ty x : 0 < bits ty -> signed ty = false -> word (bits ty) (as_type ty x).
Proof.
  intros Hb Hu. unfold as_type, type_MIN. rewrite Hu, Z.add_0_r. apply Z.mod_pos_bound.
  apply Z.pow_pos_nonneg; lia.
Qed.

Lemma mantissa e w x : 0 < e < w -> w - e > 1 -> word w x ->
  Z.shiftr (2 ^ (w - 2) - 2 ^ e + Z.shiftr x (w - e)) e = 2 ^ (w - 2 - e) - 1.
Proof.
  intros He Hwe Hx. pose proof (Z.pow_pos_nonneg 2 e). rewrite !Z.shiftr_div_pow2 by lia.
  assert (0 <= x / 2 ^ (w - e) < 2 ^ e).
  { split; [apply Z.div_pos; [lia|apply Z.pow_pos_nonneg; lia]|].
    apply Z.div_lt_upper_bound; [apply Z.pow_pos_nonneg; lia|].
    rewrite <- Z.pow_add_r by lia. replace (w - e + e) with w by lia. lia. }
  symmetry. apply (Z.div_unique_pos _ _ _ (x / 2 ^ (w - e))); [lia|].
  replace (w - 2) with (e + (w - 2 - e)) at 1 by lia. rewrite Z.pow_add_r by lia. ring.
Qed.


