(* ===== verification/Task.v ===== *)
(** [runtime/task/]: the task, its [Runnable], its [Task] handle and its
    wakers, around one heap block with a reference count and eight flags.

    The block holds the header (the state word and the awaiter cell), the
    schedule function, and the future or its output.  [TS] is the block
    ([word], [alive], [fut], [out], [cell]) and the handles nobody is using
    at the moment ([wakers], [runnables], [handle]); a thread takes the
    handles an operation consumes or borrows out of these and puts back what
    is left.  Every access to the block crashes when the block is free,
    dropping or polling a future that is gone, being polled or overwritten
    crashes, and so do reading an output that is not there and entering the
    awaiter cell while another thread is inside.

    [zst] says whether the schedule function has size zero (the code
    branches on it).  Polling the future and the schedule function are the
    environment: a poll may clone and wake its waker any number of times and
    then be ready, pending or panic; the schedule function stores the
    runnable where any thread finds it. *)

From S2P Require Import Prelude Conc.

(** * [state.rs] *)

Definition SCHEDULED : Z := Z.shiftl 1 0.
Definition RUNNING : Z := Z.shiftl 1 1.
Definition COMPLETED : Z := Z.shiftl 1 2.
Definition CLOSED : Z := Z.shiftl 1 3.
Definition TASK : Z := Z.shiftl 1 4.
Definition AWAITER : Z := Z.shiftl 1 5.
Definition REGISTERING : Z := Z.shiftl 1 6.
Definition NOTIFYING : Z := Z.shiftl 1 7.
Definition REFERENCE : Z := Z.shiftl 1 8.

(** * The block *)

Inductive future := FPresent | FPolled | FGone.

(** [inside]: a thread is accessing the awaiter cell; [woken]: the awaiters
    woken so far, last first; [leaked]: the block was freed with the future
    still in it. *)
Record TS := mkT {
  word : Z; alive : bool; fut : future; out : bool; cell : option nat; inside : bool;
  wakers : nat; runnables : nat; handle : bool; woken : list nat; leaked : bool }.

Definition set_word (w : Z) (σ : TS) : TS :=
  mkT w (alive σ) (fut σ) (out σ) (cell σ) (inside σ) (wakers σ) (runnables σ) (handle σ) (woken σ) (leaked σ).
Definition set_fut (f : future) (σ : TS) : TS :=
  mkT (word σ) (alive σ) f (out σ) (cell σ) (inside σ) (wakers σ) (runnables σ) (handle σ) (woken σ) (leaked σ).
Definition set_out (o : bool) (σ : TS) : TS :=
  mkT (word σ) (alive σ) (fut σ) o (cell σ) (inside σ) (wakers σ) (runnables σ) (handle σ) (woken σ) (leaked σ).
Definition set_cell (c : option nat) (i : bool) (σ : TS) : TS :=
  mkT (word σ) (alive σ) (fut σ) (out σ) c i (wakers σ) (runnables σ) (handle σ) (woken σ) (leaked σ).
Definition set_wakers (n : nat) (σ : TS) : TS :=
  mkT (word σ) (alive σ) (fut σ) (out σ) (cell σ) (inside σ) n (runnables σ) (handle σ) (woken σ) (leaked σ).
Definition set_runnables (n : nat) (σ : TS) : TS :=
  mkT (word σ) (alive σ) (fut σ) (out σ) (cell σ) (inside σ) (wakers σ) n (handle σ) (woken σ) (leaked σ).
Definition set_handle (b : bool) (σ : TS) : TS :=
  mkT (word σ) (alive σ) (fut σ) (out σ) (cell σ) (inside σ) (wakers σ) (runnables σ) b (woken σ) (leaked σ).
Definition add_woken (w : nat) (σ : TS) : TS :=
  mkT (word σ) (alive σ) (fut σ) (out σ) (cell σ) (inside σ) (wakers σ) (runnables σ) (handle σ) (w :: woken σ) (leaked σ).
Definition free (σ : TS) : TS :=
  mkT (word σ) false (fut σ) (out σ) (cell σ) (inside σ) (wakers σ) (runnables σ) (handle σ) (woken σ)
    (match fut σ with FGone => leaked σ | _ => true end).

(** An access to the block. *)
Definition access {A} (f : TS -> option (A * TS)) : prog TS A :=
  Act (fun σ => if alive σ then match f σ with
                               | Some (a, σ) => Some (σ, Ret a)
                               | None => Some (σ, Crash)
                               end
                else Some (σ, Crash)).

Definition trmw (f : Z -> Z) : prog TS Z := access (fun σ => Some (word σ, set_word (f (word σ)) σ)).
Definition tload : prog TS Z := trmw id.
Definition tfetch_add (x : Z) : prog TS Z := trmw (fun s => wrapping_add s x).
Definition tfetch_sub (x : Z) : prog TS Z := trmw (fun s => wrapping_sub s x).
Definition tfetch_or (x : Z) : prog TS Z := trmw (fun s => Z.lor s x).
Definition tfetch_and (x : Z) : prog TS Z := trmw (fun s => Z.land s x).
Definition tstore (x : Z) : prog TS unit := trmw (fun _ => x) ;; mret ().
Definition tcas (a b : Z) : prog TS (result Z Z) :=
  s ← trmw (fun s => if s =? a then b else s); mret (if s =? a then Ok s else Err s).
(** [compare_exchange_weak] may fail although the value matches. *)
Definition tcas_weak (a b : Z) : prog TS (result Z Z) :=
  spurious ← Pick Ret;
  if spurious : bool then s ← tload; mret (Err s) else tcas a b.

(** The awaiter cell is not atomic: entering and leaving are two steps. *)
Definition cell_enter : prog TS unit :=
  access (fun σ => if inside σ then None else Some ((), set_cell (cell σ) true σ)).
Definition cell_take : prog TS (option nat) :=
  cell_enter ;; access (fun σ => Some (cell σ, set_cell None false σ)).
Definition cell_put (w : nat) : prog TS unit :=
  cell_enter ;; access (fun σ => Some ((), set_cell (Some w) false σ)).

(** Waking an awaiter is a call out of the module. *)
Definition wake_awaiter (w : nat) : prog TS unit := atomic (fun σ => ((), add_woken w σ)).
Definition wake_option (w : option nat) : prog TS unit :=
  match w with Some w => wake_awaiter w | None => mret () end.

Definition drop_future : prog TS unit :=
  access (fun σ => match fut σ with FPresent => Some ((), set_fut FGone σ) | _ => None end).
(** The output lives where the future did. *)
Definition write_output : prog TS unit :=
  access (fun σ => match fut σ, out σ with FGone, false => Some ((), set_out true σ) | _, _ => None end).
(** Reading it out or dropping it in place. *)
Definition take_output : prog TS unit :=
  access (fun σ => if out σ then Some ((), set_out false σ) else None).
Definition destroy : prog TS unit := access (fun σ => Some ((), free σ)).

(** The handles. *)
Definition take_waker : prog TS unit :=
  await (fun σ => match wakers σ with O => None | S n => Some ((), set_wakers n σ) end).
Definition put_waker : prog TS unit := atomic (fun σ => ((), set_wakers (S (wakers σ)) σ)).
Definition take_runnable : prog TS unit :=
  await (fun σ => match runnables σ with O => None | S n => Some ((), set_runnables n σ) end).
Definition put_runnable : prog TS unit := atomic (fun σ => ((), set_runnables (S (runnables σ)) σ)).
Definition take_handle : prog TS unit :=
  await (fun σ => if handle σ then Some ((), set_handle false σ) else None).
Definition put_handle : prog TS unit := atomic (fun σ => ((), set_handle true σ)).

(** * [header.rs] *)

Definition take (current : option nat) : prog TS (option nat) :=
  state ← tfetch_or NOTIFYING;
  if negb (has state (Z.lor NOTIFYING REGISTERING)) then
    waker ← cell_take;
    tfetch_and (Z.land (wnot NOTIFYING) (wnot AWAITER)) ;;
    match waker, current with
    | Some w, None => mret (Some w)
    | Some w, Some c => mret (if w =? c then None else Some w)%nat
    | None, _ => mret None
    end
  else mret None.

Definition notify (current : option nat) : prog TS unit :=
  w ← take current; wake_option w.

(** The first loop of [register]; [None] when it returned early. *)
Fixpoint register_begin (fuel : nat) (waker : nat) (state : Z) : prog TS (option Z) :=
  match fuel with
  | O => OutOfFuel
  | S fuel =>
      if has state REGISTERING then Crash                        (* debug_assert *)
      else if has state NOTIFYING then wake_awaiter waker ;; mret None
      else
        r ← tcas_weak state (Z.lor state REGISTERING);
        match r with
        | Ok _ => mret (Some (Z.lor state REGISTERING))
        | Err s => register_begin fuel waker s
        end
  end.

(** The second loop; [w] is the local [waker]. *)
Fixpoint register_end (fuel : nat) (w : option nat) (state : Z) : prog TS unit :=
  match fuel with
  | O => OutOfFuel
  | S fuel =>
      w ← (if has state NOTIFYING then
             o ← cell_take; mret (match o with Some w => Some w | None => w end)
           else mret w);
      let new := match w with
                 | None => Z.lor (Z.land (Z.land state (wnot NOTIFYING)) (wnot REGISTERING)) AWAITER
                 | Some _ => Z.land (Z.land (Z.land state (wnot NOTIFYING)) (wnot REGISTERING)) (wnot AWAITER)
                 end in
      r ← tcas_weak state new;
      match r with
      | Ok _ => wake_option w
      | Err s => register_end fuel w s
      end
  end.

Definition register (fuel : nat) (waker : nat) : prog TS unit :=
  state ← tfetch_or 0;
  r ← register_begin fuel waker state;
  match r with
  | None => mret ()
  | Some state => cell_put waker ;; register_end fuel None state
  end.

(** * [raw.rs] *)

Section raw.
Context (zst : bool).

(** The call of the schedule function: the closure's data is in the block unless it has
    none; it is in use until the call returns. *)
Definition closure_access {A} (f : TS -> A * TS) : prog TS A :=
  if zst then atomic f else access (fun σ => Some (f σ)).
Definition call_schedule : prog TS unit :=
  closure_access (fun σ => ((), set_runnables (S (runnables σ)) σ)) ;;
  closure_access (fun σ => ((), σ)).

Definition clone_waker : prog TS unit :=
  state ← tfetch_add REFERENCE;
  if isize_MAX <? state then ProcAbort else mret ().

(** [drop_waker] and [schedule] call each other. *)
Definition schedule_with (drop_waker : prog TS unit) : prog TS unit :=
  if zst then call_schedule
  else clone_waker ;; call_schedule ;; drop_waker.

Fixpoint drop_waker (fuel : nat) : prog TS unit :=
  match fuel with
  | O => OutOfFuel
  | S fuel =>
      old ← tfetch_sub REFERENCE;
      let new := wrapping_sub old REFERENCE in
      if (Z.land new (wnot (REFERENCE - 1)) =? 0) && (Z.land new TASK =? 0) then
        if Z.land new (Z.lor COMPLETED CLOSED) =? 0 then
          tstore (Z.lor (Z.lor SCHEDULED CLOSED) REFERENCE) ;;
          schedule_with (drop_waker fuel)
        else destroy
      else mret ()
  end.

Definition schedule (fuel : nat) : prog TS unit := schedule_with (drop_waker fuel).

Definition drop_ref : prog TS unit :=
  old ← tfetch_sub REFERENCE;
  let new := wrapping_sub old REFERENCE in
  if (Z.land new (wnot (REFERENCE - 1)) =? 0) && (Z.land new TASK =? 0) then destroy else mret ().

(** The loop of [wake_by_ref]. *)
Fixpoint wake_by_ref_loop (fuel : nat) (state : Z) : prog TS unit :=
  match fuel with
  | O => OutOfFuel
  | S fuel =>
      if has state (Z.lor COMPLETED CLOSED) then mret ()
      else if has state SCHEDULED then
        r ← tcas_weak state state;
        match r with Ok _ => mret () | Err s => wake_by_ref_loop fuel s end
      else
        let new := if negb (has state RUNNING) then Z.lor state SCHEDULED + REFERENCE
                   else Z.lor state SCHEDULED in
        r ← tcas_weak state new;
        match r with
        | Ok _ => if negb (has state RUNNING) then
                    if isize_MAX <? state then ProcAbort else call_schedule
                  else mret ()
        | Err s => wake_by_ref_loop fuel s
        end
  end.

Definition wake_by_ref (fuel : nat) : prog TS unit :=
  state ← tload; wake_by_ref_loop fuel state.

(** The loop of [wake], which consumes the waker. *)
Fixpoint wake_loop (fuel : nat) (state : Z) : prog TS unit :=
  match fuel with
  | O => OutOfFuel
  | S fuel =>
      if has state (Z.lor COMPLETED CLOSED) then drop_waker fuel
      else if has state SCHEDULED then
        r ← tcas_weak state state;
        match r with Ok _ => drop_waker fuel | Err s => wake_loop fuel s end
      else
        r ← tcas_weak state (Z.lor state SCHEDULED);
        match r with
        | Ok _ => if negb (has state RUNNING) then schedule fuel else drop_waker fuel
        | Err s => wake_loop fuel s
        end
  end.

Definition wake (fuel : nat) : prog TS unit :=
  if negb zst then wake_by_ref fuel ;; drop_waker fuel
  else state ← tload; wake_loop fuel state.

(** Polling the future, which may use its waker meanwhile. *)
Inductive polled := PReady | PPending | PPanic.

Fixpoint poll_body (fuel : nat) : prog TS polled :=
  match fuel with
  | O => OutOfFuel
  | S fuel =>
      more ← Pick Ret;
      if more : bool then
        clone ← Pick Ret;
        if clone : bool then clone_waker ;; put_waker ;; poll_body fuel
        else wake_by_ref fuel ;; poll_body fuel
      else
        ready ← Pick Ret;
        if ready : bool then mret PReady
        else panic ← Pick Ret; mret (if panic : bool then PPanic else PPending)
  end.

Definition poll_future (fuel : nat) : prog TS polled :=
  access (fun σ => match fut σ with FPresent => Some ((), set_fut FPolled σ) | _ => None end) ;;
  r ← poll_body fuel;
  access (fun σ => match fut σ with FPolled => Some ((), set_fut FPresent σ) | _ => None end) ;;
  mret r.

(** What [run] and the guard do last: take the awaiter if there was one, drop
    the reference, wake the awaiter. *)
Definition finish_run (state : Z) : prog TS unit :=
  awaiter ← (if has state AWAITER then take None else mret None);
  drop_ref ;; wake_option awaiter.

(** The first loop of [run]; [None] when the task was closed. *)
Fixpoint run_begin (fuel : nat) (state : Z) : prog TS (option Z) :=
  match fuel with
  | O => OutOfFuel
  | S fuel =>
      if has state CLOSED then
        drop_future ;;
        state ← tfetch_and (wnot SCHEDULED);
        finish_run state ;; mret None
      else
        let new := Z.lor (Z.land state (wnot SCHEDULED)) RUNNING in
        r ← tcas_weak state new;
        match r with Ok _ => mret (Some new) | Err s => run_begin fuel s end
  end.

(** The loop after [Poll::Ready]. *)
Fixpoint run_ready (fuel : nat) (state : Z) : prog TS unit :=
  match fuel with
  | O => OutOfFuel
  | S fuel =>
      let idle := Z.land (Z.land state (wnot RUNNING)) (wnot SCHEDULED) in
      let new := if negb (has state TASK) then Z.lor (Z.lor idle COMPLETED) CLOSED
                 else Z.lor idle COMPLETED in
      r ← tcas_weak state new;
      match r with
      | Ok _ =>
          (if negb (has state TASK) || has state CLOSED then take_output else mret ()) ;;
          finish_run state
      | Err s => run_ready fuel s
      end
  end.

(** The loop after [Poll::Pending]; the result of [run]. *)
Fixpoint run_pending (fuel : nat) (future_dropped : bool) (state : Z) : prog TS bool :=
  match fuel with
  | O => OutOfFuel
  | S fuel =>
      let new := if has state CLOSED then Z.land (Z.land state (wnot RUNNING)) (wnot SCHEDULED)
                 else Z.land state (wnot RUNNING) in
      let drop_now := has state CLOSED && negb future_dropped in
      (if drop_now then drop_future else mret ()) ;;
      r ← tcas_weak state new;
      match r with
      | Ok state =>
          if has state CLOSED then finish_run state ;; mret false
          else if has state SCHEDULED then schedule fuel ;; mret true
          else drop_ref ;; mret false
      | Err s => run_pending fuel (future_dropped || drop_now) s
      end
  end.

(** [<Guard as Drop>::drop], when the poll panics: the closed branch tests
    the state it loaded before. *)
Fixpoint guard_loop (fuel : nat) (state : Z) : prog TS unit :=
  match fuel with
  | O => OutOfFuel
  | S fuel =>
      if has state CLOSED then
        drop_future ;;
        tfetch_and (Z.land (wnot RUNNING) (wnot SCHEDULED)) ;;
        finish_run state
      else
        r ← tcas_weak state (Z.lor (Z.land (Z.land state (wnot RUNNING)) (wnot SCHEDULED)) CLOSED);
        match r with
        | Ok state => drop_future ;; finish_run state
        | Err s => guard_loop fuel s
        end
  end.
Definition guard_drop (fuel : nat) : prog TS unit :=
  state ← tload; guard_loop fuel state.

(** [run]: whether the task was woken while it was running. *)
Definition run (fuel : nat) : prog TS bool :=
  state ← tload;
  r ← run_begin fuel state;
  match r with
  | None => mret false
  | Some state =>
      p ← poll_future fuel;
      match p with
      | PReady => drop_future ;; write_output ;; run_ready fuel state ;; mret false
      | PPending => run_pending fuel false state
      | PPanic => guard_drop fuel ;; mret false
      end
  end.

(** * [runnable.rs] *)

Fixpoint close_loop (fuel : nat) (state : Z) : prog TS unit :=
  match fuel with
  | O => OutOfFuel
  | S fuel =>
      if has state (Z.lor COMPLETED CLOSED) then mret ()
      else
        r ← tcas_weak state (Z.lor state CLOSED);
        match r with Ok _ => mret () | Err s => close_loop fuel s end
  end.

(** [<Runnable as Drop>::drop]. *)
Definition drop_runnable (fuel : nat) : prog TS unit :=
  state ← tload;
  close_loop fuel state ;;
  drop_future ;;
  state ← tfetch_and (wnot SCHEDULED);
  (if has state AWAITER then notify None else mret ()) ;;
  drop_ref.

(** * [task.rs] *)

Fixpoint set_canceled_loop (fuel : nat) (state : Z) : prog TS unit :=
  match fuel with
  | O => OutOfFuel
  | S fuel =>
      if has state (Z.lor COMPLETED CLOSED) then mret ()
      else
        let idle := negb (has state (Z.lor SCHEDULED RUNNING)) in
        let new := if idle then Z.lor (Z.lor state SCHEDULED) CLOSED + REFERENCE
                   else Z.lor state CLOSED in
        r ← tcas_weak state new;
        match r with
        | Ok _ =>
            (if idle then schedule fuel else mret ()) ;;
            (if has state AWAITER then notify None else mret ())
        | Err s => set_canceled_loop fuel s
        end
  end.
Definition set_canceled (fuel : nat) : prog TS unit :=
  state ← tload; set_canceled_loop fuel state.

(** The result: whether an output was read. *)
Fixpoint set_detached_loop (fuel : nat) (output : bool) (state : Z) : prog TS bool :=
  match fuel with
  | O => OutOfFuel
  | S fuel =>
      if has state COMPLETED && negb (has state CLOSED) then
        r ← tcas_weak state (Z.lor state CLOSED);
        match r with
        | Ok _ => take_output ;; set_detached_loop fuel true (Z.lor state CLOSED)
        | Err s => set_detached_loop fuel output s
        end
      else
        let new := if Z.land state (Z.lor (wnot (REFERENCE - 1)) CLOSED) =? 0
                   then Z.lor (Z.lor SCHEDULED CLOSED) REFERENCE
                   else Z.land state (wnot TASK) in
        r ← tcas_weak state new;
        match r with
        | Ok _ =>
            (if Z.land state (wnot (REFERENCE - 1)) =? 0 then
               if negb (has state CLOSED) then schedule fuel else destroy
             else mret ()) ;;
            mret output
        | Err s => set_detached_loop fuel output s
        end
  end.
Definition set_detached (fuel : nat) : prog TS bool :=
  r ← tcas_weak (Z.lor (Z.lor SCHEDULED TASK) REFERENCE) (Z.lor SCHEDULED REFERENCE);
  match r with
  | Ok _ => mret false
  | Err state => set_detached_loop fuel false state
  end.

(** [Ready (Some ())] is the output of the task, [Ready None] a task that
    was closed. *)
Fixpoint poll_task_loop (fuel : nat) (w : nat) (state : Z) : prog TS (poll (option unit)) :=
  match fuel with
  | O => OutOfFuel
  | S fuel =>
      let try_take (state : Z) : prog TS (poll (option unit)) :=
        r ← tcas state (Z.lor state CLOSED);
        match r with
        | Ok _ =>
            (if has state AWAITER then notify (Some w) else mret ()) ;;
            take_output ;; mret (Ready (Some ()))
        | Err s => poll_task_loop fuel w s
        end in
      if has state CLOSED then
        if has state (Z.lor SCHEDULED RUNNING) then
          register fuel w ;;
          state ← tload;
          if has state (Z.lor SCHEDULED RUNNING) then mret Pending
          else notify (Some w) ;; mret (Ready None)
        else notify (Some w) ;; mret (Ready None)
      else if negb (has state COMPLETED) then
        register fuel w ;;
        state ← tload;
        if has state CLOSED then poll_task_loop fuel w state
        else if negb (has state COMPLETED) then mret Pending
        else try_take state
      else try_take state
  end.
Definition poll_task (fuel : nat) (w : nat) : prog TS (poll (option unit)) :=
  state ← tload; poll_task_loop fuel w state.

(** [<Task as Drop>::drop]; [detach] is [set_detached] alone, its output
    dropped, and [cancel] is [set_canceled], polls, and the drop. *)
Definition drop_task (fuel : nat) : prog TS unit :=
  set_canceled fuel ;; set_detached fuel ;; mret ().

(** * Clients *)

Inductive taskop :=
| ORun (fuel : nat) | ODropRunnable (fuel : nat) | OSchedule (fuel : nat) | OWaker
| OWake (fuel : nat) | OWakeByRef (fuel : nat) | OCloneWaker | ODropWaker (fuel : nat)
| ODetach (fuel : nat) | OCancel (fuel : nat) | OPoll (fuel w : nat) | ODropTask (fuel : nat).

(** What an operation returned, when that matters: the poll of the handle. *)
Definition taskcode (op : taskop) : prog TS (option (poll (option unit))) :=
  match op with
  | ORun fuel => take_runnable ;; run fuel ;; mret None
  | ODropRunnable fuel => take_runnable ;; drop_runnable fuel ;; mret None
  | OSchedule fuel => take_runnable ;; schedule fuel ;; mret None
  | OWaker => take_runnable ;; clone_waker ;; put_waker ;; put_runnable ;; mret None
  | OWake fuel => take_waker ;; wake fuel ;; mret None
  | OWakeByRef fuel => take_waker ;; wake_by_ref fuel ;; put_waker ;; mret None
  | OCloneWaker => take_waker ;; clone_waker ;; put_waker ;; put_waker ;; mret None
  | ODropWaker fuel => take_waker ;; drop_waker fuel ;; mret None
  | ODetach fuel => take_handle ;; set_detached fuel ;; mret None
  | OCancel fuel => take_handle ;; set_canceled fuel ;; put_handle ;; mret None
  | OPoll fuel w => take_handle ;; r ← poll_task fuel w; put_handle ;; mret (Some r)
  | ODropTask fuel => take_handle ;; drop_task fuel ;; mret None
  end.
End raw.

(** [spawn_unchecked]: the block as [allocate] fills it, a runnable and the
    handle. *)
Definition spawn : TS :=
  mkT (Z.lor (Z.lor SCHEDULED TASK) REFERENCE) true FPresent false None false 0 1 true [] false.

(** The threads own nothing themselves; [owns] is what the last poll of the
    handle on that thread returned. *)
Definition taskstart (c : option (poll (option unit))) (op : taskop) : option (option (poll (option unit))) :=
  Some c.
Definition taskfinish (c : option (poll (option unit))) (op : taskop) (r : option (poll (option unit))) :
  option (poll (option unit)) := match r with Some _ => r | None => c end.

Definition task_pool (k : nat) : config TS taskop (option (poll (option unit))) (option (poll (option unit))) :=
  Config spawn (replicate k (Thread None None)).

(** * The state word

    Eight flags and the number of references above them. *)

Definition flags (s r c x t a g k : bool) : Z :=
  Z.b2z s + 2 * Z.b2z r + 4 * Z.b2z c + 8 * Z.b2z x + 16 * Z.b2z t + 32 * Z.b2z a
  + 64 * Z.b2z g + 128 * Z.b2z k.
Definition enc (s r c x t a g k : bool) (n : nat) : Z := flags s r c x t a g k + 256 * Z.of_nat n.

Section enc.
Context (s r c x t a g k : bool) (n : nat).
Local Abbreviation w := (enc s r c x t a g k n).

Lemma flags_range : 0 <= flags s r c x t a g k < 256.
Proof. unfold flags. destruct s, r, c, x, t, a, g, k; simpl; lia. Qed.

Lemma enc_range : 256 * Z.of_nat n <= 2 ^ 63 + 512 -> 0 <= w <= usize_MAX.
Proof. pose proof flags_range. unfold enc, usize_MAX. lia. Qed.

Lemma low_testbit l m i : 0 <= l < 256 -> 0 <= i ->
  Z.testbit (l + 256 * m) i = if i <? 8 then Z.testbit l i else Z.testbit m (i - 8).
Proof.
  intros Hl Hi. replace (256 * m) with (Z.shiftl m 8) by (rewrite Z.shiftl_mul_pow2; lia).
  assert (Hz : forall j, 8 <= j -> Z.testbit l j = false).
  { intros j Hj. destruct (decide (l = 0)) as [->|]; [apply Z.bits_0|].
    apply Z.bits_above_log2; [lia|]. apply Z.lt_le_trans with 8; [|lia]. apply Z.log2_lt_pow2; lia. }
  rewrite Z.add_nocarry_lxor.
  - rewrite Z.lxor_spec. destruct (Z.ltb_spec i 8).
    + rewrite Z.shiftl_spec_low by lia. apply xorb_false_r.
    + rewrite Z.shiftl_spec_high, Hz by lia. apply xorb_false_l.
  - apply Z.bits_inj'. intros j Hj. rewrite Z.land_spec, Z.bits_0.
    destruct (Z.ltb_spec j 8); [rewrite (Z.shiftl_spec_low m 8) by lia; apply andb_false_r|].
    by rewrite Hz.
Qed.

Lemma land_low m : 0 <= m < 256 -> Z.land w m = Z.land (flags s r c x t a g k) m.
Proof.
  intros Hm. apply Z.bits_inj'. intros i Hi. rewrite !Z.land_spec. unfold enc.
  rewrite low_testbit by (done || apply flags_range). destruct (Z.ltb_spec i 8); [done|].
  replace m with (m + 256 * 0) by lia. rewrite low_testbit by lia.
  destruct (Z.ltb_spec i 8); [lia|]. by rewrite Z.bits_0, !andb_false_r.
Qed.

Lemma high_testbit l i : 0 <= l < 256 -> 8 <= i -> Z.testbit l i = false.
Proof.
  intros Hl Hi. replace l with (l + 256 * 0) by lia. rewrite low_testbit by lia.
  destruct (Z.ltb_spec i 8); [lia|]. apply Z.bits_0.
Qed.

Lemma small_bits y : (forall i, 8 <= i -> Z.testbit y i = false) -> 0 <= y < 256.
Proof.
  intros Hy. assert (E : Z.land y (Z.ones 8) = y).
  { apply Z.bits_inj'. intros i Hi. rewrite Z.land_spec. destruct (Z.ltb_spec i 8).
    - by rewrite Z.ones_spec_low, andb_true_r by lia.
    - by rewrite (Hy i) by lia. }
  rewrite <- E, Z.land_ones by lia. apply Z.mod_pos_bound. lia.
Qed.

Lemma lor_low m : 0 <= m < 256 ->
  Z.lor w m = Z.lor (flags s r c x t a g k) m + 256 * Z.of_nat n.
Proof.
  intros Hm. pose proof flags_range as Hf. apply Z.bits_inj'. intros i Hi.
  assert (Hl : 0 <= Z.lor (flags s r c x t a g k) m < 256).
  { apply small_bits. intros j Hj. by rewrite Z.lor_spec, !high_testbit by done. }
  rewrite Z.lor_spec. unfold enc. rewrite !low_testbit by done.
  destruct (Z.ltb_spec i 8); [by rewrite Z.lor_spec|].
  by rewrite (high_testbit m), orb_false_r by lia.
Qed.

Lemma ldiff_low m : 256 * Z.of_nat n <= 2 ^ 63 + 512 -> 0 <= m < 256 ->
  Z.land w (wnot m) = Z.ldiff (flags s r c x t a g k) m + 256 * Z.of_nat n.
Proof.
  intros Hn Hm. pose proof flags_range as Hf. pose proof (enc_range Hn).
  rewrite land_wnot by (unfold usize_MAX in *; lia). apply Z.bits_inj'. intros i Hi.
  assert (Hd : 0 <= Z.ldiff (flags s r c x t a g k) m < 256).
  { apply small_bits. intros j Hj. by rewrite Z.ldiff_spec, high_testbit by done. }
  rewrite Z.ldiff_spec. unfold enc. rewrite !low_testbit by (done || lia).
  destruct (Z.ltb_spec i 8); [by rewrite Z.ldiff_spec|].
  by rewrite (high_testbit m), andb_true_r by lia.
Qed.
End enc.

Lemma enc_inj s r c x t a g k n s' r' c' x' t' a' g' k' n' :
  enc s r c x t a g k n = enc s' r' c' x' t' a' g' k' n' ->
  flags s r c x t a g k = flags s' r' c' x' t' a' g' k' /\ n = n'.
Proof.
  pose proof (flags_range s r c x t a g k). pose proof (flags_range s' r' c' x' t' a' g' k').
  unfold enc. lia.
Qed.

Create HintDb task.

Section flag_lemmas.
Context (s r c x t a g k : bool) (n : nat).
Local Abbreviation w := (enc s r c x t a g k n).

Ltac by_flags := intros; unfold has;
  first [rewrite land_low by (vm_compute; intuition discriminate)
        |rewrite lor_low by (vm_compute; intuition discriminate)
        |rewrite ldiff_low by (first [done|vm_compute; intuition discriminate])];
  unfold enc; try (f_equal; []); destruct s, r, c, x, t, a, g, k; reflexivity.

Lemma has_SCHEDULED : has w SCHEDULED = s. Proof. by_flags. Qed.
Lemma has_RUNNING : has w RUNNING = r. Proof. by_flags. Qed.
Lemma has_COMPLETED : has w COMPLETED = c. Proof. by_flags. Qed.
Lemma has_CLOSED : has w CLOSED = x. Proof. by_flags. Qed.
Lemma has_TASK : has w TASK = t. Proof. by_flags. Qed.
Lemma has_AWAITER : has w AWAITER = a. Proof. by_flags. Qed.
Lemma has_REGISTERING : has w REGISTERING = g. Proof. by_flags. Qed.
Lemma has_NOTIFYING : has w NOTIFYING = k. Proof. by_flags. Qed.
Lemma has_finished : has w (Z.lor COMPLETED CLOSED) = c || x. Proof. by_flags. Qed.
Lemma has_pending : has w (Z.lor SCHEDULED RUNNING) = s || r. Proof. by_flags. Qed.
Lemma has_busy : has w (Z.lor NOTIFYING REGISTERING) = k || g. Proof. by_flags. Qed.
Lemma zero_TASK : (Z.land w TASK =? 0) = negb t. Proof. by_flags. Qed.
Lemma zero_finished : (Z.land w (Z.lor COMPLETED CLOSED) =? 0) = negb (c || x). Proof. by_flags. Qed.

Lemma lor_0 : Z.lor w 0 = w. Proof. apply Z.lor_0_r. Qed.
Lemma lor_SCHEDULED : Z.lor w SCHEDULED = enc true r c x t a g k n. Proof. by_flags. Qed.
Lemma lor_RUNNING : Z.lor w RUNNING = enc s true c x t a g k n. Proof. by_flags. Qed.
Lemma lor_COMPLETED : Z.lor w COMPLETED = enc s r true x t a g k n. Proof. by_flags. Qed.
Lemma lor_CLOSED : Z.lor w CLOSED = enc s r c true t a g k n. Proof. by_flags. Qed.
Lemma lor_AWAITER : Z.lor w AWAITER = enc s r c x t true g k n. Proof. by_flags. Qed.
Lemma lor_REGISTERING : Z.lor w REGISTERING = enc s r c x t a true k n. Proof. by_flags. Qed.
Lemma lor_NOTIFYING : Z.lor w NOTIFYING = enc s r c x t a g true n. Proof. by_flags. Qed.

Context (Hn : 256 * Z.of_nat n <= 2 ^ 63 + 512).

Lemma clear_SCHEDULED : Z.land w (wnot SCHEDULED) = enc false r c x t a g k n. Proof. by_flags. Qed.
Lemma clear_RUNNING : Z.land w (wnot RUNNING) = enc s false c x t a g k n. Proof. by_flags. Qed.
Lemma clear_TASK : Z.land w (wnot TASK) = enc s r c x false a g k n. Proof. by_flags. Qed.
Lemma clear_AWAITER : Z.land w (wnot AWAITER) = enc s r c x t false g k n. Proof. by_flags. Qed.
Lemma clear_REGISTERING : Z.land w (wnot REGISTERING) = enc s r c x t a false k n. Proof. by_flags. Qed.
Lemma clear_NOTIFYING : Z.land w (wnot NOTIFYING) = enc s r c x t a g false n. Proof. by_flags. Qed.

Lemma refs_only : Z.land w (wnot (REFERENCE - 1)) = 256 * Z.of_nat n.
Proof. change (REFERENCE - 1) with 255. by_flags. Qed.
Lemma zero_refs : (Z.land w (wnot (REFERENCE - 1)) =? 0) = (n =? 0)%nat.
Proof. rewrite refs_only. apply Bool.eq_iff_eq_true. rewrite Z.eqb_eq, Nat.eqb_eq. lia. Qed.
Lemma zero_refs_closed :
  (Z.land w (Z.lor (wnot (REFERENCE - 1)) CLOSED) =? 0) = (n =? 0)%nat && negb x.
Proof.
  rewrite Z.land_lor_distr_r, refs_only. apply Bool.eq_iff_eq_true.
  pose proof has_CLOSED as Hx. unfold has in Hx.
  rewrite Z.eqb_eq, Z.lor_eq_0_iff, andb_true_iff, Nat.eqb_eq, <- (Z.eqb_eq (Z.land w CLOSED)).
  destruct (Z.land w CLOSED =? 0); simpl in Hx; rewrite <- Hx; simpl; lia.
Qed.

Lemma add_ref : 256 * Z.of_nat n <= 2 ^ 63 + 256 -> wrapping_add w REFERENCE = enc s r c x t a g k (S n).
Proof.
  intros Hn'. pose proof (flags_range s r c x t a g k). unfold wrapping_add, enc.
  change REFERENCE with 256. rewrite wrap_small by lia. lia.
Qed.
Lemma plus_ref : w + REFERENCE = enc s r c x t a g k (S n).
Proof. unfold enc. change REFERENCE with 256. lia. Qed.
Lemma sub_ref m : n = S m -> wrapping_sub w REFERENCE = enc s r c x t a g k m.
Proof.
  intros ->. pose proof (flags_range s r c x t a g k). unfold wrapping_sub, enc.
  change REFERENCE with 256. rewrite wrap_small by lia. lia.
Qed.
End flag_lemmas.

#[export] Hint Rewrite has_SCHEDULED has_RUNNING has_COMPLETED has_CLOSED has_TASK has_AWAITER
  has_REGISTERING has_NOTIFYING has_finished has_pending has_busy zero_TASK zero_finished
  lor_0 lor_SCHEDULED lor_RUNNING lor_COMPLETED lor_CLOSED lor_AWAITER lor_REGISTERING
  lor_NOTIFYING plus_ref : task.
#[export] Hint Rewrite clear_SCHEDULED clear_RUNNING clear_TASK clear_AWAITER clear_REGISTERING
  clear_NOTIFYING zero_refs zero_refs_closed using lia : task.

(** * Tokens

    What a thread in the middle of an operation holds. *)

(** Notifying: not at it, having set [NOTIFYING] first, inside the cell. *)
Inductive stage := Idle | Noti | Inside.

Inductive ttok :=
| KW                   (* a waker *)
| KQ                   (* a runnable *)
| KQX                  (* a runnable of a task known to be closed *)
| KXD                  (* the same, its future dropped *)
| KXF                  (* closed and neither scheduled nor running, the future still there *)
| KRun | KPoll         (* running; polling *)
| KRunX                (* running, known to be closed *)
| KRunD                (* the same, the future dropped *)
| KGone                (* running, the future dropped, no output yet *)
| KDone                (* running, the output written *)
| KOut                 (* completed, with an output nobody reads *)
| KRef (p : stage)     (* a reference *)
| KLast                (* the last reference is gone, the future is not *)
| KFree                (* the last reference is gone *)
| KTask (p : stage)    (* the handle *)
| KReg | KRegIn        (* the handle, registering; inside the cell *)
| KTaskOut (p : stage) (* the handle, with the output to read *).

Definition tcode (k : ttok) : nat :=
  match k with
  | KW => 0 | KQ => 1 | KQX => 2 | KXD => 3 | KXF => 4 | KRun => 5 | KPoll => 6 | KRunX => 7
  | KRunD => 8 | KGone => 9 | KDone => 10 | KOut => 11 | KRef Idle => 12 | KRef Noti => 13
  | KRef Inside => 14 | KLast => 15 | KFree => 16 | KTask Idle => 17 | KTask Noti => 18
  | KTask Inside => 19 | KReg => 20 | KRegIn => 21 | KTaskOut Idle => 22 | KTaskOut Noti => 23
  | KTaskOut Inside => 24
  end.
Definition tdecode (n : nat) : ttok :=
  nth n [KW; KQ; KQX; KXD; KXF; KRun; KPoll; KRunX; KRunD; KGone; KDone; KOut; KRef Idle; KRef Noti;
         KRef Inside; KLast; KFree; KTask Idle; KTask Noti; KTask Inside; KReg; KRegIn;
         KTaskOut Idle; KTaskOut Noti; KTaskOut Inside] KW.
Lemma tdecode_tcode k : tdecode (tcode k) = k.
Proof. by destruct k as [| | | | | | | | | | | |[]| | |[]| | |[]]. Qed.
#[export] Instance ttok_eq_dec : EqDecision ttok.
Proof.
  intros a b. destruct (decide (tcode a = tcode b)) as [E|E]; [left|right; congruence].
  by rewrite <- (tdecode_tcode a), E, tdecode_tcode.
Defined.
#[export] Instance ttok_countable : Countable ttok := inj_countable' tcode tdecode tdecode_tcode.

Definition one (k k' : ttok) : nat := if Nat.eqb (tcode k) (tcode k') then 1 else 0.

Lemma multiplicity_one (k k' : ttok) : multiplicity k ({[+ k' +]} : gmultiset ttok) = one k k'.
Proof.
  rewrite multiplicity_singleton. unfold one. destruct (Nat.eqb_spec (tcode k) (tcode k')) as [E|E].
  - rewrite decide_True; [done|]. by rewrite <- (tdecode_tcode k), E, tdecode_tcode.
  - rewrite decide_False; [done|]. congruence.
Qed.

(** * The invariant

    [f] counts the tokens. *)

Abbreviation b2n := Nat.b2n (only parsing).

Record facts (σ : TS) (f : ttok -> nat) (s r c x t a g k : bool) (n : nat) : Prop := {
  fc_word : word σ = enc s r c x t a g k n;
  fc_bound : 256 * Z.of_nat n <= 2 ^ 63 + 256 + 256 * Z.of_nat (b2n x);
  (** Who may run the task. *)
  fc_runner : (runnables σ + f KQ + f KQX + f KXD + f KXF + f KRun + f KPoll + f KRunX + f KRunD
               + f KGone + f KDone <= 1)%nat;
  fc_running : b2n r = (f KRun + f KPoll + f KRunX + f KRunD + f KGone + f KDone)%nat;
  fc_sched : (runnables σ + f KQ + f KQX + f KXD <= b2n s)%nat;
  fc_sched_runner : (b2n s + f KXF <= runnables σ + f KQ + f KQX + f KXD + f KXF + f KRun + f KPoll
               + f KRunX + f KRunD + f KGone + f KDone)%nat;
  fc_closed : (f KQX + f KXD + f KXF + f KRunX + f KRunD <= b2n x)%nat;
  fc_completed : (b2n c + (runnables σ + f KQ + f KQX + f KXD + f KXF + f KRun + f KPoll + f KRunX
               + f KRunD + f KGone + f KDone) <= 1)%nat;
  (** The future. *)
  fc_fut : (runnables σ + f KQ + f KQX + f KXF + f KRun + f KPoll + f KRunX
            <= match fut σ with FGone => 0 | _ => 1 end)%nat;
  fc_fut_gone : (match fut σ with FGone => 0 | _ => 1 end + f KXD + f KRunD + f KGone + f KDone
                 + b2n c <= 1)%nat;
  fc_fut_idle : (runnables σ + f KQ + f KQX + f KXD + f KXF + f KRun + f KPoll + f KRunX + f KRunD
               + f KGone + f KDone = 0)%nat ->
      (match fut σ with FGone => 0 | _ => 1 end + b2n x <= 1)%nat /\
      (1 <= match fut σ with FGone => 0 | _ => 1 end + b2n x + b2n c)%nat;
  fc_polled : match fut σ with FPolled => 1 | _ => 0 end%nat = f KPoll;
  (** The output. *)
  fc_out : b2n (out σ) = (f KDone + f KOut + (f (KTaskOut Idle) + f (KTaskOut Noti) + f (KTaskOut Inside))
                          + (b2n c - b2n x))%nat;
  fc_out_closed : (f KOut + (f (KTaskOut Idle) + f (KTaskOut Noti) + f (KTaskOut Inside)) <= b2n x)%nat;
  fc_out_completed : (f KOut + (f (KTaskOut Idle) + f (KTaskOut Noti) + f (KTaskOut Inside)) <= b2n c)%nat;
  fc_out_task : (b2n c - b2n x <= b2n t)%nat;
  (** The handle and the references. *)
  fc_task : b2n t = (b2n (handle σ) + (f (KTask Idle) + f (KTask Noti) + f (KTask Inside)) + f KReg
                     + f KRegIn + (f (KTaskOut Idle) + f (KTaskOut Noti) + f (KTaskOut Inside)))%nat;
  fc_refs : n = (wakers σ + f KW + (runnables σ + f KQ + f KQX + f KXD + f KXF + f KRun + f KPoll
                 + f KRunX + f KRunD + f KGone + f KDone) + f KOut
                 + (f (KRef Idle) + f (KRef Noti) + f (KRef Inside)))%nat;
  fc_last : (n + b2n t = 0)%nat -> (f KLast + f KFree = 1)%nat;
  fc_last_only : (1 <= f KLast + f KFree)%nat -> (n + b2n t = 0)%nat;
  fc_last_live : (1 <= f KLast)%nat -> (b2n c + b2n x = 0)%nat;
  (** The awaiter cell. *)
  fc_reg : b2n g = (f KReg + f KRegIn)%nat;
  fc_noti : (b2n k - b2n g)%nat = (f (KRef Noti) + f (KRef Inside) + f (KTask Noti) + f (KTask Inside)
                                 + f (KTaskOut Noti) + f (KTaskOut Inside))%nat;
  fc_inside : b2n (inside σ) = (f KRegIn + f (KRef Inside) + f (KTask Inside) + f (KTaskOut Inside))%nat
}.

Definition all_tokens : list ttok := tdecode <$> seq 0 25.

(** Once the block is free nothing refers to it any more. *)
Definition Inv (σ : TS) (f : ttok -> nat) : Prop :=
  if alive σ then exists s r c x t a g k n, facts σ f s r c x t a g k n
  else wakers σ = 0%nat /\ runnables σ = 0%nat /\ handle σ = false /\ out σ = false /\
       (forall k, f k = 0%nat).

Definition TInv (σ : TS) (m : gmultiset ttok) : Prop := Inv σ (fun k => multiplicity k m).
