(* ===== verification/TaskSteps.v ===== *)
(** The steps of the task on tokens: specifications of single accesses, of
    the reference count, of the handles and of the awaiter cell. *)

From S2P Require Import Prelude Conc Task.

(** * Steps on tokens *)

Definition held (l : list ttok) : gmultiset ttok := list_to_set_disj l.
Fixpoint cnt (l : list ttok) (k : ttok) : nat :=
  match l with [] => 0 | a :: l => one k a + cnt l k end.

Lemma multiplicity_held k l : multiplicity k (held l) = cnt l k.
Proof.
  induction l as [|a l IH]; [apply multiplicity_empty|].
  change (held (a :: l)) with ({[+ a +]} ⊎ held l : gmultiset ttok).
  by rewrite multiplicity_disj_union, multiplicity_one, IH.
Qed.

Lemma held_app l1 l2 : held (l1 ++ l2) = held l1 ⊎ held l2.
Proof. apply list_to_set_disj_app. Qed.

Lemma one_refl k : one k k = 1%nat.
Proof. unfold one. by rewrite Nat.eqb_refl. Qed.

Lemma facts_ext σ f f' s r c x t a g k n :
  (forall k, f k = f' k) -> facts σ f s r c x t a g k n -> facts σ f' s r c x t a g k n.
Proof. intros E H. destruct H. constructor; rewrite <- ?E; assumption. Qed.

Lemma Inv_ext σ f f' : (forall k, f k = f' k) -> Inv σ f -> Inv σ f'.
Proof.
  intros E. unfold Inv. destruct (alive σ).
  - intros (s & r & c & x & t & a & g & k & n & H).
    exists s, r, c, x, t, a, g, k, n. by eapply facts_ext.
  - intros (? & ? & ? & ? & Hf). split_and!; try done. intros k. by rewrite <- E.
Qed.

Lemma TInv_held σ l fr :
  TInv σ (held l ⊎ fr) <-> Inv σ (fun k => cnt l k + multiplicity k fr)%nat.
Proof.
  unfold TInv. split; apply Inv_ext; intros k; by rewrite multiplicity_disj_union, multiplicity_held.
Qed.

(** Whoever holds a token keeps the block alive. *)
Lemma Inv_alive σ a l (g : ttok -> nat) : Inv σ (fun k => cnt (a :: l) k + g k)%nat -> alive σ = true.
Proof.
  unfold Inv. destruct (alive σ); [done|]. intros (_ & _ & _ & _ & Hf).
  specialize (Hf a). simpl in Hf. rewrite one_refl in Hf. lia.
Qed.

(** A specification: from the tokens [l] to what [post] says. *)
Definition spec {A} (l : list ttok) (p : prog TS A) (post : list ttok -> A -> Prop) : Prop :=
  ok TInv (held l) p (fun m a => exists l', m = held l' /\ post l' a).

Lemma spec_ret {A} l (a : A) (post : list ttok -> A -> Prop) : post l a -> spec l (Ret a) post.
Proof. intros H. exists l. auto. Qed.

Lemma spec_mono {A} l (p : prog TS A) (post post' : list ttok -> A -> Prop) :
  spec l p post -> (forall l a, post l a -> post' l a) -> spec l p post'.
Proof. intros H Hp. eapply ok_mono; [exact H|]. intros m a (l' & -> & ?). eauto. Qed.

Lemma spec_bind {A B} l (p : prog TS A) (k : A -> prog TS B) mid (post : list ttok -> B -> Prop) :
  spec l p mid -> (forall l' a, mid l' a -> spec l' (k a) post) -> spec l (p ≫= k) post.
Proof.
  intros Hp Hk. apply ok_bind. eapply ok_mono; [exact Hp|]. intros m a (l' & -> & Hm). by apply Hk.
Qed.

Lemma spec_frame {A} r l (p : prog TS A) (post : list ttok -> A -> Prop) :
  spec l p post -> spec (l ++ r) p (fun l' a => exists l1, l' = l1 ++ r /\ post l1 a).
Proof.
  intros H. unfold spec. rewrite held_app. eapply ok_mono; [by apply ok_frame|].
  intros m a (m1 & -> & l1 & -> & Hp). exists (l1 ++ r). rewrite held_app. eauto.
Qed.

(** A step that uses the first tokens. *)
Lemma spec_seq {A B} l l1 r (p : prog TS A) (k : A -> prog TS B) (post : list ttok -> B -> Prop) :
  spec l p (fun l' _ => l' = l1) -> (forall a, spec (l1 ++ r) (k a) post) ->
  spec (l ++ r) (p ≫= k) post.
Proof.
  intros Hp Hk. eapply spec_bind; [by apply spec_frame|]. intros l' a (? & -> & ->). apply Hk.
Qed.

Lemma spec_perm {A} l l' (p : prog TS A) (post : list ttok -> A -> Prop) :
  l ≡ₚ l' -> spec l p post -> spec l' p post.
Proof. intros E. unfold spec. unfold held. by rewrite E. Qed.

Lemma spec_pick {A} l (k : bool -> prog TS A) post : (forall b, spec l (k b) post) -> spec l (Pick k) post.
Proof. intros H b. apply H. Qed.

(** An access by the holder of [a]. *)
Lemma spec_access {A} a l (f : TS -> option (A * TS)) (post : list ttok -> A -> Prop) :
  (forall σ g s r c x t aw rg nt n, alive σ = true ->
     facts σ (fun k => cnt (a :: l) k + g k)%nat s r c x t aw rg nt n ->
     match f σ with
     | Some (v, σ') => exists l', Inv σ' (fun k => cnt l' k + g k)%nat /\ post l' v
     | None => False
     end) ->
  spec (a :: l) (access f) post.
Proof.
  intros Hf σ fr HI. apply TInv_held in HI. pose proof (Inv_alive _ _ _ _ HI) as Ha.
  unfold Inv in HI. rewrite Ha in *. destruct HI as (s & r & c & x & t & aw & rg & nt & n & HI).
  specialize (Hf σ _ s r c x t aw rg nt n Ha HI). cbn beta iota.
  destruct (f σ) as [[v σ']|]; [|done]. destruct Hf as (l' & HI' & Hp).
  right. exists (held l'). split; [by apply TInv_held|]. exists l'. auto.
Qed.

(** An action on the handles, which are not in the block. *)
Lemma spec_atomic {A} l (f : TS -> A * TS) (post : list ttok -> A -> Prop) :
  (forall σ g, Inv σ (fun k => cnt l k + g k)%nat ->
     exists l', Inv (snd (f σ)) (fun k => cnt l' k + g k)%nat /\ post l' (fst (f σ))) ->
  spec l (atomic f) post.
Proof.
  intros Hf. apply ok_atomic. intros σ fr HI. apply TInv_held in HI.
  destruct (Hf σ _ HI) as (l' & HI' & Hp). exists (held l'). split; [by apply TInv_held|]. eauto.
Qed.

Lemma spec_await {A} l (f : TS -> option (A * TS)) (post : list ttok -> A -> Prop) :
  (forall σ g v σ', Inv σ (fun k => cnt l k + g k)%nat -> f σ = Some (v, σ') ->
     exists l', Inv σ' (fun k => cnt l' k + g k)%nat /\ post l' v) ->
  spec l (await f) post.
Proof.
  intros Hf. apply ok_await. intros σ fr v σ' HI E. apply TInv_held in HI.
  destruct (Hf σ _ v σ' HI E) as (l' & HI' & Hp). exists (held l'). split; [by apply TInv_held|]. eauto.
Qed.

(** The same when a token keeps the block alive. *)
Lemma spec_live {A} a l (f : TS -> A * TS) (post : list ttok -> A -> Prop) :
  (forall σ g s r c x t aw rg nt n,
     facts σ (fun k => cnt (a :: l) k + g k)%nat s r c x t aw rg nt n ->
     alive (snd (f σ)) = alive σ /\
     exists l', facts (snd (f σ)) (fun k => cnt l' k + g k)%nat s r c x t aw rg nt n /\
       post l' (fst (f σ))) ->
  spec (a :: l) (atomic f) post.
Proof.
  intros Hf. apply spec_atomic. intros σ g HI. pose proof (Inv_alive _ _ _ _ HI) as Ha.
  unfold Inv in HI. rewrite Ha in HI. destruct HI as (s & r & c & x & t & aw & rg & nt & n & HF).
  destruct (Hf _ _ _ _ _ _ _ _ _ _ _ HF) as (Ha' & l' & HF' & Hp). exists l'. split; [|done].
  unfold Inv. rewrite Ha', Ha. eauto 12.
Qed.

(** An access to the word. *)
Lemma spec_rmw a l (f : Z -> Z) (post : list ttok -> Z -> Prop) :
  (forall σ g s r c x t aw rg nt n,
     facts σ (fun k => cnt (a :: l) k + g k)%nat s r c x t aw rg nt n ->
     let w := enc s r c x t aw rg nt n in
     exists l' s' r' c' x' t' aw' rg' nt' n',
       facts (set_word (f w) σ) (fun k => cnt l' k + g k)%nat s' r' c' x' t' aw' rg' nt' n' /\
       post l' w) ->
  spec (a :: l) (trmw f) post.
Proof.
  intros Hf. apply spec_access. intros σ g s r c x t aw rg nt n Ha HI.
  destruct (Hf _ _ _ _ _ _ _ _ _ _ _ HI) as (l' & s' & r' & c' & x' & t' & aw' & rg' & nt' & n' & HI' & Hp).
  rewrite (fc_word _ _ _ _ _ _ _ _ _ _ _ HI). exists l'. split; [|done].
  unfold Inv. cbn [set_word alive]. rewrite Ha. eauto 12.
Qed.

(** Reads and compare-exchanges, with what follows them: a read may tell the
    thread something about its tokens. *)
Lemma facts_same σ f s r c x t aw rg nt n :
  facts σ f s r c x t aw rg nt n -> facts (set_word (word σ) σ) f s r c x t aw rg nt n.
Proof. by destruct σ. Qed.

Lemma spec_load_bind {A} a l (k : Z -> prog TS A) (post : list ttok -> A -> Prop) :
  (forall σ g s r c x t aw rg nt n,
     facts σ (fun k => cnt (a :: l) k + g k)%nat s r c x t aw rg nt n ->
     exists l', facts σ (fun k => cnt l' k + g k)%nat s r c x t aw rg nt n /\
       spec l' (k (enc s r c x t aw rg nt n)) post) ->
  spec (a :: l) (tload ≫= k) post.
Proof.
  intros Hf. eapply (spec_bind _ _ _ (fun l' w => spec l' (k w) post)); [|auto].
  apply spec_rmw. intros σ g s r c x t aw rg nt n HF w.
  destruct (Hf _ _ _ _ _ _ _ _ _ _ _ HF) as (l' & HF' & Hk). exists l', s, r, c, x, t, aw, rg, nt, n.
  split; [|done]. unfold id, w. rewrite <- (fc_word _ _ _ _ _ _ _ _ _ _ _ HF). by apply facts_same.
Qed.

Lemma spec_cas_bind {A} a l (e new : Z) (k : result Z Z -> prog TS A) (post : list ttok -> A -> Prop) :
  (forall σ g s r c x t aw rg nt n,
     facts σ (fun k => cnt (a :: l) k + g k)%nat s r c x t aw rg nt n ->
     exists l', facts σ (fun k => cnt l' k + g k)%nat s r c x t aw rg nt n /\
       spec l' (k (Err (enc s r c x t aw rg nt n))) post) ->
  (forall σ g s r c x t aw rg nt n,
     facts σ (fun k => cnt (a :: l) k + g k)%nat s r c x t aw rg nt n ->
     e = enc s r c x t aw rg nt n ->
     is_abort (k (Ok e)) = true \/
     exists l' s' r' c' x' t' aw' rg' nt' n',
       facts (set_word new σ) (fun k => cnt l' k + g k)%nat s' r' c' x' t' aw' rg' nt' n' /\
       spec l' (k (Ok e)) post) ->
  spec (a :: l) (tcas e new ≫= k) post.
Proof.
  intros Herr Hok σ fr HI. apply TInv_held in HI. pose proof (Inv_alive _ _ _ _ HI) as Ha.
  unfold Inv in HI. rewrite Ha in *. destruct HI as (s & r & c & x & t & aw & rg & nt & n & HF).
  pose proof (fc_word _ _ _ _ _ _ _ _ _ _ _ HF) as Hw. cbn. destruct (Z.eqb_spec (word σ) e) as [E|E].
  - destruct (Hok _ _ _ _ _ _ _ _ _ _ _ HF) as [?|(l' & s' & r' & c' & x' & t' & aw' & rg' & nt' & n' & HF' & Hk)];
      [congruence| |]; rewrite E in *; [by left|right].
    exists (held l'). split; [|exact Hk]. apply TInv_held. unfold Inv. cbn [set_word alive]. rewrite Ha. eauto 12.
  - destruct (Herr _ _ _ _ _ _ _ _ _ _ _ HF) as (l' & HF' & Hk). rewrite <- Hw in Hk. right.
    exists (held l'). split; [|exact Hk]. apply TInv_held. unfold Inv. cbn [set_word alive]. rewrite Ha.
    exists s, r, c, x, t, aw, rg, nt, n. by apply facts_same.
Qed.

Lemma spec_cas_weak_bind {A} a l (e new : Z) (k : result Z Z -> prog TS A) (post : list ttok -> A -> Prop) :
  (forall σ g s r c x t aw rg nt n,
     facts σ (fun k => cnt (a :: l) k + g k)%nat s r c x t aw rg nt n ->
     exists l', facts σ (fun k => cnt l' k + g k)%nat s r c x t aw rg nt n /\
       spec l' (k (Err (enc s r c x t aw rg nt n))) post) ->
  (forall σ g s r c x t aw rg nt n,
     facts σ (fun k => cnt (a :: l) k + g k)%nat s r c x t aw rg nt n ->
     e = enc s r c x t aw rg nt n ->
     is_abort (k (Ok e)) = true \/
     exists l' s' r' c' x' t' aw' rg' nt' n',
       facts (set_word new σ) (fun k => cnt l' k + g k)%nat s' r' c' x' t' aw' rg' nt' n' /\
       spec l' (k (Ok e)) post) ->
  spec (a :: l) (tcas_weak e new ≫= k) post.
Proof.
  intros Herr Hok. intros [|].
  - intros σ fr HI. apply TInv_held in HI. pose proof (Inv_alive _ _ _ _ HI) as Ha.
    unfold Inv in HI. rewrite Ha in *. destruct HI as (s & r & c & x & t & aw & rg & nt & n & HF).
    destruct (Herr _ _ _ _ _ _ _ _ _ _ _ HF) as (l' & HF' & Hk).
    rewrite <- (fc_word _ _ _ _ _ _ _ _ _ _ _ HF) in Hk. cbn. right.
    exists (held l'). split; [|exact Hk]. apply TInv_held. unfold Inv. cbn [set_word alive]. rewrite Ha.
    exists s, r, c, x, t, aw, rg, nt, n. by apply facts_same.
  - by apply spec_cas_bind.
Qed.

(** Unfolding a goal about counts to arithmetic. *)
Ltac arith := cbn [set_word set_fut set_out set_cell set_wakers set_runnables set_handle add_woken
  word alive fut out cell inside wakers runnables handle woken leaked
  fst snd cnt one tcode Nat.eqb Nat.b2n Nat.add] in *.
Lemma b2n_le b : (Nat.b2n b <= 1)%nat.
Proof. destruct b; simpl; lia. Qed.
Ltac bits := repeat match goal with b : bool |- _ =>
  lazymatch goal with _ : (Nat.b2n b <= 1)%nat |- _ => fail | _ => pose proof (b2n_le b) end end.
Ltac facts_step H := destruct H; arith; bits; constructor; arith; first [assumption|lia].
Ltac bound HF := pose proof (fc_bound _ _ _ _ _ _ _ _ _ _ _ HF) as Hbound;
  repeat match goal with b : bool |- _ =>
    lazymatch goal with _ : (Nat.b2n b <= 1)%nat |- _ => fail | _ => pose proof (b2n_le b) end end.


(** * [raw.rs]: references *)

Definition borrows (a : ttok) : Prop := a = KW \/ a = KQ \/ a = KPoll.

Lemma spec_clone_waker a : borrows a ->
  spec [a] clone_waker (fun l _ => l = [KW; a]).
Proof.
  intros Hb. unfold clone_waker. intros σ fr HI. apply TInv_held in HI.
  pose proof (Inv_alive _ _ _ _ HI) as Ha. unfold Inv in HI. rewrite Ha in HI.
  destruct HI as (s & r & c & x & t & aw & rg & nt & n & HI). cbn beta iota.
  rewrite Ha. cbn. pose proof (fc_word _ _ _ _ _ _ _ _ _ _ _ HI) as Hw.
  destruct (Z.ltb_spec isize_MAX (word σ)); [by left|right].
  exists (held [KW; a]). split; [|exists [KW; a]; done].
  apply TInv_held. unfold Inv. cbn [set_word alive]. rewrite Ha.
  assert (Hb2 : 256 * Z.of_nat n <= 2 ^ 63 - 1).
  { rewrite Hw in *. unfold enc, isize_MAX in *. pose proof (flags_range s r c x t aw rg nt). lia. }
  exists s, r, c, x, t, aw, rg, nt, (S n). rewrite Hw, add_ref by lia.
  destruct Hb as [->|[->| ->]]; facts_step HI.
Qed.

Definition zero_refs_of (new : Z) : bool :=
  (Z.land new (wnot (REFERENCE - 1)) =? 0) && (Z.land new TASK =? 0).

(** Giving up a reference. *)
Lemma spec_sub a : a = KW \/ a = KRef Idle ->
  spec [a] (tfetch_sub REFERENCE) (fun l old =>
    let new := wrapping_sub old REFERENCE in
    l = if zero_refs_of new then
          if Z.land new (Z.lor COMPLETED CLOSED) =? 0
          then [match a with KW => KLast | _ => KFree end] else [KFree]
        else []).
Proof.
  intros Ha. apply spec_rmw. intros σ g s r c x t aw rg nt n HI w.
  assert (exists m, n = S m) as [m ->].
  { destruct n as [|m]; [|by exists m]. exfalso. destruct Ha as [->| ->]; destruct HI; arith; lia. }
  assert (Hb : 256 * Z.of_nat (S m) <= 2 ^ 63 + 512).
  { pose proof (fc_bound _ _ _ _ _ _ _ _ _ _ _ HI). pose proof (b2n_le x). lia. }
  cbn zeta. unfold w. rewrite (sub_ref _ _ _ _ _ _ _ _ _ Hb m eq_refl). unfold zero_refs_of.
  autorewrite with task. eexists _, s, r, c, x, t, aw, rg, nt, m. split; [|reflexivity].
  destruct (Nat.eqb_spec m 0) as [->|]; [destruct t|]; cbn [negb andb].
  - destruct Ha as [->| ->]; facts_step HI.
  - destruct (negb (c || x)) eqn:E.
    + apply negb_true_iff, orb_false_iff in E as [-> ->]. destruct Ha as [->| ->]; facts_step HI.
    + assert (1 <= b2n c + b2n x)%nat by (destruct c, x; simpl in *; (done || lia)).
      destruct Ha as [->| ->]; facts_step HI.
  - destruct Ha as [->| ->]; facts_step HI.
Qed.

Lemma spec_destroy : spec [KFree] destroy (fun l _ => l = []).
Proof.
  apply spec_access. intros σ g s r c x t aw rg nt n Ha HI. exists []. split; [|done].
  unfold Inv. cbn [free alive].
  destruct HI; arith. bits. pose proof (b2n_le (out σ)). pose proof (b2n_le (handle σ)).
  cbn [free wakers runnables handle out].
  split_and!; [lia|lia|destruct (handle σ); simpl in *; [lia|done]|destruct (out σ); simpl in *; [lia|done]|].
  intros [| | | | | | | | | | | |[]| | |[]| | |[]]; lia.
Qed.

Lemma spec_reschedule : spec [KLast] (tstore (Z.lor (Z.lor SCHEDULED CLOSED) REFERENCE)) (fun l _ => l = [KQ]).
Proof.
  unfold tstore. eapply spec_bind; [|intros l' a H; apply spec_ret; exact H].
  apply spec_rmw. intros σ g s r c x t aw rg nt n HI w.
  exists [KQ], true, false, false, true, false, false, false, false, 1%nat. split; [|done].
  change (Z.lor (Z.lor SCHEDULED CLOSED) REFERENCE) with (enc true false false true false false false false 1).
  destruct (fut σ) eqn:Ef; destruct HI; rewrite Ef in *; arith; bits; constructor; arith; rewrite ?Ef; first [assumption|reflexivity|lia].
Qed.

(** ** Handles *)

Lemma spec_put_waker : spec [KW] put_waker (fun l _ => l = []).
Proof.
  apply spec_live. intros σ g s r c x t aw rg nt n HF. split; [done|]. exists []. split; [|done].
  facts_step HF.
Qed.

Lemma spec_put_runnable : spec [KQ] put_runnable (fun l _ => l = []).
Proof.
  apply spec_live. intros σ g s r c x t aw rg nt n HF. split; [done|]. exists []. split; [|done].
  facts_step HF.
Qed.

Lemma spec_put_handle : spec [KTask Idle] put_handle (fun l _ => l = []).
Proof.
  apply spec_live. intros σ g s r c x t aw rg nt n HF. split; [done|]. exists []. split; [|done].
  assert (E : handle σ = false) by (destruct HF; arith; bits; destruct (handle σ); arith; [lia|done]).
  destruct HF; rewrite E in *; arith; bits; constructor; arith; first [assumption|lia].
Qed.

Lemma spec_take_waker : spec [] take_waker (fun l _ => l = [KW]).
Proof.
  apply spec_await. intros σ g v σ' HI E. exists [KW]. split; [|done].
  destruct (wakers σ) as [|m] eqn:Ew; simplify_eq/=. unfold Inv in *. cbn [set_wakers alive].
  destruct (alive σ); [|destruct HI; congruence].
  destruct HI as (s & r & c & x & t & aw & rg & nt & n & HF).
  exists s, r, c, x, t, aw, rg, nt, n. destruct HF; rewrite Ew in *; arith; constructor; arith; first [assumption|lia].
Qed.

Lemma spec_take_runnable : spec [] take_runnable (fun l _ => l = [KQ]).
Proof.
  apply spec_await. intros σ g v σ' HI E. exists [KQ]. split; [|done].
  destruct (runnables σ) as [|m] eqn:Ew; simplify_eq/=. unfold Inv in *. cbn [set_runnables alive].
  destruct (alive σ); [|destruct HI as (_ & ? & _); congruence].
  destruct HI as (s & r & c & x & t & aw & rg & nt & n & HF).
  exists s, r, c, x, t, aw, rg, nt, n. destruct HF; rewrite Ew in *; arith; constructor; arith; first [assumption|lia].
Qed.

Lemma spec_take_handle : spec [] take_handle (fun l _ => l = [KTask Idle]).
Proof.
  apply spec_await. intros σ g v σ' HI E. exists [KTask Idle]. split; [|done].
  destruct (handle σ) eqn:Ew; simplify_eq/=. unfold Inv in *. cbn [set_handle alive].
  destruct (alive σ); [|destruct HI as (_ & _ & ? & _); congruence].
  destruct HI as (s & r & c & x & t & aw & rg & nt & n & HF).
  exists s, r, c, x, t, aw, rg, nt, n. destruct HF; rewrite Ew in *; arith; constructor; arith; first [assumption|lia].
Qed.

(** * [header.rs] *)

Definition notifier (c : stage -> ttok) : Prop := c = KRef \/ c = KTask \/ c = KTaskOut.

Lemma spec_fetch_notifying c : notifier c ->
  spec [c Idle] (tfetch_or NOTIFYING) (fun l old =>
    l = [c (if has old (Z.lor NOTIFYING REGISTERING) then Idle else Noti)]).
Proof.
  intros Hc. apply spec_rmw. intros σ g s r c0 x t aw rg nt n HF w. unfold w. rewrite has_busy, lor_NOTIFYING.
  eexists _, s, r, c0, x, t, aw, rg, true, n. split; [|reflexivity].
  destruct rg, nt; cbn [orb]; destruct Hc as [->|[->| ->]]; facts_step HF.
Qed.

Lemma spec_clear_notifying c : notifier c ->
  spec [c Noti] (tfetch_and (Z.land (wnot NOTIFYING) (wnot AWAITER))) (fun l _ => l = [c Idle]).
Proof.
  intros Hc. apply spec_rmw. intros σ g s r c0 x t aw rg nt n HF w. bound HF. unfold w.
  rewrite Z.land_assoc. autorewrite with task.
  exists [c Idle], s, r, c0, x, t, false, rg, false, n. split; [|reflexivity].
  destruct Hc as [->|[->| ->]]; facts_step HF.
Qed.

(** Entering the cell is safe for the one that set [NOTIFYING] and for the
    one that registers. *)
Definition cell_user (a b : ttok) : Prop :=
  (exists c, notifier c /\ a = c Noti /\ b = c Inside) \/ (a = KReg /\ b = KRegIn).

Ltac cell_cases H := destruct H as [(c & [->|[->| ->]] & -> & ->)|[-> ->]].

Lemma spec_cell_enter a b : cell_user a b -> spec [a] cell_enter (fun l _ => l = [b]).
Proof.
  intros Hu. apply spec_access. intros σ g s r c0 x t aw rg nt n Ha HF.
  assert (Hi : inside σ = false).
  { destruct (inside σ) eqn:E; [|done]. exfalso. destruct HF; rewrite E in *.
    cell_cases Hu; arith; bits; lia. }
  rewrite Hi. exists [b]. split; [|done]. unfold Inv. cbn [set_cell alive]. rewrite Ha.
  exists s, r, c0, x, t, aw, rg, nt, n.
  cell_cases Hu; destruct HF; rewrite Hi in *; arith; bits; constructor; arith; first [assumption|lia].
Qed.

Lemma spec_cell_leave {A} a b (v : TS -> A) (o : TS -> option nat) : cell_user a b ->
  spec [b] (access (fun σ => Some (v σ, set_cell (o σ) false σ))) (fun l _ => l = [a]).
Proof.
  intros Hu. apply spec_access. intros σ g s r c0 x t aw rg nt n Ha HF.
  exists [a]. split; [|done]. unfold Inv. cbn [set_cell alive]. rewrite Ha.
  exists s, r, c0, x, t, aw, rg, nt, n. pose proof (b2n_le (inside σ)).
  cell_cases Hu; facts_step HF.
Qed.

Lemma spec_cell_take a b : cell_user a b -> spec [a] cell_take (fun l _ => l = [a]).
Proof.
  intros Hu. apply (spec_seq [a] [b] []); [by apply spec_cell_enter|]. intros _.
  apply (spec_cell_leave a b cell (fun _ => None) Hu).
Qed.
Lemma spec_cell_put w a b : cell_user a b -> spec [a] (cell_put w) (fun l _ => l = [a]).
Proof.
  intros Hu. apply (spec_seq [a] [b] []); [by apply spec_cell_enter|]. intros _.
  apply (spec_cell_leave a b (fun _ => ()) (fun _ => Some w) Hu).
Qed.

Lemma spec_take c current : notifier c -> spec [c Idle] (take current) (fun l _ => l = [c Idle]).
Proof.
  intros Hc. unfold take. eapply spec_bind; [by apply spec_fetch_notifying|]. intros l' old ->.
  destruct (has old _); cbn [negb]; [by apply spec_ret|].
  apply (spec_seq [c Noti] [c Noti] []); [apply (spec_cell_take _ (c Inside)); left; eauto|]. intros o.
  apply (spec_seq [c Noti] [c Idle] []); [by apply spec_clear_notifying|]. intros _.
  destruct o, current; by apply spec_ret.
Qed.

(** Waking an awaiter leaves the tokens alone. *)
Lemma facts_woken w σ f s r c x t aw rg nt n :
  facts σ f s r c x t aw rg nt n -> facts (add_woken w σ) f s r c x t aw rg nt n.
Proof. intros HF. destruct HF; constructor; assumption. Qed.

Lemma spec_wake_awaiter w l : spec l (wake_awaiter w) (fun l' _ => l' = l).
Proof.
  apply spec_atomic. intros σ g HI. exists l. split; [|done]. cbn [snd]. unfold Inv in *. cbn [add_woken alive].
  destruct (alive σ); [|done]. destruct HI as (s & r & c & x & t & aw & rg & nt & n & HF).
  exists s, r, c, x, t, aw, rg, nt, n. by apply facts_woken.
Qed.
Lemma spec_wake_option w l : spec l (wake_option w) (fun l' _ => l' = l).
Proof. destruct w; [apply spec_wake_awaiter|by apply spec_ret]. Qed.

Lemma spec_notify c current : notifier c -> spec [c Idle] (notify current) (fun l _ => l = [c Idle]).
Proof.
  intros Hc. apply (spec_seq [c Idle] [c Idle] []); [by apply spec_take|]. intros o. apply spec_wake_option.
Qed.

(** ** Registering *)

(** The handle is unique, so nobody else registers. *)
Lemma task_not_registering σ g s r c x t aw rg nt n :
  facts σ (fun k => cnt [KTask Idle] k + g k)%nat s r c x t aw rg nt n -> rg = false.
Proof. intros HF. destruct HF; arith; bits. destruct rg; [arith; lia|done]. Qed.

Lemma spec_register_begin fuel w state : has state REGISTERING = false ->
  spec [KTask Idle] (register_begin fuel w state)
    (fun l o => l = match o with Some _ => [KReg] | None => [KTask Idle] end).
Proof.
  revert state. induction fuel as [|fuel IH]; intros state Hg; [done|]. cbn [register_begin]. rewrite Hg.
  destruct (has state NOTIFYING) eqn:Ek.
  - apply (spec_seq [KTask Idle] [KTask Idle] []); [apply spec_wake_awaiter|]. intros _. by apply spec_ret.
  - apply spec_cas_weak_bind.
    + intros σ g s r c x t aw rg nt n HF. exists [KTask Idle]. split; [done|]. apply IH.
      rewrite has_REGISTERING. by eapply task_not_registering.
    + intros σ g s r c x t aw rg nt n HF ->. right. rewrite has_REGISTERING in Hg. rewrite has_NOTIFYING in Ek.
      subst. exists [KReg], s, r, c, x, t, aw, true, false, n. split; [|by apply spec_ret].
      rewrite lor_REGISTERING. facts_step HF.
Qed.

Lemma spec_register_end fuel w state : spec [KReg] (register_end fuel w state) (fun l _ => l = [KTask Idle]).
Proof.
  revert w state. induction fuel as [|fuel IH]; intros w state; [done|]. cbn [register_end].
  eapply (spec_bind _ _ _ (fun l _ => l = [KReg])).
  { destruct (has state NOTIFYING); [|by apply spec_ret].
    apply (spec_seq [KReg] [KReg] []); [apply (spec_cell_take _ KRegIn); right; done|].
    intros o. by apply spec_ret. }
  intros l' w' ->. cbn zeta. apply spec_cas_weak_bind.
  - intros σ g s r c x t aw rg nt n HF. exists [KReg]. auto.
  - intros σ g s r c x t aw rg nt n HF ->. right. bound HF.
    assert (E : exists aw', match w' with
      | Some _ => Z.land (Z.land (Z.land (enc s r c x t aw rg nt n) (wnot NOTIFYING)) (wnot REGISTERING)) (wnot AWAITER)
      | None => Z.lor (Z.land (Z.land (enc s r c x t aw rg nt n) (wnot NOTIFYING)) (wnot REGISTERING)) AWAITER
      end = enc s r c x t aw' false false n).
    { destruct w'; autorewrite with task; eauto. }
    destruct E as [aw' ->]. exists [KTask Idle], s, r, c, x, t, aw', false, false, n.
    split; [facts_step HF|]. eapply spec_mono; [apply spec_wake_option|]. by intros ? ? ->.
Qed.

Lemma spec_register fuel w : spec [KTask Idle] (register fuel w) (fun l _ => l = [KTask Idle]).
Proof.
  unfold register. eapply (spec_bind _ _ _ (fun l state => l = [KTask Idle] /\ has state REGISTERING = false)).
  - apply spec_rmw. intros σ g s r c x t aw rg nt n HF w0. exists [KTask Idle], s, r, c, x, t, aw, rg, nt, n.
    unfold w0. rewrite lor_0, has_REGISTERING. split_and!; [|done|by eapply task_not_registering].
    rewrite <- (fc_word _ _ _ _ _ _ _ _ _ _ _ HF). by apply facts_same.
  - intros l' state [-> Hg]. eapply spec_bind; [by apply spec_register_begin|]. intros l' [state'|] ->; [|by apply spec_ret].
    apply (spec_seq [KReg] [KReg] []); [apply (spec_cell_put w _ KRegIn); right; done|]. intros _.
    apply spec_register_end.
Qed.
