(* ===== verification/TaskSafe.v ===== *)
(** The task is safe: every operation of [Task] keeps the invariant, and what
    follows for all executions. *)

From S2P Require Import Prelude Conc Task TaskSteps.

(** * Releasing, running and completing

    What does not depend on the schedule function. *)

Lemma spec_drop_ref : spec [KRef Idle] drop_ref (fun l _ => l = []).
Proof.
  unfold drop_ref. eapply spec_bind; [apply spec_sub; auto|]. intros l' old ->. cbn zeta.
  fold (zero_refs_of (wrapping_sub old REFERENCE)).
  destruct (zero_refs_of _); [|by apply spec_ret].
  destruct (Z.land _ _ =? 0); apply spec_destroy.
Qed.

(** ** The future and the output *)

(** Changing the future in the block. *)
Ltac fut_step HF Ef := destruct HF; rewrite Ef in *; arith; bits; constructor; arith;
  rewrite ?Ef; first [assumption|lia].

Lemma spec_poll_enter : spec [KRun]
  (access (fun σ => match fut σ with FPresent => Some ((), set_fut FPolled σ) | _ => None end))
  (fun l _ => l = [KPoll]).
Proof.
  apply spec_access. intros σ g s r c x t aw rg nt n Ha HF. destruct (fut σ) eqn:Ef.
  - exists [KPoll]. split; [|done]. unfold Inv. cbn [set_fut alive]. rewrite Ha.
    exists s, r, c, x, t, aw, rg, nt, n. fut_step HF Ef.
  - destruct HF; rewrite Ef in *; arith; lia.
  - destruct HF; rewrite Ef in *; arith; lia.
Qed.

Lemma spec_poll_leave : spec [KPoll]
  (access (fun σ => match fut σ with FPolled => Some ((), set_fut FPresent σ) | _ => None end))
  (fun l _ => l = [KRun]).
Proof.
  apply spec_access. intros σ g s r c x t aw rg nt n Ha HF. destruct (fut σ) eqn:Ef.
  - destruct HF; rewrite Ef in *; arith; lia.
  - exists [KRun]. split; [|done]. unfold Inv. cbn [set_fut alive]. rewrite Ha.
    exists s, r, c, x, t, aw, rg, nt, n. fut_step HF Ef.
  - destruct HF; rewrite Ef in *; arith; lia.
Qed.

(** Who may drop the future, and what is left. *)
Definition drops (a b : ttok) : Prop :=
  (a = KQX /\ b = KXD) \/ (a = KXF /\ b = KRef Idle) \/ (a = KRun /\ b = KGone) \/ (a = KRunX /\ b = KRunD).

Lemma spec_drop_future a b : drops a b -> spec [a] drop_future (fun l _ => l = [b]).
Proof.
  intros Hd. apply spec_access. intros σ g s r c x t aw rg nt n Ha HF.
  assert (Ef : fut σ = FPresent).
  { destruct (fut σ) eqn:Ef; [done| |]; exfalso;
      destruct Hd as [[-> ->]|[[-> ->]|[[-> ->]|[-> ->]]]]; destruct HF; rewrite Ef in *; arith; lia. }
  rewrite Ef. exists [b]. split; [|done]. unfold Inv. cbn [set_fut alive]. rewrite Ha.
  exists s, r, c, x, t, aw, rg, nt, n.
  destruct Hd as [[-> ->]|[[-> ->]|[[-> ->]|[-> ->]]]]; fut_step HF Ef.
Qed.

Lemma spec_write_output : spec [KGone] write_output (fun l _ => l = [KDone]).
Proof.
  apply spec_access. intros σ g s r c x t aw rg nt n Ha HF.
  assert (Ef : fut σ = FGone) by (destruct (fut σ) eqn:Ef; [..|done]; exfalso; destruct HF; rewrite Ef in *; arith; lia).
  assert (Eo : out σ = false) by (destruct (out σ) eqn:Eo; [|done]; exfalso; destruct HF; rewrite Eo in *; arith; bits; lia).
  rewrite Ef, Eo. exists [KDone]. split; [|done]. unfold Inv. cbn [set_out alive]. rewrite Ha.
  exists s, r, c, x, t, aw, rg, nt, n. destruct HF; rewrite Eo in *; arith; bits; constructor; arith; first [assumption|lia].
Qed.

Definition takes (a b : ttok) : Prop := (a = KOut /\ b = KRef Idle) \/ (a = KTaskOut Idle /\ b = KTask Idle).

Lemma spec_take_output a b : takes a b -> spec [a] take_output (fun l _ => l = [b]).
Proof.
  intros Ht. apply spec_access. intros σ g s r c x t aw rg nt n Ha HF.
  assert (Eo : out σ = true).
  { destruct (out σ) eqn:Eo; [done|]; exfalso; destruct Ht as [[-> ->]|[-> ->]];
      destruct HF; rewrite Eo in *; arith; bits; lia. }
  rewrite Eo. exists [b]. split; [|done]. unfold Inv. cbn [set_out alive]. rewrite Ha.
  exists s, r, c, x, t, aw, rg, nt, n. destruct Ht as [[-> ->]|[-> ->]];
    destruct HF; rewrite Eo in *; arith; bits; constructor; arith; first [assumption|lia].
Qed.

(** ** Running *)

Lemma spec_finish_run state : spec [KRef Idle] (finish_run state) (fun l _ => l = []).
Proof.
  unfold finish_run. apply (spec_seq [KRef Idle] [KRef Idle] []).
  - destruct (has state AWAITER); [|by apply spec_ret]. apply (spec_take KRef). left. done.
  - intros o. apply (spec_seq [KRef Idle] [] []); [apply spec_drop_ref|]. intros _. apply spec_wake_option.
Qed.

Lemma spec_clear_scheduled : spec [KXD] (tfetch_and (wnot SCHEDULED)) (fun l _ => l = [KRef Idle]).
Proof.
  apply spec_rmw. intros σ g s r c x t aw rg nt n HF w. bound HF. unfold w. autorewrite with task.
  exists [KRef Idle], false, r, c, x, t, aw, rg, nt, n. split; [|done]. facts_step HF.
Qed.

Lemma spec_clear_running : spec [KRunD] (tfetch_and (Z.land (wnot RUNNING) (wnot SCHEDULED)))
  (fun l _ => l = [KRef Idle]).
Proof.
  apply spec_rmw. intros σ g s r c x t aw rg nt n HF w. bound HF. unfold w.
  rewrite Z.land_assoc. autorewrite with task.
  exists [KRef Idle], false, false, c, x, t, aw, rg, nt, n. split; [|done]. facts_step HF.
Qed.

(** What reading the word tells the one that may run the task. *)
Definition runner (closed : bool) : ttok := if closed then KQX else KQ.
Definition runner_on (closed : bool) : ttok := if closed then KRunX else KRun.

Lemma read_runner σ g s r c x t aw rg nt n :
  facts σ (fun k => cnt [KQ] k + g k)%nat s r c x t aw rg nt n ->
  facts σ (fun k => cnt [runner x] k + g k)%nat s r c x t aw rg nt n.
Proof. intros HF. destruct x; [|done]. cbn [runner]. facts_step HF. Qed.

Lemma read_running σ g s r c x t aw rg nt n :
  facts σ (fun k => cnt [KRun] k + g k)%nat s r c x t aw rg nt n ->
  facts σ (fun k => cnt [runner_on x] k + g k)%nat s r c x t aw rg nt n.
Proof. intros HF. destruct x; [|done]. cbn [runner_on]. facts_step HF. Qed.

Lemma spec_run_begin fuel state : spec [runner (has state CLOSED)] (run_begin fuel state)
  (fun l o => match o with None => l = [] | Some s => l = [KRun] /\ has s CLOSED = false end).
Proof.
  revert state. induction fuel as [|fuel IH]; intros state; [done|]. cbn [run_begin].
  destruct (has state CLOSED) eqn:Ex; cbn [runner].
  - apply (spec_seq [KQX] [KXD] []); [apply spec_drop_future; unfold drops; auto|]. intros _.
    apply (spec_seq [KXD] [KRef Idle] []); [apply spec_clear_scheduled|]. intros s.
    apply (spec_seq [KRef Idle] [] []); [apply spec_finish_run|]. intros _. by apply spec_ret.
  - cbn zeta. apply spec_cas_weak_bind.
    + intros σ g s r c x t aw rg nt n HF. exists [runner x]. split; [by apply read_runner|].
      specialize (IH (enc s r c x t aw rg nt n)). by rewrite has_CLOSED in IH.
    + intros σ g s r c x t aw rg nt n HF ->. right. bound HF. rewrite has_CLOSED in Ex. subst x.
      autorewrite with task. exists [KRun], false, true, c, false, t, aw, rg, nt, n.
      split; [facts_step HF|]. apply spec_ret. by rewrite has_CLOSED.
Qed.

Lemma spec_run_ready fuel state : spec [KDone] (run_ready fuel state) (fun l _ => l = []).
Proof.
  revert state. induction fuel as [|fuel IH]; intros state; [done|]. cbn [run_ready]. cbn zeta.
  apply spec_cas_weak_bind.
  - intros σ g s r c x t aw rg nt n HF. exists [KDone]. auto.
  - intros σ g s r c x t aw rg nt n HF ->. right. bound HF.
    rewrite has_TASK, has_CLOSED.
    destruct (negb t || x) eqn:Etx.
    + exists [KOut], false, false, true, true, t, aw, rg, nt, n. split.
      * destruct t; cbn [negb orb] in *; [subst x|]; autorewrite with task; [facts_step HF|destruct x; facts_step HF].
      * apply (spec_seq [KOut] [KRef Idle] []); [apply spec_take_output; left; done|]. intros _. apply spec_finish_run.
    + apply orb_false_iff in Etx as [Et ->]. apply negb_false_iff in Et as ->. cbn [negb].
      autorewrite with task. exists [KRef Idle], false, false, true, false, true, aw, rg, nt, n.
      split; [facts_step HF|]. apply (spec_seq [KRef Idle] [KRef Idle] []); [by apply spec_ret|].
      intros _. apply spec_finish_run.
Qed.

Lemma runx_closed σ g s r c x t aw rg nt n :
  facts σ (fun k => cnt [KRunD] k + g k)%nat s r c x t aw rg nt n -> x = true.
Proof. intros HF. destruct HF; arith; bits. destruct x; [done|arith; lia]. Qed.

Lemma spec_guard_loop fuel state : spec [runner_on (has state CLOSED)] (guard_loop fuel state) (fun l _ => l = []).
Proof.
  revert state. induction fuel as [|fuel IH]; intros state; [done|]. cbn [guard_loop].
  destruct (has state CLOSED) eqn:Ex; cbn [runner_on].
  - apply (spec_seq [KRunX] [KRunD] []); [apply spec_drop_future; unfold drops; auto|]. intros _.
    apply (spec_seq [KRunD] [KRef Idle] []); [apply spec_clear_running|]. intros _. apply spec_finish_run.
  - apply spec_cas_weak_bind.
    + intros σ g s r c x t aw rg nt n HF. exists [runner_on x]. split; [by apply read_running|].
      specialize (IH (enc s r c x t aw rg nt n)). by rewrite has_CLOSED in IH.
    + intros σ g s r c x t aw rg nt n HF ->. right. bound HF. autorewrite with task.
      exists [KXF], false, false, c, true, t, aw, rg, nt, n. split; [facts_step HF|].
      apply (spec_seq [KXF] [KRef Idle] []); [apply spec_drop_future; unfold drops; auto|]. intros _.
      apply spec_finish_run.
Qed.

Lemma spec_guard_drop fuel : spec [KRun] (guard_drop fuel) (fun l _ => l = []).
Proof.
  apply spec_load_bind. intros σ g s r c x t aw rg nt n HF. exists [runner_on x]. split; [by apply read_running|].
  pose proof (spec_guard_loop fuel (enc s r c x t aw rg nt n)) as H. by rewrite has_CLOSED in H.
Qed.


(** * [runnable.rs] *)

(** A task with a runnable is not completed. *)
Lemma runner_not_completed σ g s r c x t aw rg nt n :
  facts σ (fun k => cnt [KQ] k + g k)%nat s r c x t aw rg nt n -> c = false.
Proof. intros HF. destruct HF; arith; bits. destruct c; [arith; lia|done]. Qed.

Lemma spec_close_loop fuel state : has state (Z.lor COMPLETED CLOSED) = has state CLOSED ->
  spec [runner (has state CLOSED)] (close_loop fuel state) (fun l _ => l = [KQX]).
Proof.
  revert state. induction fuel as [|fuel IH]; intros state Hs; [done|]. cbn [close_loop]. rewrite Hs.
  destruct (has state CLOSED) eqn:Ex; cbn [runner]; [by apply spec_ret|]. apply spec_cas_weak_bind.
  - intros σ g s r c x t aw rg nt n HF. pose proof (runner_not_completed _ _ _ _ _ _ _ _ _ _ _ HF) as ->.
    exists [runner x]. split; [by apply read_runner|].
    specialize (IH (enc s r false x t aw rg nt n)). rewrite has_CLOSED, has_finished in IH. by apply IH.
  - intros σ g s r c x t aw rg nt n HF ->. right. rewrite has_CLOSED in Ex. subst x. rewrite lor_CLOSED.
    exists [KQX], s, r, c, true, t, aw, rg, nt, n. split; [bound HF; facts_step HF|by apply spec_ret].
Qed.

Lemma spec_drop_runnable fuel : spec [KQ] (drop_runnable fuel) (fun l _ => l = []).
Proof.
  apply spec_load_bind. intros σ g s r c x t aw rg nt n HF.
  pose proof (runner_not_completed _ _ _ _ _ _ _ _ _ _ _ HF) as ->. exists [runner x].
  split; [by apply read_runner|].
  pose proof (spec_close_loop fuel (enc s r false x t aw rg nt n)) as Hc.
  rewrite has_CLOSED, has_finished in Hc. specialize (Hc eq_refl).
  apply (spec_seq [runner x] [KQX] []); [done|]. intros _.
  apply (spec_seq [KQX] [KXD] []); [apply spec_drop_future; unfold drops; auto|]. intros _.
  apply (spec_seq [KXD] [KRef Idle] []); [apply spec_clear_scheduled|]. intros st.
  apply (spec_seq [KRef Idle] [KRef Idle] []); [|intros _; apply spec_drop_ref].
  destruct (has st AWAITER); [apply (spec_notify KRef); left; done|by apply spec_ret].
Qed.

(** * Polling the handle *)

Lemma spec_poll_task_loop fuel w state :
  spec [KTask Idle] (poll_task_loop fuel w state) (fun l _ => l = [KTask Idle]).
Proof.
  revert state. induction fuel as [|fuel IH]; intros state; [done|]. cbn [poll_task_loop]. cbn zeta.
  assert (Hclosed : spec [KTask Idle] (notify (Some w) ;; mret (@Ready (option unit) None)) (fun l _ => l = [KTask Idle])).
  { apply (spec_seq [KTask Idle] [KTask Idle] []); [apply (spec_notify KTask); right; left; done|].
    intros _. by apply spec_ret. }
  assert (Htake : forall state, has state COMPLETED = true -> has state CLOSED = false ->
    spec [KTask Idle] (r ← tcas state (Z.lor state CLOSED);
        match r with
        | Ok _ => (if has state AWAITER then notify (Some w) else mret ()) ;;
                  take_output ;; mret (Ready (Some ()))
        | Err s => poll_task_loop fuel w s
        end) (fun l _ => l = [KTask Idle])).
  { clear state. intros state Hc Hx. apply spec_cas_bind.
    - intros σ g s r c x t aw rg nt n HF. exists [KTask Idle]. auto.
    - intros σ g s r c x t aw rg nt n HF ->. right. bound HF. rewrite has_COMPLETED in Hc.
      rewrite has_CLOSED in Hx. subst. rewrite lor_CLOSED.
      exists [KTaskOut Idle], s, r, true, true, t, aw, rg, nt, n. split; [facts_step HF|].
      apply (spec_seq [KTaskOut Idle] [KTaskOut Idle] []).
      + rewrite has_AWAITER. destruct aw; [apply (spec_notify KTaskOut); right; right; done|by apply spec_ret].
      + intros _. apply (spec_seq [KTaskOut Idle] [KTask Idle] []); [apply spec_take_output; right; done|].
        intros _. by apply spec_ret. }
  destruct (has state CLOSED) eqn:Ex.
  - destruct (has state (Z.lor SCHEDULED RUNNING)); [|exact Hclosed].
    apply (spec_seq [KTask Idle] [KTask Idle] []); [apply spec_register|]. intros _.
    apply spec_load_bind. intros σ g s r c x t aw rg nt n HF. exists [KTask Idle]. split; [done|].
    rewrite has_pending. destruct (s || r); [by apply spec_ret|exact Hclosed].
  - destruct (has state COMPLETED) eqn:Ec; cbn [negb]; [by apply Htake|].
    apply (spec_seq [KTask Idle] [KTask Idle] []); [apply spec_register|]. intros _.
    apply spec_load_bind. intros σ g s r c x t aw rg nt n HF. exists [KTask Idle]. split; [done|].
    rewrite has_CLOSED, has_COMPLETED. destruct x; [apply IH|]. destruct c; cbn [negb]; [|by apply spec_ret].
    apply Htake; [apply has_COMPLETED|apply has_CLOSED].
Qed.

Lemma spec_poll_task fuel w : spec [KTask Idle] (poll_task fuel w) (fun l _ => l = [KTask Idle]).
Proof.
  apply spec_load_bind. intros σ g s r c x t aw rg nt n HF. exists [KTask Idle]. split; [done|].
  apply spec_poll_task_loop.
Qed.


(** ** The schedule function *)

Section schedule.
Context (zst : bool).

Lemma spec_access_id a : spec [a] (access (fun σ => Some ((), σ))) (fun l _ => l = [a]).
Proof.
  apply spec_access. intros σ g s r c x t aw rg nt n Ha HF. exists [a]. split; [|done].
  unfold Inv. rewrite Ha. eauto 12.
Qed.

Lemma spec_call_zst : spec [KQ] (call_schedule true) (fun l _ => l = []).
Proof.
  unfold call_schedule, closure_access. apply (spec_seq [KQ] [] []); [apply spec_put_runnable|].
  intros _. apply spec_atomic. intros σ g HI. by exists [].
Qed.

(** With data in it, some other token has to keep the block alive. *)
Lemma spec_call b : b = KW \/ b = KPoll ->
  spec [KQ; b] (call_schedule zst) (fun l _ => l = [b]).
Proof.
  intros Hb. destruct zst.
  - eapply spec_mono; [apply (spec_frame [b] [KQ]), spec_call_zst|]. by intros l a (? & -> & ->).
  - unfold call_schedule, closure_access. apply (spec_seq [KQ; b] [b] []).
    + apply spec_access. intros σ g s r c x t aw rg nt n Ha HF. exists [b]. split; [|done].
      unfold Inv. cbn [set_runnables alive]. rewrite Ha.
      exists s, r, c, x, t, aw, rg, nt, n. destruct Hb as [->| ->]; facts_step HF.
    + intros _. apply spec_access_id.
Qed.

Lemma spec_schedule_with dw :
  spec [KW] dw (fun l _ => l = []) -> spec [KQ] (schedule_with zst dw) (fun l _ => l = []).
Proof.
  intros Hdw. unfold schedule_with. pose proof spec_call as Hcall. destruct zst; [apply spec_call_zst|].
  apply (spec_seq [KQ] [KW; KQ] []); [apply spec_clone_waker; unfold borrows; auto|]. intros _.
  apply (spec_perm [KQ; KW]); [apply perm_swap|].
  apply (spec_seq [KQ; KW] [KW] []); [apply Hcall; auto|]. intros _. exact Hdw.
Qed.

Lemma spec_drop_waker fuel : spec [KW] (drop_waker zst fuel) (fun l _ => l = []).
Proof.
  induction fuel as [|fuel IH]; [done|]. cbn [drop_waker].
  eapply spec_bind; [apply spec_sub; auto|]. intros l' old ->. cbn zeta. fold (zero_refs_of (wrapping_sub old REFERENCE)).
  destruct (zero_refs_of _); [|by apply spec_ret].
  destruct (Z.land _ _ =? 0); [|apply spec_destroy].
  apply (spec_seq [KLast] [KQ] []); [apply spec_reschedule|]. intros _. by apply spec_schedule_with.
Qed.

Lemma spec_schedule fuel : spec [KQ] (schedule zst fuel) (fun l _ => l = []).
Proof. apply spec_schedule_with, spec_drop_waker. Qed.


(** ** Waking *)



Lemma spec_wake_by_ref_loop b fuel state : b = KW \/ b = KPoll ->
  spec [b] (wake_by_ref_loop zst fuel state) (fun l _ => l = [b]).
Proof.
  intros Hb. revert state. induction fuel as [|fuel IH]; intros state; [done|]. cbn [wake_by_ref_loop].
  destruct (has state (Z.lor COMPLETED CLOSED)) eqn:Ef; [by apply spec_ret|].
  destruct (has state SCHEDULED) eqn:Es.
  - apply spec_cas_weak_bind.
    + intros σ g s r c x t aw rg nt n HF. exists [b]. auto.
    + intros σ g s r c x t aw rg nt n HF E. right. exists [b], s, r, c, x, t, aw, rg, nt, n.
      split; [|by apply spec_ret]. rewrite E, <- (fc_word _ _ _ _ _ _ _ _ _ _ _ HF). by apply facts_same.
  - apply spec_cas_weak_bind.
    + intros σ g s r c x t aw rg nt n HF. exists [b]. auto.
    + intros σ g s r c x t aw rg nt n HF ->. bound HF.
      rewrite has_finished in Ef. rewrite has_SCHEDULED in Es. apply orb_false_iff in Ef as [-> ->]. subst s.
      rewrite has_RUNNING. destruct r; cbn [negb].
      * right. exists [b], true, true, false, false, t, aw, rg, nt, n. split; [|by apply spec_ret].
        rewrite lor_SCHEDULED. destruct Hb as [->| ->]; facts_step HF.
      * destruct (Z.ltb_spec isize_MAX (enc false false false false t aw rg nt n)); [by left|right].
        exists [KQ; b], true, false, false, false, t, aw, rg, nt, (S n). split; [|by apply spec_call].
        assert (256 * Z.of_nat n <= 2 ^ 63 - 1).
        { pose proof (flags_range false false false false t aw rg nt). unfold enc, isize_MAX in *. lia. }
        rewrite lor_SCHEDULED, plus_ref. destruct Hb as [->| ->]; facts_step HF.
Qed.

Lemma spec_wake_by_ref b fuel : b = KW \/ b = KPoll ->
  spec [b] (wake_by_ref zst fuel) (fun l _ => l = [b]).
Proof.
  intros Hb. apply spec_load_bind. intros σ g s r c x t aw rg nt n HF. exists [b]. split; [done|].
  by apply spec_wake_by_ref_loop.
Qed.

(** [wake] consumes the waker. *)
Lemma spec_wake fuel : spec [KW] (wake zst fuel) (fun l _ => l = []).
Proof.
  unfold wake. destruct (negb zst).
  - apply (spec_seq [KW] [KW] []); [apply spec_wake_by_ref; auto|]. intros _. apply spec_drop_waker.
  - apply spec_load_bind. intros σ g s r c x t aw rg nt n HF. exists [KW]. split; [done|]. clear.
    generalize (enc s r c x t aw rg nt n) as state. clear s r c x t aw rg nt n.
    induction fuel as [|fuel IH]; intros state; [done|]. cbn [wake_loop].
    destruct (has state (Z.lor COMPLETED CLOSED)) eqn:Ef; [apply spec_drop_waker|].
    destruct (has state SCHEDULED) eqn:Es; apply spec_cas_weak_bind.
    + intros σ g s r c x t aw rg nt n HF. exists [KW]. auto.
    + intros σ g s r c x t aw rg nt n HF E. right. exists [KW], s, r, c, x, t, aw, rg, nt, n.
      split; [|apply spec_drop_waker]. rewrite E, <- (fc_word _ _ _ _ _ _ _ _ _ _ _ HF). by apply facts_same.
    + intros σ g s r c x t aw rg nt n HF. exists [KW]. auto.
    + intros σ g s r c x t aw rg nt n HF ->. right.
      rewrite has_finished in Ef. rewrite has_SCHEDULED in Es. apply orb_false_iff in Ef as [-> ->]. subst s.
      rewrite has_RUNNING, lor_SCHEDULED. destruct r; cbn [negb].
      * exists [KW], true, true, false, false, t, aw, rg, nt, n. split; [facts_step HF|apply spec_drop_waker].
      * exists [KQ], true, false, false, false, t, aw, rg, nt, n. split; [facts_step HF|apply spec_schedule].
Qed.

Lemma spec_poll_body fuel : spec [KPoll] (poll_body zst fuel) (fun l _ => l = [KPoll]).
Proof.
  induction fuel as [|fuel IH]; [done|]. cbn [poll_body]. intros [|].
  - intros [|].
    + apply (spec_seq [KPoll] [KW; KPoll] []); [apply spec_clone_waker; unfold borrows; auto|]. intros _.
      apply (spec_seq [KW] [] [KPoll]); [apply spec_put_waker|]. intros _. exact IH.
    + apply (spec_seq [KPoll] [KPoll] []); [apply spec_wake_by_ref; auto|]. intros _. exact IH.
  - intros [|]; [by apply spec_ret|]. intros [|]; by apply spec_ret.
Qed.

Lemma spec_poll_future fuel : spec [KRun] (poll_future zst fuel) (fun l _ => l = [KRun]).
Proof.
  apply (spec_seq [KRun] [KPoll] []); [apply spec_poll_enter|]. intros _.
  apply (spec_seq [KPoll] [KPoll] []); [apply spec_poll_body|]. intros p.
  apply (spec_seq [KPoll] [KRun] []); [apply spec_poll_leave|]. intros _. by apply spec_ret.
Qed.

Lemma spec_run_pending fuel (future_dropped : bool) state :
  (future_dropped = true -> has state CLOSED = true) ->
  spec [if future_dropped then KRunD else runner_on (has state CLOSED)]
    (run_pending zst fuel future_dropped state) (fun l _ => l = []).
Proof.
  revert future_dropped state. induction fuel as [|fuel IH]; intros fd state Hfd; [done|]. cbn [run_pending]. cbn zeta.
  apply (spec_seq [if fd then KRunD else runner_on (has state CLOSED)]
           [if has state CLOSED then KRunD else KRun] []).
  { destruct fd; [rewrite Hfd by done; by apply spec_ret|].
    destruct (has state CLOSED); cbn [negb andb runner_on]; [apply spec_drop_future; unfold drops; auto|by apply spec_ret]. }
  intros _. rewrite app_nil_r. replace (fd || has state CLOSED && negb fd) with (has state CLOSED)
    by (destruct fd; [by rewrite Hfd|by destruct (has state CLOSED)]).
  apply spec_cas_weak_bind.
  - intros σ g s r c x t aw rg nt n HF. destruct (has state CLOSED).
    + pose proof (runx_closed _ _ _ _ _ _ _ _ _ _ _ HF) as ->. exists [KRunD]. split; [done|].
      apply (IH true). intros _. by rewrite has_CLOSED.
    + exists [runner_on x]. split; [by apply read_running|].
      specialize (IH false (enc s r c x t aw rg nt n)). rewrite has_CLOSED in IH. by apply IH.
  - intros σ g s r c x t aw rg nt n HF ->. right. bound HF. rewrite has_CLOSED in *. rewrite has_SCHEDULED.
    destruct x.
    + autorewrite with task. exists [KRef Idle], false, false, c, true, t, aw, rg, nt, n.
      split; [facts_step HF|]. apply (spec_seq [KRef Idle] [] []); [apply spec_finish_run|]. intros _. by apply spec_ret.
    + autorewrite with task. destruct s.
      * exists [KQ], true, false, c, false, t, aw, rg, nt, n. split; [facts_step HF|].
        apply (spec_seq [KQ] [] []); [apply spec_schedule|]. intros _. by apply spec_ret.
      * exists [KRef Idle], false, false, c, false, t, aw, rg, nt, n. split; [facts_step HF|].
        apply (spec_seq [KRef Idle] [] []); [apply spec_drop_ref|]. intros _. by apply spec_ret.
Qed.

Lemma spec_run fuel : spec [KQ] (run zst fuel) (fun l _ => l = []).
Proof.
  unfold run. apply spec_load_bind. intros σ g s r c x t aw rg nt n HF. exists [runner x].
  split; [by apply read_runner|].
  pose proof (spec_run_begin fuel (enc s r c x t aw rg nt n)) as Hb. rewrite has_CLOSED in Hb.
  eapply spec_bind; [exact Hb|]. intros l' [state|] Hl; [|by subst; apply spec_ret]. destruct Hl as [-> Hx].
  apply (spec_seq [KRun] [KRun] []); [apply spec_poll_future|]. intros [| |].
  - apply (spec_seq [KRun] [KGone] []); [apply spec_drop_future; unfold drops; auto|]. intros _.
    apply (spec_seq [KGone] [KDone] []); [apply spec_write_output|]. intros _.
    apply (spec_seq [KDone] [] []); [apply spec_run_ready|]. intros _. by apply spec_ret.
  - pose proof (spec_run_pending fuel false state) as Hp. rewrite Hx in Hp. by apply Hp.
  - apply (spec_seq [KRun] [] []); [apply spec_guard_drop|]. intros _. by apply spec_ret.
Qed.

(** * [task.rs] *)

Lemma spec_set_canceled_loop fuel state :
  spec [KTask Idle] (set_canceled_loop zst fuel state) (fun l _ => l = [KTask Idle]).
Proof.
  revert state. induction fuel as [|fuel IH]; intros state; [done|]. cbn [set_canceled_loop].
  destruct (has state (Z.lor COMPLETED CLOSED)) eqn:Ef; [by apply spec_ret|]. cbn zeta.
  assert (Hn : spec [KTask Idle] (if has state AWAITER then notify None else mret ()) (fun l _ => l = [KTask Idle])).
  { destruct (has state AWAITER); [apply (spec_notify KTask); right; left; done|by apply spec_ret]. }
  apply spec_cas_weak_bind.
  - intros σ g s r c x t aw rg nt n HF. exists [KTask Idle]. auto.
  - intros σ g s r c x t aw rg nt n HF ->. right. bound HF. rewrite has_finished in Ef.
    apply orb_false_iff in Ef as [-> ->]. rewrite has_pending. destruct (s || r) eqn:Esr; cbn [negb].
    + rewrite lor_CLOSED. exists [KTask Idle], s, r, false, true, t, aw, rg, nt, n.
      assert (1 <= b2n s + b2n r)%nat by (destruct s, r; simpl in *; (done || lia)).
      split; [facts_step HF|]. apply (spec_seq [KTask Idle] [KTask Idle] []); [by apply spec_ret|]. intros _. exact Hn.
    + apply orb_false_iff in Esr as [-> ->]. rewrite lor_SCHEDULED, lor_CLOSED, plus_ref.
      exists [KQ; KTask Idle], true, false, false, true, t, aw, rg, nt, (S n). split; [facts_step HF|].
      apply (spec_seq [KQ] [] [KTask Idle]); [apply spec_schedule|]. intros _. exact Hn.
Qed.

Lemma spec_set_canceled fuel : spec [KTask Idle] (set_canceled zst fuel) (fun l _ => l = [KTask Idle]).
Proof.
  apply spec_load_bind. intros σ g s r c x t aw rg nt n HF. exists [KTask Idle]. split; [done|].
  apply spec_set_canceled_loop.
Qed.

Lemma spec_set_detached_loop fuel output state :
  spec [KTask Idle] (set_detached_loop zst fuel output state) (fun l _ => l = []).
Proof.
  revert output state. induction fuel as [|fuel IH]; intros output state; [done|]. cbn [set_detached_loop].
  destruct (has state COMPLETED && negb (has state CLOSED)) eqn:Ec.
  - apply spec_cas_weak_bind.
    + intros σ g s r c x t aw rg nt n HF. exists [KTask Idle]. auto.
    + intros σ g s r c x t aw rg nt n HF ->. right. bound HF. rewrite has_COMPLETED, has_CLOSED in Ec.
      apply andb_true_iff in Ec as [-> ->%negb_true_iff]. rewrite lor_CLOSED.
      exists [KTaskOut Idle], s, r, true, true, t, aw, rg, nt, n. split; [facts_step HF|].
      apply (spec_seq [KTaskOut Idle] [KTask Idle] []); [apply spec_take_output; right; done|]. intros _. apply IH.
  - cbn zeta. apply spec_cas_weak_bind.
    + intros σ g s r c x t aw rg nt n HF. exists [KTask Idle]. auto.
    + intros σ g s r c x t aw rg nt n HF ->. right. bound HF. rewrite has_COMPLETED, has_CLOSED in Ec.
      assert (Hcx : (b2n c <= b2n x)%nat) by (destruct c, x; simpl in *; (done || lia)). clear Ec.
      rewrite zero_refs_closed, zero_refs, has_CLOSED by lia. destruct (Nat.eqb_spec n 0) as [->|Hn]; cbn [andb].
      * destruct x; cbn [negb].
        -- rewrite clear_TASK by lia. exists [KFree], s, r, c, true, false, aw, rg, nt, 0%nat.
           split; [facts_step HF|]. apply (spec_seq [KFree] [] []); [apply spec_destroy|]. intros _. by apply spec_ret.
        -- change (Z.lor (Z.lor SCHEDULED CLOSED) REFERENCE) with (enc true false false true false false false false 1).
           exists [KQ], true, false, false, true, false, false, false, false, 1%nat. split.
           ++ assert (Ef : fut σ <> FGone) by (intros Ef; destruct HF; rewrite Ef in *; arith; bits; lia).
              facts_step HF.
           ++ apply (spec_seq [KQ] [] []); [apply spec_schedule|]. intros _. by apply spec_ret.
      * rewrite clear_TASK by lia. exists [], s, r, c, x, false, aw, rg, nt, n. split; [facts_step HF|].
        by apply spec_ret.
Qed.

Lemma spec_set_detached fuel : spec [KTask Idle] (set_detached zst fuel) (fun l _ => l = []).
Proof.
  apply spec_cas_weak_bind.
  - intros σ g s r c x t aw rg nt n HF. exists [KTask Idle]. split; [done|]. apply spec_set_detached_loop.
  - intros σ g s r c x t aw rg nt n HF E. right.
    change (Z.lor (Z.lor SCHEDULED TASK) REFERENCE) with (enc true false false false true false false false 1) in E.
    apply enc_inj in E as [E <-]. assert (s = true /\ r = false /\ c = false /\ x = false /\ t = true /\ aw = false /\ rg = false /\ nt = false)
      as (-> & -> & -> & -> & -> & -> & -> & ->) by (destruct s, r, c, x, t, aw, rg, nt; done).
    change (Z.lor SCHEDULED REFERENCE) with (enc true false false false false false false false 1).
    exists [], true, false, false, false, false, false, false, false, 1%nat. split; [facts_step HF|by apply spec_ret].
Qed.

Lemma spec_drop_task fuel : spec [KTask Idle] (drop_task zst fuel) (fun l _ => l = []).
Proof.
  apply (spec_seq [KTask Idle] [KTask Idle] []); [apply spec_set_canceled|]. intros _.
  apply (spec_seq [KTask Idle] [] []); [apply spec_set_detached|]. intros _. by apply spec_ret.
Qed.
End schedule.

(** * All executions *)

Lemma spec_taskcode zst op : spec [] (taskcode zst op) (fun l _ => l = []).
Proof.
  destruct op as [fuel|fuel|fuel| |fuel|fuel| |fuel|fuel|fuel|fuel w|fuel]; cbn [taskcode];
    first [apply (spec_seq [] [KQ] []); [apply spec_take_runnable|]
          |apply (spec_seq [] [KW] []); [apply spec_take_waker|]
          |apply (spec_seq [] [KTask Idle] []); [apply spec_take_handle|]]; intros _.
  - apply (spec_seq [KQ] [] []); [apply spec_run|]. intros _. by apply spec_ret.
  - apply (spec_seq [KQ] [] []); [apply spec_drop_runnable|]. intros _. by apply spec_ret.
  - apply (spec_seq [KQ] [] []); [apply spec_schedule|]. intros _. by apply spec_ret.
  - apply (spec_seq [KQ] [KW; KQ] []); [apply spec_clone_waker; unfold borrows; auto|]. intros _.
    apply (spec_seq [KW] [] [KQ]); [apply spec_put_waker|]. intros _.
    apply (spec_seq [KQ] [] []); [apply spec_put_runnable|]. intros _. by apply spec_ret.
  - apply (spec_seq [KW] [] []); [apply spec_wake|]. intros _. by apply spec_ret.
  - apply (spec_seq [KW] [KW] []); [apply spec_wake_by_ref; auto|]. intros _.
    apply (spec_seq [KW] [] []); [apply spec_put_waker|]. intros _. by apply spec_ret.
  - apply (spec_seq [KW] [KW; KW] []); [apply spec_clone_waker; unfold borrows; auto|]. intros _.
    apply (spec_seq [KW] [] [KW]); [apply spec_put_waker|]. intros _.
    apply (spec_seq [KW] [] []); [apply spec_put_waker|]. intros _. by apply spec_ret.
  - apply (spec_seq [KW] [] []); [apply spec_drop_waker|]. intros _. by apply spec_ret.
  - apply (spec_seq [KTask Idle] [] []); [apply spec_set_detached|]. intros _. by apply spec_ret.
  - apply (spec_seq [KTask Idle] [KTask Idle] []); [apply spec_set_canceled|]. intros _.
    apply (spec_seq [KTask Idle] [] []); [apply spec_put_handle|]. intros _. by apply spec_ret.
  - apply (spec_seq [KTask Idle] [KTask Idle] []); [apply spec_poll_task|]. intros p.
    apply (spec_seq [KTask Idle] [] []); [apply spec_put_handle|]. intros _. by apply spec_ret.
  - apply (spec_seq [KTask Idle] [] []); [apply spec_drop_task|]. intros _. by apply spec_ret.
Qed.

Definition notok {C} (c : C) : gmultiset ttok := ∅.

Lemma taskops_ok zst : ops_ok (taskcode zst) taskstart taskfinish TInv notok.
Proof.
  intros c op c' [= <-]. exists ∅. split; [done|]. eapply ok_mono; [apply spec_taskcode|].
  intros m r (l & -> & ->). done.
Qed.

Lemma TInv_spawn : TInv spawn ∅.
Proof.
  unfold TInv, Inv. exists true, false, false, false, true, false, false, false, 1%nat.
  constructor; rewrite ?multiplicity_empty; try reflexivity; try (cbn; lia).
Qed.

(** C11: in every interleaving of threads that run, drop, reschedule and wake
    a task, poll, cancel, detach and drop its handle, with every answer of
    the future (panics included), nothing crashes: the block is never used
    after it is freed or freed twice, the future is polled by one thread at a
    time and neither polled nor dropped after it is gone, the output is read
    or dropped at most once and only if it is there, and no two threads are
    in the awaiter cell.  At most one runnable exists; a block some handle
    refers to is there; and when no operation is under way and no handle is
    left, the block has been freed and no output was left in it. *)
Theorem task_safety (zst : bool) (k : nat)
    (c : config TS taskop (option (poll (option unit))) (option (poll (option unit)))) :
  reachable (taskcode zst) taskstart taskfinish (task_pool k) c ->
  existsb thread_aborted (threads c) = false ->
  existsb thread_crashed (threads c) = false /\
  (runnables (shared c) <= 1)%nat /\
  ((0 < wakers (shared c) + runnables (shared c))%nat \/ handle (shared c) = true -> alive (shared c) = true) /\
  (Forall (fun t => running t = None) (threads c) -> alive (shared c) = true ->
   word (shared c) / REFERENCE = Z.of_nat (wakers (shared c) + runnables (shared c)) /\
   has (word (shared c)) TASK = handle (shared c)) /\
  (Forall (fun t => running t = None) (threads c) ->
   wakers (shared c) = 0%nat -> runnables (shared c) = 0%nat -> handle (shared c) = false ->
   alive (shared c) = false /\ out (shared c) = false).
Proof.
  intros [es Hr] Ha.
  assert (Hinv : pool_inv taskfinish TInv notok c).
  { eapply run_inv; [apply taskops_ok| |exact Hr]. apply fresh_pool_inv; [done|apply TInv_spawn]. }
  split; [by eapply pool_inv_no_crash|].
  destruct (pool_inv_elim _ _ _ c Hinv Ha) as (ms & HF & HI).
  assert (Hidle : Forall (fun t => running t = None) (threads c) -> ⋃+ ms = ∅).
  { intros Hi. rewrite (idle_tokens _ _ _ _ _ HF Hi). clear.
    induction (threads c) as [|t ts IH]; [done|]. rewrite fmap_cons. cbn. by rewrite IH. }
  unfold TInv, Inv in HI. destruct (alive (shared c)).
  - destruct HI as (s & r & cc & x & t & aw & rg & nt & n & HF'). pose proof (b2n_le (handle (shared c))).
    split_and!; [destruct HF'; lia|done| |].
    + intros Hi _. rewrite (Hidle Hi) in HF'. rewrite (fc_word _ _ _ _ _ _ _ _ _ _ _ HF'), has_TASK.
      destruct HF'; rewrite !multiplicity_empty in *; bits. split.
      * unfold enc. change REFERENCE with 256. pose proof (flags_range s r cc x t aw rg nt).
        rewrite (Z.mul_comm 256), Z.div_add, Z.div_small by lia. lia.
      * destruct t, (handle (shared c)); simpl in *; (done || lia).
    + intros Hi Hw Hq Hh. exfalso. rewrite (Hidle Hi) in HF'. destruct HF'; rewrite !multiplicity_empty in *.
      rewrite Hh in *; cbn [Nat.b2n] in *. lia.
  - destruct HI as (Hw & Hq & Hh & Ho & _). rewrite Hw, Hq, Hh. split_and!; try done; try lia.
Qed.

(** * Concrete executions *)

Definition task_run (es : list (event taskop)) : config TS taskop (option (poll (option unit))) (option (poll (option unit))) :=
  after (taskcode true) taskstart taskfinish es (task_pool 2).
Definition tsteps (i n : nat) : list (event taskop) := replicate n (EStep i false).

(** The handle is polled and registers awaiter 7; the task runs to its end
    and wakes it; the next poll returns the output; the handle is dropped. *)
Definition complete_run : list (event taskop) :=
  [EStart 1%nat (OPoll 9 7)] ++ tsteps 1 12 ++
  [EStart 0%nat (ORun 9)] ++ tsteps 0 6 ++ [EStep 0%nat true] ++ tsteps 0 12 ++
  [EStart 1%nat (OPoll 9 7)] ++ tsteps 1 6 ++ [EStart 1%nat (ODropTask 9)] ++ tsteps 1 8.

Lemma task_safety_witness :
  runs (taskcode true) taskstart taskfinish complete_run (task_pool 2) = true /\
  woken (shared (task_run complete_run)) = [7%nat] /\
  owns <$> threads (task_run complete_run) = [None; Some (Ready (Some tt))] /\
  existsb thread_crashed (threads (task_run complete_run)) = false /\
  alive (shared (task_run complete_run)) = false /\ out (shared (task_run complete_run)) = false.
Proof.
  assert (Hr : runs (taskcode true) taskstart taskfinish complete_run (task_pool 2) = true)
    by (vm_compute; reflexivity).
  split; [exact Hr|split; [vm_compute; reflexivity|split; [vm_compute; reflexivity|]]].
  pose proof (task_safety true 2 _ (after_reachable _ _ _ _ _ Hr) ltac:(vm_compute; reflexivity))
    as (Hc & _ & _ & _ & Hf).
  split; [exact Hc|]. apply Hf; [vm_compute; repeat constructor|vm_compute; reflexivity..].
Defined.

(** Thread 0 polls the future; thread 1 cancels the task meanwhile; the
    future panics; between the guard's load and its [fetch_and], thread 1
    polls the handle and registers awaiter 7. *)
Definition panic_run : list (event taskop) :=
  [EStart 0%nat (ORun 9)] ++ tsteps 0 5 ++ [EStart 1%nat (OCancel 9)] ++ tsteps 1 6 ++
  tsteps 0 2 ++ [EStep 0%nat true] ++ tsteps 0 3 ++
  [EStart 1%nat (OPoll 9 7)] ++ tsteps 1 12 ++ tsteps 0 3.

(** C12: a lost wake-up: when the future of a cancelled task panics, the guard
    tests for an awaiter in the word it loaded before it cleared [RUNNING].
    An awaiter that registers in between is never woken: an execution ends
    with nothing under way, the task closed and neither scheduled nor
    running, no runnable and no waker left, and the last poll of the handle
    pending with its awaiter still in the cell. *)
Theorem task_guard_lost_wakeup : exists es c,
  Conc.run (taskcode true) taskstart taskfinish es (task_pool 2) = Some c /\
  Forall (fun t => running t = None) (threads c) /\
  owns <$> threads c = [None; Some Pending] /\
  cell (shared c) = Some 7%nat /\ woken (shared c) = [] /\
  has (word (shared c)) CLOSED = true /\ has (word (shared c)) (Z.lor SCHEDULED RUNNING) = false /\
  wakers (shared c) = 0%nat /\ runnables (shared c) = 0%nat /\ handle (shared c) = true.
Proof.
  exists panic_run, (task_run panic_run). split; [apply after_run; vm_compute; reflexivity|].
  split; [|vm_compute; repeat split; reflexivity]. vm_compute. repeat constructor.
Qed.

(** C13: a leak: a detached task whose future returns [Pending] without having
    kept a waker is freed with the future still in it, so the future is never
    dropped. *)
Theorem task_pending_leak : exists es c,
  Conc.run (taskcode true) taskstart taskfinish es (task_pool 2) = Some c /\
  Forall (fun t => running t = None) (threads c) /\
  alive (shared c) = false /\ fut (shared c) = FPresent /\ leaked (shared c) = true.
Proof.
  exists ([EStart 1%nat (ODetach 9)] ++ tsteps 1 4 ++ [EStart 0%nat (ORun 9)] ++ tsteps 0 14).
  eexists. split; [apply after_run; vm_compute; reflexivity|].
  split; [vm_compute; repeat constructor|vm_compute; repeat split; reflexivity].
Qed.
